(* ===== verification/_CoqProject ===== *)
-Q . S2P
Prelude.v
JsNumber.v
Buffer.v
Alloc.v
JsString.v
Float.v
NumText.v
Utf8.v
VInt.v
Duration.v
Integer.v
ProtocolVersion.v
LocalDate.v
LocalTime.v
ValueTypes.v
CqlTypes.v
Frame.v
TypeNames.v
JsValue.v
Encoder.v
EncoderScalars.v
EncoderProofs.v
RoutingKey.v
Results.v
LongArith.v
Timestamps.v
TimeUuid.v
Token.v
LoadBalancing.v
Concurrent.v
Collections.v
AsyncFlow.v
ExecutionOptions.v
Client.v
Tree.v
Mapping.v
QueryGen.v
QueryGenProofs.v
MappingHandler.v
MapperProofs.v
ClientOptions.v
RequestLogger.v
Schedules.v
Rounding.v
IntegerText.v
Streams.v
Hosts.v
PromiseUtils.v
Helpers.v
Jitter.v
