(* ===== verification/Prelude.v ===== *)
(** * Verification of the ScyllaDB Node.js RS driver (JavaScript layer)

    The driver is a JavaScript layer over the ScyllaDB Rust driver.  The Rust layer
    speaks the protocol with the cluster; the JavaScript layer turns the user's values
    into the bytes of the protocol and back, decides the type of a value or reads it
    from the description of a column, computes routing keys and timestamps, holds the
    value types of CQL (durations, varints, dates, UUIDs and so on), pages through
    results, runs many executions concurrently and maps documents to tables.  This development models that layer
    file by file and proves what it promises.

    ** How the code is modelled

    A function that may throw returns [result]: [Ok] or [Err] with the class of the
    error and the fixed part of its message, and the text it quotes where a theorem depends
    on it.  Strings are lists of UTF-16 code units
    ([jsstr]), Buffers are lists of bytes ([bytes]), Numbers are IEEE doubles of the
    Standard Library ([number]), BigInts and Longs are integers with their width
    written out where the code wraps.  State the code keeps in closures, module
    variables or private fields is a record that the operations take and return.
    Asynchronous code is a step relation whose steps are the pieces between suspensions.

    What is not code of the repository is a parameter with named hypotheses: the
    conversions of the runtime ([Unicode], [Host] with [LongLaws]), the 64-bit integers
    of the [long] package ([LongArith] with [LongArithLaws]), uninitialised memory
    ([Allocator]), the tokenizer of the ring ([Tokenizer]), the clock and random numbers
    (arguments).  Each has a concrete instance that the witnesses evaluate.

    ** Files

    - [Prelude]: results, errors, strings, hint databases, tactics and shared lemmas.
      [JsNumber], [Buffer], [Alloc], [JsString], [Float], [NumText], [Utf8]: the parts of
      the language and of Node.js that the code uses (32-bit operators, Numbers, Buffers,
      string functions, double and single precision bytes, number texts, encodings).
    - [VInt]: lib/utils.js, VIntCoding.  [Duration]: lib/types/duration.js.  [Integer]:
      lib/types/integer.js.  [LocalDate], [LocalTime]: the files of the same names.
      [ValueTypes]: Long, Uuid, InetAddress, BigDecimal.  [ProtocolVersion]:
      lib/types/protocol-version.js and version-number.ts.  [TimeUuid]:
      lib/types/time-uuid.js.  [LongArith]: the interface of Long.
    - [CqlTypes]: descriptions of column types and their names (lib/types/index.js).
      [Frame]: frame headers and the reader (lib/types/index.js, lib/reader.js).
      [TypeNames]: the parsers of type names and class names of lib/encoder.js.
    - [JsValue]: the values the encoder handles.  [Encoder]: lib/encoder.js, every
      encoding and decoding method.  [EncoderScalars], [EncoderProofs]: its theorems.
    - [RoutingKey]: the routing key methods of lib/encoder.js over the fields of
      lib/execution-options.js.  [Results]: lib/types/cql-utils.ts, row.js,
      results-wrapper.js and result-set.js.
    - [Timestamps]: lib/policies/timestamp-generation.js, generateTimestamp and
      getOrGenerateTimestamp.  [Token]: lib/token.js.  [LoadBalancing]:
      lib/policies/load-balancing.js.  [Concurrent]: lib/concurrent/index.js.
    - [Collections]: arrays, sets of keys, objects and named parameters of lib/utils.js.
      [AsyncFlow]: its callback helpers and AddressResolver.  [ExecutionOptions]:
      lib/execution-profile.ts, lib/execution-options.js, lib/query-options.js.
      [Client]: lib/client.ts with lib/cache.js and the parameter checks of
      lib/new-utils.ts.
    - The object mapper of lib/mapping.  [Tree]: tree.js.  [Mapping]: q.js, table-mappings.js,
      model-mapping-info.js, doc-info-adapter.js and the keys of cache.js.  [QueryGen]:
      object-selector.js and query-generator.js, with the generated scripts read back and run;
      [QueryGenProofs]: its theorems.  [MappingHandler]: mapping-handler.js, model-mapper.js,
      the batch files, mapper.js, result-mapper.js and result.js; [MapperProofs]: its theorems.
    - [ClientOptions]: lib/client-options.js, deepExtend of lib/utils.js and
      lib/policies/retry.js, as the constructor of Client composes them.  [RequestLogger]:
      lib/tracker/request-logger.js.  [Schedules]: lib/policies/reconnection.js,
      speculative-execution.js and address-resolution.js.
    - [Rounding]: bounds of sums, products and quotients of Numbers.  [IntegerText]: division
      and text of lib/types/integer.js, and arithmetic and text of lib/types/big-decimal.ts.
      [Streams]: lib/types/result-stream.js over the base class Readable of Node.js, and [stream]
      of lib/client.ts.  [Hosts]:
      lib/host.ts.  [PromiseUtils]: lib/promise-utils.js.  [Helpers]: the text of versions,
      [log] and [callbackOnce] of lib/utils.js, and the conversion from BigInt to Long.
      [Jitter]: monotonic rounding, and the random part of the delays of [Schedules].

    The parts interact as in the code: [Encoder] calls the value types and the type
    names; [RoutingKey] and [Results] call [Encoder]; [Client] composes named parameters,
    options, the encoder and the results over a session of the Rust layer, which is a
    record of operations on a world of its own; [EncoderProofs] is what they rely on.
    [MappingHandler] calls [QueryGen], which calls [Mapping], over a client that is again such
    a record, and keeps what they make in a [Tree] for each kind of request.

    Plain objects are lists of own properties; assigning the property __proto__ stores
    nothing, as in the language, and theorems about names exclude it.  Asynchronous code
    whose calls interleave is a transition system ([Concurrent], [AsyncFlow], the
    connection of [Client]); elsewhere an asynchronous function is its sequence of
    effects.

    ** What the theorems show

    - Round trips: the encoder and the decoder on every typed value, collections, user
      defined types, tuples and vectors nested to any depth, with what becomes of empty lists
      and sets, which are encoded as null ([decode_encode]); pages of
      results ([getRows_page]); frame headers; variable length integers; durations,
      dates, varints, decimals, UUIDs as bytes or text ([integer_text_roundtrip],
      [decimal_text_roundtrip]); versions ([version_text_roundtrip]); names of types.
    - Safety: a routing key determines the partition key ([routing_key_determines_values]);
      concurrent execution never executes an item twice nor exceeds its level
      ([array_executor_safe]; [stream_executor_correct] for streams that emit no items between
      the handlers of a request); timestamps increase ([monotonic_increasing]); splitting a
      token range partitions it ([splitEvenly_partition]).
    - End to end: the buffers sent for a prepared statement decode to the values the user
      gave ([execute_prepared_sends]), the rows of all pages are delivered
      ([each_row_delivers]), page states resume ([page_state_resumes]), batches prepare
      once and send what was encoded ([batch_prepares_once]), named parameters are bound or the
      missing one is named ([named_params_bound]), the settings of an execution take effect in their
      order ([effective_settings], [profiles_complete]).
    - Callbacks and connections under every schedule: [fan_out_callback],
      [times_limit_correct], [series_correct], [connection_correct], [times_calls].
    - Streams of rows under every order of pages and reads lose, double and reorder nothing and,
      with manual paging, ask for a page only when it is wanted ([stream_rows]); a consumer
      that goes on reading gets every row and the end after finitely many steps
      ([stream_finishes]).  The map of hosts finds what it holds ([hostmap_lookup]); events
      are logged by their level ([log_levels]).
    - The mapper: the tree is a finite map under any sequence of operations
      ([tree_is_a_map]); the parameters of a generated query are those its placeholders stand
      for ([select_parameters], [update_parameters], [insert_parameters],
      [delete_parameters]); tables are chosen by the key and columns given ([select_first],
      [update_tables]); a handler with caches answers as one without
      ([insert_cache_transparent], [select_cache_transparent]); rows are mapped by the
      names and functions of the model ([row_mapped], [camel_snake_inverse], [names_roundtrip]).
    - Options: settings are layered over the defaults ([settings_layered], [groups_defined]),
      options that pass the validation have the types the driver relies on ([extend_valid],
      [tls_options_valid]) and reach the session of the Rust layer ([client_options_session]).
    - Messages of the request logger are bounded ([statement_bounded]) and complete when there
      is room ([params_described]), one event at most for a request ([events_in_order]);
      schedules: [delays_double], [jitter_bounds], [speculative_plan], [ec2_translate_total].
    - Functional behaviour on every branch: routing keys, durations' parsers, protocol
      version negotiation, query plans ([query_plan_complete]), allow lists.
    - Equivalence and refinement: arithmetic of Integer refines that of the integers;
      the timestamp generator is equivalent to its specification ([monotonic_reference]);
      HashSet implements a set ([hashset_is_a_set]); decimals add and compare exactly while
      their scales are close ([decimal_arithmetic]).
    - Termination and liveness: parsers, version negotiation, asynchronous iteration
      ([for_await_rows]), the array executor ([array_executor_terminates]), the division of
      Integers, whose quotients are approximated by Numbers ([divide_correct]).
    - Errors and bounds: what is refused and with which error; the ranges for which
      arithmetic is exact.

    Some theorems show code that does not do what it means to; they are named where
    they stand (multiplication of large Integers, negotiation order, utcNow, addresses,
    type names, empty pages, shared configurations, the name __proto__, empty [parallel]
    and [timesLimit], options that are not passed on, shutdown while connecting, keys of
    the mapper's caches that confuse requests, credentials that are not validated, division
    of Integers from 2^1024 on, texts in radix 36 and of decimals with a negative scale,
    comparison of decimals of distant scales, builds after a pre-release label, empty
    collections inside other values, the level of streams that emit items between handlers,
    operators on the key of an UPDATE, delays outside of the bounds of the policy, streams with
    automatic paging).

    ** Fuel and bounds

    Recursion is structural wherever the code's is.  Fuel appears in the loops over
    digits and bytes ([varint_parts], number texts), where it is the number of bits of
    the argument and the lemmas show it is enough; in the text parsers, where it is the
    length of the text; in binary search, where it is the length of the array and one; and
    in asynchronous iteration and [eachRow], where the theorems ask for the number of rows
    and one, and the number of pages.  The loops of the division of Integers take at most as
    many turns as the dividend, or the approximated quotient, and one, counted in binary; the
    theorem shows that below 2^768 they end before, and [division_stuck] that from 2^1024 on no
    number of turns is enough.  [EncoderProofs] bounds values by the length fields of
    the protocol (2^31, or the RangeError of the code); [Timestamps] bounds the calls by
    3*10^14, beyond which the generator's own date leaves the exact Numbers; [TimeUuid]
    bounds dates by the 60 bits of the timestamp; [CqlTypes] bounds the dimension of a vector in a
    type name by 10^15, below which a Number prints its digits.  In [Streams] the weight of
    what remains to be done decreases with every step that changes something.

    ** Not modelled

    The Rust layer, network and file access, metadata classes, metrics, authentication,
    error classes, geometry, and the deprecated DataStax parts that only throw.  Of the client:
    logging of its own, and the forms of its optional arguments.  Of streams: a function of the
    valve that would give a new one before it returns, which the pages of the Rust layer never do.  Of the
    mapper: requests that overlap before the first has filled its cached object, and log
    messages.  Of the options: getters, and properties named __proto__ or constructor.  Of
    lib/utils.js: the comparison functions and the
    helpers of one line; of the load balancing policies: those that only wrap others.  The
    decimal text of tokens and the lazily read fields of result sets are left out of files that
    are otherwise modelled. *)

From stdpp Require Export base list option numbers strings tactics.
From Stdlib Require Export ZArith Lia.

#[export] Set Default Goal Selector "!".

Global Open Scope Z_scope.

(** ** Errors and fallible code

    A JavaScript function that may throw becomes a function into [result].
    The constructors of [error] are the classes the driver throws; the string
    is the fixed part of the message.  [ArgumentErrorAt] is an ArgumentError whose message
    also quotes a text, as code units. *)

Inductive error : Type :=
| TypeError (msg : string)
| RangeError (msg : string)
| SyntaxError (msg : string)
| ReferenceError (msg : string)
| PlainError (msg : string)
| ArgumentError (msg : string)
| ArgumentErrorAt (msg : string) (quoted : list Z)
| DriverInternalError (msg : string).

#[export] Instance error_eq_dec : EqDecision error.
Proof. solve_decision. Defined.

Inductive result (A : Type) : Type :=
| Ok (a : A)
| Err (e : error).

Arguments Ok {A} a.
Arguments Err {A} e.

#[export] Instance result_eq_dec {A} `{EqDecision A} : EqDecision (result A).
Proof. solve_decision. Defined.

#[export] Instance result_ret : MRet result := fun A => @Ok A.

#[export] Instance result_bind : MBind result := fun A B k m =>
  match m with Ok a => k a | Err e => Err e end.

#[export] Instance result_fmap : FMap result := fun A B f m =>
  match m with Ok a => Ok (f a) | Err e => Err e end.

Definition is_ok {A} (r : result A) : bool :=
  match r with Ok _ => true | Err _ => false end.

(** [throw_if b e] is the guard [if (b) throw e]. *)
Definition throw_if (b : bool) (e : error) : result unit :=
  if b then Err e else Ok tt.

(** Left-to-right traversal, stopping at the first error. *)
Fixpoint traverse {A B} (f : A -> result B) (l : list A) : result (list B) :=
  match l with
  | [] => Ok []
  | x :: l => y ← f x; ys ← traverse f l; Ok (y :: ys)
  end.

(** ** JavaScript strings: sequences of UTF-16 code units *)

Abbreviation jsstr := (list Z).

Fixpoint js (s : string) : jsstr :=
  match s with
  | EmptyString => []
  | String a s => Z.of_nat (Ascii.nat_of_ascii a) :: js s
  end.

(** Byte buffers: every element of a well formed buffer is a byte. *)

Abbreviation bytes := (list Z).

Definition is_byte (b : Z) : Prop := 0 <= b < 256.
Definition wf_bytes (b : bytes) : Prop := Forall is_byte b.

#[export] Instance is_byte_dec b : Decision (is_byte b).
Proof. unfold is_byte. apply _. Defined.

#[export] Instance wf_bytes_dec b : Decision (wf_bytes b).
Proof. unfold wf_bytes. apply _. Defined.

(** ** Tactics and hint databases *)

Create HintDb driver.
Create Rewrite HintDb driver_rw.

Ltac Zify.zify_post_hook ::= Z.to_euclidean_division_equations.

(** Splits every boolean integer comparison that an [if] of the goal tests. *)
Ltac case_Z :=
  match goal with
  | |- context [?a <? ?b] => destruct (Z.ltb_spec a b)
  | |- context [?a <=? ?b] => destruct (Z.leb_spec a b)
  | |- context [?a =? ?b] => destruct (Z.eqb_spec a b)
  end.

Ltac case_Z_in H :=
  match type of H with
  | context [?a <? ?b] => destruct (Z.ltb_spec a b)
  | context [?a <=? ?b] => destruct (Z.leb_spec a b)
  | context [?a =? ?b] => destruct (Z.eqb_spec a b)
  end.

(** Inverts [m ≫= k = Ok v]. *)
Ltac bind_inv H :=
  match type of H with
  | mbind _ ?m = Ok _ =>
      let E := fresh "E" in
      destruct m eqn:E; [simpl in H|discriminate H]
  end.

(** ** Results *)

Lemma ok_bind {A B} (a : A) (k : A -> result B) : (Ok a ≫= k) = k a.
Proof. reflexivity. Qed.

Lemma bind_ok {A B} (m : result A) (k : A -> result B) v :
  m ≫= k = Ok v <-> exists a, m = Ok a /\ k a = Ok v.
Proof.
  split.
  - destruct m; simpl; [eauto|discriminate].
  - intros (a & -> & H). exact H.
Qed.

Lemma traverse_ok {A B} (f : A -> result B) l l' :
  traverse f l = Ok l' <-> Forall2 (fun x y => f x = Ok y) l l'.
Proof.
  revert l'. induction l as [|x l IH]; intros l'; simpl.
  - split; [intros [= <-]; constructor|inversion 1; reflexivity].
  - rewrite bind_ok. split.
    + intros (y & Hy & Hr). apply bind_ok in Hr as (ys & Hys & [= <-]).
      constructor; [exact Hy|]. by apply IH.
    + inversion 1 as [|? y ? ys Hy Hys]; subst.
      exists y. split; [exact Hy|]. apply bind_ok.
      exists ys. split; [by apply IH|reflexivity].
Qed.

Lemma traverse_total {A B} (f : A -> result B) (g : A -> B) l :
  (forall x, x ∈ l -> f x = Ok (g x)) -> traverse f l = Ok (g <$> l).
Proof.
  induction l as [|x l IH]; intros Hf; [done|]. cbn [traverse].
  rewrite Hf by left. rewrite ok_bind, IH by (intros; apply Hf; by right). done.
Qed.

Lemma traverse_app {A B} (f : A -> result B) l1 l2 :
  traverse f (l1 ++ l2) =
  (y1 ← traverse f l1; y2 ← traverse f l2; Ok (y1 ++ y2)).
Proof.
  induction l1 as [|x l1 IH]; simpl.
  - by destruct (traverse f l2).
  - destruct (f x); simpl; [|done]. rewrite IH.
    destruct (traverse f l1); simpl; [|done]. by destruct (traverse f l2).
Qed.

(** ** Integers and bits *)

Lemma land_disjoint_shiftl a b n :
  0 <= n -> 0 <= b < 2 ^ n -> Z.land (Z.shiftl a n) b = 0.
Proof.
  intros Hn Hb. apply Z.bits_inj'. intros i Hi.
  rewrite Z.land_spec, Z.bits_0, Z.shiftl_spec by lia.
  destruct (Z.lt_ge_cases i n) as [Hlt|Hge].
  - by rewrite Z.testbit_neg_r by lia.
  - rewrite <- (Z.mod_small b (2 ^ n)) by lia.
    rewrite Z.mod_pow2_bits_high by lia. apply andb_false_r.
Qed.

Lemma lor_shiftl_add a b n :
  0 <= n -> 0 <= b < 2 ^ n -> Z.lor (Z.shiftl a n) b = a * 2 ^ n + b.
Proof.
  intros Hn Hb. pose proof (land_disjoint_shiftl a b n Hn Hb) as Hd.
  rewrite <- Z.lxor_lor, <- Z.add_nocarry_lxor by exact Hd.
  by rewrite Z.shiftl_mul_pow2.
Qed.

Lemma lor_mul_add a b n :
  0 <= n -> 0 <= b < 2 ^ n -> Z.lor (a * 2 ^ n) b = a * 2 ^ n + b.
Proof. intros. rewrite <- (lor_shiftl_add a b n) by lia. by rewrite Z.shiftl_mul_pow2. Qed.

Lemma land_255 x : Z.land x 255 = x mod 256.
Proof. apply (Z.land_ones x 8). lia. Qed.

Lemma land_1 x : Z.land x 1 = x mod 2.
Proof. apply (Z.land_ones x 1). lia. Qed.

Lemma land_uint32 x : Z.land x 4294967295 = x mod 2 ^ 32.
Proof. apply (Z.land_ones x 32). lia. Qed.

Lemma land_65535 x : Z.land x 65535 = x mod 65536.
Proof. apply (Z.land_ones x 16). lia. Qed.

Lemma lnot_eq x : Z.lnot x = - x - 1.
Proof. unfold Z.lnot. lia. Qed.

Lemma pow2_pos n : 0 <= n -> 0 < 2 ^ n.
Proof. intros. apply Z.pow_pos_nonneg; lia. Qed.

#[export] Hint Resolve pow2_pos : driver.

Lemma pow256 n : 256 ^ Z.of_nat (S n) = 256 * 256 ^ Z.of_nat n.
Proof. rewrite Nat2Z.inj_succ, Z.pow_succ_r; lia. Qed.

Lemma pow256_pos n : 0 < 256 ^ Z.of_nat n.
Proof. apply Z.pow_pos_nonneg; lia. Qed.

#[export] Hint Resolve pow256_pos : driver.

(** ** Lists *)

Lemma wf_bytes_app a b : wf_bytes (a ++ b) <-> wf_bytes a /\ wf_bytes b.
Proof. apply Forall_app. Qed.

Lemma wf_bytes_take n b : wf_bytes b -> wf_bytes (take n b).
Proof. apply Forall_take. Qed.

Lemma wf_bytes_drop n b : wf_bytes b -> wf_bytes (drop n b).
Proof. apply Forall_drop. Qed.

#[export] Hint Resolve wf_bytes_take wf_bytes_drop : driver.

Lemma take_length_app {A} (l k : list A) : take (length l) (l ++ k) = l.
Proof. by rewrite take_app_length. Qed.
