(* ===== verification/JsNumber.v ===== *)
(** * JavaScript numbers

    The parts of the language the driver computes with: the 32-bit operators
    ([|], [&], [^], [~], [<<], [>>], [>>>]) on integral Numbers, the BigInt
    operations [asIntN] and [asUintN], and the Number type itself as IEEE 754
    binary64 data ([SpecFloat.spec_float]) with the conversions between Number
    and integers that the typed buffers apply. *)

From Stdlib Require Import SpecFloat.
From S2P Require Import Prelude.

(** ** 32-bit integer operators

    ToInt32 and ToUint32 on an integral Number, and the operators defined from
    them.  A shift count is taken modulo 32. *)

Definition to_uint32 (x : Z) : Z := x mod 2 ^ 32.
Definition to_int32 (x : Z) : Z := (x + 2 ^ 31) mod 2 ^ 32 - 2 ^ 31.

Definition js_ushr (x n : Z) : Z := Z.shiftr (to_uint32 x) (n mod 32).
Definition js_shr (x n : Z) : Z := Z.shiftr (to_int32 x) (n mod 32).
Definition js_shl (x n : Z) : Z := to_int32 (Z.shiftl (to_int32 x) (n mod 32)).
Definition js_or (x y : Z) : Z := Z.lor (to_int32 x) (to_int32 y).
Definition js_and (x y : Z) : Z := Z.land (to_int32 x) (to_int32 y).
Definition js_xor (x y : Z) : Z := Z.lxor (to_int32 x) (to_int32 y).
Definition js_not (x : Z) : Z := Z.lnot (to_int32 x).

Declare Scope js_scope.
Delimit Scope js_scope with js.
Notation "x '>>>' n" := (js_ushr x n) (at level 50, left associativity) : js_scope.
Notation "x '>>' n" := (js_shr x n) (at level 50, left associativity) : js_scope.
Notation "x '<<' n" := (js_shl x n) (at level 50, left associativity) : js_scope.
Notation "x '.|' y" := (js_or x y) (at level 60, right associativity) : js_scope.
Notation "x '.&' y" := (js_and x y) (at level 55, right associativity) : js_scope.
Notation "'.~' x" := (js_not x) (at level 35, right associativity) : js_scope.

(** BigInt.asUintN and BigInt.asIntN *)

Definition asUintN (w x : Z) : Z := x mod 2 ^ w.
Definition asIntN (w x : Z) : Z := (x + 2 ^ (w - 1)) mod 2 ^ w - 2 ^ (w - 1).

Definition int32 (x : Z) : Prop := - 2 ^ 31 <= x < 2 ^ 31.
Definition uint32 (x : Z) : Prop := 0 <= x < 2 ^ 32.
Definition int64 (x : Z) : Prop := - 2 ^ 63 <= x < 2 ^ 63.
Definition uint64 (x : Z) : Prop := 0 <= x < 2 ^ 64.

#[export] Instance int32_dec x : Decision (int32 x).
Proof. unfold int32. apply _. Defined.
#[export] Instance int64_dec x : Decision (int64 x).
Proof. unfold int64. apply _. Defined.

(** ** The Number type *)

Abbreviation number := spec_float.

Definition prec64 : Z := 53.
Definition emax64 : Z := 1024.

(** The Number nearest to an integer (ties to even). *)
Definition num_of_Z (z : Z) : number := binary_normalize prec64 emax64 z 0 false.

Definition is_nan (x : number) : bool :=
  match x with S754_nan => true | _ => false end.

Definition is_finite (x : number) : bool :=
  match x with S754_zero _ | S754_finite _ _ _ => true | _ => false end.

(** Truncation towards zero: the integer an integer conversion starts from. *)
Definition num_trunc (x : number) : Z :=
  match x with
  | S754_finite s m e =>
      let a := if 0 <=? e then Z.pos m * 2 ^ e else Z.pos m / 2 ^ (- e) in
      if s then - a else a
  | _ => 0
  end.

(** Number.isInteger *)
Definition num_is_integer (x : number) : bool :=
  match x with
  | S754_zero _ => true
  | S754_finite _ m e => (0 <=? e) || (Z.pos m mod 2 ^ (- e) =? 0)
  | _ => false
  end.

(** Comparison of a Number with an integer constant; [None] for NaN. *)
Definition num_cmpZ (x : number) (z : Z) : option comparison :=
  match x with
  | S754_nan => None
  | S754_infinity s => Some (if s then Lt else Gt)
  | S754_zero _ => Some (0 ?= z)
  | S754_finite s m e =>
      let v := if s then Z.neg m else Z.pos m in
      Some (v * 2 ^ Z.max e 0 ?= z * 2 ^ Z.max (- e) 0)
  end.

Definition num_ltZ (x : number) (z : Z) : bool :=
  match num_cmpZ x z with Some Lt => true | _ => false end.
Definition num_gtZ (x : number) (z : Z) : bool :=
  match num_cmpZ x z with Some Gt => true | _ => false end.

(** ** Lemmas *)

Lemma to_int32_range x : int32 (to_int32 x).
Proof. unfold int32, to_int32. lia. Qed.

Lemma to_uint32_range x : uint32 (to_uint32 x).
Proof. unfold uint32, to_uint32. lia. Qed.

Lemma to_int32_id x : int32 x -> to_int32 x = x.
Proof. unfold int32, to_int32. lia. Qed.

Lemma to_uint32_id x : uint32 x -> to_uint32 x = x.
Proof. unfold uint32, to_uint32. lia. Qed.

Lemma to_uint32_to_int32 x : to_uint32 (to_int32 x) = to_uint32 x.
Proof. unfold to_uint32, to_int32. lia. Qed.

Lemma to_int32_to_uint32 x : to_int32 (to_uint32 x) = to_int32 x.
Proof. unfold to_uint32, to_int32. lia. Qed.

Lemma to_int32_idem x : to_int32 (to_int32 x) = to_int32 x.
Proof. apply to_int32_id, to_int32_range. Qed.

Lemma to_uint32_idem x : to_uint32 (to_uint32 x) = to_uint32 x.
Proof. apply to_uint32_id, to_uint32_range. Qed.

#[export] Hint Resolve to_int32_range to_uint32_range : driver.
#[export] Hint Rewrite to_uint32_to_int32 to_int32_to_uint32 to_int32_idem
  to_uint32_idem : driver_rw.

Lemma js_ushr_div x n : 0 <= n < 32 -> js_ushr x n = x mod 2 ^ 32 / 2 ^ n.
Proof.
  intros. unfold js_ushr, to_uint32.
  rewrite Z.shiftr_div_pow2, (Z.mod_small n 32) by lia. done.
Qed.

Lemma js_shr_div x n : 0 <= n < 32 -> js_shr x n = to_int32 x / 2 ^ n.
Proof.
  intros. unfold js_shr.
  rewrite Z.shiftr_div_pow2, (Z.mod_small n 32) by lia. done.
Qed.

Lemma js_shl_mul x n : 0 <= n < 32 -> js_shl x n = to_int32 (x * 2 ^ n).
Proof.
  intros. unfold js_shl.
  rewrite Z.shiftl_mul_pow2, (Z.mod_small n 32) by lia.
  assert (He : exists k, to_int32 x = x + k * 2 ^ 32).
  { exists (- ((x + 2 ^ 31) / 2 ^ 32)). unfold to_int32. lia. }
  destruct He as [k ->].
  replace ((x + k * 2 ^ 32) * 2 ^ n) with (x * 2 ^ n + (k * 2 ^ n) * 2 ^ 32) by ring.
  generalize (x * 2 ^ n) (k * 2 ^ n). intros. unfold to_int32. lia.
Qed.

Lemma js_and_255 x : js_and x 255 = x mod 256.
Proof. unfold js_and, to_int32. rewrite land_255. lia. Qed.

Lemma js_and_65535 x : js_and x 65535 = x mod 65536.
Proof. unfold js_and, to_int32. rewrite land_65535. lia. Qed.

Lemma js_not_eq x : int32 x -> js_not x = - x - 1.
Proof. intros. unfold js_not. rewrite to_int32_id by done. apply lnot_eq. Qed.

Lemma js_or_disjoint a b n :
  0 <= n < 32 -> int32 (a * 2 ^ n) -> 0 <= b < 2 ^ n -> int32 b ->
  js_or (a * 2 ^ n) b = a * 2 ^ n + b.
Proof.
  intros. unfold js_or. rewrite !to_int32_id by done. apply lor_mul_add; lia.
Qed.

Lemma asIntN_id w x : 0 < w -> - 2 ^ (w - 1) <= x < 2 ^ (w - 1) -> asIntN w x = x.
Proof.
  intros Hw Hx. unfold asIntN.
  assert (E : 2 ^ w = 2 * 2 ^ (w - 1)).
  { rewrite <- Z.pow_succ_r by lia. f_equal. lia. }
  rewrite Z.mod_small; lia.
Qed.

Lemma asUintN_id w x : 0 <= x < 2 ^ w -> asUintN w x = x.
Proof. apply Z.mod_small. Qed.

(** *** Integers as Numbers *)

Definition fexp64 : Z -> Z := SpecFloat.fexp prec64 emax64.

Lemma digits2_pos_spec p :
  2 ^ (Z.pos (digits2_pos p) - 1) <= Z.pos p < 2 ^ Z.pos (digits2_pos p).
Proof.
  induction p as [p IH|p IH|]; cbn [digits2_pos]; [| |lia].
  all: rewrite Pos2Z.inj_succ; unfold Z.succ;
    replace (Z.pos (digits2_pos p) + 1 - 1) with (Z.pos (digits2_pos p) - 1 + 1) by lia;
    rewrite !Z.pow_add_r by lia; lia.
Qed.

Lemma digits2_pos_unique p d :
  0 < d -> 2 ^ (d - 1) <= Z.pos p < 2 ^ d -> Z.pos (digits2_pos p) = d.
Proof.
  intros Hd Hp. pose proof (digits2_pos_spec p) as Hs.
  assert (2 ^ (d - 1) < 2 ^ Z.pos (digits2_pos p)) as H1 by lia.
  assert (2 ^ (Z.pos (digits2_pos p) - 1) < 2 ^ d) as H2 by lia.
  apply Z.pow_lt_mono_r_iff in H1; [|lia|lia].
  apply Z.pow_lt_mono_r_iff in H2; lia.
Qed.

Lemma shift_pos_mul n p : Z.pos (shift_pos n p) = Z.pos p * 2 ^ Z.pos n.
Proof. rewrite shift_pos_correct, Z.mul_comm. done. Qed.

(** A mantissa of at most 53 bits is represented exactly. *)
Lemma binary_round_exact s p e :
  -1074 <= e -> Z.pos p < 2 ^ 53 -> Z.pos (digits2_pos p) + e <= 1024 ->
  exists m k, binary_round prec64 emax64 s p e = S754_finite s m (e - k) /\
    k = e - fexp64 (Z.pos (digits2_pos p) + e) /\ 0 <= k /\ Z.pos m = Z.pos p * 2 ^ k.
Proof.
  intros He Hp Hd. pose proof (digits2_pos_spec p) as Hs.
  assert (Hd53 : Z.pos (digits2_pos p) <= 53).
  { destruct (Z.le_gt_cases (Z.pos (digits2_pos p)) 53) as [|Hgt]; [done|].
    assert (2 ^ 53 <= 2 ^ (Z.pos (digits2_pos p) - 1))
      by (apply Z.pow_le_mono_r; lia). lia. }
  unfold binary_round, shl_align.
  set (ex' := fexp prec64 emax64 (Z.pos (digits2_pos p) + e)).
  assert (Hex : ex' <= e) by (unfold ex', fexp, emin, prec64, emax64; lia).
  set (k := e - ex').
  assert (Hal : exists m, (match ex' - e with
      | Zneg d => (Pos.iter xO p d, ex') | _ => (p, e) end) = (m, ex') /\
      Z.pos m = Z.pos p * 2 ^ k).
  { subst k. destruct (ex' - e) as [|q|q] eqn:E.
    - exists p. replace (e - ex') with 0 by lia. rewrite Z.mul_1_r.
      split; [f_equal; lia|done].
    - lia.
    - exists (Pos.iter xO p q). split; [done|].
      change (Pos.iter xO p q) with (shift_pos q p). rewrite shift_pos_mul.
      replace (e - ex') with (Z.pos q) by lia. done. }
  destruct Hal as (m & -> & Hm).
  exists m, k. split; [|split; [done|split; [lia|done]]].
  assert (Hdm : Z.pos (digits2_pos m) = Z.pos (digits2_pos p) + k).
  { apply digits2_pos_unique; [lia|]. rewrite Hm.
    replace (Z.pos (digits2_pos p) + k - 1) with (Z.pos (digits2_pos p) - 1 + k) by lia.
    rewrite !Z.pow_add_r by lia. pose proof (pow2_pos k). nia. }
  assert (Hf : fexp prec64 emax64 (Zdigits2 (Z.pos m) + ex') = ex').
  { cbn [Zdigits2]. rewrite Hdm. subst k.
    replace (Z.pos (digits2_pos p) + (e - ex') + ex')
      with (Z.pos (digits2_pos p) + e) by lia. done. }
  unfold binary_round_aux, shr_fexp.
  rewrite Hf, Z.sub_diag. cbn [shr shr_record_of_loc shr_m loc_of_shr_record round_nearest_even].
  rewrite Hf, Z.sub_diag. cbn [shr shr_m].
  assert (ex' <= emax64 - prec64)
    by (unfold ex', fexp, emin, prec64, emax64 in *; lia).
  rewrite Zle_imp_le_bool by lia.
  replace (e - k) with ex' by lia. done.
Qed.

Definition safe_int (z : Z) : Prop := - 2 ^ 53 < z < 2 ^ 53.

Lemma num_of_Z_finite z :
  safe_int z -> z <> 0 ->
  exists m k, num_of_Z z = S754_finite (z <? 0) m (- k) /\ 0 <= k /\
    Z.pos m = Z.abs z * 2 ^ k.
Proof.
  unfold safe_int. intros Hz Hnz. unfold num_of_Z, binary_normalize.
  destruct z as [|p|p]; [done| |].
  all: assert (Hd : Z.pos (digits2_pos p) <= 53) by
    (pose proof (digits2_pos_spec p);
     destruct (Z.le_gt_cases (Z.pos (digits2_pos p)) 53); [done|];
     assert (2 ^ 53 <= 2 ^ (Z.pos (digits2_pos p) - 1))
       by (apply Z.pow_le_mono_r; lia); lia).
  - destruct (binary_round_exact false p 0) as (m & k & E & _ & Hk & Hm); [lia|lia|lia|].
    exists m, k. rewrite E. replace (0 - k) with (- k) by lia. auto.
  - destruct (binary_round_exact true p 0) as (m & k & E & _ & Hk & Hm); [lia|lia|lia|].
    exists m, k. rewrite E. replace (0 - k) with (- k) by lia. auto.
Qed.

Lemma num_trunc_of_Z z : safe_int z -> num_trunc (num_of_Z z) = z.
Proof.
  intros Hz. destruct (decide (z = 0)) as [->|Hnz]; [reflexivity|].
  destruct (num_of_Z_finite z Hz Hnz) as (m & k & -> & Hk & Hm).
  cbn [num_trunc].
  assert (Ha : (if 0 <=? - k then Z.pos m * 2 ^ (- k) else Z.pos m / 2 ^ (- - k))
               = Z.abs z).
  { destruct (Z.leb_spec 0 (- k)).
    - assert (k = 0) as -> by lia. rewrite Hm. simpl. lia.
    - rewrite Hm, Z.opp_involutive, Z.div_mul; [done|].
      pose proof (pow2_pos k); lia. }
  rewrite Ha. destruct (Z.ltb_spec z 0); lia.
Qed.

Lemma num_cmpZ_of_Z z c : safe_int z -> num_cmpZ (num_of_Z z) c = Some (z ?= c).
Proof.
  intros Hz. destruct (decide (z = 0)) as [->|Hnz]; [reflexivity|].
  destruct (num_of_Z_finite z Hz Hnz) as (m & k & -> & Hk & Hm).
  cbn [num_cmpZ]. f_equal.
  assert (Hv : (if z <? 0 then Z.neg m else Z.pos m) = z * 2 ^ k).
  { destruct (Z.ltb_spec z 0); [rewrite <- Pos2Z.opp_pos|]; rewrite Hm; nia. }
  rewrite Hv. rewrite Z.max_r, Z.opp_involutive, (Z.max_l k 0) by lia.
  rewrite Z.pow_0_r, Z.mul_1_r, !(Z.mul_comm _ (2 ^ k)).
  symmetry. apply Zmult_compare_compat_l. pose proof (pow2_pos k). lia.
Qed.

Lemma num_of_Z_not_nan z : safe_int z -> is_nan (num_of_Z z) = false.
Proof.
  intros Hz. destruct (decide (z = 0)) as [->|Hnz]; [reflexivity|].
  by destruct (num_of_Z_finite z Hz Hnz) as (m & k & -> & _).
Qed.

Lemma num_ltZ_of_Z z c : safe_int z -> num_ltZ (num_of_Z z) c = (z <? c).
Proof. intros. unfold num_ltZ. by rewrite num_cmpZ_of_Z. Qed.

Lemma num_gtZ_of_Z z c : safe_int z -> num_gtZ (num_of_Z z) c = (c <? z).
Proof.
  intros. unfold num_gtZ. rewrite num_cmpZ_of_Z by done.
  rewrite Z.compare_antisym, Z.ltb_compare. by destruct (c ?= z).
Qed.

#[export] Hint Rewrite num_trunc_of_Z num_of_Z_not_nan num_ltZ_of_Z num_gtZ_of_Z
  using (unfold safe_int in *; lia) : driver_rw.

Lemma num_is_integer_of_Z z : safe_int z -> num_is_integer (num_of_Z z) = true.
Proof.
  intros Hz. destruct (decide (z = 0)) as [->|Hnz]; [reflexivity|].
  destruct (num_of_Z_finite z Hz Hnz) as (m & k & -> & Hk & Hm).
  cbn [num_is_integer]. apply orb_true_intro.
  destruct (decide (k = 0)) as [->|Hk0]; [by left|right].
  rewrite Z.opp_involutive, Hm, Z.mod_mul; [done|]. pose proof (pow2_pos k). lia.
Qed.

(** An integral Number compares as its integer part. *)
Lemma num_cmpZ_integer x z :
  num_is_integer x = true -> num_cmpZ x z = Some (num_trunc x ?= z).
Proof.
  destruct x as [s| | |s m e]; cbn [num_is_integer num_cmpZ num_trunc]; try done.
  intros Hi. f_equal. destruct (Z.leb_spec 0 e) as [He|He].
  - rewrite Z.max_l, (Z.max_r (- e) 0), Z.pow_0_r, Z.mul_1_r by lia.
    f_equal. destruct s; [rewrite <- Pos2Z.opp_pos|]; lia.
  - simpl in Hi. apply Z.eqb_eq in Hi.
    rewrite Z.max_r, Z.max_l, Z.pow_0_r, Z.mul_1_r by lia.
    pose proof (pow2_pos (- e) ltac:(lia)) as Hp.
    assert (Hm : Z.pos m = Z.pos m / 2 ^ (- e) * 2 ^ (- e)).
    { rewrite (Z.div_mod (Z.pos m) (2 ^ (- e))) at 1 by lia. lia. }
    assert (Hv : (if s then Z.neg m else Z.pos m) =
      (if s then - (Z.pos m / 2 ^ (- e)) else Z.pos m / 2 ^ (- e)) * 2 ^ (- e)).
    { destruct s; [rewrite <- Pos2Z.opp_pos|]; lia. }
    rewrite Hv, !(Z.mul_comm _ (2 ^ (- e))). symmetry. apply Zmult_compare_compat_l. lia.
Qed.

Lemma num_ltZ_integer x z : num_is_integer x = true -> num_ltZ x z = (num_trunc x <? z).
Proof. intros. unfold num_ltZ. by rewrite num_cmpZ_integer. Qed.

Lemma num_gtZ_integer x z : num_is_integer x = true -> num_gtZ x z = (z <? num_trunc x).
Proof.
  intros. unfold num_gtZ. rewrite num_cmpZ_integer by done.
  rewrite Z.compare_antisym, Z.ltb_compare. by destruct (z ?= num_trunc x).
Qed.
