(* ===== verification/Buffer.v ===== *)
(** * Node.js Buffers

    The operations of Node's [Buffer] that the driver uses, on [bytes]: bounds
    checked big-endian reads ([readInt32BE] and the like), range checked
    big-endian writes, [slice]/[subarray] with their index clamping, and
    [Buffer.concat].  An allocated buffer is modelled with zero content; the
    driver overwrites every byte it allocates. *)

From Stdlib Require Import SpecFloat.
From S2P Require Import Prelude JsNumber.

Definition blen (b : bytes) : Z := Z.of_nat (length b).

(** Big-endian encoding of the low [n] bytes of [z], and its inverse. *)
Fixpoint be_bytes (n : nat) (z : Z) : bytes :=
  match n with
  | O => []
  | S n => (z / 256 ^ Z.of_nat n) mod 256 :: be_bytes n z
  end.

Fixpoint be_val (b : bytes) : Z :=
  match b with
  | [] => 0
  | x :: b => x * 256 ^ Z.of_nat (length b) + be_val b
  end.

(** Two's complement reading of an unsigned [w]-bit value. *)
Definition signed (w x : Z) : Z := if x <? 2 ^ (w - 1) then x else x - 2 ^ w.

(** The two's complement integer a byte string denotes. *)
Definition twos (b : bytes) : Z :=
  match b with [] => 0 | _ => signed (8 * Z.of_nat (length b)) (be_val b) end.

Definition alloc (n : Z) : bytes := replicate (Z.to_nat n) 0.

(** [buf[i]]: undefined out of range. *)
Definition byte_at (b : bytes) (i : Z) : option Z :=
  if i <? 0 then None else b !! Z.to_nat i.

(** Relative index of [slice]/[subarray]: negative counts from the end. *)
Definition clamp_index (len i : Z) : Z :=
  if i <? 0 then Z.max (len + i) 0 else Z.min i len.

Definition slice (b : bytes) (s e : Z) : bytes :=
  let s := clamp_index (blen b) s in
  let e := clamp_index (blen b) e in
  take (Z.to_nat (e - s)) (drop (Z.to_nat s) b).

Definition slice_from (b : bytes) (s : Z) : bytes := slice b s (blen b).

Definition out_of_range {A} : result A := Err (RangeError "ERR_OUT_OF_RANGE").

Definition read_uint (n : Z) (b : bytes) (off : Z) : result Z :=
  if (0 <=? off) && (off + n <=? blen b)
  then Ok (be_val (take (Z.to_nat n) (drop (Z.to_nat off) b)))
  else out_of_range.

Definition readUInt8 (b : bytes) (off : Z) : result Z := read_uint 1 b off.
Definition readInt8 (b : bytes) (off : Z) : result Z := signed 8 <$> read_uint 1 b off.
Definition readUInt16BE (b : bytes) (off : Z) : result Z := read_uint 2 b off.
Definition readInt16BE (b : bytes) (off : Z) : result Z := signed 16 <$> read_uint 2 b off.
Definition readUInt32BE (b : bytes) (off : Z) : result Z := read_uint 4 b off.
Definition readInt32BE (b : bytes) (off : Z) : result Z := signed 32 <$> read_uint 4 b off.

(** The bytes a range checked write of an integral value stores. *)
Definition int_bytes (n : nat) (lo hi v : Z) : result bytes :=
  if (hi <? v) || (v <? lo) then out_of_range else Ok (be_bytes n v).

Definition uint8_bytes : Z -> result bytes := int_bytes 1 0 255.
Definition int8_bytes : Z -> result bytes := int_bytes 1 (-128) 127.
Definition uint16_bytes : Z -> result bytes := int_bytes 2 0 65535.
Definition int16_bytes : Z -> result bytes := int_bytes 2 (-32768) 32767.
Definition uint32_bytes : Z -> result bytes := int_bytes 4 0 (2 ^ 32 - 1).
Definition int32_bytes : Z -> result bytes := int_bytes 4 (- 2 ^ 31) (2 ^ 31 - 1).

(** The same for an arbitrary Number: the range check is on the Number, the
    bytes are those of its integral part. *)
Definition num_bytes (n : nat) (lo hi : Z) (v : number) : result bytes :=
  if num_gtZ v hi || num_ltZ v lo then out_of_range else Ok (be_bytes n (num_trunc v)).

(** [buf.writeXxx(v, off)] on an existing buffer. *)
Definition write_at (b : bytes) (off : Z) (v : bytes) : result bytes :=
  if (0 <=? off) && (off + blen v <=? blen b)
  then Ok (take (Z.to_nat off) b ++ v ++ drop (Z.to_nat (off + blen v)) b)
  else out_of_range.

Definition buffer_concat (l : list bytes) : bytes := mjoin l.

(** ** Lemmas *)

Lemma blen_nonneg b : 0 <= blen b.
Proof. unfold blen. lia. Qed.

#[export] Hint Resolve blen_nonneg : driver.

Lemma blen_app a b : blen (a ++ b) = blen a + blen b.
Proof. unfold blen. rewrite length_app. lia. Qed.

Lemma be_bytes_length n z : length (be_bytes n z) = n.
Proof. induction n; simpl; auto. Qed.

Lemma blen_be n z : blen (be_bytes n z) = Z.of_nat n.
Proof. unfold blen. by rewrite be_bytes_length. Qed.

Lemma be_bytes_wf n z : wf_bytes (be_bytes n z).
Proof.
  induction n; simpl; constructor; [|done]. unfold is_byte. lia.
Qed.

#[export] Hint Resolve be_bytes_wf : driver.
#[export] Hint Rewrite be_bytes_length : driver_rw.

Lemma be_val_bytes n z : be_val (be_bytes n z) = z mod 256 ^ Z.of_nat n.
Proof.
  induction n as [|n IH]; cbn [be_bytes be_val]; [symmetry; apply Z.mod_1_r|].
  rewrite be_bytes_length, IH, pow256, (Z.mul_comm 256).
  pose proof (pow256_pos n). rewrite Z.rem_mul_r by lia. lia.
Qed.

Lemma be_val_range b : wf_bytes b -> 0 <= be_val b < 256 ^ Z.of_nat (length b).
Proof.
  induction 1 as [|x b Hx Hb IH]; cbn [be_val length]; [lia|].
  rewrite pow256. unfold is_byte in Hx. nia.
Qed.

Lemma be_bytes_mod n z k : be_bytes n (z + k * 256 ^ Z.of_nat n) = be_bytes n z.
Proof.
  revert k. induction n as [|n IH]; intros k; cbn [be_bytes]; [done|].
  rewrite pow256. replace (z + k * (256 * 256 ^ Z.of_nat n))
    with (z + (k * 256) * 256 ^ Z.of_nat n) by ring.
  rewrite IH. f_equal.
  pose proof (pow256_pos n).
  rewrite Z.div_add by lia. by rewrite Z_mod_plus_full.
Qed.

Lemma be_bytes_snoc n z : be_bytes (S n) z = be_bytes n (z / 256) ++ [z mod 256].
Proof.
  induction n as [|n IH]; [cbn; by rewrite Z.div_1_r|].
  change (be_bytes (S (S n)) z) with
    ((z / 256 ^ Z.of_nat (S n)) mod 256 :: be_bytes (S n) z).
  rewrite IH. cbn [be_bytes app]. f_equal.
  rewrite pow256, Z.div_div by (pose proof (pow256_pos n); lia). done.
Qed.

Lemma be_bytes_val b n : wf_bytes b -> n = length b -> be_bytes n (be_val b) = b.
Proof.
  intros Hb ->. induction Hb as [|x b Hx Hb IH]; cbn [be_val length be_bytes]; [done|].
  pose proof (be_val_range b Hb) as Hr. pose proof (pow256_pos (length b)).
  rewrite Z.div_add_l, (Z.div_small (be_val b)), Z.add_0_r by lia.
  unfold is_byte in Hx. rewrite Z.mod_small by lia. f_equal.
  rewrite Z.add_comm, be_bytes_mod. exact IH.
Qed.

Lemma be_val_app a b :
  be_val (a ++ b) = be_val a * 256 ^ Z.of_nat (length b) + be_val b.
Proof.
  induction a as [|x a IH]; cbn [be_val app]; [lia|].
  rewrite IH, length_app, Nat2Z.inj_add, Z.pow_add_r by lia. ring.
Qed.

Lemma signed_spec w x :
  0 < w -> 0 <= x < 2 ^ w ->
  - 2 ^ (w - 1) <= signed w x < 2 ^ (w - 1) /\ signed w x mod 2 ^ w = x.
Proof.
  intros Hw Hx.
  assert (E : 2 ^ w = 2 * 2 ^ (w - 1)).
  { rewrite <- Z.pow_succ_r by lia. f_equal. lia. }
  unfold signed. destruct (Z.ltb_spec x (2 ^ (w - 1))); split; try lia.
  - by apply Z.mod_small.
  - rewrite <- (Z_mod_plus_full _ 1), Z.mul_1_l, Z.sub_add. by apply Z.mod_small.
Qed.

Lemma signed_mod w x :
  0 < w -> - 2 ^ (w - 1) <= x < 2 ^ (w - 1) -> signed w (x mod 2 ^ w) = x.
Proof.
  intros Hw Hx.
  assert (E : 2 ^ w = 2 * 2 ^ (w - 1)).
  { rewrite <- Z.pow_succ_r by lia. f_equal. lia. }
  unfold signed. destruct (Z.lt_ge_cases x 0).
  - rewrite <- (Z_mod_plus_full x 1), Z.mul_1_l, Z.mod_small by lia.
    destruct (Z.ltb_spec (x + 2 ^ w) (2 ^ (w - 1))); lia.
  - rewrite Z.mod_small by lia. destruct (Z.ltb_spec x (2 ^ (w - 1))); lia.
Qed.

#[global] Arguments be_bytes : simpl never.
#[global] Arguments be_val : simpl never.

(** Reading at the boundary between a prefix and what follows it. *)
Lemma read_uint_app n a b c off :
  off = blen a -> n = blen b -> read_uint n (a ++ b ++ c) off = Ok (be_val b).
Proof.
  intros -> ->. unfold read_uint, blen. rewrite !length_app.
  rewrite (proj2 (Z.leb_le _ _)), (proj2 (Z.leb_le _ _)) by lia. simpl.
  by rewrite !Nat2Z.id, drop_app_length, take_app_length.
Qed.

Lemma read_uint_0 n b c : n = blen b -> read_uint n (b ++ c) 0 = Ok (be_val b).
Proof. intros. by apply (read_uint_app n [] b c). Qed.

Lemma readInt32BE_app a v c off :
  off = blen a -> int32 v -> readInt32BE (a ++ be_bytes 4 v ++ c) off = Ok v.
Proof.
  intros Ho Hv. unfold readInt32BE.
  rewrite (read_uint_app 4) by (rewrite ?Ho; unfold blen; rewrite ?be_bytes_length; lia).
  simpl. rewrite be_val_bytes. f_equal. apply (signed_mod 32); unfold int32 in Hv; lia.
Qed.

Lemma readUInt16BE_app a v c off :
  off = blen a -> 0 <= v < 65536 -> readUInt16BE (a ++ be_bytes 2 v ++ c) off = Ok v.
Proof.
  intros Ho Hv. unfold readUInt16BE.
  rewrite (read_uint_app 2) by (rewrite ?Ho; unfold blen; rewrite ?be_bytes_length; lia).
  rewrite be_val_bytes, Z.mod_small by lia. done.
Qed.

Lemma slice_app a b c s e :
  s = blen a -> e = blen a + blen b -> slice (a ++ b ++ c) s e = b.
Proof.
  intros -> ->. unfold slice, clamp_index, blen. rewrite !length_app.
  rewrite (proj2 (Z.ltb_ge _ _)), (proj2 (Z.ltb_ge _ _)) by lia.
  rewrite !Z.min_l by lia. rewrite Nat2Z.id, drop_app_length.
  replace (Z.to_nat _) with (length b) by lia. apply take_app_length.
Qed.

Lemma slice_prefix a b : slice (a ++ b) 0 (blen a) = a.
Proof. apply (slice_app [] a b); unfold blen; simpl; lia. Qed.

Lemma slice_wf b s e : wf_bytes b -> wf_bytes (slice b s e).
Proof. intros. unfold slice. auto with driver. Qed.

#[export] Hint Resolve slice_wf : driver.

Lemma slice_length_le b s e : (length (slice b s e) <= length b)%nat.
Proof. unfold slice. rewrite length_take, length_drop. lia. Qed.

Lemma int_bytes_ok n lo hi v : lo <= v <= hi -> int_bytes n lo hi v = Ok (be_bytes n v).
Proof.
  intros. unfold int_bytes.
  rewrite (proj2 (Z.ltb_ge _ _)), (proj2 (Z.ltb_ge _ _)) by lia. done.
Qed.

Lemma int_bytes_inv n lo hi v b :
  int_bytes n lo hi v = Ok b -> lo <= v <= hi /\ b = be_bytes n v.
Proof.
  unfold int_bytes. destruct (Z.ltb_spec hi v), (Z.ltb_spec v lo); simpl; try done.
  intros [= <-]. split; [lia|done].
Qed.

Lemma num_bytes_of_Z n lo hi v :
  safe_int v -> num_bytes n lo hi (num_of_Z v) = int_bytes n lo hi v.
Proof.
  intros. unfold num_bytes, int_bytes.
  by rewrite num_gtZ_of_Z, num_ltZ_of_Z, num_trunc_of_Z.
Qed.

Lemma byte_at_app a x c : byte_at (a ++ x :: c) (blen a) = Some x.
Proof.
  unfold byte_at, blen. rewrite (proj2 (Z.ltb_ge _ _)) by lia.
  by rewrite Nat2Z.id, list_lookup_middle.
Qed.

Lemma byte_at_0 x b : byte_at (x :: b) 0 = Some x.
Proof. done. Qed.

(** ** Two's complement byte strings *)

Lemma pow256_2 (n : nat) : 256 ^ Z.of_nat n = 2 ^ (8 * Z.of_nat n).
Proof. change 256 with (2 ^ 8). rewrite <- Z.pow_mul_r by lia. done. Qed.

Lemma twos_cons x b :
  is_byte x -> wf_bytes b ->
  twos (x :: b) = (x - (if x <? 128 then 0 else 256)) * 256 ^ Z.of_nat (length b) + be_val b.
Proof.
  intros Hx Hb. unfold twos, signed, is_byte in *. pose proof (be_val_range b Hb) as Hr.
  unfold be_val; fold be_val. cbn [length].
  replace (8 * Z.of_nat (S (length b)) - 1) with (7 + 8 * Z.of_nat (length b)) by lia.
  rewrite Nat2Z.inj_succ, Z.mul_succ_r, !Z.pow_add_r, <- !pow256_2 by lia.
  pose proof (pow256_pos (length b)). set (P := 256 ^ _) in *.
  change (2 ^ 7) with 128. change (2 ^ 8) with 256.
  destruct (Z.ltb_spec x 128), (Z.ltb_spec (x * P + be_val b) (128 * P)); nia.
Qed.

Lemma twos_app a b :
  a <> [] -> wf_bytes a -> wf_bytes b ->
  twos (a ++ b) = twos a * 256 ^ Z.of_nat (length b) + be_val b.
Proof.
  destruct a as [|x a]; [done|]. intros _ Ha Hb. inversion Ha; subst. cbn [app].
  rewrite !twos_cons by (done || by apply Forall_app). rewrite be_val_app, length_app.
  rewrite Nat2Z.inj_add, Z.pow_add_r by lia. ring.
Qed.

Lemma twos_range b :
  b <> [] -> wf_bytes b ->
  - 2 ^ (8 * Z.of_nat (length b) - 1) <= twos b < 2 ^ (8 * Z.of_nat (length b) - 1).
Proof.
  intros Hne Hb. pose proof (be_val_range b Hb) as Hr. rewrite pow256_2 in Hr.
  unfold twos. destruct b as [|x b]; [done|].
  apply signed_spec; [cbn [length]; lia|done].
Qed.

Lemma twos_mod b :
  wf_bytes b -> twos b mod 2 ^ (8 * Z.of_nat (length b)) = be_val b.
Proof.
  intros Hb. pose proof (be_val_range b Hb) as Hr. rewrite pow256_2 in Hr.
  destruct b as [|x b]; [done|]. apply signed_spec; [cbn [length]; lia|done].
Qed.

Lemma twos_unique b z :
  b <> [] -> be_val b = z mod 2 ^ (8 * Z.of_nat (length b)) ->
  - 2 ^ (8 * Z.of_nat (length b) - 1) <= z < 2 ^ (8 * Z.of_nat (length b) - 1) -> twos b = z.
Proof.
  intros Hne Hv Hz. unfold twos. destruct b as [|x b]; [done|]. rewrite Hv.
  apply signed_mod; [cbn [length]; lia|done].
Qed.

Lemma twos_neg x b : is_byte x -> wf_bytes b -> (twos (x :: b) <? 0) = (128 <=? x).
Proof.
  intros Hx Hb. rewrite twos_cons by done. unfold is_byte in Hx.
  pose proof (be_val_range b Hb). pose proof (pow256_pos (length b)).
  set (P := 256 ^ _) in *. destruct (Z.leb_spec 128 x).
  - rewrite (proj2 (Z.ltb_ge x 128)) by lia. apply Z.ltb_lt. nia.
  - rewrite (proj2 (Z.ltb_lt x 128)) by lia. apply Z.ltb_ge. nia.
Qed.
