(* ===== verification/Alloc.v ===== *)
(** * Fresh buffers

    [Buffer.allocUnsafe], [buf.copy] and writes into an allocated buffer, with the lemmas
    that a part of a buffer is replaced whatever it held before. *)

From S2P Require Import Prelude Buffer.

(** [Buffer.allocUnsafe]: what a fresh buffer holds is not specified, its length is. *)
Class Allocator : Type := {
  allocUnsafe : Z -> bytes;
  allocUnsafe_length : forall n, 0 <= n -> blen (allocUnsafe n) = n
}.

#[export, refine] Instance zero_allocator : Allocator := {| allocUnsafe := alloc |}.
Proof. intros n Hn. unfold blen, alloc. rewrite length_replicate. lia. Defined.

(** [src.copy(target, off)] *)
Definition copy_into (src target : bytes) (off : Z) : bytes :=
  let n := Z.min (blen src) (blen target - off) in
  take (Z.to_nat off) target ++ take (Z.to_nat n) src ++ drop (Z.to_nat (off + n)) target.

(** ** Lemmas *)

(** A buffer of a given length splits at every smaller length. *)
Lemma split_at (b : bytes) n m :
  0 <= n -> 0 <= m -> blen b = n + m -> exists x y, b = x ++ y /\ blen x = n /\ blen y = m.
Proof.
  intros Hn Hm Hb. exists (take (Z.to_nat n) b), (drop (Z.to_nat n) b).
  rewrite take_drop. unfold blen in *. rewrite length_take, length_drop. split_and!; [done|lia|lia].
Qed.

Lemma write_at_app (a old r v : bytes) :
  blen old = blen v -> write_at (a ++ old ++ r) (blen a) v = Ok (a ++ v ++ r).
Proof.
  intros Hl. unfold write_at. rewrite !blen_app.
  pose proof (blen_nonneg a). pose proof (blen_nonneg r).
  replace (_ && _) with true by (symmetry; apply andb_true_iff; split; apply Z.leb_le; lia).
  f_equal. rewrite <- Hl. rewrite take_app_length' by (unfold blen; lia). f_equal. f_equal.
  rewrite app_assoc. apply drop_app_length'. rewrite length_app. unfold blen. lia.
Qed.

Lemma copy_into_app (a old r v : bytes) :
  blen old = blen v -> copy_into v (a ++ old ++ r) (blen a) = a ++ v ++ r.
Proof.
  intros Hl. unfold copy_into. rewrite !blen_app.
  pose proof (blen_nonneg r).
  replace (Z.min _ _) with (blen v) by lia.
  rewrite take_app_length' by (unfold blen; lia). f_equal. f_equal.
  - apply take_ge. unfold blen. lia.
  - rewrite <- Hl, app_assoc. apply drop_app_length'. rewrite length_app. unfold blen. lia.
Qed.

Lemma insert_app (a r : bytes) (x y : Z) :
  <[Z.to_nat (blen a) := y]> (a ++ x :: r) = a ++ y :: r.
Proof.
  replace (Z.to_nat (blen a)) with (length a + 0)%nat by (unfold blen; lia).
  by rewrite insert_app_r.
Qed.

(** The same, with the offset as a number. *)
Lemma write_at_off (a old r v : bytes) off :
  off = blen a -> blen old = blen v -> write_at (a ++ old ++ r) off v = Ok (a ++ v ++ r).
Proof. intros ->. apply write_at_app. Qed.

Lemma copy_into_off (a old r v : bytes) off :
  off = blen a -> blen old = blen v -> copy_into v (a ++ old ++ r) off = a ++ v ++ r.
Proof. intros ->. apply copy_into_app. Qed.
