(* ===== verification/JsString.v ===== *)
(** * JavaScript strings

    The string operations the driver uses, on sequences of UTF-16 code units
    ([jsstr]): decimal printing and parsing of non-negative integers, digit runs,
    prefixes, [substr], [indexOf], [split], [trim], ASCII case mapping. *)

From S2P Require Import Prelude.

Definition slen (s : jsstr) : Z := Z.of_nat (length s).

Definition is_digit (c : Z) : bool := (48 <=? c) && (c <=? 57).

(** The longest run of ASCII digits at the front ([\d+] or [\d*], greedy). *)
Fixpoint span_digits (s : jsstr) : jsstr * jsstr :=
  match s with
  | c :: s' =>
      if is_digit c then let '(ds, r) := span_digits s' in (c :: ds, r) else ([], s)
  | [] => ([], [])
  end.

(** The integer a run of decimal digits denotes. *)
Definition dec_val (ds : jsstr) : Z := fold_left (fun a c => 10 * a + (c - 48)) ds 0.

(** Decimal digits of a non-negative integer, most significant first; the fuel
    bounds the number of digits. *)
Fixpoint dec_loop (fuel : nat) (z : Z) (acc : jsstr) : jsstr :=
  match fuel with
  | O => acc
  | S fuel =>
      let acc := (48 + z mod 10) :: acc in
      if z / 10 =? 0 then acc else dec_loop fuel (z / 10) acc
  end.

Definition dec_str (z : Z) : jsstr := dec_loop (S (Z.to_nat (Z.log2 z))) z [].

(** [s.toString()] of an integer, with its sign. *)
Definition int_str (z : Z) : jsstr :=
  if z <? 0 then 45 :: dec_str (- z) else dec_str z.

Fixpoint strip_prefix (p s : jsstr) : option jsstr :=
  match p, s with
  | [], _ => Some s
  | a :: p, b :: s => if a =? b then strip_prefix p s else None
  | _ :: _, [] => None
  end.

Definition starts_with (p s : jsstr) : bool :=
  match strip_prefix p s with Some _ => true | None => false end.

(** [s.charAt(i)]: the empty string out of range. *)
Definition char_at (s : jsstr) (i : Z) : option Z :=
  if i <? 0 then None else s !! Z.to_nat i.

(** The white space and line terminators of the language. *)
Definition is_space (c : Z) : bool :=
  ((9 <=? c) && (c <=? 13)) || (c =? 32) || (c =? 0xA0) || (c =? 0x1680) ||
  ((0x2000 <=? c) && (c <=? 0x200A)) || (c =? 0x2028) || (c =? 0x2029) ||
  (c =? 0x202F) || (c =? 0x205F) || (c =? 0x3000) || (c =? 0xFEFF).

Fixpoint skip_space (s : jsstr) : jsstr :=
  match s with c :: s' => if is_space c then skip_space s' else s | [] => [] end.

(** The value of a digit in radix 36. *)
Definition digit_value (c : Z) : option Z :=
  if (48 <=? c) && (c <=? 57) then Some (c - 48)
  else if (65 <=? c) && (c <=? 90) then Some (c - 55)
  else if (97 <=? c) && (c <=? 122) then Some (c - 87)
  else None.

Fixpoint parse_digits (radix : Z) (s : jsstr) (acc : option Z) : option Z :=
  match s with
  | c :: s =>
      match digit_value c with
      | Some d => if d <? radix then parse_digits radix s (Some (default 0 acc * radix + d)) else acc
      | None => acc
      end
  | [] => acc
  end.

(** [parseInt] with an explicit radix; [None] is NaN.  The result is kept exact: where
    it could exceed the safe integers the callers refuse it either way, or round it. *)
Definition parseInt (s : jsstr) (radix : Z) : option Z :=
  let s := skip_space s in
  let '(neg, s) := match s with
                   | c :: s' => if c =? 45 then (true, s')
                                else if c =? 43 then (false, s') else (false, s)
                   | [] => (false, []) end in
  let s := match s with
           | z :: x :: s' => if (radix =? 16) && (z =? 48) && ((x =? 120) || (x =? 88))
                             then s' else s
           | _ => s end in
  (fun z => if neg : bool then - z else z) <$> parse_digits radix s None.

(** [s.split(c)] for a single character. *)
Fixpoint split_on (c : Z) (s : jsstr) : list jsstr :=
  match s with
  | [] => [[]]
  | x :: s =>
      if x =? c then [] :: split_on c s
      else match split_on c s with
           | w :: ws => (x :: w) :: ws
           | [] => [[x]]
           end
  end.

(** [s.trim()] *)
Definition trim (s : jsstr) : jsstr := rev (skip_space (rev (skip_space s))).

Definition count (c : Z) (s : jsstr) : nat := length (List.filter (Z.eqb c) s).

(** ** Lemmas *)

Lemma is_digit_spec c : is_digit c = true <-> 48 <= c <= 57.
Proof. unfold is_digit. rewrite andb_true_iff, !Z.leb_le. done. Qed.

Lemma dec_val_snoc ds c : dec_val (ds ++ [c]) = 10 * dec_val ds + (c - 48).
Proof. unfold dec_val. by rewrite fold_left_app. Qed.

Lemma dec_loop_acc fuel z acc : dec_loop fuel z acc = dec_loop fuel z [] ++ acc.
Proof.
  revert z acc. induction fuel as [|fuel IH]; intros z acc; cbn [dec_loop]; [done|].
  case_Z; [done|]. rewrite IH, (IH _ [_]), <- app_assoc. done.
Qed.

Lemma dec_loop_spec fuel z :
  0 <= z < 2 ^ Z.of_nat fuel -> (0 < fuel)%nat ->
  Forall (fun c => is_digit c = true) (dec_loop fuel z []) /\
  dec_val (dec_loop fuel z []) = z /\ dec_loop fuel z [] <> [].
Proof.
  revert z. induction fuel as [|fuel IH]; intros z Hz Hf; [lia|]. cbn [dec_loop].
  assert (Hd : is_digit (48 + z mod 10) = true) by (apply is_digit_spec; lia).
  case_Z.
  - split; [by repeat constructor|]. split; [|done]. unfold dec_val. simpl. lia.
  - rewrite dec_loop_acc.
    rewrite Nat2Z.inj_succ, Z.pow_succ_r in Hz by lia.
    destruct fuel as [|fuel]; [simpl in Hz; lia|].
    destruct (IH (z / 10)) as (Hall & Hval & Hne); [lia|lia|].
    split; [apply Forall_app; by repeat constructor|].
    split; [rewrite dec_val_snoc, Hval; lia|]. by destruct (dec_loop _ _ _).
Qed.

Lemma dec_str_spec z :
  0 <= z -> Forall (fun c => is_digit c = true) (dec_str z) /\
            dec_val (dec_str z) = z /\ dec_str z <> [].
Proof.
  intros Hz. unfold dec_str. apply dec_loop_spec; [|lia].
  rewrite Nat2Z.inj_succ, Z2Nat.id by apply Z.log2_nonneg.
  destruct (decide (z = 0)) as [->|]; [simpl; lia|].
  split; [lia|]. apply Z.log2_spec. lia.
Qed.

(** A digit run ends where a non-digit (or nothing) follows. *)
Definition no_digit_head (s : jsstr) : Prop :=
  match s with c :: _ => is_digit c = false | [] => True end.

Lemma span_digits_app ds s :
  Forall (fun c => is_digit c = true) ds -> no_digit_head s ->
  span_digits (ds ++ s) = (ds, s).
Proof.
  intros Hds Hs. induction Hds as [|c ds Hc Hds IH]; cbn [span_digits app].
  - destruct s as [|c s]; [done|]. simpl in *. by rewrite Hs.
  - by rewrite Hc, IH.
Qed.

Lemma span_digits_length s : (length (span_digits s).2 + length (span_digits s).1 = length s)%nat.
Proof.
  induction s as [|c s IH]; [done|]. cbn [span_digits].
  destruct (is_digit c); [|simpl; lia].
  destruct (span_digits s) as [ds r]. simpl in *. lia.
Qed.

Lemma dec_val_nonneg ds : Forall (fun c => is_digit c = true) ds -> 0 <= dec_val ds.
Proof.
  induction ds as [|c ds IH] using rev_ind; [done|].
  rewrite Forall_app, dec_val_snoc. intros [Hds Hc]. specialize (IH Hds).
  inversion Hc as [|? ? Hd]; subst. apply is_digit_spec in Hd. lia.
Qed.

Lemma dec_val_app a b :
  dec_val (a ++ b) = dec_val a * 10 ^ Z.of_nat (length b) + dec_val b.
Proof.
  induction b as [|c b IH] using rev_ind; [rewrite app_nil_r, Z.mul_1_r; unfold dec_val; simpl; lia|].
  rewrite app_assoc, !dec_val_snoc, IH, length_app, Nat.add_1_r, Nat2Z.inj_succ, Z.pow_succ_r by lia.
  ring.
Qed.

Lemma dec_val_bound ds :
  Forall (fun c => is_digit c = true) ds -> 0 <= dec_val ds < 10 ^ Z.of_nat (length ds).
Proof.
  induction ds as [|c ds IH] using rev_ind; [done|].
  intros [H1 H2]%Forall_app. specialize (IH H1). inversion H2 as [|? ? Hc]; subst.
  apply is_digit_spec in Hc. rewrite dec_val_snoc, length_app, Nat.add_1_r, Nat2Z.inj_succ, Z.pow_succ_r by lia.
  lia.
Qed.

Lemma span_digits_digits s : Forall (fun c => is_digit c = true) (span_digits s).1.
Proof.
  induction s as [|c s IH]; cbn [span_digits]; [constructor|].
  destruct (is_digit c) eqn:E; [|constructor].
  destruct (span_digits s) as [ds r]. simpl in *. by constructor.
Qed.

Lemma strip_prefix_length p s r : strip_prefix p s = Some r -> length s = (length p + length r)%nat.
Proof.
  revert s. induction p as [|a p IH]; intros s; cbn [strip_prefix].
  - intros [= ->]. done.
  - destruct s as [|b s]; [done|]. case_Z; [|done]. intros E. apply IH in E. simpl. lia.
Qed.

Lemma strip_prefix_app p s : strip_prefix p (p ++ s) = Some s.
Proof. induction p as [|a p IH]; cbn [strip_prefix app]; [done|]. by rewrite Z.eqb_refl. Qed.

Lemma parse_digits_dec ds acc :
  Forall (fun c => is_digit c = true) ds ->
  parse_digits 10 ds (Some acc) = Some (acc * 10 ^ Z.of_nat (length ds) + dec_val ds).
Proof.
  intros Hd. revert acc. induction Hd as [|c ds Hc Hds IH]; intros acc.
  - simpl. f_equal. unfold dec_val. simpl. lia.
  - cbn [parse_digits]. apply is_digit_spec in Hc. unfold digit_value.
    rewrite (proj2 (Z.leb_le 48 c)), (proj2 (Z.leb_le c 57)) by lia. cbn [andb].
    rewrite (proj2 (Z.ltb_lt _ 10)) by lia. change (default 0 (Some acc)) with acc.
    rewrite IH. f_equal. pose proof (dec_val_app [c] ds) as Ea. cbn [app] in Ea. rewrite Ea. cbn [length].
    change (dec_val [c]) with (10 * 0 + (c - 48)).
    rewrite Nat2Z.inj_succ, Z.pow_succ_r by lia. ring.
Qed.

Lemma parseInt_dec ds :
  ds <> [] -> Forall (fun c => is_digit c = true) ds -> parseInt ds 10 = Some (dec_val ds).
Proof.
  intros Hne Hd. destruct ds as [|c ds]; [done|]. unfold parseInt.
  apply Forall_cons_1 in Hd as [Hc Hds]. pose proof Hc as Hc'. apply is_digit_spec in Hc.
  assert (Hsp : skip_space (c :: ds) = c :: ds).
  { cbn [skip_space]. unfold is_space.
    repeat match goal with |- context [?a <=? ?b] =>
      first [rewrite (proj2 (Z.leb_gt a b)) by lia | rewrite (proj2 (Z.leb_le a b)) by lia] end.
    repeat match goal with |- context [c =? ?b] => rewrite (proj2 (Z.eqb_neq c b)) by lia end.
    done. }
  rewrite Hsp. rewrite (proj2 (Z.eqb_neq c 45)), (proj2 (Z.eqb_neq c 43)) by lia.
  assert (Hx : (match c :: ds with
    | z :: x :: s' => if (10 =? 16) && (z =? 48) && ((x =? 120) || (x =? 88)) then s' else c :: ds
    | _ => c :: ds end) = c :: ds) by by destruct ds.
  rewrite Hx. cbn [parse_digits]. unfold digit_value.
  rewrite (proj2 (Z.leb_le 48 c)), (proj2 (Z.leb_le c 57)) by lia. cbn [andb].
  rewrite (proj2 (Z.ltb_lt _ 10)) by lia. change (default 0 (@None Z)) with 0.
  rewrite parse_digits_dec by done.
  pose proof (dec_val_app [c] ds) as Ea. cbn [app] in Ea. rewrite Ea.
  change (dec_val [c]) with (10 * 0 + (c - 48)). cbn [fmap option_fmap option_map].
  reflexivity.
Qed.

Lemma parseInt_neg_dec ds :
  ds <> [] -> Forall (fun c => is_digit c = true) ds -> parseInt (45 :: ds) 10 = Some (- dec_val ds).
Proof.
  intros Hne Hd. destruct ds as [|c r]; [done|]. unfold parseInt.
  change (skip_space (45 :: c :: r)) with (45 :: c :: r). cbv beta iota.
  change (45 =? 45) with true. cbv iota.
  apply Forall_cons_1 in Hd as [Hc Hr]. apply is_digit_spec in Hc.
  assert (Hx : (match c :: r with z :: x :: s' => if (10 =? 16) && (z =? 48) && ((x =? 120) || (x =? 88))
    then s' else c :: r | _ => c :: r end) = c :: r) by by destruct r.
  rewrite Hx. cbn [parse_digits]. unfold digit_value.
  rewrite (proj2 (Z.leb_le 48 c)), (proj2 (Z.leb_le c 57)) by lia. cbn [andb].
  rewrite (proj2 (Z.ltb_lt _ 10)) by lia. change (default 0 (@None Z)) with 0.
  rewrite parse_digits_dec by done.
  pose proof (dec_val_app [c] r) as Ea. cbn [app] in Ea.
  change (dec_val [c]) with (10 * 0 + (c - 48)) in Ea.
  cbn [fmap option_fmap option_map]. f_equal. lia.
Qed.

Lemma split_on_none c s : existsb (Z.eqb c) s = false -> split_on c s = [s].
Proof.
  induction s as [|x s IH]; cbn [existsb split_on]; [done|].
  rewrite Z.eqb_sym, orb_false_iff. intros [-> Hs]. by rewrite IH.
Qed.

Lemma split_on_app c a b :
  existsb (Z.eqb c) a = false -> split_on c (a ++ c :: b) = a :: split_on c b.
Proof.
  induction a as [|x a IH]; cbn [existsb split_on app]; [by rewrite Z.eqb_refl|].
  rewrite Z.eqb_sym, orb_false_iff. intros [-> Ha]. by rewrite IH.
Qed.

Lemma digits_no c ds :
  is_digit c = false -> Forall (fun d => is_digit d = true) ds -> existsb (Z.eqb c) ds = false.
Proof.
  intros Hc. induction 1 as [|d ds Hd Hds IH]; [done|]. cbn [existsb].
  rewrite (proj2 (Z.eqb_neq c d)) by (intros ->; congruence). done.
Qed.

(** ** Decimal text *)

Lemma dec_loop_fuel f g z acc :
  (0 < f)%nat -> (0 < g)%nat -> 0 <= z < 2 ^ Z.of_nat f -> z < 2 ^ Z.of_nat g -> dec_loop f z acc = dec_loop g z acc.
Proof.
  revert g z acc. induction f as [|f IH]; intros g z acc Hf Hg Hz Hz'; [lia|]. destruct g as [|g]; [lia|]. cbn [dec_loop].
  rewrite Nat2Z.inj_succ, Z.pow_succ_r in Hz, Hz' by lia. destruct (Z.eqb_spec (z / 10) 0); [done|].
  destruct f as [|f]; [simpl in Hz; lia|]. destruct g as [|g]; [simpl in Hz'; lia|]. apply IH; lia.
Qed.

Lemma dec_str_fuel f z : (0 < f)%nat -> 0 <= z < 2 ^ Z.of_nat f -> dec_str z = dec_loop f z [].
Proof.
  intros Hf Hz. unfold dec_str. apply dec_loop_fuel; [lia|done| |lia].
  rewrite Nat2Z.inj_succ, Z2Nat.id by apply Z.log2_nonneg. destruct (Z.eq_dec z 0) as [->|]; [simpl; lia|].
  split; [lia|]. apply Z.log2_spec. lia.
Qed.

Lemma dec_str_step q d : 0 < q -> 0 <= d < 10 -> dec_str (10 * q + d) = dec_str q ++ [48 + d].
Proof.
  intros Hq Hd. set (f := S (Z.to_nat (Z.log2 q))).
  assert (Hf : q < 2 ^ Z.of_nat f).
  { unfold f. rewrite Nat2Z.inj_succ, Z2Nat.id by apply Z.log2_nonneg. by apply Z.log2_spec. }
  assert (H4 : 2 ^ Z.of_nat (4 + f) = 16 * 2 ^ Z.of_nat f) by (rewrite Nat2Z.inj_add, Z.pow_add_r by lia; reflexivity).
  assert (H3 : 2 ^ Z.of_nat (3 + f) = 8 * 2 ^ Z.of_nat f) by (rewrite Nat2Z.inj_add, Z.pow_add_r by lia; reflexivity).
  rewrite (dec_str_fuel (4 + f) (10 * q + d)), (dec_str_fuel (3 + f) q) by lia.
  change (4 + f)%nat with (S (3 + f)). generalize (3 + f)%nat. intros g. cbn [dec_loop].
  replace ((10 * q + d) / 10) with q by lia. replace ((10 * q + d) mod 10) with d by lia.
  rewrite (proj2 (Z.eqb_neq q 0)) by lia. by rewrite dec_loop_acc.
Qed.

Lemma dec_str_digit d : 0 <= d < 10 -> dec_str d = [48 + d].
Proof.
  intros Hd. rewrite (dec_str_fuel 4) by (simpl; lia). cbn [dec_loop].
  replace (d / 10) with 0 by lia. replace (d mod 10) with d by lia. done.
Qed.

Lemma dec_str_size z : 0 < z -> 10 ^ (Z.of_nat (length (dec_str z)) - 1) <= z < 10 ^ Z.of_nat (length (dec_str z)).
Proof.
  intros Hz. split.
  - assert (Hw : 0 <= z) by lia. revert Hz. revert z Hw. apply (Z_lt_induction (fun z => 0 < z -> _ z)). intros z IH Hz.
    destruct (Z.lt_ge_cases z 10) as [Hs|Hs]; [rewrite dec_str_digit by lia; cbn; lia|].
    specialize (IH (z / 10) ltac:(lia) ltac:(lia)). cbv beta in IH.
    replace z with (10 * (z / 10) + z mod 10) at 1 by lia. rewrite dec_str_step by lia. rewrite length_app. cbn [length].
    destruct (dec_str_spec (z / 10)) as (_ & _ & Hne); [lia|]. destruct (dec_str (z / 10)) as [|c r]; [done|]. cbn [length] in *.
    replace (Z.of_nat (S (length r) + 1) - 1) with (Z.succ (Z.of_nat (S (length r)) - 1)) by lia.
    rewrite Z.pow_succ_r by lia. lia.
  - destruct (dec_str_spec z) as (Hd & Hv & _); [lia|]. pose proof (dec_val_bound _ Hd). lia.
Qed.
