(* ===== verification/Float.v ===== *)
(** * Number arithmetic and the binary forms of Numbers

    The arithmetic operators of Number used by the driver are the correctly rounded
    operations of the Standard Library's [SpecFloat] at binary64.  This file shows
    that they are exact on integers below 2^53, and models the IEEE 754
    interchange forms that [Buffer] reads and writes ([readDoubleBE],
    [writeDoubleBE], [readFloatBE], [writeFloatBE]). *)

From Stdlib Require Import SpecFloat.
From S2P Require Import Prelude JsNumber Buffer.

#[export] Instance number_eq_dec : EqDecision number.
Proof. solve_decision. Defined.

Definition num_add : number -> number -> number := SFadd prec64 emax64.
Definition num_sub : number -> number -> number := SFsub prec64 emax64.
Definition num_mul : number -> number -> number := SFmul prec64 emax64.
Definition num_div : number -> number -> number := SFdiv prec64 emax64.

(** ** Exactness on integers *)

Lemma shr_1_double k : shr_1 (Build_shr_record (2 * k) false false) = Build_shr_record k false false.
Proof. by destruct k. Qed.

Lemma iter_shr_exact p m :
  SpecFloat.iter_pos shr_1 p (Build_shr_record (m * 2 ^ Z.pos p) false false)
  = Build_shr_record m false false.
Proof.
  revert m. induction p as [p IH|p IH|]; intros m; cbn [SpecFloat.iter_pos].
  - replace (m * 2 ^ Z.pos p~1) with (2 * (m * 2 ^ Z.pos p * 2 ^ Z.pos p)).
    + by rewrite shr_1_double, !IH.
    + replace (Z.pos p~1) with (1 + (Z.pos p + Z.pos p)) by lia.
      rewrite !Z.pow_add_r by lia. ring.
  - replace (m * 2 ^ Z.pos p~0) with (m * 2 ^ Z.pos p * 2 ^ Z.pos p).
    + by rewrite !IH.
    + replace (Z.pos p~0) with (Z.pos p + Z.pos p) by lia.
      rewrite Z.pow_add_r by lia. ring.
  - rewrite Z.mul_comm. change (2 ^ 1) with 2. apply shr_1_double.
Qed.

Lemma shr_exact m e n :
  0 <= n -> shr (Build_shr_record (m * 2 ^ n) false false) e n
            = (Build_shr_record m false false, e + n).
Proof.
  intros Hn. destruct n as [|p|p]; cbn [shr]; [|by rewrite iter_shr_exact|lia].
  rewrite Z.mul_1_r. f_equal. lia.
Qed.

Lemma digits2_mul_pow p q j :
  0 <= j -> Z.pos q = Z.pos p * 2 ^ j ->
  Z.pos (digits2_pos q) = Z.pos (digits2_pos p) + j.
Proof.
  intros Hj Hq. pose proof (digits2_pos_spec p). pose proof (pow2_pos j Hj).
  apply digits2_pos_unique; [lia|]. rewrite Hq.
  replace (Z.pos (digits2_pos p) + j - 1) with (Z.pos (digits2_pos p) - 1 + j) by lia.
  rewrite !Z.pow_add_r by lia. nia.
Qed.

(** Rounding a mantissa with trailing zero bits: the same as rounding the mantissa
    without them. *)
Lemma binary_round_aux_exact s q p e j :
  0 <= j -> Z.pos q = Z.pos p * 2 ^ j -> Z.pos p < 2 ^ 53 -> -1074 <= e + j ->
  Z.pos (digits2_pos p) + (e + j) <= 1024 -> e <= fexp64 (Z.pos (digits2_pos q) + e) ->
  binary_round_aux prec64 emax64 s (Z.pos q) e loc_Exact = binary_round prec64 emax64 s p (e + j).
Proof.
  intros Hj Hq Hp He Hd Hle. pose proof (digits2_mul_pow p q j Hj Hq) as Hdq.
  destruct (binary_round_exact s p (e + j) He Hp Hd) as (m & k & -> & Ek & Hk & Hm).
  set (x := fexp64 (Z.pos (digits2_pos p) + (e + j))) in *.
  rewrite Hdq in Hle. replace (Z.pos (digits2_pos p) + j + e) with
    (Z.pos (digits2_pos p) + (e + j)) in Hle by lia. fold x in Hle.
  assert (Hqm : Z.pos q = Z.pos m * 2 ^ (x - e)).
  { rewrite Hq, Hm, <- Z.mul_assoc, <- Z.pow_add_r by lia. do 2 f_equal. lia. }
  assert (Hdm : Z.pos (digits2_pos m) + x = Z.pos (digits2_pos p) + (e + j)).
  { pose proof (digits2_mul_pow p m k Hk Hm). lia. }
  unfold binary_round_aux, shr_fexp. cbn [Zdigits2 shr_record_of_loc].
  replace (fexp prec64 emax64 (Z.pos (digits2_pos q) + e)) with x.
  2: { unfold x, fexp64. f_equal. lia. }
  rewrite Hqm, shr_exact by lia.
  cbn [shr_m loc_of_shr_record round_nearest_even Zdigits2 shr_record_of_loc].
  replace (e + (x - e)) with x by lia.
  replace (fexp prec64 emax64 (Z.pos (digits2_pos m) + x)) with x.
  2: { unfold x, fexp64. f_equal. unfold x, fexp64 in Hdm. lia. }
  rewrite Z.sub_diag. cbn [shr shr_m].
  assert (x <= emax64 - prec64) by (unfold x, fexp64, fexp, emin, prec64, emax64 in *; lia).
  rewrite Zle_imp_le_bool by lia. f_equal. lia.
Qed.

Lemma binary_round_scale s q p e j :
  0 <= j -> Z.pos q = Z.pos p * 2 ^ j -> Z.pos p < 2 ^ 53 -> -1074 <= e + j ->
  Z.pos (digits2_pos p) + (e + j) <= 1024 ->
  binary_round prec64 emax64 s q e = binary_round prec64 emax64 s p (e + j).
Proof.
  intros Hj Hq Hp He Hd. pose proof (digits2_mul_pow p q j Hj Hq) as Hdq.
  unfold binary_round at 1, shl_align.
  set (x := fexp prec64 emax64 (Z.pos (digits2_pos q) + e)).
  destruct (x - e) as [|d|d] eqn:E.
  1,2: apply binary_round_aux_exact; try done; unfold fexp64; fold x; lia.
  change (Pos.iter xO q d) with (shift_pos d q).
  assert (Hs : Z.pos (shift_pos d q) = Z.pos p * 2 ^ (j + Z.pos d)).
  { rewrite shift_pos_mul, Hq, <- Z.mul_assoc, <- Z.pow_add_r by lia. done. }
  replace (e + j) with (x + (j + Z.pos d)) by lia.
  apply binary_round_aux_exact; try (done || lia).
  rewrite (digits2_mul_pow p (shift_pos d q) (j + Z.pos d)) by (done || lia).
  unfold x, fexp64. rewrite Hdq in *. unfold x in E. unfold fexp, emin, prec64, emax64 in *. lia.
Qed.

Lemma digits_53 p : Z.pos p < 2 ^ 53 -> Z.pos (digits2_pos p) <= 53.
Proof.
  intros Hp. pose proof (digits2_pos_spec p).
  destruct (Z.le_gt_cases (Z.pos (digits2_pos p)) 53); [lia|].
  assert (2 ^ 53 <= 2 ^ (Z.pos (digits2_pos p) - 1)) by (apply Z.pow_le_mono_r; lia). lia.
Qed.

Lemma safe_digits p e : Z.pos p < 2 ^ 53 -> e <= 900 -> Z.pos (digits2_pos p) + e <= 1024.
Proof. intros Hp He. apply digits_53 in Hp. lia. Qed.

(** Normalising [z * 2^k] at exponent [-k] gives the Number of the integer [z]. *)
Lemma normalize_scaled z k :
  safe_int z -> 0 <= k -> binary_normalize prec64 emax64 (z * 2 ^ k) (- k) false = num_of_Z z.
Proof.
  intros Hz Hk. unfold safe_int in Hz. pose proof (pow2_pos k Hk) as Hpk.
  unfold num_of_Z, binary_normalize. destruct z as [|p|p].
  - done.
  - destruct (Z.pos p * 2 ^ k) as [|q|q] eqn:E; [lia| |lia].
    rewrite (binary_round_scale _ q p _ k) by (first [done | lia | apply safe_digits; lia]).
    f_equal. lia.
  - destruct (Z.neg p * 2 ^ k) as [|q|q] eqn:E; [lia|lia|].
    rewrite (binary_round_scale _ q p _ k) by (first [done | lia | apply safe_digits; lia]).
    f_equal. lia.
Qed.

Lemma shl_align_value (s : bool) m e ez z k :
  ez <= e -> e = - k -> 0 <= k -> s = (z <? 0) -> Z.pos m = Z.abs z * 2 ^ k ->
  cond_Zopp s (Z.pos (fst (shl_align m e ez))) = z * 2 ^ (- ez).
Proof.
  intros Hle -> Hk -> Hm. unfold shl_align.
  assert (Hv : Z.pos (fst match ez - - k with Z.neg d => (Pos.iter xO m d, ez) | _ => (m, - k) end)
               = Z.abs z * 2 ^ (- ez)).
  { destruct (ez - - k) as [|d|d] eqn:E; [|lia|].
    - cbn [fst]. rewrite Hm. do 2 f_equal. lia.
    - cbn [fst]. change (Pos.iter xO m d) with (shift_pos d m).
      rewrite shift_pos_mul, Hm, <- Z.mul_assoc, <- Z.pow_add_r by lia. do 2 f_equal. lia. }
  unfold cond_Zopp. rewrite Hv. destruct (Z.ltb_spec z 0); nia.
Qed.

Lemma num_add_Z a b :
  safe_int a -> safe_int b -> safe_int (a + b) ->
  num_add (num_of_Z a) (num_of_Z b) = num_of_Z (a + b).
Proof.
  intros Ha Hb Hab. destruct (decide (a = 0)) as [->|Na].
  { rewrite Z.add_0_l. destruct (decide (b = 0)) as [->|Nb]; [done|].
    destruct (num_of_Z_finite b Hb Nb) as (m & k & -> & _). done. }
  destruct (decide (b = 0)) as [->|Nb].
  { rewrite Z.add_0_r. destruct (num_of_Z_finite a Ha Na) as (m & k & -> & _). done. }
  destruct (num_of_Z_finite a Ha Na) as (m & k & -> & Hk & Hm).
  destruct (num_of_Z_finite b Hb Nb) as (m' & k' & -> & Hk' & Hm').
  unfold num_add, SFadd. set (ez := Z.min (- k) (- k')).
  rewrite (shl_align_value _ m _ ez a k), (shl_align_value _ m' _ ez b k') by (done || lia).
  rewrite <- Z.mul_add_distr_r. replace ez with (- - ez) at 2 by lia.
  apply normalize_scaled; [done|lia].
Qed.

Lemma num_sub_Z a b :
  safe_int a -> safe_int b -> safe_int (a - b) ->
  num_sub (num_of_Z a) (num_of_Z b) = num_of_Z (a - b).
Proof.
  intros Ha Hb Hab. destruct (decide (b = 0)) as [->|Nb].
  { rewrite Z.sub_0_r. destruct (decide (a = 0)) as [->|Na]; [done|].
    destruct (num_of_Z_finite a Ha Na) as (m & k & -> & _). done. }
  destruct (num_of_Z_finite b Hb Nb) as (m' & k' & Eb & Hk' & Hm').
  destruct (decide (a = 0)) as [->|Na].
  { rewrite Eb. rewrite Z.sub_0_l in *.
    destruct (num_of_Z_finite (- b) Hab ltac:(lia)) as (m & k & Ea & Hk & Hm).
    unfold num_of_Z in *. destruct b as [|p|p]; [done| |]; cbn [Z.opp] in *;
      unfold binary_normalize in *; change (num_sub (S754_zero false) (S754_finite
      (Z.pos p <? 0) m' (- k')) = binary_round prec64 emax64 true p 0) ||
      change (num_sub (S754_zero false) (S754_finite
      (Z.neg p <? 0) m' (- k')) = binary_round prec64 emax64 false p 0);
      unfold binary_round in *; destruct (shl_align _ _ _); unfold binary_round_aux in *;
      destruct (shr_fexp _ _ _ _ _) as [r1 e1], (shr_fexp _ _ _ _ _) as [r2 e2];
      destruct (shr_m r2); try discriminate; destruct (_ <=? _); try discriminate;
      injection Eb as -> ->; done. }
  destruct (num_of_Z_finite a Ha Na) as (m & k & -> & Hk & Hm). rewrite Eb.
  unfold num_sub, SFsub. set (ez := Z.min (- k) (- k')).
  rewrite (shl_align_value _ m _ ez a k), (shl_align_value _ m' _ ez b k') by (done || lia).
  rewrite <- Z.mul_sub_distr_r. replace ez with (- - ez) at 2 by lia.
  apply normalize_scaled; [done|lia].
Qed.

(** Integers are stored with a full 53-bit mantissa. *)
Lemma num_of_Z_full z :
  safe_int z -> 0 < z ->
  exists m k, num_of_Z z = S754_finite false m (- k) /\ 0 <= k <= 52 /\
    Z.pos m = z * 2 ^ k /\ Z.pos (digits2_pos m) = 53.
Proof.
  unfold safe_int. intros Hz Hp. destruct z as [|p|p]; [lia| |lia].
  assert (Hd : Z.pos (digits2_pos p) <= 53) by (apply digits_53; lia).
  destruct (binary_round_exact false p 0) as (m & k & E & Ek & Hk & Hm); [lia|lia|lia|].
  pose proof (digits2_mul_pow p m k Hk Hm) as Hdm.
  unfold fexp64, fexp, emin, prec64, emax64 in Ek.
  exists m, k. unfold num_of_Z, binary_normalize. rewrite E.
  split; [f_equal; lia|]. split; [lia|]. split; [done|lia].
Qed.

Lemma num_mul_Z a b :
  safe_int a -> safe_int b -> 0 <= a -> 0 <= b -> safe_int (a * b) ->
  num_mul (num_of_Z a) (num_of_Z b) = num_of_Z (a * b).
Proof.
  intros Ha Hb Pa Pb Hab. destruct (decide (a = 0)) as [->|Na].
  { destruct (decide (b = 0)) as [->|Nb]; [done|].
    destruct (num_of_Z_finite b Hb Nb) as (m & k & -> & _).
    rewrite (proj2 (Z.ltb_ge b 0)) by lia. done. }
  destruct (decide (b = 0)) as [->|Nb].
  { destruct (num_of_Z_finite a Ha Na) as (m & k & -> & _). rewrite Z.mul_0_r.
    rewrite (proj2 (Z.ltb_ge a 0)) by lia. done. }
  destruct (num_of_Z_full a Ha ltac:(lia)) as (m & k & -> & Hk & Hm & Hdm).
  destruct (num_of_Z_full b Hb ltac:(lia)) as (m' & k' & -> & Hk' & Hm' & Hdm').
  unfold num_mul, SFmul. cbn [xorb].
  assert (0 < a * b) by nia. destruct (a * b) as [|p|p] eqn:E; [lia| |lia].
  unfold safe_int in *. unfold num_of_Z, binary_normalize.
  rewrite (binary_round_aux_exact _ _ p _ (k + k')).
  - f_equal. lia.
  - lia.
  - rewrite Pos2Z.inj_mul, Hm, Hm', <- E, Z.pow_add_r by lia. ring.
  - lia.
  - lia.
  - apply safe_digits; lia.
  - pose proof (digits2_pos_spec (m * m')) as Hs. pose proof (digits2_pos_spec m) as Hs1.
    pose proof (digits2_pos_spec m') as Hs2. rewrite Hdm in Hs1. rewrite Hdm' in Hs2.
    assert (104 < Z.pos (digits2_pos (m * m'))).
    { apply (Z.pow_lt_mono_r_iff 2); [lia|lia|]. rewrite Pos2Z.inj_mul in Hs.
      change (2 ^ 104) with (2 ^ 52 * 2 ^ 52). simpl Z.sub in Hs1, Hs2. nia. }
    unfold fexp64, fexp, emin, prec64, emax64. lia.
Qed.

(** ** IEEE 754 interchange forms *)

Section Interchange.

(** [mw] stored mantissa bits and [ew] exponent bits. *)
Context (mw ew : Z).

Definition bias : Z := 2 ^ (ew - 1) - 1.

Definition float_bits (x : number) : Z :=
  let sgn (s : bool) := if s then 2 ^ (mw + ew) else 0 in
  match x with
  | S754_zero s => sgn s
  | S754_infinity s => sgn s + (2 ^ ew - 1) * 2 ^ mw
  | S754_nan => (2 ^ ew - 1) * 2 ^ mw + 2 ^ (mw - 1)
  | S754_finite s m e =>
      if Z.pos m <? 2 ^ mw then sgn s + Z.pos m
      else sgn s + (e + bias + mw) * 2 ^ mw + (Z.pos m - 2 ^ mw)
  end.

Definition float_of_bits (b : Z) : number :=
  let s := 0 <? b / 2 ^ (mw + ew) in
  let ex := b / 2 ^ mw mod 2 ^ ew in
  let m := b mod 2 ^ mw in
  if ex =? 2 ^ ew - 1 then if m =? 0 then S754_infinity s else S754_nan
  else if ex =? 0 then
    if m =? 0 then S754_zero s else S754_finite s (Z.to_pos m) (1 - bias - mw)
  else S754_finite s (Z.to_pos (m + 2 ^ mw)) (ex - bias - mw).

Hypothesis Hmw : 2 <= mw.
Hypothesis Hew : 2 <= ew.

Lemma split_bits (s : bool) ex m :
  0 <= ex < 2 ^ ew -> 0 <= m < 2 ^ mw ->
  let b := (if s then 2 ^ (mw + ew) else 0) + ex * 2 ^ mw + m in
  (0 <? b / 2 ^ (mw + ew)) = s /\ b / 2 ^ mw mod 2 ^ ew = ex /\ b mod 2 ^ mw = m.
Proof.
  intros Hex Hm b. pose proof (pow2_pos mw ltac:(lia)). pose proof (pow2_pos ew ltac:(lia)).
  set (sg := if s then 1 else 0 : Z).
  assert (Hb : b = m + (ex + sg * 2 ^ ew) * 2 ^ mw).
  { subst b sg. rewrite Z.pow_add_r by lia. destruct s; ring. }
  assert (Hdiv : b / 2 ^ mw = ex + sg * 2 ^ ew).
  { rewrite Hb, Z.div_add, Z.div_small by lia. lia. }
  split_and!.
  - rewrite Z.pow_add_r, <- Z.div_div, Hdiv, Z.div_add, Z.div_small by lia.
    subst sg. by destruct s.
  - rewrite Hdiv, Z_mod_plus_full. by apply Z.mod_small.
  - rewrite Hb, Z_mod_plus_full. by apply Z.mod_small.
Qed.

Lemma float_bits_roundtrip x :
  valid_binary (mw + 1) (2 ^ (ew - 1)) x = true -> float_of_bits (float_bits x) = x.
Proof.
  intros Hv. pose proof (pow2_pos mw ltac:(lia)) as Hp. pose proof (pow2_pos ew ltac:(lia)) as He.
  pose proof (pow2_pos (mw - 1) ltac:(lia)) as Hp1.
  pose proof (pow2_pos (ew - 1) ltac:(lia)) as He1.
  assert (E2 : 2 ^ ew = 2 * 2 ^ (ew - 1)) by (rewrite <- Z.pow_succ_r by lia; f_equal; lia).
  assert (M2 : 2 ^ mw = 2 * 2 ^ (mw - 1)) by (rewrite <- Z.pow_succ_r by lia; f_equal; lia).
  assert (2 <= 2 ^ (ew - 1)) by (change 2 with (2 ^ 1) at 1; apply Z.pow_le_mono_r; lia).
  unfold float_of_bits, float_bits. destruct x as [s|s| |s m e].
  - destruct (split_bits s 0 0 ltac:(lia) ltac:(lia)) as (X1 & X2 & X3).
    rewrite !Z.mul_0_l, !Z.add_0_r in *. rewrite X1, X2, X3.
    rewrite (proj2 (Z.eqb_neq 0 _)) by lia. done.
  - destruct (split_bits s (2 ^ ew - 1) 0 ltac:(lia) ltac:(lia)) as (X1 & X2 & X3).
    rewrite !Z.add_0_r in *. rewrite X1, X2, X3, Z.eqb_refl. done.
  - destruct (split_bits false (2 ^ ew - 1) (2 ^ (mw - 1)) ltac:(lia) ltac:(lia)) as (X1 & X2 & X3).
    rewrite Z.add_0_l in *. rewrite X2, X3, Z.eqb_refl.
    rewrite (proj2 (Z.eqb_neq _ _)) by lia. done.
  - cbn [valid_binary] in Hv. unfold bounded, canonical_mantissa in Hv.
    apply andb_prop in Hv as [Hc Hle]. apply Z.eqb_eq in Hc. apply Zle_bool_imp_le in Hle.
    unfold fexp, emin in Hc. pose proof (digits2_pos_spec m) as Hd.
    set (d := Z.pos (digits2_pos m)) in *. assert (1 <= d) by lia.
    destruct (Z.ltb_spec (Z.pos m) (2 ^ mw)) as [Hlt|Hge].
    + destruct (split_bits s 0 (Z.pos m) ltac:(lia) ltac:(lia)) as (X1 & X2 & X3).
      rewrite Z.mul_0_l, Z.add_0_r in *. rewrite X1, X2, X3.
      rewrite (proj2 (Z.eqb_neq 0 _)) by lia. cbn [Z.eqb].
      assert (d <= mw).
      { destruct (Z.le_gt_cases d mw); [done|].
        assert (2 ^ mw <= 2 ^ (d - 1)) by (apply Z.pow_le_mono_r; lia). lia. }
      f_equal. unfold bias. lia.
    + assert (d = mw + 1).
      { assert (mw < d) by (apply (Z.pow_lt_mono_r_iff 2); lia). lia. }
      assert (Hm2 : Z.pos m < 2 * 2 ^ mw).
      { rewrite <- Z.pow_succ_r by lia. replace (Z.succ mw) with d by lia. lia. }
      assert (Hex : 1 <= e + bias + mw <= 2 ^ ew - 2) by (unfold bias; lia).
      destruct (split_bits s (e + bias + mw) (Z.pos m - 2 ^ mw) ltac:(lia) ltac:(lia))
        as (X1 & X2 & X3).
      rewrite X1, X2, X3, !(proj2 (Z.eqb_neq _ _)) by lia.
      replace (Z.pos m - 2 ^ mw + 2 ^ mw) with (Z.pos m) by lia.
      cbn [Z.to_pos]. f_equal. lia.
Qed.

Lemma float_bits_range x :
  valid_binary (mw + 1) (2 ^ (ew - 1)) x = true -> 0 <= float_bits x < 2 ^ (mw + ew + 1).
Proof.
  intros Hv. pose proof (pow2_pos mw ltac:(lia)) as Hp. pose proof (pow2_pos ew ltac:(lia)) as He.
  pose proof (pow2_pos (mw - 1) ltac:(lia)) as Hp1.
  assert (M2 : 2 ^ mw = 2 * 2 ^ (mw - 1)) by (rewrite <- Z.pow_succ_r by lia; f_equal; lia).
  assert (E2 : 2 ^ ew = 2 * 2 ^ (ew - 1)) by (rewrite <- Z.pow_succ_r by lia; f_equal; lia).
  rewrite !Z.pow_add_r by lia. change (2 ^ 1) with 2.
  unfold float_bits. rewrite Z.pow_add_r by lia.
  destruct x as [s|s| |s m e]; [destruct s; nia|destruct s; nia|nia|].
  cbn [valid_binary] in Hv. unfold bounded, canonical_mantissa in Hv.
  apply andb_prop in Hv as [Hc Hle]. apply Z.eqb_eq in Hc. apply Zle_bool_imp_le in Hle.
  unfold fexp, emin in Hc. pose proof (digits2_pos_spec m) as Hd.
  set (d := Z.pos (digits2_pos m)) in *.
  destruct (Z.ltb_spec (Z.pos m) (2 ^ mw)) as [Hlt|Hge]; [destruct s; nia|].
  assert (mw < d) by (apply (Z.pow_lt_mono_r_iff 2); lia).
  assert (Hm2 : Z.pos m < 2 * 2 ^ mw).
  { rewrite <- Z.pow_succ_r by lia. replace (Z.succ mw) with d by lia. lia. }
  assert (Hex : 1 <= e + bias + mw <= 2 ^ ew - 2) by (unfold bias; lia).
  generalize dependent (e + bias + mw). intros x Hx. destruct s; nia.
Qed.

End Interchange.

Definition valid_num (x : number) : bool := valid_binary prec64 emax64 x.

Lemma valid_num_bound x : valid_num x = true -> Z.abs (num_trunc x) < 2 ^ 1024.
Proof.
  destruct x as [s|s| |s m e]; intros Hv; try (cbn [num_trunc]; done).
  unfold valid_num in Hv. cbn [valid_binary] in Hv. unfold bounded, canonical_mantissa in Hv.
  apply andb_prop in Hv as [Hc Hle]. apply Z.eqb_eq in Hc. apply Zle_bool_imp_le in Hle.
  unfold fexp, emin, prec64, emax64 in *. pose proof (digits2_pos_spec m) as Hd.
  set (d := Z.pos (digits2_pos m)) in *. cbn [num_trunc].
  assert (Hd53 : d <= 53) by lia.
  assert (Ha : 0 <= (if 0 <=? e then Z.pos m * 2 ^ e else Z.pos m / 2 ^ (- e)) < 2 ^ 1024).
  { destruct (Z.leb_spec 0 e).
    - pose proof (pow2_pos e ltac:(lia)).
      assert (2 ^ d * 2 ^ e <= 2 ^ 1024) by (rewrite <- Z.pow_add_r by lia; apply Z.pow_le_mono_r; lia).
      split; [lia|]. nia.
    - assert (2 ^ d <= 2 ^ 1024) by (apply Z.pow_le_mono_r; lia).
      pose proof (pow2_pos (- e) ltac:(lia)).
      split; [apply Z.div_pos; lia|]. apply Z.div_lt_upper_bound; [lia|]. nia. }
  destruct s; lia.
Qed.

Definition writeDoubleBE (x : number) : bytes := be_bytes 8 (float_bits 52 11 x).
Definition readDoubleBE (b : bytes) (offset : Z) : result number :=
  z ← read_uint 8 b offset; Ok (float_of_bits 52 11 z).

(** Rounding to single precision, and the Number of a single. *)
Definition to_single (x : number) : number :=
  match x with
  | S754_finite s m e => binary_round 24 128 s m e
  | _ => x
  end.
Definition of_single (x : number) : number :=
  match x with
  | S754_finite s m e => binary_round prec64 emax64 s m e
  | _ => x
  end.

Definition writeFloatBE (x : number) : bytes := be_bytes 4 (float_bits 23 8 (to_single x)).
Definition readFloatBE (b : bytes) (offset : Z) : result number :=
  z ← read_uint 4 b offset; Ok (of_single (float_of_bits 23 8 z)).

(** The Numbers a CQL float holds without loss. *)
Definition is_single (x : number) : bool :=
  valid_binary 24 128 (to_single x) && bool_decide (of_single (to_single x) = x).

Lemma read_write_double x rest :
  valid_num x = true -> readDoubleBE (writeDoubleBE x ++ rest) 0 = Ok x.
Proof.
  intros Hv. unfold readDoubleBE, writeDoubleBE.
  rewrite read_uint_0 by done. rewrite ok_bind. f_equal.
  rewrite be_val_bytes, Z.mod_small.
  - apply (float_bits_roundtrip 52 11); [lia|lia|exact Hv].
  - apply (float_bits_range 52 11); [lia|lia|exact Hv].
Qed.

Lemma read_write_float x rest :
  is_single x = true -> readFloatBE (writeFloatBE x ++ rest) 0 = Ok x.
Proof.
  intros [Hv Hx%bool_decide_eq_true]%andb_prop. unfold readFloatBE, writeFloatBE.
  rewrite read_uint_0 by done. rewrite ok_bind. f_equal.
  rewrite be_val_bytes, Z.mod_small.
  - rewrite (float_bits_roundtrip 23 8); [exact Hx|lia|lia|exact Hv].
  - apply (float_bits_range 23 8); [lia|lia|exact Hv].
Qed.

Lemma writeDoubleBE_length x : length (writeDoubleBE x) = 8%nat.
Proof. apply be_bytes_length. Qed.
Lemma writeFloatBE_length x : length (writeFloatBE x) = 4%nat.
Proof. apply be_bytes_length. Qed.
