(* ===== verification/NumText.v ===== *)
(** * Numbers and BigInts as text

    The conversions of the language between Numbers, BigInts and strings that the
    driver relies on: [parseFloat], [Number(s)], [BigInt(s)], [BigInt(n)],
    [n.toString()] and [n.toFixed(20)].  A decimal literal denotes the Number nearest
    to its value (ties to even), and a Number prints as the shortest digits that read
    back to it. *)

From Stdlib Require Import SpecFloat.
From S2P Require Import Prelude JsNumber Buffer JsString Float.

(** ** Reading *)

(** The Number nearest to [m * 10^e].  The two outer branches answer without computing
    the power: such a literal is above the largest Number, or below half the least. *)
Definition num_of_decimal (s : bool) (m e : Z) : number :=
  match m with
  | Z.pos p =>
      let magnitude := slen (dec_str m) + e in
      if 400 <? magnitude then S754_infinity s
      else if magnitude <? -400 then S754_zero s
      else if 0 <=? e then
        match m * 10 ^ e with
        | Z.pos q => binary_round prec64 emax64 s q 0
        | _ => S754_zero s
        end
      else
        match 10 ^ (- e) with
        | Z.pos q => SFdiv prec64 emax64 (S754_finite s p 0) (S754_finite false q 0)
        | _ => S754_nan
        end
  | _ => S754_zero s
  end.

(** An optional sign: whether it is a minus, and what follows. *)
Definition take_sign (s : jsstr) : bool * jsstr :=
  match s with
  | c :: r => if c =? 45 then (true, r) else if c =? 43 then (false, r) else (false, s)
  | [] => (false, [])
  end.

(** An exponent part, if a complete one is there. *)
Definition exponent_part (s : jsstr) : Z * jsstr :=
  match s with
  | c :: r =>
      if (c =? 101) || (c =? 69) then
        let '(neg, r') := take_sign r in
        match span_digits r' with
        | ([], _) => (0, s)
        | (ds, rest) => (if neg then - dec_val ds else dec_val ds, rest)
        end
      else (0, s)
  | [] => (0, s)
  end.

(** The longest decimal literal at the front, without its sign. *)
Definition unsigned_literal (neg : bool) (s : jsstr) : option (number * jsstr) :=
  match strip_prefix (js "Infinity") s with
  | Some r => Some (S754_infinity neg, r)
  | None =>
      let '(ip, r) := span_digits s in
      let '(fp, r') := match r with
                       | c :: r1 => if c =? 46 then span_digits r1 else ([], r)
                       | [] => ([], r)
                       end in
      match ip, fp with
      | [], [] => None
      | _, _ =>
          let '(e, rest) := exponent_part r' in
          Some (num_of_decimal neg (dec_val (ip ++ fp)) (e - slen fp), rest)
      end
  end.

Definition parseFloat (s : jsstr) : number :=
  let '(neg, r) := take_sign (skip_space s) in
  match unsigned_literal neg r with Some (x, _) => x | None => S754_nan end.

(** The value of a run of digits in a radix; none when a character is not a digit or
    the run is empty. *)
Definition radix_value (radix : Z) (s : jsstr) : option Z :=
  match s with
  | [] => None
  | _ =>
      if forallb (fun c => match digit_value c with Some d => d <? radix | None => false end) s
      then parse_digits radix s None else None
  end.

(** The prefixes 0x, 0o and 0b. *)
Definition radix_prefix (s : jsstr) : option (Z * jsstr) :=
  match s with
  | 48 :: c :: r =>
      if (c =? 120) || (c =? 88) then Some (16, r)
      else if (c =? 111) || (c =? 79) then Some (8, r)
      else if (c =? 98) || (c =? 66) then Some (2, r)
      else None
  | _ => None
  end.

(** [Number(s)] of a string. *)
Definition string_to_number (s : jsstr) : number :=
  match trim s with
  | [] => S754_zero false
  | s =>
      match radix_prefix s with
      | Some (radix, r) =>
          match radix_value radix r with Some z => num_of_Z z | None => S754_nan end
      | None =>
          let '(neg, r) := take_sign s in
          match unsigned_literal neg r with Some (x, []) => x | _ => S754_nan end
      end
  end.

(** [BigInt(s)] of a string. *)
Definition string_to_bigint (s : jsstr) : result Z :=
  let bad := Err (SyntaxError "Cannot convert to a BigInt") in
  match trim s with
  | [] => Ok 0
  | s =>
      match radix_prefix s with
      | Some (radix, r) => match radix_value radix r with Some z => Ok z | None => bad end
      | None =>
          let '(neg, r) := take_sign s in
          match radix_value 10 r with
          | Some z => Ok (if neg then - z else z)
          | None => bad
          end
      end
  end.

(** [BigInt(n)] of a Number. *)
Definition number_to_bigint (x : number) : result Z :=
  if num_is_integer x then Ok (num_trunc x)
  else Err (RangeError "The number cannot be converted to a BigInt because it is not an integer").

(** ** Writing *)

(** The numerator and denominator of a finite Number's magnitude. *)
Definition num_ratio (m : positive) (e : Z) : Z * Z :=
  if 0 <=? e then (Z.pos m * 2 ^ e, 1) else (Z.pos m, 2 ^ (- e)).

(** The [n] with [10^(n-1) <= p/q < 10^n]; a Number is above [10^-324]. *)
Fixpoint decimal_point_below (fuel : nat) (p q n : Z) : Z :=
  match fuel with
  | O => n
  | S fuel => if q <=? p * 10 then n else decimal_point_below fuel (p * 10) q (n - 1)
  end.

Definition decimal_point (p q : Z) : Z :=
  if q <=? p then slen (dec_str (p / q)) else decimal_point_below 330 p q 0.

(** The [k] digit integers around [p/q * 10^(k-n)], the nearer one first. *)
Definition digit_candidates (p q n k : Z) : list Z :=
  let num := if 0 <=? k - n then p * 10 ^ (k - n) else p in
  let den := if 0 <=? k - n then q else q * 10 ^ (n - k) in
  let f := num / den in
  if 2 * (num mod den) <=? den then [f; f + 1] else [f + 1; f].

(** The fewest digits that read back; seventeen always do. *)
Fixpoint shortest (fuel : nat) (x : number) (p q n k : Z) : Z * Z :=
  match fuel with
  | O => (p / q, n)
  | S fuel =>
      match List.find (fun d => bool_decide (num_of_decimal false d (n - k) = x))
                      (digit_candidates p q n k) with
      | Some d => (d, k)
      | None => shortest fuel x p q n (k + 1)
      end
  end.

Definition zeros (n : Z) : jsstr := replicate (Z.to_nat n) 48.

(** [x.toString()] *)
Definition num_to_string (x : number) : jsstr :=
  match x with
  | S754_nan => js "NaN"
  | S754_zero _ => js "0"
  | S754_infinity s => (if s then js "-" else []) ++ js "Infinity"
  | S754_finite s m e =>
      let '(p, q) := num_ratio m e in
      let n := decimal_point p q in
      let '(d, k) := shortest 20 (S754_finite false m e) p q n 1 in
      let digits := dec_str d in
      let at_ := fun (i : Z) => take (Z.to_nat i) digits in
      let from := fun (i : Z) => drop (Z.to_nat i) digits in
      (if s then js "-" else []) ++
      if (k <=? n) && (n <=? 21) then digits ++ zeros (n - k)
      else if (0 <? n) && (n <=? 21) then at_ n ++ 46 :: from n
      else if (-6 <? n) && (n <=? 0) then js "0." ++ zeros (- n) ++ digits
      else
        let ex := n - 1 in
        let es := (if ex <? 0 then js "-" else js "+") ++ dec_str (Z.abs ex) in
        if k =? 1 then digits ++ js "e" ++ es
        else at_ 1 ++ 46 :: from 1 ++ js "e" ++ es
  end.

(** [x.toFixed(20)] of a finite Number. *)
Definition num_to_fixed20 (x : number) : jsstr :=
  match x with
  | S754_finite s m e =>
      let '(p, q) := num_ratio m e in
      if 10 ^ 21 * q <=? p then num_to_string x
      else
        let n := (2 * p * 10 ^ 20 + q) / (2 * q) in
        let ds := dec_str n in
        let ds := if slen ds <=? 20 then zeros (21 - slen ds) ++ ds else ds in
        let k := slen ds in
        (if s then js "-" else []) ++
        take (Z.to_nat (k - 20)) ds ++ 46 :: drop (Z.to_nat (k - 20)) ds
  | S754_zero _ => js "0." ++ zeros 20
  | _ => num_to_string x
  end.

(** ** The text of an integer *)

Lemma dec_str_zeros a (j : nat) : 0 < a -> dec_str (a * 10 ^ Z.of_nat j) = dec_str a ++ zeros (Z.of_nat j).
Proof.
  intros Ha. unfold zeros. rewrite Nat2Z.id. induction j as [|j IH]; [cbn; by rewrite Z.mul_1_r, app_nil_r|].
  rewrite Nat2Z.inj_succ, Z.pow_succ_r by lia. pose proof (Z.pow_pos_nonneg 10 (Z.of_nat j) ltac:(lia) ltac:(lia)).
  replace (a * (10 * 10 ^ Z.of_nat j)) with (10 * (a * 10 ^ Z.of_nat j) + 0) by lia.
  rewrite dec_str_step, IH by nia. rewrite replicate_S_end, app_assoc. done.
Qed.

(** Reading an integer with few digits. *)
Lemma num_of_decimal_int c e : 0 < c -> 0 <= e -> safe_int (c * 10 ^ e) -> num_of_decimal false c e = num_of_Z (c * 10 ^ e).
Proof.
  intros Hc He Hs. assert (Hp : 1 <= 10 ^ e) by (pose proof (Z.pow_pos_nonneg 10 e); lia).
  assert (Hm : slen (dec_str c) + e <= 400).
  { destruct (dec_str_size c Hc) as [Hl _]. unfold slen, safe_int in *. set (n := Z.of_nat (length (dec_str c))) in *.
    destruct (Z.le_gt_cases (n + e) 400) as [|Hn]; [done|]. exfalso. assert (0 <= n) by lia.
    assert (Hb : 10 ^ (n - 1 + e) <= c * 10 ^ e).
    { destruct (Z.eq_dec n 0) as [E|]; [|rewrite Z.pow_add_r by lia; nia]. rewrite E. replace e with (Z.succ (0 - 1 + e)) at 2 by lia.
      rewrite Z.pow_succ_r by lia. pose proof (Z.pow_nonneg 10 (0 - 1 + e)). nia. }
    assert (10 ^ 17 <= 10 ^ (n - 1 + e)) by (apply Z.pow_le_mono_r; lia). change (2 ^ 53) with 9007199254740992 in Hs.
    change (10 ^ 17) with 100000000000000000 in *. lia. }
  unfold num_of_decimal. destruct c as [|p|p]; [lia| |lia].
  rewrite (proj2 (Z.ltb_ge 400 _)) by lia. rewrite (proj2 (Z.ltb_ge _ (-400))) by (unfold slen; lia).
  rewrite (proj2 (Z.leb_le 0 e)) by done. destruct (Z.pos p * 10 ^ e) as [|q|q] eqn:E; [nia| |nia]. done.
Qed.

Lemma num_of_Z_inj a b : safe_int a -> safe_int b -> num_of_Z a = num_of_Z b -> a = b.
Proof. intros Ha Hb E. rewrite <- (num_trunc_of_Z a Ha), <- (num_trunc_of_Z b Hb). by f_equal. Qed.

Section shortest.
Variables (d q n : Z).
Hypothesis Hd : 0 < d < 10 ^ 15.
Hypothesis Hq : 0 < q.
Hypothesis Hn : n = slen (dec_str d).

(** A candidate that reads back is the integer. *)
Lemma candidate_value k c : 1 <= k <= n -> c ∈ digit_candidates (d * q) q n k ->
  num_of_decimal false c (n - k) = num_of_Z d -> 0 < c /\ c * 10 ^ (n - k) = d.
Proof.
  intros Hk Hc E. destruct (dec_str_size d) as [Hl _]; [lia|]. unfold slen in Hn. rewrite <- Hn in Hl.
  assert (HT : 1 <= 10 ^ (n - k)) by (pose proof (Z.pow_pos_nonneg 10 (n - k)); lia). 
  assert (HTd : 10 ^ (n - k) <= d) by (assert (10 ^ (n - k) <= 10 ^ (n - 1)) by (apply Z.pow_le_mono_r; lia); lia).
  set (T := 10 ^ (n - k)) in *.
  assert (Hf : (if 0 <=? k - n then d * q * 10 ^ (k - n) else d * q) / (if 0 <=? k - n then q else q * T) = d / T).
  { destruct (Z.leb_spec 0 (k - n)).
    - assert (k = n) as -> by lia. subst T. rewrite Z.sub_diag, Z.pow_0_r, Z.mul_1_r, Z.div_1_r. apply Z.div_mul. lia.
    - rewrite (Z.mul_comm d q). apply Z.div_mul_cancel_l; lia. }
  assert (Hc2 : c = d / T \/ c = d / T + 1).
  { unfold digit_candidates in Hc. fold T in Hc. rewrite Hf in Hc. destruct (_ <=? _) in Hc;
      apply elem_of_cons in Hc as [->|Hc%list_elem_of_singleton]; auto. }
  assert (1 <= d / T) by (apply Z.div_le_lower_bound; lia). assert (T * (d / T) <= d) by (apply Z.mul_div_le; lia).
  assert (Hs : 0 < c * T < 2 ^ 53) by (change (2 ^ 53) with 9007199254740992; change (10 ^ 15) with 1000000000000000 in Hd; nia).
  split; [lia|]. rewrite num_of_decimal_int in E by (unfold safe_int; fold T; lia).
  apply num_of_Z_inj in E; [done|unfold safe_int; fold T; lia|unfold safe_int; change (2 ^ 53) with 9007199254740992; lia].
Qed.

Lemma shortest_value fuel k : 1 <= k <= n -> n - k < Z.of_nat fuel ->
  exists c k', shortest fuel (num_of_Z d) (d * q) q n k = (c, k') /\ k' <= n /\ 0 < c /\ c * 10 ^ (n - k') = d.
Proof.
  revert k. induction fuel as [|fuel IH]; intros k Hk Hf; [lia|]. cbn [shortest].
  destruct (List.find _ _) as [c|] eqn:E.
  - apply List.find_some in E as [Hin Hb]. apply bool_decide_eq_true in Hb. apply list_elem_of_In in Hin.
    destruct (candidate_value k c Hk Hin Hb). exists c, k. split_and!; [done|lia|done|done].
  - destruct (Z.eq_dec k n) as [->|]; [|apply IH; lia]. exfalso.
    assert (Hin : In d (digit_candidates (d * q) q n n)).
    { unfold digit_candidates. rewrite Z.sub_diag. cbn [Z.leb Z.compare]. rewrite Z.pow_0_r, Z.mul_1_r, Z.div_mul, Z.mod_mul by lia.
      rewrite (proj2 (Z.leb_le _ _)) by lia. by left. }
    apply (List.find_none _ _ E) in Hin. apply bool_decide_eq_false in Hin. apply Hin.
    rewrite Z.sub_diag, num_of_decimal_int by (unfold safe_int; change (2 ^ 53) with 9007199254740992; lia). f_equal. lia.
Qed.

End shortest.

(** A Number that is an integer below 10^15 prints its digits. *)
Lemma num_to_string_int d : 0 <= d < 10 ^ 15 -> num_to_string (num_of_Z d) = dec_str d.
Proof.
  intros Hd. destruct (Z.eq_dec d 0) as [->|Hnz]; [done|].
  assert (Hs : safe_int d) by (unfold safe_int; change (2 ^ 53) with 9007199254740992; lia).
  destruct (num_of_Z_finite d Hs Hnz) as (m & k & E & Hk & Hm). rewrite (proj2 (Z.ltb_ge d 0)), Z.abs_eq in * by lia.
  destruct (dec_str_size d) as [Hl _]; [lia|]. set (n := slen (dec_str d)).
  assert (Hn : 1 <= n <= 15).
  { destruct (dec_str_spec d) as (_ & _ & Hne); [lia|]. unfold n, slen in *. destruct (dec_str d) as [|c r]; [done|]. cbn [length] in *.
    split; [lia|]. destruct (Z.le_gt_cases (Z.of_nat (S (length r))) 15) as [|Hx]; [done|].
    assert (10 ^ 15 <= 10 ^ (Z.of_nat (S (length r)) - 1)) by (apply Z.pow_le_mono_r; lia). lia. }
  assert (Hr : num_ratio m (- k) = (d * 2 ^ k, 2 ^ k)).
  { unfold num_ratio. destruct (Z.leb_spec 0 (- k)); [assert (k = 0) as -> by lia; rewrite Hm; cbn; f_equal; lia|].
    by rewrite Hm, Z.opp_involutive. }
  pose proof (pow2_pos k Hk) as Hq.
  assert (Hdp : decimal_point (d * 2 ^ k) (2 ^ k) = n).
  { unfold decimal_point. rewrite (proj2 (Z.leb_le _ _)) by nia. by rewrite Z.div_mul by lia. }
  destruct (shortest_value d (2 ^ k) n ltac:(lia) ltac:(lia) eq_refl 20 1 ltac:(lia) ltac:(lia)) as (c & k' & Es & Hk' & Hc & Hv).
  rewrite E in Es |- *. unfold num_to_string. rewrite Hr, Hdp, Es. cbn [app].
  rewrite (proj2 (Z.leb_le k' n)), (proj2 (Z.leb_le n 21)) by lia. cbn [andb].
  transitivity (dec_str (c * 10 ^ (n - k'))); [|by rewrite Hv].
  rewrite <- (Z2Nat.id (n - k')) by lia. by rewrite dec_str_zeros.
Qed.

(** ** Examples *)

Example num_to_string_examples :
  (num_to_string <$> [num_of_Z 5; parseFloat (js "-0.1"); parseFloat (js "1e21");
     parseFloat (js "1.5e-7"); parseFloat (js "123.456"); num_of_Z 1000000])
  = js <$> ["5"; "-0.1"; "1e+21"; "1.5e-7"; "123.456"; "1000000"]%string.
Proof. vm_compute. reflexivity. Qed.

Example string_to_number_examples :
  (string_to_number <$> [js " 12 "; js "0x10"; js "1e400"; js "-"; js ""; js "1.5x"])
  = [num_of_Z 12; num_of_Z 16; S754_infinity false; S754_nan; num_of_Z 0; S754_nan].
Proof. vm_compute. reflexivity. Qed.
