(* ===== verification/Utf8.v ===== *)
(** * Text encodings of Buffers

    [Buffer.from(s, encoding)] and [buf.toString(encoding)] for the encodings the
    driver names: utf8, ascii and hex.  Strings are UTF-16 code units; a surrogate that
    is not part of a pair is written as U+FFFD, and an ill-formed byte sequence is read
    as U+FFFD once per maximal part. *)

From S2P Require Import Prelude JsNumber Buffer JsString.

Definition is_high (u : Z) : bool := (0xD800 <=? u) && (u <? 0xDC00).
Definition is_low (u : Z) : bool := (0xDC00 <=? u) && (u <? 0xE000).
Definition is_cont (b : Z) : bool := (0x80 <=? b) && (b <? 0xC0).

Definition replacement : Z := 0xFFFD.

Definition utf8_point (c : Z) : bytes :=
  if c <? 0x80 then [c]
  else if c <? 0x800 then [0xC0 + c / 64; 0x80 + c mod 64]
  else if c <? 0x10000 then [0xE0 + c / 4096; 0x80 + c / 64 mod 64; 0x80 + c mod 64]
  else [0xF0 + c / 262144; 0x80 + c / 4096 mod 64; 0x80 + c / 64 mod 64; 0x80 + c mod 64].

(** [Buffer.from(s, 'utf8')] *)
Fixpoint utf8_encode (s : jsstr) : bytes :=
  match s with
  | [] => []
  | u :: s' =>
      if is_high u then
        match s' with
        | v :: s'' =>
            if is_low v
            then utf8_point (0x10000 + (u - 0xD800) * 1024 + (v - 0xDC00)) ++ utf8_encode s''
            else utf8_point replacement ++ utf8_encode s'
        | [] => utf8_point replacement
        end
      else if is_low u then utf8_point replacement ++ utf8_encode s'
      else utf8_point u ++ utf8_encode s'
  end.

(** The code units of a supplementary code point. *)
Definition surrogates (c : Z) : jsstr :=
  [0xD800 + (c - 0x10000) / 1024; 0xDC00 + (c - 0x10000) mod 1024].

(** The range of the byte after the lead byte of a sequence of three or four. *)
Definition second_ok (b0 b1 : Z) : bool :=
  let lo := if b0 =? 0xE0 then 0xA0 else if b0 =? 0xF0 then 0x90 else 0x80 in
  let hi := if b0 =? 0xED then 0x9F else if b0 =? 0xF4 then 0x8F else 0xBF in
  (lo <=? b1) && (b1 <=? hi).

(** [buf.toString('utf8')] *)
Fixpoint utf8_decode (b : bytes) : jsstr :=
  match b with
  | [] => []
  | b0 :: r0 =>
      if b0 <? 0x80 then b0 :: utf8_decode r0
      else if (0xC2 <=? b0) && (b0 <? 0xE0) then
        match r0 with
        | b1 :: r1 =>
            if is_cont b1 then (b0 - 0xC0) * 64 + (b1 - 0x80) :: utf8_decode r1
            else replacement :: utf8_decode r0
        | [] => [replacement]
        end
      else if (0xE0 <=? b0) && (b0 <? 0xF0) then
        match r0 with
        | b1 :: r1 =>
            if second_ok b0 b1 then
              match r1 with
              | b2 :: r2 =>
                  if is_cont b2
                  then (b0 - 0xE0) * 4096 + (b1 - 0x80) * 64 + (b2 - 0x80) :: utf8_decode r2
                  else replacement :: utf8_decode r1
              | [] => [replacement]
              end
            else replacement :: utf8_decode r0
        | [] => [replacement]
        end
      else if (0xF0 <=? b0) && (b0 <? 0xF5) then
        match r0 with
        | b1 :: r1 =>
            if second_ok b0 b1 then
              match r1 with
              | b2 :: r2 =>
                  if is_cont b2 then
                    match r2 with
                    | b3 :: r3 =>
                        if is_cont b3 then
                          surrogates ((b0 - 0xF0) * 262144 + (b1 - 0x80) * 4096 +
                                      (b2 - 0x80) * 64 + (b3 - 0x80)) ++ utf8_decode r3
                        else replacement :: utf8_decode r2
                    | [] => [replacement]
                    end
                  else replacement :: utf8_decode r1
              | [] => [replacement]
              end
            else replacement :: utf8_decode r0
        | [] => [replacement]
        end
      else replacement :: utf8_decode r0
  end.

(** [Buffer.from(s, 'ascii')] keeps the low byte of each unit; [toString('ascii')]
    clears the high bit of each byte. *)
Definition ascii_encode (s : jsstr) : bytes := (fun u => u mod 256) <$> s.
Definition ascii_decode (b : bytes) : jsstr := (fun x => Z.land x 0x7f) <$> b.

Definition hex_digit (d : Z) : Z := if d <? 10 then 48 + d else 87 + d.

Definition hex_encode (b : bytes) : jsstr :=
  mjoin ((fun x => [hex_digit (x / 16); hex_digit (x mod 16)]) <$> b).

Definition hex_value (c : Z) : option Z :=
  match digit_value c with Some d => if d <? 16 then Some d else None | None => None end.

(** [Buffer.from(s, 'hex')] stops at the first pair that is not two hex digits. *)
Fixpoint hex_decode (s : jsstr) : bytes :=
  match s with
  | a :: b :: s =>
      match hex_value a, hex_value b with
      | Some x, Some y => 16 * x + y :: hex_decode s
      | _, _ => []
      end
  | _ => []
  end.

(** ** Lemmas *)

(** Well-formed UTF-16: surrogates come in pairs. *)
Fixpoint wf_utf16 (s : jsstr) : bool :=
  match s with
  | [] => true
  | u :: s' =>
      if is_high u then
        match s' with v :: s'' => is_low v && wf_utf16 s'' | [] => false end
      else negb (is_low u) && (0 <=? u) && (u <? 0x10000) && wf_utf16 s'
  end.

Ltac utf8_bool :=
  repeat match goal with
  | H : _ && _ = true |- _ => apply andb_true_iff in H as [? ?]
  | H : (_ <=? _) = true |- _ => apply Z.leb_le in H
  | H : (_ <? _) = true |- _ => apply Z.ltb_lt in H
  | H : negb _ = true |- _ => apply negb_true_iff in H
  end.

Ltac decide_bool :=
  repeat (first
    [ rewrite (proj2 (Z.ltb_lt _ _)) by lia | rewrite (proj2 (Z.ltb_ge _ _)) by lia
    | rewrite (proj2 (Z.leb_le _ _)) by lia | rewrite (proj2 (Z.leb_gt _ _)) by lia ]);
  cbn [andb].

Lemma is_cont_low x : is_cont (0x80 + x mod 64) = true.
Proof. unfold is_cont. apply andb_true_iff. split; [apply Z.leb_le|apply Z.ltb_lt]; lia. Qed.

Lemma surrogate_none u : is_high u = false -> is_low u = false -> ~ 0xD800 <= u < 0xE000.
Proof.
  unfold is_high, is_low. rewrite !andb_false_iff, !Z.leb_gt, !Z.ltb_ge. lia.
Qed.

Lemma second_ok_spec b0 b1 :
  (if b0 =? 0xE0 then 0xA0 else if b0 =? 0xF0 then 0x90 else 0x80) <= b1 ->
  b1 <= (if b0 =? 0xED then 0x9F else if b0 =? 0xF4 then 0x8F else 0xBF) ->
  second_ok b0 b1 = true.
Proof. intros. unfold second_ok. apply andb_true_iff. split; by apply Z.leb_le. Qed.

Lemma utf8_decode_bmp u r :
  0 <= u < 0x10000 -> ~ 0xD800 <= u < 0xE000 -> utf8_decode (utf8_point u ++ r) = u :: utf8_decode r.
Proof.
  intros Hu Hs. unfold utf8_point.
  destruct (Z.ltb_spec u 0x80); [|destruct (Z.ltb_spec u 0x800); [|destruct (Z.ltb_spec u 0x10000); [|lia]]];
    cbn [app utf8_decode].
  - decide_bool. done.
  - rewrite is_cont_low. decide_bool. f_equal. lia.
  - rewrite (second_ok_spec (0xE0 + u / 4096)) by (repeat case_Z; lia).
    rewrite is_cont_low. decide_bool. f_equal. lia.
Qed.

Lemma utf8_decode_pair u v r :
  0xD800 <= u < 0xDC00 -> 0xDC00 <= v < 0xE000 ->
  utf8_decode (utf8_point (0x10000 + (u - 0xD800) * 1024 + (v - 0xDC00)) ++ r) = u :: v :: utf8_decode r.
Proof.
  intros Hu Hv. set (c := 0x10000 + _ + _). assert (Hc : 0x10000 <= c < 0x110000) by (unfold c; lia).
  unfold utf8_point. decide_bool. cbn [app utf8_decode]. rewrite !is_cont_low.
  rewrite (second_ok_spec (0xF0 + c / 262144)) by (repeat case_Z; lia).
  decide_bool. unfold surrogates. cbn [app].
  replace ((0xF0 + c / 262144 - 0xF0) * 262144 + (0x80 + c / 4096 mod 64 - 0x80) * 4096 +
           (0x80 + c / 64 mod 64 - 0x80) * 64 + (0x80 + c mod 64 - 0x80)) with c by lia.
  repeat f_equal; unfold c; lia.
Qed.

Lemma utf8_roundtrip s : wf_utf16 s = true -> utf8_decode (utf8_encode s) = s.
Proof.
  enough (H : forall n s, (length s <= n)%nat -> wf_utf16 s = true -> utf8_decode (utf8_encode s) = s)
    by (intros; by apply (H (length s))).
  clear s. induction n as [|n IH]; intros s Hn Hs.
  { destruct s; [done|]. simpl in Hn. lia. }
  destruct s as [|u s]; [done|]. cbn [wf_utf16 utf8_encode length] in *.
  destruct (is_high u) eqn:Hh.
  - destruct s as [|v s]; [done|]. apply andb_true_iff in Hs as [Hl Hs]. rewrite Hl.
    unfold is_high, is_low in *. utf8_bool. rewrite utf8_decode_pair by lia.
    rewrite IH by (cbn [length] in *; done || lia). done.
  - utf8_bool. match goal with H : is_low u = false |- _ => rewrite H; pose proof (surrogate_none u Hh H) end.
    rewrite utf8_decode_bmp by lia. rewrite IH by (done || lia). done.
Qed.

Lemma utf8_encode_nil s : utf8_encode s = [] -> s = [].
Proof.
  destruct s as [|u s]; [done|]. cbn [utf8_encode]. unfold utf8_point.
  destruct (is_high u); [destruct s as [|v s]; [|destruct (is_low v)]|destruct (is_low u)];
    repeat case_Z; cbn; try done; lia.
Qed.

Lemma ascii_roundtrip s : Forall (fun u => 0 <= u < 128) s -> ascii_decode (ascii_encode s) = s.
Proof.
  unfold ascii_decode, ascii_encode. induction 1 as [|u s Hu Hs IH]; [done|]. cbn [fmap list_fmap].
  rewrite IH. f_equal. rewrite (Z.land_ones _ 7) by lia. lia.
Qed.

Lemma hex_value_digit d : 0 <= d < 16 -> hex_value (hex_digit d) = Some d.
Proof.
  intros Hd. unfold hex_value, hex_digit, digit_value.
  destruct (Z.ltb_spec d 10); decide_bool; decide_bool; f_equal; lia.
Qed.

Lemma hex_roundtrip b : wf_bytes b -> hex_decode (hex_encode b) = b.
Proof.
  induction 1 as [|x b Hx Hb IH]; [done|]. unfold is_byte in Hx.
  change (hex_encode (x :: b)) with (hex_digit (x / 16) :: hex_digit (x mod 16) :: hex_encode b).
  cbn [hex_decode]. rewrite !hex_value_digit by lia. rewrite IH. f_equal. lia.
Qed.
