(* ===== verification/VInt.v ===== *)
(** * VIntCoding: variable length integers

    Models the [VIntCoding] object of lib/utils.js: the zig-zag mapping of
    64-bit integers, the unsigned vint writer and reader used by durations, and
    the [uvintPack]/[uvintUnpack] pair used for vector element sizes.  A reader's
    mutable [offset] object is passed as a state and returned. *)

From S2P Require Import Prelude JsNumber Buffer.

Module VIntCoding.

Definition encodeZigZag64 (n : Z) : Z :=
  asUintN 64 (Z.lxor (Z.shiftl n 1) (Z.shiftr n 63)).

Definition decodeZigZag64 (n : Z) : Z :=
  asIntN 64 (Z.lxor (Z.shiftr n 1) (- (Z.land n 1))).

(** The halving steps [if (x >>> 32-k === 0) { n += k; x <<= k; }] for
    k = 16, 8, 4, 2 and the final [n -= x >>> 31]. *)
Definition nlz_step (k : Z) (s : Z * Z) : Z * Z :=
  let '(n, x) := s in
  if js_ushr x (32 - k) =? 0 then (n + k, js_shl x k) else (n, x).

Definition nlz_tail (n x : Z) : Z :=
  let '(n, x) := nlz_step 2 (nlz_step 4 (nlz_step 8 (nlz_step 16 (n, x)))) in
  n - js_ushr x 31.

Definition numberOfLeadingZeros (value : Z) : Z :=
  if value =? 0 then 64 else
  let x := Z.shiftr value 32 in
  if x =? 0 then nlz_tail (1 + 32) (Z.land value 0xffffffff) else nlz_tail 1 x.

Definition numberOfLeadingZerosInt32 (i : Z) : Z :=
  if i =? 0 then 32 else nlz_tail 1 i.

Definition computeUnsignedVIntSize (value : Z) : Z :=
  let magnitude := numberOfLeadingZeros (Z.lor value 1) in
  js_shr (639 - magnitude * 9) 6.

Definition encodeExtraBytesToRead (extraBytesToRead : Z) : Z :=
  js_not (js_shr 0xff extraBytesToRead).

(** [for (let i = extraBytes; i >= 0; i--) { buffer[i] = v & 0xff; v >>= 8 }] *)
Fixpoint encodeVInt_loop (i : nat) (v : Z) (buffer : bytes) : bytes :=
  let buffer := <[i := Z.land v 0xff]> buffer in
  match i with
  | O => buffer
  | S i => encodeVInt_loop i (Z.shiftr v 8) buffer
  end.

Definition encodeVInt (value size : Z) (buffer : bytes) : bytes :=
  let extraBytes := size - 1 in
  let buffer := encodeVInt_loop (Z.to_nat extraBytes) value buffer in
  match buffer !! 0%nat with
  | Some b0 => <[0%nat := js_or b0 (encodeExtraBytesToRead extraBytes) mod 256]> buffer
  | None => buffer
  end.

Definition writeUnsignedVInt (value : Z) (buffer : bytes) : Z * bytes :=
  let size := computeUnsignedVIntSize value in
  if size =? 1 then (1, <[0%nat := value mod 256]> buffer)
  else (size, encodeVInt value size buffer).

Definition writeVInt (value : Z) (buffer : bytes) : Z * bytes :=
  writeUnsignedVInt (encodeZigZag64 value) buffer.

Definition fromSignedByteToInt (value : Z) : Z :=
  if 0x7f <? value then value - 0x100 else value.

Definition numberOfExtraBytesToRead (firstByte : Z) : Z :=
  numberOfLeadingZerosInt32 (js_not firstByte) - 24.

Definition firstByteValueMask (extraBytesToRead : Z) : Z :=
  js_shr 0xff extraBytesToRead.

(** [BigInt(undefined)] throws. *)
Definition bigint_of_byte (b : option Z) : result Z :=
  match b with Some b => Ok b | None => Err (TypeError "Cannot convert to a BigInt") end.

Fixpoint read_loop (n : nat) (input : bytes) (offset result : Z) : Prelude.result (Z * Z) :=
  match n with
  | O => Ok (result, offset)
  | S n =>
      b ← bigint_of_byte (byte_at input offset);
      read_loop n input (offset + 1) (Z.lor (Z.shiftl result 8) b)
  end.

(** Returns the value read and the new offset. *)
Definition readUnsignedVInt (input : bytes) (offset : Z) : result (Z * Z) :=
  firstByte ← bigint_of_byte (byte_at input offset);
  let offset := offset + 1 in
  if js_and firstByte 0x80 =? 0 then Ok (firstByte, offset) else
  let sByteInt := fromSignedByteToInt firstByte in
  let size := numberOfExtraBytesToRead sByteInt in
  read_loop (Z.to_nat size) input offset (js_and sByteInt (firstByteValueMask size)).

Definition readVInt (input : bytes) (offset : Z) : result (Z * Z) :=
  '(n, offset) ← readUnsignedVInt input offset;
  Ok (decodeZigZag64 n, offset).

(** [v.toString(2).length] for a non-negative integral Number. *)
Definition bin_length (v : Z) : Z := if v =? 0 then 1 else Z.log2 v + 1.

Fixpoint uvintUnpack_loop (n : nat) (bs : bytes) (idx rv : Z) : Z :=
  match n with
  | O => rv
  | S n =>
      let newByte := default 0 (byte_at bs idx) in
      uvintUnpack_loop n bs (idx + 1) (js_or (js_shl rv 8) (js_and newByte 0xff))
  end.

(** Returns the value and the number of bytes read.  The first byte of an empty
    buffer is undefined, and so is the value returned for it. *)
Definition uvintUnpack (bs : bytes) : option Z * Z :=
  match byte_at bs 0 with
  | None => (None, 1)
  | Some firstByte =>
      if js_and firstByte 128 =? 0 then (Some firstByte, 1) else
      let numExtraBytes := 8 - bin_length (js_and (js_not firstByte) 0xff) in
      let rv := js_and firstByte (js_shr 0xff numExtraBytes) in
      (Some (uvintUnpack_loop (Z.to_nat numExtraBytes) bs 1 rv), numExtraBytes + 1)
  end.

(** The [while (numBits > 8 - reservedBits)] loop; each turn removes 8 from
    [numBits], so [numBits] turns of fuel are enough.  [rv] is kept reversed, as
    the source pushes at the end and reverses at the end. *)
Fixpoint uvintPack_loop (fuel : nat) (v numExtraBytes numBits reservedBits : Z)
    (rv : bytes) : Z * Z * bytes :=
  match fuel with
  | O => (v, numExtraBytes, rv)
  | S fuel =>
      if 8 - reservedBits <? numBits then
        let numExtraBytes := numExtraBytes + 1 in
        uvintPack_loop fuel (js_shr v 8) numExtraBytes (numBits - 8)
          (Z.min (numExtraBytes + 1) 8) (js_and v 0xff :: rv)
      else (v, numExtraBytes, rv)
  end.

Definition uvintPack (val : Z) : result bytes :=
  if val <? 128 then Ok [val mod 256] else
  let numBits := bin_length val in
  let '(v, numExtraBytes, rv) := uvintPack_loop (Z.to_nat numBits) val 0 numBits 1 [] in
  if 8 <? numExtraBytes then
    Err (PlainError "Value is too big and cannot be encoded as vint")
  else
    let n := 8 - numExtraBytes in
    let v := js_or v (js_shl (js_shr 0xff n) n) in
    Ok (Z.abs v mod 256 :: rv).

(** ** Zig-zag *)

Lemma encodeZigZag64_eq n :
  int64 n -> encodeZigZag64 n = if n <? 0 then - 2 * n - 1 else 2 * n.
Proof.
  unfold int64, encodeZigZag64, asUintN. intros Hn.
  rewrite Z.shiftl_mul_pow2, Z.shiftr_div_pow2 by lia.
  destruct (Z.ltb_spec n 0).
  - replace (n / 2 ^ 63) with (-1) by lia.
    rewrite Z.lxor_m1_r, lnot_eq. lia.
  - replace (n / 2 ^ 63) with 0 by lia. rewrite Z.lxor_0_r. lia.
Qed.

Lemma encodeZigZag64_range n : int64 n -> uint64 (encodeZigZag64 n).
Proof.
  intros Hn. rewrite encodeZigZag64_eq by done. unfold int64, uint64 in *.
  case_Z; lia.
Qed.

Lemma decodeZigZag64_eq n :
  uint64 n -> decodeZigZag64 n = if n mod 2 =? 0 then n / 2 else - (n / 2) - 1.
Proof.
  unfold uint64, decodeZigZag64. intros Hn.
  rewrite Z.shiftr_div_pow2 by lia. change (2 ^ 1) with 2.
  rewrite land_1.
  destruct (Z.eqb_spec (n mod 2) 0) as [->|Hodd].
  - rewrite Z.lxor_0_r. apply asIntN_id; lia.
  - replace (n mod 2) with 1 by lia.
    rewrite Z.lxor_m1_r, lnot_eq. apply asIntN_id; lia.
Qed.

Lemma decode_encodeZigZag64 n : int64 n -> decodeZigZag64 (encodeZigZag64 n) = n.
Proof.
  intros Hn. rewrite decodeZigZag64_eq by (by apply encodeZigZag64_range).
  rewrite encodeZigZag64_eq by done.
  destruct (Z.ltb_spec n 0); case_Z; lia.
Qed.

(** ** Leading zeros *)

(** One halving step keeps [n + 31 - log2 x] and raises the lower bound of x. *)
Lemma nlz_step_spec k j n x :
  0 < k < 32 -> j + 2 * k = 32 \/ 2 * k <= 32 - j -> 0 <= j ->
  2 ^ j <= to_uint32 x ->
  let '(n', x') := nlz_step k (n, x) in
  n' - Z.log2 (to_uint32 x') = n - Z.log2 (to_uint32 x) /\
  2 ^ Z.min (j + k) (32 - k) <= to_uint32 x'.
Proof.
  intros Hk Hjk Hj Hx. pose proof (to_uint32_range x) as Hr. unfold uint32 in Hr.
  pose proof (pow2_pos j Hj). unfold nlz_step. rewrite js_ushr_div by lia.
  change (x mod 2 ^ 32) with (to_uint32 x).
  destruct (Z.eqb_spec (to_uint32 x / 2 ^ (32 - k)) 0) as [E|E].
  - assert (Hs : to_uint32 x < 2 ^ (32 - k)).
    { apply Z.div_small_iff in E; [lia|]. pose proof (pow2_pos (32 - k)). lia. }
    rewrite js_shl_mul by lia. autorewrite with driver_rw.
    assert (Hm : to_uint32 (x * 2 ^ k) = to_uint32 x * 2 ^ k).
    { unfold to_uint32 at 1. rewrite <- Zmult_mod_idemp_l.
      change (x mod 2 ^ 32) with (to_uint32 x). apply Z.mod_small.
      assert (2 ^ 32 = 2 ^ (32 - k) * 2 ^ k) as ->.
      { rewrite <- Z.pow_add_r by lia. f_equal. lia. }
      pose proof (pow2_pos k). nia. }
    rewrite Hm, Z.log2_mul_pow2 by lia. split; [lia|].
    transitivity (2 ^ (j + k)); [apply Z.pow_le_mono_r; lia|].
    rewrite Z.pow_add_r by lia. pose proof (pow2_pos k). nia.
  - split; [done|].
    transitivity (2 ^ (32 - k)); [apply Z.pow_le_mono_r; lia|].
    apply Z.nlt_ge. intros Hlt. apply E. apply Z.div_small. lia.
Qed.

Lemma nlz_tail_spec n x :
  0 < to_uint32 x -> nlz_tail n x = n + 30 - Z.log2 (to_uint32 x).
Proof.
  intros Hx. unfold nlz_tail.
  assert (H0 : 2 ^ 0 <= to_uint32 x) by lia.
  pose proof (nlz_step_spec 16 0 n x ltac:(lia) ltac:(lia) ltac:(lia) H0) as H1.
  destruct (nlz_step 16 (n, x)) as [n1 x1]. destruct H1 as [E1 H1].
  pose proof (nlz_step_spec 8 16 n1 x1 ltac:(lia) ltac:(lia) ltac:(lia) H1) as H2.
  destruct (nlz_step 8 (n1, x1)) as [n2 x2]. destruct H2 as [E2 H2].
  pose proof (nlz_step_spec 4 24 n2 x2 ltac:(lia) ltac:(lia) ltac:(lia) H2) as H3.
  destruct (nlz_step 4 (n2, x2)) as [n3 x3]. destruct H3 as [E3 H3].
  pose proof (nlz_step_spec 2 28 n3 x3 ltac:(lia) ltac:(lia) ltac:(lia) H3) as H4.
  destruct (nlz_step 2 (n3, x3)) as [n4 x4]. destruct H4 as [E4 H4].
  rewrite js_ushr_div by lia. change (x4 mod 2 ^ 32) with (to_uint32 x4).
  pose proof (to_uint32_range x4) as Hr. unfold uint32 in Hr.
  change (2 ^ Z.min (28 + 2) (32 - 2)) with (2 ^ 30) in H4.
  assert (Hl : Z.log2 (to_uint32 x4) = 30 + to_uint32 x4 / 2 ^ 31).
  { destruct (Z.lt_ge_cases (to_uint32 x4) (2 ^ 31)).
    - rewrite (Z.div_small (to_uint32 x4)) by lia. apply Z.log2_unique; lia.
    - replace (to_uint32 x4 / 2 ^ 31) with 1 by lia. apply Z.log2_unique; lia. }
  lia.
Qed.

Lemma numberOfLeadingZeros_spec v :
  0 < v < 2 ^ 64 -> numberOfLeadingZeros v = 63 - Z.log2 v.
Proof.
  intros Hv. unfold numberOfLeadingZeros.
  rewrite (proj2 (Z.eqb_neq v 0)) by lia.
  rewrite Z.shiftr_div_pow2 by lia.
  destruct (Z.eqb_spec (v / 2 ^ 32) 0) as [E|E].
  - assert (Hs : v < 2 ^ 32) by lia.
    rewrite land_uint32, Z.mod_small by lia.
    rewrite nlz_tail_spec; rewrite to_uint32_id by (unfold uint32; lia); lia.
  - assert (Hu : uint32 (v / 2 ^ 32)) by (unfold uint32; lia).
    rewrite nlz_tail_spec; rewrite to_uint32_id by done; [|lia].
    rewrite <- Z.shiftr_div_pow2, Z.log2_shiftr by lia.
    assert (32 <= Z.log2 v) by (apply Z.log2_le_pow2; lia). lia.
Qed.

Lemma numberOfLeadingZerosInt32_spec i :
  0 < i < 2 ^ 32 -> numberOfLeadingZerosInt32 i = 31 - Z.log2 i.
Proof.
  intros Hi. unfold numberOfLeadingZerosInt32.
  rewrite (proj2 (Z.eqb_neq i 0)) by lia.
  rewrite nlz_tail_spec; rewrite to_uint32_id by (unfold uint32; lia); lia.
Qed.

(** ** The unsigned vint format *)

Lemma computeUnsignedVIntSize_eq v :
  uint64 v -> computeUnsignedVIntSize v = (72 + 9 * Z.log2 v) / 64.
Proof.
  unfold uint64. intros Hv. unfold computeUnsignedVIntSize.
  assert (Hl : Z.log2 (Z.lor v 1) = Z.log2 v).
  { rewrite Z.log2_lor by lia. pose proof (Z.log2_nonneg v). simpl. lia. }
  assert (Hp : 0 < Z.lor v 1 < 2 ^ 64).
  { assert (0 <= Z.lor v 1) by (apply Z.lor_nonneg; lia).
    assert (Z.lor v 1 <> 0) by (rewrite Z.lor_eq_0_iff; lia).
    assert (Z.log2 v < 64).
    { destruct (decide (v = 0)) as [->|]; [simpl; lia|]. apply Z.log2_lt_pow2; lia. }
    split; [lia|]. apply Z.log2_lt_pow2; lia. }
  rewrite numberOfLeadingZeros_spec, Hl by done.
  pose proof (Z.log2_nonneg v).
  assert (Z.log2 v < 64) by (rewrite <- Hl; apply Z.log2_lt_pow2; lia).
  rewrite js_shr_div, to_int32_id by (unfold int32; lia).
  change (2 ^ 6) with 64. f_equal. lia.
Qed.

(** The size is the least number of bytes of 7 payload bits each. *)
Lemma computeUnsignedVIntSize_spec v :
  uint64 v ->
  let s := computeUnsignedVIntSize v in
  1 <= s <= 9 /\ (s <= 8 -> v < 2 ^ (7 * s)) /\ (2 <= s -> 2 ^ (7 * (s - 1)) <= v).
Proof.
  intros Hv s. subst s. rewrite computeUnsignedVIntSize_eq by done.
  unfold uint64 in Hv. pose proof (Z.log2_nonneg v) as HL.
  destruct (decide (v = 0)) as [->|Hnz]; [simpl; lia|].
  pose proof (Z.log2_spec v ltac:(lia)) as [Hlo Hhi].
  assert (Z.log2 v < 64) by (apply Z.log2_lt_pow2; lia).
  split; [lia|]. split; intros Hs.
  - eapply Z.lt_le_trans; [exact Hhi|]. apply Z.pow_le_mono_r; lia.
  - etransitivity; [|exact Hlo]. apply Z.pow_le_mono_r; lia.
Qed.

(** The bytes of an unsigned vint: a first byte with [size - 1] leading ones and
    the payload's top bits, then the remaining payload big-endian. *)
Definition vint_bytes (v : Z) : bytes :=
  let s := computeUnsignedVIntSize v in
  256 - 2 ^ (9 - s) + v / 256 ^ (s - 1) :: be_bytes (Z.to_nat (s - 1)) v.

(** Case analysis on the size, with the payload's bound evaluated. *)
Lemma size_cases v :
  uint64 v ->
  exists n : nat, computeUnsignedVIntSize v = Z.of_nat (S n) /\ (n <= 8)%nat /\
    0 <= v / 256 ^ Z.of_nat n < 2 ^ (7 - Z.of_nat n) + Z.of_nat n / 8.
Proof.
  intros Hv. pose proof (computeUnsignedVIntSize_spec v Hv) as (Hs & Hb & _).
  exists (Z.to_nat (computeUnsignedVIntSize v - 1)).
  set (s := computeUnsignedVIntSize v) in *.
  rewrite Nat2Z.inj_succ, Z2Nat.id by lia.
  split; [lia|]. split; [lia|]. unfold uint64 in Hv.
  assert (s = 1 \/ s = 2 \/ s = 3 \/ s = 4 \/ s = 5 \/ s = 6 \/ s = 7 \/ s = 8 \/ s = 9)
    as Hc by lia.
  split; [apply Z.div_pos; [lia|apply Z.pow_pos_nonneg; lia]|].
  destruct Hc as [->|[->|[->|[->|[->|[->|[->|[->| ->]]]]]]]];
    apply Z.div_lt_upper_bound; try lia; simpl in *; lia.
Qed.

Lemma vint_bytes_length v :
  uint64 v -> blen (vint_bytes v) = computeUnsignedVIntSize v.
Proof.
  intros Hv. pose proof (computeUnsignedVIntSize_spec v Hv) as (Hs & _).
  unfold vint_bytes, blen. cbn [length]. rewrite be_bytes_length. lia.
Qed.

Lemma encodeVInt_loop_spec i v b :
  (i < length b)%nat -> encodeVInt_loop i v b = be_bytes (S i) v ++ drop (S i) b.
Proof.
  revert v b. induction i as [|i IH]; intros v b Hi; cbn [encodeVInt_loop];
    rewrite land_255.
  - destruct b as [|x b]; [simpl in Hi; lia|]. by rewrite be_bytes_snoc.
  - rewrite IH by (rewrite length_insert; lia).
    rewrite Z.shiftr_div_pow2 by lia. change (2 ^ 8) with 256.
    rewrite (be_bytes_snoc (S i)), <- app_assoc. f_equal.
    rewrite (drop_S _ (v mod 256) (S i)) by (apply list_lookup_insert_eq; lia).
    by rewrite drop_insert_lt by lia.
Qed.

Lemma or_extra_bytes n t :
  (1 <= n <= 8)%nat -> 0 <= t < 2 ^ (7 - Z.of_nat n) + Z.of_nat n / 8 ->
  js_or t (encodeExtraBytesToRead (Z.of_nat n)) mod 256 = 256 - 2 ^ (8 - Z.of_nat n) + t.
Proof.
  intros Hn Ht. unfold encodeExtraBytesToRead.
  rewrite js_shr_div, to_int32_id by (unfold int32; lia).
  assert (He : 255 / 2 ^ Z.of_nat n = 2 ^ (8 - Z.of_nat n) - 1).
  { do 9 (destruct n as [|n]; [reflexivity || lia|]). lia. }
  assert (Hb : 1 <= 2 ^ (8 - Z.of_nat n) <= 256 /\ t < 2 ^ (8 - Z.of_nat n)).
  { clear -Hn Ht. do 9 (destruct n as [|n]; [simpl in *; lia|]). lia. }
  rewrite He, js_not_eq by (unfold int32; lia).
  unfold js_or. rewrite !to_int32_id by (unfold int32; lia).
  replace (- (2 ^ (8 - Z.of_nat n) - 1) - 1) with ((-1) * 2 ^ (8 - Z.of_nat n)) by lia.
  rewrite Z.lor_comm, lor_mul_add by lia. lia.
Qed.

Lemma writeUnsignedVInt_spec v buf :
  uint64 v -> (9 <= length buf)%nat ->
  writeUnsignedVInt v buf =
    (computeUnsignedVIntSize v,
     vint_bytes v ++ drop (Z.to_nat (computeUnsignedVIntSize v)) buf).
Proof.
  intros Hv Hbuf. destruct (size_cases v Hv) as (n & Hs & Hn & Ht).
  unfold writeUnsignedVInt, vint_bytes. rewrite Hs.
  destruct (Z.eqb_spec (Z.of_nat (S n)) 1) as [E|E].
  - assert (n = O) as -> by lia. destruct buf as [|x buf]; [simpl in Hbuf; lia|].
    simpl in Ht. rewrite Z.div_1_r in Ht. simpl. rewrite Z.div_1_r.
    rewrite Z.mod_small by lia. do 2 f_equal. 
  - f_equal. unfold encodeVInt.
    replace (Z.of_nat (S n) - 1) with (Z.of_nat n) by lia.
    rewrite !Nat2Z.id, encodeVInt_loop_spec by lia.
    unfold be_bytes; fold be_bytes. cbn [app lookup list_lookup insert list_insert].
    f_equal. rewrite (Z.mod_small (v / _) 256).
    + rewrite or_extra_bytes by lia. do 3 f_equal. lia.
    + clear -Hn Ht. do 9 (destruct n as [|n]; [simpl in *; lia|]). lia.
Qed.

Lemma read_loop_spec bs pre rest acc :
  wf_bytes bs ->
  read_loop (length bs) (pre ++ bs ++ rest) (blen pre) acc =
    Ok (acc * 256 ^ Z.of_nat (length bs) + be_val bs, blen pre + blen bs).
Proof.
  intros Hb. revert pre acc. induction Hb as [|x bs Hx Hb IH]; intros pre acc.
  - simpl. unfold be_val, blen. simpl. do 2 f_equal; lia.
  - cbn [length read_loop app]. rewrite byte_at_app. cbn [bigint_of_byte mbind result_bind].
    replace (pre ++ x :: bs ++ rest) with ((pre ++ [x]) ++ bs ++ rest)
      by by rewrite <- app_assoc.
    replace (blen pre + 1) with (blen (pre ++ [x])) by (rewrite blen_app; done).
    rewrite IH. rewrite lor_shiftl_add by (unfold is_byte in Hx; lia).
    unfold be_val; fold be_val. rewrite blen_app. unfold blen. cbn [length].
    rewrite pow256. do 2 f_equal; [ring|lia].
Qed.

(** What the reader recovers from a first byte with [n] leading ones. *)
Lemma first_byte_spec n t :
  (1 <= n <= 8)%nat -> 0 <= t < 2 ^ (7 - Z.of_nat n) + Z.of_nat n / 8 ->
  let f := 256 - 2 ^ (8 - Z.of_nat n) + t in
  128 <= f < 256 /\ js_and f 128 <> 0 /\
  numberOfExtraBytesToRead (f - 256) = Z.of_nat n /\
  js_and (f - 256) (firstByteValueMask (Z.of_nat n)) = t.
Proof.
  intros Hn Ht f.
  assert (Hp : 0 <= t < 2 ^ (8 - Z.of_nat n) /\ 2 ^ (8 - Z.of_nat n) <= 128).
  { clear -Hn Ht. do 9 (destruct n as [|n]; [simpl in *; lia|]). lia. }
  assert (Hf : 128 <= f < 256) by (subst f; lia).
  split; [done|]. split; [|split].
  - unfold js_and. rewrite !to_int32_id by (unfold int32; lia).
    intros H0. apply (f_equal (fun z => Z.testbit z 7)) in H0.
    rewrite Z.land_spec, Z.bits_0 in H0.
    assert (Hb : Z.testbit f 7 = true) by (apply Z.testbit_true; lia).
    by rewrite Hb in H0.
  - unfold numberOfExtraBytesToRead. rewrite js_not_eq by (unfold int32; lia).
    replace (- (f - 256) - 1) with (2 ^ (8 - Z.of_nat n) - 1 - t) by (subst f; lia).
    destruct (decide (n = 8%nat)) as [->|H8].
    { simpl in Ht, Hp. assert (t = 0) as -> by lia. reflexivity. }
    assert (Hw : 2 ^ (7 - Z.of_nat n) <= 2 ^ (8 - Z.of_nat n) - 1 - t < 2 ^ (8 - Z.of_nat n)).
    { clear -Hn Ht H8. do 9 (destruct n as [|n]; [simpl in *; lia|]). lia. }
    assert (Hpos := pow2_pos (7 - Z.of_nat n) ltac:(lia)).
    rewrite numberOfLeadingZerosInt32_spec by lia.
    rewrite (Z.log2_unique _ (7 - Z.of_nat n)); [lia|lia|].
    replace (Z.succ (7 - Z.of_nat n)) with (8 - Z.of_nat n) by lia. lia.
  - unfold firstByteValueMask. rewrite js_shr_div, to_int32_id by (unfold int32; lia).
    assert (He : 255 / 2 ^ Z.of_nat n = Z.ones (8 - Z.of_nat n)).
    { do 9 (destruct n as [|n]; [reflexivity || lia|]). lia. }
    rewrite He. unfold js_and. rewrite (to_int32_id (f - 256)) by (unfold int32; lia).
    rewrite to_int32_id by (rewrite Z.ones_equiv; unfold int32; lia).
    rewrite Z.land_ones by lia. subst f.
    replace (256 - 2 ^ (8 - Z.of_nat n) + t - 256) with (t + (-1) * 2 ^ (8 - Z.of_nat n)) by lia.
    rewrite Z_mod_plus_full. apply Z.mod_small. lia.
Qed.

Lemma readUnsignedVInt_spec v pre rest :
  uint64 v ->
  readUnsignedVInt (pre ++ vint_bytes v ++ rest) (blen pre) =
    Ok (v, blen pre + computeUnsignedVIntSize v).
Proof.
  intros Hv. pose proof (vint_bytes_length v Hv) as Hlen.
  destruct (size_cases v Hv) as (n & Hs & Hn & Ht).
  unfold vint_bytes in *. rewrite Hs in *.
  replace (Z.of_nat (S n) - 1) with (Z.of_nat n) in * by lia.
  rewrite Nat2Z.id in *. replace (9 - Z.of_nat (S n)) with (8 - Z.of_nat n) in * by lia.
  set (t := v / 256 ^ Z.of_nat n) in *. set (f := 256 - 2 ^ (8 - Z.of_nat n) + t) in *.
  unfold readUnsignedVInt. cbn [app]. rewrite byte_at_app.
  cbn [bigint_of_byte mbind result_bind].
  destruct n as [|n].
  { assert (t = v) as Htv by (subst t; apply Z.div_1_r).
    assert (f = v) as -> by (subst f; rewrite Htv; simpl; lia).
    rewrite Htv in Ht. change (2 ^ (7 - Z.of_nat 0) + Z.of_nat 0 / 8) with 128 in Ht.
    assert (js_and v 128 = 0) as Hz.
    { unfold js_and. rewrite !to_int32_id by (unfold int32; lia).
      rewrite Z.land_comm. apply (land_disjoint_shiftl 1 v 7); lia. }
    by rewrite Hz. }
  destruct (first_byte_spec (S n) t ltac:(lia) Ht) as (Hfr & Hnz & Hextra & Hmask).
  fold f in Hfr, Hnz, Hextra, Hmask.
  rewrite (proj2 (Z.eqb_neq _ _) Hnz).
  unfold fromSignedByteToInt. rewrite (proj2 (Z.ltb_lt 127 f)) by lia.
  change (f - 0x100) with (f - 256). rewrite Hextra, Nat2Z.id, Hmask.
  replace (pre ++ f :: be_bytes (S n) v ++ rest)
    with ((pre ++ [f]) ++ be_bytes (S n) v ++ rest) by by rewrite <- app_assoc.
  replace (blen pre + 1) with (blen (pre ++ [f])) by by rewrite blen_app.
  rewrite <- (be_bytes_length (S n) v) at 1.
  rewrite read_loop_spec by auto with driver.
  rewrite be_bytes_length, be_val_bytes, blen_app. unfold blen at 2 3.
  rewrite be_bytes_length. cbn [length]. do 2 f_equal; [|lia].
  subst t. pose proof (pow256_pos (S n)). 
  rewrite (Z.mul_comm (_ / _)). symmetry. apply Z.div_mod. lia.
Qed.

(** ** uvintPack and uvintUnpack *)

Lemma uvintPack_loop_spec k fuel i v nb rv :
  0 <= v < 2 ^ 31 -> (k <= fuel)%nat -> 0 <= i -> i + Z.of_nat k <= 7 ->
  ((0 < k)%nat -> 7 - i + 7 * (Z.of_nat k - 1) < nb) -> nb <= 7 - i + 7 * Z.of_nat k ->
  uvintPack_loop fuel v i nb (i + 1) rv =
    (v / 256 ^ Z.of_nat k, i + Z.of_nat k, be_bytes k v ++ rv).
Proof.
  revert fuel i v nb rv. induction k as [|k IH]; intros fuel i v nb rv Hv Hf Hi Hk Hlo Hhi.
  - cbn [Z.of_nat]. rewrite Z.div_1_r, Z.add_0_r. change (be_bytes 0 v ++ rv) with rv.
    destruct fuel; cbn [uvintPack_loop]; [done|].
    rewrite (proj2 (Z.ltb_ge _ _)) by lia. done.
  - destruct fuel as [|fuel]; [lia|]. cbn [uvintPack_loop].
    rewrite (proj2 (Z.ltb_lt _ _)) by lia. rewrite Z.min_l by lia.
    rewrite js_shr_div, to_int32_id by (unfold int32; lia). change (2 ^ 8) with 256.
    rewrite IH by lia.
    rewrite js_and_255, be_bytes_snoc, <- app_assoc, pow256.
    rewrite Z.div_div by (pose proof (pow256_pos k); lia). do 2 f_equal. lia.
Qed.

Lemma bin_length_pow k w : 0 <= k -> 2 ^ k <= w < 2 ^ (k + 1) -> bin_length w = k + 1.
Proof.
  intros Hk Hw. pose proof (pow2_pos k Hk). unfold bin_length.
  rewrite (proj2 (Z.eqb_neq w 0)) by lia. f_equal. by apply Z.log2_unique.
Qed.

Lemma uvintUnpack_loop_spec bs pre rest rv :
  wf_bytes bs -> 0 <= rv -> rv * 256 ^ Z.of_nat (length bs) + be_val bs < 2 ^ 31 ->
  uvintUnpack_loop (length bs) (pre ++ bs ++ rest) (blen pre) rv =
    rv * 256 ^ Z.of_nat (length bs) + be_val bs.
Proof.
  intros Hb. revert pre rv. induction Hb as [|x bs Hx Hb IH]; intros pre rv Hrv Hlt.
  - unfold be_val. simpl. lia.
  - cbn [length uvintUnpack_loop app]. rewrite byte_at_app.
    change (default 0 (Some x)) with x.
    replace (pre ++ x :: bs ++ rest) with ((pre ++ [x]) ++ bs ++ rest)
      by by rewrite <- app_assoc.
    replace (blen pre + 1) with (blen (pre ++ [x])) by by rewrite blen_app.
    unfold be_val in *; fold be_val in *. cbn [length] in *. rewrite pow256 in *.
    pose proof (pow256_pos (length bs)). pose proof (be_val_range bs Hb).
    unfold is_byte in Hx.
    assert (Hs : rv * 256 + x < 2 ^ 31) by nia.
    assert (Hor : js_or (js_shl rv 8) (js_and x 255) = rv * 256 + x).
    { rewrite js_and_255, (Z.mod_small x) by lia.
      rewrite js_shl_mul, to_int32_id by (unfold int32; lia).
      apply (js_or_disjoint rv x 8); unfold int32; lia. }
    rewrite Hor, IH; [ring|lia|lia].
Qed.

(** Packing produces a first byte with [k] leading ones and the payload. *)
Lemma uvintPack_spec v :
  0 <= v < 2 ^ 31 ->
  exists k t, (k <= 4)%nat /\ t = v / 256 ^ Z.of_nat k /\ 0 <= t < 2 ^ (7 - Z.of_nat k) /\
    uvintPack v = Ok (256 - 2 ^ (8 - Z.of_nat k) + t :: be_bytes k v).
Proof.
  intros Hv. unfold uvintPack.
  destruct (Z.ltb_spec v 128).
  - exists O, v. rewrite Z.div_1_r. rewrite Z.mod_small by lia.
    split; [lia|]. split; [done|]. split; [simpl; lia|]. done.
  - pose proof (Z.log2_spec v ltac:(lia)) as Hl.
    assert (Hlb : 7 <= Z.log2 v < 31).
    { split; [apply Z.log2_le_pow2|apply Z.log2_lt_pow2]; lia. }
    assert (Hbl : bin_length v = Z.log2 v + 1) by (apply bin_length_pow; lia).
    rewrite Hbl. set (L := Z.log2 v) in *.
    exists (Z.to_nat (L / 7)), (v / 256 ^ Z.of_nat (Z.to_nat (L / 7))).
    rewrite (uvintPack_loop_spec (Z.to_nat (L / 7)) _ 0) by lia.
    rewrite app_nil_r, Z.add_0_l.
    assert (Hk : 1 <= Z.of_nat (Z.to_nat (L / 7)) <= 4 /\
                 L < 7 * Z.of_nat (Z.to_nat (L / 7)) + 7) by lia.
    set (k := Z.to_nat (L / 7)) in *. clearbody k.
    assert (Ht : 0 <= v / 256 ^ Z.of_nat k < 2 ^ (7 - Z.of_nat k)).
    { split; [apply Z.div_pos; [lia|apply pow256_pos]|].
      apply Z.div_lt_upper_bound; [apply pow256_pos|].
      change 256 with (2 ^ 8). rewrite <- Z.pow_mul_r, <- Z.pow_add_r by lia.
      eapply Z.lt_le_trans; [apply Hl|]. apply Z.pow_le_mono_r; lia. }
    split; [lia|]. split; [done|]. split; [done|].
    rewrite (proj2 (Z.ltb_ge _ _)) by lia. do 2 f_equal.
    set (t := v / 256 ^ Z.of_nat k) in *. clearbody t.
    assert (Hm : js_shl (js_shr 255 (8 - Z.of_nat k)) (8 - Z.of_nat k)
                 = (2 ^ Z.of_nat k - 1) * 2 ^ (8 - Z.of_nat k)).
    { clear -Hk. do 5 (destruct k as [|k]; [reflexivity || lia|]). lia. }
    rewrite Hm.
    assert (Hp : t < 2 ^ (8 - Z.of_nat k) /\
       (2 ^ Z.of_nat k - 1) * 2 ^ (8 - Z.of_nat k) = 256 - 2 ^ (8 - Z.of_nat k) /\
       2 ^ (8 - Z.of_nat k) <= 128).
    { clear -Hk Ht. do 5 (destruct k as [|k]; [simpl in *; lia|]). lia. }
    unfold js_or. rewrite !to_int32_id by (unfold int32; lia).
    rewrite Z.lor_comm, lor_mul_add by lia. rewrite Z.abs_eq, Z.mod_small by lia. lia.
Qed.

Lemma uvintUnpack_spec k t v rest :
  (k <= 4)%nat -> 0 <= v < 2 ^ 31 -> t = v / 256 ^ Z.of_nat k -> 0 <= t < 2 ^ (7 - Z.of_nat k) ->
  uvintUnpack ((256 - 2 ^ (8 - Z.of_nat k) + t :: be_bytes k v) ++ rest) =
    (Some v, Z.of_nat (S k)).
Proof.
  intros Hk Hv Et Ht. unfold uvintUnpack. cbn [app].
  rewrite byte_at_0.
  destruct (decide (k = O)) as [->|Hk0].
  { change (256 ^ Z.of_nat 0) with 1 in Et. rewrite Z.div_1_r in Et. subst t. simpl in Ht.
    change (256 - 2 ^ (8 - Z.of_nat 0) + v) with (0 + v). rewrite Z.add_0_l.
    assert (js_and v 128 = 0) as ->; [|done].
    unfold js_and. rewrite !to_int32_id by (unfold int32; lia).
    rewrite Z.land_comm. apply (land_disjoint_shiftl 1 v 7); lia. }
  destruct (first_byte_spec k t ltac:(lia)) as (Hfr & Hnz & _ & _).
  { destruct Ht. split; [done|]. pose proof (Z.div_pos (Z.of_nat k) 8). lia. }
  assert (Hb : t < 2 ^ (8 - Z.of_nat k) /\ 2 ^ (8 - Z.of_nat k) = 2 * 2 ^ (7 - Z.of_nat k)).
  { clear -Hk Ht. do 5 (destruct k as [|k]; [simpl in *; lia|]). lia. }
  set (f := 256 - 2 ^ (8 - Z.of_nat k) + t) in *.
  rewrite (proj2 (Z.eqb_neq _ _) Hnz).
  assert (Hx : bin_length (js_and (js_not f) 255) = 8 - Z.of_nat k).
  { rewrite js_and_255, js_not_eq by (unfold int32; lia).
    replace ((- f - 1) mod 256) with (2 ^ (8 - Z.of_nat k) - 1 - t) by (subst f; lia).
    replace (8 - Z.of_nat k) with (7 - Z.of_nat k + 1) at 2 by lia.
    apply bin_length_pow; [lia|]. replace (7 - Z.of_nat k + 1) with (8 - Z.of_nat k) by lia. lia. }
  rewrite Hx. replace (8 - (8 - Z.of_nat k)) with (Z.of_nat k) by lia.
  assert (Hm : js_and f (js_shr 255 (Z.of_nat k)) = t).
  { rewrite js_shr_div, to_int32_id by (unfold int32; lia).
    assert (He : 255 / 2 ^ Z.of_nat k = Z.ones (8 - Z.of_nat k)).
    { clear -Hk. do 5 (destruct k as [|k]; [reflexivity|]). lia. }
    rewrite He. unfold js_and. rewrite (to_int32_id f) by (unfold int32; lia).
    rewrite to_int32_id by (rewrite Z.ones_equiv; unfold int32; lia).
    rewrite Z.land_ones by lia. subst f. clear -Hk Ht.
    do 5 (destruct k as [|k]; [simpl in *; lia|]). lia. }
  rewrite Hm, Nat2Z.id. f_equal; [f_equal|lia].
  assert (Hv' : t * 256 ^ Z.of_nat k + be_val (be_bytes k v) = v).
  { rewrite be_val_bytes, Et, (Z.mul_comm (_ / _)). symmetry. apply Z.div_mod.
    pose proof (pow256_pos k); lia. }
  pose proof (uvintUnpack_loop_spec (be_bytes k v) [f] rest t (be_bytes_wf k v)) as Hl.
  rewrite be_bytes_length, Hv' in Hl. apply Hl; lia.
Qed.

Lemma writeVInt_spec v buf :
  int64 v -> (9 <= length buf)%nat ->
  writeVInt v buf =
    (blen (vint_bytes (encodeZigZag64 v)),
     vint_bytes (encodeZigZag64 v) ++ drop (length (vint_bytes (encodeZigZag64 v))) buf).
Proof.
  intros Hv Hbuf. pose proof (encodeZigZag64_range v Hv) as Hz. unfold writeVInt.
  rewrite writeUnsignedVInt_spec, <- vint_bytes_length by done.
  unfold blen. by rewrite Nat2Z.id.
Qed.

Lemma write_keeps_length v (buf : bytes) :
  int64 v -> length buf = 9%nat ->
  length (vint_bytes (encodeZigZag64 v)
          ++ drop (length (vint_bytes (encodeZigZag64 v))) buf) = 9%nat.
Proof.
  intros Hv Hb. pose proof (encodeZigZag64_range v Hv) as Hz.
  pose proof (vint_bytes_length _ Hz). pose proof (computeUnsignedVIntSize_spec _ Hz) as (Hs & _).
  rewrite length_app, length_drop. unfold blen in *. lia.
Qed.

Lemma readVInt_spec v pre rest :
  int64 v ->
  readVInt (pre ++ vint_bytes (encodeZigZag64 v) ++ rest) (blen pre) =
    Ok (v, blen pre + blen (vint_bytes (encodeZigZag64 v))).
Proof.
  intros Hv. pose proof (encodeZigZag64_range v Hv) as Hz. unfold readVInt.
  rewrite readUnsignedVInt_spec, <- vint_bytes_length by done. simpl.
  by rewrite decode_encodeZigZag64.
Qed.

(** ** Properties *)

(** C31. Writing any 64-bit signed integer with [writeVInt] into a scratch buffer
    of nine bytes, whatever it held before, and reading the written prefix back
    with [readVInt] at any position of a larger buffer returns the integer and
    advances the offset by the size that was written; the size is 1 to 9. *)
Theorem readVInt_writeVInt (v : Z) (buf pre rest : bytes) :
  int64 v -> (9 <= length buf)%nat ->
  let '(n, b) := writeVInt v buf in
  1 <= n <= 9 /\
  readVInt (pre ++ take (Z.to_nat n) b ++ rest) (blen pre) = Ok (v, blen pre + n).
Proof.
  intros Hv Hbuf. rewrite writeVInt_spec by done.
  pose proof (encodeZigZag64_range v Hv) as Hz. split.
  - rewrite vint_bytes_length by done. by apply computeUnsignedVIntSize_spec.
  - unfold blen at 1. rewrite Nat2Z.id, take_app_length. by apply readVInt_spec.
Qed.

Lemma readVInt_writeVInt_witness :
  let '(n, b) := writeVInt (-65) (replicate 9 7) in
  1 <= n <= 9 /\ readVInt ([1; 2] ++ take (Z.to_nat n) b ++ [3]) 2 = Ok (-65, 2 + n).
Proof.
  apply (readVInt_writeVInt (-65) (replicate 9 7) [1; 2] [3]);
    [vm_compute; split; [discriminate|reflexivity]|simpl; lia].
Defined.

(** For every length a vector element can have (below 2^31), [uvintPack]
    succeeds and [uvintUnpack] of the packed bytes followed by anything returns
    that length and the number of packed bytes. *)
Theorem uvintUnpack_uvintPack (v : Z) (rest : bytes) :
  0 <= v < 2 ^ 31 ->
  exists bs, uvintPack v = Ok bs /\ uvintUnpack (bs ++ rest) = (Some v, blen bs).
Proof.
  intros Hv. destruct (uvintPack_spec v Hv) as (k & t & Hk & Et & Ht & E).
  eexists. split; [exact E|]. rewrite (uvintUnpack_spec k t v rest Hk Hv Et Ht).
  unfold blen. cbn [length]. by rewrite be_bytes_length.
Qed.

Lemma uvintUnpack_uvintPack_witness :
  exists bs, uvintPack 300 = Ok bs /\ uvintUnpack (bs ++ [9]) = (Some 300, blen bs).
Proof. apply (uvintUnpack_uvintPack 300 [9]). lia. Defined.

(** The unsigned vint writer uses the least number of bytes: a value written
    on [n] bytes, 2 <= n <= 9, does not fit the 7 (n - 1) payload bits of the next
    shorter form, and one written on at most 8 bytes fits its 7 n payload bits. *)
Theorem writeUnsignedVInt_minimal (v : Z) (buf : bytes) :
  uint64 v ->
  let n := fst (writeUnsignedVInt v buf) in
  1 <= n <= 9 /\ (n <= 8 -> v < 2 ^ (7 * n)) /\ (2 <= n -> 2 ^ (7 * (n - 1)) <= v).
Proof.
  intros Hv n. subst n.
  assert (fst (writeUnsignedVInt v buf) = computeUnsignedVIntSize v) as ->.
  { unfold writeUnsignedVInt. destruct (Z.eqb_spec (computeUnsignedVIntSize v) 1); auto. }
  by apply computeUnsignedVIntSize_spec.
Qed.

Lemma writeUnsignedVInt_minimal_witness :
  let n := fst (writeUnsignedVInt 300 []) in
  1 <= n <= 9 /\ (n <= 8 -> 300 < 2 ^ (7 * n)) /\ (2 <= n -> 2 ^ (7 * (n - 1)) <= 300).
Proof.
  apply (writeUnsignedVInt_minimal 300 []).
  vm_compute; split; [discriminate|reflexivity].
Defined.

End VIntCoding.
