(* ===== verification/Duration.v ===== *)
(** * Durations

    Models lib/types/duration.js: the [Duration] value class with its range
    checks (and the checks of lib/new-utils.ts they call), its binary form
    (three zig-zag vints written through module level scratch buffers), its
    textual form, and the four input formats with the [Builder] that enforces unit
    order and 32/64-bit limits.

    The Builder's counts are kept as exact integers.  In the source the month and
    day counts are Numbers: every count that passes validation is at most 2^31,
    and for a larger one the comparison with the limit, hence the error raised, is
    the same after rounding to a Number. *)

From Stdlib Require Import SpecFloat.
From S2P Require Import Prelude JsNumber Buffer JsString VInt.

Module Duration.

Record t : Type := mk { months : Z; days : Z; nanoseconds : Z }.

#[export] Instance t_eq_dec : EqDecision t.
Proof. solve_decision. Defined.

(** What a caller can pass: a Number, a bigint, a Long (by the integer it
    denotes), or a value of another type. *)
Inductive arg : Type :=
| ANumber (n : number)
| ABigInt (z : Z)
| ALong (z : Z)
| AOther.

Definition ensure32SignedInteger (n : number) : result unit :=
  if negb (num_is_integer n) then
    Err (TypeError "expected to be 32bit integer, but it's not a full integer")
  else if num_ltZ n (- 0x80000000) then
    Err (TypeError "expected to be 32bit integer, but it's smaller than allowed")
  else if num_gtZ n 0x7fffffff then
    Err (TypeError "expected to be 32bit integer, but it's larger than allowed")
  else Ok tt.

Definition ensure64SignedInteger (z : Z) : result unit :=
  if z <? - 0x8000000000000000 then
    Err (TypeError "expected to be 64bit integer, but it's smaller than allowed")
  else if 0x7fffffffffffffff <? z then
    Err (TypeError "expected to be 64bit integer, but it's larger than allowed")
  else Ok tt.

Definition constructor (months days nanoseconds : arg) : result t :=
  match months with
  | ANumber months =>
      match days with
      | ANumber days =>
          _ ← ensure32SignedInteger months;
          _ ← ensure32SignedInteger days;
          ns ← match nanoseconds with
               | ABigInt z => Ok z
               | ALong z => Ok z
               | ANumber n =>
                   if num_is_integer n then Ok (num_trunc n)
                   else Err (RangeError "cannot be converted to a BigInt")
               | AOther => Err (TypeError "Invalid nanosecond argument type")
               end;
          _ ← ensure64SignedInteger ns;
          Ok (mk (num_trunc months) (num_trunc days) ns)
      | _ => Err (TypeError "Expected days to be a number")
      end
  | _ => Err (TypeError "Expected months to be a number")
  end.

Definition equals (d other : t) : bool :=
  (months d =? months other) && (days d =? days other) &&
  (nanoseconds d =? nanoseconds other).

(** ** Binary form *)

(** The module level scratch buffers, nine bytes each. *)
Record reusableBuffers : Type := mkBuffers {
  rb_months : bytes; rb_days : bytes; rb_nanoseconds : bytes }.

Definition toBuffer (d : t) (rb : reusableBuffers) : bytes * reusableBuffers :=
  let '(lengthMonths, bm) := VIntCoding.writeVInt (months d) (rb_months rb) in
  let '(lengthDays, bd) := VIntCoding.writeVInt (days d) (rb_days rb) in
  let '(lengthNanoseconds, bn) :=
    VIntCoding.writeVInt (nanoseconds d) (rb_nanoseconds rb) in
  let buffer := slice bm 0 lengthMonths ++ slice bd 0 lengthDays ++
                slice bn 0 lengthNanoseconds in
  (buffer, mkBuffers bm bd bn).

Definition fromBuffer (buffer : bytes) : result t :=
  '(months, offset) ← VIntCoding.readVInt buffer 0;
  '(days, offset) ← VIntCoding.readVInt buffer offset;
  '(nanoseconds, offset) ← VIntCoding.readVInt buffer offset;
  constructor (ANumber (num_of_Z months)) (ANumber (num_of_Z days)) (ABigInt nanoseconds).

(** ** Textual form *)

Definition nanosPerMicro : Z := 1000.
Definition nanosPerMilli : Z := 1000 * nanosPerMicro.
Definition nanosPerSecond : Z := 1000 * nanosPerMilli.
Definition nanosPerMinute : Z := 60 * nanosPerSecond.
Definition nanosPerHour : Z := 60 * nanosPerMinute.
Definition daysPerWeek : Z := 7.
Definition monthsPerYear : Z := 12.

(** The closures [append] and [append64] of [toString]: they extend the text and
    return what remains of the dividend. *)
Definition append (value : jsstr) (dividend divisor : Z) (unit : string) : jsstr * Z :=
  if (dividend =? 0) || (dividend <? divisor) then (value, dividend)
  else (value ++ dec_str (dividend / divisor) ++ js unit, dividend mod divisor).

Definition toString (d : t) : jsstr :=
  let value := if (months d <? 0) || (days d <? 0) || (nanoseconds d <? 0)
               then js "-" else [] in
  let '(value, remainder) := append value (Z.abs (months d)) monthsPerYear "y" in
  let '(value, _) := append value remainder 1 "mo" in
  let '(value, _) := append value (Z.abs (days d)) 1 "d" in
  if nanoseconds d =? 0 then value else
  let nanos := if nanoseconds d <? 0 then - nanoseconds d else nanoseconds d in
  let '(value, remainder) := append value nanos nanosPerHour "h" in
  let '(value, remainder) := append value remainder nanosPerMinute "m" in
  let '(value, remainder) := append value remainder nanosPerSecond "s" in
  let '(value, remainder) := append value remainder nanosPerMilli "ms" in
  let '(value, remainder) := append value remainder nanosPerMicro "us" in
  let '(value, _) := append value remainder 1 "ns" in
  value.

(** ** The Builder *)

Record Builder : Type := mkBuilder {
  b_isNegative : bool; b_unitIndex : Z;
  b_months : Z; b_days : Z; b_nanoseconds : Z }.

Definition newBuilder (isNegative : bool) : Builder := mkBuilder isNegative 0 0 0 0.

Definition maxInt32 : Z := 0x7fffffff.
Definition maxInt64 : Z := 0x7fffffffffffffff.

Definition validateOrder (b : Builder) (unitIndex : Z) : result Builder :=
  if unitIndex =? b_unitIndex b then
    Err (TypeError "Invalid duration. The unit is specified multiple times")
  else if unitIndex <=? b_unitIndex b then
    Err (TypeError "Invalid duration. A unit should be after another")
  else Ok (mkBuilder (b_isNegative b) unitIndex (b_months b) (b_days b) (b_nanoseconds b)).

(** [units > (max - current) / perUnit] with an exact (rational) quotient. *)
Definition validate32 (units current perUnit : Z) (isNegative : bool) : result unit :=
  if maxInt32 + (if isNegative then 1 else 0) - current <? units * perUnit then
    Err (TypeError "Invalid duration. The total must fit in a 32 bit signed integer.")
  else Ok tt.

Definition validateMonths (b : Builder) (units monthsPerUnit : Z) : result unit :=
  validate32 units (b_months b) monthsPerUnit (b_isNegative b).

Definition validateDays (b : Builder) (units daysPerUnit : Z) : result unit :=
  validate32 units (b_days b) daysPerUnit (b_isNegative b).

(** The limit is a bigint quotient, truncated. *)
Definition validateNanos (b : Builder) (units nanosPerUnit : Z) : result unit :=
  let maxNanos := maxInt64 + (if b_isNegative b then 1 else 0) in
  if Z.quot (maxNanos - b_nanoseconds b) nanosPerUnit <? units then
    Err (TypeError "Invalid duration. The total must fit in a 64 bit signed integer.")
  else Ok tt.

Definition addMonthUnits (idx perUnit : Z) (b : Builder) (value : Z) : result Builder :=
  b ← validateOrder b idx;
  _ ← validateMonths b value perUnit;
  Ok (mkBuilder (b_isNegative b) (b_unitIndex b) (b_months b + value * perUnit)
        (b_days b) (b_nanoseconds b)).

Definition addDayUnits (idx perUnit : Z) (b : Builder) (value : Z) : result Builder :=
  b ← validateOrder b idx;
  _ ← validateDays b value perUnit;
  Ok (mkBuilder (b_isNegative b) (b_unitIndex b) (b_months b)
        (b_days b + value * perUnit) (b_nanoseconds b)).

Definition addNanoUnits (idx perUnit : Z) (b : Builder) (value : Z) : result Builder :=
  b ← validateOrder b idx;
  _ ← validateNanos b value perUnit;
  Ok (mkBuilder (b_isNegative b) (b_unitIndex b) (b_months b) (b_days b)
        (b_nanoseconds b + value * perUnit)).

Definition addYears : Builder -> Z -> result Builder := addMonthUnits 1 monthsPerYear.
Definition addMonths : Builder -> Z -> result Builder := addMonthUnits 2 1.
Definition addWeeks : Builder -> Z -> result Builder := addDayUnits 3 daysPerWeek.
Definition addDays : Builder -> Z -> result Builder := addDayUnits 4 1.
Definition addHours : Builder -> Z -> result Builder := addNanoUnits 5 nanosPerHour.
Definition addMinutes : Builder -> Z -> result Builder := addNanoUnits 6 nanosPerMinute.
Definition addSeconds : Builder -> Z -> result Builder := addNanoUnits 7 nanosPerSecond.
Definition addMillis : Builder -> Z -> result Builder := addNanoUnits 8 nanosPerMilli.
Definition addMicros : Builder -> Z -> result Builder := addNanoUnits 9 nanosPerMicro.
Definition addNanos : Builder -> Z -> result Builder := addNanoUnits 10 1.

(** The micro sign U+00B5 that prefixes "s" in the symbol table. *)
Definition micro : Z := 0xB5.

(** [String.prototype.toLowerCase] on the code units a unit symbol can contain. *)
Definition lower_unit (c : Z) : Z :=
  if (65 <=? c) && (c <=? 90) then c + 32 else if c =? 0x39C then 0x3BC else c.

Definition addMethods (symbol : jsstr) : option (Builder -> Z -> result Builder) :=
  if bool_decide (symbol = js "y") then Some addYears
  else if bool_decide (symbol = js "mo") then Some addMonths
  else if bool_decide (symbol = js "w") then Some addWeeks
  else if bool_decide (symbol = js "d") then Some addDays
  else if bool_decide (symbol = js "h") then Some addHours
  else if bool_decide (symbol = js "m") then Some addMinutes
  else if bool_decide (symbol = js "s") then Some addSeconds
  else if bool_decide (symbol = js "ms") then Some addMillis
  else if bool_decide (symbol = micro :: js "s") then Some addMicros
  else if bool_decide (symbol = js "us") then Some addMicros
  else if bool_decide (symbol = js "ns") then Some addNanos
  else None.

Definition add (b : Builder) (textValue symbol : jsstr) : result Builder :=
  match addMethods (lower_unit <$> symbol) with
  | None => Err (TypeError "Unknown duration symbol")
  | Some addMethod => addMethod b (dec_val textValue)
  end.

Definition build (b : Builder) : result t :=
  let arg z := ANumber (num_of_Z z) in
  if b_isNegative b
  then constructor (arg (- b_months b)) (arg (- b_days b)) (ABigInt (- b_nanoseconds b))
  else constructor (arg (b_months b)) (arg (b_days b)) (ABigInt (b_nanoseconds b)).

(** ** The input formats *)

(** Case-insensitive comparison of the regular expression: Canonicalize maps a
    code unit to its upper case.  The only code units outside ASCII that reach a
    character of the pattern are U+00B5 and U+03BC, both mapped to U+039C. *)
Definition canonicalize (c : Z) : Z :=
  if (97 <=? c) && (c <=? 122) then c - 32
  else if (c =? 0xB5) || (c =? 0x3BC) then 0x39C else c.

Fixpoint strip_prefix_i (p s : jsstr) : option jsstr :=
  match p, s with
  | [], _ => Some s
  | a :: p, b :: s =>
      if canonicalize a =? canonicalize b then strip_prefix_i p s else None
  | _ :: _, [] => None
  end.

(** The alternatives of [(y|mo|w|d|h|s|ms|us|µs|ns|m)], in order. *)
Definition unit_symbols : list jsstr :=
  [js "y"; js "mo"; js "w"; js "d"; js "h"; js "s"; js "ms"; js "us";
   micro :: js "s"; js "ns"; js "m"].

Fixpoint match_unit (us : list jsstr) (s : jsstr) : option (jsstr * jsstr) :=
  match us with
  | [] => None
  | u :: us =>
      match strip_prefix_i u s with
      | Some rest => Some (take (length u) s, rest)
      | None => match_unit us s
      end
  end.

(** [(\d+)(unit)] at the start of [s].  The digit run is maximal: with a shorter
    one the next character would be a digit, which starts no unit. *)
Definition match_standard (s : jsstr) : option (jsstr * jsstr * jsstr) :=
  let '(ds, rest) := span_digits s in
  match ds with
  | [] => None
  | _ =>
      match match_unit unit_symbols rest with
      | Some (u, rest) => Some (ds, u, rest)
      | None => None
      end
  end.

(** [standardRegex.exec]: the first position at which the pattern matches. *)
Fixpoint exec_standard (s : jsstr) : option (jsstr * jsstr * jsstr) :=
  match match_standard s with
  | Some m => Some m
  | None => match s with [] => None | _ :: s => exec_standard s end
  end.

Fixpoint parseStandard_loop (fuel : nat) (source : jsstr) (b : Builder) : result Builder :=
  match fuel with
  | O => Err (DriverInternalError "out of fuel")
  | S fuel =>
      match exec_standard source with
      | None => Ok b
      | Some (ds, u, rest) => b ← add b ds u; parseStandard_loop fuel rest b
      end
  end.

Definition parseStandardFormat (isNegative : bool) (source : jsstr) : result t :=
  b ← parseStandard_loop (S (length source)) source (newBuilder isNegative);
  build b.

(** [((\d+)X)?]: the digits when the group takes part in the match. *)
Definition opt_group (x : string) (s : jsstr) : option jsstr * jsstr :=
  let '(ds, rest) := span_digits s in
  match ds, strip_prefix (js x) rest with
  | _ :: _, Some rest => (Some ds, rest)
  | _, _ => (None, s)
  end.

Definition opt_add (f : Builder -> Z -> result Builder) (b : Builder) (ds : option jsstr)
    : result Builder :=
  match ds with Some ds => f b (dec_val ds) | None => Ok b end.

Definition no_conversion {A} : result A :=
  Err (TypeError "Unable to convert source to a duration").

(** [source] starts with "P", where the (unanchored) expression matches; the match
    is accepted only when it is the whole source. *)
Definition parseIso8601Format (isNegative : bool) (source : jsstr) : result t :=
  match strip_prefix (js "P") source with
  | None => no_conversion
  | Some s =>
      let '(y, s) := opt_group "Y" s in
      let '(mo, s) := opt_group "M" s in
      let '(d, s) := opt_group "D" s in
      let '(h, mi, se, s) :=
        match strip_prefix (js "T") s with
        | None => (None, None, None, s)
        | Some s =>
            let '(h, s) := opt_group "H" s in
            let '(mi, s) := opt_group "M" s in
            let '(se, s) := opt_group "S" s in
            (h, mi, se, s)
        end in
      match s with
      | _ :: _ => no_conversion
      | [] =>
          b ← opt_add addYears (newBuilder isNegative) y;
          b ← opt_add addMonths b mo;
          b ← opt_add addDays b d;
          b ← opt_add addHours b h;
          b ← opt_add addMinutes b mi;
          b ← opt_add addSeconds b se;
          build b
      end
  end.

Definition parseIso8601WeekFormat (isNegative : bool) (source : jsstr) : result t :=
  match strip_prefix (js "P") source with
  | None => no_conversion
  | Some s =>
      match opt_group "W" s with
      | (Some ds, []) => b ← addWeeks (newBuilder isNegative) (dec_val ds); build b
      | _ => no_conversion
      end
  end.

(** [n] digits exactly. *)
Fixpoint take_digits (n : nat) (s : jsstr) : option (jsstr * jsstr) :=
  match n, s with
  | O, _ => Some ([], s)
  | S n, c :: s =>
      if is_digit c
      then '(ds, rest) ← take_digits n s; Some (c :: ds, rest)
      else None
  | S _, [] => None
  end.

(** [(\d{n})sep] *)
Definition fixed_group (n : nat) (sep : string) (s : jsstr) : option (Z * jsstr) :=
  '(ds, rest) ← take_digits n s;
  rest ← strip_prefix (js sep) rest;
  Some (dec_val ds, rest).

Definition match_alternative (source : jsstr) : option (Z * Z * Z * Z * Z * Z) :=
  s ← strip_prefix (js "P") source;
  '(y, s) ← fixed_group 4 "-" s;
  '(mo, s) ← fixed_group 2 "-" s;
  '(d, s) ← fixed_group 2 "T" s;
  '(h, s) ← fixed_group 2 ":" s;
  '(mi, s) ← fixed_group 2 ":" s;
  '(se, s) ← fixed_group 2 "" s;
  match s with [] => Some (y, mo, d, h, mi, se) | _ => None end.

Definition parseIso8601AlternativeFormat (isNegative : bool) (source : jsstr) : result t :=
  match match_alternative source with
  | None => no_conversion
  | Some (y, mo, d, h, mi, se) =>
      b ← addYears (newBuilder isNegative) y;
      b ← addMonths b mo;
      b ← addDays b d;
      b ← addHours b h;
      b ← addMinutes b mi;
      b ← addSeconds b se;
      build b
  end.

(** [source.indexOf(c) > 0] for a single character. *)
Definition contains_after_first (c : Z) (s : jsstr) : bool :=
  match s with
  | [] => false
  | x :: s => negb (x =? c) && existsb (Z.eqb c) s
  end.

Definition fromString (input : jsstr) : result t :=
  let isNegative := bool_decide (char_at input 0 = Some 45) in
  let source := if isNegative then drop 1 input else input in
  if bool_decide (char_at source 0 = Some 80) then
    if bool_decide (char_at source (slen source - 1) = Some 87) then parseIso8601WeekFormat isNegative source
    else if contains_after_first 45 source
    then parseIso8601AlternativeFormat isNegative source
    else parseIso8601Format isNegative source
  else parseStandardFormat isNegative source.

(** ** The value class *)

(** Months and days are 32-bit, nanoseconds 64-bit signed integers. *)
Definition wf (d : t) : Prop :=
  int32 (months d) /\ int32 (days d) /\ int64 (nanoseconds d).

#[export] Instance wf_dec d : Decision (wf d).
Proof. unfold wf. apply _. Defined.

Lemma ensure32_ok n :
  ensure32SignedInteger n = Ok tt <-> num_is_integer n = true /\ int32 (num_trunc n).
Proof.
  unfold ensure32SignedInteger, int32. destruct (num_is_integer n) eqn:E; simpl; [|split; [discriminate|intros [? _]; discriminate]].
  rewrite num_ltZ_integer, num_gtZ_integer by done.
  destruct (Z.ltb_spec (num_trunc n) (-2147483648)), (Z.ltb_spec 2147483647 (num_trunc n));
    (split; [intros H'; first [discriminate H'|split; [done|lia]]|intros [_ H']; first [done|lia]]).
Qed.

Lemma ensure64_ok z : ensure64SignedInteger z = Ok tt <-> int64 z.
Proof.
  unfold ensure64SignedInteger, int64.
  destruct (Z.ltb_spec z (-9223372036854775808)), (Z.ltb_spec 9223372036854775807 z);
    (split; [intros H'; first [discriminate H'|lia]|intros H'; first [done|lia]]).
Qed.

Lemma constructor_of_Z m d n :
  int32 m -> int32 d -> int64 n ->
  constructor (ANumber (num_of_Z m)) (ANumber (num_of_Z d)) (ABigInt n) = Ok (mk m d n).
Proof.
  intros Hm Hd Hn. unfold int32 in *. unfold constructor.
  assert (He : forall z, - 2 ^ 31 <= z < 2 ^ 31 -> ensure32SignedInteger (num_of_Z z) = Ok tt).
  { intros z Hz. apply ensure32_ok.
    rewrite num_is_integer_of_Z, num_trunc_of_Z by (unfold safe_int; lia). done. }
  rewrite !He by done. simpl. rewrite (proj2 (ensure64_ok n) Hn). simpl.
  by rewrite !num_trunc_of_Z by (unfold safe_int; lia).
Qed.

Lemma duration_constructor_wf a b c d : constructor a b c = Ok d -> wf d.
Proof.
  unfold constructor. destruct a as [m| | |], b as [dd| | |]; try discriminate. intros H.
  bind_inv H. destruct a. apply ensure32_ok in E as [_ Hm].
  bind_inv H. destruct a. apply ensure32_ok in E as [_ Hd].
  bind_inv H. bind_inv H. destruct a0. apply ensure64_ok in E0.
  injection H as <-. done.
Qed.

(** ** The Builder *)

Definition b_max (b : Builder) (m : Z) : Z := m + (if b_isNegative b then 1 else 0).

(** What validation maintains: the totals are non-negative and within the limits
    of the sign that [build] will apply. *)
Definition builder_inv (b : Builder) : Prop :=
  0 <= b_months b <= b_max b maxInt32 /\
  0 <= b_days b <= b_max b maxInt32 /\
  0 <= b_nanoseconds b <= b_max b maxInt64.

Lemma validateOrder_ok b i b' :
  validateOrder b i = Ok b' <->
  b_unitIndex b < i /\ b' = mkBuilder (b_isNegative b) i (b_months b) (b_days b) (b_nanoseconds b).
Proof.
  unfold validateOrder.
  destruct (Z.eqb_spec i (b_unitIndex b)), (Z.leb_spec i (b_unitIndex b));
    (split; [intros H'; first [discriminate H'|injection H' as <-; split; [lia|done]]
            |intros [? ->]; first [done|lia]]).
Qed.

Lemma validate32_ok u c p neg :
  validate32 u c p neg = Ok tt <-> c + u * p <= maxInt32 + (if neg then 1 else 0).
Proof.
  unfold validate32. case_Z; (split; [intros H'; first [discriminate H'|lia]|intros; first [done|lia]]).
Qed.

Lemma validateNanos_ok b u p :
  0 < p -> 0 <= b_nanoseconds b <= b_max b maxInt64 ->
  validateNanos b u p = Ok tt <-> b_nanoseconds b + u * p <= b_max b maxInt64.
Proof.
  unfold validateNanos, b_max. intros Hp Hb.
  set (mx := maxInt64 + (if b_isNegative b then 1 else 0)) in *.
  rewrite Z.quot_div_nonneg by lia.
  assert (Hq : (mx - b_nanoseconds b) / p < u <-> mx - b_nanoseconds b < u * p).
  { split; intros.
    - apply Z.nle_gt. intros Hle. apply (Z.div_le_mono _ _ p) in Hle; [|lia].
      rewrite Z.div_mul in Hle; lia.
    - apply Z.div_lt_upper_bound; lia. }
  case_Z; (split; [intros H'; first [discriminate H'|lia]|intros; first [done|lia]]).
Qed.

Lemma addMonthUnits_ok i p b v :
  b_unitIndex b < i -> b_months b + v * p <= b_max b maxInt32 ->
  addMonthUnits i p b v =
    Ok (mkBuilder (b_isNegative b) i (b_months b + v * p) (b_days b) (b_nanoseconds b)).
Proof.
  intros Hi Hv. unfold addMonthUnits.
  rewrite (proj2 (validateOrder_ok b i _) (conj Hi eq_refl)). simpl.
  unfold validateMonths. simpl. by rewrite (proj2 (validate32_ok _ _ _ _) Hv).
Qed.

Lemma addDayUnits_ok i p b v :
  b_unitIndex b < i -> b_days b + v * p <= b_max b maxInt32 ->
  addDayUnits i p b v =
    Ok (mkBuilder (b_isNegative b) i (b_months b) (b_days b + v * p) (b_nanoseconds b)).
Proof.
  intros Hi Hv. unfold addDayUnits.
  rewrite (proj2 (validateOrder_ok b i _) (conj Hi eq_refl)). simpl.
  unfold validateDays. simpl. by rewrite (proj2 (validate32_ok _ _ _ _) Hv).
Qed.

Lemma addNanoUnits_ok i p b v :
  b_unitIndex b < i -> 0 < p -> 0 <= b_nanoseconds b -> 0 <= v ->
  b_nanoseconds b + v * p <= b_max b maxInt64 ->
  addNanoUnits i p b v =
    Ok (mkBuilder (b_isNegative b) i (b_months b) (b_days b) (b_nanoseconds b + v * p)).
Proof.
  intros Hi Hp Hb Hv Hle. unfold addNanoUnits.
  rewrite (proj2 (validateOrder_ok b i _) (conj Hi eq_refl)). simpl.
  assert (Hn : validateNanos (mkBuilder (b_isNegative b) i (b_months b) (b_days b)
    (b_nanoseconds b)) v p = Ok tt).
  { apply validateNanos_ok; unfold b_max in *; simpl; [done|nia|done]. }
  by rewrite Hn.
Qed.

Definition unit_op (f : Builder -> Z -> result Builder) : Prop :=
  (exists i p, 0 < p /\ f = addMonthUnits i p) \/
  (exists i p, 0 < p /\ f = addDayUnits i p) \/
  (exists i p, 0 < p /\ f = addNanoUnits i p).

Lemma unit_op_inv f b v b' :
  unit_op f -> builder_inv b -> 0 <= v -> f b v = Ok b' ->
  builder_inv b' /\ b_isNegative b' = b_isNegative b /\ b_unitIndex b < b_unitIndex b'.
Proof.
  intros Hf Hb Hv H. unfold builder_inv, b_max in *.
  destruct Hf as [(i & p & Hp & ->)|[(i & p & Hp & ->)|(i & p & Hp & ->)]].
  - unfold addMonthUnits in H. bind_inv H. apply validateOrder_ok in E as [Hi ->].
    bind_inv H. destruct a. apply validate32_ok in E. simpl in *.
    injection H as <-. simpl. split; [nia|done].
  - unfold addDayUnits in H. bind_inv H. apply validateOrder_ok in E as [Hi ->].
    bind_inv H. destruct a. apply validate32_ok in E. simpl in *.
    injection H as <-. simpl. split; [nia|done].
  - unfold addNanoUnits in H. bind_inv H. apply validateOrder_ok in E as [Hi ->].
    bind_inv H. destruct a. apply validateNanos_ok in E; [|done|simpl; unfold b_max; simpl; lia].
    unfold b_max in E. simpl in *. injection H as <-. simpl. split; [nia|done].
Qed.

Lemma unit_op_twice f b v b' :
  unit_op f -> f b v = Ok b' -> forall v', exists e, f b' v' = Err (TypeError e).
Proof.
  intros Hf H v'.
  assert (Ho : forall b i, b_unitIndex b = i ->
    validateOrder b i = Err (TypeError "Invalid duration. The unit is specified multiple times")).
  { intros b0 i <-. unfold validateOrder. by rewrite Z.eqb_refl. }
  destruct Hf as [(i & p & Hp & ->)|[(i & p & Hp & ->)|(i & p & Hp & ->)]];
    unfold addMonthUnits, addDayUnits, addNanoUnits in *;
    bind_inv H; apply validateOrder_ok in E as [_ ->]; bind_inv H; injection H as <-;
    rewrite Ho by done; eexists; reflexivity.
Qed.

Lemma addMethods_unit_op sym f : addMethods sym = Some f -> unit_op f.
Proof.
  unfold addMethods. intros H.
  repeat match type of H with
  | (if bool_decide ?P then _ else _) = _ => case_bool_decide; [injection H as <-|]
  end; [..|discriminate].
  all: first
    [ left; do 2 eexists; split; [|reflexivity]; reflexivity
    | right; left; do 2 eexists; split; [|reflexivity]; reflexivity
    | right; right; do 2 eexists; split; [|reflexivity]; reflexivity ].
Qed.

(** [build] never fails on a validated builder. *)
Lemma build_ok b :
  builder_inv b ->
  let s := if b_isNegative b then -1 else 1 in
  build b = Ok (mk (s * b_months b) (s * b_days b) (s * b_nanoseconds b)).
Proof.
  unfold builder_inv, b_max, maxInt32, maxInt64. intros Hb. unfold build.
  destruct (b_isNegative b).
  - rewrite constructor_of_Z by (unfold int32, int64; lia). f_equal; f_equal; lia.
  - rewrite constructor_of_Z by (unfold int32, int64; lia). f_equal; f_equal; lia.
Qed.

(** ** Standard format: printing and parsing *)

Lemma strip_prefix_i_length p s r :
  strip_prefix_i p s = Some r -> length s = (length p + length r)%nat.
Proof.
  revert s. induction p as [|a p IH]; intros s; cbn [strip_prefix_i].
  - intros [= ->]. done.
  - destruct s as [|b s]; [done|]. case_Z; [|done]. intros E. apply IH in E. simpl. lia.
Qed.

Lemma match_unit_length us s u r :
  match_unit us s = Some (u, r) -> (length r <= length s)%nat.
Proof.
  induction us as [|v us IH]; cbn [match_unit]; [done|].
  destruct (strip_prefix_i v s) eqn:E; [|done].
  intros [= <- <-]. apply strip_prefix_i_length in E. lia.
Qed.

Lemma exec_standard_length s ds u r :
  exec_standard s = Some (ds, u, r) -> (length r < length s)%nat.
Proof.
  assert (Hm : forall s ds u r, match_standard s = Some (ds, u, r) -> (length r < length s)%nat).
  { clear. intros s ds u r. unfold match_standard. pose proof (span_digits_length s) as Hl.
    destruct (span_digits s) as [[|d ds'] rest]; [done|]. simpl in Hl.
    destruct (match_unit unit_symbols rest) as [[u' r']|] eqn:E; [|done].
    intros [= <- <- <-]. apply match_unit_length in E. lia. }
  induction s as [|c s IH]; cbn [exec_standard].
  - destruct (match_standard []) eqn:E; [|done]. intros [= ->]. by apply Hm in E.
  - destruct (match_standard (c :: s)) eqn:E.
    + intros [= ->]. by apply Hm in E.
    + intros H. apply IH in H. simpl. lia.
Qed.

(** The loop consumes input at every turn, so more fuel than characters is never
    used: the result does not depend on it. *)
Lemma parseStandard_loop_fuel f1 f2 s b :
  (length s < f1)%nat -> (length s < f2)%nat ->
  parseStandard_loop f1 s b = parseStandard_loop f2 s b.
Proof.
  revert f2 s b. induction f1 as [|f1 IH]; intros f2 s b H1 H2; [lia|].
  destruct f2 as [|f2]; [lia|]. cbn [parseStandard_loop].
  destruct (exec_standard s) as [[[ds u] r]|] eqn:E; [|done].
  apply exec_standard_length in E.
  destruct (add b ds u); simpl; [|done]. apply IH; lia.
Qed.

Definition parse_rest (s : jsstr) (b : Builder) : result Builder :=
  parseStandard_loop (S (length s)) s b.

Lemma parse_rest_nil b : parse_rest [] b = Ok b.
Proof. done. Qed.

(** A unit symbol of [toString], as the regular expression reads it. *)
Definition good_unit (u : string) (f : Builder -> Z -> result Builder) : Prop :=
  no_digit_head (js u) /\ js u <> [] /\ addMethods (lower_unit <$> js u) = Some f /\
  forall c r, is_digit c = true ->
    match_unit unit_symbols (js u ++ c :: r) = Some (js u, c :: r) /\
    match_unit unit_symbols (js u) = Some (js u, []).

Lemma good_units :
  good_unit "y" addYears /\ good_unit "mo" addMonths /\ good_unit "d" addDays /\
  good_unit "h" addHours /\ good_unit "m" addMinutes /\ good_unit "s" addSeconds /\
  good_unit "ms" addMillis /\ good_unit "us" addMicros /\ good_unit "ns" addNanos.
Proof.
  assert (Hu : forall u f, no_digit_head (js u) -> js u <> [] ->
    addMethods (lower_unit <$> js u) = Some f ->
    match_unit unit_symbols (js u) = Some (js u, []) ->
    (forall r, Forall (fun c => match_unit unit_symbols (js u ++ c :: r) = Some (js u, c :: r))
       [48; 49; 50; 51; 52; 53; 54; 55; 56; 57]) -> good_unit u f).
  { intros u f H1 H2 H3 H4 H5. split; [done|]. split; [done|]. split; [done|].
    intros c r Hc%is_digit_spec. split; [|done].
    apply (proj1 (List.Forall_forall _ _) (H5 r)). simpl. lia. }
  split_and!; apply Hu; try done; intros r; repeat constructor.
Qed.

(** The text [append] adds for a count and a unit. *)
Definition seg (n : Z) (u : string) : jsstr := if n =? 0 then [] else dec_str n ++ js u.

Definition seg_rest (s : jsstr) : Prop := match s with [] => True | c :: _ => is_digit c = true end.

Lemma dec_str_head z : 0 <= z -> exists c s, dec_str z = c :: s /\ is_digit c = true.
Proof.
  intros Hz. destruct (dec_str_spec z Hz) as (Hd & _ & Hne).
  destruct (dec_str z) as [|c s]; [done|]. inversion Hd; subst. eauto.
Qed.

Lemma seg_rest_app n u s : 0 <= n -> seg_rest s -> seg_rest (seg n u ++ s).
Proof.
  intros Hn Hs. unfold seg. case_Z; [done|].
  destruct (dec_str_head n Hn) as (c & r & -> & Hc). done.
Qed.

Lemma parse_seg n u f s b :
  good_unit u f -> 0 <= n -> seg_rest s ->
  parse_rest (seg n u ++ s) b =
    if n =? 0 then parse_rest s b else (b ← f b n; parse_rest s b).
Proof.
  intros (Hhead & Hne & Hadd & Hmatch) Hn Hs. unfold seg. case_Z; [done|].
  destruct (dec_str_spec n Hn) as (Hd & Hv & Hnn).
  unfold parse_rest. cbn [parseStandard_loop].
  assert (Hx : exec_standard ((dec_str n ++ js u) ++ s) = Some (dec_str n, js u, s)).
  { assert (Hms : match_standard ((dec_str n ++ js u) ++ s) = Some (dec_str n, js u, s)).
    { unfold match_standard. rewrite <- app_assoc, span_digits_app; [|done|].
      - destruct (dec_str n) eqn:E; [done|]. rewrite <- E. clear E.
        destruct s as [|c s]; [|by destruct (Hmatch c s Hs) as [-> _]].
        rewrite app_nil_r. by destruct (Hmatch 48 [] eq_refl) as [_ ->].
      - destruct (js u) as [|c r]; [done|]. exact Hhead. }
    destruct ((dec_str n ++ js u) ++ s); cbn [exec_standard]; by rewrite Hms. }
  pose proof (exec_standard_length _ _ _ _ Hx) as Hlen.
  rewrite Hx. unfold add. rewrite Hadd, Hv.
  destruct (f b n) as [b'|]; simpl; [|done].
  exact (parseStandard_loop_fuel _ (S (length s)) s b' Hlen (Nat.lt_succ_diag_r _)).
Qed.

Lemma append_eq value n k u :
  0 <= n -> 0 < k ->
  append value n k u = (value ++ seg (n / k) u, n mod k).
Proof.
  intros Hn Hk. unfold append, seg.
  destruct (Z.eqb_spec n 0) as [->|]; cbn [orb].
  - rewrite Z.div_0_l, Z.mod_0_l by lia. by rewrite app_nil_r.
  - destruct (Z.ltb_spec n k).
    + rewrite Z.div_small, Z.mod_small by lia. simpl. by rewrite app_nil_r.
    + assert (n / k <> 0) by (rewrite Z.div_small_iff by lia; lia).
      rewrite (proj2 (Z.eqb_neq _ _)) by done. done.
Qed.

(** The segments [toString] prints for a month count, a day count and a
    nanosecond count of the given absolute values. *)
Definition text (m d n : Z) : jsstr :=
  seg (m / 12) "y" ++ seg (m mod 12) "mo" ++ seg d "d" ++
  seg (n / nanosPerHour) "h" ++ seg (n mod nanosPerHour / nanosPerMinute) "m" ++
  seg (n mod nanosPerHour mod nanosPerMinute / nanosPerSecond) "s" ++
  seg (n mod nanosPerHour mod nanosPerMinute mod nanosPerSecond / nanosPerMilli) "ms" ++
  seg (n mod nanosPerHour mod nanosPerMinute mod nanosPerSecond mod nanosPerMilli
       / nanosPerMicro) "us" ++
  seg (n mod nanosPerHour mod nanosPerMinute mod nanosPerSecond mod nanosPerMilli
       mod nanosPerMicro) "ns".

Lemma toString_text d :
  toString d =
    (if (months d <? 0) || (days d <? 0) || (nanoseconds d <? 0) then js "-" else []) ++
    text (Z.abs (months d)) (Z.abs (days d)) (Z.abs (nanoseconds d)).
Proof.
  unfold toString, text.
  set (v0 := if _ || _ then _ else _).
  rewrite (append_eq v0) by (unfold monthsPerYear; lia). cbv zeta beta iota.
  rewrite (append_eq _ _ 1 "mo") by (unfold monthsPerYear; lia).
  rewrite (append_eq _ _ 1 "d"), !Z.div_1_r by lia.
  destruct (Z.eqb_spec (nanoseconds d) 0) as [->|Hnz].
  { cbn [Z.abs seg]. rewrite <- !app_assoc. cbn. by rewrite !app_nil_r. }
  replace (if nanoseconds d <? 0 then - nanoseconds d else nanoseconds d)
    with (Z.abs (nanoseconds d)) by (case_Z; lia).
  rewrite !append_eq by (try apply Z.mod_pos_bound; unfold nanosPerHour, nanosPerMinute,
    nanosPerSecond, nanosPerMilli, nanosPerMicro; lia).
  rewrite Z.div_1_r, <- !app_assoc. done.
Qed.

(** A builder that has seen units up to index [i] and holds the given totals. *)
Definition at_state (b : Builder) (neg : bool) (i m d n : Z) : Prop :=
  b_isNegative b = neg /\ b_unitIndex b <= i /\ b_months b = m /\ b_days b = d /\
  b_nanoseconds b = n.

Lemma parse_seg_step k u f s b (P : Builder -> Prop) :
  good_unit u f -> 0 <= k -> seg_rest s ->
  (k = 0 -> P b) -> (k <> 0 -> exists b', f b k = Ok b' /\ P b') ->
  exists b', parse_rest (seg k u ++ s) b = parse_rest s b' /\ P b'.
Proof.
  intros Hu Hk Hs H0 H1. rewrite (parse_seg k u f) by done. case_Z.
  - exists b. auto.
  - destruct H1 as (b' & -> & HP); [done|]. exists b'. done.
Qed.

(** The builder that parsing [s] from [b] ends in satisfies [Q]. *)
Definition parses (s : jsstr) (b : Builder) (Q : Builder -> Prop) : Prop :=
  exists b', parse_rest s b = Ok b' /\ Q b'.

Lemma parse_months k u i p s b neg i0 m d n Q :
  good_unit u (addMonthUnits i p) -> 0 <= k -> seg_rest s -> i0 < i ->
  at_state b neg i0 m d n -> m + k * p <= maxInt32 + (if neg then 1 else 0) ->
  (forall b', at_state b' neg i (m + k * p) d n -> parses s b' Q) -> parses (seg k u ++ s) b Q.
Proof.
  intros Hu Hk Hs Hi (Hneg & Hidx & <- & <- & <-) Hle HQ. subst neg. unfold parses.
  destruct (parse_seg_step k u (addMonthUnits i p) s b
    (fun b' => at_state b' (b_isNegative b) i (b_months b + k * p) (b_days b) (b_nanoseconds b)))
    as (b' & -> & Hb); [done|done|done| | |by apply HQ].
  - intros ->. unfold at_state. split_and!; lia || done.
  - intros _. eexists. split; [apply addMonthUnits_ok; [lia|done]|]. by split_and!.
Qed.

Lemma parse_days k u i p s b neg i0 m d n Q :
  good_unit u (addDayUnits i p) -> 0 <= k -> seg_rest s -> i0 < i ->
  at_state b neg i0 m d n -> d + k * p <= maxInt32 + (if neg then 1 else 0) ->
  (forall b', at_state b' neg i m (d + k * p) n -> parses s b' Q) -> parses (seg k u ++ s) b Q.
Proof.
  intros Hu Hk Hs Hi (Hneg & Hidx & <- & <- & <-) Hle HQ. subst neg. unfold parses.
  destruct (parse_seg_step k u (addDayUnits i p) s b
    (fun b' => at_state b' (b_isNegative b) i (b_months b) (b_days b + k * p) (b_nanoseconds b)))
    as (b' & -> & Hb); [done|done|done| | |by apply HQ].
  - intros ->. unfold at_state. split_and!; lia || done.
  - intros _. eexists. split; [apply addDayUnits_ok; [lia|done]|]. by split_and!.
Qed.

Lemma parse_nanos k u i p s b neg i0 m d n Q :
  good_unit u (addNanoUnits i p) -> 0 <= k -> seg_rest s -> i0 < i -> 0 < p -> 0 <= n ->
  at_state b neg i0 m d n -> n + k * p <= maxInt64 + (if neg then 1 else 0) ->
  (forall b', at_state b' neg i m d (n + k * p) -> parses s b' Q) -> parses (seg k u ++ s) b Q.
Proof.
  intros Hu Hk Hs Hi Hp Hn (Hneg & Hidx & <- & <- & <-) Hle HQ. subst neg. unfold parses.
  destruct (parse_seg_step k u (addNanoUnits i p) s b
    (fun b' => at_state b' (b_isNegative b) i (b_months b) (b_days b) (b_nanoseconds b + k * p)))
    as (b' & -> & Hb); [done|done|done| | |by apply HQ].
  - intros ->. unfold at_state. split_and!; lia || done.
  - intros _. eexists. split; [apply addNanoUnits_ok; [lia|done|done|done|done]|].
    by split_and!.
Qed.

Ltac seg_goal := repeat first [done | apply seg_rest_app; [lia|]].
Ltac units := unfold monthsPerYear, nanosPerHour, nanosPerMinute, nanosPerSecond,
  nanosPerMilli, nanosPerMicro in *.

Lemma parse_text (neg : bool) m d n :
  0 <= m <= maxInt32 + (if neg then 1 else 0) ->
  0 <= d <= maxInt32 + (if neg then 1 else 0) ->
  0 <= n <= maxInt64 + (if neg then 1 else 0) ->
  parses (text m d n) (newBuilder neg) (fun b => at_state b neg 10 m d n).
Proof.
  intros Hm Hd Hn.
  destruct good_units as (Uy & Umo & Ud & Uh & Um & Us & Ums & Uus & Uns).
  unfold text. set (h := n / nanosPerHour).
  set (r1 := n mod nanosPerHour). set (mi := r1 / nanosPerMinute).
  set (r2 := r1 mod nanosPerMinute). set (se := r2 / nanosPerSecond).
  set (r3 := r2 mod nanosPerSecond). set (ms := r3 / nanosPerMilli).
  set (r4 := r3 mod nanosPerMilli). set (us := r4 / nanosPerMicro).
  set (ns := r4 mod nanosPerMicro).
  assert (Hnn : 0 <= h /\ 0 <= mi /\ 0 <= se /\ 0 <= ms /\ 0 <= us /\ 0 <= ns /\
    n = h * nanosPerHour + mi * nanosPerMinute + se * nanosPerSecond + ms * nanosPerMilli
        + us * nanosPerMicro + ns).
  { subst h r1 mi r2 se r3 ms r4 us ns. units. lia. }
  clearbody h mi se ms us ns. clear r1 r2 r3 r4.
  destruct Hnn as (Hh & Hmi & Hse & Hms & Hus & Hns & En).
  rewrite <- (app_nil_r (seg ns "ns")).
  assert (H0 : at_state (newBuilder neg) neg 0 0 0 0) by by split_and!.
  eapply parse_months; [exact Uy|lia|seg_goal| |exact H0|units; lia|]; [lia|].
  clear H0. intros b1 H1.
  eapply parse_months; [exact Umo|lia|seg_goal| |exact H1|units; lia|]; [lia|].
  clear H1. intros b2 H2.
  eapply parse_days; [exact Ud|lia|seg_goal| |exact H2|units; lia|]; [lia|].
  clear H2. intros b3 H3.
  eapply parse_nanos; [exact Uh|lia|seg_goal| | | |exact H3|units; lia|];
    [lia|units; lia|units; lia|]. clear H3. intros b4 H4.
  eapply parse_nanos; [exact Um|lia|seg_goal| | | |exact H4|units; lia|];
    [lia|units; lia|units; lia|]. clear H4. intros b5 H5.
  eapply parse_nanos; [exact Us|lia|seg_goal| | | |exact H5|units; lia|];
    [lia|units; lia|units; lia|]. clear H5. intros b6 H6.
  eapply parse_nanos; [exact Ums|lia|seg_goal| | | |exact H6|units; lia|];
    [lia|units; lia|units; lia|]. clear H6. intros b7 H7.
  eapply parse_nanos; [exact Uus|lia|seg_goal| | | |exact H7|units; lia|];
    [lia|units; lia|units; lia|]. clear H7. intros b8 H8.
  eapply parse_nanos; [exact Uns|lia|seg_goal| | | |exact H8|units; lia|];
    [lia|units; lia|units; lia|]. clear H8. intros b9 H9.
  exists b9. split; [apply parse_rest_nil|].
  unfold at_state in *. units. destruct H9 as (? & ? & ? & ? & ?).
  split_and!; first [done | lia].
Qed.

(** The value a printed duration denotes: the text has one sign for the three
    components. *)
Definition one_sign (d : t) : t :=
  if (months d <? 0) || (days d <? 0) || (nanoseconds d <? 0)
  then mk (- Z.abs (months d)) (- Z.abs (days d)) (- Z.abs (nanoseconds d)) else d.

Lemma text_head m d n :
  0 <= m -> 0 <= d -> 0 <= n -> seg_rest (text m d n).
Proof.
  intros. unfold text. rewrite <- (app_nil_r (seg _ "ns")).
  assert (Hp : 0 < nanosPerHour /\ 0 < nanosPerMinute /\ 0 < nanosPerSecond /\
               0 < nanosPerMilli /\ 0 < nanosPerMicro) by (units; lia).
  repeat (apply seg_rest_app; [first [lia | apply Z.div_pos; lia | units; lia]|]). done.
Qed.

Lemma parseStandardFormat_text (neg : bool) m d n :
  0 <= m <= maxInt32 + (if neg then 1 else 0) ->
  0 <= d <= maxInt32 + (if neg then 1 else 0) ->
  0 <= n <= maxInt64 + (if neg then 1 else 0) ->
  let s := if neg then -1 else 1 in
  parseStandardFormat neg (text m d n) = Ok (mk (s * m) (s * d) (s * n)).
Proof.
  intros Hm Hd Hn. destruct (parse_text neg m d n Hm Hd Hn) as (b & Hp & <- & _ & <- & <- & <-).
  unfold parse_rest in Hp. unfold parseStandardFormat. rewrite Hp. simpl.
  apply build_ok. done.
Qed.

Lemma fromString_standard (neg : bool) s :
  seg_rest s ->
  fromString ((if neg then js "-" else []) ++ s) = parseStandardFormat neg s.
Proof.
  intros Hs. unfold fromString.
  destruct s as [|c s]; [by destruct neg; vm_compute|].
  simpl in Hs. apply is_digit_spec in Hs.
  destruct neg; cbn [app js String.list_ascii_of_string map].
  - change (char_at (js "-" ++ c :: s) 0) with (Some 45).
    rewrite (bool_decide_true (Some 45 = Some 45)) by done.
    change (drop 1 (js "-" ++ c :: s)) with (c :: s).
    change (char_at (c :: s) 0) with (Some c).
    by rewrite bool_decide_false by (intros [= ->]; lia).
  - change (char_at (c :: s) 0) with (Some c).
    rewrite (bool_decide_false (Some c = Some 45)) by (intros [= ->]; lia).
    change (char_at (c :: s) 0) with (Some c).
    by rewrite bool_decide_false by (intros [= ->]; lia).
Qed.

Lemma fromString_toString_gen d : wf d -> fromString (toString d) = Ok (one_sign d).
Proof.
  intros (Hm & Hd & Hn). unfold int32, int64 in *. rewrite toString_text. unfold one_sign.
  rewrite fromString_standard by (apply text_head; lia).
  destruct (_ || _) eqn:E.
  - rewrite parseStandardFormat_text by (unfold maxInt32, maxInt64; lia).
    do 2 f_equal; lia.
  - rewrite !orb_false_iff, !Z.ltb_ge in E.
    rewrite parseStandardFormat_text by (unfold maxInt32, maxInt64; lia).
    destruct d; simpl in *. do 2 f_equal; lia.
Qed.

(** Parsing ends in a validated builder whatever the format. *)
Lemma build_wf b d : build b = Ok d -> wf d.
Proof. unfold build. destruct (b_isNegative b); apply duration_constructor_wf. Qed.

Lemma parses_wf neg s d : parseStandardFormat neg s = Ok d -> wf d.
Proof. unfold parseStandardFormat. intros H. bind_inv H. by eapply build_wf. Qed.

Lemma parseIso_wf neg s d : parseIso8601Format neg s = Ok d -> wf d.
Proof.
  unfold parseIso8601Format, no_conversion.
  repeat match goal with
  | |- context [match ?x with _ => _ end] =>
      match type of x with
      | prod _ _ => destruct x | option _ => destruct x | list _ => destruct x end
  end; intros H; try discriminate; repeat bind_inv H; by eapply build_wf.
Qed.

Lemma parseWeek_wf neg s d : parseIso8601WeekFormat neg s = Ok d -> wf d.
Proof.
  unfold parseIso8601WeekFormat, no_conversion.
  destruct (strip_prefix _ _) as [r0|]; [|discriminate].
  destruct (opt_group "W" r0) as [[ds|] [|c r]]; try discriminate.
  intros H. bind_inv H. by eapply build_wf.
Qed.

Lemma parseAlternative_wf neg s d : parseIso8601AlternativeFormat neg s = Ok d -> wf d.
Proof.
  unfold parseIso8601AlternativeFormat, no_conversion.
  destruct (match_alternative s) as [[[[[[y mo] dd] h] mi] se]|]; [|discriminate].
  intros H. repeat bind_inv H. by eapply build_wf.
Qed.

Lemma exec_standard_digits s ds u r :
  exec_standard s = Some (ds, u, r) -> Forall (fun c => is_digit c = true) ds.
Proof.
  assert (Hm : forall s ds u r, match_standard s = Some (ds, u, r) ->
    Forall (fun c => is_digit c = true) ds).
  { clear. intros s ds u r. unfold match_standard. pose proof (span_digits_digits s) as Hd.
    destruct (span_digits s) as [[|d ds'] rest]; [done|].
    destruct (match_unit unit_symbols rest) as [[u' r']|]; [|done]. by intros [= <- _ _]. }
  induction s as [|c s IH]; cbn [exec_standard].
  - destruct (match_standard []) eqn:E; [|done]. intros [= ->]. by eapply Hm.
  - destruct (match_standard (c :: s)) eqn:E; [|done]. intros [= ->]. by eapply Hm.
Qed.

Lemma parseStandard_loop_inv fuel s b b' :
  builder_inv b -> parseStandard_loop fuel s b = Ok b' ->
  builder_inv b' /\ b_isNegative b' = b_isNegative b.
Proof.
  revert s b. induction fuel as [|fuel IH]; intros s b Hb; cbn [parseStandard_loop];
    [discriminate|].
  destruct (exec_standard s) as [[[ds u] r]|] eqn:Ex; [|intros [= <-]; done].
  apply exec_standard_digits, dec_val_nonneg in Ex.
  intros H. bind_inv H. unfold add in E.
  destruct (addMethods _) as [f|] eqn:Ef; [|discriminate].
  apply addMethods_unit_op in Ef.
  destruct (unit_op_inv f b (dec_val ds) a Ef Hb Ex E) as (Ha & Hn & _).
  destruct (IH _ _ Ha H) as [? ->]. done.
Qed.

Lemma newBuilder_inv neg : builder_inv (newBuilder neg).
Proof. unfold builder_inv, b_max, maxInt32, maxInt64. simpl. destruct neg; lia. Qed.

(** ** The binary form *)

(** The three vints, whatever the scratch buffers hold. *)
Definition duration_bytes (d : t) : bytes :=
  VIntCoding.vint_bytes (VIntCoding.encodeZigZag64 (months d)) ++
  VIntCoding.vint_bytes (VIntCoding.encodeZigZag64 (days d)) ++
  VIntCoding.vint_bytes (VIntCoding.encodeZigZag64 (nanoseconds d)).

Definition scratch_ok (rb : reusableBuffers) : Prop :=
  length (rb_months rb) = 9%nat /\ length (rb_days rb) = 9%nat /\ length (rb_nanoseconds rb) = 9%nat.

Lemma duration_toBuffer d rb :
  wf d -> scratch_ok rb -> fst (toBuffer d rb) = duration_bytes d /\ scratch_ok (snd (toBuffer d rb)).
Proof.
  intros (Hm & Hd & Hn) (H1 & H2 & H3). unfold toBuffer, duration_bytes.
  assert (Hm' : int64 (months d)) by (unfold int32, int64 in *; lia).
  assert (Hd' : int64 (days d)) by (unfold int32, int64 in *; lia).
  rewrite !VIntCoding.writeVInt_spec by (done || lia). rewrite !slice_prefix. split; [done|].
  unfold scratch_ok. cbn [snd rb_months rb_days rb_nanoseconds].
  split_and!; apply VIntCoding.write_keeps_length; done.
Qed.

Lemma duration_fromBuffer d : wf d -> fromBuffer (duration_bytes d) = Ok d.
Proof.
  intros (Hm & Hd & Hn). unfold duration_bytes.
  assert (Hm' : int64 (months d)) by (unfold int32, int64 in *; lia).
  assert (Hd' : int64 (days d)) by (unfold int32, int64 in *; lia).
  set (vm := VIntCoding.vint_bytes _). set (vd := VIntCoding.vint_bytes _).
  set (vn := VIntCoding.vint_bytes _).
  pose proof (VIntCoding.readVInt_spec (months d) [] (vd ++ vn) Hm') as Rm.
  pose proof (VIntCoding.readVInt_spec (days d) vm vn Hd') as Rd.
  pose proof (VIntCoding.readVInt_spec (nanoseconds d) (vm ++ vd) [] Hn) as Rn.
  rewrite app_nil_r, <- app_assoc, blen_app in Rn. fold vm in Rm. fold vd in Rd. fold vn in Rn.
  change (VIntCoding.readVInt (vm ++ vd ++ vn) 0 = Ok (months d, blen vm)) in Rm.
  unfold fromBuffer. rewrite Rm, ok_bind, Rd, ok_bind, Rn, ok_bind.
  rewrite constructor_of_Z by done. by destruct d.
Qed.

(** ** Properties *)

(** C32. Any duration the constructor accepts survives the binary form: with scratch
    buffers of nine bytes holding anything, the bytes [toBuffer] returns decode to
    the same duration, and the scratch buffers keep their length, so the next call
    works as well. *)
Theorem fromBuffer_toBuffer (d : t) (rb : reusableBuffers) :
  wf d -> length (rb_months rb) = 9%nat -> length (rb_days rb) = 9%nat ->
  length (rb_nanoseconds rb) = 9%nat ->
  let '(buffer, rb') := toBuffer d rb in
  fromBuffer buffer = Ok d /\ length (rb_months rb') = 9%nat /\
  length (rb_days rb') = 9%nat /\ length (rb_nanoseconds rb') = 9%nat.
Proof.
  intros Hd H1 H2 H3. destruct (duration_toBuffer d rb Hd) as [E Hs]; [by split_and!|].
  destruct (toBuffer d rb) as [buffer rb']. cbn [fst snd] in *. subst buffer.
  split; [by apply duration_fromBuffer|done].
Qed.

Lemma fromBuffer_toBuffer_witness :
  let rb := mkBuffers (replicate 9 1) (replicate 9 2) (replicate 9 3) in
  let '(buffer, rb') := toBuffer (mk (-5) 400 (- 2 ^ 63)) rb in
  fromBuffer buffer = Ok (mk (-5) 400 (- 2 ^ 63)) /\ length (rb_months rb') = 9%nat /\
  length (rb_days rb') = 9%nat /\ length (rb_nanoseconds rb') = 9%nat.
Proof.
  apply (fromBuffer_toBuffer (mk (-5) 400 (- 2 ^ 63))
           (mkBuffers (replicate 9 1) (replicate 9 2) (replicate 9 3)));
    [unfold wf, int32, int64; simpl; lia|reflexivity..].
Defined.

(** C33. Printing and parsing: for every duration the constructor accepts,
    [fromString] accepts the text of [toString] and returns the duration whose
    components all carry the single sign of the text; hence the round trip is the
    identity exactly on the durations whose components do not mix signs. *)
Theorem fromString_toString (d : t) :
  wf d ->
  fromString (toString d) = Ok (one_sign d) /\
  (fromString (toString d) = Ok d <->
   (0 <= months d /\ 0 <= days d /\ 0 <= nanoseconds d) \/
   (months d <= 0 /\ days d <= 0 /\ nanoseconds d <= 0)).
Proof.
  intros Hd. rewrite fromString_toString_gen by done. split; [done|].
  unfold one_sign. destruct d as [m dd n]; simpl.
  destruct (Z.ltb_spec m 0), (Z.ltb_spec dd 0), (Z.ltb_spec n 0); simpl;
    (split; [intros [=]; lia|intros ?; do 2 f_equal; lia]).
Qed.

Lemma fromString_toString_witness :
  fromString (toString (mk (-14) (-3) (- 2 ^ 63))) = Ok (mk (-14) (-3) (- 2 ^ 63)).
Proof.
  destruct (fromString_toString (mk (-14) (-3) (- 2 ^ 63))) as [_ H];
    [unfold wf, int32, int64; simpl; lia|].
  apply H. right. simpl. lia.
Defined.

(** Whatever text it is given, in any of the four formats, a duration that [fromString]
    returns has 32-bit months and days and 64-bit nanoseconds, as the constructor checks. *)
Lemma fromString_wf (input : jsstr) (d : t) : fromString input = Ok d -> wf d.
Proof.
  unfold fromString. generalize (bool_decide (char_at input 0 = Some 45)). intros neg.
  generalize (if neg then drop 1 input else input). intros src.
  repeat match goal with |- (if ?c then _ else _) = _ -> _ => destruct c end;
    eauto using parses_wf, parseIso_wf, parseWeek_wf, parseAlternative_wf.
Qed.


(** Units must be given in strictly decreasing size, each at most once: a unit
    whose rank is not above the last one accepted is refused, and an accepted one
    becomes the last. *)
Theorem add_unit_order (b : Builder) (ds sym : jsstr) :
  builder_inv b -> Forall (fun c => is_digit c = true) ds ->
  match addMethods (lower_unit <$> sym) with
  | None => add b ds sym = Err (TypeError "Unknown duration symbol")
  | Some _ => forall b', add b ds sym = Ok b' ->
      b_unitIndex b < b_unitIndex b' /\ builder_inv b' /\
      forall ds', exists e, add b' ds' sym = Err (TypeError e)
  end.
Proof.
  intros Hb Hds%dec_val_nonneg. unfold add. destruct (addMethods _) as [f|] eqn:Ef; [|done].
  intros b' E. pose proof (addMethods_unit_op _ _ Ef) as Hf.
  destruct (unit_op_inv f b _ b' Hf Hb Hds E) as (Hb' & _ & Hlt).
  split_and!; [done..|]. intros ds'.
  by apply (unit_op_twice f b (dec_val ds)).
Qed.

Lemma add_unit_order_witness :
  builder_inv (newBuilder false) /\
  forall b', add (newBuilder false) (js "3") (js "D") = Ok b' ->
    0 < b_unitIndex b' /\ builder_inv b' /\
    forall ds', exists e, add b' ds' (js "D") = Err (TypeError e).
Proof.
  split; [unfold builder_inv, b_max, maxInt32, maxInt64; simpl; lia|].
  exact (add_unit_order (newBuilder false) (js "3") (js "D") (newBuilder_inv false)
           ltac:(repeat constructor)).
Defined.

End Duration.
