(* ===== verification/Integer.v ===== *)
(** * Arbitrary precision integers

    Models lib/types/integer.js: two's complement integers held as an array of
    32-bit pieces, lowest first, and a sign (-1 or 0) that extends it.  Every
    operation is refined to the integer it computes ([value]).

    The table [IntCache_] only shares immutable objects, so [fromInt] is modelled
    without it.  [divide], and [modulo] and [toString] which call it, steer an
    exact loop with floating point quotients and are not modelled. *)

From Stdlib Require Import SpecFloat.
From S2P Require Import Prelude JsNumber Buffer JsString Float.

Module Integer.
Local Open Scope js_scope.

Record t : Type := mk { bits : list Z; sign : Z }.

#[export] Instance t_eq_dec : EqDecision t.
Proof. solve_decision. Defined.

(** The copying loop of the constructor runs from the top piece down and drops the
    leading pieces that repeat the sign. *)
Fixpoint copy_loop (rbits : list Z) (sign : Z) (top : bool) : list Z :=
  match rbits with
  | [] => []
  | b :: rbits =>
      let val := to_int32 b in
      if negb top || negb (val =? sign)
      then val :: copy_loop rbits sign false
      else copy_loop rbits sign top
  end.

Definition constructor (bits : list Z) (sign : Z) : t :=
  mk (rev (copy_loop (rev bits) sign true)) sign.

Definition fromInt (value : Z) : t :=
  constructor [to_int32 value] (if value <? 0 then -1 else 0).

Definition ZERO : t := fromInt 0.
Definition ONE : t := fromInt 1.
Definition TWO_PWR_24 : t := fromInt (js_shl 1 24).

Definition fromBits (bits : list Z) : t :=
  let high := default 0 (bits !! (length bits - 1)%nat) in
  constructor bits (if js_and high (js_shl 1 31) =? 0 then 0 else -1).

Definition len (x : t) : Z := Z.of_nat (length (bits x)).

Definition getBits (x : t) (index : Z) : Z :=
  if index <? 0 then 0
  else if index <? len x then default 0 (bits x !! Z.to_nat index)
  else sign x.

Definition getBitsUnsigned (x : t) (index : Z) : Z :=
  let val := getBits x index in
  if 0 <=? val then val else 2 ^ 32 + val.

Definition toInt (x : t) : Z :=
  if 0 <? len x then default 0 (bits x !! 0%nat) else sign x.

Definition isZero (x : t) : bool :=
  if negb (sign x =? 0) then false else forallb (fun b => b =? 0) (bits x).

Definition isNegative (x : t) : bool := sign x =? -1.

Definition isOdd (x : t) : bool :=
  ((len x =? 0) && (sign x =? -1)) ||
  ((0 <? len x) && negb (js_and (default 0 (bits x !! 0%nat)) 1 =? 0)).

(** [for (i = 0; i < n; i++) arr[i] = f(i)] *)
Definition tabulate (n : Z) (f : Z -> Z) : list Z :=
  (fun i => f (Z.of_nat i)) <$> seq 0 (Z.to_nat n).

Definition equals (x other : t) : bool :=
  if negb (sign x =? sign other) then false
  else forallb (fun i => getBits x (Z.of_nat i) =? getBits other (Z.of_nat i))
         (seq 0 (Z.to_nat (Z.max (len x) (len other)))).

(** ** Bitwise operations *)

Definition not (x : t) : t := constructor (js_not <$> bits x) (js_not (sign x)).

Definition and (x other : t) : t :=
  constructor (tabulate (Z.max (len x) (len other))
                 (fun i => js_and (getBits x i) (getBits other i)))
              (js_and (sign x) (sign other)).

Definition or (x other : t) : t :=
  constructor (tabulate (Z.max (len x) (len other))
                 (fun i => js_or (getBits x i) (getBits other i)))
              (js_or (sign x) (sign other)).

Definition xor (x other : t) : t :=
  constructor (tabulate (Z.max (len x) (len other))
                 (fun i => js_xor (getBits x i) (getBits other i)))
              (js_xor (sign x) (sign other)).

Definition shiftLeft (x : t) (numBits : Z) : t :=
  let arrDelta := js_shr numBits 5 in
  let bitDelta := Z.rem numBits 32 in
  let n := len x + arrDelta + (if 0 <? bitDelta then 1 else 0) in
  constructor (tabulate n (fun i =>
    if 0 <? bitDelta
    then js_or (js_shl (getBits x (i - arrDelta)) bitDelta)
               (js_ushr (getBits x (i - arrDelta - 1)) (32 - bitDelta))
    else getBits x (i - arrDelta))) (sign x).

Definition shiftRight (x : t) (numBits : Z) : t :=
  let arrDelta := js_shr numBits 5 in
  let bitDelta := Z.rem numBits 32 in
  let n := len x - arrDelta in
  constructor (tabulate n (fun i =>
    if 0 <? bitDelta
    then js_or (js_ushr (getBits x (i + arrDelta)) bitDelta)
               (js_shl (getBits x (i + arrDelta + 1)) (32 - bitDelta))
    else getBits x (i + arrDelta))) (sign x).

Definition shorten (x : t) (numBits : Z) : t :=
  let arrIndex := js_shr (numBits - 1) 5 in
  let bitIndex := Z.rem (numBits - 1) 32 in
  let bits := tabulate arrIndex (getBits x) in
  let sigBits := if bitIndex =? 31 then 0xffffffff else js_shl 1 (bitIndex + 1) - 1 in
  let val := js_and (getBits x arrIndex) sigBits in
  if negb (js_and val (js_shl 1 bitIndex) =? 0)
  then constructor (bits ++ [js_or val (0xffffffff - sigBits)]) (-1)
  else constructor (bits ++ [val]) 0.

(** ** Arithmetic *)

(** The loop of [add]: [n] more pieces from index [i] on. *)
Fixpoint add_loop (n : nat) (i : Z) (carry : Z) (x other : t) : list Z :=
  match n with
  | O => []
  | S n =>
      let a1 := js_ushr (getBits x i) 16 in
      let a0 := js_and (getBits x i) 0xffff in
      let b1 := js_ushr (getBits other i) 16 in
      let b0 := js_and (getBits other i) 0xffff in
      let c0 := carry + a0 + b0 in
      let c1 := js_ushr c0 16 + a1 + b1 in
      let carry := js_ushr c1 16 in
      let c0 := js_and c0 0xffff in
      let c1 := js_and c1 0xffff in
      js_or (js_shl c1 16) c0 :: add_loop n (i + 1) carry x other
  end.

Definition add (x other : t) : t :=
  fromBits (add_loop (S (Z.to_nat (Z.max (len x) (len other)))) 0 0 x other).

Definition negate (x : t) : t := add (not x) ONE.

Definition subtract (x other : t) : t := add x (negate other).

Definition compare (x other : t) : Z :=
  let diff := subtract x other in
  if isNegative diff then -1 else if isZero diff then 0 else 1.

Definition notEquals (x other : t) : bool := negb (equals x other).
Definition greaterThan (x other : t) : bool := 0 <? compare x other.
Definition greaterThanOrEqual (x other : t) : bool := 0 <=? compare x other.
Definition lessThan (x other : t) : bool := compare x other <? 0.
Definition lessThanOrEqual (x other : t) : bool := compare x other <=? 0.

Definition abs (x : t) : t := if sign x =? 0 then x else negate x.

(** The exact quotient of a Number by [2^k], a power of two not above it. *)
Definition num_scale (x : number) (k : Z) : number :=
  match x with S754_finite s m e => S754_finite s m (e - k) | _ => x end.

(** [value >= pow] *)
Definition num_geZ (x : number) (z : Z) : bool :=
  match num_cmpZ x z with Some (Gt | Eq) => true | _ => false end.

(** A finite Number is below [2^1024], so 33 turns are never exceeded. *)
Fixpoint fromNumber_loop (fuel : nat) (i : Z) (value : number) : list Z :=
  match fuel with
  | O => []
  | S fuel =>
      if num_geZ value (2 ^ (32 * i))
      then to_int32 (num_trunc (num_scale value (32 * i))) :: fromNumber_loop fuel (i + 1) value
      else []
  end.

Definition fromNumber_nonneg (value : number) : t :=
  constructor (fromNumber_loop 33 0 value) 0.

Definition fromNumber (value : number) : t :=
  if is_nan value || negb (is_finite value) then ZERO
  else if num_ltZ value 0 then negate (fromNumber_nonneg (SFopp value))
  else fromNumber_nonneg value.

Fixpoint toNumber_loop (n : nat) (i : Z) (x : t) (val pow : number) : number :=
  match n with
  | O => val
  | S n =>
      toNumber_loop n (i + 1) x
        (num_add val (num_mul (num_of_Z (getBitsUnsigned x i)) pow))
        (num_mul pow (num_of_Z (2 ^ 32)))
  end.

Definition toNumber_nonneg (x : t) : number :=
  toNumber_loop (length (bits x)) 0 x (num_of_Z 0) (num_of_Z 1).

Definition toNumber (x : t) : number :=
  if isNegative x then SFopp (toNumber_nonneg (negate x)) else toNumber_nonneg x.

(** [arr[i] += v] *)
Definition bump (arr : list Z) (i : nat) (v : Z) : list Z := alter (Z.add v) i arr.

(** The body of the loop of [carry16] clears the high half of the piece, so it runs
    at most once. *)
Definition carry16 (arr : list Z) (index : nat) : list Z :=
  let v := default 0 (arr !! index) in
  if js_and v 0xffff =? v then arr
  else <[index := js_and v 0xffff]> (bump arr (S index) (js_ushr v 16)).

Definition mul_step (a b : Z) (k : nat) (arr : list Z) : list Z :=
  let a1 := js_ushr a 16 in let a0 := js_and a 0xffff in
  let b1 := js_ushr b 16 in let b0 := js_and b 0xffff in
  let arr := carry16 (bump arr k (a0 * b0)) k in
  let arr := carry16 (bump arr (k + 1) (a1 * b0)) (k + 1) in
  let arr := carry16 (bump arr (k + 1) (a0 * b1)) (k + 1) in
  carry16 (bump arr (k + 2) (a1 * b1)) (k + 2).

(** The loops over the pieces of the operands, with the position they add at. *)
Definition mul_loop (step : Z -> nat -> list Z -> list Z) (ws : list Z)
    (st : nat * list Z) : nat * list Z :=
  fold_left (fun st w => ((fst st + 2)%nat, step w (fst st) (snd st))) ws st.

Definition mul_row (a : Z) (bs : list Z) (k : nat) (arr : list Z) : list Z :=
  snd (mul_loop (mul_step a) bs (k, arr)).

Definition mul_rows (xs bs : list Z) (k : nat) (arr : list Z) : list Z :=
  snd (mul_loop (fun a => mul_row a bs) xs (k, arr)).

(** [arr[i] = (arr[2 * i + 1] << 16) | arr[2 * i]]: the 16-bit halves are read two
    at a time, ahead of the index that is written. *)
Fixpoint combine16 (arr : list Z) : list Z :=
  match arr with
  | lo :: hi :: arr => js_or (js_shl hi 16) lo :: combine16 arr
  | _ => []
  end.

Definition multiply_words (x other : t) : t :=
  let n := (length (bits x) + length (bits other))%nat in
  let arr := mul_rows (bits x) (bits other) 0 (replicate (2 * n) 0) in
  constructor (combine16 arr ++ replicate n 0) 0.

(** [multiply] of operands whose signs are clear. *)
Definition multiply_nonneg (x other : t) : t :=
  if isZero x then ZERO
  else if isZero other then ZERO
  else if lessThan x TWO_PWR_24 && lessThan other TWO_PWR_24
  then fromNumber (num_mul (toNumber x) (toNumber other))
  else multiply_words x other.

(** The recursive calls are on negated negative operands, whose signs are clear. *)
Definition multiply (x other : t) : t :=
  if isZero x then ZERO
  else if isZero other then ZERO
  else if isNegative x then
    if isNegative other then multiply_nonneg (negate x) (negate other)
    else negate (multiply_nonneg (negate x) other)
  else if isNegative other then negate (multiply_nonneg x (negate other))
  else multiply_nonneg x other.

(** ** Binary form *)

(** The bytes of a leading group shorter than four. *)
Definition partial_word (buf : bytes) (sign offset : Z) : Z :=
  let value := foldl (fun value j =>
    let byte := default 0 (buf !! j) in
    let byte := if sign =? -1 then js_and (js_not byte) 0xff else byte in
    js_or value (js_shl byte ((offset - Z.of_nat j - 1) * 8))) 0
    (seq 0 (Z.to_nat offset)) in
  if sign =? -1 then js_not value else value.

(** Piece [i] of the integer in a buffer. *)
Definition buffer_piece (buf : bytes) (sign : Z) (i : nat) : result Z :=
  let offset := blen buf - (Z.of_nat i + 1) * 4 in
  if offset <? 0 then Ok (partial_word buf sign (offset + 4)) else readInt32BE buf offset.

Definition fromBuffer (buf : bytes) : result t :=
  let sign := if js_and (default 0 (buf !! 0%nat)) (js_shl 1 7) =? 0 then 0 else -1 in
  let n := Z.to_nat ((blen buf + 3) / 4) in
  bits ← traverse (buffer_piece buf sign) (seq 0 n);
  Ok (constructor bits sign).

(** The bytes of the highest piece: as many as it needs, and one more when the first
    would be mistaken for the sign. *)
Definition high_bytes (highBits : Z) : list Z :=
  let high :=
    (if 0 <? js_ushr highBits 24 then [js_and (js_shr highBits 24) 0xff] else []) ++
    (if 0 <? js_ushr highBits 16 then [js_and (js_shr highBits 16) 0xff] else []) ++
    (if 0 <? js_ushr highBits 8 then [js_and (js_shr highBits 8) 0xff] else []) ++
    [js_and highBits 0xff] in
  if negb (js_shr (default 0 (high !! 0%nat)) 7 =? 0) then 0 :: high else high.

Definition toBuffer (value : t) : bytes :=
  match rev (bits value) with
  | [] => [sign value mod 256]
  | top :: groups =>
      let highBits := if sign value =? -1 then js_not top else top in
      let high := high_bytes highBits in
      ((fun b => (if sign value =? -1 then js_not b else b) mod 256) <$> high) ++
      mjoin ((fun group => be_bytes 4 group) <$> groups)
  end.

(** ** Text *)

Definition fromNumber_opt (v : option Z) : t :=
  match v with Some z => fromNumber (num_of_Z z) | None => fromNumber S754_nan end.

(** The loop of [fromString], eight characters a turn. *)
Fixpoint fromString_loop (fuel : nat) (str : jsstr) (radix : Z) (result : t) : t :=
  match fuel with
  | O => result
  | S fuel =>
      match str with
      | [] => result
      | _ =>
          let size := Z.min 8 (slen str) in
          let value := parseInt (take 8 str) radix in
          let power := fromNumber (num_of_Z (radix ^ size)) in
          fromString_loop fuel (drop 8 str) radix
            (add (multiply result power) (fromNumber_opt value))
      end
  end.

Definition fromString_nonneg (str : jsstr) (radix : Z) : result t :=
  if bool_decide (str = []) then Err (TypeError "number format error: empty string")
  else if (radix <? 2) || (36 <? radix) then Err (PlainError "radix out of range")
  else if existsb (Z.eqb 45) str
  then Err (TypeError "number format error: interior - character")
  else Ok (fromString_loop (length str) str radix ZERO).

(** An absent radix is 10.  The source calls itself on the text after the sign, so
    any number of leading signs is accepted. *)
Fixpoint fromString (str : jsstr) (radix : Z) : result t :=
  match str with
  | [] => fromString_nonneg [] radix
  | c :: rest =>
      if c =? 45 then
        if (radix <? 2) || (36 <? radix) then Err (PlainError "radix out of range")
        else negate <$> fromString rest radix
      else fromString_nonneg str radix
  end.

(** ** The integer a value denotes *)

Fixpoint words_val (ws : list Z) : Z :=
  match ws with [] => 0 | w :: ws => w mod 2 ^ 32 + 2 ^ 32 * words_val ws end.

Definition value (x : t) : Z := words_val (bits x) + sign x * 2 ^ (32 * len x).

(** A sign is -1 or 0. *)
Definition is_sign (s : Z) : Prop := s = 0 \/ s = -1.

(** The highest piece differs from the sign. *)
Definition top_ne (ws : list Z) (s : Z) : Prop :=
  match rev ws with [] => True | w :: _ => w <> s end.

(** What the constructor establishes: 32-bit pieces, the highest of which does not
    repeat the sign. *)
Definition wf (x : t) : Prop :=
  is_sign (sign x) /\ Forall int32 (bits x) /\ top_ne (bits x) (sign x).

Lemma pow32_S (n : nat) : 2 ^ (32 * Z.of_nat (S n)) = 2 ^ 32 * 2 ^ (32 * Z.of_nat n).
Proof. rewrite <- Z.pow_add_r by lia. f_equal. lia. Qed.

Lemma pow32_pos n : 0 <= n -> 0 < 2 ^ (32 * n).
Proof. intros. apply pow2_pos. lia. Qed.

Lemma words_val_range ws : 0 <= words_val ws < 2 ^ (32 * Z.of_nat (length ws)).
Proof.
  induction ws as [|w ws IH]; cbn [words_val]; [simpl; lia|].
  cbn [length]. rewrite pow32_S. pose proof (Z.mod_pos_bound w (2 ^ 32)). nia.
Qed.

Lemma words_val_app a b :
  words_val (a ++ b) = words_val a + 2 ^ (32 * Z.of_nat (length a)) * words_val b.
Proof.
  induction a as [|w a IH]; cbn [words_val app length]; [rewrite Z.mul_1_l; lia|].
  rewrite IH, pow32_S. ring.
Qed.

Lemma words_val_to_int32 ws : words_val (to_int32 <$> ws) = words_val ws.
Proof.
  induction ws as [|w ws IH]; [done|]. cbn. rewrite IH. f_equal. unfold to_int32. lia.
Qed.

Lemma copy_loop_false r s : copy_loop r s false = to_int32 <$> r.
Proof. induction r as [|b r IH]; [done|]. cbn. by rewrite IH. Qed.

Lemma constructor_snoc ws w s :
  constructor (ws ++ [w]) s =
    if to_int32 w =? s then constructor ws s else mk (to_int32 <$> (ws ++ [w])) s.
Proof.
  unfold constructor. rewrite rev_unit. cbn [copy_loop negb orb].
  destruct (to_int32 w =? s); cbn [negb]; [done|].
  rewrite copy_loop_false, fmap_app. cbn [rev fmap list_fmap].
  change (to_int32 <$> rev ws) with (map to_int32 (rev ws)).
  by rewrite map_rev, rev_involutive.
Qed.

Lemma constructor_value ws s :
  is_sign s ->
  value (constructor ws s) = words_val ws + s * 2 ^ (32 * Z.of_nat (length ws)).
Proof.
  intros Hs. induction ws as [|w ws IH] using rev_ind; [done|].
  rewrite constructor_snoc. destruct (Z.eqb_spec (to_int32 w) s) as [Hw|Hw].
  - rewrite IH, words_val_app, length_app, Nat.add_1_r, pow32_S. cbn [words_val].
    pose proof (pow32_pos (Z.of_nat (length ws)) ltac:(lia)) as Hp.
    generalize dependent (2 ^ (32 * Z.of_nat (length ws))). intros P _ HP.
    assert (w mod 2 ^ 32 = - s * (2 ^ 32 - 1)) as ->.
    { unfold to_int32 in Hw. destruct Hs as [-> | ->]; lia. }
    ring_simplify. lia.
  - unfold value, len. cbn [bits sign]. rewrite words_val_to_int32, length_fmap. done.
Qed.

Lemma constructor_wf ws s : is_sign s -> wf (constructor ws s).
Proof.
  intros Hs. induction ws as [|w ws IH] using rev_ind; [repeat split; [done|constructor]|].
  rewrite constructor_snoc. destruct (Z.eqb_spec (to_int32 w) s) as [Hw|Hw]; [done|].
  split; [done|]. split.
  - cbn [bits]. apply Forall_fmap, Forall_true. intros. apply to_int32_range.
  - cbn [bits sign]. unfold top_ne. rewrite fmap_app, rev_app_distr. done.
Qed.

Lemma constructor_sign ws s : sign (constructor ws s) = s.
Proof. done. Qed.

(** Piece [i] of [x] is piece [i] of the integer [value x]. *)
Lemma words_val_lookup ws i w :
  ws !! i = Some w -> words_val ws / 2 ^ (32 * Z.of_nat i) mod 2 ^ 32 = w mod 2 ^ 32.
Proof.
  revert i. induction ws as [|v ws IH]; intros i Hi; [done|].
  destruct i as [|i]; cbn in Hi; cbn [words_val].
  - injection Hi as ->. change (2 ^ (32 * Z.of_nat 0)) with 1. rewrite Z.div_1_r. lia.
  - rewrite pow32_S, <- Z.div_div by (try apply pow32_pos; lia).
    replace ((v mod 2 ^ 32 + 2 ^ 32 * words_val ws) / 2 ^ 32) with (words_val ws) by lia.
    by apply IH.
Qed.

Lemma value_div_high x n :
  is_sign (sign x) -> len x <= n -> value x / 2 ^ (32 * n) = sign x.
Proof.
  intros Hs Hn. unfold value, len in *. pose proof (words_val_range (bits x)) as Hr.
  set (l := Z.of_nat (length (bits x))) in *.
  assert (Hp : 2 ^ (32 * n) = 2 ^ (32 * l) * 2 ^ (32 * (n - l))).
  { rewrite <- Z.pow_add_r by lia. f_equal. lia. }
  pose proof (pow32_pos l ltac:(lia)). pose proof (pow32_pos (n - l) ltac:(lia)).
  rewrite Hp, <- Z.div_div, Z.div_add, (Z.div_small (words_val _)) by lia.
  destruct Hs as [-> | ->]; [apply Z.div_small; lia|].
  symmetry. apply (Z.div_unique _ _ _ (2 ^ (32 * (n - l)) - 1)); lia.
Qed.

Lemma getBits_word x i :
  is_sign (sign x) -> 0 <= i ->
  getBits x i mod 2 ^ 32 = value x / 2 ^ (32 * i) mod 2 ^ 32.
Proof.
  intros Hs Hi. unfold getBits. rewrite (proj2 (Z.ltb_ge i 0)) by lia.
  destruct (Z.ltb_spec i (len x)) as [Hlt|Hge]; [|by rewrite value_div_high].
  unfold len in Hlt. destruct (lookup_lt_is_Some_2 (bits x) (Z.to_nat i)) as [w Hw]; [lia|].
  rewrite Hw. change (default 0 (Some w)) with w. apply words_val_lookup in Hw. rewrite Z2Nat.id in Hw by lia.
  unfold value, len. set (l := Z.of_nat (length (bits x))) in *.
  replace (2 ^ (32 * l)) with (2 ^ (32 * (l - i - 1)) * 2 ^ 32 * 2 ^ (32 * i))
    by (rewrite <- !Z.pow_add_r by lia; f_equal; lia).
  rewrite !Z.mul_assoc, Z.div_add by (pose proof (pow32_pos i Hi); lia).
  rewrite <- Hw. symmetry. apply Z_mod_plus_full.
Qed.

Lemma getBits_int32 x i : wf x -> int32 (getBits x i).
Proof.
  intros (Hs & Hb & _). unfold getBits.
  destruct (i <? 0); [unfold int32; lia|]. destruct (i <? len x).
  - destruct (bits x !! Z.to_nat i) eqn:E; [|unfold int32; simpl; lia].
    by eapply Forall_lookup_1.
  - destruct Hs as [-> | ->]; unfold int32; lia.
Qed.

Lemma getBits_neg x i : i < 0 -> getBits x i = 0.
Proof. intros. unfold getBits. by rewrite (proj2 (Z.ltb_lt i 0)). Qed.

Lemma tabulate_val n f z :
  0 <= n -> (forall i, 0 <= i < n -> f i mod 2 ^ 32 = z / 2 ^ (32 * i) mod 2 ^ 32) ->
  words_val (tabulate n f) = z mod 2 ^ (32 * n).
Proof.
  intros Hn Hf. unfold tabulate. rewrite <- (Z2Nat.id n Hn) in Hf |- * at 2.
  generalize dependent (Z.to_nat n). clear n Hn. intros n Hf.
  induction n as [|n IH]; [simpl; by rewrite Z.mod_1_r|].
  rewrite seq_S, fmap_app, words_val_app, IH by (intros; apply Hf; lia).
  rewrite length_fmap, length_seq. cbn [fmap list_fmap words_val Nat.add].
  rewrite Hf by lia. rewrite pow32_S.
  set (P := 2 ^ (32 * Z.of_nat n)). assert (0 < P) by (apply pow32_pos; lia).
  rewrite (Z.mul_comm (2 ^ 32) P), Z.rem_mul_r by lia. lia.
Qed.

Lemma tabulate_length n f : 0 <= n -> Z.of_nat (length (tabulate n f)) = n.
Proof. intros. unfold tabulate. rewrite length_fmap, length_seq. lia. Qed.

(** Building an integer from its pieces. *)
Lemma constructor_of_words n f s z :
  0 <= n -> (forall i, 0 <= i < n -> f i mod 2 ^ 32 = z / 2 ^ (32 * i) mod 2 ^ 32) ->
  is_sign s -> z / 2 ^ (32 * n) = s ->
  value (constructor (tabulate n f) s) = z.
Proof.
  intros Hn Hf Hs Hz. rewrite constructor_value, (tabulate_val n f z), tabulate_length by done.
  pose proof (Z.div_mod z (2 ^ (32 * n))). pose proof (pow32_pos n Hn). rewrite <- Hz. lia.
Qed.

(** ** Signs, zero and order *)

Lemma value_range x :
  is_sign (sign x) -> - 2 ^ (32 * len x) <= value x < 2 ^ (32 * len x).
Proof.
  intros Hs. pose proof (words_val_range (bits x)). unfold value, len.
  destruct Hs as [-> | ->]; lia.
Qed.

Lemma isNegative_value x : is_sign (sign x) -> isNegative x = (value x <? 0).
Proof.
  intros Hs. pose proof (words_val_range (bits x)). unfold isNegative, value, len.
  destruct Hs as [-> | ->]; simpl Z.eqb; symmetry; [apply Z.ltb_ge|apply Z.ltb_lt]; lia.
Qed.

Lemma words_val_zero ws :
  Forall int32 ws -> words_val ws = 0 <-> forallb (fun b => b =? 0) ws = true.
Proof.
  intros Hw. induction Hw as [|w ws Hw Hws IH]; [done|].
  cbn [words_val forallb]. rewrite andb_true_iff, <- IH, Z.eqb_eq.
  pose proof (words_val_range ws). unfold int32 in Hw. lia.
Qed.

Lemma isZero_value x : wf x -> isZero x = (value x =? 0).
Proof.
  intros (Hs & Hb & _). pose proof (words_val_range (bits x)). unfold isZero, value, len.
  apply words_val_zero in Hb. destruct Hs as [-> | ->].
  - rewrite Z.mul_0_l, Z.add_0_r. change (negb (0 =? 0)) with false. cbv iota.
    destruct (forallb _ _).
    + rewrite (proj2 Hb) by done. done.
    + symmetry. apply Z.eqb_neq. intros E. apply Hb in E. discriminate.
  - symmetry. apply Z.eqb_neq. lia.
Qed.

Lemma sign_value x : is_sign (sign x) -> sign x = if value x <? 0 then -1 else 0.
Proof.
  intros Hs. rewrite <- isNegative_value by done. unfold isNegative.
  destruct Hs as [-> | ->]; done.
Qed.

(** Equal integers have equal representations. *)
Lemma value_inj x y : wf x -> wf y -> value x = value y -> x = y.
Proof.
  intros Hx Hy E.
  assert (Hs : sign x = sign y).
  { rewrite (sign_value x), (sign_value y), E by apply Hx || apply Hy. done. }
  assert (Hw : forall i, 0 <= i -> getBits x i = getBits y i).
  { intros i Hi. pose proof (getBits_int32 x i Hx). pose proof (getBits_int32 y i Hy).
    pose proof (getBits_word x i (proj1 Hx) Hi). pose proof (getBits_word y i (proj1 Hy) Hi).
    rewrite E in *. unfold int32 in *. lia. }
  assert (Hlen : forall a b, wf a -> sign a = sign b ->
    (forall i, 0 <= i -> getBits a i = getBits b i) -> (length (bits a) <= length (bits b))%nat).
  { clear. intros a b (Hs & Hb & Ht) Es Hw. destruct (rev (bits a)) as [|w r] eqn:Er.
    - apply (f_equal (@length Z)) in Er. rewrite length_rev in Er. simpl in Er. lia.
    - assert (Ea : bits a = rev r ++ [w]) by (rewrite <- (rev_involutive (bits a)), Er; done).
      destruct (Nat.le_gt_cases (length (bits a)) (length (bits b))) as [|Hgt]; [done|].
      exfalso. specialize (Hw (Z.of_nat (length r)) ltac:(lia)).
      assert (Hla : length (bits a) = S (length r)).
      { rewrite Ea, length_app, length_rev. simpl. lia. }
      unfold getBits, len in Hw. rewrite Nat2Z.id in Hw.
      rewrite (proj2 (Z.ltb_ge _ 0)) in Hw by lia.
      rewrite (proj2 (Z.ltb_lt _ (Z.of_nat (length (bits a))))) in Hw by lia.
      rewrite (proj2 (Z.ltb_ge _ (Z.of_nat (length (bits b))))) in Hw by lia.
      rewrite Ea, lookup_app_r, length_rev, Nat.sub_diag in Hw by (rewrite length_rev; lia).
      unfold top_ne in Ht. rewrite Er in Ht. simpl in Hw. congruence. }
  assert (El : length (bits x) = length (bits y)).
  { apply Nat.le_antisymm; apply Hlen; auto. intros. symmetry. auto. }
  destruct x as [bx sx], y as [by' sy]. simpl in *. subst sy. f_equal.
  apply list_eq. intros i. destruct (Nat.lt_ge_cases i (length bx)) as [Hi|Hi].
  - specialize (Hw (Z.of_nat i) ltac:(lia)). unfold getBits, len in Hw. cbn [bits sign] in Hw.
    rewrite Nat2Z.id, (proj2 (Z.ltb_ge _ 0)), <- El, (proj2 (Z.ltb_lt _ _)) in Hw by lia.
    destruct (lookup_lt_is_Some_2 bx i Hi) as [u Hu].
    destruct (lookup_lt_is_Some_2 by' i ltac:(lia)) as [v Hv].
    rewrite Hu, Hv in *. simpl in Hw. by subst.
  - by rewrite !lookup_ge_None_2 by lia.
Qed.

(** ** Addition and its derivatives *)

Lemma fromBits_value ws :
  ws <> [] -> value (fromBits ws) = signed (32 * Z.of_nat (length ws)) (words_val ws).
Proof.
  intros Hne. destruct (rev ws) as [|w r] eqn:Er.
  { apply (f_equal (@length Z)) in Er. rewrite length_rev in Er. by destruct ws. }
  assert (Ews : ws = rev r ++ [w]) by (rewrite <- (rev_involutive ws), Er; done).
  unfold fromBits. set (s := if _ =? 0 then _ else _).
  assert (Hl : length ws = S (length r)) by (rewrite Ews, length_app, length_rev; simpl; lia).
  assert (Hs : s = if w mod 2 ^ 32 <? 2 ^ 31 then 0 else -1).
  { subst s. rewrite Hl, Ews. replace (S (length r) - 1)%nat with (length (rev r)) by (rewrite length_rev; lia).
    rewrite lookup_app_r, Nat.sub_diag by lia. simpl default.
    change (js_shl 1 31) with (-1 * 2 ^ 31). unfold js_and.
    rewrite (to_int32_id (-1 * 2 ^ 31)) by (unfold int32; lia).
    assert (Hland : Z.land (to_int32 w) (-1 * 2 ^ 31) = to_int32 w / 2 ^ 31 * 2 ^ 31).
    { rewrite <- !Z.shiftl_mul_pow2, <- Z.shiftr_div_pow2 by lia.
      rewrite <- Z.ldiff_ones_r by lia. f_equal. }
    rewrite Hland. unfold to_int32. case_Z; case_Z; lia. }
  rewrite constructor_value by (rewrite Hs; destruct (_ <? _); [left|right]; done).
  rewrite Hs. unfold signed.
  rewrite Ews, words_val_app, length_app, length_rev. cbn [words_val length].
  rewrite Nat.add_1_r, pow32_S.
  replace (32 * Z.of_nat (S (length r)) - 1) with (31 + 32 * Z.of_nat (length r)) by lia.
  rewrite Z.pow_add_r by lia.
  pose proof (words_val_range (rev r)) as Hr. rewrite length_rev in Hr.
  pose proof (Z.mod_pos_bound w (2 ^ 32) ltac:(lia)) as Hm.
  generalize dependent (w mod 2 ^ 32). intros m _ Hm.
  generalize dependent (words_val (rev r)). generalize (2 ^ (32 * Z.of_nat (length r))).
  intros P v Hv. change (2 ^ 31) with 2147483648. change (2 ^ 32) with 4294967296 in *.
  destruct (Z.ltb_spec m 2147483648); destruct (Z.ltb_spec (v + P * (m + 4294967296 * 0)) (2147483648 * P)); nia.
Qed.

Lemma fromBits_wf ws : wf (fromBits ws).
Proof. apply constructor_wf. destruct (_ =? 0); [left|right]; done. Qed.

(** One turn of the loop of [add]: the halves recombine to the sum of the pieces. *)
Lemma add_piece a b c :
  0 <= c <= 1 -> let s := a mod 2 ^ 32 + b mod 2 ^ 32 + c in
  let c0 := c + js_and a 65535 + js_and b 65535 in
  let c1 := js_ushr c0 16 + js_ushr a 16 + js_ushr b 16 in
  js_or (js_shl (js_and c1 65535) 16) (js_and c0 65535) mod 2 ^ 32 = s mod 2 ^ 32 /\
  js_ushr c1 16 = s / 2 ^ 32.
Proof.
  intros Hc s c0 c1. subst s.
  assert (E0 : c0 = c + a mod 65536 + b mod 65536) by (subst c0; by rewrite !js_and_65535).
  assert (E1 : c1 = c0 / 65536 + a mod 2 ^ 32 / 65536 + b mod 2 ^ 32 / 65536).
  { subst c1. rewrite !js_ushr_div by lia. rewrite (Z.mod_small c0) by lia. done. }
  clearbody c0 c1. rewrite js_ushr_div, !js_and_65535, js_shl_mul by lia. split; [|lia].
  unfold js_or. rewrite to_int32_idem.
  assert (Hsh : to_int32 (c1 mod 65536 * 2 ^ 16) = to_int32 (c1 mod 65536) * 2 ^ 16 mod 2 ^ 32
     \/ to_int32 (c1 mod 65536 * 2 ^ 16) = to_int32 (c1 mod 65536) * 2 ^ 16 - 2 ^ 32).
  { unfold to_int32. lia. }
  rewrite (to_int32_id (c0 mod 65536)) by (unfold int32; lia).
  replace (to_int32 (c1 mod 65536 * 2 ^ 16)) with
    (to_int32 (c1 mod 65536 * 2 ^ 16) / 2 ^ 16 * 2 ^ 16) by (unfold to_int32; lia).
  rewrite lor_mul_add by lia. unfold to_int32. lia.
Qed.

Lemma add_loop_words n i c x y :
  is_sign (sign x) -> is_sign (sign y) -> 0 <= i -> 0 <= c <= 1 ->
  words_val (add_loop n i c x y) =
    (value x / 2 ^ (32 * i) + value y / 2 ^ (32 * i) + c) mod 2 ^ (32 * Z.of_nat n).
Proof.
  intros Hx Hy. revert i c. induction n as [|n IH]; intros i c Hi Hc.
  - simpl. by rewrite Z.mod_1_r.
  - cbn [add_loop words_val].
    destruct (add_piece (getBits x i) (getBits y i) c Hc) as [Hw Hcar].
    rewrite Hw, Hcar, IH; clear IH Hw Hcar; [|lia|lia].
    rewrite !getBits_word by (done || lia). rewrite pow32_S.
    replace (32 * (i + 1)) with (32 * i + 32) by lia. rewrite !Z.pow_add_r by lia.
    pose proof (pow32_pos i Hi). rewrite <- !Z.div_div by lia.
    set (X := value x / _). set (Y := value y / _). change (4294967296) with (2 ^ 32).
    assert (Hsum : X + Y + c = (X mod 2 ^ 32 + Y mod 2 ^ 32 + c) +
      2 ^ 32 * (X / 2 ^ 32 + Y / 2 ^ 32)) by lia.
    pose proof (pow32_pos (Z.of_nat n) ltac:(lia)).
    rewrite Z.rem_mul_r by lia. f_equal; [lia|]. do 2 f_equal. lia.
Qed.

Lemma add_value x y : wf x -> wf y -> value (add x y) = value x + value y.
Proof.
  intros Hx Hy. pose proof (value_range x (proj1 Hx)) as Rx.
  pose proof (value_range y (proj1 Hy)) as Ry. unfold add.
  set (n := Z.to_nat (Z.max (len x) (len y))).
  assert (Hlen : forall n i c, length (add_loop n i c x y) = n).
  { clear. induction n as [|n IH]; intros; [done|]. cbn [add_loop length]. by rewrite IH. }
  rewrite fromBits_value by done. rewrite Hlen.
  rewrite add_loop_words by (apply Hx || apply Hy || lia).
  change (2 ^ (32 * 0)) with 1. rewrite !Z.div_1_r, Z.add_0_r.
  apply signed_mod; [lia|].
  assert (Hn : forall z, 0 <= z <= Z.of_nat n -> 2 ^ (32 * z) <= 2 ^ (32 * Z.of_nat n)).
  { intros z Hz. apply Z.pow_le_mono_r; lia. }
  assert (0 <= len x /\ 0 <= len y) as [? ?] by (unfold len; lia).
  pose proof (Hn (len x) ltac:(lia)). pose proof (Hn (len y) ltac:(lia)).
  replace (32 * Z.of_nat (S n) - 1) with (31 + 32 * Z.of_nat n) by lia.
  rewrite Z.pow_add_r by lia. lia.
Qed.

Lemma not_value x : wf x -> value (not x) = - value x - 1.
Proof.
  intros (Hs & Hb & _). unfold not.
  assert (Hw : words_val (js_not <$> bits x) = 2 ^ (32 * len x) - 1 - words_val (bits x)).
  { unfold len. clear Hs. induction Hb as [|w ws Hw Hws IH]; [done|].
    cbn [fmap list_fmap words_val length]. change (list_fmap Z Z js_not ws) with (js_not <$> ws).
    rewrite IH, pow32_S, js_not_eq by done. unfold int32 in Hw. lia. }
  assert (Hsn : js_not (sign x) = - sign x - 1).
  { apply js_not_eq. destruct Hs as [-> | ->]; unfold int32; lia. }
  rewrite constructor_value, length_fmap, Hw, Hsn.
  - unfold value, len. ring.
  - rewrite Hsn. destruct Hs as [-> | ->]; [right|left]; done.
Qed.

Lemma not_wf x : wf x -> wf (not x).
Proof.
  intros (Hs & _). apply constructor_wf. destruct Hs as [-> | ->]; [right|left]; done.
Qed.

Lemma add_wf x y : wf (add x y).
Proof. apply fromBits_wf. Qed.

Lemma fromInt_wf v : wf (fromInt v).
Proof. apply constructor_wf. destruct (v <? 0); [right|left]; done. Qed.

Lemma fromInt_value v : int32 v -> value (fromInt v) = v.
Proof.
  intros Hv. unfold fromInt. rewrite constructor_value by (destruct (v <? 0); [right|left]; done).
  cbn [words_val length]. rewrite to_int32_id by done. unfold int32 in Hv.
  change (2 ^ (32 * Z.of_nat 1)) with (2 ^ 32). destruct (Z.ltb_spec v 0); lia.
Qed.

Lemma ZERO_wf : wf ZERO.
Proof. unfold ZERO. apply fromInt_wf. Qed.

Lemma ONE_wf : wf ONE.
Proof. unfold ONE. apply fromInt_wf. Qed.

Create HintDb integer.
#[export] Hint Resolve constructor_wf not_wf add_wf fromInt_wf fromBits_wf ZERO_wf ONE_wf : integer.

Lemma negate_wf x : wf (negate x).
Proof. unfold negate. apply add_wf. Qed.

#[export] Hint Resolve negate_wf : integer.

Lemma negate_value x : wf x -> value (negate x) = - value x.
Proof.
  intros. unfold negate. rewrite add_value, not_value by auto with integer.
  unfold ONE. rewrite fromInt_value by (unfold int32; lia). lia.
Qed.

Lemma subtract_value x y : wf x -> wf y -> value (subtract x y) = value x - value y.
Proof.
  intros. unfold subtract. rewrite add_value, negate_value by (done || apply negate_wf). lia.
Qed.

Lemma compare_value x y :
  wf x -> wf y -> compare x y = match value x ?= value y with Lt => -1 | Eq => 0 | Gt => 1 end.
Proof.
  intros Hx Hy. unfold compare. assert (Hd : wf (subtract x y)) by (unfold subtract; apply add_wf).
  rewrite isNegative_value, isZero_value, subtract_value by (done || apply Hd).
  destruct (Z.compare_spec (value x) (value y)).
  - rewrite (proj2 (Z.ltb_ge _ 0)), (proj2 (Z.eqb_eq _ 0)) by lia. done.
  - rewrite (proj2 (Z.ltb_lt _ 0)) by lia. done.
  - rewrite (proj2 (Z.ltb_ge _ 0)), (proj2 (Z.eqb_neq _ 0)) by lia. done.
Qed.

Lemma lessThan_value x y : wf x -> wf y -> lessThan x y = (value x <? value y).
Proof.
  intros. unfold lessThan.
  rewrite compare_value, (Z.ltb_compare (value x) (value y)) by done.
  by destruct (value x ?= value y).
Qed.

(** ** Bitwise operations and shifts *)

Lemma pieces_op (f : Z -> Z -> Z) (jf : Z -> Z -> Z) x y :
  wf x -> wf y ->
  (forall a b, int32 a -> int32 b -> jf a b = f a b) ->
  (forall a b k, 0 <= k -> f a b / 2 ^ k = f (a / 2 ^ k) (b / 2 ^ k)) ->
  (forall a b, f a b mod 2 ^ 32 = f (a mod 2 ^ 32) (b mod 2 ^ 32) mod 2 ^ 32) ->
  (forall a b, is_sign a -> is_sign b -> is_sign (f a b)) ->
  let n := Z.max (len x) (len y) in
  value (constructor (tabulate n (fun i => jf (getBits x i) (getBits y i)))
           (jf (sign x) (sign y))) = f (value x) (value y).
Proof.
  intros Hx Hy Hjf Hdiv Hmod Hsgn n.
  pose proof (proj1 Hx) as Sx. pose proof (proj1 Hy) as Sy.
  assert (Hs32 : forall s, is_sign s -> int32 s) by (intros s [-> | ->]; unfold int32; lia).
  rewrite (Hjf (sign x) (sign y)) by auto.
  apply constructor_of_words.
  - unfold n, len. lia.
  - intros i Hi. rewrite Hjf by (apply getBits_int32; done).
    rewrite Hdiv by lia. rewrite Hmod, !getBits_word by (done || lia). symmetry. apply Hmod.
  - auto.
  - rewrite Hdiv by (unfold n, len; lia). by rewrite !value_div_high by (done || lia).
Qed.

Lemma mod_op (f : Z -> Z -> Z) (b : bool -> bool -> bool) :
  (forall x y n, Z.testbit (f x y) n = b (Z.testbit x n) (Z.testbit y n)) ->
  forall x y, f x y mod 2 ^ 32 = f (x mod 2 ^ 32) (y mod 2 ^ 32) mod 2 ^ 32.
Proof.
  intros Hf x y. apply Z.bits_inj'. intros n Hn.
  destruct (Z.lt_ge_cases n 32).
  - by rewrite !Z.mod_pow2_bits_low, !Hf, !Z.mod_pow2_bits_low by lia.
  - by rewrite !Z.mod_pow2_bits_high by lia.
Qed.

Lemma div_op (f : Z -> Z -> Z) :
  (forall x y n, Z.shiftr (f x y) n = f (Z.shiftr x n) (Z.shiftr y n)) ->
  forall x y k, 0 <= k -> f x y / 2 ^ k = f (x / 2 ^ k) (y / 2 ^ k).
Proof. intros Hf x y k Hk. rewrite <- !Z.shiftr_div_pow2 by done. apply Hf. Qed.

Lemma and_value x y : wf x -> wf y -> value (and x y) = Z.land (value x) (value y).
Proof.
  intros. apply (pieces_op Z.land); try done.
  - intros. unfold js_and. by rewrite !to_int32_id.
  - apply div_op, Z.shiftr_land.
  - apply (mod_op _ andb), Z.land_spec.
  - intros a b [-> | ->] [-> | ->]; (by left) || (by right).
Qed.

Lemma or_value x y : wf x -> wf y -> value (or x y) = Z.lor (value x) (value y).
Proof.
  intros. apply (pieces_op Z.lor); try done.
  - intros. unfold js_or. by rewrite !to_int32_id.
  - apply div_op, Z.shiftr_lor.
  - apply (mod_op _ orb), Z.lor_spec.
  - intros a b [-> | ->] [-> | ->]; (by left) || (by right).
Qed.

Lemma xor_value x y : wf x -> wf y -> value (xor x y) = Z.lxor (value x) (value y).
Proof.
  intros. apply (pieces_op Z.lxor); try done.
  - intros. unfold js_xor. by rewrite !to_int32_id.
  - apply div_op, Z.shiftr_lxor.
  - apply (mod_op _ xorb), Z.lxor_spec.
  - intros a b [-> | ->] [-> | ->]; (by left) || (by right).
Qed.

Lemma shift_split nb :
  0 <= nb < 2 ^ 31 -> js_shr nb 5 = nb / 32 /\ Z.rem nb 32 = nb mod 32.
Proof.
  intros. rewrite js_shr_div, to_int32_id, Z.rem_mod_nonneg by (unfold int32; lia). done.
Qed.

(** [(hi << d) | (lo >>> (32 - d))] selects 32 bits of the 64-bit [hi:lo]. *)
Lemma funnel hi lo d :
  0 < d < 32 ->
  js_or (js_shl hi d) (js_ushr lo (32 - d)) mod 2 ^ 32 =
    (hi * 2 ^ d + lo mod 2 ^ 32 / 2 ^ (32 - d)) mod 2 ^ 32.
Proof.
  intros Hd. rewrite js_shl_mul, js_ushr_div by lia.
  pose proof (pow2_pos d ltac:(lia)) as Pd. pose proof (pow2_pos (32 - d) ltac:(lia)) as Pc.
  assert (E32 : 2 ^ 32 = 2 ^ (32 - d) * 2 ^ d) by (rewrite <- Z.pow_add_r by lia; f_equal; lia).
  set (v := lo mod 2 ^ 32 / 2 ^ (32 - d)).
  assert (Hv : 0 <= v < 2 ^ d).
  { subst v. split; [apply Z.div_pos; lia|]. apply Z.div_lt_upper_bound; lia. }
  assert (2 ^ d <= 2 ^ 31) by (apply Z.pow_le_mono_r; lia).
  unfold js_or. rewrite to_int32_idem, (to_int32_id v) by (unfold int32; lia).
  assert (Hq : exists q, to_int32 (hi * 2 ^ d) = q * 2 ^ d /\
     (q * 2 ^ d) mod 2 ^ 32 = (hi * 2 ^ d) mod 2 ^ 32).
  { exists (hi - (hi * 2 ^ d + 2 ^ 31) / 2 ^ 32 * 2 ^ (32 - d)). split.
    - rewrite Z.mul_sub_distr_r, <- Z.mul_assoc, <- E32.
      generalize (hi * 2 ^ d). intros. unfold to_int32. lia.
    - rewrite Z.mul_sub_distr_r, <- Z.mul_assoc, <- E32. generalize (hi * 2 ^ d). intros. lia. }
  destruct Hq as (q & -> & Hq). rewrite lor_mul_add by lia.
  rewrite <- Z.add_mod_idemp_l, Hq, Z.add_mod_idemp_l by lia. done.
Qed.

Lemma div_split_low z k d :
  0 <= k -> 0 < d < 32 ->
  (z / 2 ^ k mod 2 ^ 32 / 2 ^ (32 - d) + z / 2 ^ (k + 32) * 2 ^ d) mod 2 ^ 32
  = z / 2 ^ (k + (32 - d)) mod 2 ^ 32.
Proof.
  intros Hk Hd. pose proof (pow2_pos d ltac:(lia)). pose proof (pow2_pos (32 - d) ltac:(lia)).
  assert (E32 : 2 ^ 32 = 2 ^ d * 2 ^ (32 - d)) by (rewrite <- Z.pow_add_r by lia; f_equal; lia).
  rewrite !Z.pow_add_r, <- !Z.div_div by (try apply pow2_pos; lia).
  set (A := z / 2 ^ k). f_equal.
  assert (EA : A = A mod 2 ^ 32 + A / 2 ^ 32 * 2 ^ d * 2 ^ (32 - d)).
  { rewrite <- Z.mul_assoc, <- E32. lia. }
  rewrite EA at 3. rewrite Z.div_add by lia. done.
Qed.

Lemma sign_div s k : is_sign s -> 0 <= k -> s / 2 ^ k = s.
Proof.
  intros Hs Hk. pose proof (pow2_pos k Hk). destruct Hs as [-> | ->]; [apply Z.div_0_l; lia|].
  symmetry. apply (Z.div_unique _ _ _ (2 ^ k - 1)); lia.
Qed.

Lemma shiftRight_value x nb :
  wf x -> 0 <= nb < 2 ^ 31 -> value (shiftRight x nb) = Z.shiftr (value x) nb.
Proof.
  intros Hx Hnb. pose proof (proj1 Hx) as Sx. rewrite Z.shiftr_div_pow2 by lia.
  unfold shiftRight. destruct (shift_split nb Hnb) as [-> ->].
  set (q := nb / 32). set (r := nb mod 32). assert (Enb : nb = 32 * q + r) by lia.
  assert (Hlen : 0 <= len x) by (unfold len; lia).
  destruct (Z.lt_ge_cases (len x - q) 0) as [Hneg|Hge].
  { unfold tabulate. replace (Z.to_nat (len x - q)) with O by lia.
    rewrite constructor_value by done. simpl.
    replace nb with (32 * len x + (nb - 32 * len x)) by lia.
    rewrite Z.pow_add_r, <- Z.div_div by (try apply pow2_pos; lia).
    rewrite value_div_high, sign_div by (done || lia). lia. }
  apply constructor_of_words; [lia| |done|].
  - intros i Hi. rewrite Z.div_div by (try apply pow2_pos; lia). rewrite <- Z.pow_add_r by lia.
    destruct (Z.ltb_spec 0 r).
    + unfold js_or at 1. rewrite Z.lor_comm. fold (js_or (js_shl (getBits x (i + q + 1)) (32 - r))
        (js_ushr (getBits x (i + q)) r)).
      replace r with (32 - (32 - r)) at 2 by lia.
      rewrite funnel by lia. rewrite getBits_word by (done || lia).
      rewrite <- Z.add_mod_idemp_l, <- Z.mul_mod_idemp_l, getBits_word by (done || lia).
      rewrite Z.mul_mod_idemp_l, Z.add_mod_idemp_l by lia.
      rewrite Z.add_comm. replace (32 * (i + q + 1)) with (32 * (i + q) + 32) by lia.
      rewrite div_split_low by lia. do 3 f_equal. lia.
    + rewrite getBits_word by (done || lia). do 3 f_equal. lia.
  - rewrite Z.div_div by (try apply pow2_pos; lia). rewrite <- Z.pow_add_r by lia.
    replace (nb + 32 * (len x - q)) with (32 * len x + r) by lia.
    rewrite Z.pow_add_r, <- Z.div_div by (try apply pow2_pos; lia).
    by rewrite value_div_high, sign_div by (done || lia).
Qed.

Lemma shiftLeft_value x nb :
  wf x -> 0 <= nb < 2 ^ 31 -> value (shiftLeft x nb) = Z.shiftl (value x) nb.
Proof.
  intros Hx Hnb. pose proof (proj1 Hx) as Sx. rewrite Z.shiftl_mul_pow2 by lia.
  unfold shiftLeft. destruct (shift_split nb Hnb) as [-> ->].
  set (q := nb / 32). set (r := nb mod 32). assert (Enb : nb = 32 * q + r) by lia.
  assert (Hlen : 0 <= len x) by (unfold len; lia).
  assert (Hmul : forall k, 0 <= k -> value x * 2 ^ nb / 2 ^ k =
    if k <=? nb then value x * 2 ^ (nb - k) else value x / 2 ^ (k - nb)).
  { intros k Hk. pose proof (pow2_pos k Hk). case_Z.
    - replace (2 ^ nb) with (2 ^ (nb - k) * 2 ^ k) by (rewrite <- Z.pow_add_r by lia; f_equal; lia).
      rewrite Z.mul_assoc, Z.div_mul by lia. done.
    - replace (2 ^ k) with (2 ^ (k - nb) * 2 ^ nb) by (rewrite <- Z.pow_add_r by lia; f_equal; lia).
      apply Z.div_mul_cancel_r; apply Z.pow_nonzero; lia. }
  apply constructor_of_words; [destruct (0 <? r); lia| |done|].
  - intros i Hi. rewrite Hmul by lia. destruct (Z.ltb_spec 0 r) as [Hr|Hr].
    + rewrite funnel by lia. destruct (Z.lt_trichotomy i q) as [Hiq|[Hiq|Hiq]].
      * rewrite (proj2 (Z.leb_le _ _)) by lia. rewrite !getBits_neg by lia.
        replace (nb - 32 * i) with ((nb - 32 * i - 32) + 32) by lia.
        rewrite Z.pow_add_r, Z.mul_assoc, Z.mod_mul by lia. simpl.
        rewrite Z.div_0_l by (apply Z.pow_nonzero; lia). done.
      * rewrite (proj2 (Z.leb_le _ _)) by lia. rewrite (getBits_neg _ (i - q - 1)) by lia.
        rewrite Z.mod_0_l, Z.div_0_l, Z.add_0_r by (try apply Z.pow_nonzero; lia).
        rewrite <- Z.mul_mod_idemp_l, getBits_word, Z.mul_mod_idemp_l by (done || lia).
        replace (i - q) with 0 by lia. change (2 ^ (32 * 0)) with 1. rewrite Z.div_1_r.
        do 3 f_equal. lia.
      * rewrite (proj2 (Z.leb_gt _ _)) by lia.
        rewrite <- Z.add_mod_idemp_l, <- Z.mul_mod_idemp_l, !getBits_word by (done || lia).
        rewrite Z.mul_mod_idemp_l, Z.add_mod_idemp_l, Z.add_comm by lia.
        replace (32 * (i - q)) with (32 * (i - q - 1) + 32) by lia.
        rewrite div_split_low by lia. do 3 f_equal. lia.
    + destruct (Z.lt_ge_cases i q).
      * rewrite (proj2 (Z.leb_le _ _)), getBits_neg by lia.
        replace (nb - 32 * i) with ((nb - 32 * i - 32) + 32) by lia.
        rewrite Z.pow_add_r, Z.mul_assoc, Z.mod_mul by lia. done.
      * rewrite getBits_word by (done || lia). case_Z.
        -- replace (32 * (i - q)) with 0 by lia. replace (nb - 32 * i) with 0 by lia.
           by rewrite Z.div_1_r, Z.mul_1_r.
        -- do 3 f_equal. lia.
  - rewrite Hmul by (destruct (0 <? r); lia). destruct (Z.ltb_spec 0 r).
    + rewrite (proj2 (Z.leb_gt _ _)) by lia.
      replace (32 * (len x + q + 1) - nb) with (32 * len x + (32 - r)) by lia.
      rewrite Z.pow_add_r, <- Z.div_div by (try apply pow2_pos; lia).
      by rewrite value_div_high, sign_div by (done || lia).
    + case_Z.
      * assert (len x = 0) as E0 by lia. replace (nb - 32 * (len x + q + 0)) with 0 by lia.
        pose proof (value_div_high x 0 Sx ltac:(lia)) as Hv. rewrite Z.div_1_r in Hv. lia.
      * replace (32 * (len x + q + 0) - nb) with (32 * len x) by lia.
        by rewrite value_div_high by (done || lia).
Qed.

(** ** Conversions from and to Number *)

Lemma num_scale_trunc x k :
  0 <= k -> 0 <= num_trunc x -> num_ltZ x 0 = false ->
  num_trunc (num_scale x k) = num_trunc x / 2 ^ k.
Proof.
  intros Hk Ht Hlt. pose proof (pow2_pos k Hk) as Pk.
  destruct x as [s|s| |s m e]; cbn [num_scale num_trunc] in *; try (by rewrite Z.div_0_l by lia).
  destruct s.
  { exfalso. unfold num_ltZ, num_cmpZ in Hlt. rewrite Z.mul_0_l in Hlt.
    pose proof (pow2_pos (Z.max e 0) ltac:(lia)).
    rewrite (proj2 (Z.compare_lt_iff _ 0)) in Hlt by nia. discriminate. }
  destruct (Z.leb_spec 0 e), (Z.leb_spec 0 (e - k)); try lia.
  - replace (2 ^ e) with (2 ^ (e - k) * 2 ^ k) by (rewrite <- Z.pow_add_r by lia; f_equal; lia).
    rewrite Z.mul_assoc, Z.div_mul by lia. done.
  - replace (2 ^ k) with (2 ^ (- (e - k)) * 2 ^ e) by (rewrite <- Z.pow_add_r by lia; f_equal; lia).
    rewrite Z.div_mul_cancel_r by (apply Z.pow_nonzero; lia). done.
  - rewrite Z.div_div by (try apply pow2_pos; lia). rewrite <- Z.pow_add_r by lia.
    do 2 f_equal. lia.
Qed.

Lemma num_geZ_trunc x z :
  is_finite x = true -> 0 < z -> num_geZ x z = (z <=? num_trunc x).
Proof.
  intros Hf Hz. unfold num_geZ. destruct x as [s|s| |s m e]; try discriminate.
  - cbn [num_cmpZ num_trunc]. destruct (Z.compare_spec 0 z); lia.
  - cbn [num_cmpZ num_trunc]. destruct s.
    { assert (Hle : (if 0 <=? e then Z.pos m * 2 ^ e else Z.pos m / 2 ^ (- e)) >= 0).
      { destruct (Z.leb_spec 0 e);
          [pose proof (pow2_pos e ltac:(lia)); nia|apply Z.le_ge, Z.div_pos; [lia|apply pow2_pos; lia]]. }
      pose proof (pow2_pos (Z.max e 0) ltac:(lia)). pose proof (pow2_pos (Z.max (- e) 0) ltac:(lia)).
      rewrite (proj2 (Z.compare_lt_iff _ _)) by nia. symmetry. apply Z.leb_gt. lia. }
    destruct (Z.leb_spec 0 e).
    + rewrite Z.max_l, (Z.max_r (- e)), Z.mul_1_r by lia.
      destruct (Z.compare_spec (Z.pos m * 2 ^ e) z); symmetry;
        (apply Z.leb_le; lia) || (apply Z.leb_gt; lia).
    + rewrite Z.max_r, (Z.max_l (- e)), Z.mul_1_r by lia.
      pose proof (pow2_pos (- e) ltac:(lia)) as Pe.
      pose proof (Z.div_mod (Z.pos m) (2 ^ (- e)) ltac:(lia)) as Hdm.
      pose proof (Z.mod_pos_bound (Z.pos m) (2 ^ (- e)) Pe) as Hmb.
      destruct (Z.compare_spec (Z.pos m) (z * 2 ^ (- e))); symmetry;
        (apply Z.leb_le; nia) || (apply Z.leb_gt; nia).
Qed.

Lemma fromNumber_loop_words fuel i x :
  is_finite x = true -> num_ltZ x 0 = false -> 0 <= num_trunc x -> 0 <= i ->
  num_trunc x < 2 ^ (32 * (i + Z.of_nat fuel)) ->
  words_val (fromNumber_loop fuel i x) = num_trunc x / 2 ^ (32 * i).
Proof.
  intros Hf Hlt H0. revert i. induction fuel as [|fuel IH]; intros i Hi Hb;
    pose proof (pow32_pos i Hi); cbn [fromNumber_loop].
  - simpl. rewrite Z.div_small; [done|]. rewrite Z.add_0_r in Hb. lia.
  - rewrite num_geZ_trunc by done. destruct (Z.leb_spec (2 ^ (32 * i)) (num_trunc x)).
    + cbn [words_val]. rewrite IH; [|lia|by replace (i + 1 + Z.of_nat fuel)
        with (i + Z.of_nat (S fuel)) by lia].
      rewrite num_scale_trunc by (done || lia).
      replace (32 * (i + 1)) with (32 * i + 32) by lia.
      rewrite Z.pow_add_r, <- Z.div_div by lia. unfold to_int32. lia.
    + simpl. by rewrite Z.div_small.
Qed.

Lemma fromNumber_nonneg_value x :
  is_finite x = true -> num_ltZ x 0 = false -> 0 <= num_trunc x < 2 ^ 1024 ->
  value (fromNumber_nonneg x) = num_trunc x.
Proof.
  intros Hf Hlt Hx. unfold fromNumber_nonneg. rewrite constructor_value by by left.
  assert (2 ^ 1024 < 2 ^ (32 * (0 + Z.of_nat 33))) by (apply Z.pow_lt_mono_r; lia).
  rewrite fromNumber_loop_words by (done || lia).
  change (2 ^ (32 * 0)) with 1. rewrite Z.div_1_r. lia.
Qed.

Lemma num_ltZ_opp x : is_finite x = true -> num_ltZ x 0 = true ->
  num_ltZ (SFopp x) 0 = false /\ num_trunc (SFopp x) = - num_trunc x /\ 0 <= - num_trunc x.
Proof.
  destruct x as [s|s| |s m e]; try discriminate. intros _. unfold num_ltZ. cbn [num_cmpZ SFopp].
  pose proof (pow2_pos (Z.max e 0) ltac:(lia)). rewrite Z.mul_0_l. destruct s; cbn [negb].
  - intros _. rewrite (proj2 (Z.compare_gt_iff _ 0)) by nia. cbn [num_trunc].
    split; [done|]. split; [lia|]. rewrite Z.opp_involutive.
    destruct (Z.leb_spec 0 e); [pose proof (pow2_pos e ltac:(lia)); nia|].
    apply Z.div_pos; [lia|apply pow2_pos; lia].
  - rewrite (proj2 (Z.compare_gt_iff _ 0)) by nia. discriminate.
Qed.

Lemma num_trunc_nonneg x : is_finite x = true -> num_ltZ x 0 = false -> 0 <= num_trunc x.
Proof.
  destruct x as [s|s| |s m e]; try done. intros _. unfold num_ltZ. cbn [num_cmpZ num_trunc].
  pose proof (pow2_pos (Z.max e 0) ltac:(lia)). rewrite Z.mul_0_l. destruct s.
  - rewrite (proj2 (Z.compare_lt_iff _ 0)) by nia. discriminate.
  - intros _. destruct (Z.leb_spec 0 e); [pose proof (pow2_pos e ltac:(lia)); nia|].
    apply Z.div_pos; [lia|apply pow2_pos; lia].
Qed.

(** Only the integer part below [2^1024] matters, which every finite Number has. *)
Lemma fromNumber_value x :
  is_finite x = true -> Z.abs (num_trunc x) < 2 ^ 1024 -> value (fromNumber x) = num_trunc x.
Proof.
  intros Hf Hb. unfold fromNumber. rewrite Hf.
  replace (is_nan x) with false by by destruct x. cbn [orb negb].
  assert (Hwf : forall y, wf (fromNumber_nonneg y)).
  { intros y. unfold fromNumber_nonneg. apply constructor_wf. by left. }
  destruct (num_ltZ x 0) eqn:Hlt.
  - destruct (num_ltZ_opp x Hf Hlt) as (H1 & H2 & H3).
    rewrite negate_value, fromNumber_nonneg_value by
      (done || lia || by destruct x). lia.
  - pose proof (num_trunc_nonneg x Hf Hlt). apply fromNumber_nonneg_value; (done || lia).
Qed.

Lemma fromNumber_wf x : wf (fromNumber x).
Proof.
  unfold fromNumber. destruct (_ || _); [auto with integer|].
  destruct (num_ltZ x 0); [auto with integer|].
  unfold fromNumber_nonneg. apply constructor_wf. by left.
Qed.

#[export] Hint Resolve fromNumber_wf : integer.

Lemma safe_finite z : safe_int z -> is_finite (num_of_Z z) = true.
Proof.
  intros Hz. destruct (decide (z = 0)) as [->|Hnz]; [done|].
  by destruct (num_of_Z_finite z Hz Hnz) as (m & k & -> & _).
Qed.

Lemma fromNumber_of_Z z : safe_int z -> value (fromNumber (num_of_Z z)) = z.
Proof.
  intros Hz. rewrite fromNumber_value, num_trunc_of_Z by (try apply safe_finite; try done;
    rewrite num_trunc_of_Z by done; unfold safe_int in Hz;
    assert (2 ^ 53 < 2 ^ 1024) by (apply Z.pow_lt_mono_r; lia); lia). done.
Qed.

(** A small non-negative value has at most one piece. *)
Lemma small_bits x : wf x -> 0 <= value x < 2 ^ 32 -> (length (bits x) <= 1)%nat /\ sign x = 0.
Proof.
  intros (Hs & Hb & Ht) Hv. pose proof (sign_value x Hs) as E.
  rewrite (proj2 (Z.ltb_ge _ 0)) in E by lia. split; [|done].
  destruct (rev (bits x)) as [|w r] eqn:Er.
  { apply (f_equal (@length Z)) in Er. rewrite length_rev in Er. simpl in Er. lia. }
  assert (Ea : bits x = rev r ++ [w]) by (rewrite <- (rev_involutive (bits x)), Er; done).
  rewrite Ea, length_app, length_rev. simpl. destruct r as [|u r]; [simpl; lia|].
  exfalso. unfold top_ne in Ht. rewrite Er, E in Ht.
  unfold value in Hv. rewrite E, Z.mul_0_l, Z.add_0_r, Ea, words_val_app, length_rev in Hv.
  rewrite Ea in Hb. apply Forall_app in Hb as [_ Hw]. apply Forall_cons_1 in Hw as [Hw _].
  cbn [words_val length] in Hv. rewrite pow32_S in Hv.
  pose proof (pow32_pos (Z.of_nat (length r)) ltac:(lia)).
  pose proof (words_val_range (rev (u :: r))).
  assert (1 <= w mod 2 ^ 32) by (unfold int32 in Hw; lia). nia.
Qed.

Lemma toNumber_small x :
  wf x -> 0 <= value x < 2 ^ 32 -> toNumber x = num_of_Z (value x).
Proof.
  intros Hx Hv. destruct (small_bits x Hx Hv) as [Hl Hs].
  unfold toNumber. rewrite isNegative_value, (proj2 (Z.ltb_ge _ 0)) by (apply Hx || lia).
  unfold toNumber_nonneg. destruct x as [[|w [|]] s]; simpl in Hl, Hs; subst s; [done| |lia].
  cbn [length bits toNumber_loop]. unfold value in *. cbn [bits sign words_val] in *.
  assert (Ev : w mod 2 ^ 32 + 2 ^ 32 * 0 + 0 * 2 ^ (32 * len (mk [w] 0)) = w mod 2 ^ 32) by lia.
  rewrite Ev in *.
  assert (getBitsUnsigned (mk [w] 0) 0 = w mod 2 ^ 32) as ->.
  { destruct Hx as (_ & Hb & _). apply Forall_cons_1 in Hb as [Hb _].
    unfold getBitsUnsigned, getBits, int32 in *. simpl. case_Z; lia. }
  rewrite num_mul_Z, Z.mul_1_r by (unfold safe_int; lia).
  rewrite num_add_Z by (unfold safe_int; lia). done.
Qed.

(** ** Multiplication *)

Fixpoint val16 (arr : list Z) : Z :=
  match arr with [] => 0 | v :: arr => v + 2 ^ 16 * val16 arr end.

Definition half (v : Z) : Prop := 0 <= v < 2 ^ 16.

Lemma pow16_S (n : nat) : 2 ^ (16 * Z.of_nat (S n)) = 2 ^ 16 * 2 ^ (16 * Z.of_nat n).
Proof. rewrite <- Z.pow_add_r by lia. f_equal. lia. Qed.

Lemma bump_app pre v c arr k :
  k = length pre -> bump (pre ++ v :: arr) k c = pre ++ (c + v) :: arr.
Proof. intros ->. unfold bump. rewrite alter_app_r_alt, Nat.sub_diag by lia. done. Qed.

Lemma carry16_app pre v w arr k :
  k = length pre -> 0 <= v < 2 ^ 32 ->
  carry16 (pre ++ v :: w :: arr) k = pre ++ v mod 2 ^ 16 :: v / 2 ^ 16 + w :: arr.
Proof.
  intros -> Hv. unfold carry16. rewrite lookup_app_r, Nat.sub_diag by lia.
  change (default 0 ((v :: w :: arr) !! 0%nat)) with v.
  rewrite js_and_65535, js_ushr_div, (Z.mod_small v (2 ^ 32)) by lia.
  change 65536 with (2 ^ 16). destruct (Z.eqb_spec (v mod 2 ^ 16) v) as [E|E].
  - f_equal. rewrite E. do 2 f_equal. lia.
  - replace (pre ++ v :: w :: arr) with ((pre ++ [v]) ++ w :: arr) by by rewrite <- app_assoc.
    rewrite bump_app by (rewrite length_app; simpl; lia).
    rewrite <- app_assoc. cbn [app].
    rewrite insert_app_r_alt, Nat.sub_diag by lia. done.
Qed.

(** One product of 32-bit pieces, added at position [k]: exact as long as the two
    halves already there are reduced and the next two are clear. *)
Lemma mul_step_ok a b pre x0 x1 post :
  half x0 -> half x1 ->
  exists y0 y1 y2 y3,
    mul_step a b (length pre) (pre ++ x0 :: x1 :: 0 :: 0 :: post)
      = pre ++ y0 :: y1 :: y2 :: y3 :: post /\
    half y0 /\ half y1 /\ half y2 /\ half y3 /\
    y0 + 2 ^ 16 * (y1 + 2 ^ 16 * (y2 + 2 ^ 16 * y3)) =
      x0 + 2 ^ 16 * x1 + a mod 2 ^ 32 * (b mod 2 ^ 32).
Proof.
  unfold half. intros H0 H1. unfold mul_step.
  rewrite !js_ushr_div, !js_and_65535 by lia. change 65536 with (2 ^ 16).
  assert (Ha : exists a1 a0, a mod 2 ^ 32 / 2 ^ 16 = a1 /\ a mod 2 ^ 16 = a0 /\
    a mod 2 ^ 32 = a1 * 2 ^ 16 + a0 /\ 0 <= a1 < 2 ^ 16 /\ 0 <= a0 < 2 ^ 16)
    by (do 2 eexists; split_and!; [reflexivity|reflexivity|lia..]).
  assert (Hb : exists b1 b0, b mod 2 ^ 32 / 2 ^ 16 = b1 /\ b mod 2 ^ 16 = b0 /\
    b mod 2 ^ 32 = b1 * 2 ^ 16 + b0 /\ 0 <= b1 < 2 ^ 16 /\ 0 <= b0 < 2 ^ 16)
    by (do 2 eexists; split_and!; [reflexivity|reflexivity|lia..]).
  destruct Ha as (a1 & a0 & -> & -> & -> & Ha1 & Ha0).
  destruct Hb as (b1 & b0 & -> & -> & -> & Hb1 & Hb0).
  assert (P00 : 0 <= a0 * b0 <= (2 ^ 16 - 1) * (2 ^ 16 - 1)) by nia.
  assert (P10 : 0 <= a1 * b0 <= (2 ^ 16 - 1) * (2 ^ 16 - 1)) by nia.
  assert (P01 : 0 <= a0 * b1 <= (2 ^ 16 - 1) * (2 ^ 16 - 1)) by nia.
  assert (P11 : 0 <= a1 * b1 <= (2 ^ 16 - 1) * (2 ^ 16 - 1)) by nia.
  replace ((a1 * 2 ^ 16 + a0) * (b1 * 2 ^ 16 + b0)) with
    (a0 * b0 + 2 ^ 16 * (a1 * b0 + a0 * b1) + 2 ^ 32 * (a1 * b1)) by ring.
  generalize dependent (a0 * b0). generalize dependent (a1 * b0).
  generalize dependent (a0 * b1). generalize dependent (a1 * b1).
  clear -H0 H1. intros p11 P11 p01 P01 p10 P10 p00 P00.
  rewrite bump_app, carry16_app by (lia || done).
  rewrite (cons_middle ((p00 + x0) mod 2 ^ 16)), app_assoc.
  rewrite bump_app, carry16_app by (rewrite ?length_app; simpl; lia).
  rewrite bump_app, carry16_app by (rewrite ?length_app; simpl; lia).
  set (y1 := (p01 + _) mod 2 ^ 16).
  rewrite (cons_middle y1), app_assoc.
  rewrite bump_app, carry16_app by (rewrite ?length_app; subst y1; simpl; lia).
  rewrite <- !app_assoc. cbn [app]. do 4 eexists. split; [reflexivity|]. subst y1.
  split_and!; lia.
Qed.

(** A row or a column of products: one operand has a single piece. *)
Lemma mul_chain (step : Z -> nat -> list Z -> list Z) a ws pre x0 x1 :
  (forall w k arr, step w k arr = mul_step a w k arr \/ step w k arr = mul_step w a k arr) ->
  half x0 -> half x1 ->
  exists ys,
    mul_loop step ws (length pre, pre ++ x0 :: x1 :: replicate (2 * length ws) 0)
    = ((length pre + 2 * length ws)%nat, pre ++ ys) /\
    length ys = (2 + 2 * length ws)%nat /\ Forall half ys /\
    val16 ys = x0 + 2 ^ 16 * x1 + a mod 2 ^ 32 * words_val ws.
Proof.
  intros Hstep. revert pre x0 x1. induction ws as [|w ws IH]; intros pre x0 x1 H0 H1.
  - exists [x0; x1]. unfold mul_loop. cbn [fold_left length Nat.mul replicate words_val val16].
    split; [do 2 f_equal; lia|]. split; [done|]. split; [eauto using Forall_cons_2, Forall_nil_2|lia].
  - unfold mul_loop. cbn [fold_left length]. replace (2 * S (length ws))%nat with (S (S (2 * length ws))) by lia.
    cbn [replicate fst snd].
    assert (Hms : exists y0 y1 y2 y3,
      step w (length pre) (pre ++ x0 :: x1 :: 0 :: 0 :: replicate (2 * length ws) 0)
      = pre ++ y0 :: y1 :: y2 :: y3 :: replicate (2 * length ws) 0 /\
      half y0 /\ half y1 /\ half y2 /\ half y3 /\
      y0 + 2 ^ 16 * (y1 + 2 ^ 16 * (y2 + 2 ^ 16 * y3)) =
        x0 + 2 ^ 16 * x1 + a mod 2 ^ 32 * (w mod 2 ^ 32)).
    { destruct (Hstep w (length pre) (pre ++ x0 :: x1 :: 0 :: 0 :: replicate (2 * length ws) 0))
        as [-> | ->].
      - apply mul_step_ok; done.
      - rewrite (Z.mul_comm (a mod _)). apply mul_step_ok; done. }
    destruct Hms as (y0 & y1 & y2 & y3 & -> & Y0 & Y1 & Y2 & Y3 & Hv).
    destruct (IH (pre ++ [y0; y1]) y2 y3 Y2 Y3) as (ys & E & Hl & Hh & Hval).
    exists (y0 :: y1 :: ys).
    rewrite length_app, <- !app_assoc in E. cbn [length app] in E. unfold mul_loop in E. rewrite E.
    split_and!.
    + f_equal. lia.
    + cbn [length]. lia.
    + eauto using Forall_cons_2.
    + cbn [val16 words_val]. rewrite Hval. nia.
Qed.

Lemma val16_zero n : val16 (replicate n 0) = 0.
Proof. induction n as [|n IH]; [done|]. cbn [replicate val16]. lia. Qed.

Lemma words_val_zeros n : words_val (replicate n 0) = 0.
Proof. induction n as [|n IH]; [done|]. cbn [replicate words_val]. rewrite IH. done. Qed.

Lemma combine16_val n arr :
  length arr = (2 * n)%nat -> Forall half arr ->
  words_val (combine16 arr) = val16 arr /\ length (combine16 arr) = n.
Proof.
  revert arr. induction n as [|n IH]; intros arr Hl Hh.
  { destruct arr; [done|simpl in Hl; lia]. }
  destruct arr as [|lo [|hi arr]]; try (simpl in Hl; lia).
  apply Forall_cons_1 in Hh as [Hlo Hh]. apply Forall_cons_1 in Hh as [Hhi Hh].
  cbn [combine16 words_val val16 length].
  destruct (IH arr ltac:(simpl in Hl; lia) Hh) as [-> ->]. split; [|done].
  unfold half in *. rewrite js_shl_mul by lia. unfold js_or.
  rewrite to_int32_idem, (to_int32_id lo) by (unfold int32; lia).
  replace (to_int32 (hi * 2 ^ 16)) with (to_int32 (hi * 2 ^ 16) / 2 ^ 16 * 2 ^ 16)
    by (unfold to_int32; lia).
  rewrite lor_mul_add by lia. unfold to_int32. lia.
Qed.

(** The word-by-word product is exact when an operand has at most one piece. *)
Lemma multiply_words_value x y :
  sign x = 0 -> sign y = 0 ->
  (length (bits x) <= 1)%nat \/ (length (bits y) <= 1)%nat ->
  value (multiply_words x y) = value x * value y.
Proof.
  intros Sx Sy Hl. unfold value at 2 3. rewrite Sx, Sy, !Z.mul_0_l, !Z.add_0_r.
  assert (Hc : exists arr, mul_rows (bits x) (bits y) 0
      (replicate (2 * (length (bits x) + length (bits y))) 0) = arr /\
    length arr = (2 * (length (bits x) + length (bits y)))%nat /\ Forall half arr /\
    val16 arr = words_val (bits x) * words_val (bits y)).
  { eexists. split; [reflexivity|].
    assert (Hz : half 0) by (unfold half; lia).
    assert (Hzs : forall n, Forall half (replicate n 0)) by (intros; by apply Forall_replicate).
    assert (Hnil : forall xs k arr, mul_rows xs [] k arr = arr).
    { clear. unfold mul_rows, mul_loop. induction xs as [|a xs IH]; intros; [done|].
      cbn [fold_left fst snd]. apply IH. }
    destruct Hl as [Hl|Hl].
    - destruct (bits x) as [|a [|]]; [|clear Hl|simpl in Hl; lia].
      + unfold mul_rows, mul_loop. cbn [fold_left snd words_val]. rewrite val16_zero, length_replicate. auto.
      + unfold mul_rows, mul_loop. cbn [fold_left fst snd length]. unfold mul_row.
        replace (2 * (1 + length (bits y)))%nat with (S (S (2 * length (bits y)))) by lia.
        cbn [replicate].
        destruct (mul_chain (mul_step a) a (bits y) [] 0 0) as (ys & E & L & H & V);
          [auto|done|done|].
        cbn [length app] in E. rewrite E. cbn [snd words_val]. rewrite V.
        split; [rewrite L; lia|]. split; [done|lia].
    - destruct (bits y) as [|b [|]]; [|clear Hl|simpl in Hl; lia].
      + rewrite Hnil. cbn [words_val]. rewrite val16_zero, length_replicate, Z.mul_0_r. auto.
      + unfold mul_rows.
        replace (2 * (length (bits x) + length [b]))%nat with (S (S (2 * length (bits x))))
          by (simpl; lia).
        cbn [replicate].
        destruct (mul_chain (fun w => mul_row w [b]) b (bits x) [] 0 0) as (ys & E & L & H & V);
          [auto|done|done|].
        cbn [length app] in E. rewrite E. cbn [snd words_val]. rewrite V.
        split; [rewrite L; lia|]. split; [done|lia]. }
  destruct Hc as (arr & E & Hlen & Hh & Hv). unfold multiply_words. rewrite E.
  rewrite constructor_value by by left. rewrite words_val_app, words_val_zeros.
  destruct (combine16_val _ _ Hlen Hh) as [-> _]. lia.
Qed.

Lemma multiply_nonneg_value x y :
  wf x -> wf y -> 0 <= value x -> 0 <= value y -> value x < 2 ^ 32 \/ value y < 2 ^ 32 ->
  value (multiply_nonneg x y) = value x * value y.
Proof.
  intros Hx Hy Px Py Hs. unfold multiply_nonneg. rewrite !isZero_value by done.
  destruct (Z.eqb_spec (value x) 0) as [->|Nx]; [done|].
  destruct (Z.eqb_spec (value y) 0) as [->|Ny]; [by rewrite Z.mul_0_r|].
  assert (H24 : wf TWO_PWR_24 /\ value TWO_PWR_24 = 2 ^ 24).
  { unfold TWO_PWR_24. change (js_shl 1 24) with (2 ^ 24). split; [auto with integer|].
    apply fromInt_value. unfold int32. lia. }
  destruct H24 as [W24 V24]. rewrite !lessThan_value, V24 by done.
  destruct (Z.ltb_spec (value x) (2 ^ 24)), (Z.ltb_spec (value y) (2 ^ 24)); cbn [andb].
  1: { rewrite (toNumber_small x Hx), (toNumber_small y Hy) by lia.
    assert (0 < value x * value y < 2 ^ 48) by nia.
    rewrite num_mul_Z by (unfold safe_int; lia).
    apply fromNumber_of_Z. unfold safe_int. lia. }
  all: apply multiply_words_value.
  all: try (rewrite sign_value, (proj2 (Z.ltb_ge _ 0)) by (apply Hx || apply Hy || lia); done).
  all: destruct Hs;
    [left; exact (proj1 (small_bits x Hx ltac:(lia)))|right; exact (proj1 (small_bits y Hy ltac:(lia)))].
Qed.

Lemma multiply_nonneg_wf x y : wf (multiply_nonneg x y).
Proof.
  unfold multiply_nonneg. destruct (isZero x); [auto with integer|].
  destruct (isZero y); [auto with integer|]. destruct (_ && _); [auto with integer|].
  unfold multiply_words. apply constructor_wf. by left.
Qed.

Lemma multiply_wf x y : wf (multiply x y).
Proof.
  unfold multiply. destruct (isZero x); [auto with integer|].
  destruct (isZero y); [auto with integer|].
  destruct (isNegative x), (isNegative y); auto using multiply_nonneg_wf with integer.
Qed.

#[export] Hint Resolve multiply_wf multiply_nonneg_wf : integer.

Lemma multiply_value_small x y :
  wf x -> wf y -> Z.abs (value x) < 2 ^ 32 \/ Z.abs (value y) < 2 ^ 32 ->
  value (multiply x y) = value x * value y.
Proof.
  intros Hx Hy Hs. unfold multiply. rewrite !isZero_value by done.
  destruct (Z.eqb_spec (value x) 0) as [->|Nx]; [done|].
  destruct (Z.eqb_spec (value y) 0) as [->|Ny]; [by rewrite Z.mul_0_r|].
  rewrite !isNegative_value by (apply Hx || apply Hy).
  destruct (Z.ltb_spec (value x) 0), (Z.ltb_spec (value y) 0);
    rewrite ?negate_value, ?multiply_nonneg_value, ?negate_value
      by (rewrite ?negate_value by done; auto with integer; lia); lia.
Qed.

(** ** Truncation to a width *)

Lemma shorten_top V b :
  0 <= b < 32 -> int32 V ->
  let sig := if b =? 31 then 4294967295 else js_shl 1 (b + 1) - 1 in
  let val := js_and V sig in
  (val mod 2 ^ 32 = V mod 2 ^ (b + 1)) /\
  (js_and val (js_shl 1 b) =? 0) = (V mod 2 ^ (b + 1) <? 2 ^ b) /\
  (2 ^ b <= V mod 2 ^ (b + 1) ->
   js_or val (4294967295 - sig) mod 2 ^ 32 = V mod 2 ^ (b + 1) + 2 ^ 32 - 2 ^ (b + 1)).
Proof.
  intros Hb HV sig val.
  assert (Hsig : to_int32 sig = if b =? 31 then -1 else 2 ^ (b + 1) - 1).
  { subst sig. destruct (Z.eqb_spec b 31); [done|]. unfold js_shl. rewrite Z.mod_small by lia.
    change (to_int32 1) with 1. rewrite Z.shiftl_1_l.
    assert (2 ^ (b + 1) <= 2 ^ 31) by (apply Z.pow_le_mono_r; lia).
    pose proof (pow2_pos (b + 1) ltac:(lia)). unfold to_int32. lia. }
  assert (Hosig : to_int32 (4294967295 - sig) = - (to_int32 sig) - 1) by (unfold to_int32; lia).
  assert (Hval : val = if b =? 31 then V else V mod 2 ^ (b + 1)).
  { subst val. unfold js_and. rewrite Hsig, to_int32_id by done.
    destruct (Z.eqb_spec b 31); [apply Z.land_m1_r|].
    replace (2 ^ (b + 1) - 1) with (Z.ones (b + 1)) by (rewrite Z.ones_equiv; lia).
    apply Z.land_ones. lia. }
  clearbody val sig.
  destruct (Z.eqb_spec b 31) as [->|Hb31].
  - subst val. change (2 ^ (31 + 1)) with (2 ^ 32). change (js_shl 1 31) with (- 2 ^ 31).
    split; [done|]. split.
    + unfold js_and. rewrite (to_int32_id V), (to_int32_id (- 2 ^ 31)) by (done || unfold int32; lia).
      replace (Z.land V (- 2 ^ 31)) with (V / 2 ^ 31 * 2 ^ 31).
      * unfold int32 in HV. case_Z; case_Z; lia.
      * change (- 2 ^ 31) with (Z.lnot (Z.ones 31)).
        rewrite <- Z.ldiff_land, Z.ldiff_ones_r, Z.shiftl_mul_pow2, Z.shiftr_div_pow2 by lia. done.
    + intros _. unfold js_or. rewrite Hosig, Hsig, to_int32_id by done.
      change (- -1 - 1) with 0. rewrite Z.lor_0_r. lia.
  - assert (Hp : 2 ^ (b + 1) <= 2 ^ 31) by (apply Z.pow_le_mono_r; lia).
    assert (Hp1 : 2 ^ (b + 1) = 2 * 2 ^ b) by (rewrite <- Z.pow_succ_r by lia; f_equal; lia).
    pose proof (pow2_pos b ltac:(lia)). pose proof (Z.mod_pos_bound V (2 ^ (b + 1)) ltac:(lia)) as Hm.
    rewrite Hval. generalize dependent (V mod 2 ^ (b + 1)). intros m _ Hm.
    split; [lia|]. split.
    + assert (Hs : to_int32 (js_shl 1 b) = 2 ^ b).
      { unfold js_shl. rewrite Z.mod_small by lia. change (to_int32 1) with 1.
        rewrite Z.shiftl_1_l, to_int32_idem, to_int32_id by (unfold int32; lia). done. }
      unfold js_and. rewrite Hs, to_int32_id by (unfold int32; lia).
      destruct (Z.ltb_spec m (2 ^ b)).
      * apply Z.eqb_eq. rewrite Z.land_comm.
        rewrite <- (Z.mul_1_l (2 ^ b)), <- Z.shiftl_mul_pow2 by lia. apply land_disjoint_shiftl; lia.
      * apply Z.eqb_neq. intros E. apply (f_equal (fun z => Z.testbit z b)) in E.
        rewrite Z.land_spec, Z.pow2_bits_true, Z.bits_0, andb_true_r in E by lia.
        rewrite Z.testbit_eqb in E by lia. apply Z.eqb_neq in E. apply E.
        rewrite <- (Z.div_unique m (2 ^ b) 1 (m - 2 ^ b)); lia.
    + intros Hge. unfold js_or. rewrite Hosig, Hsig, to_int32_id by (unfold int32; lia).
      replace (- (2 ^ (b + 1) - 1) - 1) with ((-1) * 2 ^ (b + 1)) by lia.
      rewrite Z.lor_comm, lor_mul_add by lia. lia.
Qed.

Lemma shorten_value x nb :
  wf x -> 0 < nb < 2 ^ 31 -> value (shorten x nb) = asIntN nb (value x).
Proof.
  intros Hx Hnb. unfold shorten. destruct (shift_split (nb - 1) ltac:(lia)) as [-> ->].
  set (q := (nb - 1) / 32). set (b := (nb - 1) mod 32). set (v := value x).
  assert (Enb : nb = 32 * q + (b + 1)) by lia.
  assert (Hq : 0 <= q) by lia. assert (Hb : 0 <= b < 32) by lia.
  pose proof (getBits_int32 x q Hx) as HV.
  destruct (shorten_top (getBits x q) b Hb HV) as (Hval & Htest & Hor).
  assert (HVm : getBits x q mod 2 ^ (b + 1) = v / 2 ^ (32 * q) mod 2 ^ (b + 1)).
  { pose proof (getBits_word x q (proj1 Hx) Hq) as E. fold v in E.
    assert (Hd : forall z, z mod 2 ^ 32 mod 2 ^ (b + 1) = z mod 2 ^ (b + 1)).
    { intros z. apply Z.mod_mod_divide.
      exists (2 ^ (32 - (b + 1))). rewrite <- Z.pow_add_r by lia. f_equal. lia. }
    by rewrite <- Hd, E, Hd. }
  rewrite HVm in *.
  assert (Hlow : words_val (tabulate q (getBits x)) = v mod 2 ^ (32 * q)).
  { apply tabulate_val; [done|]. intros. apply getBits_word; [apply Hx|lia]. }
  assert (Hw : forall w s, is_sign s ->
    value (constructor (tabulate q (getBits x) ++ [w]) s)
    = v mod 2 ^ (32 * q) + 2 ^ (32 * q) * (w mod 2 ^ 32 + s * 2 ^ 32)).
  { intros w s Hs. rewrite constructor_value, words_val_app, Hlow, length_app by done.
    rewrite Nat2Z.inj_add, tabulate_length by done. cbn [words_val length].
    replace (32 * (q + Z.of_nat 1)) with (32 * q + 32) by lia. rewrite Z.pow_add_r by lia. ring. }
  assert (Hv : v mod 2 ^ nb = v mod 2 ^ (32 * q) + 2 ^ (32 * q) * (v / 2 ^ (32 * q) mod 2 ^ (b + 1))).
  { rewrite Enb, Z.pow_add_r by lia. apply Z.rem_mul_r; [apply Z.pow_nonzero; lia|apply pow2_pos; lia]. }
  pose proof (pow32_pos q Hq) as Pq.
  pose proof (Z.mod_pos_bound v (2 ^ (32 * q)) Pq) as Hmq.
  assert (Hp2 : 2 ^ nb = 2 ^ (32 * q) * 2 ^ (b + 1)) by (rewrite Enb; apply Z.pow_add_r; lia).
  assert (Hp1 : 2 ^ (nb - 1) = 2 ^ (32 * q) * 2 ^ b) by (rewrite <- Z.pow_add_r by lia; f_equal; lia).
  assert (Hb2 : 2 ^ (b + 1) = 2 * 2 ^ b) by (rewrite <- Z.pow_succ_r by lia; f_equal; lia).
  assert (Has : asIntN nb v = signed nb (v mod 2 ^ nb)).
  { unfold asIntN, signed. pose proof (pow2_pos (nb - 1) ltac:(lia)) as Pn.
    assert (2 ^ nb = 2 * 2 ^ (nb - 1)) by (rewrite <- Z.pow_succ_r by lia; f_equal; lia).
    pose proof (Z.mod_pos_bound v (2 ^ nb) ltac:(lia)).
    rewrite <- Z.add_mod_idemp_l by lia. generalize dependent (v mod 2 ^ nb). intros u _ Hu.
    destruct (Z.ltb_spec u (2 ^ (nb - 1))); [rewrite Z.mod_small; lia|].
    rewrite (Z.mod_eq _ (2 ^ nb)), <- (Z.div_unique (u + 2 ^ (nb - 1)) (2 ^ nb) 1 (u - 2 ^ (nb - 1))); lia. }
  rewrite Has. unfold signed. rewrite Hv, Hp1. rewrite Htest.
  set (m := v / 2 ^ (32 * q) mod 2 ^ (b + 1)) in *.
  destruct (Z.ltb_spec m (2 ^ b)) as [Hlt|Hge]; cbn [negb].
  - rewrite Hw, Hval by by left. rewrite (proj2 (Z.ltb_lt _ _)) by nia. ring.
  - rewrite Hw, Hor by (done || by right). rewrite (proj2 (Z.ltb_ge _ _)) by nia.
    rewrite Hp2. ring.
Qed.

(** ** The binary form *)

Lemma or_byte v b k :
  k = 0 \/ k = 8 \/ k = 16 -> is_byte b -> 0 <= v < 2 ^ 24 -> v mod 2 ^ (k + 8) = 0 ->
  js_or v (js_shl b k) = v + b * 2 ^ k.
Proof.
  unfold is_byte. intros Hk Hb Hv Hm. rewrite js_shl_mul by lia.
  assert (0 <= b * 2 ^ k < 2 ^ 24) by (destruct Hk as [->|[->| ->]]; lia).
  unfold js_or. rewrite !to_int32_id by (rewrite ?to_int32_id; unfold int32; lia).
  rewrite (Z.div_mod v (2 ^ (k + 8))), Hm, Z.add_0_r, Z.mul_comm by (apply Z.pow_nonzero; lia).
  apply lor_mul_add; [lia|]. rewrite Z.pow_add_r by lia.
  destruct Hk as [->|[->| ->]]; lia.
Qed.

Lemma partial_fold (f : Z -> Z) a rest :
  Forall (fun b => is_byte (f b)) a -> (1 <= length a <= 3)%nat ->
  foldl (fun value j => js_or value (js_shl (f (default 0 ((a ++ rest) !! j)))
           ((blen a - Z.of_nat j - 1) * 8))) 0 (seq 0 (length a)) = be_val (f <$> a).
Proof.
  intros Ha Hl. destruct a as [|b0 [|b1 [|b2 [|]]]]; simpl in Hl; try lia;
    repeat match goal with H : Forall _ (_ :: _) |- _ => apply Forall_cons_1 in H as [? H] end;
    unfold is_byte in *; unfold blen; cbn; unfold be_val; cbn;
    repeat match goal with |- context [(Z.of_nat ?a - Z.of_nat ?b - 1) * 8] =>
      let v := eval vm_compute in ((Z.of_nat a - Z.of_nat b - 1) * 8) in
      change ((Z.of_nat a - Z.of_nat b - 1) * 8) with v end.
  - rewrite (or_byte 0) by (unfold is_byte; auto || lia). lia.
  - rewrite (or_byte 0) by (unfold is_byte; auto || lia).
    rewrite or_byte by (unfold is_byte; auto || lia). lia.
  - rewrite (or_byte 0) by (unfold is_byte; auto || lia).
    rewrite (or_byte (0 + f b0 * 2 ^ 16)) by (unfold is_byte; auto || lia).
    rewrite or_byte by (unfold is_byte; auto || lia). lia.
Qed.

Lemma be_val_inv a :
  wf_bytes a -> be_val ((fun b => 255 - b) <$> a) = 256 ^ Z.of_nat (length a) - 1 - be_val a.
Proof.
  induction 1 as [|b a Hb Ha IH]; [done|]. cbn [fmap list_fmap length].
  unfold be_val; fold be_val. change (list_fmap Z Z ?f a) with (f <$> a).
  rewrite length_fmap, IH, pow256. lia.
Qed.

Lemma twos_nonempty b : b <> [] -> twos b = signed (8 * Z.of_nat (length b)) (be_val b).
Proof. by destruct b. Qed.

Lemma partial_word_twos a rest :
  wf_bytes a -> (1 <= length a <= 3)%nat ->
  partial_word (a ++ rest) (if twos a <? 0 then -1 else 0) (blen a) = twos a.
Proof.
  intros Ha Hl. unfold partial_word. replace (Z.to_nat (blen a)) with (length a) by (unfold blen; lia).
  pose proof (be_val_range a Ha) as Hr.
  assert (Hne : a <> []) by (destruct a; [simpl in Hl; lia|done]).
  rewrite pow256_2 in Hr.
  assert (Hp : 2 ^ (8 * Z.of_nat (length a)) <= 2 ^ 24) by (apply Z.pow_le_mono_r; lia).
  destruct (signed_spec (8 * Z.of_nat (length a)) (be_val a)) as [Hs _]; [lia|done|].
  rewrite <- twos_nonempty in Hs by done.
  assert (Htw : twos a = be_val a - (if twos a <? 0 then 2 ^ (8 * Z.of_nat (length a)) else 0)).
  { rewrite !twos_nonempty by done. unfold signed.
    destruct (Z.ltb_spec (be_val a) (2 ^ (8 * Z.of_nat (length a) - 1))); case_Z; lia. }
  destruct (Z.ltb_spec (twos a) 0).
  - change (-1 =? -1) with true. cbv iota zeta.
    rewrite (partial_fold (fun b => js_and (js_not b) 255)).
    + assert (Hf : (fun b => js_and (js_not b) 255) <$> a = (fun b => 255 - b) <$> a).
      { apply list_fmap_ext. intros i b Hb. apply Forall_lookup_1 with (i := i) (x := b) in Ha; [|done].
        unfold is_byte in Ha. rewrite js_and_255, js_not_eq by (unfold int32; lia). lia. }
      rewrite Hf, be_val_inv, pow256_2 by done.
      rewrite js_not_eq by (unfold int32; lia). lia.
    + eapply Forall_impl; [|exact Ha]. intros b Hb. unfold is_byte in *. rewrite js_and_255. lia.
    + done.
  - change (0 =? -1) with false. cbv iota zeta.
    rewrite (partial_fold (fun b => b)) by done. rewrite list_fmap_id. lia.
Qed.

Lemma buffer_sign x b :
  is_byte x -> wf_bytes b ->
  (if js_and x (js_shl 1 7) =? 0 then 0 else -1) = if twos (x :: b) <? 0 then -1 else 0.
Proof.
  intros Hx Hb. rewrite twos_neg by done. change (js_shl 1 7) with 128. unfold is_byte in Hx.
  unfold js_and. rewrite !to_int32_id by (unfold int32; lia).
  destruct (Z.leb_spec 128 x).
  - rewrite (proj2 (Z.eqb_neq _ _)); [done|]. intros E.
    apply (f_equal (fun z => Z.testbit z 7)) in E. rewrite Z.land_spec, Z.bits_0 in E.
    rewrite Z.testbit_eqb in E by lia. change (Z.testbit 128 7) with true in E.
    rewrite andb_true_r in E. apply Z.eqb_neq in E. apply E. change (2 ^ 7) with 128. lia.
  - rewrite Z.land_comm. change 128 with (Z.shiftl 1 7). by rewrite land_disjoint_shiftl by lia.
Qed.

(** A piece of a buffer is the low piece of what precedes the later ones. *)
Lemma buffer_piece_ok hi lo i :
  wf_bytes hi -> hi <> [] -> wf_bytes lo -> length lo = (4 * i)%nat ->
  exists w, buffer_piece (hi ++ lo) (if twos (hi ++ lo) <? 0 then -1 else 0) i = Ok w /\
    w mod 2 ^ 32 = twos hi mod 2 ^ 32.
Proof.
  intros Hhi Hne Hlo Hl. unfold buffer_piece, blen. rewrite length_app.
  destruct (Z.ltb_spec (Z.of_nat (length hi + length lo) - (Z.of_nat i + 1) * 4) 0).
  - eexists. split; [reflexivity|]. f_equal.
    replace (Z.of_nat (length hi + length lo) - (Z.of_nat i + 1) * 4 + 4) with (blen hi)
      by (unfold blen; lia).
    assert (Hs : (twos (hi ++ lo) <? 0) = (twos hi <? 0)).
    { destruct hi as [|x hi]; [done|]. apply Forall_cons_1 in Hhi as [? ?]. cbn [app].
      by rewrite !twos_neg by (done || by apply Forall_app). }
    rewrite Hs. apply partial_word_twos; [done|]. destruct hi; [done|]. simpl in *. lia.
  - set (k := (length hi - 4)%nat). pose proof (take_drop k hi) as E.
    set (a := take k hi) in *. set (w := drop k hi) in *.
    assert (Hw : length w = 4%nat) by (unfold w; rewrite length_drop; lia).
    assert (Ha : length a = k) by (unfold a; rewrite length_take; lia).
    assert (Hww : wf_bytes w) by by apply Forall_drop.
    assert (Hwa : wf_bytes a) by by apply Forall_take.
    pose proof (be_val_range w Hww) as Hr. rewrite Hw in Hr.
    exists (signed 32 (be_val w)). split.
    + replace (Z.of_nat (length hi + length lo) - (Z.of_nat i + 1) * 4) with (blen a)
        by (unfold blen; lia).
      unfold readInt32BE. rewrite <- E, <- app_assoc.
      rewrite (read_uint_app 4) by (unfold blen; lia). done.
    + destruct (signed_spec 32 (be_val w)) as [_ ->]; [lia|exact Hr|].
      rewrite <- E. destruct (decide (a = [])) as [->|Hane].
      * cbn [app]. rewrite <- (twos_mod w Hww) at 1. rewrite Hw. done.
      * rewrite twos_app, Hw by done. change (256 ^ Z.of_nat 4) with (2 ^ 32).
        rewrite Z.add_comm, Z_mod_plus_full. symmetry. by apply Z.mod_small.
Qed.

Lemma twos_div hi lo :
  wf_bytes hi -> hi <> [] -> wf_bytes lo ->
  twos (hi ++ lo) / 2 ^ (8 * Z.of_nat (length lo)) = twos hi.
Proof.
  intros Hhi Hne Hlo. rewrite twos_app, pow256_2 by done.
  pose proof (be_val_range lo Hlo) as Hr. rewrite pow256_2 in Hr.
  rewrite Z.div_add_l, Z.div_small by lia. lia.
Qed.

Lemma fromBuffer_value buf :
  wf_bytes buf -> exists x, fromBuffer buf = Ok x /\ wf x /\ value x = twos buf.
Proof.
  intros Hb. destruct (decide (buf = [])) as [->|Hne].
  { eexists. split; [reflexivity|]. split; [apply constructor_wf; by left|reflexivity]. }
  unfold fromBuffer. set (s := if js_and _ _ =? 0 then _ else _).
  assert (Hs : s = if twos buf <? 0 then -1 else 0).
  { subst s. destruct buf as [|x b]; [done|]. apply Forall_cons_1 in Hb as [Hx Hb].
    by apply buffer_sign. }
  assert (Hss : is_sign s) by (rewrite Hs; destruct (_ <? _); [right|left]; done).
  set (n := (blen buf + 3) / 4). assert (Hn : 4 * n - 3 <= blen buf <= 4 * n) by lia.
  unfold blen in Hn. set (L := length buf) in *.
  assert (HL : (0 < L)%nat) by (destruct buf; [done|simpl in L; lia]).
  assert (Hg : forall i, Z.of_nat i < n -> exists w, buffer_piece buf s i = Ok w /\
    w mod 2 ^ 32 = twos buf / 2 ^ (32 * Z.of_nat i) mod 2 ^ 32).
  { intros i Hi. rewrite Hs. rewrite <- (take_drop (L - 4 * i) buf).
    assert (Hlo : length (drop (L - 4 * i) buf) = (4 * i)%nat) by (rewrite length_drop; lia).
    assert (Hhi : take (L - 4 * i) buf <> []).
    { intros E. apply (f_equal length) in E. rewrite length_take in E. simpl in E. lia. }
    destruct (buffer_piece_ok (take (L - 4 * i) buf) (drop (L - 4 * i) buf) i) as (w & E & Hw);
      [by apply Forall_take|done|by apply Forall_drop|done|].
    exists w. split; [done|]. rewrite Hw. f_equal. symmetry.
    replace (32 * Z.of_nat i) with (8 * Z.of_nat (length (drop (L - 4 * i) buf))) by lia.
    apply twos_div; [by apply Forall_take|done|by apply Forall_drop]. }
  set (g := fun i => match buffer_piece buf s i with Ok w => w | Err _ => 0 end).
  rewrite (traverse_total _ g).
  2: { intros i Hi. apply elem_of_seq in Hi. destruct (Hg i ltac:(lia)) as (w & E & _).
       unfold g. by rewrite E. }
  rewrite ok_bind. eexists. split; [reflexivity|]. split; [by apply constructor_wf|].
  replace (g <$> seq 0 (Z.to_nat n)) with (tabulate n (fun i => g (Z.to_nat i))).
  2: { unfold tabulate. apply list_fmap_ext. intros ? i _. by rewrite Nat2Z.id. }
  apply constructor_of_words; [lia| |done|].
  - intros i Hi. destruct (Hg (Z.to_nat i) ltac:(lia)) as (w & E & Hw).
    unfold g. rewrite E, Hw, Z2Nat.id by lia. done.
  - pose proof (twos_range buf Hne Hb) as Hr. fold L in Hr.
    assert (Hp : 2 ^ (8 * Z.of_nat L - 1) <= 2 ^ (32 * n)) by (apply Z.pow_le_mono_r; lia).
    rewrite Hs. destruct (Z.ltb_spec (twos buf) 0).
    + symmetry. apply (Z.div_unique _ _ _ (twos buf + 2 ^ (32 * n))); lia.
    + apply Z.div_small. lia.
Qed.

(** The bytes of the highest piece are the shortest that keep its sign bit clear. *)
Lemma high_bytes_spec v :
  let h := high_bytes v in let U := v mod 2 ^ 32 in
  wf_bytes h /\ (1 <= length h)%nat /\ be_val h = U /\ U < 2 ^ (8 * Z.of_nat (length h) - 1) /\
  ((1 < length h)%nat -> 2 ^ (8 * (Z.of_nat (length h) - 1) - 1) <= U).
Proof.
  intros h U. subst h. unfold high_bytes.
  rewrite !js_ushr_div by lia. fold U. rewrite !js_and_255.
  rewrite !(js_shr_div v) by lia.
  assert (HU : 0 <= U < 2 ^ 32) by (unfold U; lia).
  assert (E24 : to_int32 v / 2 ^ 24 mod 256 = U / 2 ^ 24) by (unfold U, to_int32; lia).
  assert (E16 : to_int32 v / 2 ^ 16 mod 256 = U / 2 ^ 16 mod 256) by (unfold U, to_int32; lia).
  assert (E8 : to_int32 v / 2 ^ 8 mod 256 = U / 2 ^ 8 mod 256) by (unfold U, to_int32; lia).
  assert (E0 : v mod 256 = U mod 256) by (unfold U; lia).
  rewrite E24, E16, E8, E0. clear E24 E16 E8 E0. clearbody U.
  assert (Hsh : forall b, 0 <= b < 256 -> negb (js_shr b 7 =? 0) = (128 <=? b)).
  { intros b Hb. rewrite js_shr_div, to_int32_id by (unfold int32; lia).
    change (2 ^ 7) with 128. destruct (Z.leb_spec 128 b); case_Z; lia || done. }
  destruct (Z.ltb_spec 0 (U / 2 ^ 24)); [|destruct (Z.ltb_spec 0 (U / 2 ^ 16));
    [|destruct (Z.ltb_spec 0 (U / 2 ^ 8))]].
  all: repeat (match goal with |- context [if 0 <? ?x then _ else _] =>
         first [rewrite (proj2 (Z.ltb_lt 0 x)) by lia | rewrite (proj2 (Z.ltb_ge 0 x)) by lia] end).
  all: cbn [app lookup list_lookup default]; unfold default, from_option, id; rewrite Hsh by lia;
    match goal with |- context [128 <=? ?b] => destruct (Z.leb_spec 128 b) end;
    cbn [length Z.of_nat]; unfold be_val; cbn [length];
    split_and!; try (repeat (apply Forall_cons_2; [unfold is_byte; lia|]); apply Forall_nil_2);
    simpl; lia.
Qed.

Lemma groups_val gs :
  be_val (mjoin ((fun group => be_bytes 4 group) <$> gs)) = words_val (rev gs) /\
  length (mjoin ((fun group => be_bytes 4 group) <$> gs)) = (4 * length gs)%nat.
Proof.
  induction gs as [|g gs [IH IHl]]; [done|].
  change (mjoin ((fun group => be_bytes 4 group) <$> g :: gs)) with
    (be_bytes 4 g ++ mjoin ((fun group => be_bytes 4 group) <$> gs)).
  cbn [rev]. split.
  - rewrite be_val_app, IH, IHl, be_val_bytes, words_val_app, length_rev.
    rewrite !pow256_2. cbn [words_val]. replace (8 * Z.of_nat (4 * length gs)) with
      (32 * Z.of_nat (length gs)) by lia. change (8 * Z.of_nat 4) with 32. ring.
  - rewrite length_app, IHl, be_bytes_length. cbn [length]. lia.
Qed.

Lemma groups_wf gs : wf_bytes (mjoin ((fun group => be_bytes 4 group) <$> gs)).
Proof.
  induction gs as [|g gs IH]; [constructor|]. cbn [fmap list_fmap mjoin list_join].
  apply Forall_app. split; [apply be_bytes_wf|exact IH].
Qed.

Definition min_twos (b : bytes) : Prop :=
  let n := Z.of_nat (length b) in
  1 < n -> ~ (- 2 ^ (8 * (n - 1) - 1) <= twos b < 2 ^ (8 * (n - 1) - 1)).

Lemma toBuffer_top (top : Z) (s : Z) (groups : list Z) :
  is_sign s -> int32 top ->
  let h := high_bytes (if s =? -1 then js_not top else top) in
  let hb := (fun b => (if s =? -1 then js_not b else b) mod 256) <$> h in
  let T := top mod 2 ^ 32 + s * 2 ^ 32 in
  wf_bytes hb /\ hb <> [] /\ length hb = length h /\ twos hb = T /\
  ((1 < length hb)%nat -> ~ (- 2 ^ (8 * (Z.of_nat (length hb) - 1) - 1) <= T <
     2 ^ (8 * (Z.of_nat (length hb) - 1) - 1))).
Proof.
  intros Hs Ht h hb T.
  assert (Hhb : wf_bytes hb).
  { unfold hb. apply Forall_fmap, Forall_true. intros b. unfold is_byte, compose. lia. }
  assert (Hl : length hb = length h) by apply length_fmap.
  destruct (high_bytes_spec (if s =? -1 then js_not top else top)) as (Hw & Hl1 & Hv & Hlt & Hmin).
  fold h in Hw, Hl1, Hv, Hlt, Hmin.
  assert (Hne : hb <> []).
  { intros E. apply (f_equal length) in E. change (length (@nil Z)) with 0%nat in E. lia. }
  assert (Hval : be_val hb = (if s =? -1 then 256 ^ Z.of_nat (length h) - 1 - be_val h else be_val h)).
  { unfold hb. destruct (s =? -1).
    - rewrite <- be_val_inv by done. f_equal. apply list_fmap_ext. intros i b Hb.
      apply Forall_lookup_1 with (i := i) (x := b) in Hw; [|done].
      unfold is_byte in Hw. rewrite js_not_eq by (unfold int32; lia). lia.
    - f_equal. rewrite <- (list_fmap_id h) at 2. apply list_fmap_ext. intros i b Hb.
      apply Forall_lookup_1 with (i := i) (x := b) in Hw; [|done].
      unfold is_byte in Hw. unfold id. lia. }
  set (U := (if s =? -1 then js_not top else top) mod 2 ^ 32) in *.
  assert (HT : T = if s =? -1 then - 1 - U else U).
  { subst T U. destruct Hs as [-> | ->]; simpl Z.eqb; cbv iota; [lia|].
    rewrite js_not_eq by done. unfold int32 in Ht. lia. }
  assert (HU : 0 <= U) by (unfold U; lia). clearbody U T.
  rewrite Hl. split_and!; [done..| |].
  - apply twos_unique; [done| |].
    + rewrite Hval, Hv, Hl, pow256_2, HT.
      pose proof (pow2_pos (8 * Z.of_nat (length h)) ltac:(lia)) as Hp.
      assert (Hp2 : 2 ^ (8 * Z.of_nat (length h)) = 2 * 2 ^ (8 * Z.of_nat (length h) - 1)).
      { rewrite <- Z.pow_succ_r by lia. f_equal. lia. }
      destruct (s =? -1).
      * apply (Z.mod_unique _ _ (-1)); lia.
      * symmetry. apply Z.mod_small. lia.
    + rewrite Hl, HT. destruct (s =? -1); lia.
  - intros H1. specialize (Hmin H1). rewrite HT. destruct (s =? -1); lia.
Qed.

Lemma toBuffer_twos x :
  wf x -> wf_bytes (toBuffer x) /\ toBuffer x <> [] /\ twos (toBuffer x) = value x /\
          min_twos (toBuffer x).
Proof.
  intros (Hs & Hb & Htop). unfold toBuffer. destruct (rev (bits x)) as [|top groups] eqn:Er.
  { assert (Hn : bits x = []) by (rewrite <- (rev_involutive (bits x)), Er; done).
    unfold value, len. rewrite Hn. destruct Hs as [-> | ->];
      (split; [by repeat constructor|]); split_and!; try done; unfold min_twos; simpl; lia. }
  assert (Eb : bits x = rev groups ++ [top]) by (rewrite <- (rev_involutive (bits x)), Er; done).
  rewrite Eb in Hb. apply Forall_app in Hb as [_ Ht]. apply Forall_cons_1 in Ht as [Ht _].
  destruct (toBuffer_top top (sign x) groups Hs Ht) as (Hw & Hne & _ & Htw & Hmin).
  set (hb := _ <$> high_bytes _) in *.
  destruct (groups_val groups) as [Hgv Hgl]. pose proof (groups_wf groups) as Hgw.
  set (gb := mjoin _) in *.
  assert (Hx : value x = twos hb * 2 ^ (32 * Z.of_nat (length groups)) + words_val (rev groups)).
  { unfold value, len. rewrite Eb, words_val_app, length_app, length_rev, Htw.
    cbn [words_val length]. rewrite Nat.add_1_r, pow32_S. ring. }
  assert (Hxt : twos (hb ++ gb) = value x).
  { rewrite twos_app, Hgl, Hgv, Hx, pow256_2 by done. do 3 f_equal. lia. }
  split; [by apply Forall_app|]. split; [by destruct hb|]. split; [done|].
  unfold min_twos. rewrite Hxt, length_app, Hgl. intros H1.
  destruct (decide (1 < length hb)%nat) as [Hl|Hl].
  - specialize (Hmin Hl). rewrite <- Htw in Hmin. intros Hr. apply Hmin.
    pose proof (words_val_range (rev groups)) as Hrg. rewrite length_rev in Hrg.
    pose proof (pow32_pos (Z.of_nat (length groups)) ltac:(lia)) as Pg.
    replace (8 * (Z.of_nat (length hb + 4 * length groups) - 1) - 1) with
      (8 * (Z.of_nat (length hb) - 1) - 1 + 32 * Z.of_nat (length groups)) in Hr by lia.
    rewrite Z.pow_add_r, Hx in Hr by lia. nia.
  - assert (Hl1 : length hb = 1%nat) by (destruct hb as [|? [|]]; simpl in *; [done|lia|lia]).
    assert (HT : top mod 2 ^ 32 + sign x * 2 ^ 32 <> 0 /\ top mod 2 ^ 32 + sign x * 2 ^ 32 <> -1).
    { unfold top_ne in Htop. rewrite Er in Htop. unfold int32 in Ht. destruct Hs as [E|E]; rewrite E in *; lia. }
    rewrite <- Htw in HT. rewrite Hl1, Hx.
    assert (Hg0 : (0 < length groups)%nat) by lia.
    replace (8 * (Z.of_nat (1 + 4 * length groups) - 1) - 1)
      with (32 * Z.of_nat (length groups) - 1) by lia.
    pose proof (words_val_range (rev groups)) as Hrg. rewrite length_rev in Hrg.
    assert (2 ^ (32 * Z.of_nat (length groups)) = 2 * 2 ^ (32 * Z.of_nat (length groups) - 1)).
    { rewrite <- Z.pow_succ_r by lia. f_equal. lia. }
    nia.
Qed.

(** ** Equality *)

Lemma value_pieces x n :
  wf x -> len x <= n ->
  value x = words_val (tabulate n (getBits x)) + sign x * 2 ^ (32 * n).
Proof.
  intros Hx Hn. assert (0 <= len x) by (unfold len; lia).
  rewrite (tabulate_val n _ (value x)), <- (value_div_high x n) by
    (first [lia | apply Hx | intros; apply getBits_word; [apply Hx|lia]]).
  pose proof (pow32_pos n ltac:(lia)). pose proof (Z.div_mod (value x) (2 ^ (32 * n))). lia.
Qed.

Lemma equals_value x y : wf x -> wf y -> equals x y = (value x =? value y).
Proof.
  intros Hx Hy. unfold equals. set (n := Z.max (len x) (len y)).
  destruct (Z.eqb_spec (value x) (value y)) as [E|E].
  - apply value_inj in E as <-; [|done..]. rewrite Z.eqb_refl. cbn [negb].
    apply forallb_forall. intros. apply Z.eqb_refl.
  - destruct (Z.eqb_spec (sign x) (sign y)) as [Es|Es]; cbn [negb]; [|done].
    apply not_true_is_false. intros Hf. apply E.
    rewrite (value_pieces x n), (value_pieces y n), Es by (done || lia). do 2 f_equal.
    unfold tabulate. apply list_fmap_ext. intros i j Hj.
    rewrite forallb_forall in Hf. apply Z.eqb_eq, Hf.
    apply list_elem_of_In, list_elem_of_lookup. eauto.
Qed.

(** ** Decimal text *)

Lemma pow10_small n : 0 <= n <= 8 -> 0 < 10 ^ n <= 10 ^ 8.
Proof. intros. split; [apply Z.pow_pos_nonneg; lia|apply Z.pow_le_mono_r; lia]. Qed.

Lemma fromString_loop_dec fuel ds r :
  Forall (fun c => is_digit c = true) ds -> wf r -> (length ds <= fuel)%nat ->
  let x := fromString_loop fuel ds 10 r in
  wf x /\ value x = value r * 10 ^ Z.of_nat (length ds) + dec_val ds.
Proof.
  revert ds r. induction fuel as [|fuel IH]; intros ds r Hd Hr Hl.
  - destruct ds; [|simpl in Hl; lia]. cbn [fromString_loop length].
    split; [done|]. change (dec_val []) with 0. change (10 ^ Z.of_nat 0) with 1. lia.
  - destruct ds as [|c ds0] eqn:Eds.
    { cbn [fromString_loop length]. split; [done|]. change (dec_val []) with 0.
      change (10 ^ Z.of_nat 0) with 1. lia. }
    rewrite <- Eds in *. assert (Hne : ds <> []) by by subst. clear c ds0 Eds.
    assert (El : fromString_loop (S fuel) ds 10 r = fromString_loop fuel (drop 8 ds) 10
      (add (multiply r (fromNumber (num_of_Z (10 ^ Z.min 8 (slen ds)))))
           (fromNumber_opt (parseInt (take 8 ds) 10)))) by (by destruct ds).
    rewrite El. clear El.
    assert (Htk : length (take 8 ds) = Nat.min 8 (length ds)) by (rewrite length_take; lia).
    assert (Hdt : Forall (fun c => is_digit c = true) (take 8 ds)) by by apply Forall_take.
    assert (H1 : (0 < length ds)%nat) by (destruct ds; [done|simpl; lia]).
    rewrite parseInt_dec; [|intros E; apply (f_equal length) in E; simpl in E; lia|done].
    pose proof (dec_val_bound _ Hdt) as Hb.
    pose proof (pow10_small (Z.of_nat (length (take 8 ds))) ltac:(lia)) as Hp.
    replace (Z.min 8 (slen ds)) with (Z.of_nat (length (take 8 ds))) by (unfold slen; lia).
    cbn [fromNumber_opt]. assert (Hsafe : safe_int (10 ^ Z.of_nat (length (take 8 ds)))) by
      (unfold safe_int; lia).
    destruct (IH (drop 8 ds) (add (multiply r (fromNumber (num_of_Z (10 ^ Z.of_nat (length (take 8 ds))))))
      (fromNumber (num_of_Z (dec_val (take 8 ds)))))) as [Hw Hv];
      [by apply Forall_drop|auto with integer|rewrite length_drop; lia|].
    split; [exact Hw|]. rewrite Hv.
    rewrite add_value, multiply_value_small, !fromNumber_of_Z by
      (first [exact Hsafe | unfold safe_int; lia | solve [auto with integer]
             | right; rewrite fromNumber_of_Z by exact Hsafe; lia]).
    pose proof (dec_val_app (take 8 ds) (drop 8 ds)) as Ed. rewrite take_drop in Ed. rewrite Ed.
    replace (Z.of_nat (length ds)) with
      (Z.of_nat (length (take 8 ds)) + Z.of_nat (length (drop 8 ds))) by (rewrite length_drop; lia).
    rewrite Z.pow_add_r by lia. ring.
Qed.

Lemma fromString_dec ds :
  ds <> [] -> Forall (fun c => is_digit c = true) ds ->
  exists x, fromString ds 10 = Ok x /\ wf x /\ value x = dec_val ds.
Proof.
  intros Hne Hd.
  destruct (fromString_loop_dec (length ds) ds ZERO Hd ZERO_wf (le_n _)) as [Hw Hv].
  exists (fromString_loop (length ds) ds 10 ZERO). split; [|split; [done|]].
  - destruct ds as [|c r]; [done|]. cbn [fromString].
    pose proof Hd as Hd'. apply Forall_cons_1 in Hd' as [Hc _]. apply is_digit_spec in Hc.
    rewrite (proj2 (Z.eqb_neq c 45)) by lia. unfold fromString_nonneg.
    rewrite bool_decide_false by done. cbn [Z.ltb Z.compare orb].
    by rewrite digits_no.
  - rewrite Hv. unfold ZERO. rewrite fromInt_value by (unfold int32; lia). lia.
Qed.

(** ** Properties *)

(** C34. The arithmetic and the order of Integer are those of the integers: sums,
    differences and negations are exact at any size, and the results are again
    canonical representations, so [equals] decides equality. *)
Theorem integer_arithmetic (x y : t) :
  wf x -> wf y ->
  (wf (add x y) /\ value (add x y) = value x + value y) /\
  (wf (negate x) /\ value (negate x) = - value x) /\
  (wf (subtract x y) /\ value (subtract x y) = value x - value y) /\
  compare x y = (match value x ?= value y with Lt => -1 | Eq => 0 | Gt => 1 end) /\
  equals x y = (value x =? value y) /\ (value x = value y -> x = y).
Proof.
  intros Hx Hy. split_and!; auto using add_value, negate_value, subtract_value, compare_value,
    equals_value, value_inj with integer.
  unfold subtract. auto with integer.
Qed.

Lemma integer_arithmetic_witness :
  wf (fromInt (-7)) /\ value (add (fromInt (-7)) (fromInt 2147483647)) = 2147483640.
Proof.
  split; [apply fromInt_wf|].
  exact (proj2 (proj1 (integer_arithmetic (fromInt (-7)) (fromInt 2147483647)
    (fromInt_wf _) (fromInt_wf _)))).
Defined.

(** The bitwise operations are those of infinite two's complement, the shifts
    multiply by a power of two and divide by it rounding down, and [shorten] keeps
    the low bits as a signed integer of that width. *)
Theorem integer_bitwise (x y : t) (n : Z) :
  wf x -> wf y -> 0 < n < 2 ^ 31 ->
  value (not x) = Z.lnot (value x) /\
  value (and x y) = Z.land (value x) (value y) /\
  value (or x y) = Z.lor (value x) (value y) /\
  value (xor x y) = Z.lxor (value x) (value y) /\
  value (shiftLeft x n) = Z.shiftl (value x) n /\
  value (shiftRight x n) = Z.shiftr (value x) n /\
  value (shorten x n) = asIntN n (value x).
Proof.
  intros Hx Hy Hn. rewrite lnot_eq.
  split_and!; auto using not_value, and_value, or_value, xor_value, shorten_value;
    [apply shiftLeft_value|apply shiftRight_value]; done || lia.
Qed.

Lemma integer_bitwise_witness :
  value (shiftRight (fromInt (-1000)) 3) = -125 /\ value (shorten (fromInt 200) 8) = -56.
Proof.
  destruct (integer_bitwise (fromInt (-1000)) (fromInt 0) 3 (fromInt_wf _) (fromInt_wf _) ltac:(lia))
    as (_ & _ & _ & _ & _ & -> & _).
  destruct (integer_bitwise (fromInt 200) (fromInt 0) 8 (fromInt_wf _) (fromInt_wf _) ltac:(lia))
    as (_ & _ & _ & _ & _ & _ & ->).
  split; vm_compute; reflexivity.
Defined.

(** Multiplication is exact when an operand is below 2^32 in absolute value, as in
    every product [fromString] forms, whichever of its two algorithms runs. *)
Theorem integer_multiply_exact (x y : t) :
  wf x -> wf y -> Z.abs (value x) < 2 ^ 32 \/ Z.abs (value y) < 2 ^ 32 ->
  wf (multiply x y) /\ value (multiply x y) = value x * value y.
Proof. intros Hx Hy H. split; [apply multiply_wf|by apply multiply_value_small]. Qed.

Lemma integer_multiply_exact_witness :
  value (multiply (constructor [-1; -1; 5] 0) (fromInt (-100000000)))
  = value (constructor [-1; -1; 5] 0) * -100000000.
Proof.
  apply integer_multiply_exact; [apply constructor_wf; by left|apply fromInt_wf|].
  right. vm_compute. reflexivity.
Defined.

(** Multiplication is wrong on larger operands: the product of 2^64 - 1 with
    itself comes out 2^96 too small, because a half that [carry16] has not reduced
    yet overflows the 32 bits that [>>>] looks at. *)
Theorem integer_multiply_wrong :
  let x := constructor [-1; -1] 0 in
  wf x /\ value x = 2 ^ 64 - 1 /\ value (multiply x x) = value x * value x - 2 ^ 96.
Proof. split; [apply constructor_wf; by left|]. vm_compute. done. Qed.

(** C35. The binary form: [toBuffer] writes the shortest two's complement bytes of the
    integer, [fromBuffer] accepts any bytes and reads the integer they denote, and it
    returns the Integer that was written. *)
Theorem integer_buffer_roundtrip (x : t) :
  wf x ->
  twos (toBuffer x) = value x /\ min_twos (toBuffer x) /\ fromBuffer (toBuffer x) = Ok x.
Proof.
  intros Hx. destruct (toBuffer_twos x Hx) as (Hw & _ & Hv & Hm). split; [done|]. split; [done|].
  destruct (fromBuffer_value _ Hw) as (y & -> & Hy & Ey). f_equal. apply value_inj; [done|done|congruence].
Qed.

Lemma integer_buffer_roundtrip_witness :
  fromBuffer (toBuffer (fromInt (-129))) = Ok (fromInt (-129)) /\
  toBuffer (fromInt (-129)) = [255; 127].
Proof.
  split; [|vm_compute; reflexivity].
  exact (proj2 (proj2 (integer_buffer_roundtrip (fromInt (-129)) (fromInt_wf _)))).
Defined.

(** Any well-formed bytes decode, to the integer they denote in two's complement,
    whatever their length; no bytes at all denote zero. *)
Theorem integer_buffer_total (buf : bytes) :
  wf_bytes buf -> exists x, fromBuffer buf = Ok x /\ wf x /\ value x = twos buf.
Proof. apply fromBuffer_value. Qed.

Lemma integer_buffer_total_witness :
  exists x, fromBuffer [255; 0; 0; 0; 0; 1] = Ok x /\ wf x /\ value x = - 2 ^ 40 + 1.
Proof.
  apply (integer_buffer_total [255; 0; 0; 0; 0; 1]).
  repeat (apply Forall_cons_2; [unfold is_byte; lia|]). apply Forall_nil_2.
Defined.

(** Decimal text: [fromString] of a run of digits, of any length, is the integer
    it denotes, and a leading minus sign negates it. *)
Theorem integer_from_decimal (ds : jsstr) :
  ds <> [] -> Forall (fun c => is_digit c = true) ds ->
  (exists x, fromString ds 10 = Ok x /\ wf x /\ value x = dec_val ds) /\
  (exists x, fromString (45 :: ds) 10 = Ok x /\ wf x /\ value x = - dec_val ds).
Proof.
  intros Hne Hd. destruct (fromString_dec ds Hne Hd) as (x & E & Hx & Hv). split; [eauto|].
  exists (negate x). cbn [fromString Z.eqb Pos.eqb]. cbn. rewrite E.
  split; [done|]. split; [apply negate_wf|]. rewrite negate_value; [lia|done].
Qed.

Lemma integer_from_decimal_witness :
  exists x, fromString (js "-340282366920938463463374607431768211456") 10 = Ok x /\ wf x /\
            value x = - 2 ^ 128.
Proof.
  exact (proj2 (integer_from_decimal (js "340282366920938463463374607431768211456")
    ltac:(discriminate) ltac:(repeat constructor))).
Defined.

(** [fromNumber] truncates: for every finite Number it is the integer part, exactly,
    up to the largest Number; NaN and the infinities give zero. *)
Theorem integer_from_number (x : number) :
  (valid_num x = true -> is_finite x = true -> value (fromNumber x) = num_trunc x) /\
  (is_finite x = false -> value (fromNumber x) = 0).
Proof.
  split.
  - intros Hv Hf. apply fromNumber_value; [done|]. by apply valid_num_bound.
  - intros Hf. unfold fromNumber. rewrite Hf. by destruct x.
Qed.

Lemma integer_from_number_witness :
  value (fromNumber (num_of_Z (2 ^ 1000))) = 2 ^ 1000 /\ value (fromNumber S754_nan) = 0.
Proof.
  split.
  - rewrite (proj1 (integer_from_number (num_of_Z (2 ^ 1000)))); vm_compute; reflexivity.
  - exact (proj2 (integer_from_number S754_nan) eq_refl).
Defined.

End Integer.
