(* ===== verification/ProtocolVersion.v ===== *)
(** * Protocol versions

    Models lib/types/version-number.ts (parsing and ordering of server versions) and
    lib/types/protocol-version.js: the feature predicates of a protocol version,
    and [getHighestCommon], which folds over the hosts of a cluster.  The logger is
    left out: it has no influence on the result. *)

From S2P Require Import Prelude JsString.

Module VersionNumber.

Record t : Type := mk {
  major : Z; minor : Z; patch : option Z; dsePatch : option Z;
  preReleases : option (list jsstr); build : option jsstr }.

Definition is_word (c : Z) : bool :=
  is_digit c || ((65 <=? c) && (c <=? 90)) || ((97 <=? c) && (c <=? 122)) || (c =? 95).

Fixpoint span (p : Z -> bool) (s : jsstr) : jsstr * jsstr :=
  match s with
  | c :: s' => if p c then let '(a, r) := span p s' in (c :: a, r) else ([], s)
  | [] => ([], [])
  end.

(** [(?:\.(\d+))?] *)
Definition opt_dot_digits (s : jsstr) : option jsstr * jsstr :=
  match s with
  | c :: s' =>
      if c =? 46 then
        match span_digits s' with
        | ([], _) => (None, s)
        | (ds, r) => (Some ds, r)
        end
      else (None, s)
  | [] => (None, s)
  end.

(** [(?:\.(\d+)?)?]: the dot may stand alone. *)
Definition opt_dot_opt_digits (s : jsstr) : option jsstr * jsstr :=
  match s with
  | c :: s' =>
      if c =? 46 then
        match span_digits s' with
        | ([], _) => (None, s')
        | (ds, r) => (Some ds, r)
        end
      else (None, s)
  | [] => (None, s)
  end.

(** [(?:-\w[.\w]* )*]; every turn consumes a character. *)
Fixpoint dash_words (fuel : nat) (s : jsstr) : jsstr * jsstr :=
  match fuel, s with
  | S fuel, c :: w :: s' =>
      if (c =? 45) && is_word w then
        let '(a, r) := span (fun c => (c =? 46) || is_word c) s' in
        let '(b, r) := dash_words fuel r in
        (c :: w :: a ++ b, r)
      else ([], s)
  | _, _ => ([], s)
  end.

Definition opt_prerelease (s : jsstr) : option jsstr * jsstr :=
  match s with
  | c :: s' =>
      if (c =? 45) || (c =? 126) then
        let '(a, r) := span (fun c => (c =? 43) || is_word c) s' in
        let '(b, r) := dash_words (length r) r in
        (Some (a ++ b), r)
      else (None, s)
  | [] => (None, s)
  end.

Definition opt_build (s : jsstr) : option jsstr :=
  match s with
  | c :: s' =>
      if c =? 43 then
        match span (fun c => (c =? 46) || is_word c) s' with
        | ([], _) => None
        | (a, _) => Some a
        end
      else None
  | [] => None
  end.

(** The pattern at the start of [s].  All that follows the minor version is optional,
    so the greedy choices are never undone. *)
Definition match_here (s : jsstr) : option t :=
  match span_digits s with
  | (d :: ds, c :: r) =>
      if c =? 46 then
        match span_digits r with
        | ([], _) => None
        | (mi, r) =>
            let '(pa, r) := opt_dot_digits r in
            let '(dse, r) := opt_dot_opt_digits r in
            let '(pre, r) := opt_prerelease r in
            let pre := match pre with Some (c :: p) => Some (split_on 45 (c :: p)) | _ => None end in
            Some (mk (dec_val (d :: ds)) (dec_val mi) (dec_val <$> pa) (dec_val <$> dse)
                     pre (opt_build r))
        end
      else None
  | _ => None
  end.

Fixpoint match_version (s : jsstr) : option t :=
  match match_here s with
  | Some v => Some v
  | None => match s with [] => None | _ :: s => match_version s end
  end.

(** [None] for the empty string, which is falsy. *)
Definition parse (version : jsstr) : result (option t) :=
  match version with
  | [] => Ok None
  | _ =>
      match match_version version with
      | Some v => Ok (Some v)
      | None => Err (TypeError "Could not extract version")
      end
  end.

Definition compare (v other : t) : Z :=
  if major v <? major other then -1
  else if major other <? major v then 1
  else if minor v <? minor other then -1
  else if minor other <? minor v then 1
  else
    let thisPatch := default 0 (patch v) in
    let otherPatch := default 0 (patch other) in
    if thisPatch <? otherPatch then -1
    else if otherPatch <? thisPatch then 1
    else
      let dse := match dsePatch v, dsePatch other with
                 | None, Some _ => -1
                 | None, None => 0
                 | Some _, None => 1
                 | Some a, Some b => if a <? b then -1 else if b <? a then 1 else 0
                 end in
      if negb (dse =? 0) then dse
      else match preReleases v, preReleases other with
           | None, Some _ => 1
           | Some _, None => -1
           | _, _ => 0
           end.

End VersionNumber.

Module protocolVersion.

Definition v1 : Z := 0x01.
Definition v2 : Z := 0x02.
Definition v3 : Z := 0x03.
Definition v4 : Z := 0x04.
Definition v5 : Z := 0x05.
Definition v6 : Z := 0x06.
Definition dseV1 : Z := 0x41.
Definition dseV2 : Z := 0x42.

Definition isSupportedCassandra (version : Z) : bool := (version <=? 0x04) && (0x01 <=? version).
Definition isSupported (version : Z) : bool := isSupportedCassandra version.
Definition supportsPrepareFlags (version : Z) : bool := version =? dseV2.
Definition supportsKeyspaceInRequest (version : Z) : bool := version =? dseV2.
Definition supportsResultMetadataId (version : Z) : bool := version =? dseV2.
Definition supportsPreparedPartitionKey (version : Z) : bool := v4 <=? version.
Definition supportsSchemaChangeFullMetadata (version : Z) : bool := v3 <=? version.
Definition supportsContinuousPaging (version : Z) : bool := false.
Definition supportsPaging (version : Z) : bool := v2 <=? version.
Definition supportsTimestamp (version : Z) : bool := v3 <=? version.
Definition supportsNamedParameters (version : Z) : bool := v3 <=? version.
Definition supportsUnset (version : Z) : bool := v4 <=? version.
Definition supportsFailureReasonMap (version : Z) : bool := v5 <=? version.
Definition uses2BytesStreamIds (version : Z) : bool := v3 <=? version.
Definition uses4BytesCollectionLength (version : Z) : bool := v3 <=? version.
Definition uses4BytesQueryFlags (version : Z) : bool := false.
Definition canStartupResponseErrorBeWrapped (version : Z) : bool := v4 <=? version.
Definition isBeta (version : Z) : bool := version =? v5.

Definition getLowerSupported (version : Z) : Z :=
  if v5 <=? version then v4 else if version <=? v1 then 0 else version - 1.

Definition mkv (a b c : Z) : VersionNumber.t := VersionNumber.mk a b (Some c) None None None.
Definition v200 := mkv 2 0 0.
Definition v210 := mkv 2 1 0.
Definition v220 := mkv 2 2 0.
Definition v300 := mkv 3 0 0.
Definition v510 := mkv 5 1 0.
Definition v600 := mkv 6 0 0.

(** The versions a host reports; an absent one is the empty string. *)
Record host : Type := mkHost { dseVersion : jsstr; cassandraVersion : jsstr }.

(** The variables the callback of [hosts.forEach] assigns. *)
Record state : Type := mkState {
  maxVersion : Z; v3Requirement : bool; maxVersionWith3OrMore : Z }.

Definition ge (v other : VersionNumber.t) : bool := 0 <=? VersionNumber.compare v other.

Definition visit_cassandra (st : state) (h : host) : state :=
  match cassandraVersion h with
  | [] => st
  | _ =>
      match VersionNumber.parse (cassandraVersion h) with
      | Ok (Some cv) =>
          if ge cv v300 then
            let m := Z.min v4 (maxVersion st) in mkState m true m
          else if ge cv v220 then
            let m := Z.min v4 (maxVersion st) in mkState m (v3Requirement st) m
          else if ge cv v210 then
            let m := Z.min v3 (maxVersion st) in mkState m (v3Requirement st) m
          else if ge cv v200 then
            mkState (Z.min v2 (maxVersion st)) (v3Requirement st) (maxVersionWith3OrMore st)
          else mkState v1 (v3Requirement st) (maxVersionWith3OrMore st)
      | _ => st
      end
  end.

(** A DSE version that cannot be parsed throws out of [forEach]. *)
Definition visit (st : state) (h : host) : result state :=
  match dseVersion h with
  | [] => Ok (visit_cassandra st h)
  | _ =>
      dv ← VersionNumber.parse (dseVersion h);
      match dv with
      | Some dv =>
          if ge dv v510 then
            let m := Z.min (if ge dv v600 then dseV2 else dseV1) (maxVersion st) in
            Ok (mkState m true m)
          else Ok (visit_cassandra st h)
      | None => Ok (visit_cassandra st h)
      end
  end.

Fixpoint visit_all (st : state) (hosts : list host) : result state :=
  match hosts with
  | [] => Ok st
  | h :: hosts => st ← visit st h; visit_all st hosts
  end.

Definition getHighestCommon (connection_protocolVersion : Z) (hosts : list host) : result Z :=
  st ← visit_all (mkState connection_protocolVersion false connection_protocolVersion) hosts;
  Ok (if v3Requirement st && (maxVersion st <? v3) then maxVersionWith3OrMore st
      else maxVersion st).

(** ** Specification *)

Definition known (v : result (option VersionNumber.t)) : option VersionNumber.t :=
  match v with Ok (Some v) => Some v | _ => None end.

(** The highest protocol version of a server of the given Cassandra version. *)
Definition cassandra_limit (v : VersionNumber.t) : Z :=
  if ge v v220 then v4 else if ge v v210 then v3 else if ge v v200 then v2 else v1.

(** The highest protocol version of a host, when it reports a version that can be
    read, and whether the host needs version 3 at least. *)
Definition host_limit (h : host) : option (Z * bool) :=
  match (if bool_decide (dseVersion h = []) then None else known (VersionNumber.parse (dseVersion h))) with
  | Some dv =>
      if ge dv v510 then Some ((if ge dv v600 then dseV2 else dseV1), true)
      else (fun cv => (cassandra_limit cv, ge cv v300)) <$> known (VersionNumber.parse (cassandraVersion h))
  | None => (fun cv => (cassandra_limit cv, ge cv v300)) <$> known (VersionNumber.parse (cassandraVersion h))
  end.

Definition dse_ok (h : host) : Prop := is_ok (VersionNumber.parse (dseVersion h)) = true.

Lemma ge_spec a b : ge a b = true <-> VersionNumber.compare a b <> -1.
Proof.
  unfold ge, VersionNumber.compare.
  repeat match goal with |- context [if ?c then _ else _] => destruct c end;
  repeat match goal with |- context [match ?c with Some _ => _ | None => _ end] => destruct c end;
  repeat match goal with |- context [if ?c then _ else _] => destruct c end; simpl; lia.
Qed.

(** Against a release [a.b.c] without extras, [ge] compares the triples; a
    pre-release of the triple itself is below. *)
Lemma ge_mono v a b c a' b' c' :
  ge v (mkv a b c) = true -> (a', b') = (a, b) \/ a' < a \/ (a' = a /\ b' < b) ->
  c' <= c -> ge v (mkv a' b' c') = true.
Proof.
  rewrite !ge_spec. unfold VersionNumber.compare, mkv. cbn [VersionNumber.major VersionNumber.minor
    VersionNumber.patch VersionNumber.dsePatch VersionNumber.preReleases].
  change (default 0 (Some c)) with c. change (default 0 (Some c')) with c'.
  intros Hv Hab Hc.
  assert (Hcase : a' = a /\ b' = b \/ a' < a \/ a' = a /\ b' < b) by
    (destruct Hab as [[= -> ->]|[?|?]]; auto).
  destruct v as [ma mi p d pre bu]; cbn [VersionNumber.major VersionNumber.minor
    VersionNumber.patch VersionNumber.dsePatch VersionNumber.preReleases] in *.
  set (pp := default 0 p) in *.
  repeat match goal with |- context [?x <? ?y] => destruct (Z.ltb_spec x y) end; try done;
  repeat match type of Hv with context [?x <? ?y] => destruct (Z.ltb_spec x y) in Hv end; try lia;
  destruct d, pre; simpl in *; try done; try lia.
Qed.

Lemma visit_cassandra_spec st h :
  1 <= maxVersion st ->
  visit_cassandra st h =
    match known (VersionNumber.parse (cassandraVersion h)) with
    | None => st
    | Some cv =>
        let m := Z.min (cassandra_limit cv) (maxVersion st) in
        mkState m (v3Requirement st || ge cv v300)
          (if ge cv v210 then m else maxVersionWith3OrMore st)
    end.
Proof.
  intros H1. unfold visit_cassandra. destruct (cassandraVersion h) as [|c s]; [done|].
  unfold known. destruct (VersionNumber.parse (c :: s)) as [[cv|]|]; try done.
  unfold cassandra_limit. destruct (ge cv v300) eqn:E3.
  { assert (ge cv v220 = true) as -> by (apply (ge_mono cv 3 0 0); [done|lia|lia]).
    assert (ge cv v210 = true) as -> by (apply (ge_mono cv 3 0 0); [done|lia|lia]).
    by rewrite orb_true_r. }
  rewrite orb_false_r. destruct (ge cv v220) eqn:E22.
  { by assert (ge cv v210 = true) as -> by (apply (ge_mono cv 2 2 0); [done|lia|lia]). }
  destruct (ge cv v210); [done|]. destruct (ge cv v200); [done|].
  replace (Z.min v1 (maxVersion st)) with v1 by (unfold v1; lia). done.
Qed.

Lemma cassandra_limit_range cv : 1 <= cassandra_limit cv <= 4.
Proof.
  unfold cassandra_limit, v1, v2, v3, v4. repeat case_match; lia.
Qed.

Lemma cassandra_limit_210 cv : ge cv v210 = (3 <=? cassandra_limit cv).
Proof.
  unfold cassandra_limit. destruct (ge cv v220) eqn:E.
  - by assert (ge cv v210 = true) as -> by (apply (ge_mono cv 2 2 0); [done|lia|lia]).
  - destruct (ge cv v210); [done|]. by destruct (ge cv v200).
Qed.

Lemma visit_spec st h :
  dse_ok h -> 1 <= maxVersion st ->
  visit st h = Ok match host_limit h with
    | None => st
    | Some (l, req) =>
        let m := Z.min l (maxVersion st) in
        mkState m (v3Requirement st || req) (if 3 <=? l then m else maxVersionWith3OrMore st)
    end.
Proof.
  unfold dse_ok. intros Hd H1. unfold visit, host_limit.
  assert (Hc : visit_cassandra st h = match (fun cv => (cassandra_limit cv, ge cv v300)) <$>
      known (VersionNumber.parse (cassandraVersion h)) with
    | Some (l, req) =>
        let m := Z.min l (maxVersion st) in
        mkState m (v3Requirement st || req) (if 3 <=? l then m else maxVersionWith3OrMore st)
    | None => st end).
  { rewrite visit_cassandra_spec by done.
    destruct (known _) as [cv|]; [|done]. cbn. by rewrite cassandra_limit_210. }
  destruct (dseVersion h) as [|c s]; [rewrite bool_decide_true by done; by rewrite Hc|].
  rewrite bool_decide_false by done.
  destruct (VersionNumber.parse (c :: s)) as [[dv|]|]; [| |discriminate];
    cbn [known]; rewrite ok_bind; [|by rewrite Hc].
  destruct (ge dv v510); [|by rewrite Hc].
  rewrite orb_true_r. by destruct (ge dv v600).
Qed.

(** The least of the limits and the starting version. *)
Definition common (c : Z) (hosts : list host) : Z :=
  foldl (fun m h => match host_limit h with Some (l, _) => Z.min l m | None => m end) c hosts.

Definition requires_v3 (hosts : list host) : bool :=
  existsb (fun h => match host_limit h with Some (_, req) => req | None => false end) hosts.

Lemma host_limit_pos h l r : host_limit h = Some (l, r) -> 1 <= l.
Proof.
  assert (Hc : forall v, (fun cv => (cassandra_limit cv, ge cv v300)) <$> v = Some (l, r) -> 1 <= l).
  { intros [cv|]; [|done]. intros [= <- _]. apply cassandra_limit_range. }
  unfold host_limit. destruct (if bool_decide _ then _ else _) as [dv|]; [|apply Hc].
  destruct (ge dv v510); [|apply Hc]. intros [= <- _]. destruct (ge dv v600); unfold dseV1, dseV2; lia.
Qed.

Lemma visit_all_spec st hosts :
  Forall dse_ok hosts -> 1 <= maxVersion st ->
  exists w, visit_all st hosts =
    Ok (mkState (common (maxVersion st) hosts) (v3Requirement st || requires_v3 hosts) w) /\
    (Forall (fun h => forall l r, host_limit h = Some (l, r) -> 3 <= l) hosts ->
     maxVersionWith3OrMore st = maxVersion st -> w = common (maxVersion st) hosts).
Proof.
  intros Hd. revert st. induction Hd as [|h hosts Hh Hd IH]; intros st H1.
  - exists (maxVersionWith3OrMore st). cbn. rewrite orb_false_r. destruct st. split; [done|].
    by intros _ ->.
  - cbn [visit_all]. rewrite visit_spec by done. rewrite ok_bind.
    unfold common, requires_v3. cbn [foldl existsb].
    destruct (host_limit h) as [[l req]|] eqn:El.
    + pose proof (host_limit_pos _ _ _ El) as Hl.
      destruct (IH (mkState (Z.min l (maxVersion st)) (v3Requirement st || req)
        (if 3 <=? l then Z.min l (maxVersion st) else maxVersionWith3OrMore st)))
        as (w & E & Hw); [cbn; lia|].
      exists w. cbn [maxVersion v3Requirement maxVersionWith3OrMore] in *. rewrite E.
      split; [by rewrite orb_assoc|]. intros HF Hm. apply Forall_cons_1 in HF as [HF1 HF].
      apply Hw; [done|]. specialize (HF1 _ _ El). by rewrite (proj2 (Z.leb_le 3 l)) by lia.
    + destruct (IH st H1) as (w & E & Hw). exists w. rewrite E. split; [done|].
      intros HF. apply Forall_cons_1 in HF as [_ HF]. by apply Hw.
Qed.

(** ** Properties *)

(** When no host needs protocol version 3, or every host whose version is known
    supports it, [getHighestCommon] is the least of the connection's version and the
    highest versions of the hosts, in whatever order they are listed. *)
Theorem getHighestCommon_min (c : Z) (hosts : list host) :
  1 <= c -> Forall dse_ok hosts ->
  requires_v3 hosts = false \/
    Forall (fun h => forall l r, host_limit h = Some (l, r) -> 3 <= l) hosts ->
  getHighestCommon c hosts = Ok (common c hosts).
Proof.
  intros Hc Hd Hv. unfold getHighestCommon.
  destruct (visit_all_spec (mkState c false c) hosts Hd Hc) as (w & -> & Hw).
  rewrite ok_bind. cbn [maxVersion v3Requirement maxVersionWith3OrMore orb] in *.
  destruct Hv as [->|HF]; [done|]. rewrite (Hw HF eq_refl). by destruct (_ && _).
Qed.

Lemma getHighestCommon_min_witness :
  getHighestCommon 0x42 [mkHost [] (js "3.11.4"); mkHost [] (js "2.1.17"); mkHost [] []] = Ok 3.
Proof.
  apply (getHighestCommon_min 0x42
    [mkHost [] (js "3.11.4"); mkHost [] (js "2.1.17"); mkHost [] []]).
  - lia.
  - repeat (apply Forall_cons_2; [reflexivity|]). apply Forall_nil_2.
  - right. repeat (apply Forall_cons_2;
      [intros l r H; vm_compute in H; first [discriminate H | injection H as <- _; lia]|]).
    apply Forall_nil_2.
Defined.

(** In a cluster of a 3.0 and a 2.0 host the result depends on the order of the
    hosts: with the newer one first the older one is left out and the version is 4, as
    the documentation says; with the older one first the version is 2, below the 3 that
    the newer host needs. *)
Theorem getHighestCommon_order :
  let new := mkHost [] (js "3.0.1") in
  let old := mkHost [] (js "2.0.9") in
  getHighestCommon 4 [new; old] = Ok 4 /\ getHighestCommon 4 [old; new] = Ok 2 /\
  host_limit new = Some (4, true).
Proof. vm_compute. done. Qed.

(** Protocol downgrading ends: [getLowerSupported] is strictly below the version it
    is given, supported or zero, and five steps from any version reach zero. *)
Theorem getLowerSupported_terminates (version : Z) :
  getLowerSupported version < Z.max 1 version /\
  (isSupported (getLowerSupported version) = true \/ getLowerSupported version = 0) /\
  Nat.iter 5 getLowerSupported version = 0.
Proof.
  assert (Hs : forall v, v <= 5 -> getLowerSupported v = Z.max 0 (v - 1)).
  { intros v Hv. unfold getLowerSupported, v4, v5, v1. repeat case_Z; lia. }
  assert (H5 : 5 <= version -> getLowerSupported version = 4).
  { intros Hv. unfold getLowerSupported, v5, v4. case_Z; lia. }
  destruct (Z.le_gt_cases 5 version) as [Hge|Hlt].
  - rewrite (H5 Hge). split; [lia|]. split; [by left|].
    change (Nat.iter 5 getLowerSupported version) with
      (getLowerSupported (getLowerSupported (getLowerSupported (getLowerSupported
        (getLowerSupported version))))). by rewrite (H5 Hge).
  - change (Nat.iter 5 getLowerSupported version) with
      (getLowerSupported (getLowerSupported (getLowerSupported (getLowerSupported
        (getLowerSupported version))))).
    destruct (Z.le_gt_cases version 0) as [H0|H0].
    + assert (E : getLowerSupported version = 0) by (rewrite Hs; lia). rewrite E.
      split; [lia|]. split; [by right|done].
    + assert (version = 1 \/ version = 2 \/ version = 3 \/ version = 4) as
        [-> | [-> | [-> | ->]]] by lia; vm_compute; auto.
Qed.

(** The reference versions are what parsing their text gives. *)
Example reference_versions :
  (fun s => VersionNumber.parse (js s)) <$> ["2.0.0"; "2.1.0"; "2.2.0"; "3.0.0"; "5.1.0"; "6.0.0"]%string
  = (fun v => Ok (Some v)) <$> [v200; v210; v220; v300; v510; v600].
Proof. vm_compute. reflexivity. Qed.

End protocolVersion.
