(* ===== verification/LocalDate.v ===== *)
(** * Dates without a time

    Models lib/types/local-date.js.  The [Date] it wraps is always at midnight UTC,
    so it is represented by its day number; a [Date] holds at most 10^8 days on
    either side of the epoch and is invalid beyond.  The calendar is that of the
    language specification ([DayFromYear] and its inverses).

    Constructor arguments are integers, or NaN where text is parsed.  [now],
    [utcNow] and [fromDate] read the system clock or the local time zone and are
    not modelled, except for the argument [utcNow] passes. *)

From S2P Require Import Prelude JsNumber Buffer JsString.

(** ** The calendar *)

Module Calendar.

Definition DayFromYear (y : Z) : Z :=
  365 * (y - 1970) + (y - 1969) / 4 - (y - 1901) / 100 + (y - 1601) / 400.

Definition leap (y : Z) : bool :=
  ((y mod 4 =? 0) && negb (y mod 100 =? 0)) || (y mod 400 =? 0).

(** Days before the first of a month, January being 0. *)
Definition days_before (leap_year : bool) (month : Z) : Z :=
  let l := if leap_year then 1 else 0 in
  match month with
  | 0 => 0 | 1 => 31 | 2 => 59 + l | 3 => 90 + l | 4 => 120 + l | 5 => 151 + l
  | 6 => 181 + l | 7 => 212 + l | 8 => 243 + l | 9 => 273 + l | 10 => 304 + l
  | 11 => 334 + l | _ => 365 + l
  end.

(** Day number of a year, a month from 0 to 11 and a day from 1 on. *)
Definition MakeDay (y m d : Z) : Z := DayFromYear y + days_before (leap y) m + (d - 1).

(** The year that contains a day: an estimate, off by at most one. *)
Definition year_of (day : Z) : Z :=
  let y := 1970 + day * 400 / 146097 in
  if DayFromYear (y + 1) <=? day then y + 1 else if day <? DayFromYear y then y - 1 else y.

Fixpoint month_loop (l : bool) (within : Z) (n : nat) : Z :=
  match n with
  | O => 0
  | S n => if days_before l (Z.of_nat (S n)) <=? within then Z.of_nat (S n) else month_loop l within n
  end.

Definition month_of (day : Z) : Z :=
  month_loop (leap (year_of day)) (day - DayFromYear (year_of day)) 11.

Definition date_of (day : Z) : Z :=
  day - DayFromYear (year_of day) - days_before (leap (year_of day)) (month_of day) + 1.

Definition days_in_month (l : bool) (m : Z) : Z := days_before l (m + 1) - days_before l m.

Lemma DayFromYear_succ y : DayFromYear (y + 1) = DayFromYear y + 365 + (if leap y then 1 else 0).
Proof.
  unfold DayFromYear, leap.
  destruct (Z.eqb_spec (y mod 4) 0), (Z.eqb_spec (y mod 100) 0), (Z.eqb_spec (y mod 400) 0);
    simpl; lia.
Qed.

Lemma DayFromYear_mono y y' : y <= y' -> DayFromYear y <= DayFromYear y'.
Proof. unfold DayFromYear. lia. Qed.

Lemma year_of_unique day y :
  DayFromYear y <= day < DayFromYear (y + 1) -> year_of day = y.
Proof.
  intros Hd. unfold year_of. set (e := 1970 + day * 400 / 146097).
  assert (He : y - 1 <= e <= y + 1) by (unfold DayFromYear in Hd; lia).
  assert (Hc : e = y - 1 \/ e = y \/ e = y + 1) by lia. clearbody e.
  destruct Hc as [-> | [-> | ->]].
  - replace (y - 1 + 1) with y by lia. by rewrite (proj2 (Z.leb_le _ _)) by lia.
  - by rewrite (proj2 (Z.leb_gt _ _)), (proj2 (Z.ltb_ge _ _)) by lia.
  - pose proof (DayFromYear_mono (y + 1) (y + 1 + 1)).
    rewrite (proj2 (Z.leb_gt _ _)), (proj2 (Z.ltb_lt _ _)) by lia. lia.
Qed.

Lemma month_of_days_before (l : bool) m w :
  0 <= m < 12 -> days_before l m <= w < days_before l (m + 1) -> month_loop l w 11 = m.
Proof.
  intros Hm Hw.
  assert (Hc : m = 0 \/ m = 1 \/ m = 2 \/ m = 3 \/ m = 4 \/ m = 5 \/ m = 6 \/ m = 7 \/ m = 8 \/
               m = 9 \/ m = 10 \/ m = 11) by lia.
  cbn [month_loop].
  repeat (destruct Hc as [-> | Hc]); [..|subst m]; destruct l; simpl in Hw |- *;
    repeat match goal with |- context [if ?a <=? w then _ else _] =>
      first [rewrite (proj2 (Z.leb_gt a w)) by lia | rewrite (proj2 (Z.leb_le a w)) by lia] end;
    reflexivity.
Qed.

(** The calendar is a bijection between days and valid dates. *)
Lemma civil_MakeDay y m d :
  0 <= m < 12 -> 1 <= d <= days_in_month (leap y) m ->
  let day := MakeDay y m d in year_of day = y /\ month_of day = m /\ date_of day = d.
Proof.
  intros Hm Hd day. unfold days_in_month in Hd.
  assert (Hb : 0 <= days_before (leap y) m /\ days_before (leap y) (m + 1) <= 365 + (if leap y then 1 else 0)).
  { assert (Hc : m = 0 \/ m = 1 \/ m = 2 \/ m = 3 \/ m = 4 \/ m = 5 \/ m = 6 \/ m = 7 \/ m = 8 \/
               m = 9 \/ m = 10 \/ m = 11) by lia.
    repeat (destruct Hc as [-> | Hc]); [..|subst m]; destruct (leap y); simpl; lia. }
  assert (Hy : year_of day = y).
  { apply year_of_unique. rewrite DayFromYear_succ. unfold day, MakeDay. lia. }
  assert (Hmo : month_of day = m).
  { unfold month_of. rewrite Hy. apply month_of_days_before; [done|]. unfold day, MakeDay. lia. }
  split; [done|]. split; [done|]. unfold date_of. rewrite Hmo, Hy. unfold day, MakeDay. lia.
Qed.

Lemma year_of_spec day : DayFromYear (year_of day) <= day < DayFromYear (year_of day + 1).
Proof.
  unfold year_of. set (e := 1970 + day * 400 / 146097).
  assert (DayFromYear (e - 1) <= day < DayFromYear (e + 2)) by (unfold DayFromYear; lia).
  pose proof (DayFromYear_mono (e + 1) (e + 2)).
  destruct (Z.leb_spec (DayFromYear (e + 1)) day).
  { replace (e + 1 + 1) with (e + 2) by lia. lia. }
  destruct (Z.ltb_spec day (DayFromYear e)); [|lia].
  replace (e - 1 + 1) with e by lia. lia.
Qed.

Lemma MakeDay_civil day :
  0 <= month_of day < 12 /\ 1 <= date_of day <= days_in_month (leap (year_of day)) (month_of day) /\
  MakeDay (year_of day) (month_of day) (date_of day) = day.
Proof.
  pose proof (year_of_spec day) as Hy. rewrite DayFromYear_succ in Hy.
  set (l := leap (year_of day)) in *. set (w := day - DayFromYear (year_of day)).
  assert (Hw : 0 <= w < 365 + (if l then 1 else 0)) by lia.
  assert (Hm : 0 <= month_of day < 12 /\ days_before l (month_of day) <= w < days_before l (month_of day + 1)).
  { unfold month_of. fold l w. clearbody w l. cbn [month_loop].
    destruct l; simpl;
      repeat match goal with |- context [if ?a <=? w then _ else _] => destruct (Z.leb_spec a w); [simpl; lia|] end;
      simpl; lia. }
  unfold date_of, MakeDay, days_in_month. fold l w. lia.
Qed.

End Calendar.

(** ** LocalDate *)

Module LocalDate.

Definition millisecondsPerDay : Z := 86400000.
Definition dateCenter : Z := 2 ^ 31.

Definition daysInAMonth : list Z := [31; 29; 31; 30; 31; 30; 31; 31; 30; 31; 30; 31].

Definition isLeapYear (year : Z) : bool :=
  ((Z.rem year 4 =? 0) && negb (Z.rem year 100 =? 0)) || (Z.rem year 400 =? 0).

(** A [Date] at midnight: its day number, [None] when invalid. *)
Definition date_valid (day : Z) : bool := Z.abs day <=? 100000000.
Definition mkDate (day : Z) : option Z := if date_valid day then Some day else None.

Record t : Type := mk { date : option Z; value_ : option Z }.

#[export] Instance t_eq_dec : EqDecision t.
Proof. solve_decision. Defined.

Definition throw {A} (msg : string) : result A := Err (PlainError msg).

(** One argument: days since epoch. *)
Definition of_days (days : Z) : result t :=
  if (days <? -2147483648) || (2147483647 <? days) then
    throw "You must provide a valid value for days since epoch"
  else Ok (mk (mkDate days) (if date_valid days then None else Some days)).

(** Three arguments; [None] is NaN.  [setUTCFullYear] with NaN makes the date invalid,
    and no comparison with NaN holds, except that [Math.round(month) != month] does. *)
Definition of_ymd (year month day : option Z) : result t :=
  match month with
  | None => throw "Month should be value between 1 and 12"
  | Some m =>
      if (m <? 1) || (12 <? m) then throw "Month should be value between 1 and 12" else
      let out := match day with
                 | Some d => (d <? 1) || (default 0 (daysInAMonth !! Z.to_nat (m - 1)) <? d)
                 | None => false end in
      if out : bool then throw "Day should be value in the month" else
      let nonleap := match year with Some y => negb (isLeapYear y) | None => true end in
      if (m =? 2) && bool_decide (day = Some 29) && nonleap
      then throw "Day should be value between 1 and 28 (non leap year)" else
      match year, day with
      | Some y, Some d =>
          match mkDate (Calendar.MakeDay y (m - 1) d) with
          | Some n => Ok (mk (Some n) None)
          | None => throw "does not form a valid ES5 date!"
          end
      | _, _ => throw "does not form a valid ES5 date!"
      end
  end.

(** The components are NaN ([None]) when the date is invalid. *)
Definition year (d : t) : option Z := Calendar.year_of <$> date d.
Definition month (d : t) : option Z := (fun n => Calendar.month_of n + 1) <$> date d.
Definition day (d : t) : option Z := Calendar.date_of <$> date d.

Definition daysSinceEpoch (d : t) : Z :=
  match date d with Some n => n | None => default 0 (value_ d) end.

(** A [#value] of zero is falsy, but it is only set when the date is invalid. *)
Definition value (d : t) : option Z :=
  match value_ d with
  | Some v => if v =? 0 then date d else Some v
  | None => date d
  end.

(** Distinct days differ by more milliseconds than rounding can hide, so the sign of
    the Number difference is that of the exact one. *)
Definition compare (d other : t) : Z :=
  let diff := daysSinceEpoch d * millisecondsPerDay - daysSinceEpoch other * millisecondsPerDay in
  if diff <? 0 then -1 else if 0 <? diff then 1 else 0.

Definition equals (d other : t) : bool := compare d other =? 0.

Definition fromBuffer (buffer : bytes) : result t :=
  v ← readUInt32BE buffer 0; of_days (v - dateCenter).

Definition toBuffer (d : t) : result bytes := uint32_bytes (daysSinceEpoch d + dateCenter).

Definition fillZeros (value : jsstr) (amount : nat) : jsstr :=
  if (amount <=? length value)%nat then value
  else replicate (amount - length value) 48 ++ value.

Definition toString (d : t) : jsstr :=
  match date d with
  | None => int_str (default 0 (value_ d))
  | Some n =>
      let y := Calendar.year_of n in
      (if y <? 0 then 45 :: fillZeros (dec_str (y * -1)) 4 else fillZeros (dec_str y) 4) ++
      45 :: fillZeros (dec_str (Calendar.month_of n + 1)) 2 ++
      45 :: fillZeros (dec_str (Calendar.date_of n)) 2
  end.

(** [parseInt(parts[i], 10)]: NaN for an absent part. *)
Definition part (parts : list jsstr) (i : nat) : option Z :=
  match parts !! i with Some p => parseInt p 10 | None => None end.

(** [/^-?\d+$/] *)
Definition is_int_text (s : jsstr) : bool :=
  let ds := match s with c :: s' => if c =? 45 then s' else s | [] => [] end in
  negb (bool_decide (ds = [])) && forallb is_digit ds.

Definition fromString (value : jsstr) : result t :=
  let dashCount := count 45 value in
  if (2 <=? dashCount)%nat then
    let '(multiplier, value) :=
      match value with
      | c :: rest => if c =? 45 then (-1, rest) else (1, value)
      | [] => (1, value)
      end in
    let parts := split_on 45 value in
    of_ymd (Z.mul multiplier <$> part parts 0) (part parts 1) (part parts 2)
  else if is_int_text value then
    match parseInt value 10 with
    | Some n => of_days n
    | None => throw "Invalid input"
    end
  else throw "Invalid input".

(** [utcNow] passes the milliseconds of the clock where days are expected. *)
Definition utcNow (now_ms : Z) : result t := of_days now_ms.

(** ** Lemmas *)

(** What the constructor returns: a representable day, kept in the date when a [Date]
    can hold it and in [#value] otherwise. *)
Definition of_day (n : Z) : t := mk (mkDate n) (if date_valid n then None else Some n).

Definition wf (d : t) : Prop := exists n, int32 n /\ d = of_day n.

Lemma of_days_ok n : int32 n -> of_days n = Ok (of_day n).
Proof.
  unfold int32, of_days. intros Hn.
  rewrite (proj2 (Z.ltb_ge n _)), (proj2 (Z.ltb_ge _ n)) by lia. done.
Qed.

Lemma of_day_days n : daysSinceEpoch (of_day n) = n.
Proof. unfold daysSinceEpoch, of_day, mkDate. by destruct (date_valid n). Qed.

Lemma isLeapYear_leap y : isLeapYear y = Calendar.leap y.
Proof.
  unfold isLeapYear, Calendar.leap.
  assert (Hr : forall k, 0 < k -> (Z.rem y k =? 0) = (y mod k =? 0)).
  { intros k Hk. apply eq_true_iff_eq. rewrite !Z.eqb_eq, Z.rem_divide, Z.mod_divide by lia. done. }
  by rewrite !Hr by lia.
Qed.

Lemma daysInAMonth_spec y m :
  1 <= m <= 12 ->
  default 0 (daysInAMonth !! Z.to_nat (m - 1)) =
    Calendar.days_in_month (Calendar.leap y) (m - 1) + (if (m =? 2) && negb (Calendar.leap y) then 1 else 0).
Proof.
  intros Hm. assert (Hc : m = 1 \/ m = 2 \/ m = 3 \/ m = 4 \/ m = 5 \/ m = 6 \/ m = 7 \/ m = 8 \/
    m = 9 \/ m = 10 \/ m = 11 \/ m = 12) by lia.
  repeat (destruct Hc as [-> | Hc]); [..|subst m]; by destruct (Calendar.leap y).
Qed.

Definition valid_ymd (y m d : Z) : Prop :=
  1 <= m <= 12 /\ 1 <= d <= Calendar.days_in_month (Calendar.leap y) (m - 1).

Lemma of_ymd_valid y m d :
  valid_ymd y m d ->
  of_ymd (Some y) (Some m) (Some d) =
    match mkDate (Calendar.MakeDay y (m - 1) d) with
    | Some n => Ok (mk (Some n) None) | None => throw "does not form a valid ES5 date!" end.
Proof.
  intros [Hm Hd]. unfold of_ymd.
  rewrite (proj2 (Z.ltb_ge m 1)), (proj2 (Z.ltb_ge 12 m)) by lia. cbn [orb].
  rewrite (daysInAMonth_spec y) by lia. rewrite isLeapYear_leap.
  rewrite (proj2 (Z.ltb_ge d 1)) by lia. cbn [orb].
  rewrite (proj2 (Z.ltb_ge _ d)) by (destruct (_ && _); lia).
  destruct (Z.eqb_spec m 2) as [->|]; cbn [andb]; [|done].
  case_bool_decide as E; [|done]. injection E as ->.
  destruct (Calendar.leap y) in Hd |- *; [done|]. change (Calendar.days_in_month false (2 - 1)) with 28 in Hd. lia.
Qed.

Lemma of_ymd_invalid y m d :
  ~ valid_ymd y m d -> exists e, of_ymd (Some y) (Some m) (Some d) = Err (PlainError e).
Proof.
  unfold valid_ymd. intros Hn. unfold of_ymd, throw.
  destruct (Z.ltb_spec m 1); [eexists; reflexivity|]. destruct (Z.ltb_spec 12 m); [eexists; reflexivity|].
  cbn [orb]. rewrite (daysInAMonth_spec y) by lia.
  destruct (Z.ltb_spec d 1); [eexists; reflexivity|]. cbn [orb]. rewrite isLeapYear_leap.
  destruct (Z.eqb_spec m 2) as [->|]; cbn [andb];
    match goal with |- context [?a <? d] => destruct (Z.ltb_spec a d) end;
    try (eexists; reflexivity); [|lia].
  generalize dependent (Calendar.leap y). intros l Hn Hd. destruct l; cbn [negb andb] in *; [lia|].
  change (Calendar.days_in_month false (2 - 1)) with 28 in Hn, Hd.
  assert (d = 29) as -> by lia. eexists. reflexivity.
Qed.

Lemma civil_valid n :
  valid_ymd (Calendar.year_of n) (Calendar.month_of n + 1) (Calendar.date_of n).
Proof.
  destruct (Calendar.MakeDay_civil n) as (Hm & Hd & _).
  unfold valid_ymd. replace (Calendar.month_of n + 1 - 1) with (Calendar.month_of n) by lia. lia.
Qed.

(** *** Text *)

Abbreviation digits s := (Forall (fun c => is_digit c = true) s).

Lemma dec_val_zeros n s : dec_val (replicate n 48 ++ s) = dec_val s.
Proof.
  rewrite dec_val_app. replace (dec_val (replicate n 48)) with 0; [lia|].
  induction n as [|n IH]; [done|].
  rewrite replicate_S_end, dec_val_snoc, <- IH. lia.
Qed.

Lemma fillZeros_spec z k :
  0 <= z -> digits (fillZeros (dec_str z) k) /\ fillZeros (dec_str z) k <> [] /\
            parseInt (fillZeros (dec_str z) k) 10 = Some z.
Proof.
  intros Hz. destruct (dec_str_spec z Hz) as (Hd & Hv & Hne).
  assert (Hf : digits (fillZeros (dec_str z) k) /\ fillZeros (dec_str z) k <> [] /\
               dec_val (fillZeros (dec_str z) k) = z).
  { unfold fillZeros. destruct (_ <=? _)%nat; [done|]. split_and!.
    - apply Forall_app. split; [by apply Forall_replicate|done].
    - intros E. by apply app_eq_nil in E as [_ E].
    - by rewrite dec_val_zeros. }
  destruct Hf as (H1 & H2 & H3). split; [done|]. split; [done|].
  by rewrite parseInt_dec, H3.
Qed.

Lemma count_digits s : digits s -> count 45 s = O.
Proof.
  unfold count. induction 1 as [|c s Hc Hs IH]; [done|]. cbn [List.filter].
  apply is_digit_spec in Hc. by rewrite (proj2 (Z.eqb_neq 45 c)) by lia.
Qed.

Lemma count_app a b : count 45 (a ++ b) = (count 45 a + count 45 b)%nat.
Proof. unfold count. by rewrite List.filter_app, length_app. Qed.

Lemma count_dash s : count 45 (45 :: s) = S (count 45 s).
Proof. done. Qed.

Lemma fromString_parts (neg : bool) a b c :
  digits a -> digits b -> digits c -> a <> [] ->
  fromString ((if neg then [45] else []) ++ a ++ 45 :: b ++ 45 :: c) =
    of_ymd (Z.mul (if neg then -1 else 1) <$> parseInt a 10) (parseInt b 10) (parseInt c 10).
Proof.
  intros Ha Hb Hc Hne. unfold fromString.
  assert (Hn : le 2 (count 45 (a ++ 45 :: b ++ 45 :: c))).
  { rewrite count_app, count_dash, count_app, count_dash, !count_digits by done. lia. }
  rewrite (proj2 (Nat.leb_le 2 _)) by
    (destruct neg; [change ([45] ++ ?s) with (45 :: s); rewrite count_dash|]; cbn [app]; lia).
  assert (Hm : (match (if neg then [45] else []) ++ a ++ 45 :: b ++ 45 :: c with
      | c0 :: rest => if c0 =? 45 then (-1, rest) else (1, (if neg then [45] else []) ++ a ++ 45 :: b ++ 45 :: c)
      | [] => (1, (if neg then [45] else []) ++ a ++ 45 :: b ++ 45 :: c) end)
    = ((if neg then -1 else 1), a ++ 45 :: b ++ 45 :: c)).
  { destruct neg; [done|]. destruct a as [|x a]; [done|]. cbn [app].
    apply Forall_cons_1 in Ha as [Hx _]. apply is_digit_spec in Hx.
    by rewrite (proj2 (Z.eqb_neq x 45)) by lia. }
  rewrite Hm.
  rewrite split_on_app, split_on_app, split_on_none by (apply digits_no; done). done.
Qed.

Lemma fromString_days n : fromString (int_str n) = of_days n.
Proof.
  unfold fromString, int_str. destruct (Z.ltb_spec n 0).
  - destruct (dec_str_spec (- n) ltac:(lia)) as (Hd & Hv & Hne).
    rewrite count_dash, count_digits by done. cbn [Nat.leb].
    unfold is_int_text. cbn [Z.eqb Pos.eqb]. change (45 =? 45) with true. cbv iota.
    rewrite bool_decide_false by done. cbn [negb andb].
    rewrite (proj2 (forallb_forall _ _)) by (apply List.Forall_forall; done).
    rewrite parseInt_neg_dec, Hv by done. f_equal. lia.
  - destruct (dec_str_spec n ltac:(lia)) as (Hd & Hv & Hne).
    rewrite count_digits by done. cbn [Nat.leb]. unfold is_int_text.
    assert (Hm : (match dec_str n with c :: s' => if c =? 45 then s' else dec_str n | [] => [] end) = dec_str n).
    { destruct (dec_str n) as [|c r]; [done|]. apply Forall_cons_1 in Hd as [Hc _].
      apply is_digit_spec in Hc. by rewrite (proj2 (Z.eqb_neq c 45)) by lia. }
    rewrite Hm, bool_decide_false by done. cbn [negb andb].
    rewrite (proj2 (forallb_forall _ _)) by (apply List.Forall_forall; done).
    by rewrite parseInt_dec, Hv.
Qed.

(** ** Properties *)

(** Every LocalDate survives its text: the text [toString] prints, a calendar date
    within the range of a Date and a day count beyond it, is read back by
    [fromString] as the same value, over the whole range of 2^32 days. *)
Theorem localdate_text_roundtrip (d : t) : wf d -> fromString (toString d) = Ok d.
Proof.
  intros (n & Hn & ->). unfold toString, of_day, mkDate. cbn [date value_].
  destruct (date_valid n) eqn:Ev; cbn [date value_].
  2: { change (default 0 (Some n)) with n. rewrite fromString_days, of_days_ok by done.
       unfold of_day, mkDate. by rewrite Ev. }
  pose proof (civil_valid n) as Hv. destruct (Calendar.MakeDay_civil n) as (Hm & Hd & Hmk).
  set (y := Calendar.year_of n) in *. set (m := Calendar.month_of n) in *.
  set (dd := Calendar.date_of n) in *.
  assert (Ha : (if y <? 0 then 45 :: fillZeros (dec_str (y * -1)) 4 else fillZeros (dec_str y) 4)
    = (if y <? 0 then [45] else []) ++ fillZeros (dec_str (Z.abs y)) 4).
  { destruct (Z.ltb_spec y 0); cbn [app]; do 3 f_equal; lia. }
  rewrite Ha, <- app_assoc.
  destruct (fillZeros_spec (Z.abs y) 4 ltac:(lia)) as (Hd1 & Hn1 & Hp1).
  destruct (fillZeros_spec (m + 1) 2 ltac:(lia)) as (Hd2 & Hn2 & Hp2).
  destruct (fillZeros_spec dd 2 ltac:(lia)) as (Hd3 & Hn3 & Hp3).
  rewrite fromString_parts, Hp1, Hp2, Hp3 by done.
  replace (Z.mul (if y <? 0 then -1 else 1) <$> Some (Z.abs y)) with (Some y)
    by (cbn; f_equal; destruct (Z.ltb_spec y 0); lia).
  rewrite of_ymd_valid by done. replace (m + 1 - 1) with m by lia.
  rewrite Hmk. unfold mkDate. by rewrite Ev.
Qed.

Lemma localdate_text_roundtrip_witness :
  fromString (toString (of_day (-800000))) = Ok (of_day (-800000)).
Proof.
  apply (localdate_text_roundtrip (of_day (-800000))).
  exists (-800000). split; [unfold int32; lia|reflexivity].
Defined.

Lemma localdate_encode d :
  wf d -> exists b, toBuffer d = Ok b /\ length b = 4%nat /\
    forall rest, fromBuffer (b ++ rest) = Ok d.
Proof.
  intros (n & Hn & ->). unfold toBuffer. rewrite of_day_days. unfold dateCenter, int32 in *.
  exists (be_bytes 4 (n + 2 ^ 31)). split; [apply int_bytes_ok; lia|]. split; [done|].
  intros rest. unfold fromBuffer, readUInt32BE. rewrite read_uint_0 by done. rewrite ok_bind.
  rewrite be_val_bytes, Z.mod_small by (simpl; lia).
  rewrite of_days_ok by (unfold int32, dateCenter; lia). do 2 f_equal. unfold dateCenter. lia.
Qed.

(** The bytes: [toBuffer] of every LocalDate succeeds and [fromBuffer] restores it;
    conversely any four bytes decode to a LocalDate that encodes to them. *)
Theorem localdate_buffer_roundtrip :
  (forall d, wf d -> exists b, toBuffer d = Ok b /\ length b = 4%nat /\
     forall rest, fromBuffer (b ++ rest) = Ok d) /\
  (forall b, wf_bytes b -> length b = 4%nat -> exists d, fromBuffer b = Ok d /\ wf d /\ toBuffer d = Ok b).
Proof.
  split.
  - apply localdate_encode.
  - intros b Hb Hl. pose proof (be_val_range b Hb) as Hr. rewrite Hl in Hr.
    change (256 ^ Z.of_nat 4) with (2 ^ 32) in Hr.
    assert (Hi : int32 (be_val b - dateCenter)) by (unfold int32, dateCenter; lia).
    exists (of_day (be_val b - dateCenter)). split.
    + unfold fromBuffer, readUInt32BE. rewrite <- (app_nil_r b) at 1.
      rewrite read_uint_0 by (unfold blen; lia). rewrite ok_bind. by apply of_days_ok.
    + split; [by eexists|]. unfold toBuffer. rewrite of_day_days.
      replace (be_val b - dateCenter + dateCenter) with (be_val b) by lia.
      unfold uint32_bytes. rewrite int_bytes_ok by lia. by rewrite be_bytes_val.
Qed.

(** The three-argument constructor accepts exactly the dates of the calendar whose
    day a Date can hold, and the components read back are the arguments. *)
Theorem localdate_ymd (y m d : Z) :
  match of_ymd (Some y) (Some m) (Some d) with
  | Ok x => valid_ymd y m d /\ year x = Some y /\ month x = Some m /\ day x = Some d /\ wf x
  | Err e => ~ (valid_ymd y m d /\ Z.abs (Calendar.MakeDay y (m - 1) d) <= 100000000)
  end.
Proof.
  assert (Hdec : valid_ymd y m d \/ ~ valid_ymd y m d) by (unfold valid_ymd; lia).
  destruct Hdec as [Hv|Hv].
  - rewrite of_ymd_valid by done. unfold mkDate, date_valid.
    destruct (Z.leb_spec (Z.abs (Calendar.MakeDay y (m - 1) d)) 100000000) as [Hle|Hgt].
    + destruct Hv as [Hm Hd].
      destruct (Calendar.civil_MakeDay y (m - 1) d ltac:(lia) ltac:(lia)) as (Ey & Em & Ed).
      split; [done|]. unfold year, month, day. cbn [date fmap option_fmap option_map].
      rewrite Ey, Em, Ed. split_and!; [done|f_equal; lia|done|].
      exists (Calendar.MakeDay y (m - 1) d). split; [unfold int32; lia|].
      unfold of_day, mkDate, date_valid. by rewrite (proj2 (Z.leb_le _ _)).
    + cbn. lia.
  - destruct (of_ymd_invalid y m d Hv) as [e ->]. tauto.
Qed.

(** [utcNow] passes the clock's milliseconds as days since the epoch, so it throws at
    any time since 26 January 1970. *)
Theorem utcNow_throws (now_ms : Z) :
  25 * millisecondsPerDay <= now_ms -> exists e, utcNow now_ms = Err e.
Proof.
  unfold millisecondsPerDay, utcNow, of_days. intros H.
  rewrite (proj2 (Z.ltb_lt _ now_ms)), orb_true_r by lia. eexists. reflexivity.
Qed.

Lemma utcNow_throws_witness : exists e, utcNow 1700000000000 = Err e.
Proof. apply (utcNow_throws 1700000000000). unfold millisecondsPerDay. lia. Defined.

End LocalDate.
