(* ===== verification/LocalTime.v ===== *)
(** * Times of day

    Models lib/types/local-time.ts: nanoseconds since midnight, with their bytes and
    text.  The Long that holds them is represented by its integer; the arithmetic on
    it stays far below 2^63. *)

From S2P Require Import Prelude JsNumber Buffer JsString LocalDate.

Module LocalTime.

Definition maxNanos : Z := 86399999999999.
Definition nanoSecInSec : Z := 1000000000.
Definition millisInHour : Z := 3600000.
Definition millisInMin : Z := 60000.
Definition nanoSecInMillis : Z := 1000000.

Record t : Type := mk { nanos : Z }.

#[export] Instance t_eq_dec : EqDecision t.
Proof. solve_decision. Defined.

(** The argument is a Long. *)
Definition constructor (totalNanoseconds : Z) : result t :=
  if (totalNanoseconds <? 0) || (maxNanos <? totalNanoseconds)
  then Err (PlainError "Total nanoseconds out of range")
  else Ok (mk totalNanoseconds).

(** Hours, minutes, seconds and nanoseconds. *)
Definition getParts (x : t) : Z * Z * Z * Z :=
  let secs := Z.quot (nanos x) nanoSecInSec in
  let p3 := nanos x - secs * nanoSecInSec in
  let '(p1, p2) := if 60 <=? secs then (secs / 60, secs mod 60) else (0, secs) in
  let '(p0, p1) := if 60 <=? p1 then (p1 / 60, p1 mod 60) else (0, p1) in
  (p0, p1, p2, p3).

(** [None] is NaN. *)
Definition fromMilliseconds (milliseconds : option Z) (nanoseconds : Z) : result t :=
  match milliseconds with
  | None => Err (TypeError "Cannot create local time from NaN")
  | Some ms => constructor (ms * nanoSecInMillis + nanoseconds)
  end.

Definition out_of (lo hi : Z) (v : option Z) : bool :=
  match v with Some v => (v <? lo) || (hi <=? v) | None => false end.

Definition fromString (value : jsstr) : result t :=
  let parts := split_on 58 value in
  if (3 <? length parts)%nat then Err (TypeError "Invalid value format") else
  let hour := LocalDate.part parts 0 in
  let minutes := LocalDate.part parts 1 in
  if out_of 0 24 hour then Err (TypeError "Invalid hour. Expected value between 0 and 23") else
  if out_of 0 60 minutes then Err (TypeError "Invalid minute. Expected value between 0 and 59") else
  let millis := h ← hour; m ← minutes; Some (h * millisInHour + m * millisInMin) in
  match parts !! 2%nat with
  | None => fromMilliseconds millis 0
  | Some p =>
      let secParts := split_on 46 p in
      let seconds := LocalDate.part secParts 0 in
      if out_of 0 60 seconds then Err (TypeError "Invalid second. Expected value between 0 and 59") else
      let millis := ms ← millis; s ← seconds; Some (ms + s * 1000) in
      match secParts with
      | [_; ns] =>
          if (9 <? length ns)%nat
          then Err (TypeError "Cannot have sub nanosecond precision.")
          else fromMilliseconds millis
                 (default 0 (parseInt (ns ++ replicate (9 - length ns) 48) 10))
      | _ => fromMilliseconds millis 0
      end
  end.

Definition compare (x other : t) : Z :=
  match nanos x ?= nanos other with Lt => -1 | Eq => 0 | Gt => 1 end.

Definition fromBuffer (value : bytes) : result t :=
  lo ← readInt32BE value 4;
  hi ← readInt32BE value 0;
  constructor (hi * 2 ^ 32 + lo mod 2 ^ 32).

Definition toBuffer (x : t) : bytes := be_bytes 8 (nanos x).

Definition two_digits (v : Z) : jsstr := if v <? 10 then 48 :: dec_str v else dec_str v.

(** The trailing zeros of the fraction are dropped; the first digit always stays. *)
Fixpoint last_position (n : nat) (s : jsstr) (acc : option nat) : option nat :=
  match n with
  | O => acc
  | S n' =>
      if bool_decide (s !! n = Some 48) then last_position n' s (Some n) else acc
  end.

Definition formatTime (values : Z * Z * Z * Z) : jsstr :=
  let '(h, m, s, ns) := values in
  two_digits h ++ 58 :: two_digits m ++ 58 :: two_digits s ++
  (if 0 <? ns then
     let nanos := dec_str ns in
     let nanos := if (length nanos <? 9)%nat then replicate (9 - length nanos) 48 ++ nanos else nanos in
     46 :: match last_position (length nanos - 1) nanos None with
           | Some p => take p nanos
           | None => nanos
           end
   else []).

Definition toString (x : t) : jsstr := formatTime (getParts x).

Definition wf (x : t) : Prop := 0 <= nanos x <= maxNanos.

Lemma time_constructor_ok z : 0 <= z <= maxNanos -> constructor z = Ok (mk z).
Proof.
  intros Hz. unfold constructor.
  rewrite (proj2 (Z.ltb_ge z 0)), (proj2 (Z.ltb_ge _ z)) by lia. done.
Qed.

Lemma time_fromBuffer_toBuffer x rest : wf x -> fromBuffer (toBuffer x ++ rest) = Ok x.
Proof.
  unfold wf, maxNanos. intros Hx. unfold fromBuffer, toBuffer.
  assert (E : be_bytes 8 (nanos x) = be_bytes 4 (nanos x / 2 ^ 32) ++ be_bytes 4 (nanos x)).
  { unfold be_bytes. cbn [app]. rewrite !Z.div_div by lia. done. }
  rewrite E. set (hi := nanos x / 2 ^ 32). set (lo := be_bytes 4 (nanos x)).
  rewrite <- app_assoc. unfold readInt32BE.
  assert (Hl : blen lo = 4) by (unfold lo; by rewrite blen_be).
  rewrite (read_uint_app 4 (be_bytes 4 hi) lo rest 4) by (rewrite ?Hl, ?blen_be; lia).
  cbn [fmap result_fmap]. rewrite ok_bind.
  rewrite read_uint_0 by (rewrite blen_be; lia). cbn [fmap result_fmap]. rewrite ok_bind.
  assert (Hlo : be_val lo = nanos x mod 2 ^ 32) by (unfold lo; by rewrite be_val_bytes).
  rewrite be_val_bytes, Hlo. change (256 ^ Z.of_nat 4) with (2 ^ 32).
  rewrite (Z.mod_small hi) by (unfold hi; lia).
  destruct (signed_spec 32 (nanos x mod 2 ^ 32)) as [_ ->]; [lia|lia|].
  assert (Hs : signed 32 hi = hi) by (unfold signed; rewrite (proj2 (Z.ltb_lt _ _)) by (unfold hi; simpl; lia); done).
  rewrite Hs. replace (hi * 2 ^ 32 + nanos x mod 2 ^ 32) with (nanos x) by (unfold hi; lia).
  rewrite time_constructor_ok by (unfold maxNanos; lia). by destruct x.
Qed.

Lemma time_toBuffer_length x : length (toBuffer x) = 8%nat.
Proof. apply be_bytes_length. Qed.

Lemma getParts_spec x :
  wf x -> let '(h, m, s, ns) := getParts x in
  0 <= h < 24 /\ 0 <= m < 60 /\ 0 <= s < 60 /\ 0 <= ns < nanoSecInSec /\
  nanos x = ((h * 60 + m) * 60 + s) * nanoSecInSec + ns.
Proof.
  unfold wf, maxNanos, getParts, nanoSecInSec. intros Hx.
  rewrite Z.quot_div_nonneg by lia. set (secs := nanos x / 1000000000).
  assert (0 <= secs < 86400) by lia.
  destruct (Z.leb_spec 60 secs); [|simpl; lia].
  destruct (Z.leb_spec 60 (secs / 60)); lia.
Qed.

End LocalTime.
