(* ===== verification/ValueTypes.v ===== *)
(** * Small value types

    Uuid (lib/types/uuid.ts), InetAddress (lib/types/inet-address.ts), BigDecimal
    (lib/types/big-decimal.ts) and the Buffer forms of Long (lib/types/index.js).
    A Long is represented by the 64-bit integer it holds. *)

From Stdlib Require Import SpecFloat.
From S2P Require Import Prelude JsNumber Buffer JsString Float NumText Utf8 Integer.

Module Long.

Definition fromBuffer (value : bytes) : result Z :=
  lo ← readInt32BE value 4;
  hi ← readInt32BE value 0;
  Ok (hi * 2 ^ 32 + lo mod 2 ^ 32).

(** The two halves, read as unsigned. *)
Definition toBuffer (value : Z) : bytes :=
  be_bytes 4 (value / 2 ^ 32) ++ be_bytes 4 (value mod 2 ^ 32).

Lemma toBuffer_be value : toBuffer value = be_bytes 8 value.
Proof.
  unfold toBuffer. replace (value mod 2 ^ 32) with (value + - (value / 2 ^ 32) * 256 ^ Z.of_nat 4)
    by (change (256 ^ Z.of_nat 4) with (2 ^ 32); lia).
  rewrite be_bytes_mod. unfold be_bytes. cbn [app]. by rewrite !Z.div_div by lia.
Qed.

Lemma long_roundtrip z rest : int64 z -> fromBuffer (toBuffer z ++ rest) = Ok z.
Proof.
  unfold int64. intros Hz. unfold fromBuffer, toBuffer, readInt32BE. rewrite <- app_assoc.
  rewrite (read_uint_app 4 (be_bytes 4 (z / 2 ^ 32)) (be_bytes 4 (z mod 2 ^ 32)) rest 4)
    by (rewrite blen_be; lia).
  cbn [fmap result_fmap]. rewrite ok_bind, read_uint_0 by (rewrite blen_be; lia).
  cbn [fmap result_fmap]. rewrite ok_bind, !be_val_bytes. change (256 ^ Z.of_nat 4) with (2 ^ 32).
  rewrite Zmod_mod. destruct (signed_spec 32 (z mod 2 ^ 32)) as [_ ->]; [lia|lia|].
  rewrite (signed_mod 32) by lia. f_equal. lia.
Qed.

End Long.

Module Uuid.

Record t : Type := mk { raw : bytes }.

#[export] Instance t_eq_dec : EqDecision t.
Proof. solve_decision. Defined.

Definition constructor (buffer : bytes) : result t :=
  if blen buffer =? 16 then Ok (mk buffer)
  else Err (TypeError "You must provide a buffer containing 16 bytes").

Definition is_hex (c : Z) : bool := match hex_value c with Some _ => true | None => false end.

(** [n] hexadecimal digits, then what is left. *)
Fixpoint hex_run (n : nat) (s : jsstr) : option jsstr :=
  match n, s with
  | O, _ => Some s
  | S n, c :: s => if is_hex c then hex_run n s else None
  | S _, [] => None
  end.

(** The five groups of the expression, separated by dashes. *)
Definition uuidRegex (s : jsstr) : bool :=
  match (s ← hex_run 8 s; s ← strip_prefix [45] s; s ← hex_run 4 s; s ← strip_prefix [45] s;
         s ← hex_run 4 s; s ← strip_prefix [45] s; s ← hex_run 4 s; s ← strip_prefix [45] s;
         hex_run 12 s) with
  | Some [] => true
  | _ => false
  end.

Definition fromString (value : jsstr) : result t :=
  if uuidRegex value
  then constructor (hex_decode (List.filter (fun c => negb (c =? 45)) value))
  else Err (PlainError "Invalid string representation of Uuid").

Definition getBuffer (u : t) : bytes := raw u.

Definition equals (u other : t) : bool := bool_decide (raw u = raw other).

Definition toString (u : t) : jsstr :=
  let h := hex_encode (raw u) in
  take 8 h ++ 45 :: take 4 (drop 8 h) ++ 45 :: take 4 (drop 12 h) ++ 45 ::
  take 4 (drop 16 h) ++ 45 :: drop 20 h.

Definition wf (u : t) : Prop := wf_bytes (raw u) /\ length (raw u) = 16%nat.

Lemma hex_digit_is_hex d : 0 <= d < 16 -> is_hex (hex_digit d) = true /\ hex_digit d <> 45.
Proof.
  intros Hd. unfold is_hex. rewrite hex_value_digit by done. split; [done|].
  unfold hex_digit. case_Z; lia.
Qed.

Definition hexes (s : jsstr) : Prop := Forall (fun c => is_hex c = true /\ c <> 45) s.

Lemma hex_encode_hexes b : wf_bytes b -> hexes (hex_encode b).
Proof.
  induction 1 as [|x b Hx Hb IH]; [constructor|]. unfold is_byte in Hx.
  change (hex_encode (x :: b)) with (hex_digit (x / 16) :: hex_digit (x mod 16) :: hex_encode b).
  apply Forall_cons_2; [apply hex_digit_is_hex; lia|].
  apply Forall_cons_2; [apply hex_digit_is_hex; lia|done].
Qed.

Lemma hex_encode_length b : length (hex_encode b) = (2 * length b)%nat.
Proof.
  induction b as [|x b IH]; [done|].
  change (hex_encode (x :: b)) with (hex_digit (x / 16) :: hex_digit (x mod 16) :: hex_encode b).
  cbn [length]. lia.
Qed.

Lemma hex_run_app n a s : hexes a -> length a = n -> hex_run n (a ++ s) = Some s.
Proof.
  intros Ha. revert n. induction Ha as [|c a [Hc _] Ha IH]; intros n <-; [done|].
  cbn [length app hex_run]. rewrite Hc. by apply IH.
Qed.

Lemma filter_hexes a s :
  hexes a -> List.filter (fun c => negb (c =? 45)) (a ++ s) =
             a ++ List.filter (fun c => negb (c =? 45)) s.
Proof.
  induction 1 as [|c a [_ Hc] Ha IH]; [done|]. cbn [app List.filter].
  rewrite (proj2 (Z.eqb_neq _ _) Hc). cbn [negb]. by rewrite IH.
Qed.

Lemma uuid_text_roundtrip u : wf u -> fromString (toString u) = Ok u.
Proof.
  intros [Hb Hl]. unfold fromString, toString. pose proof (hex_encode_hexes _ Hb) as Hh.
  pose proof (hex_encode_length (raw u)) as Hn. set (h := hex_encode (raw u)) in *.
  assert (Ht : forall n, hexes (take n h)) by (intros; by apply Forall_take).
  assert (Hd : forall n, hexes (drop n h)) by (intros; by apply Forall_drop).
  assert (Htd : forall m n, hexes (take m (drop n h))) by (intros; apply Forall_take, Hd).
  assert (E : h = take 8 h ++ take 4 (drop 8 h) ++ take 4 (drop 12 h) ++ take 4 (drop 16 h) ++ drop 20 h).
  { rewrite <- (take_drop 8 h) at 1. f_equal.
    rewrite <- (take_drop 4 (drop 8 h)) at 1. rewrite drop_drop. f_equal.
    rewrite <- (take_drop 4 (drop (8 + 4) h)) at 1. rewrite drop_drop. f_equal.
    rewrite <- (take_drop 4 (drop (8 + 4 + 4) h)) at 1. rewrite drop_drop. done. }
  assert (R : uuidRegex (take 8 h ++ 45 :: take 4 (drop 8 h) ++ 45 :: take 4 (drop 12 h) ++ 45 ::
    take 4 (drop 16 h) ++ 45 :: drop 20 h) = true).
  { unfold uuidRegex.
    repeat (rewrite hex_run_app by (auto; rewrite ?length_take, ?length_drop; lia);
            cbn [mbind option_bind strip_prefix Z.eqb Pos.eqb]).
    rewrite <- (app_nil_r (drop 20 h)), hex_run_app by (auto; rewrite ?length_take, ?length_drop; lia).
    done. }
  rewrite R.
  repeat (rewrite filter_hexes by auto; cbn [List.filter Z.eqb Pos.eqb negb]).
  rewrite <- (app_nil_r (drop 20 h)), filter_hexes by auto. cbn [List.filter].
  rewrite app_nil_r, <- E. unfold h. rewrite hex_roundtrip by done.
  unfold constructor, blen. rewrite Hl. by destruct u.
Qed.

End Uuid.

Module InetAddress.

Record t : Type := mk { buffer : bytes }.

#[export] Instance t_eq_dec : EqDecision t.
Proof. solve_decision. Defined.

Definition constructor (buffer : bytes) : result t :=
  if negb (blen buffer =? 4) && negb (blen buffer =? 16)
  then Err (TypeError "The ip address must contain 4 or 16 bytes")
  else Ok (mk buffer).

Definition version (x : t) : Z := if blen (buffer x) =? 4 then 4 else 6.

Definition getBuffer (x : t) : bytes := buffer x.
Definition equals (x other : t) : bool := bool_decide (buffer x = buffer other).

(** An octet of the IPv4 expression: 0 to 255 without leading zeros. *)
Definition is_octet (s : jsstr) : bool :=
  match s with
  | [] => false
  | c :: r => forallb is_digit s && (dec_val s <? 256) && (bool_decide (r = []) || negb (c =? 48))
  end.

(** The expression repeats an octet, an optional dot and a word boundary four times:
    the boundary can only hold after a dot followed by a digit, or at the end. *)
Definition ipv4Pattern (s : jsstr) : bool :=
  let parts := split_on 46 s in
  (length parts =? 4)%nat && forallb is_octet parts.

Definition ipv6Pattern (s : jsstr) : bool :=
  negb (bool_decide (s = [])) &&
  forallb (fun c => match digit_value c with Some d => d <? 16 | None => (c =? 58) || (c =? 46) end) s.

(** [buf.writeUInt16BE(parseInt(item, 16), offset)]; NaN is written as 0. *)
Definition write_group (buf : bytes) (offset : Z) (item : jsstr) : result bytes :=
  b ← uint16_bytes (default 0 (parseInt item 16)); write_at buf offset b.

(** [buf[offset] = 0], ignored past the end. *)
Definition put_zero (buf : bytes) (offset : Z) : bytes := <[Z.to_nat offset := 0]> buf.

Fixpoint put_zeros (n : nat) (buf : bytes) (offset : Z) : bytes * Z :=
  match n with
  | O => (buf, offset)
  | S n => put_zeros n (put_zero (put_zero buf offset) (offset + 1)) (offset + 2)
  end.

Fixpoint write_items (items : list jsstr) (buf : bytes) (offset : Z) : result bytes :=
  match items with
  | [] => Ok buf
  | i :: items =>
      b ← num_bytes 1 0 255 (string_to_number i);
      buf ← write_at buf offset b; write_items items buf (offset + 1)
  end.

(** The loop over the groups; [applied] is whether a filling was written. *)
Fixpoint fromString_loop (embeddedIp4 applied : bool) (filling : Z) (parts : list jsstr)
    (buf : bytes) (offset : Z) : result bytes :=
  match parts with
  | [] => Ok buf
  | [] :: rest =>
      let filling := if applied then 1 else filling in
      let '(buf, offset) := put_zeros (Z.to_nat filling) buf offset in
      fromString_loop embeddedIp4 true filling rest buf offset
  | item :: rest =>
      if embeddedIp4 && bool_decide (rest = [])
      then write_items (split_on 46 item) buf offset
      else buf ← write_group buf offset item;
           fromString_loop embeddedIp4 applied filling rest buf (offset + 2)
  end.

Definition isValidIPv4Mapped (buf : bytes) : bool :=
  forallb (Z.eqb 0) (take (length buf - 6) buf) &&
  bool_decide (buf !! 10%nat = Some 255) && bool_decide (buf !! 11%nat = Some 255).

(** [unsafe] is the content of the memory [allocBufferUnsafe(16)] returns. *)
Definition fromString (unsafe : bytes) (value : jsstr) : result t :=
  let invalid := Err (TypeError "Value could not be parsed as InetAddress") in
  match value with
  | [] => constructor [0; 0; 0; 0]
  | _ =>
      if ipv4Pattern value then constructor (dec_val <$> split_on 46 value)
      else if negb (ipv6Pattern value) then invalid
      else
        let parts := split_on 58 value in
        let n := Z.of_nat (length parts) in
        if n <? 3 then invalid
        else
          let embeddedIp4 := ipv4Pattern (List.last parts []) in
          let filling := 8 - n + 1 - (if embeddedIp4 then 1 else 0) in
          buf ← fromString_loop embeddedIp4 false filling parts unsafe 0;
          if embeddedIp4 && negb (isValidIPv4Mapped buf)
          then Err (TypeError "Only IPv4-Mapped IPv6 addresses are allowed")
          else constructor buf
  end.

(** The search for the longest run of zero groups: the start of the open run (-1 when
    there is none), and the length and start of the longest. *)
Record runs : Type := mkRuns { start : Z; longest_length : Z; longest_start : Z }.

Definition checkLongest (st : runs) (i : Z) : runs :=
  if 0 <=? start st then
    let length := i - start st in
    if longest_length st <? length then mkRuns (-1) length (start st) else st
  else st.

Definition runs_step (len : Z) (st : runs) (i : Z) (zero : bool) : runs :=
  if zero then
    let st := if start st <? 0 then mkRuns i (longest_length st) (longest_start st) else st in
    if i =? len - 2 then checkLongest st (i + 2) else st
  else checkLongest st i.

Fixpoint runs_loop (len i : Z) (buf : bytes) (st : runs) : runs :=
  match buf with
  | a :: b :: buf => runs_loop len (i + 2) buf (runs_step len st i ((a =? 0) && (b =? 0)))
  | _ => st
  end.

Fixpoint hex_str_loop (fuel : nat) (z : Z) (acc : jsstr) : jsstr :=
  match fuel with
  | O => acc
  | S fuel =>
      let acc := hex_digit (z mod 16) :: acc in
      if z <? 16 then acc else hex_str_loop fuel (z / 16) acc
  end.

(** [z.toString(16)] of a 16-bit value. *)
Definition hex_str (z : Z) : jsstr := hex_str_loop 5 z [].

Fixpoint address_loop (st : runs) (h : Z) (buf : bytes) (address : jsstr) : jsstr :=
  match buf with
  | a :: b :: buf =>
      let address :=
        if h =? longest_start st then address ++ [58]
        else if (h <? longest_start st + longest_length st) && (longest_start st <? h) then address
        else (if bool_decide (address = []) then [] else address ++ [58]) ++ hex_str (256 * a + b) in
      address_loop st (h + 2) buf address
  | _ => address
  end.

Definition join_dots (b : bytes) : jsstr :=
  match b with
  | [] => []
  | x :: b => dec_str x ++ mjoin ((fun y => 46 :: dec_str y) <$> b)
  end.

Definition toString (x : t) : jsstr :=
  if blen (buffer x) =? 4 then join_dots (buffer x)
  else
    let st := runs_loop (blen (buffer x)) 0 (buffer x) (mkRuns (-1) 0 (-1)) in
    let address := address_loop st 0 (buffer x) [] in
    if bool_decide (char_at address (slen address - 1) = Some 58) then address ++ [58] else address.

Definition wf (x : t) : Prop :=
  wf_bytes (buffer x) /\ (length (buffer x) = 4%nat \/ length (buffer x) = 16%nat).

Lemma inet_constructor_ok x : wf x -> constructor (buffer x) = Ok x.
Proof.
  intros [_ Hl]. unfold constructor, blen.
  destruct Hl as [-> | ->]; by destruct x.
Qed.

(** A byte string given as groups. *)
Definition of_groups (gs : list Z) : t := mk (mjoin (be_bytes 2 <$> gs)).

Example inet_toString_example :
  toString (of_groups [0x2001; 0xdb8; 0; 0; 0; 0; 0; 1]) = js "2001:db8::1" /\
  toString (mk [127; 0; 0; 1]) = js "127.0.0.1" /\
  fromString (replicate 16 7) (js "2001:db8::1") = Ok (of_groups [0x2001; 0xdb8; 0; 0; 0; 0; 0; 1]) /\
  fromString (replicate 16 7) (js "::ffff:1.2.3.4") = Ok (of_groups [0; 0; 0; 0; 0; 0xffff; 0x102; 0x304]).
Proof. vm_compute. done. Qed.

Lemma dec_str_octet x : is_byte x -> is_octet (dec_str x) = true /\ dec_val (dec_str x) = x.
Proof.
  intros Hx. split; [|apply dec_str_spec, Hx].
  assert (H : forallb (fun n => is_octet (dec_str (Z.of_nat n))) (seq 0 256) = true)
    by (vm_compute; done).
  rewrite forallb_forall in H. unfold is_byte in Hx. specialize (H (Z.to_nat x)).
  rewrite Z2Nat.id in H by lia. apply H, in_seq. lia.
Qed.

Lemma split_join_dots b : b <> [] -> wf_bytes b -> split_on 46 (join_dots b) = dec_str <$> b.
Proof.
  destruct b as [|x b]; [done|]. intros _ Hb. apply Forall_cons_1 in Hb as [Hx Hb].
  unfold join_dots. revert x Hx. induction Hb as [|y b Hy Hb IH]; intros x Hx.
  - cbn [fmap list_fmap mjoin list_join]. rewrite app_nil_r. apply split_on_none.
    apply digits_no; [done|]. apply dec_str_spec. apply Hx.
  - cbn [fmap list_fmap mjoin list_join app]. rewrite split_on_app.
    + f_equal. by apply IH.
    + apply digits_no; [done|]. apply dec_str_spec. apply Hx.
Qed.

Lemma ipv4_text_roundtrip unsafe b :
  wf_bytes b -> length b = 4%nat -> fromString unsafe (toString (mk b)) = Ok (mk b).
Proof.
  intros Hb Hl. assert (Hne : b <> []) by (by intros ->).
  unfold toString. cbn [buffer]. rewrite (proj2 (Z.eqb_eq (blen b) 4)) by (unfold blen; lia).
  assert (E : (dec_val <$> (dec_str <$> b)) = b).
  { clear Hl Hne. induction Hb as [|x b Hx Hb IH]; [done|]. cbn [fmap list_fmap].
    rewrite IH. f_equal. by apply dec_str_octet. }
  assert (P : ipv4Pattern (join_dots b) = true).
  { unfold ipv4Pattern. rewrite split_join_dots by done. rewrite length_fmap, Hl. cbn [Nat.eqb andb].
    clear E Hl Hne. induction Hb as [|x b Hx Hb IH]; [done|]. cbn [fmap list_fmap forallb].
    rewrite IH, (proj1 (dec_str_octet x Hx)). done. }
  unfold fromString. destruct (join_dots b) as [|c r] eqn:Ej.
  { by destruct (split_on_none 46 [] eq_refl). }
  rewrite P, <- Ej, split_join_dots, E by done. apply (inet_constructor_ok (mk b)). split; [done|by left].
Qed.


(** The text of every IPv4 address parses back to it, whatever memory the parser
    allocates; but the text of the IPv6 address 0:1:0:1:1:1:1:1 drops its fourth group
    (the run of zeros opened at the third group is still open there), so it denotes
    another address; and parsing 1:2:3, which has too few groups, leaves ten bytes of
    the result as they were in memory. *)
Theorem inet_text :
  (forall unsafe b, wf_bytes b -> length b = 4%nat -> fromString unsafe (toString (mk b)) = Ok (mk b)) /\
  (let x := of_groups [0; 1; 0; 1; 1; 1; 1; 1] in
   toString x = js "0:1::1:1:1:1" /\
   forall unsafe, length unsafe = 16%nat ->
     exists y, fromString unsafe (toString x) = Ok y /\ y <> x) /\
  (forall unsafe, length unsafe = 16%nat ->
     fromString unsafe (js "1:2:3") = Ok (mk ([0; 1; 0; 2; 0; 3] ++ drop 6 unsafe))).
Proof.
  split; [intros; by apply ipv4_text_roundtrip|].
  split; [split; [vm_compute; reflexivity|]|]; intros unsafe Hl;
    do 17 (destruct unsafe as [|? unsafe]; simpl in Hl; try lia).
  - eexists. split; [vm_compute; reflexivity|]. vm_compute. intros [=].
  - vm_compute. reflexivity.
Qed.

End InetAddress.

Module BigDecimal.

Record t : Type := mk { intVal : Integer.t; scale : Z }.

#[export] Instance t_eq_dec : EqDecision t.
Proof. pose proof Integer.t_eq_dec. solve_decision. Defined.

Definition fromBuffer (buf : bytes) : result t :=
  scale ← readInt32BE buf 0;
  unscaledValue ← Integer.fromBuffer (slice_from buf 4);
  Ok (mk unscaledValue scale).

Definition toBuffer (value : t) : result bytes :=
  scaleBuffer ← int32_bytes (scale value);
  Ok (scaleBuffer ++ Integer.toBuffer (intVal value)).

(** The position of the first occurrence of a character. *)
Fixpoint index_of_char (c : Z) (s : jsstr) : option nat :=
  match s with
  | [] => None
  | x :: s => if x =? c then Some O else S <$> index_of_char c s
  end.

Definition fromString (value : jsstr) : result t :=
  match value with
  | [] => Err (TypeError "Invalid null or undefined value")
  | _ =>
      let value := trim value in
      match index_of_char 46 value with
      | Some scaleIndex =>
          i ← Integer.fromString (take scaleIndex value ++ drop (S scaleIndex) value) 10;
          Ok (mk i (slen value - 1 - Z.of_nat scaleIndex))
      | None => i ← Integer.fromString value 10; Ok (mk i 0)
      end
  end.

Definition fromNumber (value : number) : result t :=
  if is_nan value then Ok (mk Integer.ZERO 0)
  else
    let textValue := num_to_string value in
    match index_of_char 101 textValue with
    | Some _ => fromString (num_to_fixed20 value)
    | None => fromString textValue
    end.

Definition wf (x : t) : Prop := Integer.wf (intVal x) /\ int32 (scale x).

Lemma slice_from_app a b n : n = blen a -> slice_from (a ++ b) n = b.
Proof.
  intros ->. unfold slice_from. rewrite <- (app_nil_r b) at 1. apply slice_app; [done|].
  by rewrite blen_app.
Qed.

Lemma decimal_roundtrip x :
  wf x -> exists b, toBuffer x = Ok b /\ fromBuffer b = Ok x /\ (4 < length b)%nat.
Proof.
  intros [Hi Hs]. unfold toBuffer, int32_bytes. unfold int32 in Hs. rewrite int_bytes_ok by lia.
  rewrite ok_bind. eexists. split; [done|]. unfold fromBuffer.
  destruct (Integer.toBuffer_twos _ Hi) as (Hw & Hne & Hv & Hm).
  rewrite <- (app_nil_l (be_bytes 4 _ ++ _)), readInt32BE_app by done. rewrite ok_bind, app_nil_l.
  rewrite slice_from_app by (by rewrite blen_be).
  destruct (Integer.fromBuffer_value _ Hw) as (y & -> & Hy & Ey). rewrite ok_bind.
  assert (y = intVal x) as -> by (apply Integer.value_inj; [done|done|congruence]).
  destruct x. split; [done|]. rewrite length_app, be_bytes_length.
  destruct (Integer.toBuffer _); [done|]. simpl. lia.
Qed.

Example decimal_fromString_example :
  (toBuffer <$> fromString (js "-12.5")) = Ok (Ok [0; 0; 0; 1; 131]) /\
  (toBuffer <$> fromNumber (parseFloat (js "0.1"))) = Ok (Ok [0; 0; 0; 1; 1]).
Proof. vm_compute. done. Qed.

End BigDecimal.
