(* ===== verification/CqlTypes.v ===== *)
(** * CQL type descriptions

    The part of lib/types/index.js that describes CQL types: the [dataTypes] codes,
    [getByName] with [splitTypeArgs], [getDataTypeNameByCode], and the frame header.
    [columnInfo] is the description object of lib/types/cql-utils.ts. *)

From Stdlib Require Import SpecFloat.
From S2P Require Import Prelude JsNumber Buffer JsString Float NumText ProtocolVersion.

(** ** What the language runtime provides

    [toLowerCase] follows the Unicode tables; on ASCII it is the usual map. *)

Definition lower_ascii (c : Z) : Z := if (65 <=? c) && (c <=? 90) then c + 32 else c.

Class Unicode : Type := {
  toLowerCase : jsstr -> jsstr;
  toLowerCase_ascii : forall s,
    Forall (fun c => 0 <= c < 128) s -> toLowerCase s = lower_ascii <$> s
}.

#[export] Instance ascii_unicode : Unicode.
Proof. refine {| toLowerCase := fmap lower_ascii |}. done. Defined.

(** ** Type descriptions *)

(** The [info] of a description. [VectorInfo] is the pair of a vector's description
    (the one with [customTypeName: "vector"]); its dimension is a Number, an integer or, from
    a text, NaN or infinite. *)
Inductive cinfo (A : Type) : Type :=
| NoInfo
| TypeInfo (t : A)
| TypesInfo (ts : list A)
| UdtInfo (keyspace name : jsstr) (fields : list (jsstr * A))
| StrInfo (s : jsstr)
| VectorInfo (subtype : A) (dimension : number).

Arguments NoInfo {A}.
Arguments TypeInfo {A} t.
Arguments TypesInfo {A} ts.
Arguments UdtInfo {A} keyspace name fields.
Arguments StrInfo {A} s.
Arguments VectorInfo {A} subtype dimension.

Record typeOptions : Type := mkOptions { frozen : bool; reversed : bool }.

Local Unset Elimination Schemes.
Inductive columnInfo : Type := CI (code : Z) (info : cinfo columnInfo) (options : option typeOptions).
Local Set Elimination Schemes.

Definition ci_code (t : columnInfo) : Z := match t with CI c _ _ => c end.
Definition ci_info (t : columnInfo) : cinfo columnInfo := match t with CI _ i _ => i end.

Module dataTypes.

Definition custom : Z := 0x0000.
Definition ascii : Z := 0x0001.
Definition bigint : Z := 0x0002.
Definition blob : Z := 0x0003.
Definition boolean : Z := 0x0004.
Definition counter : Z := 0x0005.
Definition decimal : Z := 0x0006.
Definition double : Z := 0x0007.
Definition float : Z := 0x0008.
Definition int : Z := 0x0009.
Definition text : Z := 0x000a.
Definition timestamp : Z := 0x000b.
Definition uuid : Z := 0x000c.
Definition varchar : Z := 0x000d.
Definition varint : Z := 0x000e.
Definition timeuuid : Z := 0x000f.
Definition inet : Z := 0x0010.
Definition date : Z := 0x0011.
Definition time : Z := 0x0012.
Definition smallint : Z := 0x0013.
Definition tinyint : Z := 0x0014.
Definition duration : Z := 0x0015.
Definition list : Z := 0x0020.
Definition map : Z := 0x0021.
Definition set : Z := 0x0022.
Definition udt : Z := 0x0030.
Definition tuple : Z := 0x0031.

(** The number-valued properties of the object, in order. *)
Definition table : Datatypes.list (string * Z) :=
  [("custom", custom); ("ascii", ascii); ("bigint", bigint); ("blob", blob);
   ("boolean", boolean); ("counter", counter); ("decimal", decimal); ("double", double);
   ("float", float); ("int", int); ("text", text); ("timestamp", timestamp);
   ("uuid", uuid); ("varchar", varchar); ("varint", varint); ("timeuuid", timeuuid);
   ("inet", inet); ("date", date); ("time", time); ("smallint", smallint);
   ("tinyint", tinyint); ("duration", duration); ("list", list); ("map", map);
   ("set", set); ("udt", udt); ("tuple", tuple)]%string.

(** [dataTypes[name]], when it is a number. *)
Definition lookup_name (name : jsstr) : option Z :=
  snd <$> List.find (fun e => bool_decide (js (fst e) = name)) table.

(** [_dataTypesByCode[code]] *)
Definition _dataTypesByCode (code : Z) : option jsstr :=
  (fun e => js (fst e)) <$> List.find (fun e => snd e =? code) table.

End dataTypes.

(** The loop over the characters of the arguments: [start] opens the current segment,
    whose characters so far are [cur]. *)
Fixpoint splitTypeArgs_loop (depth : Z) (cur : jsstr) (args : jsstr) : list jsstr :=
  match args with
  | [] => [trim (rev cur)]
  | c :: args =>
      if c =? 60 then splitTypeArgs_loop (depth + 1) (c :: cur) args
      else if c =? 62 then splitTypeArgs_loop (depth - 1) (c :: cur) args
      else if (c =? 44) && (depth =? 0) then trim (rev cur) :: splitTypeArgs_loop depth [] args
      else splitTypeArgs_loop depth (c :: cur) args
  end.

Definition splitTypeArgs (args : jsstr) : list jsstr := splitTypeArgs_loop 0 [] args.

(** A character [.] of an expression does not match. *)
Definition is_line_end (c : Z) : bool :=
  (c =? 10) || (c =? 13) || (c =? 0x2028) || (c =? 0x2029).

(** [/^p<(.+)>$/]: the group, when the expression matches. *)
Definition match_args (p : string) (name : jsstr) : option jsstr :=
  match strip_prefix (js p ++ [60]) name with
  | None => None
  | Some rest =>
      match rev rest with
      | c :: body =>
          let g := rev body in
          if (c =? 62) && negb (bool_decide (g = [])) && negb (existsb is_line_end g)
          then Some g else None
      | [] => None
      end
  end.

(** The Number that parsing an integer gives; none is NaN. *)
Definition int_number (z : option Z) : number := match z with Some z => num_of_Z z | None => S754_nan end.

(** The dimension as an integer; none is NaN.  An infinite one, which the text of an integer
    of more than 308 digits gives, is replaced by an integer above every Number. *)
Definition dim_value (d : number) : option Z :=
  match d with
  | S754_nan => None
  | S754_infinity s => Some (if s then - 2 ^ 1024 else 2 ^ 1024)
  | _ => Some (num_trunc d)
  end.

Lemma dim_value_of_Z z : safe_int z -> dim_value (num_of_Z z) = Some z.
Proof.
  intros Hz. destruct (Z.eq_dec z 0) as [->|Hnz]; [done|]. rewrite <- (num_trunc_of_Z z Hz) at 2.
  by destruct (num_of_Z_finite z Hz Hnz) as (m & k & -> & _).
Qed.

Definition simple (code : Z) : columnInfo := CI code NoInfo None.
Definition of_info (code : Z) (info : cinfo columnInfo) : columnInfo := CI code info None.

Section getByName.
Context `{Unicode}.

(** The last statements of [getByName]. *)
Definition getByName_single (name : jsstr) : result columnInfo :=
  match dataTypes.lookup_name name with
  | Some code => Ok (simple code)
  | None => Err (TypeError "Data type with name not valid")
  end.

(** One call of [getByName], its recursive calls given. *)
Definition getByName_body (rec : jsstr -> result columnInfo) (name : jsstr) : result columnInfo :=
  let name := toLowerCase name in
  if negb (existsb (Z.eqb 60) (drop 1 name)) || starts_with [60] name then getByName_single name else
  match match_args "list" name, match_args "set" name with
  | Some g, _ => t ← rec g; Ok (of_info dataTypes.list (TypeInfo t))
  | _, Some g => t ← rec g; Ok (of_info dataTypes.set (TypeInfo t))
  | None, None =>
  let map_args := splitTypeArgs <$> match_args "map" name in
  match map_args with
  | Some [k; v] => k ← rec k; v ← rec v; Ok (of_info dataTypes.map (TypesInfo [k; v]))
  | _ =>
  match match_args "udt" name with
  | Some g => Ok (of_info dataTypes.udt (StrInfo g))
  | None =>
  match match_args "tuple" name with
  | Some g => ts ← traverse rec (splitTypeArgs g); Ok (of_info dataTypes.tuple (TypesInfo ts))
  | None =>
  match splitTypeArgs <$> match_args "vector" name with
  | Some [sub; dim] =>
      if negb (bool_decide (dim = [])) && forallb is_digit dim
      then t ← rec sub; Ok (of_info dataTypes.custom (VectorInfo t (int_number (parseInt dim 10))))
      else getByName_single name
  | _ => getByName_single name
  end end end end end.

(** A recursive call is on a proper part of the name, one [<] shorter. *)
Fixpoint getByName_fuel (fuel : nat) (name : jsstr) : result columnInfo :=
  match fuel with
  | O => Err (DriverInternalError "fuel")
  | S fuel => getByName_body (getByName_fuel fuel) name
  end.

Definition getByName (name : jsstr) : result columnInfo :=
  getByName_fuel (S (count 60 name)) name.

End getByName.

Fixpoint join (sep : jsstr) (l : list jsstr) : jsstr :=
  match l with
  | [] => []
  | [x] => x
  | x :: l => x ++ sep ++ join sep l
  end.

(** [a + undefined], and an undefined element of a joined array. *)
Definition plus_str (s : option jsstr) : jsstr := default (js "undefined") s.
Definition join_str (s : option jsstr) : jsstr := default [] s.

(** The name; none is [undefined], which a UDT named by a string hint gives. *)
Fixpoint getDataTypeNameByCode (item : columnInfo) : result (option jsstr) :=
  match item with
  | CI code info _ =>
      match dataTypes._dataTypesByCode code with
      | None => Err (ArgumentError "Type with code not found")
      | Some typeName =>
          match info with
          | NoInfo => Ok (Some typeName)
          | StrInfo s =>
              if negb (bool_decide (s = [])) && (code =? dataTypes.udt) then Ok None
              else Ok (Some typeName)
          | VectorInfo sub dim =>
              n ← getDataTypeNameByCode sub;
              if code =? dataTypes.custom then
                Ok (Some (js "vector<" ++ plus_str n ++ js ", " ++ num_to_string dim ++ js ">"))
              else Err (ArgumentError "Invalid signature type definition")
          | TypesInfo ts =>
              ns ← traverse getDataTypeNameByCode ts;
              Ok (Some (typeName ++ js "<" ++ join (js ", ") (join_str <$> ns) ++ js ">"))
          | TypeInfo t =>
              n ← getDataTypeNameByCode t; Ok (Some (typeName ++ js "<" ++ plus_str n ++ js ">"))
          | UdtInfo _ name _ => Ok (Some (if code =? dataTypes.udt then name else typeName))
          end
      end
  end.

(** ** Induction on descriptions *)

Definition cinfo_all {A} (P : A -> Prop) (info : cinfo A) : Prop :=
  match info with
  | NoInfo | StrInfo _ => True
  | TypeInfo t | VectorInfo t _ => P t
  | TypesInfo ts => Forall P ts
  | UdtInfo _ _ fields => Forall (fun f => P (snd f)) fields
  end.

Definition columnInfo_all_ind (P : columnInfo -> Prop)
    (H : forall code info options, cinfo_all P info -> P (CI code info options)) :
  forall t, P t :=
  fix go t :=
    match t with
    | CI code info options =>
        H code info options
          match info return cinfo_all P info with
          | NoInfo | StrInfo _ => I
          | TypeInfo t | VectorInfo t _ => go t
          | TypesInfo ts =>
              (fix gos ts : Forall P ts :=
                 match ts with
                 | [] => Forall_nil_2 _
                 | t :: ts => Forall_cons_2 _ _ _ (go t) (gos ts)
                 end) ts
          | UdtInfo _ _ fields =>
              (fix gof fs : Forall (fun f => P (snd f)) fs :=
                 match fs with
                 | [] => Forall_nil_2 _
                 | f :: fs => Forall_cons_2 _ _ _ (go (snd f)) (gof fs)
                 end) fields
          end
    end.

(** ** Names parse back *)

(** A dimension below 10^15; an array has fewer than 2^32 elements. *)
Definition dimension_ok (d : number) : bool :=
  let z := num_trunc d in (0 <=? z) && (z <? 10 ^ 15) && bool_decide (d = num_of_Z z).

(** The descriptions whose printed name denotes them: no UDT, no class name, no options. *)
Fixpoint nameable (t : columnInfo) : bool :=
  match t with
  | CI code info None =>
      match info with
      | NoInfo => match dataTypes._dataTypesByCode code with Some _ => true | None => false end
      | TypeInfo t => ((code =? dataTypes.list) || (code =? dataTypes.set)) && nameable t
      | TypesInfo ts =>
          ((code =? dataTypes.map) && (length ts =? 2)%nat
           || (code =? dataTypes.tuple) && (0 <? length ts)%nat) && forallb nameable ts
      | VectorInfo t d => (code =? dataTypes.custom) && dimension_ok d && nameable t
      | _ => false
      end
  | _ => false
  end.

(** The characters of a printed name. *)
Definition name_char (c : Z) : Prop := 0 <= c < 128 /\ lower_ascii c = c /\ is_line_end c = false.

(** The loop of [splitTypeArgs] reads [s] as one piece at depth [lo] or deeper. *)
Definition passes (lo : Z) (s : jsstr) : Prop :=
  forall d cur rest, lo <= d ->
    splitTypeArgs_loop d cur (s ++ rest) = splitTypeArgs_loop d (rev s ++ cur) rest.

Definition no_space_ends (s : jsstr) : Prop :=
  (exists c r, s = c :: r /\ is_space c = false /\ c <> 60) /\
  (exists c r, rev s = c :: r /\ is_space c = false).

Record printed (s : jsstr) : Prop := {
  printed_chars : Forall name_char s;
  printed_passes : passes 0 s;
  printed_ends : no_space_ends s
}.

Lemma trim_id s : no_space_ends s -> trim s = s.
Proof.
  intros [(c & r & -> & Hc & _) (c' & r' & Hr & Hc')]. unfold trim. cbn [skip_space].
  rewrite Hc, Hr. cbn [skip_space]. rewrite Hc', <- Hr. apply rev_involutive.
Qed.

Lemma trim_space s : trim (32 :: s) = trim s.
Proof. done. Qed.

Lemma passes_app lo a b : passes lo a -> passes lo b -> passes lo (a ++ b).
Proof.
  intros Ha Hb d cur rest Hd. rewrite <- app_assoc, Ha, Hb, rev_app_distr, <- app_assoc by done. done.
Qed.

Lemma passes_weaken lo lo' s : lo <= lo' -> passes lo s -> passes lo' s.
Proof. intros Hl Hs d cur rest Hd. apply Hs. lia. Qed.

Lemma passes_plain s :
  forallb (fun c => negb (c =? 60) && negb (c =? 62) && negb (c =? 44)) s = true -> passes 0 s.
Proof.
  intros Hs d cur rest Hd. revert cur. induction s as [|c s IH]; intros cur; [done|].
  cbn [forallb] in Hs. apply andb_true_iff in Hs as [Hc Hs].
  apply andb_true_iff in Hc as [[H1 H2]%andb_true_iff H3]. apply negb_true_iff in H1, H2, H3.
  cbn [app splitTypeArgs_loop rev]. rewrite H1, H2, H3. cbn [andb]. rewrite IH by done.
  by rewrite <- app_assoc.
Qed.

(** Inside brackets a comma does not split. *)
Lemma passes_comma : passes 1 (js ", ").
Proof.
  intros d cur rest Hd. cbn [js app splitTypeArgs_loop]. change (44 =? 60) with false.
  cbn [Z.eqb Pos.eqb andb]. rewrite (proj2 (Z.eqb_neq d 0)) by lia. done.
Qed.

Lemma passes_brackets s : passes 1 s -> passes 0 (60 :: s ++ [62]).
Proof.
  intros Hs d cur rest Hd. cbn [app splitTypeArgs_loop]. change (60 =? 60) with true. cbv iota.
  rewrite <- app_assoc, Hs by lia. cbn [app splitTypeArgs_loop].
  change (62 =? 60) with false. change (62 =? 62) with true. cbv iota.
  replace (d + 1 - 1) with d by lia.
  cbn [rev]. rewrite rev_app_distr. cbn [rev app]. by rewrite <- !app_assoc.
Qed.

Lemma passes_join lo l : lo <= 1 -> Forall (passes lo) l -> passes 1 (join (js ", ") l).
Proof.
  intros Hl. induction 1 as [|x l Hx Hr IH]; [done|]. destruct l as [|y l].
  - by apply (passes_weaken lo).
  - apply passes_app; [by apply (passes_weaken lo)|]. apply passes_app; [apply passes_comma|done].
Qed.

(** The names of the table, one by one. *)
Definition plain_name (s : jsstr) : bool :=
  forallb (fun c => negb (c =? 60) && negb (c =? 62) && negb (c =? 44)) s &&
  forallb (fun c => (0 <=? c) && (c <? 128) && (lower_ascii c =? c) && negb (is_line_end c)) s &&
  match s, rev s with c :: _, c' :: _ => negb (is_space c) && negb (is_space c') | _, _ => false end.

Lemma plain_name_printed s : plain_name s = true -> printed s.
Proof.
  unfold plain_name. intros [[Hp Hc]%andb_true_iff He]%andb_true_iff.
  split.
  - apply List.Forall_forall. intros c Hin. rewrite forallb_forall in Hc. apply Hc in Hin.
    apply andb_true_iff in Hin as [[[? ?]%andb_true_iff ?]%andb_true_iff ?].
    unfold name_char. rewrite negb_true_iff, ?Z.leb_le, ?Z.ltb_lt, ?Z.eqb_eq in *. auto.
  - by apply passes_plain.
  - destruct s as [|c s]; [done|]. destruct (rev (c :: s)) as [|c' r] eqn:Er; [done|].
    apply andb_true_iff in He as [H1%negb_true_iff H2%negb_true_iff].
    split; [exists c, s|exists c', r]; split_and!; try done. cbn [forallb] in Hp.
    intros ->. done.
Qed.

Lemma table_plain : forallb (fun e => plain_name (js (fst e))) dataTypes.table = true.
Proof. vm_compute. done. Qed.

Lemma by_code_inv code name :
  dataTypes._dataTypesByCode code = Some name -> plain_name name = true /\
  dataTypes.lookup_name name = Some code.
Proof.
  unfold dataTypes._dataTypesByCode. destruct (List.find _ _) as [e|] eqn:E; [|done].
  intros [= <-]. apply List.find_some in E as [Hin Hc%Z.eqb_eq]. subst code.
  split; [pose proof table_plain as H; rewrite forallb_forall in H; by apply H in Hin|].
  assert (H : forallb (fun e => bool_decide (dataTypes.lookup_name (js (fst e)) = Some (snd e)))
                      dataTypes.table = true) by (vm_compute; done).
  rewrite forallb_forall in H. by apply H in Hin as ?%bool_decide_eq_true.
Qed.

Lemma printed_lower `{Unicode} s : Forall name_char s -> toLowerCase s = s.
Proof.
  intros Hs. rewrite toLowerCase_ascii.
  - induction Hs as [|c s (_ & Hc & _) Hs IH]; [done|]. cbn [fmap list_fmap]. by rewrite Hc, IH.
  - eapply Forall_impl; [|exact Hs]. by intros c [? _].
Qed.

Lemma split_join l : l <> [] -> Forall printed l -> splitTypeArgs (join (js ", ") l) = l.
Proof.
  intros Hne Hl.
  enough (H : forall s, (s = [] \/ s = [32]) ->
            splitTypeArgs_loop 0 s (join (js ", ") l) = l) by (apply (H []); by left).
  induction Hl as [|x l [_ Hx He] Hl IH]; [done|]. intros s Hs.
  assert (Ht : trim (rev (rev x ++ s)) = x).
  { rewrite rev_app_distr, rev_involutive. destruct Hs as [-> | ->]; cbn [rev app].
    - by apply trim_id.
    - rewrite trim_space. by apply trim_id. }
  destruct l as [|y l].
  - cbn [join]. rewrite <- (app_nil_r x) at 1. rewrite Hx by lia. cbn [splitTypeArgs_loop]. by rewrite Ht.
  - change (join (js ", ") (x :: y :: l)) with (x ++ 44 :: 32 :: join (js ", ") (y :: l)).
    rewrite Hx by lia. cbn [splitTypeArgs_loop Z.eqb Pos.eqb andb]. rewrite Ht. f_equal.
    apply IH; [done|by right].
Qed.

Lemma match_args_hit p g :
  g <> [] -> Forall name_char g -> match_args p (js p ++ 60 :: g ++ [62]) = Some g.
Proof.
  intros Hne Hg. unfold match_args.
  replace (js p ++ 60 :: g ++ [62]) with ((js p ++ [60]) ++ g ++ [62]) by (by rewrite <- app_assoc).
  rewrite strip_prefix_app, rev_app_distr. cbn [rev app]. rewrite rev_involutive.
  rewrite bool_decide_eq_false_2 by done. cbn [Z.eqb Pos.eqb negb andb].
  replace (existsb is_line_end g) with false; [done|].
  induction Hg as [|c g (_ & _ & Hc) Hg IH]; [done|]. cbn [existsb]. rewrite Hc.
  destruct g; [done|]. by apply IH.
Qed.

(** The name of a type with arguments. *)
Definition wrap (p : string) (g : jsstr) : jsstr := js p ++ 60 :: g ++ [62].

Lemma match_args_wrap p g : g <> [] -> Forall name_char g -> match_args p (wrap p g) = Some g.
Proof. apply match_args_hit. Qed.

Lemma wrap_printed p g :
  plain_name (js p) = true -> Forall name_char g -> passes 1 g -> printed (wrap p g).
Proof.
  intros Hp Hg Hpass. destruct (plain_name_printed _ Hp) as [Hc Hpp [(c & r & E & Hs & H60) _]].
  unfold wrap. split.
  - apply Forall_app. split; [done|]. apply Forall_cons_2; [done|]. apply Forall_app. split; [done|].
    apply Forall_cons_2; [done|apply Forall_nil_2].
  - apply passes_app; [done|]. by apply passes_brackets.
  - split; [exists c, (r ++ 60 :: g ++ [62]); by rewrite E|].
    exists 62, (rev (js p ++ 60 :: g)). split; [|done].
    by rewrite app_comm_cons, app_assoc, rev_app_distr.
Qed.

Lemma wrap_body `{Unicode} rec p g :
  plain_name (js p) = true -> Forall name_char g -> passes 1 g ->
  getByName_body rec (wrap p g) =
  let name := wrap p g in
  match match_args "list" name, match_args "set" name with
  | Some g, _ => t ← rec g; Ok (of_info dataTypes.list (TypeInfo t))
  | _, Some g => t ← rec g; Ok (of_info dataTypes.set (TypeInfo t))
  | None, None =>
  match splitTypeArgs <$> match_args "map" name with
  | Some [k; v] => k ← rec k; v ← rec v; Ok (of_info dataTypes.map (TypesInfo [k; v]))
  | _ =>
  match match_args "udt" name with
  | Some g => Ok (of_info dataTypes.udt (StrInfo g))
  | None =>
  match match_args "tuple" name with
  | Some g => ts ← traverse rec (splitTypeArgs g); Ok (of_info dataTypes.tuple (TypesInfo ts))
  | None =>
  match splitTypeArgs <$> match_args "vector" name with
  | Some [sub; dim] =>
      if negb (bool_decide (dim = [])) && forallb is_digit dim
      then t ← rec sub; Ok (of_info dataTypes.custom (VectorInfo t (int_number (parseInt dim 10))))
      else getByName_single name
  | _ => getByName_single name
  end end end end end.
Proof.
  intros Hp Hg Hpass. destruct (wrap_printed p g Hp Hg Hpass) as [Hc _ _].
  unfold getByName_body. rewrite (printed_lower _ Hc).
  destruct (plain_name_printed _ Hp) as [_ _ [(c & r & E & _ & H60) _]].
  assert (E1 : existsb (Z.eqb 60) (drop 1 (wrap p g)) = true).
  { unfold wrap. rewrite E. change (existsb (Z.eqb 60) (r ++ 60 :: g ++ [62]) = true). rewrite existsb_app. cbn [existsb Z.eqb Pos.eqb].
    change (60 =? 60) with true. apply orb_true_r. }
  assert (E2 : starts_with [60] (wrap p g) = false).
  { unfold wrap, starts_with. rewrite E. cbn [app strip_prefix].
    rewrite (proj2 (Z.eqb_neq 60 c)) by congruence. done. }
  rewrite E1, E2. done.
Qed.

Lemma single_body `{Unicode} rec code name :
  dataTypes._dataTypesByCode code = Some name -> getByName_body rec name = Ok (simple code).
Proof.
  intros [Hp Hl]%by_code_inv. destruct (plain_name_printed _ Hp) as [Hc _ _].
  unfold getByName_body. rewrite (printed_lower _ Hc).
  replace (existsb (Z.eqb 60) (drop 1 name)) with false.
  - cbn [negb orb]. unfold getByName_single. by rewrite Hl.
  - apply andb_true_iff in Hp as [[Hp _]%andb_true_iff _]. symmetry. apply not_true_is_false.
    intros (x & Hin & Hx%Z.eqb_eq)%existsb_exists. subst x. rewrite forallb_forall in Hp.
    assert (Hin' : In 60 name) by (rewrite <- (take_drop 1 name); apply in_or_app; by right).
    by apply Hp in Hin'.
Qed.

Lemma count_wrap p g :
  plain_name (js p) = true -> (count 60 (wrap p g) = S (count 60 g))%nat.
Proof.
  intros Hp. unfold wrap, count. rewrite filter_app. cbn [List.filter]. change (60 =? 60) with true.
  cbv iota. rewrite filter_app. cbn [List.filter]. change (60 =? 62) with false. cbv iota.
  rewrite app_nil_r, length_app. cbn [length]. replace (List.filter (Z.eqb 60) (js p)) with (@nil Z); [done|].
  apply andb_true_iff in Hp as [[Hp _]%andb_true_iff _]. induction (js p) as [|c s IH]; [done|].
  cbn [forallb List.filter] in *. apply andb_true_iff in Hp as [Hc Hp].
  rewrite Z.eqb_sym. destruct (c =? 60) eqn:Ec; [|by apply IH]. apply Z.eqb_eq in Ec. by subst c.
Qed.

Lemma count_join x l : x ∈ l -> (count 60 x <= count 60 (join (js ", ") l))%nat.
Proof.
  unfold count. induction l as [|y l IH]; [by intros ?%elem_of_nil|].
  intros [-> | Hin]%elem_of_cons.
  - destruct l; cbn [join]; [done|]. rewrite filter_app, length_app. lia.
  - destruct l as [|z l]; [by apply elem_of_nil in Hin|].
    change (join (js ", ") (y :: z :: l)) with (y ++ js ", " ++ join (js ", ") (z :: l)).
    rewrite !filter_app, !length_app. specialize (IH Hin). lia.
Qed.

Lemma join_chars l : Forall printed l -> Forall name_char (join (js ", ") l).
Proof.
  induction 1 as [|x l [Hx _ _] Hl IH]; [constructor|]. destruct l as [|y l]; [done|].
  apply Forall_app. split; [done|]. apply Forall_app. split; [|done]. repeat (apply Forall_cons_2; [done|]). apply Forall_nil_2.
Qed.

Lemma join_ne l : l <> [] -> Forall printed l -> join (js ", ") l <> [].
Proof.
  destruct l as [|x l]; [done|]. intros _ Hl. apply Forall_cons_1 in Hl as [[_ _ [(c & r & -> & _) _]] _].
  by destruct l.
Qed.

Lemma digits_printed s : s <> [] -> Forall (fun c => is_digit c = true) s -> printed s.
Proof.
  intros Hne Hs.
  assert (Hc : forall c, is_digit c = true -> plain_name [c] = true).
  { intros c [H1%Z.leb_le H2%Z.leb_le]%andb_true_iff. unfold plain_name, lower_ascii, is_line_end, is_space.
    cbn [forallb rev app]. repeat (case_Z; try lia). done. }
  split.
  - eapply Forall_impl; [|exact Hs]. intros c Hd%Hc%plain_name_printed%printed_chars.
    by apply Forall_cons_1 in Hd as [].
  - apply passes_plain. clear Hne. induction Hs as [|c s Hd Hs IH]; [done|]. cbn [forallb].
    rewrite IH, andb_true_r. apply Hc in Hd. apply andb_true_iff in Hd as [[Hd _]%andb_true_iff _].
    cbn [forallb] in Hd. by rewrite andb_true_r in Hd.
  - split.
    + destruct s as [|c s]; [done|]. apply Forall_cons_1 in Hs as [Hd _].
      destruct (printed_ends _ (plain_name_printed _ (Hc c Hd))) as [(x & r & [= <- <-] & Hx) _].
      by exists c, s.
    + destruct (rev s) as [|c r] eqn:E; [by rewrite <- (rev_involutive s), E in Hne|].
      exists c, r. split; [done|]. apply Forall_rev in Hs. rewrite E in Hs.
      apply Forall_cons_1 in Hs as [Hd _].
      by destruct (printed_ends _ (plain_name_printed _ (Hc c Hd))) as [(x & r' & [= <- <-] & Hx & _) _].
Qed.

(** A description and the text that denotes it, with the fuel that is enough. *)
Definition named `{Unicode} (t : columnInfo) (n : jsstr) : Prop :=
  getDataTypeNameByCode t = Ok (Some n) /\ printed n /\
  forall fuel, (count 60 n < fuel)%nat -> getByName_fuel fuel n = Ok t.

Lemma named_single `{Unicode} code name :
  dataTypes._dataTypesByCode code = Some name -> named (simple code) name.
Proof.
  intros E. unfold named. cbn [simple getDataTypeNameByCode]. rewrite E. split; [done|].
  split; [apply plain_name_printed; by apply by_code_inv in E as []|].
  intros [|fuel] Hf; [lia|]. cbn [getByName_fuel]. by apply single_body.
Qed.

(** Reduces a recursive call on the text of a type with arguments to its branch. *)
Ltac wrap_name :=
  let fuel := fresh "fuel" in let Hf := fresh "Hf" in
  split; [by apply wrap_printed|]; intros [|fuel] Hf; [lia|];
  cbn [getByName_fuel]; rewrite count_wrap in Hf by done; rewrite wrap_body by done; cbv zeta.

Lemma named_collection `{Unicode} code t n :
  code = dataTypes.list \/ code = dataTypes.set -> named t n ->
  exists n', named (of_info code (TypeInfo t)) n'.
Proof.
  intros Hc (En & [Hch Hp He] & Hr).
  assert (Hne : n <> []) by (by destruct He as [(c & r & -> & _) _]).
  assert (Hp1 : passes 1 n) by (by apply (passes_weaken 0)).
  unfold named. cbn [of_info getDataTypeNameByCode]. rewrite En.
  destruct Hc as [-> | ->]; [exists (wrap "list" n)|exists (wrap "set" n)]; (split; [done|]; wrap_name).
  - rewrite match_args_wrap, Hr by (done || lia). done.
  - change (match_args "list" (wrap "set" n)) with (@None jsstr).
    rewrite match_args_wrap, Hr by (done || lia). done.
Qed.

Lemma named_all `{Unicode} ts :
  Forall (fun t => exists n, named t n) ts ->
  exists ns, traverse getDataTypeNameByCode ts = Ok (Some <$> ns) /\
    length ns = length ts /\ Forall printed ns /\
    forall fuel, (forall n, n ∈ ns -> (count 60 n < fuel)%nat) ->
                 traverse (getByName_fuel fuel) ns = Ok ts.
Proof.
  induction 1 as [|t ts (n & En & Hp & Hr) _ (ns & Ens & Hl & Hps & Hrs)].
  - exists []. by split_and!.
  - exists (n :: ns). cbn [traverse]. rewrite En, ok_bind, Ens. split; [done|].
    split; [cbn [length]; lia|]. split; [by constructor|]. intros fuel Hf. cbn [traverse].
    rewrite Hr by (apply Hf; left). rewrite ok_bind, Hrs by (intros; apply Hf; by right). done.
Qed.

(** What the arguments of a tuple, a map or a vector need. *)
Lemma join_printed ns :
  ns <> [] -> Forall printed ns ->
  let g := join (js ", ") ns in
  g <> [] /\ Forall name_char g /\ passes 1 g /\ splitTypeArgs g = ns.
Proof.
  intros Hne Hps. split; [by apply join_ne|]. split; [by apply join_chars|].
  split; [|by apply split_join]. apply (passes_join 0); [lia|].
  eapply Forall_impl; [|exact Hps]. by intros ? [].
Qed.

Ltac skip_args := cbn [fmap option_fmap option_map]; repeat first
  [ change (match_args "list" _) with (@None jsstr) at 1 | change (match_args "set" _) with (@None jsstr) at 1
  | change (match_args "map" _) with (@None jsstr) at 1 | change (match_args "udt" _) with (@None jsstr) at 1
  | change (match_args "tuple" _) with (@None jsstr) at 1 ]; cbn [fmap option_fmap option_map].

Lemma named_types `{Unicode} code ts :
  code = dataTypes.map /\ length ts = 2%nat \/ code = dataTypes.tuple /\ ts <> [] ->
  Forall (fun t => exists n, named t n) ts -> exists n, named (of_info code (TypesInfo ts)) n.
Proof.
  intros Hc (ns & Ens & Hl & Hps & Hrs)%named_all.
  assert (Hns : ns <> []) by (intros ->; destruct ts; [by destruct Hc as [[_ ?]|[_ ?]]|done]).
  destruct (join_printed ns Hns Hps) as (Hg & Hch & Hp1 & Hsplit). unfold named.
  assert (Hsub : forall fuel, (count 60 (join (js ", ") ns) < fuel)%nat ->
            traverse (getByName_fuel fuel) ns = Ok ts).
  { intros fuel Hf. apply Hrs. intros n Hn%count_join. lia. }
  assert (Hj : join_str <$> (Some <$> ns) = ns).
  { rewrite <- list_fmap_compose. by apply list_fmap_id. }
  cbn [of_info getDataTypeNameByCode]. rewrite Ens. cbn [mbind result_bind]. rewrite Hj.
  destruct Hc as [[-> Hlen] | [-> _]];
    [exists (wrap "map" (join (js ", ") ns))|exists (wrap "tuple" (join (js ", ") ns))];
    (split; [done|]; wrap_name).
  - skip_args. rewrite match_args_wrap by done.
    cbn [fmap option_fmap option_map]. rewrite Hsplit.
    specialize (Hsub fuel ltac:(lia)). destruct ns as [|k [|v [|]]]; cbn [length] in Hl; try lia.
    cbn [traverse] in Hsub. destruct (getByName_fuel fuel k) as [tk|]; [|done].
    destruct (getByName_fuel fuel v) as [tv|]; [|done]. cbn in Hsub |- *. by injection Hsub as <-.
  - skip_args.
    rewrite match_args_wrap, Hsplit, Hsub by (done || lia). done.
Qed.

Lemma named_vector `{Unicode} t n d :
  0 <= d < 10 ^ 15 -> named t n -> exists n', named (of_info dataTypes.custom (VectorInfo t (num_of_Z d))) n'.
Proof.
  intros Hd (En & Hpr & Hr). destruct (dec_str_spec d) as (Hdig & Hv & Hdne); [lia|].
  pose proof (digits_printed _ Hdne Hdig) as Hdp. set (ns := [n; dec_str d]).
  assert (Hps : Forall printed ns) by (repeat (apply Forall_cons_2; [done|]); apply Forall_nil_2).
  assert (Hns : ns <> []) by done.
  destruct (join_printed ns Hns Hps) as (Hg & Hch & Hp1 & Hsplit).
  assert (Hfb : forallb is_digit (dec_str d) = true)
    by (apply forallb_forall; rewrite List.Forall_forall in Hdig; done).
  assert (Hcn : (count 60 n <= count 60 (join (js ", ") ns))%nat) by (apply count_join; left).
  exists (wrap "vector" (join (js ", ") ns)). unfold named. split.
  { cbn [of_info getDataTypeNameByCode].
    change (dataTypes._dataTypesByCode dataTypes.custom) with (Some (js "custom")).
    rewrite En, ok_bind, num_to_string_int by done.
    unfold wrap, ns. cbn [join plus_str default]. change (js ", ") with [44; 32].
    change (dataTypes.custom =? dataTypes.custom) with true. cbv iota. do 2 f_equal.
    cbn [app]. by rewrite <- !app_assoc. }
  wrap_name.
  skip_args. rewrite match_args_wrap by done. cbn [fmap option_fmap option_map].
  rewrite Hsplit. unfold ns. rewrite bool_decide_eq_false_2, Hfb by done. cbn [negb andb].
  rewrite Hr by lia. rewrite ok_bind, parseInt_dec, Hv by done. done.
Qed.

Lemma nameable_named `{Unicode} (t : columnInfo) : nameable t = true -> exists n, named t n.
Proof.
  induction t as [code info options IH] using columnInfo_all_ind. destruct options; [done|].
  cbn [nameable]. destruct info as [|t|ts| | |t d]; cbn [cinfo_all] in IH; try done.
  - intros Hn. destruct (dataTypes._dataTypesByCode code) as [name|] eqn:E; [|done].
    exists name. by apply named_single.
  - intros [Hc Ht]%andb_true_iff. destruct (IH Ht) as [n Hn].
    apply (named_collection code t n); [|done].
    by apply orb_true_iff in Hc as [->%Z.eqb_eq | ->%Z.eqb_eq]; [left|right].
  - intros [Hc Hts]%andb_true_iff. apply named_types.
    + apply orb_true_iff in Hc as [[->%Z.eqb_eq Hl%Nat.eqb_eq]%andb_true_iff |
                                   [->%Z.eqb_eq Hl%Nat.ltb_lt]%andb_true_iff]; [by left|].
      right. split; [done|]. intros ->. simpl in Hl. lia.
    + clear Hc. induction IH as [|t ts Ht _ IHs]; [constructor|]. cbn [forallb] in Hts.
      apply andb_true_iff in Hts as [H1 H2]. constructor; auto.
  - intros [[->%Z.eqb_eq Hd]%andb_true_iff Ht]%andb_true_iff. unfold dimension_ok in Hd.
    apply andb_true_iff in Hd as [[H0%Z.leb_le H1%Z.ltb_lt]%andb_true_iff ->%bool_decide_eq_true].
    destruct (IH Ht) as [n Hn]. by apply (named_vector t n).
Qed.

(** C36. Printing a type description and parsing the text: [getByName] of the name
    [getDataTypeNameByCode] gives is the description, for every description built from
    the type codes, lists, sets, maps, tuples and vectors at any depth whose dimensions are
    integers below 10^15.  (Larger dimensions are Numbers that a name rounds, or prints with an
    exponent that it does not read.) *)
Theorem getByName_getDataTypeNameByCode `{Unicode} (t : columnInfo) :
  nameable t = true ->
  exists n, getDataTypeNameByCode t = Ok (Some n) /\ getByName n = Ok t.
Proof.
  intros (n & En & _ & Hr)%nameable_named. exists n. split; [done|]. apply Hr. lia.
Qed.

Lemma getByName_getDataTypeNameByCode_witness :
  let t := of_info dataTypes.map (TypesInfo [simple dataTypes.text;
             of_info dataTypes.custom (VectorInfo (of_info dataTypes.tuple
               (TypesInfo [simple dataTypes.int; simple dataTypes.uuid])) (num_of_Z 3))]) in
  getDataTypeNameByCode t = Ok (Some (js "map<text, vector<tuple<int, uuid>, 3>>")) /\
  exists n, getDataTypeNameByCode t = Ok (Some n) /\ getByName n = Ok t.
Proof.
  intros t. split; [vm_compute; reflexivity|].
  apply (getByName_getDataTypeNameByCode t). vm_compute. reflexivity.
Defined.

(** From 10^21 on the printed dimension is not read, and from 2^53 on it is rounded. *)
Example large_dimensions :
  getDataTypeNameByCode (of_info dataTypes.custom (VectorInfo (simple dataTypes.int) (num_of_Z (10 ^ 21))))
    = Ok (Some (js "vector<int, 1e+21>")) /\
  getByName (js "vector<int, 1e+21>") = Err (TypeError "Data type with name not valid") /\
  getByName (js "vector<int, 9007199254740993>")
    = Ok (of_info dataTypes.custom (VectorInfo (simple dataTypes.int) (num_of_Z 9007199254740992))).
Proof. vm_compute. by split_and!. Qed.
