(* ===== verification/Frame.v ===== *)
(** * Frames

    The frame header of lib/types/index.js and the FrameReader of lib/reader.js, which
    walks the body of a result. *)

From S2P Require Import Prelude JsNumber Buffer ProtocolVersion.

Module FrameHeader.
Import protocolVersion.

Record t : Type := mk { version : Z; flags : Z; streamId : Z; opcode : Z; bodyLength : Z }.

Definition size (version : Z) : Z := if uses2BytesStreamIds version then 9 else 8.

Definition getProtocolVersion (buffer : bytes) : Z := Z.land (default 0 (byte_at buffer 0)) 0x7f.

Definition fromBuffer (buf : bytes) (offset : Z) : result t :=
  let version := Z.land (default 0 (byte_at buf offset)) 0x7f in
  let offset := offset + 1 in
  flags ← readUInt8 buf offset;
  let offset := offset + 1 in
  '(streamId, offset) ←
    (if negb (uses2BytesStreamIds version)
     then s ← readInt8 buf offset; Ok (s, offset + 1)
     else s ← readInt16BE buf offset; Ok (s, offset + 2));
  opcode ← readUInt8 buf offset;
  bodyLength ← readUInt32BE buf (offset + 1);
  Ok (mk version flags streamId opcode bodyLength).

Definition toBuffer (h : t) : result bytes :=
  let buf := alloc (size (version h)) in
  v ← uint8_bytes (version h); buf ← write_at buf 0 v;
  f ← uint8_bytes (flags h); buf ← write_at buf 1 f;
  '(buf, offset) ←
    (if negb (uses2BytesStreamIds (version h))
     then s ← int8_bytes (streamId h); buf ← write_at buf 2 s; Ok (buf, 3)
     else s ← int16_bytes (streamId h); buf ← write_at buf 2 s; Ok (buf, 4));
  o ← uint8_bytes (opcode h); buf ← write_at buf offset o;
  l ← uint32_bytes (bodyLength h); write_at buf (offset + 1) l.

(** The ranges of the fields; the version's high bit is the direction of the frame. *)
Definition wf (h : t) : Prop :=
  0 <= version h < 128 /\ 0 <= flags h < 256 /\
  (if uses2BytesStreamIds (version h) then - 32768 <= streamId h < 32768
   else - 128 <= streamId h < 128) /\
  0 <= opcode h < 256 /\ 0 <= bodyLength h < 2 ^ 32.

(** The layout. *)
Definition layout (h : t) : bytes :=
  [version h; flags h] ++
  (if uses2BytesStreamIds (version h) then be_bytes 2 (streamId h) else be_bytes 1 (streamId h)) ++
  [opcode h] ++ be_bytes 4 (bodyLength h).

Lemma be_bytes_1 z : 0 <= z < 256 -> be_bytes 1 z = [z].
Proof. intros. unfold be_bytes. cbn [Z.of_nat Z.pow]. rewrite Z.div_1_r, Z.mod_small by lia. done. Qed.

Lemma be_bytes_S n z : be_bytes (S n) z = (z / 256 ^ Z.of_nat n) mod 256 :: be_bytes n z.
Proof. done. Qed.

Lemma toBuffer_layout h : wf h -> toBuffer h = Ok (layout h).
Proof.
  intros (Hv & Hf & Hs & Ho & Hl). unfold toBuffer, layout, size.
  unfold uint8_bytes, uint32_bytes, int8_bytes, int16_bytes.
  destruct (uses2BytesStreamIds (version h)); cbn [negb]; rewrite !int_bytes_ok by lia;
    rewrite !(be_bytes_1 (version h)), !(be_bytes_1 (flags h)), !(be_bytes_1 (opcode h)) by lia;
    rewrite !be_bytes_S; done.
Qed.

Lemma fromBuffer_layout h a rest :
  wf h -> fromBuffer (a ++ layout h ++ rest) (blen a) = Ok h.
Proof.
  intros (Hv & Hf & Hs & Ho & Hl). unfold fromBuffer, layout.
  rewrite <- !app_assoc. cbn [app]. rewrite byte_at_app. change (default 0 (Some ?x)) with x.
  rewrite (Z.land_ones _ 7), Z.mod_small by lia.
  unfold readUInt8, readInt8, readInt16BE, readUInt32BE.
  set (sid := if uses2BytesStreamIds (version h) then _ else _).
  assert (Hr : forall (pre b post : bytes) n off, off = blen a + blen pre -> n = blen b ->
    read_uint n (a ++ pre ++ b ++ post) off = Ok (be_val b)).
  { intros. rewrite app_assoc. apply read_uint_app; [rewrite blen_app; lia|done]. }
  assert (H1 : forall x, be_val [x] = x) by (intros; unfold be_val; simpl; lia).
  pose proof (Hr [version h] [flags h] (sid ++ opcode h :: be_bytes 4 (bodyLength h) ++ rest)) as Hfl.
  cbn [app] in Hfl. rewrite (Hfl 1 (blen a + 1)) by (unfold blen; simpl; lia).
  rewrite ok_bind, H1.
  pose proof (Hr [version h; flags h] sid (opcode h :: be_bytes 4 (bodyLength h) ++ rest)) as Hsid.
  pose proof (Hr ([version h; flags h] ++ sid) [opcode h] (be_bytes 4 (bodyLength h) ++ rest) 1) as Hop.
  assert (Hbl : forall off, off = blen a + (3 + blen sid) ->
    read_uint 4 (a ++ version h :: flags h :: sid ++ opcode h :: be_bytes 4 (bodyLength h) ++ rest) off
    = Ok (be_val (be_bytes 4 (bodyLength h)))).
  { intros off ->. rewrite <- (Hr (version h :: flags h :: sid ++ [opcode h]) _ rest 4 (blen a + (3 + blen sid))).
    - cbn [app]. by rewrite <- app_assoc.
    - unfold blen. cbn [length]. rewrite length_app. simpl. lia.
    - by rewrite blen_be. }
  cbn [app] in Hsid, Hop. unfold sid in *.
  destruct (uses2BytesStreamIds (version h)); cbn [negb].
  - rewrite (Hsid 2 (blen a + 1 + 1)) by (rewrite ?blen_be; unfold blen; simpl; lia). cbn [fmap result_fmap].
    rewrite !ok_bind, be_val_bytes. rewrite (signed_mod 16) by lia.
    rewrite (Hop (blen a + 1 + 1 + 2)) by (rewrite ?blen_app, ?blen_be; unfold blen; simpl; lia). rewrite ok_bind.
    rewrite (Hbl (blen a + 1 + 1 + 2 + 1)) by (rewrite ?blen_app, ?blen_be; unfold blen; simpl; lia).
    rewrite ok_bind, H1, be_val_bytes, Z.mod_small by lia. by destruct h.
  - rewrite (Hsid 1 (blen a + 1 + 1)) by (rewrite ?blen_be; unfold blen; simpl; lia). cbn [fmap result_fmap].
    rewrite !ok_bind, be_val_bytes. rewrite (signed_mod 8) by lia.
    rewrite (Hop (blen a + 1 + 1 + 1)) by (rewrite ?blen_app, ?blen_be; unfold blen; simpl; lia). rewrite ok_bind.
    rewrite (Hbl (blen a + 1 + 1 + 1 + 1)) by (rewrite ?blen_app, ?blen_be; unfold blen; simpl; lia).
    rewrite ok_bind, H1, be_val_bytes, Z.mod_small by lia. by destruct h.
Qed.

(** A header with fields in range is written without error, on [size] bytes, and
    read back from any position of a buffer, in both stream id widths. *)
Theorem frame_header_roundtrip (h : t) (a rest : bytes) :
  wf h -> exists b, toBuffer h = Ok b /\ blen b = size (version h) /\
                    fromBuffer (a ++ b ++ rest) (blen a) = Ok h.
Proof.
  intros Hh. exists (layout h). split; [by apply toBuffer_layout|].
  split; [|by apply fromBuffer_layout]. unfold layout, size, blen.
  rewrite !length_app. destruct (uses2BytesStreamIds (version h)); rewrite !be_bytes_length; done.
Qed.

Lemma frame_header_roundtrip_witness :
  exists b, toBuffer (mk 4 1 (-2) 8 70000) = Ok b /\ blen b = 9 /\
            fromBuffer ([7] ++ b ++ [8]) 1 = Ok (mk 4 1 (-2) 8 70000).
Proof. apply (frame_header_roundtrip (mk 4 1 (-2) 8 70000) [7] [8]). unfold wf. simpl. lia. Defined.

End FrameHeader.

Module FrameReader.

Record t : Type := mk { offset : Z; buf : bytes }.

Definition constructor (body : bytes) : t := mk 0 body.

(** [end] is optional. *)
Definition slice (r : t) (begin : Z) (end_ : option Z) : bytes :=
  Buffer.slice (buf r) begin (default (blen (buf r)) end_).

Definition read (r : t) (length : option Z) : bytes * t :=
  let end_ :=
    match length with
    | Some length => if offset r + length <? blen (buf r) then offset r + length else blen (buf r)
    | None => blen (buf r)
    end in
  (slice r (offset r) (Some end_), mk end_ (buf r)).

Definition checkOffset (r : t) (newLength : Z) : result unit :=
  throw_if (blen (buf r) <? offset r + newLength) (RangeError "Trying to access beyond buffer length").

Definition readInt (r : t) : result (Z * t) :=
  _ ← checkOffset r 4;
  result ← readInt32BE (buf r) (offset r);
  Ok (result, mk (offset r + 4) (buf r)).

(** A negative length is null. *)
Definition readBytes (r : t) : result (option bytes * t) :=
  '(length, r) ← readInt r;
  if length <? 0 then Ok (None, r)
  else
    _ ← checkOffset r length;
    let '(b, r) := read r (Some length) in
    Ok (Some b, r).

(** The [bytes] of the protocol: a length and the content, or the length -1. *)
Definition cell (b : option bytes) : bytes :=
  match b with Some b => be_bytes 4 (blen b) ++ b | None => be_bytes 4 (-1) end.

Definition cell_ok (b : option bytes) : Prop :=
  match b with Some b => blen b < 2 ^ 31 | None => True end.

(** Reading at the start of a cell gives its content and moves to its end. *)
Lemma readBytes_cell a b rest :
  cell_ok b -> readBytes (mk (blen a) (a ++ cell b ++ rest))
               = Ok (b, mk (blen (a ++ cell b)) (a ++ cell b ++ rest)).
Proof.
  intros Hb. unfold readBytes, readInt, checkOffset. cbn [offset buf].
  assert (Hlen : 4 <= blen (cell b)).
  { destruct b; cbn [cell]; rewrite ?blen_app, blen_be; unfold blen; lia. }
  rewrite (proj2 (Z.ltb_ge _ (blen a + 4))) by (rewrite !blen_app; unfold blen in *; lia).
  cbn [throw_if mbind result_bind]. pose proof (blen_nonneg rest). destruct b as [b|]; cbn [cell cell_ok] in *.
  - rewrite <- !app_assoc, readInt32BE_app by (done || unfold int32, blen in *; lia).
    cbn [mbind result_bind offset buf]. rewrite (proj2 (Z.ltb_ge (blen b) 0)) by (unfold blen; lia).
    rewrite (proj2 (Z.ltb_ge _ (blen a + 4 + blen b)))
      by (rewrite !blen_app, blen_be; unfold blen in *; lia).
    cbn [throw_if mbind result_bind]. unfold read, slice. cbn [offset buf default].
    set (full := a ++ be_bytes 4 (blen b) ++ b ++ rest).
    assert (E : (if blen a + 4 + blen b <? blen full then blen a + 4 + blen b else blen full)
                = blen a + 4 + blen b).
    { case_Z; [done|]. unfold full in *. rewrite !blen_app, blen_be in *. lia. }
    rewrite E. change (default (blen full) (Some ?x)) with x. f_equal. f_equal.
    + unfold full. f_equal. rewrite app_assoc. apply slice_app; unfold id; rewrite !blen_app, blen_be; lia.
    + f_equal. rewrite !blen_app, blen_be. lia.
  - rewrite readInt32BE_app by (done || unfold int32; lia). cbn [mbind result_bind Z.ltb Z.compare].
    do 2 f_equal. by rewrite blen_app, blen_be.
Qed.

End FrameReader.
