(* ===== verification/TypeNames.v ===== *)
(** * Type names of the server

    The parsers of lib/encoder.js that turn type names into descriptions:
    [parseFqTypeName] for marshal class names, [parseTypeName] for CQL names,
    [parseKeyTypes] for key validators, with [parseParams], [parseVectorTypeArgs] and
    [parseUdtName].  Strings are addressed with a start index and a length, as in the
    source. *)

From S2P Require Import Prelude JsNumber Buffer JsString Utf8 CqlTypes.

(** ** String operations *)

(** [s.substr(start, len)] *)
Definition substr (s : jsstr) (start : nat) (len : Z) : jsstr := take (Z.to_nat len) (drop start s).

(** [s.substring(a, b)]: the bounds are clamped and put in order. *)
Definition substring (s : jsstr) (a b : Z) : jsstr :=
  let a := Z.min (Z.max a 0) (slen s) in
  let b := Z.min (Z.max b 0) (slen s) in
  substr s (Z.to_nat (Z.min a b)) (Z.max a b - Z.min a b).

(** [s.indexOf(sub, start)] *)
Fixpoint index_of_loop (sub s : jsstr) (i : Z) : Z :=
  if starts_with sub s then i
  else match s with [] => -1 | _ :: s => index_of_loop sub s (i + 1) end.

Definition index_of (sub s : jsstr) (start : nat) : Z :=
  index_of_loop sub (drop start s) (Z.min (Z.of_nat start) (slen s)).

(** [s.indexOf(sub, start) === start] *)
Definition at_index (sub s : jsstr) (start : nat) : bool := index_of sub s start =? Z.of_nat start.

(** ** Names *)

Module names.

Definition marshal (s : string) : jsstr := js "org.apache.cassandra.db.marshal." ++ js s.

Definition list := Eval vm_compute in marshal "ListType".
Definition set := Eval vm_compute in marshal "SetType".
Definition map := Eval vm_compute in marshal "MapType".
Definition udt := Eval vm_compute in marshal "UserType".
Definition tuple := Eval vm_compute in marshal "TupleType".
Definition frozen := Eval vm_compute in marshal "FrozenType".
Definition reversed := Eval vm_compute in marshal "ReversedType".
Definition composite := Eval vm_compute in marshal "CompositeType".
Definition empty := Eval vm_compute in marshal "EmptyType".
Definition collection := Eval vm_compute in marshal "ColumnToCollectionType".
Definition duration := Eval vm_compute in marshal "DurationType".
Definition vector := Eval vm_compute in marshal "VectorType".

(** The CQL names. *)
Definition cql_frozen := js "frozen".
Definition cql_list := js "list".
Definition cql_set := js "set".
Definition cql_map := js "map".
Definition cql_tuple := js "tuple".
Definition cql_empty := js "empty".
Definition cql_duration := js "duration".
Definition cql_vector := js "vector".

End names.

Definition singleTypeNames : list (jsstr * Z) := Eval vm_compute in
  [(names.marshal "UTF8Type", dataTypes.varchar);
   (names.marshal "AsciiType", dataTypes.ascii);
   (names.marshal "UUIDType", dataTypes.uuid);
   (names.marshal "TimeUUIDType", dataTypes.timeuuid);
   (names.marshal "Int32Type", dataTypes.int);
   (names.marshal "BytesType", dataTypes.blob);
   (names.marshal "FloatType", dataTypes.float);
   (names.marshal "DoubleType", dataTypes.double);
   (names.marshal "BooleanType", dataTypes.boolean);
   (names.marshal "InetAddressType", dataTypes.inet);
   (names.marshal "SimpleDateType", dataTypes.date);
   (names.marshal "TimeType", dataTypes.time);
   (names.marshal "ShortType", dataTypes.smallint);
   (names.marshal "ByteType", dataTypes.tinyint);
   (names.marshal "DateType", dataTypes.timestamp);
   (names.marshal "TimestampType", dataTypes.timestamp);
   (names.marshal "LongType", dataTypes.bigint);
   (names.marshal "DecimalType", dataTypes.decimal);
   (names.marshal "IntegerType", dataTypes.varint);
   (names.marshal "CounterColumnType", dataTypes.counter)].

Definition single_code (name : jsstr) : option Z :=
  snd <$> List.find (fun e => bool_decide (fst e = name)) singleTypeNames.

Definition singleFqTypeNamesLength : Z :=
  fold_left (fun previous e => if previous <? slen (fst e) then slen (fst e) else previous)
            singleTypeNames 0.

(** ** parseParams *)

(** The loop over the characters of the window; the current parameter is [cur]. *)
Fixpoint parseParams_loop (open close level : Z) (cur w : jsstr) : list jsstr :=
  match w with
  | [] => [rev cur]
  | c :: w =>
      let level := if c =? open then level + 1 else level in
      let level := if c =? close then level - 1 else level in
      if (level =? 0) && (c =? 44) then rev cur :: parseParams_loop open close level [] w
      else parseParams_loop open close level (c :: cur) w
  end.

Definition parseParams (value : jsstr) (startIndex : nat) (length : Z) (open close : Z) : list jsstr :=
  parseParams_loop open close 0 [] (substr value startIndex length).

Definition not_valid {A} : result A := Err (TypeError "Not a valid type").

Definition parseVectorTypeArgs {A} (typeName stringToExclude : jsstr)
    (subtypeResolveFn : jsstr -> result A) : result (A * number) :=
  let argsStartIndex := (length stringToExclude + 1)%nat in
  let argsLength := slen typeName - (slen stringToExclude + 2) in
  match parseParams typeName argsStartIndex argsLength 40 41 with
  | [p0; p1] => t ← subtypeResolveFn (trim p0); Ok (t, int_number (parseInt (trim p1) 10))
  | _ => not_valid
  end.

(** ** Class names *)

(** A recursive call: the text, a start index and a length (0 for none). *)
Definition fq_call : Type := jsstr -> nat -> Z -> result columnInfo.

Definition parseUdtField (rec : fq_call) (p : jsstr) : result (jsstr * columnInfo) :=
  let separatorIndex := index_of [58] p 0 in
  fieldType ← rec p (Z.to_nat (separatorIndex + 1)) (slen p - (separatorIndex + 1));
  Ok (utf8_decode (hex_decode (substr p 0 separatorIndex)), fieldType).

Definition parseUdtName (rec : fq_call) (typeName : jsstr) (startIndex : nat) (length : Z)
    : result (cinfo columnInfo) :=
  match parseParams typeName startIndex length 40 41 with
  | keyspace :: name :: params =>
      fields ← traverse (parseUdtField rec) params;
      Ok (UdtInfo keyspace (utf8_decode (hex_decode name)) fields)
  | _ => not_valid
  end.

(** Skips [name(]: the rest of the call sees the arguments. *)
Definition strip_token (name : jsstr) (startIndex : nat) (len : Z) : nat * Z :=
  ((startIndex + length name + 1)%nat, len - (slen name + 2)).

(** The branch for names longer than any simple one. *)
Definition parseFq_complex (rec : fq_call) (typeName : jsstr) (startIndex : nat) (length : Z)
    (options : typeOptions) : result columnInfo :=
  let params := fun name =>
    let '(s, l) := strip_token name startIndex length in parseParams typeName s l 40 41 in
  let call := fun p => rec p O 0 in
  let ci := fun code info => CI code info (Some options) in
  if at_index names.list typeName startIndex then
    match params names.list with
    | [p] => info ← call p; Ok (ci dataTypes.list (TypeInfo info))
    | _ => not_valid
    end
  else if at_index names.set typeName startIndex then
    match params names.set with
    | [p] => info ← call p; Ok (ci dataTypes.set (TypeInfo info))
    | _ => not_valid
    end
  else if at_index names.map typeName startIndex then
    match params names.map with
    | [k; v] => k ← call k; v ← call v; Ok (ci dataTypes.map (TypesInfo [k; v]))
    | _ => not_valid
    end
  else if at_index names.udt typeName startIndex then
    let '(s, l) := strip_token names.udt startIndex length in
    info ← parseUdtName rec typeName s l; Ok (ci dataTypes.udt info)
  else if at_index names.tuple typeName startIndex then
    info ← traverse call (params names.tuple); Ok (ci dataTypes.tuple (TypesInfo info))
  else if at_index names.vector typeName startIndex then
    '(t, dim) ← parseVectorTypeArgs typeName names.vector call;
    Ok (ci dataTypes.custom (VectorInfo t dim))
  else Ok (ci dataTypes.custom (StrInfo (substr typeName startIndex length))).

Definition parseFq_body (rec : fq_call) (typeName : jsstr) (startIndex : nat) (length : Z)
    : result columnInfo :=
  let length := if length =? 0 then slen typeName else length in
  let isReversed := (slen names.reversed <? length) &&
                    (index_of names.reversed typeName 0 =? Z.of_nat startIndex) in
  let '(startIndex, length) :=
    if isReversed then strip_token names.reversed startIndex length else (startIndex, length) in
  let isFrozen := (slen names.frozen <? length) && at_index names.frozen typeName startIndex in
  let '(startIndex, length) :=
    if isFrozen then strip_token names.frozen startIndex length else (startIndex, length) in
  let options := mkOptions isFrozen isReversed in
  if bool_decide (typeName = names.empty) then
    Ok (CI dataTypes.custom (StrInfo (js "empty")) (Some options))
  else if length <=? singleFqTypeNamesLength then
    let typeName := if (0 <? startIndex)%nat then substr typeName startIndex length else typeName in
    match single_code typeName with
    | Some typeCode => Ok (CI typeCode NoInfo (Some options))
    | None =>
        if bool_decide (typeName = names.duration)
        then Ok (CI dataTypes.duration NoInfo (Some options))
        else not_valid
    end
  else parseFq_complex rec typeName startIndex length options.

(** Every recursive call is on a proper part of the text. *)
Fixpoint parseFq_fuel (fuel : nat) (typeName : jsstr) (startIndex : nat) (length : Z)
    : result columnInfo :=
  match fuel with
  | O => Err (DriverInternalError "fuel")
  | S fuel => parseFq_body (parseFq_fuel fuel) typeName startIndex length
  end.

Definition parseFqTypeName (typeName : jsstr) : result columnInfo :=
  parseFq_fuel (S (length typeName)) typeName O 0.

(** ** Key validators *)

Record keyState : Type := mkKey {
  k_types : list jsstr; k_start : Z; k_nested : Z; k_inCollection : bool; k_hasCollections : bool }.

(** One turn of the loop at position [i]: the new state, and the position. *)
Definition parseKeyTypes_step (typesString : jsstr) (i : Z) (st : keyState) : keyState * Z :=
  match typesString !! Z.to_nat i with
  | Some 44 =>
      if 0 <? k_nested st then (st, i)
      else
        let start := if k_inCollection st
                     then index_of [58] typesString (Z.to_nat (k_start st)) + 1 else k_start st in
        (mkKey (k_types st ++ [substring typesString start i]) (i + 1) (k_nested st)
               (k_inCollection st) (k_hasCollections st), i)
  | Some 40 =>
      if (k_nested st =? 0) && at_index names.collection typesString (Z.to_nat (k_start st))
      then (mkKey (k_types st) (i + 1) (k_nested st) true true, i + 1)
      else (mkKey (k_types st) (k_start st) (k_nested st + 1) (k_inCollection st) (k_hasCollections st), i)
  | Some 41 =>
      if k_inCollection st && (k_nested st =? 0)
      then (mkKey (k_types st ++ [substring typesString
                     (index_of [58] typesString (Z.to_nat (k_start st)) + 1) i])
                  (i + 1) (k_nested st) (k_inCollection st) (k_hasCollections st), i)
      else (mkKey (k_types st) (k_start st) (k_nested st - 1) (k_inCollection st) (k_hasCollections st), i)
  | _ => (st, i)
  end.

(** [while (++i < length)]; the fuel is the length of the text. *)
Fixpoint parseKeyTypes_loop (fuel : nat) (typesString : jsstr) (length i : Z) (st : keyState) : keyState :=
  match fuel with
  | O => st
  | S fuel =>
      let i := i + 1 in
      if i <? length then
        let '(st, i) := parseKeyTypes_step typesString i st in
        parseKeyTypes_loop fuel typesString length i st
      else st
  end.

Record keyTypes : Type := mkKeyTypes { types : list columnInfo; hasCollections : bool; isComposite : bool }.

(** The names the loop collects, the last one included. *)
Definition parseKeyTypes_names (typesString : jsstr) : keyState * bool :=
  let isComposite := starts_with names.composite typesString in
  let i := if isComposite then slen names.composite + 1 else 0 in
  let length_ := if isComposite then slen typesString - 1 else slen typesString in
  let st := parseKeyTypes_loop (length typesString) typesString length_ i (mkKey [] i 0 false false) in
  (if k_start st <? length_
   then mkKey (k_types st ++ [substring typesString (k_start st) length_]) (k_start st) (k_nested st)
              (k_inCollection st) (k_hasCollections st)
   else st, isComposite).

Definition parseKeyTypes (typesString : jsstr) : result keyTypes :=
  let '(st, isComposite) := parseKeyTypes_names typesString in
  ts ← traverse parseFqTypeName (k_types st);
  Ok (mkKeyTypes ts (k_hasCollections st) isComposite).

(** ** CQL names

    [udtResolver] is the function the caller gives to look up a user type; it is missing
    in the call made for the subtype of a vector. *)

Definition resolver : Type := jsstr -> jsstr -> result (option (cinfo columnInfo)).

Section parseTypeName.
Variable keyspace : jsstr.

(** The call of [replace] that turns the first pair of double quotes into one. *)
Fixpoint replace_quotes (s : jsstr) : jsstr :=
  match s with
  | 34 :: (34 :: _) as s' => tail s'
  | c :: s => c :: replace_quotes s
  | [] => []
  end.

Definition frozen_only (b : bool) : option typeOptions := Some (mkOptions b false).

(** The statements after the collection branches: a simple name, or a user type. *)
Definition parseTypeName_simple (udtResolver : option resolver) (typeName : jsstr) (startIndex : nat)
    (length : Z) (frozen : bool) : result columnInfo :=
  let quoted := at_index [34] typeName startIndex in
  let startIndex := if quoted then S startIndex else startIndex in
  let length := if quoted then length - 2 else length in
  let typeName := if (0 <? startIndex)%nat then substr typeName startIndex length else typeName in
  let typeName := if quoted then replace_quotes typeName else typeName in
  match dataTypes.lookup_name typeName with
  | Some typeCode => Ok (CI typeCode NoInfo None)
  | None =>
      if bool_decide (typeName = names.cql_duration)
      then Ok (CI dataTypes.custom (StrInfo names.duration) None)
      else if bool_decide (typeName = names.cql_empty)
      then Ok (CI dataTypes.custom (StrInfo (js "empty")) None)
      else
        match udtResolver with
        | None => Err (TypeError "udtResolver is not a function")
        | Some f =>
            udtInfo ← f keyspace typeName;
            match udtInfo with
            | Some info => Ok (CI dataTypes.udt info (frozen_only frozen))
            | None => not_valid
            end
        end
  end.

(** One call, its recursive calls given. *)
Definition parseTypeName_body (rec : option resolver -> jsstr -> result columnInfo)
    (udtResolver : option resolver) (typeName : jsstr) : result columnInfo :=
  let length := slen typeName in
  if at_index [39] typeName O then
    Ok (CI dataTypes.custom (StrInfo (substr typeName 1 (length - 2))) None)
  else
  let frozen := at_index names.cql_frozen typeName O in
  let '(startIndex, length) :=
    if frozen then strip_token names.cql_frozen O length else (O, length) in
  let inner := fun name =>
    let '(s, l) := strip_token name startIndex length in parseParams typeName s l 60 62 in
  let call := fun p => rec udtResolver (trim p) in
  if at_index names.cql_list typeName startIndex then
    match inner names.cql_list with
    | [p] => info ← rec udtResolver p; Ok (CI dataTypes.list (TypeInfo info) (frozen_only frozen))
    | _ => not_valid
    end
  else if at_index names.cql_set typeName startIndex then
    match inner names.cql_set with
    | [p] => info ← rec udtResolver p; Ok (CI dataTypes.set (TypeInfo info) (frozen_only frozen))
    | _ => not_valid
    end
  else if at_index names.cql_map typeName startIndex then
    match inner names.cql_map with
    | [k; v] =>
        k ← call k; v ← call v; Ok (CI dataTypes.map (TypesInfo [k; v]) (frozen_only frozen))
    | _ => not_valid
    end
  else if at_index names.cql_tuple typeName startIndex then
    info ← traverse call (inner names.cql_tuple);
    Ok (CI dataTypes.tuple (TypesInfo info) (frozen_only frozen))
  else if at_index names.cql_vector typeName startIndex then
    '(sub, dim) ← parseVectorTypeArgs typeName names.cql_vector Ok;
    t ← rec None sub;
    Ok (CI dataTypes.custom (VectorInfo t dim) None)
  else parseTypeName_simple udtResolver typeName startIndex length frozen.

Fixpoint parseTypeName_fuel (fuel : nat) (udtResolver : option resolver) (typeName : jsstr)
    : result columnInfo :=
  match fuel with
  | O => Err (DriverInternalError "fuel")
  | S fuel => parseTypeName_body (parseTypeName_fuel fuel) udtResolver typeName
  end.

(** The outer calls pass no start index and no length. *)
Definition parseTypeName (udtResolver : resolver) (typeName : jsstr) : result columnInfo :=
  parseTypeName_fuel (S (length typeName)) (Some udtResolver) typeName.

End parseTypeName.

(** ** Behaviour on concrete names *)

Example parseFqTypeName_examples :
  parseFqTypeName (js "org.apache.cassandra.db.marshal.ReversedType(org.apache.cassandra.db.marshal.Int32Type)")
  = Ok (CI dataTypes.int NoInfo (Some (mkOptions false true))) /\
  parseFqTypeName (js "org.apache.cassandra.db.marshal.VectorType(org.apache.cassandra.db.marshal.FloatType, 3)")
  = Ok (CI dataTypes.custom (VectorInfo (CI dataTypes.float NoInfo (Some (mkOptions false false))) (num_of_Z 3))
           (Some (mkOptions false false))) /\
  parseFqTypeName (js "org.apache.cassandra.db.marshal.UserType(ks,70686f6e65,616c696173:org.apache.cassandra.db.marshal.UTF8Type)")
  = Ok (CI dataTypes.udt (UdtInfo (js "ks") (js "phone")
          [(js "alias", CI dataTypes.varchar NoInfo (Some (mkOptions false false)))])
          (Some (mkOptions false false))).
Proof. vm_compute. done. Qed.

Definition no_udts : resolver := fun _ _ => Ok None.

Example parseTypeName_examples :
  parseTypeName (js "ks") no_udts (js "frozen<map<text, list<int>>>")
  = Ok (CI dataTypes.map (TypesInfo [CI dataTypes.text NoInfo None;
        CI dataTypes.list (TypeInfo (CI dataTypes.int NoInfo None)) (frozen_only false)]) (frozen_only true)) /\
  parseTypeName (js "ks") no_udts (js "vector<float, 3>")
  = Ok (CI dataTypes.custom (VectorInfo (CI dataTypes.float NoInfo None) (num_of_Z 3)) None).
Proof. vm_compute. done. Qed.

Example parseKeyTypes_example :
  parseKeyTypes (js "org.apache.cassandra.db.marshal.CompositeType(org.apache.cassandra.db.marshal.UUIDType,org.apache.cassandra.db.marshal.UTF8Type)")
  = Ok (mkKeyTypes [CI dataTypes.uuid NoInfo (Some (mkOptions false false));
                    CI dataTypes.varchar NoInfo (Some (mkOptions false false))] false true).
Proof. vm_compute. done. Qed.

(** The CQL name parser takes any name that starts with [list], [set], [map],
    [tuple], [vector] or [frozen] for that construct: the user type [settings] is looked
    up under the name [ing], and its description is that of a set. *)
Theorem parseTypeName_prefix :
  exists udt : cinfo columnInfo,
    parseTypeName (js "ks") (fun _ name => Ok (if bool_decide (name = js "settings") then Some udt else None))
      (js "settings") = not_valid /\
    parseTypeName (js "ks") (fun _ name => Ok (if bool_decide (name = js "ing") then Some udt else None))
      (js "settings")
    = Ok (CI dataTypes.set (TypeInfo (CI dataTypes.udt udt (frozen_only false))) (frozen_only false)).
Proof. exists (UdtInfo (js "ks") (js "settings") []). vm_compute. done. Qed.
