(* ===== verification/JsValue.v ===== *)
(** * Values

    The JavaScript values the encoder takes and returns, and the operations of the
    language on them that it uses: truthiness, conversion to Number and BigInt,
    property keys, and the update of plain objects, Maps and Sets.

    Objects are described by their content.  A property that a plain object does not
    own is undefined: names inherited from Object.prototype are not considered. *)

From Stdlib Require Import SpecFloat.
From S2P Require Import Prelude JsNumber Buffer JsString Float NumText Utf8.
From S2P Require Import Integer LocalDate LocalTime Duration ValueTypes CqlTypes.

Local Unset Elimination Schemes.
Inductive jsval : Type :=
| JUndefined
| JUnset                                       (** [types.unset] *)
| JNull
| JBuffer (b : bytes)
| JNumber (x : number)
| JString (s : jsstr)
| JBool (b : bool)
| JBigInt (z : Z)
| JLong (z : Z)
| JInteger (i : Integer.t)
| JDecimal (d : BigDecimal.t)
| JDate (ms : option Z)                        (** none: an invalid Date *)
| JUuid (u : Uuid.t)
| JTimeUuid (u : Uuid.t)                       (** a subclass of Uuid *)
| JInet (a : InetAddress.t)
| JLocalDate (d : LocalDate.t)
| JLocalTime (t : LocalTime.t)
| JDuration (d : Duration.t)
| JTuple (elements : list jsval)
| JVector (elements : list jsval) (subtype : option jsstr)
| JFloat32Array (elements : list jsval)         (** Numbers *)
| JArray (elements : list jsval)
| JObject (fields : list (jsstr * jsval))      (** in property order *)
| JMap (entries : list (jsval * jsval))
| JSet (elements : list jsval).
Local Set Elimination Schemes.

(** What the runtime and the [long] package provide.  [toPrimitive] is the conversion
    of an object to a primitive value through its [valueOf] and [toString]. *)
Class Host : Type := {
  host_unicode :: Unicode;
  date_parse : jsstr -> option Z;                           (** [new Date(s).getTime()] *)
  local_ymd : Z -> Z * Z * Z;                               (** local year, month, day of a Date *)
  long_fromString : jsstr -> result Z;
  long_fromNumber : number -> Z;
  unsafe_memory : bytes;                                    (** what [allocUnsafe(16)] holds *)
  toPrimitive : jsval -> result jsval
}.

(** A concrete runtime, for evaluation. *)
#[export] Instance test_host : Host := {|
  host_unicode := ascii_unicode;
  date_parse := fun _ => None;
  local_ymd := fun ms => let n := ms / 86400000 in
    (Calendar.year_of n, Calendar.month_of n + 1, Calendar.date_of n);
  long_fromString := fun s => match parseInt s 10 with Some z => Ok z | None => Ok 0 end;
  long_fromNumber := num_trunc;
  unsafe_memory := replicate 16 0;
  toPrimitive := fun _ => Ok (JString (js "[object Object]"))
|}.

Definition truthy (v : jsval) : bool :=
  match v with
  | JUndefined | JNull => false
  | JBool b => b
  | JNumber x => negb (is_nan x) && match x with S754_zero _ => false | _ => true end
  | JString s => negb (bool_decide (s = []))
  | JBigInt z => negb (z =? 0)
  | _ => true
  end.

Section conversions.
Context `{Host}.

(** [Number(v)] of a primitive, through [+v]. *)
Definition primitive_to_number (v : jsval) : result number :=
  match v with
  | JUndefined => Ok S754_nan
  | JNull => Ok (S754_zero false)
  | JBool b => Ok (num_of_Z (if b then 1 else 0))
  | JNumber x => Ok x
  | JString s => Ok (string_to_number s)
  | _ => Err (TypeError "Cannot convert a BigInt value to a number")
  end.

Definition is_primitive (v : jsval) : bool :=
  match v with
  | JUndefined | JNull | JBool _ | JNumber _ | JString _ | JBigInt _ => true
  | _ => false
  end.

Definition to_primitive (v : jsval) : result jsval :=
  if is_primitive v then Ok v
  else match v with
       | JDate (Some ms) => Ok (JNumber (num_of_Z ms))
       | JDate None => Ok (JNumber S754_nan)
       | JLong z => Ok (JString (int_str z))
       | _ => toPrimitive v
       end.

Definition to_number (v : jsval) : result number := p ← to_primitive v; primitive_to_number p.

(** [BigInt(v)] *)
Definition to_bigint (v : jsval) : result Z :=
  p ← to_primitive v;
  match p with
  | JBigInt z => Ok z
  | JBool b => Ok (if b then 1 else 0)
  | JNumber x => number_to_bigint x
  | JString s => string_to_bigint s
  | _ => Err (TypeError "Cannot convert to a BigInt")
  end.

(** The key a value becomes as a property name. *)
Definition to_key (v : jsval) : result jsstr :=
  p ← (match v with JDate _ | JLong _ => toPrimitive v | _ => to_primitive v end);
  match p with
  | JUndefined => Ok (js "undefined")
  | JNull => Ok (js "null")
  | JBool b => Ok (if b then js "true" else js "false")
  | JNumber x => Ok (num_to_string x)
  | JString s => Ok s
  | JBigInt z => Ok (int_str z)
  | _ => Err (TypeError "Cannot convert object to primitive value")
  end.

End conversions.

(** ** Plain objects *)

(** An array index: a canonical decimal below 2^32 - 1. *)
Definition array_index (k : jsstr) : option Z :=
  if negb (bool_decide (k = [])) && forallb is_digit k &&
     bool_decide (dec_str (dec_val k) = k) && (dec_val k <? 2 ^ 32 - 1)
  then Some (dec_val k) else None.

Definition lookup_prop {A} (k : jsstr) (l : list (jsstr * A)) : option A :=
  snd <$> List.find (fun e => bool_decide (fst e = k)) l.

(** The position of a new key: array indices come first, in increasing order. *)
Fixpoint insert_prop {A} (k : jsstr) (v : A) (l : list (jsstr * A)) : list (jsstr * A) :=
  match l with
  | [] => [(k, v)]
  | e :: l' =>
      match array_index k, array_index (fst e) with
      | Some i, Some j => if i <? j then (k, v) :: l else e :: insert_prop k v l'
      | Some _, None => (k, v) :: l
      | None, _ => e :: insert_prop k v l'
      end
  end.

Definition proto : jsstr := js "__proto__".

(** [o[k] = v].  Assigning [__proto__] calls the accessor of Object.prototype and stores
    no property. *)
Definition set_prop {A} (k : jsstr) (v : A) (l : list (jsstr * A)) : list (jsstr * A) :=
  if bool_decide (k = proto) then l
  else match lookup_prop k l with
       | Some _ => (fun e => if bool_decide (fst e = k) then (k, v) else e) <$> l
       | None => insert_prop k v l
       end.

(** ** Maps and Sets *)

(** The key comparison of Maps and Sets.  Two objects are the same only when they are
    one object; decoded values are always distinct objects. *)
Definition same_value_zero (a b : jsval) : bool :=
  match a, b with
  | JUndefined, JUndefined | JNull, JNull => true
  | JBool x, JBool y => Bool.eqb x y
  | JString x, JString y => bool_decide (x = y)
  | JBigInt x, JBigInt y => x =? y
  | JNumber x, JNumber y =>
      bool_decide (x = y) ||
      match x, y with S754_zero _, S754_zero _ => true | _, _ => false end
  | _, _ => false
  end.

(** [map.set(k, v)] *)
Fixpoint map_set (k v : jsval) (l : list (jsval * jsval)) : list (jsval * jsval) :=
  match l with
  | [] => [(k, v)]
  | (k', v') :: l => if same_value_zero k k' then (k', v) :: l else (k', v') :: map_set k v l
  end.

(** [new Set(arr)] *)
Definition set_of (l : list jsval) : list jsval :=
  fold_left (fun s x => if existsb (same_value_zero x) s then s else s ++ [x]) l [].

(** ** Properties of plain objects *)

Lemma lookup_prop_cons {A} k (e : jsstr * A) l :
  lookup_prop k (e :: l) = if bool_decide (fst e = k) then Some (snd e) else lookup_prop k l.
Proof. unfold lookup_prop. cbn. by case_bool_decide. Qed.

Lemma lookup_insert_prop_ne {A} k k' (v : A) l :
  k <> k' -> lookup_prop k' (insert_prop k v l) = lookup_prop k' l.
Proof.
  intros Hk. induction l as [|e l IH]; cbn [insert_prop]; [by rewrite lookup_prop_cons, bool_decide_false|].
  repeat case_match; rewrite ?lookup_prop_cons, ?IH, ?lookup_prop_cons; cbn [fst];
    rewrite ?(bool_decide_false (k = k')) by done; done.
Qed.

Lemma lookup_insert_prop_eq {A} k (v : A) l :
  lookup_prop k l = None -> lookup_prop k (insert_prop k v l) = Some v.
Proof.
  induction l as [|e l IH]; cbn [insert_prop]; [by rewrite lookup_prop_cons, bool_decide_true|].
  intros Hn. rewrite lookup_prop_cons in Hn. case_bool_decide as He; [done|].
  repeat case_match; rewrite ?lookup_prop_cons; cbn [fst];
    rewrite ?(bool_decide_true (k = k)), ?(bool_decide_false (fst e = k)) by done; auto.
Qed.

(** Reading after a store. *)
Lemma lookup_set_prop {A} k k' (v : A) l :
  k <> proto -> lookup_prop k' (set_prop k v l) = if bool_decide (k = k') then Some v else lookup_prop k' l.
Proof.
  intros Hp. unfold set_prop. rewrite (bool_decide_false (k = proto)) by done. clear Hp. destruct (lookup_prop k l) as [x|] eqn:Hl.
  - revert x Hl. induction l as [|e l IH]; intros x; [done|].
    rewrite !lookup_prop_cons. cbn [fmap list_fmap]. rewrite lookup_prop_cons.
    change (list_fmap _ _ ?f l) with (f <$> l).
    destruct (decide (fst e = k)) as [He|He].
    + intros _. rewrite !(bool_decide_true (fst e = k)) by done. cbn [fst snd].
      destruct (decide (k = k')) as [<-|Hk]; [by rewrite bool_decide_true|].
      rewrite !(bool_decide_false (k = k')) by done. rewrite He, bool_decide_false by done.
      clear IH. induction l as [|e' l IH]; [done|]. cbn [fmap list_fmap]. rewrite !lookup_prop_cons.
      change (list_fmap _ _ ?f l) with (f <$> l). rewrite IH.
      destruct (decide (fst e' = k)) as [->|He']; [|by rewrite !(bool_decide_false (fst e' = k))].
      rewrite !(bool_decide_true (k = k)) by done. cbn [fst]. by rewrite bool_decide_false.
    + rewrite !(bool_decide_false (fst e = k)) by done. intros Hl. rewrite (IH _ Hl).
      destruct (decide (k = k')) as [<-|Hk]; [|by rewrite !(bool_decide_false (k = k'))].
      by rewrite bool_decide_false, bool_decide_true.
  - case_bool_decide as Hk; [subst; by apply lookup_insert_prop_eq|by apply lookup_insert_prop_ne].
Qed.

(** Storing a list of entries: the last entry of a key counts. *)
Lemma lookup_set_props {A} k (l : list (jsstr * A)) acc :
  proto ∉ fst <$> l ->
  lookup_prop k (fold_left (fun m kv => set_prop (fst kv) (snd kv) m) l acc)
  = match lookup_prop k (rev l) with Some v => Some v | None => lookup_prop k acc end.
Proof.
  revert acc. induction l as [|[k' v] l IH]; intros acc Hp; [done|]. cbn [fold_left fst snd rev].
  rewrite fmap_cons, not_elem_of_cons in Hp. destruct Hp as [Hk' Hp]. rewrite IH, lookup_set_prop by done.
  assert (E : forall m, lookup_prop k (m ++ [(k', v)])
              = match lookup_prop k m with Some v => Some v
                | None => if bool_decide (k' = k) then Some v else None end).
  { intros m. induction m as [|e m IHm]; cbn [app]; rewrite !lookup_prop_cons; cbn [fst snd]; [done|].
    destruct (bool_decide (fst e = k)); [done|]. apply IHm. }
  rewrite E. destruct (lookup_prop k (rev l)); [done|]. by case_bool_decide.
Qed.

Lemma lookup_prop_elem {A} k (v : A) l : NoDup (fst <$> l) -> (k, v) ∈ l -> lookup_prop k l = Some v.
Proof.
  induction l as [|e l IH]; intros Hnd Hin; [by apply not_elem_of_nil in Hin|].
  rewrite lookup_prop_cons. inversion Hnd as [|? ? Hni Hnd' E]; subst.
  apply elem_of_cons in Hin as [<-|Hin]; [by rewrite bool_decide_true|].
  rewrite bool_decide_false; [by apply IH|]. intros He. apply Hni. rewrite He.
  change k with (fst (k, v)). by apply list_elem_of_fmap_2.
Qed.
