(* ===== verification/Encoder.v ===== *)
(** * The encoder

    lib/encoder.js: values to and from the bytes of the protocol.  Each method of
    EncoderMembers and Encoder is a definition; the methods that call back [encode] or
    [decode] take it as an argument, and [encode] and [decode] tie the knot by
    recursion on the value and on the type description.

    Whether a returned Buffer shares memory with its source (the [copyBuffer] option)
    is not observable here: both forms have the same content. *)

From Stdlib Require Import SpecFloat.
From S2P Require Import Prelude JsNumber Buffer JsString Float NumText Utf8 VInt.
From S2P Require Import Integer LocalDate LocalTime Duration ValueTypes ProtocolVersion.
From S2P Require Import CqlTypes TypeNames Frame JsValue.

(** [options.encoding]; the [map] and [set] constructors are Map and Set, or absent. *)
Record encodingOptions : Type := mkEncoding {
  useBigIntAsLong : bool;
  useBigIntAsVarint : bool;
  opt_map : bool;
  opt_set : bool;
  useUndefinedAsUnset : bool;
  copyBuffer : bool }.

Record encoder : Type := mkEncoder { options : encodingOptions; protocol : Z }.

(** What [encode] returns. *)
Inductive encoded : Type :=
| EUndefined
| ENull
| EBuffer (b : bytes).

(** The second argument of [encode]: absent, a code, a name, a description, or an
    object that is none of them. *)
Inductive hint : Type :=
| HNone
| HCode (code : Z)
| HName (name : jsstr)
| HType (t : columnInfo)
| HOther.

(** The [info] of a description used as a hint. *)
Definition info_hint (info : cinfo columnInfo) : hint :=
  match info with
  | NoInfo => HNone
  | TypeInfo t => HType t
  | StrInfo s => HName s
  | _ => HOther
  end.

(** [info[i]]: the descriptions of the elements; none when [info] is undefined. *)
Definition info_items (info : cinfo columnInfo) : option (list hint) :=
  match info with
  | NoInfo => None
  | TypesInfo ts => Some (HType <$> ts)
  | StrInfo s => Some ((fun c => HName [c]) <$> s)
  | VectorInfo t dim => Some [HType t; match dim_value dim with Some z => HCode z | None => HNone end]
  | _ => Some []
  end.

Definition invalid {A} (what : string) : result A := Err (TypeError what).
Definition not_object {A} : result A := Err (TypeError "Cannot read properties of undefined").

(** ** Scalar types *)

Definition decodeUtf8String (b : bytes) : jsval := JString (utf8_decode b).
Definition decodeAsciiString (b : bytes) : jsval := JString (ascii_decode b).
Definition decodeBoolean (b : bytes) : result jsval := x ← readUInt8 b 0; Ok (JBool (negb (x =? 0))).
Definition decodeDouble (b : bytes) : result jsval := x ← readDoubleBE b 0; Ok (JNumber x).
Definition decodeFloat (b : bytes) : result jsval := x ← readFloatBE b 0; Ok (JNumber x).
Definition decodeInt (b : bytes) : result jsval := x ← readInt32BE b 0; Ok (JNumber (num_of_Z x)).
Definition decodeSmallint (b : bytes) : result jsval := x ← readInt16BE b 0; Ok (JNumber (num_of_Z x)).
Definition decodeTinyint (b : bytes) : result jsval := x ← readInt8 b 0; Ok (JNumber (num_of_Z x)).

Definition decodeCqlLongAsLong (b : bytes) : result jsval := z ← Long.fromBuffer b; Ok (JLong z).

Definition decodeCqlLongAsBigInt (b : bytes) : result jsval :=
  hi ← readUInt32BE b 0;
  lo ← readUInt32BE b 4;
  Ok (JBigInt (asIntN 64 (Z.lor (Z.shiftl hi 32) lo))).

Definition decodeVarintAsInteger (b : bytes) : result jsval := i ← Integer.fromBuffer b; Ok (JInteger i).

(** The bytes are visited from the last one; [i] counts them. *)
Fixpoint varint_loop (f : Z -> Z) (rbytes : bytes) (i : Z) (result : Z) : Z :=
  match rbytes with
  | [] => result
  | b :: rbytes => varint_loop f rbytes (i + 1) (Z.lor result (Z.shiftl (f b) (i * 8)))
  end.

Definition varint_of_bytes (b : bytes) : Z :=
  if match byte_at b 0 with Some b0 => b0 <=? 0x7f | None => false end
  then varint_loop (fun b => b) (rev b) 0 0
  else Z.lnot (varint_loop (fun b => Z.land (Z.lnot b) 0xff) (rev b) 0 0).

Definition decodeVarintAsBigInt (b : bytes) : jsval := JBigInt (varint_of_bytes b).

Definition decodeDecimal (b : bytes) : result jsval := d ← BigDecimal.fromBuffer b; Ok (JDecimal d).

(** [new Date(n)] of an integral Number. *)
Definition new_Date (ms : Z) : option Z := if Z.abs ms <=? 8640000000000000 then Some ms else None.

Definition decodeTimestamp (b : bytes) : result jsval :=
  z ← Long.fromBuffer b; Ok (JDate (new_Date (num_trunc (num_of_Z z)))).

Definition decodeDate (b : bytes) : result jsval := d ← LocalDate.fromBuffer b; Ok (JLocalDate d).
Definition decodeTime (b : bytes) : result jsval := t ← LocalTime.fromBuffer b; Ok (JLocalTime t).
Definition decodeUuid (b : bytes) : result jsval := u ← Uuid.constructor b; Ok (JUuid u).
Definition decodeTimeUuid (b : bytes) : result jsval := u ← Uuid.constructor b; Ok (JTimeUuid u).
Definition decodeInet (b : bytes) : result jsval := a ← InetAddress.constructor b; Ok (JInet a).
Definition decodeDuration (b : bytes) : result jsval := d ← Duration.fromBuffer b; Ok (JDuration d).

Section Encoder.
Context `{Host}.
Variable e : encoder.

Let o : encodingOptions := options e.

Definition decodeLong (b : bytes) : result jsval :=
  if useBigIntAsLong o then decodeCqlLongAsBigInt b else decodeCqlLongAsLong b.

Definition decodeVarint (b : bytes) : result jsval :=
  if useBigIntAsVarint o then Ok (decodeVarintAsBigInt b) else decodeVarintAsInteger b.

(** The common head of [encodeFloat] and [encodeDouble]. *)
Definition float_arg (value : jsval) : result number :=
  match value with
  | JString s =>
      let x := parseFloat s in
      if is_nan x then invalid "Expected string representation of a number" else Ok x
  | JNumber x => Ok x
  | _ => invalid "Expected Number"
  end.

Definition encodeFloat (value : jsval) : result bytes := x ← float_arg value; Ok (writeFloatBE x).
Definition encodeDouble (value : jsval) : result bytes := x ← float_arg value; Ok (writeDoubleBE x).

Definition encodeBigIntFromLong (value : jsval) : result bytes :=
  match value with
  | JNumber x => Ok (Long.toBuffer (long_fromNumber x))
  | JString s => z ← long_fromString s; Ok (Long.toBuffer z)
  | JLong z => Ok (Long.toBuffer z)
  | _ => invalid "Not a valid bigint, expected Long/Number/String/Buffer"
  end.

(** [Number(value >> 32n) >>> 0] and [Number(value & 0xffffffffn)]. *)
Definition encodeBigIntFromBigInt (value : jsval) : result bytes :=
  z ← (match value with
       | JString s => string_to_bigint s
       | JBigInt z => Ok z
       | _ => invalid "Not a valid BigInt value"
       end);
  hi ← uint32_bytes (to_uint32 (num_trunc (num_of_Z (Z.shiftr z 32))));
  lo ← num_bytes 4 0 (2 ^ 32 - 1) (num_of_Z (Z.land z 0xffffffff));
  Ok (hi ++ lo).

Definition encodeLong (value : jsval) : result bytes :=
  if useBigIntAsLong o then encodeBigIntFromBigInt value else encodeBigIntFromLong value.

Definition encodeVarintFromInteger (value : jsval) : result bytes :=
  match value with
  | JNumber x => Ok (Integer.toBuffer (Integer.fromNumber x))
  | JString s => i ← Integer.fromString s 10; Ok (Integer.toBuffer i)
  | JBuffer b => Ok b
  | JInteger i => Ok (Integer.toBuffer i)
  | _ => invalid "Not a valid varint, expected Integer/Number/String/Buffer"
  end.

(** The loops that peel bytes until the value is [stop] (0 or -1). *)
Fixpoint varint_parts (fuel : nat) (stop value : Z) (parts : bytes) : bytes :=
  match fuel with
  | O => parts
  | S fuel =>
      if value =? stop then parts
      else varint_parts fuel stop (Z.shiftr value 8) (Z.land value 0xff :: parts)
  end.

Definition bytes_of_varint (value : Z) : bytes :=
  if value =? 0 then [0]
  else if value =? -1 then [0xff]
  else
    let fuel := S (Z.to_nat (Z.log2 (Z.abs value))) in
    if 0 <? value then
      let parts := varint_parts fuel 0 value [] in
      if match parts with p :: _ => 0x7f <? p | [] => false end then 0 :: parts else parts
    else
      let parts := varint_parts fuel (-1) value [] in
      if match parts with p :: _ => p <=? 0x7f | [] => false end then 0xff :: parts else parts.

Definition encodeVarintFromBigInt (value : jsval) : result bytes :=
  match value with
  | JString s => z ← string_to_bigint s; Ok (bytes_of_varint z)
  | JBigInt z => Ok (bytes_of_varint z)
  | _ => invalid "Not a valid varint, expected BigInt"
  end.

Definition encodeVarint (value : jsval) : result bytes :=
  if useBigIntAsVarint o then encodeVarintFromBigInt value else encodeVarintFromInteger value.

Definition encodeTimestamp (value : jsval) : result bytes :=
  value ←
    (match value with
     | JString s =>
         match date_parse s with
         | Some ms => Ok (JNumber (num_of_Z ms))
         | None => invalid "Invalid date"
         end
     | JDate (Some ms) => Ok (JNumber (num_of_Z ms))
     | JDate None => invalid "Invalid date"
     | v => Ok v
     end);
  if useBigIntAsLong o then z ← to_bigint value; encodeLong (JBigInt z) else encodeLong value.

(** The errors of the parsers become TypeErrors. *)
Definition wrap_error {A} (what : string) (r : result A) : result A :=
  match r with Ok a => Ok a | Err _ => Err (TypeError what) end.

(** [LocalDate.fromDate] *)
Definition localdate_fromDate (ms : option Z) : result LocalDate.t :=
  match ms with
  | None => Err (TypeError "Invalid date")
  | Some ms => let '(y, m, d) := local_ymd ms in LocalDate.of_ymd (Some y) (Some m) (Some d)
  end.

Definition encodeDate (value : jsval) : result bytes :=
  d ← (match value with
       | JString s => wrap_error "LocalDate could not be parsed" (LocalDate.fromString s)
       | JDate ms => wrap_error "LocalDate could not be parsed" (localdate_fromDate ms)
       | JLocalDate d => Ok d
       | _ => invalid "Expected Date/String/LocalDate"
       end);
  LocalDate.toBuffer d.

Definition encodeTime (value : jsval) : result bytes :=
  match value with
  | JString s => t ← wrap_error "LocalTime could not be parsed" (LocalTime.fromString s); Ok (LocalTime.toBuffer t)
  | JLocalTime t => Ok (LocalTime.toBuffer t)
  | _ => invalid "Expected String/LocalTime"
  end.

Definition encodeUuid (value : jsval) : result bytes :=
  match value with
  | JString s => u ← wrap_error "Invalid string representation of Uuid" (Uuid.fromString s); Ok (Uuid.getBuffer u)
  | JUuid u | JTimeUuid u => Ok (Uuid.getBuffer u)
  | _ => invalid "Not a valid Uuid, expected Uuid/String/Buffer"
  end.

Definition encodeInet (value : jsval) : result bytes :=
  match value with
  | JString s => a ← InetAddress.fromString unsafe_memory s; Ok (InetAddress.getBuffer a)
  | JInet a => Ok (InetAddress.getBuffer a)
  | JBuffer b => Ok b
  | _ => invalid "Not a valid Inet, expected InetAddress/Buffer"
  end.

Definition encodeDecimal (value : jsval) : result bytes :=
  match value with
  | JNumber x => d ← BigDecimal.fromNumber x; BigDecimal.toBuffer d
  | JString s => d ← BigDecimal.fromString s; BigDecimal.toBuffer d
  | JDecimal d => BigDecimal.toBuffer d
  | _ => invalid "Not a valid varint, expected BigDecimal/Number/String/Buffer"
  end.

Definition encodeString (value : jsval) (encoding : jsstr -> bytes) : result bytes :=
  match value with
  | JString s => Ok (encoding s)
  | _ => invalid "Not a valid text value, expected String"
  end.

Definition encodeUtf8String (value : jsval) : result bytes := encodeString value utf8_encode.
Definition encodeAsciiString (value : jsval) : result bytes := encodeString value ascii_encode.

Definition encodeBlob (value : jsval) : result bytes :=
  match value with JBuffer b => Ok b | _ => invalid "Not a valid blob, expected Buffer" end.

Definition encodeBoolean (value : jsval) : bytes := if truthy value then [1] else [0].

(** [isNaN(value)], then a range checked write of the converted value. *)
Definition encode_integer (n : nat) (lo hi : Z) (value : jsval) : result bytes :=
  x ← to_number value;
  if is_nan x then invalid "Expected Number" else num_bytes n lo hi x.

Definition encodeInt : jsval -> result bytes := encode_integer 4 (- 2 ^ 31) (2 ^ 31 - 1).
Definition encodeSmallint : jsval -> result bytes := encode_integer 2 (-32768) 32767.
Definition encodeTinyint : jsval -> result bytes := encode_integer 1 (-128) 127.

(** The scratch buffers of Duration; their content does not reach the result. *)
Definition duration_scratch : Duration.reusableBuffers :=
  Duration.mkBuffers (replicate 9 0) (replicate 9 0) (replicate 9 0).

Definition encodeDuration (value : jsval) : result bytes :=
  match value with
  | JDuration d => Ok (fst (Duration.toBuffer d duration_scratch))
  | _ => invalid "Not a valid duration, expected Duration/Buffer"
  end.

(** ** Lengths of collections *)

Definition uses4 : bool := protocolVersion.uses4BytesCollectionLength (protocol e).

Definition collectionLengthSize : Z := if uses4 then 4 else 2.

Definition decodeCollectionLength (b : bytes) (offset : Z) : result Z :=
  if uses4 then readInt32BE b offset else readUInt16BE b offset.

(** [getLengthBuffer] of a number, or of the length of an array or Buffer. *)
Definition getLengthBuffer (n : Z) : result bytes :=
  if uses4 then int32_bytes n else uint16_bytes n.

(** A null or undefined argument is as good as 0. *)
Definition encoded_length (x : encoded) : Z := match x with EBuffer b => blen b | _ => 0 end.

(** [Buffer.concat] of what was pushed; anything but a Buffer is refused. *)
Definition concat_parts (parts : list encoded) : result bytes :=
  bs ← traverse (fun p => match p with EBuffer b => Ok b | _ => invalid "ERR_INVALID_ARG_TYPE" end) parts;
  Ok (buffer_concat bs).

Definition is_absent (v : jsval) : bool :=
  match v with JUndefined | JUnset | JNull => true | _ => false end.

(** ** undefined and unset *)

(** [undefined] is turned into [types.unset] or [null]. *)
Definition undefined_as (value : jsval) : jsval :=
  match value with
  | JUndefined => if useUndefinedAsUnset o && (4 <=? protocol e) then JUnset else JNull
  | _ => value
  end.

Definition encode_unset : result encoded :=
  if protocolVersion.supportsUnset (protocol e) then Ok EUndefined
  else Err (TypeError "Unset value can not be used for this version of Cassandra").

(** [encode(undefined)]; the type is not looked at. *)
Definition encode_undefined : result encoded :=
  match undefined_as JUndefined with JUnset => encode_unset | _ => Ok ENull end.

(** ** Types with components, encoding

    [enc] is [encode] on the components of the value, [enc_key] is [encode] on the
    strings that are the keys of a plain object. *)

Section encode_components.
Variable enc : jsval -> hint -> result encoded.
Variable enc_key : jsstr -> hint -> result encoded.

(** The body of the loop of [encodeList]: the length and the item. *)
Definition encodeList_item (subtype : hint) (val : jsval) : result (list encoded) :=
  if is_absent val then invalid "A collection can't contain null or unset values"
  else
    b ← enc val subtype;
    l ← getLengthBuffer (encoded_length b);
    Ok [EBuffer l; b].

Definition encodeList_array (value : list jsval) (info : cinfo columnInfo) : result encoded :=
  match value with
  | [] => Ok ENull
  | _ =>
      l ← getLengthBuffer (Z.of_nat (length value));
      parts ← traverse (fun v => encodeList_item (info_hint info) v) value;
      b ← concat_parts (EBuffer l :: mjoin parts);
      Ok (EBuffer b)
  end.

Definition encodeList (value : jsval) (info : cinfo columnInfo) : result encoded :=
  match value with
  | JArray l => encodeList_array l info
  | _ => invalid "Not a valid list value, expected Array"
  end.

Definition encodeSet (value : jsval) (info : cinfo columnInfo) : result encoded :=
  match value with
  | JSet l => if opt_set o then encodeList_array l info else encodeList value info
  | _ => encodeList value info
  end.

(** [addItem] after the check of the key: lengths and contents; a null value has
    length 0 and no content.  [encode_key] encodes the key. *)
Definition addItem (encode_key : hint -> result encoded) (keySubtype valueSubtype : hint)
    (val : jsval) : result (list encoded) :=
  if is_absent val then invalid "A map can't contain null or unset values"
  else
    k ← encode_key keySubtype;
    kl ← getLengthBuffer (encoded_length k);
    v ← enc val valueSubtype;
    vl ← getLengthBuffer (encoded_length v);
    Ok (EBuffer kl :: k :: EBuffer vl :: match v with ENull => [] | _ => [v] end).

Definition encodeMap_entry (keySubtype valueSubtype : hint) (kv : jsval * jsval) : result (list encoded) :=
  if is_absent (fst kv) then invalid "A map can't contain null or unset keys"
  else addItem (enc (fst kv)) keySubtype valueSubtype (snd kv).

Definition encodeMap_prop (keySubtype valueSubtype : hint) (kv : jsstr * jsval) : result (list encoded) :=
  addItem (enc_key (fst kv)) keySubtype valueSubtype (snd kv).

(** The elements of an array, under their positions. *)
Fixpoint encodeMap_array (keySubtype valueSubtype : hint) (i : Z) (l : list jsval)
    : result (list (list encoded)) :=
  match l with
  | [] => Ok []
  | v :: l =>
      p ← addItem (enc_key (dec_str i)) keySubtype valueSubtype v;
      ps ← encodeMap_array keySubtype valueSubtype (i + 1) l;
      Ok (p :: ps)
  end.

(** The keys of a plain object and of an array are strings.  A value of another class
    is taken to have no enumerable property of its own. *)
Definition encodeMap (value : jsval) (info : cinfo columnInfo) : result encoded :=
  let items := default [] (info_items info) in
  let keySubtype := default HNone (items !! 0%nat) in
  let valueSubtype := default HNone (items !! 1%nat) in
  let finish := fun parts : list (list encoded) =>
    n ← getLengthBuffer (Z.of_nat (length parts));
    b ← concat_parts (EBuffer n :: mjoin parts);
    Ok (EBuffer b) in
  match value with
  | JMap entries =>
      if opt_map o then
        parts ← traverse (fun kv => encodeMap_entry keySubtype valueSubtype kv) entries;
        finish parts
      else finish []
  | JObject fields =>
      parts ← traverse (fun kv => encodeMap_prop keySubtype valueSubtype kv) fields;
      finish parts
  | JArray l =>
      parts ← encodeMap_array keySubtype valueSubtype 0 l;
      finish parts
  | _ => finish []
  end.

(** A component of a UDT or tuple: null or undefined is written as the length -1. *)
Definition component_bytes (item : encoded) : result bytes :=
  match item with
  | EBuffer b => l ← int32_bytes (blen b); Ok (l ++ b)
  | _ => Ok [255; 255; 255; 255]
  end.

(** [enc(value[name], type)]; an undefined property is encoded as such. *)
Definition encode_prop (name : jsstr) (type : hint) : list (jsstr * jsval) -> result encoded :=
  fix go fields :=
    match fields with
    | [] => encode_undefined
    | f :: fields => if bool_decide (fst f = name) then enc (snd f) type else go fields
    end.

Definition encodeUdt_field (value : jsval) (field : jsstr * columnInfo) : result bytes :=
  item ← (match value with
          | JObject fields => encode_prop (fst field) (HType (snd field)) fields
          | _ => encode_undefined
          end);
  component_bytes item.

Definition encodeUdt (value : jsval) (info : cinfo columnInfo) : result encoded :=
  match info with
  | UdtInfo _ _ fields =>
      parts ← traverse (encodeUdt_field value) fields;
      Ok (EBuffer (buffer_concat parts))
  | _ => not_object
  end.

(** The elements and their types, up to the shorter of the two. *)
Fixpoint encodeTuple_items (items : list hint) (elements : list jsval) {struct elements} : result (list bytes) :=
  match elements, items with
  | v :: elements, t :: items =>
      item ← enc v t;
      b ← component_bytes item;
      bs ← encodeTuple_items items elements;
      Ok (b :: bs)
  | _, _ => Ok []
  end.

(** [value.get] exists for tuples only; a value without a length gives no bytes. *)
Definition encodeTuple (value : jsval) (info : cinfo columnInfo) : result encoded :=
  let no_get := fun (items : list hint) (n : nat) =>
    if bool_decide (items = []) || (n =? 0)%nat then Ok (EBuffer [])
    else invalid "value.get is not a function" in
  match info_items info with
  | None => not_object
  | Some items =>
      match value with
      | JTuple elements => parts ← encodeTuple_items items elements; Ok (EBuffer (buffer_concat parts))
      | JArray l | JVector l _ => no_get items (length l)
      | JFloat32Array l => no_get items (length l)
      | JString s => no_get items (length s)
      | JInet a => no_get items (length (InetAddress.buffer a))
      | _ => Ok (EBuffer [])
      end
  end.

(** [serializationSizeIfFixed]: -1 for a variable size; none is NaN. *)
Fixpoint serializationSizeIfFixed (t : columnInfo) : option Z :=
  match t with
  | CI code info _ =>
      if code =? dataTypes.bigint then Some 8
      else if code =? dataTypes.boolean then Some 1
      else if code =? dataTypes.timestamp then Some 8
      else if code =? dataTypes.double then Some 8
      else if code =? dataTypes.float then Some 4
      else if code =? dataTypes.int then Some 4
      else if code =? dataTypes.timeuuid then Some 16
      else if code =? dataTypes.uuid then Some 16
      else if code =? dataTypes.custom then
        match info with
        | VectorInfo sub dim =>
            match serializationSizeIfFixed sub with
            | Some s => if s =? -1 then Some (-1) else d ← dim_value dim; Some (s * d)
            | None => None
            end
        | _ => Some (-1)
        end
      else Some (-1)
  end.

Definition encodeVector_item (size : option Z) (subtype : columnInfo) (elem : jsval) : result (list encoded) :=
  elemBuffer ← enc elem (HType subtype);
  if bool_decide (size = Some (-1)) then
    match elemBuffer with
    | EBuffer b => l ← VIntCoding.uvintPack (blen b); Ok [EBuffer l; elemBuffer]
    | _ => not_object
    end
  else Ok [elemBuffer].

Definition encodeVector_elements (subtype : columnInfo) (dimension : number) (elements : list jsval)
    : result encoded :=
  if negb (bool_decide (dim_value dimension = Some (Z.of_nat (length elements))))
  then invalid "Expected vector with another number of dimensions"
  else match elements with
       | [] => invalid "Cannot encode empty array as vector"
       | _ =>
           parts ← traverse (fun v => encodeVector_item (serializationSizeIfFixed subtype) subtype v) elements;
           b ← concat_parts (mjoin parts);
           Ok (EBuffer b)
       end.

(** A Float32Array passes for a Vector. *)
Definition encodeVector (value : jsval) (subtype : columnInfo) (dimension : number) : result encoded :=
  match value with
  | JVector elements _ | JFloat32Array elements => encodeVector_elements subtype dimension elements
  | _ => invalid "Driver only supports Vector type when encoding a vector"
  end.

Definition starts_vector (s : jsstr) : bool := starts_with names.vector s.

(** [params.info] of the description a vector class name parses to. *)
Definition vector_info (t : columnInfo) : result (columnInfo * number) :=
  match ci_info t with
  | VectorInfo sub dim => Ok (sub, dim)
  | _ => not_object
  end.

Definition encodeCustom (value : jsval) (info : cinfo columnInfo) : result encoded :=
  match info with
  | VectorInfo sub dim => encodeVector value sub dim
  | StrInfo s =>
      if starts_vector s then
        t ← parseFqTypeName s;
        '(sub, dim) ← vector_info t;
        encodeVector value sub dim
      else if bool_decide (s = names.duration) then EBuffer <$> encodeDuration value
      else invalid "No encoding handler found for type"
  | _ => invalid "No encoding handler found for type"
  end.

(** The table [encoders]. *)
Definition encoders (code : Z) (value : jsval) (info : cinfo columnInfo) : result encoded :=
  if code =? dataTypes.custom then encodeCustom value info
  else if code =? dataTypes.ascii then EBuffer <$> encodeAsciiString value
  else if code =? dataTypes.bigint then EBuffer <$> encodeLong value
  else if code =? dataTypes.blob then EBuffer <$> encodeBlob value
  else if code =? dataTypes.boolean then Ok (EBuffer (encodeBoolean value))
  else if code =? dataTypes.counter then EBuffer <$> encodeLong value
  else if code =? dataTypes.decimal then EBuffer <$> encodeDecimal value
  else if code =? dataTypes.double then EBuffer <$> encodeDouble value
  else if code =? dataTypes.float then EBuffer <$> encodeFloat value
  else if code =? dataTypes.int then EBuffer <$> encodeInt value
  else if code =? dataTypes.text then EBuffer <$> encodeUtf8String value
  else if code =? dataTypes.timestamp then EBuffer <$> encodeTimestamp value
  else if code =? dataTypes.uuid then EBuffer <$> encodeUuid value
  else if code =? dataTypes.varchar then EBuffer <$> encodeUtf8String value
  else if code =? dataTypes.varint then EBuffer <$> encodeVarint value
  else if code =? dataTypes.timeuuid then EBuffer <$> encodeUuid value
  else if code =? dataTypes.inet then EBuffer <$> encodeInet value
  else if code =? dataTypes.date then EBuffer <$> encodeDate value
  else if code =? dataTypes.time then EBuffer <$> encodeTime value
  else if code =? dataTypes.smallint then EBuffer <$> encodeSmallint value
  else if code =? dataTypes.tinyint then EBuffer <$> encodeTinyint value
  else if code =? dataTypes.duration then EBuffer <$> encodeDuration value
  else if code =? dataTypes.list then encodeList value info
  else if code =? dataTypes.map then encodeMap value info
  else if code =? dataTypes.set then encodeSet value info
  else if code =? dataTypes.udt then encodeUdt value info
  else if code =? dataTypes.tuple then encodeTuple value info
  else Err (PlainError "Type not supported").

End encode_components.

(** ** encode *)

Definition uuid_text (s : jsstr) : bool := (length s =? 36)%nat && Uuid.uuidRegex s.

(** None is null; the last two branches of the source throw. *)
Fixpoint guessDataType (value : jsval) : result (option columnInfo) :=
  let some := fun code => Ok (Some (simple code)) in
  match value with
  | JNumber _ => some dataTypes.double
  | JString s => some (if uuid_text s then dataTypes.uuid else dataTypes.text)
  | JBool _ => some dataTypes.boolean
  | JBuffer _ => some dataTypes.blob
  | JDate _ => some dataTypes.timestamp
  | JLong _ => some dataTypes.bigint
  | JInteger _ => some dataTypes.varint
  | JDecimal _ => some dataTypes.decimal
  | JUuid _ | JTimeUuid _ => some dataTypes.uuid
  | JInet _ => some dataTypes.inet
  | JTuple _ => some dataTypes.tuple
  | JLocalDate _ => some dataTypes.date
  | JLocalTime _ => some dataTypes.time
  | JDuration _ => Ok (Some (of_info dataTypes.custom (StrInfo names.duration)))
  | JFloat32Array [] => Err (TypeError "Cannot guess subtype of empty vector")
  | JFloat32Array l =>
      Ok (Some (of_info dataTypes.custom (VectorInfo (simple dataTypes.float) (num_of_Z (Z.of_nat (length l))))))
  | JVector [] _ => Err (TypeError "Cannot guess subtype of empty vector")
  | JVector (x :: l) subtype =>
      let named := match subtype with
                   | Some (c :: s) => match getByName (c :: s) with Ok t => Some t | Err _ => None end
                   | _ => None
                   end in
      sub ← (match named with Some t => Ok (Some t) | None => guessDataType x end);
      match sub with
      | Some t => Ok (Some (of_info dataTypes.custom (VectorInfo t (num_of_Z (Z.of_nat (S (length l)))))))
      | None => Err (TypeError "Cannot guess subtype from element")
      end
  | JArray _ => some dataTypes.list
  | _ => Ok None
  end.

(** The type [encode] uses. *)
Definition resolve_type (value : jsval) (typeInfo : hint) : result columnInfo :=
  let guess :=
    t ← guessDataType value;
    match t with
    | Some t => Ok t
    | None => Err (TypeError "Target data type could not be guessed")
    end in
  match typeInfo with
  | HNone | HCode 0 | HName [] => guess
  | HCode c => Ok (simple c)
  | HName s => getByName s
  | HType t => Ok t
  | HOther => Err (TypeError "Type information not valid, only String and Number values are valid hints")
  end.

(** [encode] of a string: no component of it is encoded. *)
Definition encode_string (s : jsstr) (typeInfo : hint) : result encoded :=
  t ← resolve_type (JString s) typeInfo;
  encoders (fun _ _ => not_object) (fun _ _ => not_object) (ci_code t) (JString s) (ci_info t).

Fixpoint encode (value : jsval) (typeInfo : hint) {struct value} : result encoded :=
  match undefined_as value with
  | JUnset => encode_unset
  | JNull => Ok ENull
  | JBuffer b => Ok (EBuffer b)
  | _ =>
      t ← resolve_type value typeInfo;
      encoders encode encode_string (ci_code t) value (ci_info t)
  end.

(** ** Types with components, decoding

    [dec] is [decode] on a Buffer, at the descriptions inside the one at hand;
    [dec_class] decodes a vector whose type is given by a class name. *)

(** [decode] with something that is not a description in the place of the type. *)
Definition decode_untyped (b : bytes) : result jsval :=
  if bool_decide (b = []) then Ok JNull else Err (PlainError "Unknown data type: undefined").

Section decode_components.
Variable dec : columnInfo -> bytes -> result jsval.
Variable dec_class : jsstr -> bytes -> result jsval.

(** [decode(_, info)] *)
Definition info_decoder (info : cinfo columnInfo) : bytes -> result jsval :=
  match info with
  | NoInfo => fun _ => not_object
  | TypeInfo t => dec t
  | _ => decode_untyped
  end.

(** [decode(_, info[i])]; none when [info] is undefined. *)
Definition item_decoders (info : cinfo columnInfo) : option (list (bytes -> result jsval)) :=
  match info with
  | NoInfo => None
  | TypesInfo ts => Some ((fun t => dec t) <$> ts)
  | StrInfo s => Some ((fun _ => decode_untyped) <$> s)
  | VectorInfo t _ => Some [dec t; decode_untyped]
  | _ => Some []
  end.

Fixpoint decodeList_loop (n : nat) (item : bytes -> result jsval) (b : bytes) (offset : Z)
    : result (list jsval) :=
  match n with
  | O => Ok []
  | S n =>
      length ← decodeCollectionLength b offset;
      let offset := offset + collectionLengthSize in
      x ← item (slice b offset (offset + length));
      xs ← decodeList_loop n item b (offset + length);
      Ok (x :: xs)
  end.

Definition decodeList (b : bytes) (info : cinfo columnInfo) : result (list jsval) :=
  totalItems ← decodeCollectionLength b 0;
  if totalItems <? 0 then Err (RangeError "Invalid array length")
  else decodeList_loop (Z.to_nat totalItems) (info_decoder info) b collectionLengthSize.

Definition decodeSet (b : bytes) (info : cinfo columnInfo) : result jsval :=
  arr ← decodeList b info;
  Ok (if opt_set o then JSet (set_of arr) else JArray arr).

(** The loop of [readValues]; [callback] stores an entry. *)
Fixpoint readValues {A} (n : nat) (key value : bytes -> result jsval)
    (callback : jsval -> jsval -> A -> result A) (b : bytes) (offset : Z) (acc : A) : result A :=
  match n with
  | O => Ok acc
  | S n =>
      keyLength ← decodeCollectionLength b offset;
      let offset := offset + collectionLengthSize in
      k ← key (slice b offset (offset + keyLength));
      let offset := offset + keyLength in
      valueLength ← decodeCollectionLength b offset;
      let offset := offset + collectionLengthSize in
      if valueLength <? 0 then
        acc ← callback k JNull acc;
        readValues n key value callback b offset acc
      else
        v ← value (slice b offset (offset + valueLength));
        acc ← callback k v acc;
        readValues n key value callback b (offset + valueLength) acc
  end.

Definition decodeMap (b : bytes) (info : cinfo columnInfo) : result jsval :=
  totalItems ← decodeCollectionLength b 0;
  let items := default [] (item_decoders info) in
  let key := default (fun _ => not_object) (items !! 0%nat) in
  let value := default (fun _ => not_object) (items !! 1%nat) in
  let n := Z.to_nat totalItems in
  if opt_map o then
    m ← readValues n key value (fun k v m => Ok (map_set k v m)) b collectionLengthSize [];
    Ok (JMap m)
  else
    m ← readValues n key value (fun k v m => k ← to_key k; Ok (set_prop k v m)) b collectionLengthSize [];
    Ok (JObject m).

(** The loop of [decodeUdt], over the decoders of the fields. *)
Fixpoint decodeUdt_loop (fields : list (jsstr * (bytes -> result jsval))) (b : bytes) (offset : Z)
    (result_ : list (jsstr * jsval)) : result (list (jsstr * jsval)) :=
  match fields with
  | [] => Ok result_
  | (name, item) :: fields =>
      if offset <? blen b then
        length ← readInt32BE b offset;
        let offset := offset + 4 in
        if length <? 0 then decodeUdt_loop fields b offset (set_prop name JNull result_)
        else
          v ← item (slice b offset (offset + length));
          decodeUdt_loop fields b (offset + length) (set_prop name v result_)
      else Ok result_
  end.

Definition decodeUdt (b : bytes) (info : cinfo columnInfo) : result jsval :=
  match info with
  | UdtInfo _ _ fields =>
      r ← decodeUdt_loop ((fun f => (fst f, dec (snd f))) <$> fields) b 0 [];
      Ok (JObject r)
  | _ => not_object
  end.

(** The elements the bytes do not reach stay undefined. *)
Fixpoint decodeTuple_loop (items : list (bytes -> result jsval)) (b : bytes) (offset : Z)
    : result (list jsval) :=
  match items with
  | [] => Ok []
  | item :: items' =>
      if offset <? blen b then
        length ← readInt32BE b offset;
        let offset := offset + 4 in
        if length <? 0 then
          xs ← decodeTuple_loop items' b offset; Ok (JNull :: xs)
        else
          x ← item (slice b offset (offset + length));
          xs ← decodeTuple_loop items' b (offset + length);
          Ok (x :: xs)
      else Ok (replicate (length items) JUndefined)
  end.

(** The constructor of Tuple refuses no elements; [new Array(undefined)] has one. *)
Definition new_Tuple (elements : list jsval) : result jsval :=
  match elements with
  | [] => Err (TypeError "Tuple must contain at least one value")
  | _ => Ok (JTuple elements)
  end.

Definition decodeTuple (b : bytes) (info : cinfo columnInfo) : result jsval :=
  match info with
  | TypeInfo _ | UdtInfo _ _ _ => new_Tuple [JUndefined]
  | _ =>
      match item_decoders info with
      | None => not_object
      | Some items => elements ← decodeTuple_loop items b 0; new_Tuple elements
      end
  end.

Definition not_enough {A} : result A := Err (TypeError "Not enough bytes to decode the vector").
Definition extra_bytes {A} : result A := Err (TypeError "Extra bytes found after decoding the vector").
Definition vector_empty {A} : result A := Err (TypeError "Vector must contain at least one value").

(** [elemLength] is -1 for elements of variable size.  When it is NaN the first element
    is read from no bytes and cannot be built; when the bytes end before the size of an
    element, the position becomes NaN and is refused at the end. *)
Fixpoint decodeVector_loop (n : nat) (item : bytes -> result jsval) (elemLength : option Z)
    (b : bytes) (offset : Z) : result (list jsval * Z) :=
  match n with
  | O => Ok ([], offset)
  | S n =>
      match elemLength with
      | None => _ ← item []; vector_empty
      | Some elemLength' =>
          '(size, offset) ←
            (if elemLength' =? -1 then
               match VIntCoding.uvintUnpack (slice_from b offset) with
               | (Some size, bytesRead) => Ok (size, offset + bytesRead)
               | (None, _) => _ ← item []; extra_bytes
               end
             else Ok (elemLength', offset));
          if blen b <? offset + size then not_enough
          else
            x ← item (slice b offset (offset + size));
            '(xs, offset) ← decodeVector_loop n item elemLength b (offset + size);
            Ok (x :: xs, offset)
      end
  end.

Definition decodeVector (b : bytes) (subtype : columnInfo) (item : bytes -> result jsval)
    (dimension : number) : result jsval :=
  '(rv, offset) ← decodeVector_loop (Z.to_nat (default 0 (dim_value dimension))) item
                    (serializationSizeIfFixed subtype) b 0;
  if negb (offset =? blen b) then extra_bytes
  else
    typeInfo ← getDataTypeNameByCode subtype;
    match rv with
    | [] => vector_empty
    | _ => Ok (JVector rv typeInfo)
    end.

Definition decodeCustom (b : bytes) (info : cinfo columnInfo) : result jsval :=
  match info with
  | VectorInfo sub dim => decodeVector b sub (dec sub) dim
  | StrInfo s =>
      if starts_vector s then dec_class s b
      else if bool_decide (s = names.duration) then decodeDuration b
      else Ok (JBuffer b)
  | _ => Ok (JBuffer b)
  end.

(** The table [decoders]. *)
Definition decoders (code : Z) (info : cinfo columnInfo) (b : bytes) : result jsval :=
  if code =? dataTypes.custom then decodeCustom b info
  else if code =? dataTypes.ascii then Ok (decodeAsciiString b)
  else if code =? dataTypes.bigint then decodeLong b
  else if code =? dataTypes.blob then Ok (JBuffer b)
  else if code =? dataTypes.boolean then decodeBoolean b
  else if code =? dataTypes.counter then decodeLong b
  else if code =? dataTypes.decimal then decodeDecimal b
  else if code =? dataTypes.double then decodeDouble b
  else if code =? dataTypes.float then decodeFloat b
  else if code =? dataTypes.int then decodeInt b
  else if code =? dataTypes.text then Ok (decodeUtf8String b)
  else if code =? dataTypes.timestamp then decodeTimestamp b
  else if code =? dataTypes.uuid then decodeUuid b
  else if code =? dataTypes.varchar then Ok (decodeUtf8String b)
  else if code =? dataTypes.varint then decodeVarint b
  else if code =? dataTypes.timeuuid then decodeTimeUuid b
  else if code =? dataTypes.inet then decodeInet b
  else if code =? dataTypes.date then decodeDate b
  else if code =? dataTypes.time then decodeTime b
  else if code =? dataTypes.smallint then decodeSmallint b
  else if code =? dataTypes.tinyint then decodeTinyint b
  else if code =? dataTypes.duration then decodeDuration b
  else if code =? dataTypes.list then JArray <$> decodeList b info
  else if code =? dataTypes.map then decodeMap b info
  else if code =? dataTypes.set then decodeSet b info
  else if code =? dataTypes.udt then decodeUdt b info
  else if code =? dataTypes.tuple then decodeTuple b info
  else Err (PlainError "Unknown data type").

End decode_components.

(** ** decode *)

Definition zeroLengthTypesSupported (code : Z) : bool :=
  (code =? dataTypes.text) || (code =? dataTypes.ascii) || (code =? dataTypes.varchar) ||
  (code =? dataTypes.custom) || (code =? dataTypes.blob).

Fixpoint decode_with (dec_class : jsstr -> bytes -> result jsval) (t : columnInfo) (b : bytes) {struct t}
    : result jsval :=
  match t with
  | CI code info _ =>
      if bool_decide (b = []) && negb (zeroLengthTypesSupported code) then Ok JNull
      else decoders (decode_with dec_class) dec_class code info b
  end.

(** A class name met inside the description of a class name: [parseFqTypeName] never
    leaves the name of a vector in its result. *)
Definition nested_class (_ : jsstr) (_ : bytes) : result jsval := Err (DriverInternalError "nested class name").

(** The branch of [decodeCustom] for a vector given by its class name. *)
Definition decode_class (s : jsstr) (b : bytes) : result jsval :=
  t ← parseFqTypeName s;
  '(sub, dim) ← vector_info t;
  decodeVector b sub (decode_with nested_class sub) dim.

Definition decode_bytes (t : columnInfo) (b : bytes) : result jsval := decode_with decode_class t b.

(** [decode(buffer, type)]; a null buffer is none. *)
Definition decode (buffer : option bytes) (t : columnInfo) : result jsval :=
  match buffer with None => Ok JNull | Some b => decode_bytes t b end.

(** ** Rows *)

Fixpoint decodeRow (columns : list (jsstr * columnInfo)) (reader : FrameReader.t)
    (row : list (jsstr * jsval)) : result (list (jsstr * jsval) * FrameReader.t) :=
  match columns with
  | [] => Ok (row, reader)
  | (name, type) :: columns =>
      '(cellBuffer, reader) ← FrameReader.readBytes reader;
      v ← decode cellBuffer type;
      decodeRow columns reader (set_prop name v row)
  end.

Fixpoint decodeRows_loop (rowsNumber : nat) (columns : list (jsstr * columnInfo)) (reader : FrameReader.t)
    : result (list (list (jsstr * jsval))) :=
  match rowsNumber with
  | O => Ok []
  | S n =>
      '(row, reader) ← decodeRow columns reader [];
      rows ← decodeRows_loop n columns reader;
      Ok (row :: rows)
  end.

(** The names and the types have one entry per column. *)
Definition decodeRows (data : bytes) (rowsNumber : nat) (columns : list (jsstr * columnInfo))
    : result (list (list (jsstr * jsval))) :=
  decodeRows_loop rowsNumber columns (FrameReader.constructor data).

End Encoder.
