(* ===== verification/EncoderScalars.v ===== *)
(** * Round trips of the scalar types

    For each CQL scalar type, the values that decoding returns, and the fact that
    encoding such a value gives bytes that decode to it. *)

From Stdlib Require Import SpecFloat.
From S2P Require Import Prelude JsNumber Buffer JsString Float NumText Utf8 VInt.
From S2P Require Import Integer LocalDate LocalTime Duration ValueTypes ProtocolVersion.
From S2P Require Import CqlTypes TypeNames Frame JsValue Encoder.

(** What the driver relies on of the [long] package: [fromNumber] keeps integers. *)
Class LongLaws `{Host} : Prop := {
  long_fromNumber_int : forall z, safe_int z -> long_fromNumber (num_of_Z z) = z
}.

#[export] Instance test_host_laws : LongLaws.
Proof. split. intros z Hz. by apply num_trunc_of_Z. Qed.

(** ** BigInt as varint *)

Lemma varint_loop_spec f rb i acc :
  wf_bytes (f <$> rb) -> 0 <= i -> 0 <= acc < 256 ^ i ->
  varint_loop f rb i acc = acc + 256 ^ i * be_val (rev (f <$> rb)).
Proof.
  revert i acc. induction rb as [|b rb IH]; intros i acc Hw Hi Ha; cbn [varint_loop fmap list_fmap rev].
  { unfold be_val. simpl. lia. }
  apply Forall_cons_1 in Hw as [Hb Hw]. unfold is_byte in Hb.
  assert (E : Z.lor acc (Z.shiftl (f b) (i * 8)) = acc + 256 ^ i * f b).
  { rewrite Z.lor_comm, lor_shiftl_add; [|lia|].
    - change 256 with (2 ^ 8). rewrite <- Z.pow_mul_r by lia. rewrite (Z.mul_comm 8 i). lia.
    - change 256 with (2 ^ 8) in Ha. rewrite <- Z.pow_mul_r, (Z.mul_comm 8 i) in Ha by lia. lia. }
  rewrite E, IH by (try done; rewrite ?Z.pow_add_r by lia; nia).
  rewrite be_val_app. cbn [length]. rewrite Z.pow_add_r by lia.
  change (256 ^ Z.of_nat 1) with 256. unfold be_val at 3. simpl length. change (256 ^ Z.of_nat 0) with 1.
  fold be_val. ring.
Qed.

Lemma be_val_complement b :
  wf_bytes b -> wf_bytes ((fun x => 255 - x) <$> b) /\
  be_val ((fun x => 255 - x) <$> b) = 256 ^ Z.of_nat (length b) - 1 - be_val b.
Proof.
  induction 1 as [|x b Hx Hb [IH1 IH2]]; [split; [constructor|reflexivity]|]. cbn [fmap list_fmap]. unfold is_byte in Hx.
  split; [apply Forall_cons_2; [unfold is_byte; lia|done]|].
  unfold be_val; fold be_val. cbn [length]. rewrite length_fmap. setoid_rewrite IH2. rewrite pow256. ring.
Qed.

Lemma varint_of_bytes_twos b : b <> [] -> wf_bytes b -> varint_of_bytes b = twos b.
Proof.
  intros Hne Hb. destruct b as [|x r]; [done|]. unfold varint_of_bytes. rewrite byte_at_0.
  pose proof Hb as Hb'. apply Forall_cons_1 in Hb' as [Hx Hr]. rewrite twos_cons by done.
  assert (Hval : be_val (x :: r) = x * 256 ^ Z.of_nat (length r) + be_val r) by done.
  assert (Hrev : wf_bytes (rev (x :: r))) by (by apply Forall_rev).
  destruct (Z.leb_spec x 0x7f).
  - rewrite varint_loop_spec; [|by rewrite list_fmap_id|lia|lia].
    rewrite list_fmap_id, rev_involutive, Hval. rewrite (proj2 (Z.ltb_lt x 128)) by lia. lia.
  - assert (E : forall l, wf_bytes l -> ((fun b => Z.land (Z.lnot b) 0xff) <$> l) = ((fun x => 255 - x) <$> l)).
    { induction 1 as [|y l Hy Hl IH]; [done|]. cbn [fmap list_fmap]. rewrite IH. f_equal.
      rewrite land_255, lnot_eq. unfold is_byte in Hy. lia. }
    destruct (be_val_complement _ Hb) as [Hc1 Hc2].
    rewrite varint_loop_spec; [|rewrite E by done; by apply be_val_complement|lia|lia].
    rewrite E by done. change ((fun x => 255 - x) <$> rev (x :: r)) with (List.map (fun x => 255 - x) (rev (x :: r))).
    rewrite List.map_rev, rev_involutive.
    change (List.map (fun x => 255 - x) (x :: r)) with ((fun x => 255 - x) <$> (x :: r)). rewrite Hc2, lnot_eq, Hval. cbn [length].
    rewrite pow256, (proj2 (Z.ltb_ge x 128)) by lia. lia.
Qed.

(** The magnitude the loops shrink. *)
Definition varint_size (v : Z) : Z := if 0 <=? v then v else - v - 1.

Lemma varint_parts_spec fuel stop v parts :
  stop = (if 0 <=? v then 0 else -1) -> varint_size v < 2 ^ Z.of_nat fuel ->
  exists k, varint_parts fuel stop v parts = be_bytes k v ++ parts /\
    v / 256 ^ Z.of_nat k = stop /\ (v = stop -> k = O) /\
    (v <> stop -> exists j, k = S j /\ v / 256 ^ Z.of_nat j <> stop).
Proof.
  revert v parts. induction fuel as [|fuel IH]; intros v parts Hstop Hv.
  { exists O. rewrite Z.div_1_r. change (2 ^ Z.of_nat 0) with 1 in Hv.
    assert (v = stop) by (subst stop; unfold varint_size in Hv; destruct (Z.leb_spec 0 v); lia). by subst. }
  cbn [varint_parts]. destruct (Z.eqb_spec v stop) as [Heq|Hne].
  { exists O. rewrite Z.div_1_r. done. }
  rewrite Z.shiftr_div_pow2, land_255 by lia. change (2 ^ 8) with 256.
  rewrite Nat2Z.inj_succ, Z.pow_succ_r in Hv by lia.
  assert (Hs : (0 <=? v / 256) = (0 <=? v)) by (destruct (Z.leb_spec 0 v), (Z.leb_spec 0 (v / 256)); lia).
  destruct (IH (v / 256) (v mod 256 :: parts)) as (k & E & Hk & Hz & Hj).
  { by rewrite Hs. }
  { unfold varint_size in *. rewrite Hs. destruct (Z.leb_spec 0 v); lia. }
  exists (S k). rewrite E, be_bytes_snoc, <- app_assoc. split; [done|].
  rewrite pow256, <- Z.div_div by (pose proof (pow256_pos k); lia). split; [done|]. split; [done|].
  intros _. exists k. split; [done|]. destruct (decide (v / 256 = stop)) as [Es|Es].
  - rewrite (Hz Es), Z.div_1_r. done.
  - destruct (Hj Es) as (j & -> & Hd). rewrite pow256, <- Z.div_div by (pose proof (pow256_pos j); lia). done.
Qed.

Lemma varint_fuel v : varint_size v < 2 ^ Z.of_nat (S (Z.to_nat (Z.log2 (Z.abs v)))).
Proof.
  unfold varint_size. rewrite Nat2Z.inj_succ, Z2Nat.id by apply Z.log2_nonneg.
  destruct (Z.eq_dec v 0) as [->|Hv]; [done|].
  pose proof (Z.log2_spec (Z.abs v) ltac:(lia)) as [_ Hl]. destruct (Z.leb_spec 0 v); lia.
Qed.

Lemma twos_be_bytes k v :
  (0 < k)%nat -> - 2 ^ (8 * Z.of_nat k - 1) <= v < 2 ^ (8 * Z.of_nat k - 1) -> twos (be_bytes k v) = v.
Proof.
  intros Hk Hv. apply twos_unique; rewrite ?be_bytes_length; [|by rewrite be_val_bytes, pow256_2|done].
  intros E. apply (f_equal length) in E. rewrite be_bytes_length in E. simpl in E. lia.
Qed.

(** The bound on a value whose part above the last byte group is [h]. *)
Lemma div_bounds v P h lo hi : 0 < P -> v / P = h -> lo <= h < hi -> lo * P <= v < hi * P.
Proof. intros HP <- Hh. pose proof (Z.div_mod v P ltac:(lia)). pose proof (Z.mod_pos_bound v P HP). nia. Qed.

Lemma bytes_of_varint_spec v :
  bytes_of_varint v <> [] /\ wf_bytes (bytes_of_varint v) /\ twos (bytes_of_varint v) = v.
Proof.
  unfold bytes_of_varint.
  destruct (Z.eqb_spec v 0) as [->|H0].
  { split; [done|]. split; [apply Forall_cons_2; [done|apply Forall_nil_2]|reflexivity]. }
  destruct (Z.eqb_spec v (-1)) as [->|H1].
  { split; [done|]. split; [apply Forall_cons_2; [done|apply Forall_nil_2]|reflexivity]. }
  destruct (varint_parts_spec _ (if 0 <=? v then 0 else -1) v [] eq_refl (varint_fuel v))
    as (k & E & Hk & _ & Hj).
  destruct Hj as (j & -> & Hd); [case_Z; lia|]. rewrite app_nil_r in E.
  pose proof (pow256_pos j) as HP. rewrite pow256, Z.mul_comm, <- Z.div_div in Hk by lia.
  set (h := v / 256 ^ Z.of_nat j) in *.
  assert (Ep : be_bytes (S j) v = h mod 256 :: be_bytes j v) by done.
  assert (P2 : 2 ^ (8 * Z.of_nat (S j) - 1) = 128 * 256 ^ Z.of_nat j).
  { rewrite pow256_2. replace (8 * Z.of_nat (S j) - 1) with (7 + 8 * Z.of_nat j) by lia.
    by rewrite Z.pow_add_r by lia. }
  assert (Hw : wf_bytes (be_bytes (S j) v)) by apply be_bytes_wf.
  assert (P3 : 256 ^ Z.of_nat (S j) = 256 * 256 ^ Z.of_nat j) by apply pow256.
  destruct (Z.ltb_spec 0 v) as [Hpos|Hneg].
  - rewrite (proj2 (Z.leb_le 0 v)) in E, Hk, Hd by lia. rewrite E, Ep.
    rewrite <- Ep. destruct (Z.ltb_spec 0x7f (h mod 256)).
    + split; [done|]. split; [by apply Forall_cons_2|]. rewrite twos_cons by done.
      rewrite be_val_bytes, be_bytes_length. rewrite (proj2 (Z.ltb_lt 0 128)) by lia.
      rewrite Z.mod_small; [lia|]. rewrite P3.
      pose proof (div_bounds v _ h 0 256 HP eq_refl ltac:(lia)). lia.
    + split; [done|]. split; [done|]. apply twos_be_bytes; [lia|]. rewrite P2.
      pose proof (div_bounds v _ h 0 128 HP eq_refl ltac:(lia)). lia.
  - rewrite (proj2 (Z.leb_gt 0 v)) in E, Hk, Hd by lia. rewrite E, Ep.
    rewrite <- Ep. destruct (Z.leb_spec (h mod 256) 0x7f).
    + split; [done|]. split; [by apply Forall_cons_2|]. rewrite twos_cons by done.
      rewrite be_val_bytes, be_bytes_length. rewrite (proj2 (Z.ltb_ge 0xff 128)) by lia.
      pose proof (div_bounds v _ h (-256) 0 HP eq_refl ltac:(lia)).
      rewrite <- (Z_mod_plus_full v 1), Z.mod_small by (rewrite P3; lia). rewrite P3. lia.
    + split; [done|]. split; [done|]. apply twos_be_bytes; [lia|]. rewrite P2.
      pose proof (div_bounds v _ h (-128) 0 HP eq_refl ltac:(lia)). lia.
Qed.

Lemma varint_roundtrip v : varint_of_bytes (bytes_of_varint v) = v.
Proof.
  destruct (bytes_of_varint_spec v) as (Hne & Hw & Ht). by rewrite varint_of_bytes_twos.
Qed.

(** ** 64-bit integers *)

Lemma encode_bigint64 z :
  int64 z -> encodeBigIntFromBigInt (JBigInt z) = Ok (Long.toBuffer z).
Proof.
  unfold int64. intros Hz. unfold encodeBigIntFromBigInt. rewrite ok_bind, Z.shiftr_div_pow2, land_uint32 by lia.
  rewrite num_trunc_of_Z by (unfold safe_int; lia). unfold uint32_bytes.
  rewrite int_bytes_ok by (unfold to_uint32; lia). rewrite ok_bind.
  rewrite num_bytes_of_Z by (unfold safe_int; lia). rewrite int_bytes_ok by lia. rewrite ok_bind.
  unfold Long.toBuffer. do 2 f_equal. unfold to_uint32.
  replace (z / 2 ^ 32) with ((z / 2 ^ 32) mod 2 ^ 32 + (z / 2 ^ 32 / 2 ^ 32) * 256 ^ Z.of_nat 4) at 2
    by (change (256 ^ Z.of_nat 4) with (2 ^ 32); lia).
  by rewrite be_bytes_mod.
Qed.

Lemma decode_bigint64 z :
  int64 z -> decodeCqlLongAsBigInt (Long.toBuffer z) = Ok (JBigInt z).
Proof.
  unfold int64. intros Hz. unfold decodeCqlLongAsBigInt, Long.toBuffer, readUInt32BE.
  rewrite read_uint_0 by (rewrite blen_be; lia). rewrite ok_bind.
  rewrite <- (app_nil_r (be_bytes 4 (z mod 2 ^ 32))).
  rewrite (read_uint_app 4 (be_bytes 4 (z / 2 ^ 32)) (be_bytes 4 (z mod 2 ^ 32)) [] 4)
    by (rewrite blen_be; lia).
  rewrite ok_bind, !be_val_bytes. change (256 ^ Z.of_nat 4) with (2 ^ 32). rewrite Zmod_mod.
  rewrite lor_shiftl_add by lia. do 2 f_equal. unfold asIntN. change (64 - 1) with 63. lia.
Qed.

Lemma decode_long64 z : int64 z -> Long.fromBuffer (Long.toBuffer z) = Ok z.
Proof. intros Hz. rewrite <- (app_nil_r (Long.toBuffer z)). by apply Long.long_roundtrip. Qed.

Lemma long_toBuffer_length z : length (Long.toBuffer z) = 8%nat.
Proof. rewrite Long.toBuffer_be. apply be_bytes_length. Qed.

(** ** Fixed width integers *)

Lemma encode_integer_ok `{Host} n lo hi z :
  safe_int z -> lo <= z <= hi -> encode_integer n lo hi (JNumber (num_of_Z z)) = Ok (be_bytes n z).
Proof.
  intros Hs Hz. unfold encode_integer, to_number. cbn [to_primitive is_primitive].
  rewrite !ok_bind. cbn [primitive_to_number]. rewrite ok_bind, num_of_Z_not_nan by done.
  rewrite num_bytes_of_Z by done. by apply int_bytes_ok.
Qed.

Lemma read_signed (n : Z) w z :
  0 < w -> n = Z.of_nat (Z.to_nat n) -> w = 8 * n -> - 2 ^ (w - 1) <= z < 2 ^ (w - 1) ->
  (signed w <$> read_uint n (be_bytes (Z.to_nat n) z) 0) = Ok z.
Proof.
  intros Hw Hn -> Hz. rewrite <- (app_nil_r (be_bytes _ z)), read_uint_0 by (rewrite blen_be; lia).
  cbn [fmap result_fmap]. rewrite be_val_bytes, pow256_2, <- Hn. by rewrite signed_mod.
Qed.

(** ** Timestamps *)

Definition date_in_range (ms : Z) : Prop := Z.abs ms <= 8640000000000000.

Lemma encode_timestamp `{Host, !LongLaws} e ms :
  date_in_range ms -> encodeTimestamp e (JDate (Some ms)) = Ok (Long.toBuffer ms).
Proof.
  unfold date_in_range. intros Hms. assert (Hs : safe_int ms) by (unfold safe_int; lia).
  assert (Hi : int64 ms) by (unfold int64; lia).
  unfold encodeTimestamp, encodeLong. rewrite ok_bind. destruct (useBigIntAsLong (options e)).
  - unfold to_bigint. cbn [to_primitive is_primitive]. rewrite ok_bind.
    unfold number_to_bigint. rewrite num_is_integer_of_Z, num_trunc_of_Z by done.
    rewrite ok_bind. by apply encode_bigint64.
  - cbn [encodeBigIntFromLong]. by rewrite long_fromNumber_int.
Qed.

Lemma decode_timestamp ms : date_in_range ms -> decodeTimestamp (Long.toBuffer ms) = Ok (JDate (Some ms)).
Proof.
  unfold date_in_range. intros Hms. unfold decodeTimestamp.
  rewrite decode_long64 by (unfold int64; lia). rewrite ok_bind.
  rewrite num_trunc_of_Z by (unfold safe_int; lia). unfold new_Date.
  by rewrite (proj2 (Z.leb_le _ _)).
Qed.

(** ** Values of the scalar types *)

(** [scalar o code v]: [v] is a value that a column of the type [code] holds, in the
    representation the options [o] select. *)
Inductive scalar (o : encodingOptions) : Z -> jsval -> Prop :=
| sc_ascii s : Forall (fun u => 0 <= u < 128) s -> scalar o dataTypes.ascii (JString s)
| sc_text s : wf_utf16 s = true -> scalar o dataTypes.text (JString s)
| sc_varchar s : wf_utf16 s = true -> scalar o dataTypes.varchar (JString s)
| sc_bigint code z : code = dataTypes.bigint \/ code = dataTypes.counter -> int64 z ->
    scalar o code (if useBigIntAsLong o then JBigInt z else JLong z)
| sc_boolean b : scalar o dataTypes.boolean (JBool b)
| sc_decimal d : BigDecimal.wf d -> scalar o dataTypes.decimal (JDecimal d)
| sc_double x : valid_num x = true -> scalar o dataTypes.double (JNumber x)
| sc_float x : is_single x = true -> scalar o dataTypes.float (JNumber x)
| sc_int z : int32 z -> scalar o dataTypes.int (JNumber (num_of_Z z))
| sc_smallint z : - 32768 <= z < 32768 -> scalar o dataTypes.smallint (JNumber (num_of_Z z))
| sc_tinyint z : - 128 <= z < 128 -> scalar o dataTypes.tinyint (JNumber (num_of_Z z))
| sc_timestamp ms : date_in_range ms -> scalar o dataTypes.timestamp (JDate (Some ms))
| sc_uuid u : Uuid.wf u -> scalar o dataTypes.uuid (JUuid u)
| sc_timeuuid u : Uuid.wf u -> scalar o dataTypes.timeuuid (JTimeUuid u)
| sc_inet a : InetAddress.wf a -> scalar o dataTypes.inet (JInet a)
| sc_date d : LocalDate.wf d -> scalar o dataTypes.date (JLocalDate d)
| sc_time t : LocalTime.wf t -> scalar o dataTypes.time (JLocalTime t)
| sc_duration d : Duration.wf d -> scalar o dataTypes.duration (JDuration d)
| sc_varint_Integer i : useBigIntAsVarint o = false -> Integer.wf i -> scalar o dataTypes.varint (JInteger i)
| sc_varint_BigInt z : useBigIntAsVarint o = true -> scalar o dataTypes.varint (JBigInt z).

(** [b] is what [encode] gives for [v] at a scalar code, and it decodes to [v]. *)
Definition scalar_codec `{Host} (e : encoder) (code : Z) (v : jsval) (b : bytes) : Prop :=
  (forall enc enc_key, encoders e enc enc_key code v NoInfo = Ok (EBuffer b)) /\
  (forall dec dec_class, decoders e dec dec_class code NoInfo b = Ok v) /\
  (b = [] -> zeroLengthTypesSupported code = true) /\
  (forall s, serializationSizeIfFixed (simple code) = Some s -> s = -1 \/ blen b = s).

Lemma codec_intro `{Host} e code v b (enc : result bytes) (dec : result jsval) :
  (forall f g, encoders e f g code v NoInfo = (EBuffer <$> enc)) ->
  (forall f g, decoders e f g code NoInfo b = dec) ->
  enc = Ok b -> dec = Ok v -> (b = [] -> zeroLengthTypesSupported code = true) ->
  (forall s, serializationSizeIfFixed (simple code) = Some s -> s = -1 \/ blen b = s) ->
  scalar_codec e code v b.
Proof. intros He Hd -> -> Hz Hs. split; [by intros; rewrite He|]. by split_and!. Qed.

(** Closes the two last conditions of a codec when the length of the bytes is known. *)
Ltac codec_size len :=
  match goal with
  | |- _ = [] -> _ =>
      let E := fresh in intros E; exfalso; pose proof len; rewrite E in *; simpl in *; lia
  | |- forall _, _ = Some _ -> _ =>
      let s := fresh in let E := fresh in
      intros s E; vm_compute in E; injection E as <-;
      first [left; reflexivity | right; unfold blen; pose proof len; lia]
  end.

Ltac codec b enc dec := apply (codec_intro _ _ _ b enc dec); [intros; reflexivity|intros; reflexivity|..].

Lemma integer_codec `{Host} e code z b n w :
  w = 8 * Z.of_nat n -> (0 < n <= 4)%nat -> - 2 ^ (w - 1) <= z < 2 ^ (w - 1) -> b = be_bytes n z ->
  (forall f g, encoders e f g code (JNumber (num_of_Z z)) NoInfo =
     (EBuffer <$> encode_integer n (- 2 ^ (w - 1)) (2 ^ (w - 1) - 1) (JNumber (num_of_Z z)))) ->
  (forall f g, decoders e f g code NoInfo b =
     (x ← (signed w <$> read_uint (Z.of_nat n) b 0); Ok (JNumber (num_of_Z x)))) ->
  (forall s, serializationSizeIfFixed (simple code) = Some s -> s = -1 \/ s = Z.of_nat n) ->
  scalar_codec e code (JNumber (num_of_Z z)) b.
Proof.
  intros Hw Hn Hz -> He Hd Hs.
  assert (2 ^ (w - 1) <= 2 ^ 31) by (apply Z.pow_le_mono_r; lia).
  eapply codec_intro; [exact He|exact Hd|apply encode_integer_ok; unfold safe_int; lia|..].
  - pose proof (read_signed (Z.of_nat n) w z) as R. rewrite Nat2Z.id in R. rewrite R by lia. done.
  - intros E. apply (f_equal length) in E. rewrite be_bytes_length in E. simpl in E. lia.
  - intros s E. destruct (Hs s E) as [-> | ->]; [by left|right]. apply blen_be.
Qed.

Lemma long_codec `{Host} e code z :
  code = dataTypes.bigint \/ code = dataTypes.counter -> int64 z ->
  scalar_codec e code (if useBigIntAsLong (options e) then JBigInt z else JLong z) (Long.toBuffer z).
Proof.
  intros Hc Hz. set (v := if useBigIntAsLong (options e) then _ else _).
  assert (He : encodeLong e v = Ok (Long.toBuffer z)).
  { unfold encodeLong, v. destruct (useBigIntAsLong (options e)); [by apply encode_bigint64|done]. }
  assert (Hd : decodeLong e (Long.toBuffer z) = Ok v).
  { unfold decodeLong, v. destruct (useBigIntAsLong (options e)); [by apply decode_bigint64|].
    unfold decodeCqlLongAsLong. by rewrite decode_long64. }
  destruct Hc as [-> | ->]; (codec (Long.toBuffer z) (encodeLong e v) (decodeLong e (Long.toBuffer z));
    [done|done|codec_size (long_toBuffer_length z)..]).
Qed.

Lemma text_codec `{Host} e s :
  wf_utf16 s = true ->
  scalar_codec e dataTypes.text (JString s) (utf8_encode s) /\
  scalar_codec e dataTypes.varchar (JString s) (utf8_encode s).
Proof.
  intros Hs. split; (codec (utf8_encode s) (encodeUtf8String (JString s))
    (Ok (decodeUtf8String (utf8_encode s)) : result jsval); [done| |done|]);
    try (unfold decodeUtf8String; by rewrite utf8_roundtrip);
    intros x E; vm_compute in E; injection E as <-; by left.
Qed.

Lemma varint_codec `{Host} e v :
  scalar (options e) dataTypes.varint v -> exists b, scalar_codec e dataTypes.varint v b.
Proof.
  inversion 1 as [| | | ? ? Hc | | | | | | | | | | | | | | |i Ho Hi|z Ho]; subst.
  - by destruct Hc.
  - destruct (Integer.toBuffer_twos i Hi) as (Hw & Hne & Hv & Hm).
    destruct (Integer.fromBuffer_value _ Hw) as (y & Ey & Hy & Ev).
    assert (y = i) as -> by (apply Integer.value_inj; [done|done|congruence]).
    exists (Integer.toBuffer i).
    codec (Integer.toBuffer i) (encodeVarint e (JInteger i)) (decodeVarint e (Integer.toBuffer i)).
    + unfold encodeVarint. by rewrite Ho.
    + unfold decodeVarint, decodeVarintAsInteger. by rewrite Ho, Ey.
    + done.
    + intros s E. vm_compute in E. injection E as <-. by left.
  - destruct (bytes_of_varint_spec z) as (Hne & Hw & Ht). exists (bytes_of_varint z).
    codec (bytes_of_varint z) (encodeVarint e (JBigInt z)) (decodeVarint e (bytes_of_varint z)).
    + unfold encodeVarint. by rewrite Ho.
    + unfold decodeVarint, decodeVarintAsBigInt. by rewrite Ho, varint_roundtrip.
    + done.
    + intros s E. vm_compute in E. injection E as <-. by left.
Qed.

Lemma decimal_codec `{Host} e d :
  BigDecimal.wf d -> exists b, scalar_codec e dataTypes.decimal (JDecimal d) b.
Proof.
  intros (b & Eb & Er & Hl)%BigDecimal.decimal_roundtrip. exists b.
  codec b (encodeDecimal (JDecimal d)) (decodeDecimal b); [done| |codec_size Hl..].
  unfold decodeDecimal. by rewrite Er.
Qed.

Lemma duration_codec `{Host} e d :
  Duration.wf d -> scalar_codec e dataTypes.duration (JDuration d) (Duration.duration_bytes d).
Proof.
  intros Hd. codec (Duration.duration_bytes d) (encodeDuration (JDuration d))
    (decodeDuration (Duration.duration_bytes d)).
  - cbn [encodeDuration]. destruct (Duration.duration_toBuffer d duration_scratch Hd) as [-> _]; done.
  - unfold decodeDuration. by rewrite Duration.duration_fromBuffer.
  - intros E. exfalso. revert E. unfold Duration.duration_bytes. intros [E _]%app_nil.
    destruct Hd as [Hm _]. assert (Hm' : int64 (Duration.months d)) by (unfold int32, int64 in *; lia).
    pose proof (VIntCoding.encodeZigZag64_range _ Hm') as Hz.
    pose proof (VIntCoding.vint_bytes_length _ Hz) as Hl. rewrite E in Hl.
    destruct (VIntCoding.computeUnsignedVIntSize_spec _ Hz) as [Hs _]. change (blen []) with 0 in Hl. lia.
  - intros s E. vm_compute in E. injection E as <-. by left.
Qed.

Definition is_buffer (v : jsval) : bool := match v with JBuffer _ => true | _ => false end.

(** Every scalar value encodes, and the bytes decode to it. *)
Lemma scalar_roundtrip `{Host, !LongLaws} e code v :
  scalar (options e) code v ->
  is_absent v = false /\ is_buffer v = false /\ exists b, scalar_codec e code v b.
Proof.
  intros Hv. split; [by destruct Hv as [| | |? z| | | | | | | | | | | | | | | |]; try done;
    destruct (useBigIntAsLong _)|].
  split; [by destruct Hv as [| | |? z| | | | | | | | | | | | | | | |]; try done;
    destruct (useBigIntAsLong _)|].
  destruct Hv as [s Hs|s Hs|s Hs|code z Hc Hz|b|d Hd|x Hx|x Hx|z Hz|z Hz|z Hz|ms Hms|u Hu|u Hu|a Ha|d Hd|t Ht|d Hd|i Ho Hi|z Ho].
  - exists (ascii_encode s). codec (ascii_encode s) (encodeAsciiString (JString s))
      (Ok (decodeAsciiString (ascii_encode s)) : result jsval); [done| |done|codec_size I].
    unfold decodeAsciiString. by rewrite ascii_roundtrip.
  - eexists. by apply text_codec.
  - eexists. by apply text_codec.
  - eexists. by apply long_codec.
  - exists (encodeBoolean (JBool b)). codec (encodeBoolean (JBool b))
      (Ok (encodeBoolean (JBool b)) : result bytes) (decodeBoolean (encodeBoolean (JBool b)));
      destruct b; try done;
      intros s E; vm_compute in E; injection E as <-; by right.
  - by apply decimal_codec.
  - exists (writeDoubleBE x). codec (writeDoubleBE x) (encodeDouble (JNumber x)) (decodeDouble (writeDoubleBE x));
      [done| |codec_size (writeDoubleBE_length x)..].
    unfold decodeDouble. pose proof (read_write_double x [] Hx) as R. rewrite app_nil_r in R. by rewrite R.
  - exists (writeFloatBE x). codec (writeFloatBE x) (encodeFloat (JNumber x)) (decodeFloat (writeFloatBE x));
      [done| |codec_size (writeFloatBE_length x)..].
    unfold decodeFloat. pose proof (read_write_float x [] Hx) as R. rewrite app_nil_r in R. by rewrite R.
  - eexists. apply (integer_codec e _ z _ 4 32); unfold int32 in Hz; try done; try lia.
    intros s E. vm_compute in E. injection E as <-. by right.
  - eexists. apply (integer_codec e _ z _ 2 16); try done; try lia.
    intros s E. vm_compute in E. injection E as <-. by left.
  - eexists. apply (integer_codec e _ z _ 1 8); try done; try lia.
    intros s E. vm_compute in E. injection E as <-. by left.
  - exists (Long.toBuffer ms). codec (Long.toBuffer ms) (encodeTimestamp e (JDate (Some ms)))
      (decodeTimestamp (Long.toBuffer ms)); [by apply encode_timestamp|by apply decode_timestamp|
      codec_size (long_toBuffer_length ms)..].
  - destruct Hu as [Hb Hl]. exists (Uuid.raw u). codec (Uuid.raw u) (encodeUuid (JUuid u)) (decodeUuid (Uuid.raw u));
      [done| |codec_size Hl..].
    unfold decodeUuid, Uuid.constructor, blen. rewrite Hl. by destruct u.
  - destruct Hu as [Hb Hl]. exists (Uuid.raw u).
    codec (Uuid.raw u) (encodeUuid (JTimeUuid u)) (decodeTimeUuid (Uuid.raw u)); [done| |codec_size Hl..].
    unfold decodeTimeUuid, Uuid.constructor, blen. rewrite Hl. by destruct u.
  - exists (InetAddress.buffer a). codec (InetAddress.buffer a) (encodeInet (JInet a))
      (decodeInet (InetAddress.buffer a)); [done| |codec_size (proj2 Ha)..].
    unfold decodeInet. by rewrite InetAddress.inet_constructor_ok.
  - destruct (LocalDate.localdate_encode d Hd) as (b & Eb & Hl & Er). exists b.
    codec b (encodeDate (JLocalDate d)) (decodeDate b); [done| |codec_size Hl..].
    specialize (Er []). rewrite app_nil_r in Er. unfold decodeDate. by rewrite Er.
  - exists (LocalTime.toBuffer t). codec (LocalTime.toBuffer t) (encodeTime (JLocalTime t))
      (decodeTime (LocalTime.toBuffer t)); [done| |codec_size (LocalTime.time_toBuffer_length t)..].
    pose proof (LocalTime.time_fromBuffer_toBuffer t [] Ht) as R. rewrite app_nil_r in R.
    unfold decodeTime. by rewrite R.
  - eexists. by apply duration_codec.
  - apply varint_codec. by constructor.
  - apply varint_codec. by constructor.
Qed.
