(* ===== verification/EncoderProofs.v ===== *)
(** * Round trip of the encoder

    [typed o t v]: the value [v] is of the type [t], in the form in which decoding returns it,
    and has no empty list or set in it.  [gives o t v w]: the value [v] is of the type [t] and
    comes back as [w].  The two differ for empty lists and sets, which the encoder turns into
    null: a value [v] that has some as components of tuples, fields of user types or values
    of maps comes back with nulls in their place.  Encoding such a value either gives bytes
    that decode to what it gives, or is refused because a length does not fit its field.
    An empty list or set as an element of a list, a set or a vector, or as the key of a map,
    is refused with a TypeError ([nested_empty_refused]). *)

From Stdlib Require Import SpecFloat.
From S2P Require Import Prelude JsNumber Buffer JsString Float NumText Utf8 VInt.
From S2P Require Import Integer LocalDate LocalTime Duration ValueTypes ProtocolVersion.
From S2P Require Import CqlTypes TypeNames Frame JsValue Encoder EncoderScalars.

(** ** Results that are right or refused for a length *)

(** A length does not fit the field it is written to. *)
Definition too_long (x : error) : Prop :=
  x = RangeError "ERR_OUT_OF_RANGE" \/
  x = PlainError "Value is too big and cannot be encoded as vint".

Definition ensures {A} (r : result A) (P : A -> Prop) : Prop :=
  match r with Ok a => P a | Err x => too_long x end.

Lemma ensures_ok {A} (a : A) (P : A -> Prop) : P a -> ensures (Ok a) P.
Proof. done. Qed.

Lemma ensures_mono {A} (r : result A) (P Q : A -> Prop) :
  (forall a, P a -> Q a) -> ensures r P -> ensures r Q.
Proof. intros HPQ. destruct r; simpl; auto. Qed.

Lemma ensures_bind {A B} (m : result A) (k : A -> result B) P Q :
  ensures m P -> (forall a, P a -> ensures (k a) Q) -> ensures (m ≫= k) Q.
Proof. destruct m; simpl; auto. Qed.

Lemma ensures_traverse {A B} (f : A -> result B) (P : A -> B -> Prop) l :
  Forall (fun x => ensures (f x) (P x)) l -> ensures (traverse f l) (Forall2 P l).
Proof.
  induction 1 as [|x l Hx Hl IH]; [constructor|]. cbn [traverse].
  eapply ensures_bind; [exact Hx|]. intros y Hy.
  eapply ensures_bind; [exact IH|]. intros ys Hys. by constructor.
Qed.

Lemma traverse_fmap {A B C} (f : B -> result C) (g : A -> B) l :
  traverse f (g <$> l) = traverse (fun x => f (g x)) l.
Proof. induction l as [|x l IH]; [done|]. cbn [fmap list_fmap traverse] in *. by rewrite IH. Qed.

(** A relation through a function of a hidden argument. *)
Lemma Forall2_image {A B C} (f : C -> B) (Q : A -> C -> Prop) l ys :
  Forall2 (fun x y => exists c, y = f c /\ Q x c) l ys -> exists cs, ys = f <$> cs /\ Forall2 Q l cs.
Proof.
  induction 1 as [|x y l ys (c & -> & Hc) Hl (cs & -> & Hcs)]; [by exists []|].
  exists (c :: cs). by repeat constructor.
Qed.

Lemma int_bytes_ensures n lo hi v P : (lo <= v <= hi -> P (be_bytes n v)) -> ensures (int_bytes n lo hi v) P.
Proof.
  intros HP. unfold int_bytes. destruct (Z.ltb_spec hi v), (Z.ltb_spec v lo); try (by left).
  apply HP. lia.
Qed.

(** ** Typed values *)

Fixpoint all2 {A B} (P : A -> B -> Prop) (l : list A) (k : list B) : Prop :=
  match l, k with
  | [], [] => True
  | x :: l, y :: k => P x y /\ all2 P l k
  | _, _ => False
  end.

Lemma all2_Forall2 {A B} (P : A -> B -> Prop) l k : all2 P l k <-> Forall2 P l k.
Proof.
  revert k. induction l as [|x l IH]; intros [|y k]; cbn [all2]; split; try done; try (inversion 1; fail).
  - intros [? ?%IH]. by constructor.
  - inversion 1; subst. split; [done|]. by apply IH.
Qed.

(** Storing the entries in order gives them back: the keys differ and, in a plain
    object, are in property order. *)
Definition obj_canonical (l : list (jsstr * jsval)) : Prop :=
  fold_left (fun m kv => set_prop (fst kv) (snd kv) m) l [] = l.

Definition map_canonical (l : list (jsval * jsval)) : Prop :=
  fold_left (fun m kv => map_set (fst kv) (snd kv) m) l [] = l.

Section typed.
Variable o : encodingOptions.

(** The values of a type, in the form in which they are decoded, without empty lists and sets
    in them: these are encoded as null. *)
Fixpoint typed (t : columnInfo) (v : jsval) : Prop :=
  match t with
  | CI code info _ =>
      match info with
      | NoInfo =>
          scalar o code v \/
          ((code = dataTypes.blob \/ code = dataTypes.custom) /\ exists b, v = JBuffer b)
      | StrInfo s =>
          code = dataTypes.custom /\ starts_vector s = false /\
          if bool_decide (s = names.duration) then exists d, Duration.wf d /\ v = JDuration d
          else exists b, v = JBuffer b
      | TypeInfo t =>
          exists l, l <> [] /\ Forall (typed t) l /\
            ((code = dataTypes.list /\ v = JArray l) \/
             (code = dataTypes.set /\ v = (if opt_set o then JSet l else JArray l) /\
              (opt_set o = true -> set_of l = l)))
      | TypesInfo ts =>
          (code = dataTypes.tuple /\ ts <> [] /\
           exists l, v = JTuple l /\ all2 (fun t x => x = JNull \/ typed t x) ts l) \/
          (code = dataTypes.map /\
           match ts with
           | [tk; tv] =>
               if opt_map o then
                 exists l, v = JMap l /\ map_canonical l /\
                           Forall (fun kv => typed tk (fst kv) /\ typed tv (snd kv)) l
               else
                 exists l, v = JObject l /\ obj_canonical l /\
                           Forall (fun kv => typed tk (JString (fst kv)) /\ typed tv (snd kv)) l
           | _ => False
           end)
      | UdtInfo _ _ fields =>
          code = dataTypes.udt /\ fields <> [] /\
          exists l, v = JObject l /\ (fst <$> l) = (fst <$> fields) /\ NoDup (fst <$> fields) /\
                    obj_canonical l /\
                    all2 (fun f x => snd x = JNull \/ typed (snd f) (snd x)) fields l
      | VectorInfo t dim =>
          code = dataTypes.custom /\
          exists l name, v = JVector l name /\ l <> [] /\ dim_value dim = Some (Z.of_nat (length l)) /\
                         Forall (typed t) l /\ getDataTypeNameByCode t = Ok name
      end
  end.

(** An empty list or set. *)
Definition empty_collection (t : columnInfo) (v : jsval) : Prop :=
  match t with
  | CI code (TypeInfo _) _ =>
      (code = dataTypes.list /\ v = JArray []) \/ (code = dataTypes.set /\ v = if opt_set o then JSet [] else JArray [])
  | _ => False
  end.

Fixpoint all3 {A B C} (P : A -> B -> C -> Prop) (l : list A) (k : list B) (m : list C) : Prop :=
  match l, k, m with
  | [], [], [] => True
  | x :: l, y :: k, z :: m => P x y z /\ all3 P l k m
  | _, _, _ => False
  end.

(** What an optional component gives: null for null and for an empty collection. *)
Definition component (P : columnInfo -> jsval -> jsval -> Prop) (t : columnInfo) (v w : jsval) : Prop :=
  (v = JNull /\ w = JNull) \/ (empty_collection t v /\ w = JNull) \/ P t v w.

(** The same without null, which a map refuses. *)
Definition map_value (P : columnInfo -> jsval -> jsval -> Prop) (t : columnInfo) (v w : jsval) : Prop :=
  (empty_collection t v /\ w = JNull) \/ P t v w.

Fixpoint gives (t : columnInfo) (v w : jsval) : Prop :=
  match t with
  | CI code info _ =>
      match info with
      | NoInfo | StrInfo _ => typed t v /\ w = v
      | TypeInfo t =>
          exists l l', l <> [] /\ all2 (gives t) l l' /\
            ((code = dataTypes.list /\ v = JArray l /\ w = JArray l') \/
             (code = dataTypes.set /\ v = (if opt_set o then JSet l else JArray l) /\
              w = (if opt_set o then JSet l' else JArray l') /\ (opt_set o = true -> set_of l' = l')))
      | TypesInfo ts =>
          (code = dataTypes.tuple /\ ts <> [] /\
           exists l l', v = JTuple l /\ w = JTuple l' /\ all3 (fun t x y => component gives t x y) ts l l') \/
          (code = dataTypes.map /\
           match ts with
           | [tk; tv] =>
               if opt_map o then
                 exists l l', v = JMap l /\ w = JMap l' /\ map_canonical l' /\
                   all2 (fun kv kv' => gives tk (fst kv) (fst kv') /\ map_value gives tv (snd kv) (snd kv')) l l'
               else
                 exists l l', v = JObject l /\ w = JObject l' /\ obj_canonical l' /\
                   all2 (fun kv kv' => gives tk (JString (fst kv)) (JString (fst kv')) /\ map_value gives tv (snd kv) (snd kv')) l l'
           | _ => False
           end)
      | UdtInfo _ _ fields =>
          code = dataTypes.udt /\ fields <> [] /\
          exists l l', v = JObject l /\ w = JObject l' /\ (fst <$> l) = (fst <$> fields) /\ (fst <$> l') = (fst <$> fields) /\
            NoDup (fst <$> fields) /\ obj_canonical l' /\
            all3 (fun f x y => component gives (snd f) (snd x) (snd y)) fields l l'
      | VectorInfo t dim =>
          code = dataTypes.custom /\
          exists l l' name, v = JVector l name /\ w = JVector l' name /\ l <> [] /\ dim_value dim = Some (Z.of_nat (length l)) /\
                         all2 (gives t) l l' /\ getDataTypeNameByCode t = Ok name
      end
  end.

End typed.

Section roundtrip.
Context `{Host, !LongLaws}.
Variable e : encoder.

(** [b] are the bytes of [v] at [t]. *)
Definition codec_of (t : columnInfo) (v : jsval) (b : bytes) : Prop :=
  (b = [] -> zeroLengthTypesSupported (ci_code t) = true) /\
  (exists s, serializationSizeIfFixed t = Some s /\ (s = -1 \/ blen b = s)) /\
  (blen b < 2 ^ 31 -> forall dec_class, decode_with e dec_class t b = Ok v).

(** [v] is encoded at [t] to the bytes of [w]. *)
Definition encodes (t : columnInfo) (v w : jsval) : Prop :=
  is_absent v = false /\
  ensures (encode e v (HType t)) (fun r => exists b, r = EBuffer b /\ codec_of t w b).

Lemma encode_unfold v t :
  is_absent v = false -> is_buffer v = false ->
  encode e v (HType t) = encoders e (encode e) (encode_string e) (ci_code t) v (ci_info t).
Proof. by destruct v. Qed.

Lemma encode_string_eq s h : encode e (JString s) h = encode_string e s h.
Proof.
  unfold encode_string. cbn [encode undefined_as].
  destruct (resolve_type (JString s) h) as [t|]; [|done]. rewrite !ok_bind. unfold encoders.
  repeat match goal with |- (if ?c then _ else _) = _ => destruct c; [reflexivity|] end. done.
Qed.

Lemma decode_unfold dc code info op b :
  (b = [] -> zeroLengthTypesSupported code = true) ->
  decode_with e dc (CI code info op) b = decoders e (decode_with e dc) dc code info b.
Proof.
  intros Hb. cbn [decode_with]. case_bool_decide as E; [|done]. by rewrite Hb.
Qed.

(** ** Lengths *)

Definition lenb (n : Z) : bytes := be_bytes (if uses4 e then 4 else 2) n.

Definition readable (n : Z) : Prop :=
  forall a c, decodeCollectionLength e (a ++ lenb n ++ c) (blen a) = Ok n.

Lemma lenb_length n : blen (lenb n) = collectionLengthSize e.
Proof. unfold lenb, collectionLengthSize. rewrite blen_be. by destruct (uses4 e). Qed.

Lemma getLengthBuffer_ensures n :
  0 <= n -> ensures (getLengthBuffer e n) (fun b => b = lenb n /\ readable n).
Proof.
  intros Hn. unfold getLengthBuffer, lenb, readable, decodeCollectionLength, lenb.
  destruct (uses4 e); apply int_bytes_ensures; intros Hr; (split; [done|]); intros a c.
  - apply readInt32BE_app; [done|unfold int32; lia].
  - apply readUInt16BE_app; [done|lia].
Qed.

Lemma concat_buffers bs : concat_parts (EBuffer <$> bs) = Ok (mjoin bs).
Proof.
  unfold concat_parts. enough (E : forall l, traverse (fun p => match p with EBuffer b => Ok b
    | _ => invalid "ERR_INVALID_ARG_TYPE" end) (EBuffer <$> l) = Ok l) by (by rewrite E).
  induction l as [|b l IH]; [done|]. cbn [fmap list_fmap traverse] in *. by rewrite IH.
Qed.

(** ** Lists and sets *)

(** The items, each after its length. *)
Definition items (bs : list bytes) : bytes := mjoin ((fun b => lenb (blen b) ++ b) <$> bs).

Lemma items_cons b bs : items (b :: bs) = lenb (blen b) ++ b ++ items bs.
Proof. unfold items. cbn [fmap list_fmap mjoin list_join]. by rewrite <- app_assoc. Qed.

Lemma items_small bs n : blen (items bs) < n -> Forall (fun b => blen b < n) bs.
Proof.
  induction bs as [|b bs IH]; intros Hn; [constructor|]. rewrite items_cons, !blen_app in Hn.
  pose proof (blen_nonneg (lenb (blen b))). pose proof (blen_nonneg b). pose proof (blen_nonneg (items bs)).
  constructor; [lia|]. apply IH. lia.
Qed.

Lemma concat_items l0 bs :
  concat_parts (EBuffer l0 :: mjoin ((fun b => [EBuffer (lenb (blen b)); EBuffer b]) <$> bs)) = Ok (l0 ++ items bs).
Proof.
  replace (EBuffer l0 :: mjoin ((fun b => [EBuffer (lenb (blen b)); EBuffer b]) <$> bs))
    with (EBuffer <$> (l0 :: mjoin ((fun b => [lenb (blen b); b]) <$> bs))).
  - rewrite concat_buffers. cbn [mjoin list_join]. do 2 f_equal.
    induction bs as [|b bs IH]; [done|]. rewrite items_cons, <- IH. done.
  - cbn [fmap list_fmap]. f_equal. induction bs as [|b bs IH]; [done|].
    change (mjoin (?f <$> b :: bs)) with (f b ++ mjoin (f <$> bs)). rewrite fmap_app, IH. done.
Qed.

(** An item and what the loop needs to read it. *)
Definition item_codec (t : columnInfo) (v : jsval) (b : bytes) : Prop :=
  (blen b < 2 ^ 31 -> forall dec_class, decode_with e dec_class t b = Ok v) /\ readable (blen b).

Lemma codec_item t v b : codec_of t v b -> readable (blen b) -> item_codec t v b.
Proof. intros (_ & _ & Hd) Hr. by split. Qed.

Lemma list_item_ensures t v w :
  encodes t v w ->
  ensures (encodeList_item e (encode e) (HType t) v)
    (fun r => exists b, r = [EBuffer (lenb (blen b)); EBuffer b] /\ item_codec t w b).
Proof.
  intros [Ha Hv]. unfold encodeList_item. rewrite Ha.
  eapply ensures_bind; [exact Hv|]. intros r (b & -> & Hb). cbn [encoded_length].
  eapply ensures_bind; [apply getLengthBuffer_ensures, blen_nonneg|]. intros l [-> Hr].
  exists b. split; [done|]. by apply codec_item.
Qed.

(** The values and what they give, as one list of pairs. *)
Lemma list_items_ensures t (zs : list (jsval * jsval)) :
  Forall (fun z => encodes t (fst z) (snd z)) zs ->
  ensures (traverse (fun v => encodeList_item e (encode e) (HType t) v) (fst <$> zs))
    (fun parts => exists bs, parts = ((fun b => [EBuffer (lenb (blen b)); EBuffer b]) <$> bs) /\
                             Forall2 (item_codec t) (snd <$> zs) bs).
Proof.
  intros Hl. rewrite traverse_fmap. eapply (ensures_mono _ (fun parts => exists bs,
    parts = ((fun b => [EBuffer (lenb (blen b)); EBuffer b]) <$> bs) /\ Forall2 (fun z => item_codec t (snd z)) zs bs)).
  { intros parts (bs & -> & Hbs). exists bs. split; [done|]. by apply Forall2_fmap_l. }
  eapply ensures_mono; [intros parts; apply Forall2_image|].
  apply ensures_traverse. eapply Forall_impl; [|exact Hl]. intros z. apply list_item_ensures.
Qed.

Lemma decodeList_items t dc l bs pre rest :
  Forall2 (item_codec t) l bs -> Forall (fun b => blen b < 2 ^ 31) bs ->
  decodeList_loop e (length l) (decode_with e dc t) (pre ++ items bs ++ rest) (blen pre) = Ok l.
Proof.
  intros Hl. revert pre. induction Hl as [|v b l bs [Hd Hr] Hl IH]; intros pre Hs; [done|].
  apply Forall_cons_1 in Hs as [Hb Hs]. cbn [length decodeList_loop].
  rewrite items_cons, <- !app_assoc, Hr, ok_bind, <- (lenb_length (blen b)).
  rewrite (app_assoc pre), (slice_app (pre ++ lenb (blen b)) b) by (rewrite ?blen_app; lia).
  rewrite Hd, ok_bind by done. specialize (IH ((pre ++ lenb (blen b)) ++ b) Hs).
  rewrite !blen_app, <- !app_assoc in IH. rewrite <- app_assoc, IH. done.
Qed.

(** What both lists and sets encode to, and what [decodeList] makes of it. *)
Lemma list_array_ensures t (zs : list (jsval * jsval)) :
  zs <> [] -> Forall (fun z => encodes t (fst z) (snd z)) zs ->
  ensures (encodeList_array e (encode e) (fst <$> zs) (TypeInfo t))
    (fun r => exists b, r = EBuffer b /\ b <> [] /\
       (blen b < 2 ^ 31 -> forall dc, decodeList e (decode_with e dc) b (TypeInfo t) = Ok (snd <$> zs))).
Proof.
  intros Hne Hl. destruct zs as [|x zs']; [done|]. set (zs := x :: zs') in *. unfold encodeList_array.
  change (match fst <$> zs with [] => _ | _ => ?k end) with k. set (l := snd <$> zs).
  assert (El : Z.of_nat (length (fst <$> zs)) = Z.of_nat (length l)) by (unfold l; by rewrite !length_fmap). rewrite El.
  eapply ensures_bind; [apply getLengthBuffer_ensures; lia|]. intros lb [-> Hlen].
  eapply ensures_bind; [by apply list_items_ensures|]. intros parts (bs & -> & Hbs).
  rewrite concat_items, ok_bind. eexists. split; [done|]. split.
  - intros E. apply (f_equal blen) in E. rewrite blen_app, lenb_length in E.
    pose proof (blen_nonneg (items bs)). unfold collectionLengthSize in E. change (blen []) with 0 in E.
    destruct (uses4 e); lia.
  - intros Hsmall dc. unfold decodeList.
    pose proof (Hlen [] (items bs)) as E0. cbn [app] in E0. change (blen []) with 0 in E0.
    rewrite E0, ok_bind, (proj2 (Z.ltb_ge _ _)), Nat2Z.id by lia.
    rewrite <- (lenb_length (Z.of_nat (length l))), <- (app_nil_r (items bs)).
    apply decodeList_items; [done|]. apply items_small. rewrite blen_app in Hsmall.
    pose proof (blen_nonneg (lenb (Z.of_nat (length l)))). lia.
Qed.

(** ** Maps *)

Definition pair_bytes (p : bytes * bytes) : bytes :=
  lenb (blen (fst p)) ++ fst p ++ lenb (blen (snd p)) ++ snd p.

Definition pairs (ps : list (bytes * bytes)) : bytes := mjoin (pair_bytes <$> ps).

Lemma pairs_cons p ps :
  pairs (p :: ps) = lenb (blen (fst p)) ++ fst p ++ lenb (blen (snd p)) ++ snd p ++ pairs ps.
Proof. unfold pairs. cbn [fmap list_fmap mjoin list_join]. unfold pair_bytes. by rewrite <- !app_assoc. Qed.

Lemma join_join {A} (qs : list (list (list A))) : mjoin (mjoin qs) = mjoin (mjoin <$> qs).
Proof.
  induction qs as [|q qs IH]; [done|]. transitivity (mjoin (q ++ mjoin qs)); [done|]. rewrite join_app, IH. done.
Qed.

(** What was pushed for an entry: the last part is missing when the value is null. *)
Lemma concat_pairs l0 (qs : list (list bytes)) ps :
  (mjoin <$> qs) = (pair_bytes <$> ps) ->
  concat_parts (EBuffer l0 :: mjoin ((fun q => EBuffer <$> q) <$> qs)) = Ok (l0 ++ pairs ps).
Proof.
  intros Hq. replace (EBuffer l0 :: mjoin ((fun q => EBuffer <$> q) <$> qs)) with (EBuffer <$> (l0 :: mjoin qs)).
  - rewrite concat_buffers. cbn [mjoin list_join]. do 2 f_equal. unfold pairs. rewrite <- Hq. apply join_join.
  - cbn [fmap list_fmap]. f_equal. clear. induction qs as [|q qs IH]; [done|].
    change (mjoin (q :: qs)) with (q ++ mjoin qs). rewrite fmap_app, IH. done.
Qed.

Definition pair_codec (tk tv : columnInfo) (kv : jsval * jsval) (p : bytes * bytes) : Prop :=
  item_codec tk (fst kv) (fst p) /\ item_codec tv (snd kv) (snd p).

(** A value of a map: what it is encoded to, or null with nothing. *)
Definition encodes_value (t : columnInfo) (v w : jsval) : Prop :=
  encodes t v w \/
  (is_absent v = false /\ encode e v (HType t) = Ok ENull /\ forall dec_class, decode_with e dec_class t [] = Ok w).

(** An entry was written: the parts pushed and the bytes of the key and the value. *)
Definition entry_written (tk tv : columnInfo) (kv : jsval * jsval) (r : list encoded) : Prop :=
  exists c, r = (EBuffer <$> fst c) /\ mjoin (fst c) = pair_bytes (snd c) /\ pair_codec tk tv kv (snd c).

Lemma addItem_ensures tk tv k v w (encode_key : hint -> result encoded) :
  ensures (encode_key (HType tk)) (fun r => exists b, r = EBuffer b /\ codec_of tk k b) ->
  encodes_value tv v w ->
  ensures (addItem e (encode e) encode_key (HType tk) (HType tv) v) (entry_written tk tv (k, w)).
Proof.
  intros Hk Hv. unfold addItem. assert (Ha : is_absent v = false) by (destruct Hv as [[? _]|(? & _)]; done). rewrite Ha.
  eapply ensures_bind; [exact Hk|]. intros r (kb & -> & Hkb). cbn [encoded_length].
  eapply ensures_bind; [apply getLengthBuffer_ensures, blen_nonneg|]. intros kl [-> Hkr].
  destruct Hv as [[_ Hv]|(_ & Hv & Hd)].
  - eapply ensures_bind; [exact Hv|]. intros r (vb & -> & Hvb). cbn [encoded_length].
    eapply ensures_bind; [apply getLengthBuffer_ensures, blen_nonneg|]. intros vl [-> Hvr].
    exists ([lenb (blen kb); kb; lenb (blen vb); vb], (kb, vb)). split; [done|].
    split; [unfold pair_bytes; cbn [fst snd mjoin list_join]; by rewrite app_nil_r|].
    split; by apply codec_item.
  - rewrite Hv, ok_bind. cbn [encoded_length].
    eapply ensures_bind; [apply (getLengthBuffer_ensures 0); lia|]. intros vl [-> Hvr].
    exists ([lenb (blen kb); kb; lenb 0], (kb, [])). split; [done|]. split; [done|].
    split; [by apply codec_item|]. split; [by intros _|]. exact Hvr.
Qed.

Lemma pairs_small ps n :
  blen (pairs ps) < n -> Forall (fun p => blen (fst p) < n /\ blen (snd p) < n) ps.
Proof.
  induction ps as [|p ps IH]; intros Hn; [constructor|]. rewrite pairs_cons, !blen_app in Hn.
  pose proof (blen_nonneg (lenb (blen (fst p)))). pose proof (blen_nonneg (lenb (blen (snd p)))).
  pose proof (blen_nonneg (fst p)). pose proof (blen_nonneg (snd p)). pose proof (blen_nonneg (pairs ps)).
  constructor; [lia|]. apply IH. lia.
Qed.

(** The loop stores the entries in order. *)
Lemma readValues_pairs {A} tk tv dc (callback : jsval -> jsval -> A -> result A)
    (put : jsval * jsval -> A -> A) l ps pre rest acc :
  Forall2 (pair_codec tk tv) l ps -> Forall (fun p => blen (fst p) < 2 ^ 31 /\ blen (snd p) < 2 ^ 31) ps ->
  Forall (fun kv => forall acc, callback (fst kv) (snd kv) acc = Ok (put kv acc)) l ->
  readValues e (length l) (decode_with e dc tk) (decode_with e dc tv) callback
    (pre ++ pairs ps ++ rest) (blen pre) acc = Ok (fold_left (fun acc kv => put kv acc) l acc).
Proof.
  intros Hl. revert pre acc.
  induction Hl as [|kv p l ps [[Hdk Hrk] [Hdv Hrv]] Hl IH]; intros pre acc Hs Hc; [done|].
  apply Forall_cons_1 in Hs as [[Hk Hv] Hs]. apply Forall_cons_1 in Hc as [Hc1 Hc].
  cbn [length readValues fold_left]. rewrite pairs_cons, <- !app_assoc, Hrk, ok_bind.
  rewrite <- (lenb_length (blen (fst p))).
  set (lk := lenb (blen (fst p))) in *. set (lv := lenb (blen (snd p))) in *.
  rewrite (app_assoc pre lk), (slice_app (pre ++ lk) (fst p)) by (rewrite ?blen_app; lia).
  rewrite Hdk, ok_bind by done. rewrite (app_assoc (pre ++ lk)).
  assert (El : blen lv = blen lk) by (unfold lv, lk; by rewrite !lenb_length).
  replace (blen pre + blen lk + blen (fst p)) with (blen ((pre ++ lk) ++ fst p)) by (rewrite !blen_app; lia).
  rewrite Hrv, ok_bind. rewrite (proj2 (Z.ltb_ge _ 0)) by apply blen_nonneg.
  rewrite (app_assoc (_ ++ fst p)), (slice_app (((pre ++ lk) ++ fst p) ++ lv) (snd p))
    by (rewrite ?blen_app; lia).
  rewrite Hdv, ok_bind, Hc1, ok_bind by done.
  specialize (IH ((((pre ++ lk) ++ fst p) ++ lv) ++ snd p) (put kv acc) Hs Hc).
  rewrite <- IH. f_equal; [by rewrite <- !app_assoc|rewrite !blen_app; lia].
Qed.

(** The number of entries in front, as [encodeMap] finishes. *)
Lemma map_finish_ensures tk tv l parts :
  Forall2 (entry_written tk tv) l parts ->
  ensures (n ← getLengthBuffer e (Z.of_nat (length parts));
           b ← concat_parts (EBuffer n :: mjoin parts); Ok (EBuffer b))
    (fun r => exists b, r = EBuffer b /\ b <> [] /\
       (blen b < 2 ^ 31 -> decodeCollectionLength e b 0 = Ok (Z.of_nat (length l)) /\
        forall A dc (callback : jsval -> jsval -> A -> result A) put acc,
          Forall (fun kv => forall acc, callback (fst kv) (snd kv) acc = Ok (put kv acc)) l ->
          readValues e (length l) (decode_with e dc tk) (decode_with e dc tv) callback b
            (collectionLengthSize e) acc = Ok (fold_left (fun acc kv => put kv acc) l acc))).
Proof.
  intros Hw. pose proof (Forall2_length Hw) as Hlen. rewrite <- Hlen.
  assert (Hc : exists qs ps, parts = ((fun q => EBuffer <$> q) <$> qs) /\ (mjoin <$> qs) = (pair_bytes <$> ps) /\ Forall2 (pair_codec tk tv) l ps).
  { clear -Hw. induction Hw as [|kv r l parts ([q p] & -> & Hq & Hp) _ (qs & ps & -> & Hqs & Hps)]; [by exists [], []|].
    exists (q :: qs), (p :: ps). split; [done|]. split; [by rewrite !fmap_cons, Hqs; cbn in Hq; rewrite Hq|by constructor]. }
  clear Hw. destruct Hc as (qs & ps & -> & Hqs & Hl).
  eapply ensures_bind; [apply getLengthBuffer_ensures; lia|]. intros lb [-> Hr].
  rewrite (concat_pairs _ qs ps Hqs), ok_bind. eexists. split; [done|]. split.
  - intros E. apply (f_equal blen) in E. rewrite blen_app, lenb_length in E.
    pose proof (blen_nonneg (pairs ps)). unfold collectionLengthSize in E. change (blen []) with 0 in E.
    destruct (uses4 e); lia.
  - intros Hsmall. rewrite blen_app in Hsmall.
    pose proof (blen_nonneg (lenb (Z.of_nat (length l)))). split; [apply (Hr [])|].
    intros A dc callback put acc Hcb. rewrite <- (lenb_length (Z.of_nat (length l))), <- (app_nil_r (pairs ps)).
    apply readValues_pairs; [done| |done]. apply pairs_small. lia.
Qed.

Lemma map_entries_ensures tk tv (zs : list ((jsval * jsval) * (jsval * jsval))) :
  Forall (fun z => encodes tk (fst (fst z)) (fst (snd z)) /\ encodes_value tv (snd (fst z)) (snd (snd z))) zs ->
  ensures (traverse (fun kv => encodeMap_entry e (encode e) (HType tk) (HType tv) kv) (fst <$> zs))
    (Forall2 (entry_written tk tv) (snd <$> zs)).
Proof.
  intros Hl. rewrite traverse_fmap. eapply (ensures_mono _ (Forall2 (fun z => entry_written tk tv (snd z)) zs)).
  { intros parts Hps. by apply Forall2_fmap_l. }
  apply ensures_traverse. eapply Forall_impl; [|exact Hl]. intros [kv [k w]] [[Ha Hk] Hv]. cbn [fst snd] in *.
  unfold encodeMap_entry. rewrite Ha. by apply addItem_ensures.
Qed.

Lemma object_props_ensures tk tv (zs : list ((jsstr * jsval) * (jsstr * jsval))) :
  Forall (fun z => encodes tk (JString (fst (fst z))) (JString (fst (snd z))) /\ encodes_value tv (snd (fst z)) (snd (snd z))) zs ->
  ensures (traverse (fun kv => encodeMap_prop e (encode e) (encode_string e) (HType tk) (HType tv) kv) (fst <$> zs))
    (Forall2 (entry_written tk tv) ((fun kv => (JString (fst kv), snd kv)) <$> (snd <$> zs))).
Proof.
  intros Hl. rewrite traverse_fmap. eapply (ensures_mono _ (Forall2 (fun z => entry_written tk tv (JString (fst (snd z)), snd (snd z))) zs)).
  { intros parts Hps. by apply Forall2_fmap_l, Forall2_fmap_l. }
  apply ensures_traverse. eapply Forall_impl; [|exact Hl]. intros [kv [k w]] [[_ Hk] Hv]. cbn [fst snd] in *.
  unfold encodeMap_prop. rewrite encode_string_eq in Hk. by apply addItem_ensures.
Qed.

(** ** Tuples and user types *)

Definition comp (c : option bytes) : bytes :=
  match c with Some b => be_bytes 4 (blen b) ++ b | None => [255; 255; 255; 255] end.

(** A component: null, or bytes whose length fits 31 bits. *)
Definition comp_codec (t : columnInfo) (v : jsval) (c : option bytes) : Prop :=
  match c with
  | Some b => blen b < 2 ^ 31 /\ codec_of t v b
  | None => v = JNull
  end.

(** A component is encoded to bytes, or to null. *)
Definition encodes_component (t : columnInfo) (v w : jsval) : Prop :=
  (encode e v (HType t) = Ok ENull /\ w = JNull) \/ encodes t v w.

Lemma component_ensures t v w :
  encodes_component t v w ->
  ensures (item ← encode e v (HType t); component_bytes item)
    (fun r => exists c, r = comp c /\ comp_codec t w c).
Proof.
  intros [[Hv ->] | [_ Hv]]; [rewrite Hv; by exists None|].
  eapply ensures_bind; [exact Hv|]. intros r (b & -> & Hb). cbn [component_bytes].
  eapply (ensures_bind _ _ (fun l => blen b < 2 ^ 31 /\ l = be_bytes 4 (blen b)));
    [apply int_bytes_ensures; intros Hr; split; [lia|done]|].
  intros l [Hr ->]. exists (Some b). split; [done|]. split; [lia|done].
Qed.

Lemma comp_length c : 4 <= blen (comp c).
Proof. destruct c; cbn [comp]; [rewrite blen_app, blen_be; unfold blen; lia|done]. Qed.

(** Reading a component at its position. *)
Lemma read_component c pre rest :
  (forall b, c = Some b -> blen b < 2 ^ 31) ->
  (blen pre <? blen (pre ++ comp c ++ rest)) = true /\
  readInt32BE (pre ++ comp c ++ rest) (blen pre) = Ok (match c with Some b => blen b | None => -1 end) /\
  forall b, c = Some b -> slice (pre ++ comp c ++ rest) (blen pre + 4) (blen pre + 4 + blen b) = b.
Proof.
  intros Hc. pose proof (comp_length c). pose proof (blen_nonneg rest). split.
  { apply Z.ltb_lt. rewrite !blen_app. lia. }
  destruct c as [b|]; cbn [comp].
  - rewrite <- !app_assoc. split.
    + apply readInt32BE_app; [done|]. specialize (Hc b eq_refl). unfold int32, blen in *. lia.
    + intros b' [= <-]. rewrite app_assoc. apply slice_app; rewrite blen_app, blen_be; lia.
  - split; [|done]. change [255; 255; 255; 255] with (be_bytes 4 (-1)).
    apply readInt32BE_app; [done|]. unfold int32. lia.
Qed.

Definition comps (cs : list (option bytes)) : bytes := mjoin (comp <$> cs).

Lemma comps_cons c cs : comps (c :: cs) = comp c ++ comps cs.
Proof. done. Qed.

Lemma decodeTuple_comps dc (zs : list (columnInfo * jsval)) cs pre :
  Forall2 (fun z => comp_codec (fst z) (snd z)) zs cs ->
  decodeTuple_loop ((fun t => decode_with e dc t) <$> (fst <$> zs)) (pre ++ comps cs) (blen pre)
  = Ok (snd <$> zs).
Proof.
  intros Hz. revert pre. induction Hz as [|[t v] c zs cs Hc Hz IH]; intros pre; [done|].
  cbn [fmap list_fmap fst snd decodeTuple_loop] in *. rewrite comps_cons.
  destruct (read_component c pre (comps cs)) as (-> & Hr & Hsl).
  { intros b ->. by destruct Hc. }
  rewrite Hr, ok_bind. specialize (IH (pre ++ comp c)). rewrite <- app_assoc in IH.
  destruct c as [b|]; cbn [comp_codec] in Hc.
  - destruct Hc as [Hb (_ & _ & Hd)]. rewrite (proj2 (Z.ltb_ge _ 0)) by apply blen_nonneg.
    rewrite (Hsl b eq_refl), Hd, ok_bind by done.
    replace (blen pre + 4 + blen b) with (blen (pre ++ comp (Some b)))
      by (cbn [comp]; rewrite !blen_app, blen_be; lia).
    rewrite IH. done.
  - subst v. cbn [Z.ltb Z.compare]. replace (blen pre + 4) with (blen (pre ++ comp None)) by (by rewrite blen_app).
    rewrite IH. done.
Qed.

Lemma decodeUdt_comps dc (zs : list ((jsstr * columnInfo) * (jsstr * jsval))) cs pre acc :
  Forall2 (fun z => comp_codec (snd (fst z)) (snd (snd z))) zs cs ->
  Forall (fun z => fst (fst z) = fst (snd z)) zs ->
  decodeUdt_loop ((fun f => (fst f, decode_with e dc (snd f))) <$> (fst <$> zs)) (pre ++ comps cs) (blen pre) acc
  = Ok (fold_left (fun m kv => set_prop (fst kv) (snd kv) m) (snd <$> zs) acc).
Proof.
  intros Hz. revert pre acc. induction Hz as [|[[n t] [n' v]] c zs cs Hc Hz IH]; intros pre acc Hn; [done|].
  apply Forall_cons_1 in Hn as [Hn1 Hn]. cbn [fmap list_fmap fst snd decodeUdt_loop fold_left] in *. subst n'.
  rewrite comps_cons. destruct (read_component c pre (comps cs)) as (-> & Hr & Hsl).
  { intros b ->. by destruct Hc. }
  rewrite Hr, ok_bind. destruct c as [b|]; cbn [comp_codec] in Hc.
  - destruct Hc as [Hb (_ & _ & Hd)]. rewrite (proj2 (Z.ltb_ge _ 0)) by apply blen_nonneg.
    rewrite (Hsl b eq_refl), Hd, ok_bind by done.
    replace (blen pre + 4 + blen b) with (blen (pre ++ comp (Some b)))
      by (cbn [comp]; rewrite !blen_app, blen_be; lia).
    rewrite app_assoc. by apply IH.
  - subst v. cbn [Z.ltb Z.compare]. replace (blen pre + 4) with (blen (pre ++ comp None)) by (by rewrite blen_app).
    rewrite app_assoc. by apply IH.
Qed.

Lemma tuple_items_eq (zs : list (columnInfo * jsval)) :
  encodeTuple_items (encode e) (HType <$> (fst <$> zs)) (snd <$> zs) =
  traverse (fun z => item ← encode e (snd z) (HType (fst z)); component_bytes item) zs.
Proof.
  induction zs as [|[t v] zs IH]; [done|]. cbn [fmap list_fmap fst snd encodeTuple_items traverse] in *.
  rewrite IH. destruct (encode e v (HType t)); [|done]. rewrite !ok_bind. done.
Qed.

(** Three lists related elementwise, as one list. *)
Lemma all3_zip {A B C} (P : A -> B -> C -> Prop) l k m :
  all3 P l k m -> exists zs : list (A * (B * C)), l = (fst <$> zs) /\ k = ((fun z => fst (snd z)) <$> zs) /\
    m = ((fun z => snd (snd z)) <$> zs) /\ Forall (fun z => P (fst z) (fst (snd z)) (snd (snd z))) zs.
Proof.
  revert k m. induction l as [|x l IH]; intros [|y k] [|z m]; cbn [all3]; try done; [by exists []|].
  intros [Hx (zs & -> & -> & -> & Hzs)%IH]. exists ((x, (y, z)) :: zs). do 3 (split; [done|]). by constructor.
Qed.

(** A pair of lists related elementwise, as one list. *)
Lemma all2_zip {A B} (P : A -> B -> Prop) l k :
  all2 P l k -> exists zs, l = (fst <$> zs) /\ k = (snd <$> zs) /\ Forall (fun z => P (fst z) (snd z)) zs.
Proof.
  intros H2%all2_Forall2. induction H2 as [|x y l k Hxy H2 (zs & -> & -> & Hzs)].
  - by exists [].
  - exists ((x, y) :: zs). split; [done|]. split; [done|]. by constructor.
Qed.

Lemma components_ensures {Z} (ft : Z -> columnInfo) (fv fw : Z -> jsval) (f : Z -> result bytes) (zs : list Z) :
  Forall (fun z => f z = (item ← encode e (fv z) (HType (ft z)); component_bytes item) /\
                   encodes_component (ft z) (fv z) (fw z)) zs ->
  ensures (traverse f zs)
    (fun parts => exists cs, parts = (comp <$> cs) /\ Forall2 (fun z => comp_codec (ft z) (fw z)) zs cs).
Proof.
  intros Hz. eapply ensures_mono; [intros parts; apply Forall2_image|].
  apply ensures_traverse. eapply Forall_impl; [|exact Hz]. intros z [-> Hv]. by apply component_ensures.
Qed.

Lemma comps_ne {A} (P : A -> option bytes -> Prop) zs cs : zs <> [] -> Forall2 P zs cs -> comps cs <> [].
Proof.
  destruct 2 as [|z c zs cs _ _]; [done|]. rewrite comps_cons. intros E%(f_equal blen).
  rewrite blen_app in E. pose proof (comp_length c). pose proof (blen_nonneg (comps cs)).
  change (blen []) with 0 in E. lia.
Qed.

(** With distinct names, the lookup of a field finds its value. *)
Lemma encode_prop_lookup name x h l :
  NoDup (fst <$> l) -> (name, x) ∈ l -> encode_prop e (encode e) name h l = encode e x h.
Proof.
  induction l as [|[n y] l IH]; [by intros _ ?%elem_of_nil|]. cbn [fmap list_fmap fst].
  intros HN [Heq | Hin]%elem_of_cons; inversion HN as [|? ? Hn Hd]; subst; cbn [encode_prop fst snd].
  - injection Heq as -> ->. by rewrite bool_decide_eq_true_2.
  - rewrite bool_decide_eq_false_2; [by apply IH|]. intros ->. apply Hn.
    apply list_elem_of_fmap. by exists (name, x).
Qed.

(** ** Vectors *)

Lemma uvint_read v rest bs :
  0 <= v < 2 ^ 31 -> VIntCoding.uvintPack v = Ok bs ->
  VIntCoding.uvintUnpack (bs ++ rest) = (Some v, blen bs).
Proof.
  intros Hv E. destruct (VIntCoding.uvintPack_spec v Hv) as (k & t & Hk & Et & Ht & E').
  rewrite E' in E. injection E as <-. rewrite (VIntCoding.uvintUnpack_spec k t v rest Hk Hv Et Ht).
  unfold blen. cbn [length]. by rewrite be_bytes_length.
Qed.

Lemma uvintPack_ensures v : ensures (VIntCoding.uvintPack v) (fun b => VIntCoding.uvintPack v = Ok b).
Proof.
  destruct (VIntCoding.uvintPack v) eqn:E; [done|]. revert E. unfold VIntCoding.uvintPack.
  case_Z; [done|]. destruct (VIntCoding.uvintPack_loop _ _ _ _ _ _) as [[? ?] ?].
  case_Z; [|done]. intros [= <-]. by right.
Qed.

(** An element: what stands before it and its bytes; [s] is the fixed size, or -1. *)
Definition vec_codec (s : Z) (t : columnInfo) (v : jsval) (p : bytes * bytes) : Prop :=
  codec_of t v (snd p) /\
  if s =? -1 then VIntCoding.uvintPack (blen (snd p)) = Ok (fst p)
  else fst p = [] /\ blen (snd p) = s.

Definition vec_parts (s : Z) (p : bytes * bytes) : list encoded :=
  if s =? -1 then [EBuffer (fst p); EBuffer (snd p)] else [EBuffer (snd p)].

Definition vec_bytes (ps : list (bytes * bytes)) : bytes := mjoin ((fun p => fst p ++ snd p) <$> ps).

Lemma vec_bytes_cons p ps : vec_bytes (p :: ps) = fst p ++ snd p ++ vec_bytes ps.
Proof. unfold vec_bytes. cbn [fmap list_fmap mjoin list_join]. by rewrite <- app_assoc. Qed.

Lemma vector_item_ensures s t v w :
  serializationSizeIfFixed t = Some s -> encodes t v w ->
  ensures (encodeVector_item (encode e) (Some s) t v)
    (fun r => exists p, r = vec_parts s p /\ vec_codec s t w p).
Proof.
  intros Hs [_ Hv]. unfold encodeVector_item, vec_parts, vec_codec.
  eapply ensures_bind; [exact Hv|]. intros r (b & -> & Hb).
  destruct (Z.eqb_spec s (-1)) as [->|Hne].
  - rewrite bool_decide_eq_true_2 by done. eapply ensures_bind; [apply uvintPack_ensures|].
    intros l Hl. by exists (l, b).
  - rewrite bool_decide_eq_false_2 by congruence. exists ([], b). split; [done|]. split; [done|].
    split; [done|]. destruct Hb as (_ & (s' & Hs' & Hz) & _). rewrite Hs in Hs'. injection Hs' as <-.
    by destruct Hz.
Qed.

Lemma concat_vector s t l ps :
  Forall2 (vec_codec s t) l ps -> concat_parts (mjoin (vec_parts s <$> ps)) = Ok (vec_bytes ps).
Proof.
  intros Hl. enough (E : mjoin (vec_parts s <$> ps) =
    (EBuffer <$> mjoin ((fun p => if s =? -1 then [fst p; snd p] else [snd p]) <$> ps)) /\
    mjoin (mjoin ((fun p => if s =? -1 then [fst p; snd p] else [snd p]) <$> ps)) = vec_bytes ps).
  { destruct E as [-> <-]. apply concat_buffers. }
  induction Hl as [|v p l ps [_ Hp] Hl [IH1 IH2]]; [done|]. rewrite vec_bytes_cons.
  change (mjoin (?f <$> p :: ps)) with (f p ++ mjoin (f <$> ps)). rewrite fmap_app, IH1. unfold vec_parts at 1.
  destruct (Z.eqb_spec s (-1)) as [->|]; (split; [done|]).
  - rewrite <- IH2. done.
  - destruct Hp as [-> _]. rewrite <- IH2. done.
Qed.

Lemma vec_small ps n : blen (vec_bytes ps) < n -> Forall (fun p => blen (snd p) < n) ps.
Proof.
  induction ps as [|p ps IH]; intros Hn; [constructor|]. rewrite vec_bytes_cons, !blen_app in Hn.
  pose proof (blen_nonneg (fst p)). pose proof (blen_nonneg (snd p)). pose proof (blen_nonneg (vec_bytes ps)).
  constructor; [lia|]. apply IH. lia.
Qed.

Lemma decodeVector_items s t dc l ps pre :
  Forall2 (vec_codec s t) l ps -> Forall (fun p => blen (snd p) < 2 ^ 31) ps ->
  decodeVector_loop (length l) (decode_with e dc t) (Some s) (pre ++ vec_bytes ps) (blen pre)
  = Ok (l, blen (pre ++ vec_bytes ps)).
Proof.
  intros Hl. revert pre. induction Hl as [|v p l ps [(_ & _ & Hd) Hp] Hl IH]; intros pre Hs.
  { cbn [length decodeVector_loop]. by rewrite app_nil_r. }
  apply Forall_cons_1 in Hs as [Hb Hs]. cbn [length decodeVector_loop]. rewrite vec_bytes_cons.
  assert (Hsz : (if s =? -1 then
      match VIntCoding.uvintUnpack (slice_from (pre ++ fst p ++ snd p ++ vec_bytes ps) (blen pre)) with
      | (Some size, bytesRead) => Ok (size, blen pre + bytesRead)
      | (None, _) => _ ← decode_with e dc t []; extra_bytes
      end else Ok (s, blen pre)) = Ok (blen (snd p), blen (pre ++ fst p))).
  { rewrite blen_app. destruct (Z.eqb_spec s (-1)) as [->|].
    - rewrite BigDecimal.slice_from_app by done. pose proof (blen_nonneg (snd p)).
      by rewrite (uvint_read (blen (snd p)) _ (fst p)).
    - destruct Hp as [-> <-]. change (blen []) with 0. by rewrite Z.add_0_r. }
  rewrite Hsz, ok_bind. rewrite (app_assoc pre).
  rewrite (proj2 (Z.ltb_ge _ _))
    by (rewrite !blen_app; pose proof (blen_nonneg (vec_bytes ps)); lia).
  rewrite (slice_app (pre ++ fst p) (snd p)) by (rewrite ?blen_app; lia).
  rewrite Hd, ok_bind by done. specialize (IH ((pre ++ fst p) ++ snd p) Hs).
  rewrite blen_app, <- app_assoc in IH. rewrite IH. done.
Qed.

Lemma vector_size s t l ps :
  s <> -1 -> Forall2 (vec_codec s t) l ps -> blen (vec_bytes ps) = s * Z.of_nat (length l).
Proof.
  intros Hne. induction 1 as [|v p l ps [_ Hp] Hl IH]; [change (0 = s * 0); lia|].
  rewrite vec_bytes_cons, !blen_app, IH. rewrite (proj2 (Z.eqb_neq s (-1)) Hne) in Hp.
  destruct Hp as [-> <-]. change (blen []) with 0. cbn [length]. lia.
Qed.

Lemma vector_ensures t dim op (zs : list (jsval * jsval)) name :
  let l := snd <$> zs in
  zs <> [] -> dim_value dim = Some (Z.of_nat (length l)) -> Forall (fun z => encodes t (fst z) (snd z)) zs -> getDataTypeNameByCode t = Ok name ->
  ensures (encodeVector_elements (encode e) t dim (fst <$> zs))
    (fun r => exists b, r = EBuffer b /\
       codec_of (CI dataTypes.custom (VectorInfo t dim) op) (JVector l name) b).
Proof.
  intros l Hne Hdim Hl Hname. unfold encodeVector_elements.
  assert (El : length (fst <$> zs) = length l) by (unfold l; by rewrite !length_fmap).
  rewrite El, Hdim, bool_decide_eq_true_2 by done. cbn [negb].
  destruct zs as [|x zs']; [done|]. set (zs := x :: zs') in *.
  change (match fst <$> zs with [] => _ | _ => ?k end) with k.
  assert (Hsize : ensures (encode e (fst x) (HType t)) (fun _ => exists s, serializationSizeIfFixed t = Some s)).
  { apply Forall_cons_1 in Hl as [[_ Hx] _]. eapply ensures_mono; [|exact Hx].
    intros r (b & _ & _ & (s & Hs & _) & _). by exists s. }
  destruct (encode e (fst x) (HType t)) as [rx|ex] eqn:Ex.
  2:{ unfold zs. rewrite fmap_cons. cbn [traverse].
      assert (Ei : encodeVector_item (encode e) (serializationSizeIfFixed t) t (fst x) = Err ex)
        by (unfold encodeVector_item; by rewrite Ex).
      rewrite Ei. exact Hsize. }
  destruct Hsize as [s Hs].
  eapply (ensures_bind _ _ (fun parts => exists ps, parts = (vec_parts s <$> ps) /\ Forall2 (vec_codec s t) l ps)).
  { rewrite traverse_fmap. eapply (ensures_mono _ (fun parts => exists ps, parts = (vec_parts s <$> ps) /\ Forall2 (fun z => vec_codec s t (snd z)) zs ps)).
    { intros parts (ps & -> & Hps). exists ps. split; [done|]. by apply Forall2_fmap_l. }
    eapply ensures_mono; [intros parts; apply Forall2_image|]. apply ensures_traverse.
    eapply Forall_impl; [|exact Hl]. intros z Hz. rewrite Hs. by apply vector_item_ensures. }
  intros parts (ps & -> & Hps). rewrite (concat_vector s t l ps Hps), ok_bind.
  eexists. split; [done|]. split; [done|]. split.
  - assert (E : serializationSizeIfFixed (CI dataTypes.custom (VectorInfo t dim) op)
                = if s =? -1 then Some (-1) else Some (s * Z.of_nat (length l))).
    { transitivity (match serializationSizeIfFixed t with
                    | Some s => if s =? -1 then Some (-1) else d ← dim_value dim; Some (s * d)
                    | None => None end); [done|by rewrite Hs, Hdim]. }
    rewrite E.
    destruct (Z.eqb_spec s (-1)); [exists (-1); by split; [|left]|].
    exists (s * Z.of_nat (length l)). split; [done|]. right. by apply (vector_size s t).
  - intros Hsmall dc. rewrite decode_unfold by done.
    change (decoders e (decode_with e dc) dc dataTypes.custom (VectorInfo t dim) (vec_bytes ps))
      with (decodeVector (vec_bytes ps) t (decode_with e dc t) dim).
    unfold decodeVector. rewrite Hs, Hdim. change (default 0 (Some ?z)) with z. rewrite Nat2Z.id.
    pose proof (decodeVector_items s t dc l ps [] Hps (vec_small _ _ Hsmall)) as R.
    cbn [app] in R. change (blen []) with 0 in R. rewrite R, ok_bind, Z.eqb_refl. cbn [negb].
    rewrite Hname, ok_bind. done.
Qed.

(** ** Every typed value *)

(** A type of variable size whose values are never empty. *)
Lemma codec_var code info op v b :
  serializationSizeIfFixed (CI code info op) = Some (-1) -> b <> [] ->
  (blen b < 2 ^ 31 -> forall dc, decoders e (decode_with e dc) dc code info b = Ok v) ->
  codec_of (CI code info op) v b.
Proof.
  intros Hs Hb Hd. split; [done|]. split; [exists (-1); by split; [|left]|].
  intros Hsmall dc. rewrite decode_unfold by done. by apply Hd.
Qed.

Lemma encodes_buffer t b :
  (b = [] -> zeroLengthTypesSupported (ci_code t) = true) -> serializationSizeIfFixed t = Some (-1) ->
  (forall dc, decode_with e dc t b = Ok (JBuffer b)) -> encodes t (JBuffer b) (JBuffer b).
Proof. intros Hz Hs Hd. split; [done|]. exists b. split; [done|]. split; [done|]. split; [|done].
  exists (-1). by split; [|left]. Qed.

Lemma encodes_scalar code op v : typed (options e) (CI code NoInfo op) v -> encodes (CI code NoInfo op) v v.
Proof.
  intros [Hv | (Hc & b & ->)].
  - destruct (scalar_roundtrip e code v Hv) as (Ha & Hb & b & He & Hd & Hz & Hs).
    split; [done|]. rewrite encode_unfold by done. cbn [ci_code ci_info]. rewrite He.
    exists b. split; [done|]. split; [done|]. split.
    + change (serializationSizeIfFixed (CI code NoInfo op)) with (serializationSizeIfFixed (simple code)).
      destruct (serializationSizeIfFixed (simple code)) as [s|] eqn:Es; [exists s; auto|].
      exfalso. revert Es. cbn [simple serializationSizeIfFixed].
      repeat match goal with |- (if ?c then _ else _) = _ -> _ => destruct c; [done|] end. done.
    + intros _ dc. rewrite decode_unfold by done. apply Hd.
  - destruct Hc as [-> | ->]; (apply encodes_buffer; [done|done|]; intros dc; by rewrite decode_unfold).
Qed.

Lemma encodes_class s op code v : typed (options e) (CI code (StrInfo s) op) v -> encodes (CI code (StrInfo s) op) v v.
Proof.
  intros (-> & Hs & Hv). case_bool_decide as Ed.
  - destruct Hv as (d & Hd & ->). split; [done|]. rewrite encode_unfold by done. cbn [ci_code ci_info].
    assert (E : encodeDuration (JDuration d) = Ok (Duration.duration_bytes d)).
    { cbn [encodeDuration]. by destruct (Duration.duration_toBuffer d duration_scratch Hd) as [-> _]. }
    change (encoders e ?f ?g dataTypes.custom ?v ?i) with (encodeCustom f v i).
    unfold encodeCustom. rewrite Hs, bool_decide_eq_true_2, E by done.
    exists (Duration.duration_bytes d). split; [done|]. split; [done|]. split; [exists (-1); by split; [|left]|].
    intros _ dc. rewrite decode_unfold by done.
    change (decoders e ?f ?g dataTypes.custom (StrInfo s) ?b) with (decodeCustom f g b (StrInfo s)).
    unfold decodeCustom. rewrite Hs, bool_decide_eq_true_2 by done.
    unfold decodeDuration. by rewrite Duration.duration_fromBuffer.
  - destruct Hv as [b ->]. apply encodes_buffer; [done|done|]. intros dc. rewrite decode_unfold by done.
    change (decoders e ?f ?g dataTypes.custom (StrInfo s) b) with (decodeCustom f g b (StrInfo s)).
    unfold decodeCustom. by rewrite Hs, bool_decide_eq_false_2.
Qed.

(** An empty collection is encoded to null, and nothing is decoded to null. *)
Lemma empty_encoded t v : empty_collection (options e) t v -> is_absent v = false /\ encode e v (HType t) = Ok ENull /\
  forall dc, decode_with e dc t [] = Ok JNull.
Proof.
  destruct t as [code [|t| | | |] op]; cbn [empty_collection]; try done. intros [[-> ->]|[-> ->]].
  - done.
  - destruct (opt_set (options e)) eqn:Eo; (split; [done|]); (split; [|done]); rewrite encode_unfold by done;
      change (encoders e ?f ?g (ci_code (CI dataTypes.set ?i op)) ?v ?j) with (encodeSet e f v i); unfold encodeSet; by rewrite ?Eo.
Qed.

Lemma component_encoded t v w :
  (forall x y, gives (options e) t x y -> encodes t x y) -> component (options e) (gives (options e)) t v w -> encodes_component t v w.
Proof.
  intros IH [[-> ->]|[[Hv ->]|Hv]]; [by left|left|right; auto]. by destruct (empty_encoded t v Hv) as (_ & -> & _).
Qed.

Lemma map_value_encoded t v w :
  (forall x y, gives (options e) t x y -> encodes t x y) -> map_value (options e) (gives (options e)) t v w -> encodes_value t v w.
Proof. intros IH [[Hv ->]|Hv]; [right; by apply empty_encoded|left; auto]. Qed.

Lemma encodes_collection code t op v w :
  (forall x y, gives (options e) t x y -> encodes t x y) ->
  gives (options e) (CI code (TypeInfo t) op) v w -> encodes (CI code (TypeInfo t) op) v w.
Proof.
  intros IH (l & l' & Hne & Hl & Hv). apply all2_zip in Hl as (zs & -> & -> & Hzs).
  assert (He : Forall (fun z => encodes t (fst z) (snd z)) zs) by (eapply Forall_impl; [|exact Hzs]; intros z; apply IH).
  assert (Hzne : zs <> []) by (by intros ->).
  pose proof (list_array_ensures t zs Hzne He) as Hens.
  destruct Hv as [(-> & -> & ->) | (-> & -> & -> & Hset)].
  - split; [done|]. rewrite encode_unfold by done.
    change (encoders e ?f ?g (ci_code (CI dataTypes.list ?i op)) (JArray ?l) ?j) with (encodeList_array e f l i).
    eapply ensures_mono; [|exact Hens]. intros r (b & -> & Hb & Hd). exists b. split; [done|].
    apply codec_var; [done|done|]. intros Hsmall dc.
    change (decoders e ?f dc dataTypes.list ?i b) with (JArray <$> decodeList e f b i). by rewrite Hd.
  - set (v := if opt_set (options e) then JSet (fst <$> zs) else JArray (fst <$> zs)).
    assert (Ha : is_absent v = false /\ is_buffer v = false) by (unfold v; by destruct (opt_set _)).
    split; [apply Ha|]. rewrite encode_unfold by apply Ha.
    change (encoders e ?f ?g (ci_code (CI dataTypes.set ?i op)) v ?j) with (encodeSet e f v i).
    assert (Es : encodeSet e (encode e) v (TypeInfo t) = encodeList_array e (encode e) (fst <$> zs) (TypeInfo t)).
    { unfold encodeSet, v. by destruct (opt_set (options e)). }
    rewrite Es. eapply ensures_mono; [|exact Hens]. intros r (b & -> & Hb & Hd). exists b. split; [done|].
    apply codec_var; [done|done|]. intros Hsmall dc.
    change (decoders e ?f dc dataTypes.set ?i b) with (decodeSet e f b i). unfold decodeSet.
    rewrite Hd, ok_bind by done. destruct (opt_set (options e)); [|done]. by rewrite Hset.
Qed.

Lemma encodes_tuple ts op l l' :
  Forall (fun t => forall x y, gives (options e) t x y -> encodes t x y) ts -> ts <> [] ->
  all3 (fun t x y => component (options e) (gives (options e)) t x y) ts l l' ->
  encodes (CI dataTypes.tuple (TypesInfo ts) op) (JTuple l) (JTuple l').
Proof.
  intros IH Hne (zs & -> & -> & -> & Hzs)%all3_zip. split; [done|]. rewrite encode_unfold by done.
  change (encoders e ?f ?g (ci_code (CI dataTypes.tuple (TypesInfo ?ts) op)) (JTuple ?l) ?j)
    with (parts ← encodeTuple_items f (HType <$> ts) l; Ok (EBuffer (buffer_concat parts))).
  set (vs := (fun z => (fst z, fst (snd z))) <$> zs).
  replace (fst <$> zs) with (fst <$> vs) by (unfold vs; by rewrite <- list_fmap_compose).
  replace ((fun z => fst (snd z)) <$> zs) with (snd <$> vs) by (unfold vs; by rewrite <- list_fmap_compose).
  rewrite tuple_items_eq. unfold vs at 1. rewrite traverse_fmap.
  eapply ensures_bind; [apply (components_ensures fst (fun z => fst (snd z)) (fun z => snd (snd z)))|].
  { apply List.Forall_forall. intros z Hin. split; [done|]. rewrite List.Forall_forall in Hzs, IH.
    apply component_encoded; [|by apply Hzs]. apply IH. by apply in_map. }
  intros parts (cs & -> & Hcs). exists (comps cs). split; [done|].
  assert (Hzne : zs <> []) by (by intros ->).
  apply codec_var; [done|by apply (comps_ne _ zs cs Hzne Hcs)|]. intros _ dc.
  change (decoders e (decode_with e dc) dc dataTypes.tuple (TypesInfo ?ts) ?b) with
    (elements ← decodeTuple_loop ((fun t => decode_with e dc t) <$> ts) b 0; new_Tuple elements).
  set (ws := (fun z => (fst z, snd (snd z))) <$> zs).
  assert (Hws : Forall2 (fun z => comp_codec (fst z) (snd z)) ws cs) by (unfold ws; by apply Forall2_fmap_l).
  replace (fst <$> vs) with (fst <$> ws) by (unfold ws, vs; by rewrite <- !list_fmap_compose).
  replace ((fun z => snd (snd z)) <$> zs) with (snd <$> ws) by (unfold ws; by rewrite <- list_fmap_compose).
  pose proof (decodeTuple_comps dc ws cs [] Hws) as R. cbn [app] in R. change (blen []) with 0 in R.
  rewrite R, ok_bind. unfold ws. by destruct zs.
Qed.

Lemma encodes_map tk tv op v w :
  (forall x y, gives (options e) tk x y -> encodes tk x y) -> (forall x y, gives (options e) tv x y -> encodes tv x y) ->
  (if opt_map (options e) then
     exists l l', v = JMap l /\ w = JMap l' /\ map_canonical l' /\
       all2 (fun kv kv' => gives (options e) tk (fst kv) (fst kv') /\ map_value (options e) (gives (options e)) tv (snd kv) (snd kv')) l l'
   else
     exists l l', v = JObject l /\ w = JObject l' /\ obj_canonical l' /\
       all2 (fun kv kv' => gives (options e) tk (JString (fst kv)) (JString (fst kv')) /\
                           map_value (options e) (gives (options e)) tv (snd kv) (snd kv')) l l') ->
  encodes (CI dataTypes.map (TypesInfo [tk; tv]) op) v w.
Proof.
  intros IHk IHv Hv. set (info := TypesInfo [tk; tv]).
  assert (Hd : forall b dc, decoders e (decode_with e dc) dc dataTypes.map info b
                            = decodeMap e (decode_with e dc) b info) by done.
  assert (He : forall w, encoders e (encode e) (encode_string e) dataTypes.map w info
                         = encodeMap e (encode e) (encode_string e) w info) by done.
  destruct (opt_map (options e)) eqn:Eo; destruct Hv as (l & l' & -> & -> & Hcan & Hl);
    apply all2_zip in Hl as (zs & -> & -> & Hl); (split; [done|]);
    rewrite encode_unfold by done; cbn [ci_code ci_info]; rewrite He; unfold encodeMap; rewrite ?Eo.
  - eapply ensures_bind; [apply map_entries_ensures|].
    { eapply Forall_impl; [|exact Hl]. intros z [? ?]. split; [auto|by apply map_value_encoded]. }
    intros parts Hps. eapply ensures_mono; [|apply (map_finish_ensures tk tv _ parts Hps)].
    intros r (b & -> & Hb & Hdec). exists b. split; [done|]. apply codec_var; [done|done|].
    intros Hsmall dc. destruct (Hdec Hsmall) as [Hn Hr]. rewrite Hd. unfold decodeMap.
    rewrite Hn, ok_bind, Eo, Nat2Z.id. cbv zeta. cbn [info item_decoders fmap list_fmap].
    change (default [] (Some ?x)) with x. change (default ?d ([?a; ?b] !! 0%nat)) with a.
    change (default ?d ([?a; ?b] !! 1%nat)) with b.
    rewrite (Hr _ dc _ (fun kv m => map_set (fst kv) (snd kv) m) []) by (by apply List.Forall_forall).
    by rewrite Hcan.
  - eapply ensures_bind; [apply object_props_ensures|].
    { eapply Forall_impl; [|exact Hl]. intros z [? ?]. split; [auto|by apply map_value_encoded]. }
    set (ws := snd <$> zs) in *.
    intros parts Hps. eapply ensures_mono; [|apply (map_finish_ensures tk tv _ parts Hps)].
    intros r (b & -> & Hb & Hdec). exists b. split; [done|]. apply codec_var; [done|done|].
    intros Hsmall dc. destruct (Hdec Hsmall) as [Hn Hr]. rewrite Hd. unfold decodeMap.
    rewrite Hn, ok_bind, Eo, Nat2Z.id. cbv zeta. cbn [info item_decoders fmap list_fmap].
    change (default [] (Some ?x)) with x. change (default ?d ([?a; ?b] !! 0%nat)) with a.
    change (default ?d ([?a; ?b] !! 1%nat)) with b.
    rewrite (Hr _ dc _ (fun kv m => match fst kv with JString k => set_prop k (snd kv) m | _ => m end) []).
    + rewrite ok_bind. do 2 f_equal. unfold obj_canonical in Hcan. rewrite <- Hcan at 2.
      generalize (@nil (jsstr * jsval)). clear. induction ws as [|[k x] l IH]; intros acc; [done|]. apply IH.
    + apply List.Forall_forall. intros kv [[k x] [<- _]]%in_map_iff acc. done.
Qed.

Lemma encodes_udt ks name fields op l l' :
  Forall (fun f => forall x y, gives (options e) (snd f) x y -> encodes (snd f) x y) fields -> fields <> [] ->
  (fst <$> l) = (fst <$> fields) -> (fst <$> l') = (fst <$> fields) -> NoDup (fst <$> fields) -> obj_canonical l' ->
  all3 (fun f x y => component (options e) (gives (options e)) (snd f) (snd x) (snd y)) fields l l' ->
  encodes (CI dataTypes.udt (UdtInfo ks name fields) op) (JObject l) (JObject l').
Proof.
  intros IH Hne Hnames Hnames' Hnd Hcan (zs & -> & -> & -> & Hzs)%all3_zip. split; [done|]. rewrite encode_unfold by done.
  change (encoders e ?f ?g (ci_code (CI dataTypes.udt ?i op)) ?v ?j)
    with (parts ← traverse (encodeUdt_field e f v) (fst <$> zs); Ok (EBuffer (buffer_concat parts))).
  assert (Hzn : Forall (fun z => fst (fst z) = fst (fst (snd z)) /\ fst (fst z) = fst (snd (snd z))) zs).
  { clear -Hnames Hnames'. induction zs as [|z zs IH]; [constructor|].
    cbn [fmap list_fmap] in Hnames, Hnames'. injection Hnames as H1 H2. injection Hnames' as H3 H4. constructor; auto. }
  rewrite traverse_fmap.
  eapply ensures_bind; [apply (components_ensures (fun z => snd (fst z)) (fun z => snd (fst (snd z))) (fun z => snd (snd (snd z))))|].
  { apply List.Forall_forall. intros z Hin. rewrite List.Forall_forall in Hzs, IH, Hzn. split.
    - unfold encodeUdt_field. rewrite (proj1 (Hzn z Hin)).
      rewrite (encode_prop_lookup _ (snd (fst (snd z)))); [done|by rewrite Hnames|].
      apply list_elem_of_fmap. exists z. split; [by destruct (fst (snd z))|]. by apply list_elem_of_In.
    - apply component_encoded; [|by apply Hzs]. apply IH. by apply in_map. }
  intros parts (cs & -> & Hcs). exists (comps cs). split; [done|].
  assert (Hzne : zs <> []) by (by intros ->).
  apply codec_var; [done|by apply (comps_ne _ zs cs Hzne Hcs)|]. intros _ dc.
  change (decoders e (decode_with e dc) dc dataTypes.udt (UdtInfo ks name ?fs) ?b) with
    (r ← decodeUdt_loop ((fun f => (fst f, decode_with e dc (snd f))) <$> fs) b 0 []; Ok (JObject r)).
  set (ws := (fun z => (fst z, snd (snd z))) <$> zs).
  assert (Hws : Forall2 (fun z => comp_codec (snd (fst z)) (snd (snd z))) ws cs) by (unfold ws; by apply Forall2_fmap_l).
  assert (Hwn : Forall (fun z => fst (fst z) = fst (snd z)) ws).
  { unfold ws. apply Forall_fmap. eapply Forall_impl; [|exact Hzn]. by intros z [_ ?]. }
  replace (fst <$> zs) with (fst <$> ws) by (unfold ws; by rewrite <- list_fmap_compose).
  replace ((fun z => snd (snd z)) <$> zs) with (snd <$> ws) in * by (unfold ws; by rewrite <- list_fmap_compose).
  pose proof (decodeUdt_comps dc ws cs [] [] Hws Hwn) as R. cbn [app] in R. change (blen []) with 0 in R.
  rewrite R, ok_bind. by rewrite Hcan.
Qed.

Lemma gives_encodes t v w : gives (options e) t v w -> encodes t v w.
Proof.
  revert v w. induction t as [code info op IH] using columnInfo_all_ind. intros v w Hv.
  destruct info as [|t|ts|ks name fields|s|t dim]; cbn [cinfo_all] in IH.
  - destruct Hv as [Hv ->]. by apply encodes_scalar.
  - by apply encodes_collection.
  - destruct Hv as [(-> & Hne & l & l' & -> & -> & Hl) | (-> & Hm)]; [by apply encodes_tuple|].
    destruct ts as [|tk [|tv []]]; try done.
    apply Forall_cons_1 in IH as [Hk IH]. apply Forall_cons_1 in IH as [Hv _].
    by apply encodes_map.
  - destruct Hv as (-> & Hne & l & l' & -> & -> & Hn & Hn' & Hnd & Hcan & Hl). by apply encodes_udt.
  - destruct Hv as [Hv ->]. by apply encodes_class.
  - destruct Hv as (-> & l & l' & name & -> & -> & Hne & Hdim & Hl & Hname). apply all2_zip in Hl as (zs & -> & -> & Hzs). split; [done|].
    rewrite encode_unfold by done. rewrite !length_fmap, <- (length_fmap snd zs) in Hdim.
    apply vector_ensures; [by intros ->|done| |done]. eapply Forall_impl; [|exact Hzs]. intros z. apply IH.
Qed.

Lemma all2_diag {A} (P : A -> A -> Prop) l : Forall (fun x => P x x) l -> all2 P l l.
Proof. induction 1; cbn; auto. Qed.

Lemma all3_diag {A B} (P : A -> B -> B -> Prop) l k : Forall2 (fun x y => P x y y) l k -> all3 P l k k.
Proof. induction 1; cbn; auto. Qed.

(** A typed value gives itself. *)
Lemma typed_gives t v : typed (options e) t v -> gives (options e) t v v.
Proof.
  revert v. induction t as [code info op IH] using columnInfo_all_ind. intros v Hv.
  destruct info as [|t|ts|ks name fields|s|t dim]; cbn [cinfo_all] in IH; cbn [gives]; try done.
  - destruct Hv as (l & Hne & Hl & Hv). exists l, l. split; [done|]. split; [apply all2_diag; eapply Forall_impl; [exact IH|exact Hl]|].
    destruct Hv as [[-> ->]|(-> & -> & Hs)]; auto.
  - destruct Hv as [(-> & Hne & l & -> & Hl) | (-> & Hm)]; [left|right]; (split; [done|]).
    + split; [done|]. exists l, l. split; [done|]. split; [done|]. apply all3_diag. apply all2_Forall2 in Hl. clear Hne.
      induction Hl as [|t x ts l Hx Hl IHl]; [constructor|]. apply Forall_cons_1 in IH as [Ht IH]. constructor; [|auto].
      destruct Hx as [->|Hx]; [by left|right; right; auto].
    + destruct ts as [|tk [|tv []]]; try done. apply Forall_cons_1 in IH as [Hk IH]. apply Forall_cons_1 in IH as [Hv _].
      destruct (opt_map (options e)); destruct Hm as (l & -> & Hc & Hl); exists l, l; do 3 (split; [done|]); apply all2_diag;
        (eapply Forall_impl; [|exact Hl]); intros kv [? ?]; (split; [auto|right; auto]).
  - destruct Hv as (-> & Hne & l & -> & Hn & Hnd & Hcan & Hl). do 2 (split; [done|]). exists l, l. do 6 (split; [done|]).
    apply all3_diag. apply all2_Forall2 in Hl. clear -IH Hl. induction Hl as [|f x fields l Hx Hl IHl]; [constructor|].
    apply Forall_cons_1 in IH as [Ht IH]. constructor; [|auto]. destruct Hx as [->|Hx]; [by left|right; right; auto].
  - destruct Hv as (-> & l & name & -> & Hne & Hdim & Hl & Hname). split; [done|]. exists l, l, name. do 4 (split; [done|]).
    split; [|done]. apply all2_diag. eapply Forall_impl; [exact IH|exact Hl].
Qed.

Lemma typed_encodes t v : typed (options e) t v -> encodes t v v.
Proof. intros Hv. by apply gives_encodes, typed_gives. Qed.

(** A list with an empty collection among its elements is refused. *)
Lemma nested_empty_refused t op l x :
  x ∈ l -> empty_collection (options e) t x -> is_ok (encode e (JArray l) (HType (CI dataTypes.list (TypeInfo t) op))) = false.
Proof.
  intros Hin Hx. destruct (empty_encoded t x Hx) as (Ha & He & _). rewrite encode_unfold by done.
  change (encoders e ?f ?g (ci_code (CI dataTypes.list ?i op)) (JArray l) ?j) with (encodeList_array e f l i).
  unfold encodeList_array. destruct l as [|y l']; [by apply not_elem_of_nil in Hin|]. set (l := y :: l') in *.
  change (match l with [] => _ | _ => ?k end) with k. destruct (getLengthBuffer e (Z.of_nat (length l))) as [lb|]; [|done]. rewrite ok_bind.
  destruct (traverse _ l) as [parts|] eqn:Et; [|done]. rewrite ok_bind.
  assert (Hp : ENull ∈ mjoin parts).
  { clearbody l. revert parts Et. induction l as [|z l IH]; [by apply not_elem_of_nil in Hin|]. intros parts Et. cbn [traverse] in Et.
    apply bind_ok in Et as (p & Ep & Et). apply bind_ok in Et as (ps & Eps & Et). injection Et as <-.
    change (mjoin (p :: ps)) with (p ++ mjoin ps). apply elem_of_app. apply elem_of_cons in Hin as [<-|Hin]; [left|right; auto].
    unfold encodeList_item in Ep. cbn [info_hint] in Ep. rewrite Ha, He, ok_bind in Ep. apply bind_ok in Ep as (b & _ & Ep).
    injection Ep as <-. right. left. }
  enough (Hc : is_ok (concat_parts (EBuffer lb :: mjoin parts)) = false) by (by destruct (concat_parts _)).
  unfold concat_parts. destruct (traverse _ (EBuffer lb :: mjoin parts)) as [bs|] eqn:Ec; [|done]. exfalso.
  apply traverse_ok in Ec. cbn in Ec. inversion Ec as [|? ? ? ? _ Hf]; subst. clear -Hp Hf.
  induction Hf as [|? ? ? ? Hh Hf IH]; [by apply not_elem_of_nil in Hp|]. apply elem_of_cons in Hp as [<-|Hp]; [done|auto].
Qed.

End roundtrip.

(** C1. Values survive the wire: for every type description built from the scalar
    types, lists, sets, maps, tuples, user types and vectors at any depth, and every value [v] of the type that
    gives [w], [encode] either returns bytes, and [decode] of them (when they are shorter than 2^31) is [w], or
    returns null and [w] is null, or throws because a length does not fit its field.  Here [w] is [v] itself for null and for a value without empty lists and sets;
    an empty list or set, at the top, in a tuple, in a field of a user type or as a value of a map, gives null.  A list
    that has an empty list or set among its elements is refused. *)
Theorem decode_encode `{Host, !LongLaws} (e : encoder) (t : columnInfo) (v w : jsval) :
  component (options e) (gives (options e)) t v w ->
  match encode e v (HType t) with
  | Ok (EBuffer b) => blen b < 2 ^ 31 -> decode e (Some b) t = Ok w
  | Ok ENull => w = JNull /\ decode e None t = Ok w
  | Ok EUndefined => False
  | Err x => too_long x
  end /\
  (v = JNull \/ typed (options e) t v -> component (options e) (gives (options e)) t v v) /\
  (forall l op, v ∈ l -> empty_collection (options e) t v ->
     is_ok (encode e (JArray l) (HType (CI dataTypes.list (TypeInfo t) op))) = false).
Proof.
  intros Hv. split; [|split].
  - apply (component_encoded e) in Hv; [|apply gives_encodes]. destruct Hv as [[-> ->]|[_ Hv]]; [done|].
    destruct (encode e v (HType t)) as [r|x]; [|done]. destruct Hv as (b & -> & _ & _ & Hd). intros Hb. by apply Hd.
  - intros [->|Ht]; [by left|right; right; by apply typed_gives].
  - intros l op. apply nested_empty_refused.
Qed.

(** A map of text to vectors of lists of int, in ES6 Maps. *)
Definition sample_encoder : encoder := mkEncoder (mkEncoding false true true false false false) 4.

Definition sample_type : columnInfo :=
  of_info dataTypes.map (TypesInfo [simple dataTypes.text;
    of_info dataTypes.custom (VectorInfo (of_info dataTypes.list (TypeInfo (simple dataTypes.int))) (num_of_Z 2))]).

Definition sample_value : jsval :=
  JMap [(JString (js "a"), JVector [JArray [JNumber (num_of_Z 1)]; JArray [JNumber (num_of_Z (-2)); JNumber (num_of_Z 3)]]
                                   (Some (js "list<int>")))].

Lemma sample_typed : typed (options sample_encoder) sample_type sample_value.
Proof.
  right. split; [done|]. cbn [options sample_encoder opt_map]. eexists. split; [done|]. split; [reflexivity|].
  apply Forall_cons_2; [|apply Forall_nil_2]. split.
  - left. by constructor.
  - split; [done|]. eexists _, _. split; [done|]. split; [done|]. split; [done|]. split; [|reflexivity].
    repeat (apply Forall_cons_2; [eexists; split; [|split; [|left; done]]; [done|]|]); try apply Forall_nil_2;
      repeat (apply Forall_cons_2; [left; constructor; unfold int32; lia|]); apply Forall_nil_2.
Qed.

(** A map of text to lists of int, with an empty list as a value. *)
Definition empty_value_type : columnInfo :=
  of_info dataTypes.map (TypesInfo [simple dataTypes.text; of_info dataTypes.list (TypeInfo (simple dataTypes.int))]).

Lemma empty_value_gives :
  component (options sample_encoder) (gives (options sample_encoder)) empty_value_type
    (JMap [(JString (js "a"), JArray [])]) (JMap [(JString (js "a"), JNull)]).
Proof.
  right. right. right. split; [done|]. cbn [options sample_encoder opt_map]. eexists _, _. do 3 (split; [done|]). split; [|done].
  split; [split; [left; by constructor|done]|]. left. split; [by left|done].
Qed.

Lemma decode_encode_witness :
  exists b, encode sample_encoder (JMap [(JString (js "a"), JArray [])]) (HType empty_value_type) = Ok (EBuffer b) /\
            decode sample_encoder (Some b) empty_value_type = Ok (JMap [(JString (js "a"), JNull)]).
Proof.
  destruct (decode_encode sample_encoder empty_value_type _ _ empty_value_gives) as [D _].
  eexists. split; [vm_compute; reflexivity|].
  match type of D with match ?m with _ => _ end => let v := eval vm_compute in m in change m with v in D end.
  apply D. vm_compute. reflexivity.
Defined.

(** A value without empty collections comes back as it was. *)
Example sample_roundtrip :
  exists b, encode sample_encoder sample_value (HType sample_type) = Ok (EBuffer b) /\
            decode sample_encoder (Some b) sample_type = Ok sample_value.
Proof. eexists. split; [vm_compute; reflexivity|vm_compute; reflexivity]. Qed.
