(* ===== verification/RoutingKey.v ===== *)
(** * Routing keys

    The part of lib/encoder.js that builds the key the driver hashes to choose a
    coordinator: [setRoutingKeyFromUser], [setRoutingKeyFromMeta],
    [#encodeRoutingKeyParts] and [concatRoutingKey], with the fields of
    DefaultExecutionOptions (lib/execution-options.js) that they read and set.

    The theorems: what each of the two entry points does on every branch, the layout of
    a composite key, and that a routing key determines the values it was made of. *)

From S2P Require Import Prelude JsNumber Buffer Alloc JsString ProtocolVersion ValueTypes.
From S2P Require Import CqlTypes JsValue Encoder EncoderScalars EncoderProofs.

(** The options' routing key: a Buffer, an array whose items are Buffers or absent, a
    Token or TokenRange, or something else that is truthy. *)
Inductive routing_key : Type :=
| RKUndefined
| RKNull
| RKBuffer (b : bytes)
| RKArray (items : list encoded)
| RKToken
| RKOther.

(** The fields of the execution options that take part. *)
Record execOptions : Type := mkExec {
  routingKey : routing_key;
  routingIndexes : option (list (option Z));
  routingNames : option (list jsstr);
  hints : option (list hint) }.

Definition setRoutingKey (o : execOptions) (value : routing_key) : execOptions :=
  mkExec value (routingIndexes o) (routingNames o) (hints o).

(** An item of an array or a value [encode] returns, as a routing key. *)
Definition key_of (item : encoded) : routing_key :=
  match item with EUndefined => RKUndefined | ENull => RKNull | EBuffer b => RKBuffer b end.

Definition item_length (item : encoded) : Z := match item with EBuffer b => blen b | _ => 0 end.
Definition item_bytes (item : encoded) : bytes := match item with EBuffer b => b | _ => [] end.

(** ** concatRoutingKey *)

(** The loop over the parts, on the allocated buffer. *)
Fixpoint concat_loop (parts : list encoded) (buf : bytes) (offset : Z) : result bytes :=
  match parts with
  | [] => Ok buf
  | item :: parts =>
      l ← uint16_bytes (item_length item);
      buf ← write_at buf offset l;
      let offset := offset + 2 in
      let buf := copy_into (item_bytes item) buf offset in
      let offset := offset + item_length item in
      let buf := <[Z.to_nat offset := 0]> buf in
      concat_loop parts buf (offset + 1)
  end.

Definition concatRoutingKey `{Allocator} (parts : list encoded) (totalLength : Z) : result routing_key :=
  if totalLength =? 0 then Ok RKNull
  else match parts with
       | [p] => Ok (key_of p)
       | _ => b ← concat_loop parts (allocUnsafe totalLength) 0; Ok (RKBuffer b)
       end.

(** ** #encodeRoutingKeyParts

    The total length and the parts; a return of [0] leaves parts that are not used. *)
Fixpoint encodeRoutingKeyParts (indexes : list (option Z)) (encodeParam : Z -> result encoded)
    (totalLength : Z) : result (Z * list encoded) :=
  match indexes with
  | [] => Ok (totalLength, [])
  | None :: _ => Ok (0, [])
  | Some i :: indexes =>
      item ← encodeParam i;
      match item with
      | EBuffer b =>
          '(total, parts) ← encodeRoutingKeyParts indexes encodeParam (totalLength + blen b + 3);
          Ok (total, item :: parts)
      | _ => Ok (0, [])
      end
  end.

(** [try { totalLength = ... } catch (e) { }]; then the key is set unless it is empty. *)
Definition set_from_parts `{Allocator} (indexes : list (option Z)) (encodeParam : Z -> result encoded)
    (o : execOptions) : result execOptions :=
  match encodeRoutingKeyParts indexes encodeParam 0 with
  | Err _ => Ok o
  | Ok (totalLength, parts) =>
      if totalLength =? 0 then Ok o
      else k ← concatRoutingKey parts totalLength; Ok (setRoutingKey o k)
  end.

(** [a[i]] of an array; none when it is undefined. *)
Definition nth_Z {A} (a : list A) (i : Z) : option A :=
  if i <? 0 then None else a !! Z.to_nat i.

(** The loop over the items of a composite key of the user; none: an item is missing. *)
Fixpoint user_length (items : list encoded) (totalLength : Z) : option Z :=
  match items with
  | [] => Some totalLength
  | EBuffer b :: items => user_length items (totalLength + (blen b + 3))
  | _ :: _ => None
  end.

Section setters.
Context `{Host, Allocator}.
Variable e : encoder.

Definition setRoutingKeyFromMeta (columns : list columnInfo) (params : list jsval) (o : execOptions)
    : result execOptions :=
  match routingIndexes o with
  | None => Ok o
  | Some indexes =>
      set_from_parts indexes
        (fun i => encode e (default JUndefined (nth_Z params i))
                    (match nth_Z columns i with Some t => HType t | None => HNone end)) o
  end.

(** [params[i].value] throws when there is no such parameter.  [keys] are the positions
    of the named parameters; none when the parameters are positional. *)
Definition user_param (params : list jsval) (keys : option (list (jsstr * Z))) (hs : list hint) (i : Z)
    : result encoded :=
  let h := default HNone (nth_Z hs i) in
  match keys, nth_Z params i with
  | None, p => encode e (default JUndefined p) h
  | Some _, Some v => encode e v h
  | Some _, None => not_object
  end.

(** [keys[k]] *)
Definition key_index (keys : list (jsstr * Z)) (k : jsstr) : option Z :=
  snd <$> List.find (fun p => bool_decide (fst p = k)) keys.

Definition setRoutingKeyFromUser (params : option (list jsval)) (o : execOptions)
    (keys : option (list (jsstr * Z))) : result execOptions :=
  match routingKey o with
  | RKArray [item] => Ok (setRoutingKey o (key_of item))
  | RKArray items =>
      match user_length items 0 with
      | None => Ok (setRoutingKey o RKNull)
      | Some totalLength => k ← concatRoutingKey items totalLength; Ok (setRoutingKey o k)
      end
  | RKBuffer _ | RKToken => Ok o
  | RKOther => Err (TypeError "Unexpected routingKey provided. Expected Buffer, Array<Buffer>, Token, or TokenRange.")
  | RKUndefined | RKNull =>
      match params with
      | None | Some [] => Ok o
      | Some params =>
          indexes ←
            match routingNames o, keys with
            | None, _ => Ok (routingIndexes o)
            | Some [], None => Ok (Some [])
            | Some _, None => not_object
            | Some names, Some keys => Ok (Some (key_index keys <$> names))
            end;
          match indexes with
          | None => Ok o
          | Some indexes =>
              set_from_parts indexes (user_param params keys (default [] (hints o))) o
          end
      end
  end.

End setters.

(** ** The layout of a key *)

(** Each part: its length in two bytes, its content, a zero. *)
Definition part_layout (p : bytes) : bytes := be_bytes 2 (blen p) ++ p ++ [0].
Definition layout (ps : list bytes) : bytes := mjoin (part_layout <$> ps).

Definition fits16 (p : bytes) : Prop := blen p < 65536.

#[export] Instance fits16_dec p : Decision (fits16 p).
Proof. unfold fits16. apply _. Defined.

(** The key of a list of encoded partition key columns. *)
Definition routing_key_of (ps : list bytes) : result routing_key :=
  match ps with
  | [p] => Ok (RKBuffer p)
  | _ => if bool_decide (Forall fits16 ps) then Ok (RKBuffer (layout ps)) else out_of_range
  end.

Definition layout_length (ps : list bytes) : Z := blen (layout ps).

Lemma layout_cons p ps : layout (p :: ps) = part_layout p ++ layout ps.
Proof. done. Qed.

Lemma part_layout_length p : blen (part_layout p) = blen p + 3.
Proof. unfold part_layout. rewrite !blen_app, blen_be. unfold blen. simpl length. lia. Qed.

Lemma layout_length_cons p ps : layout_length (p :: ps) = blen p + 3 + layout_length ps.
Proof. unfold layout_length. by rewrite layout_cons, blen_app, part_layout_length. Qed.

Lemma layout_length_pos p ps : 0 < layout_length (p :: ps).
Proof.
  rewrite layout_length_cons. pose proof (blen_nonneg p). pose proof (blen_nonneg (layout ps)).
  unfold layout_length. lia.
Qed.

(** The loop replaces what is left of the buffer, whatever it held, by the layout. *)
Lemma concat_loop_layout ps a r :
  blen r = layout_length ps ->
  concat_loop (EBuffer <$> ps) (a ++ r) (blen a)
  = if bool_decide (Forall fits16 ps) then Ok (a ++ layout ps) else out_of_range.
Proof.
  revert a r. induction ps as [|p ps IH]; intros a r Hr.
  { rewrite bool_decide_true by constructor. cbn. destruct r as [|x r]; [done|].
    unfold layout_length, layout, blen in Hr. simpl in Hr. lia. }
  rewrite layout_length_cons in Hr. pose proof (blen_nonneg p).
  assert (H0 : 0 <= layout_length ps) by apply blen_nonneg.
  destruct (split_at r 2 (blen p + 1 + layout_length ps)) as (old & r1 & -> & Hold & Hr1); [lia..|].
  destruct (split_at r1 (blen p) (1 + layout_length ps)) as (oldp & r2 & -> & Holdp & Hr2); [lia..|].
  destruct r2 as [|z r2]; [unfold blen in Hr2; simpl in Hr2; lia|].
  assert (Hr3 : blen r2 = layout_length ps) by (unfold blen in *; simpl in Hr2; lia).
  cbn [fmap list_fmap concat_loop item_length item_bytes].
  change (list_fmap _ _ EBuffer ps) with (EBuffer <$> ps).
  destruct (Z.ltb_spec (blen p) 65536) as [Hp|Hp].
  - unfold uint16_bytes. rewrite int_bytes_ok, ok_bind by lia.
    rewrite write_at_app, ok_bind by (rewrite blen_be; lia). cbv zeta.
    assert (E2 : blen a + 2 = blen (a ++ be_bytes 2 (blen p))) by (rewrite blen_app, blen_be; lia).
    rewrite E2, app_assoc, copy_into_app by done.
    rewrite <- blen_app, app_assoc, insert_app.
    replace (blen _ + 1) with (blen (((a ++ be_bytes 2 (blen p)) ++ p) ++ [0]))
      by (rewrite (blen_app _ [0]); unfold blen; simpl length; lia).
    change (0 :: r2) with ([0] ++ r2). rewrite app_assoc, IH by done.
    rewrite layout_cons. unfold part_layout. rewrite <- !app_assoc.
    rewrite (bool_decide_ext (Forall fits16 (p :: ps)) (Forall fits16 ps)); [done|].
    split; [by intros [_ ?]%Forall_cons_1|by constructor].
  - rewrite bool_decide_false by (intros [Hf _]%Forall_cons_1; unfold fits16 in Hf; lia).
    unfold uint16_bytes, int_bytes. destruct (Z.ltb_spec 65535 (blen p)); [done|lia].
Qed.

Lemma concatRoutingKey_spec `{Allocator} ps :
  ps <> [] -> concatRoutingKey (EBuffer <$> ps) (layout_length ps) = routing_key_of ps.
Proof.
  intros Hne. destruct ps as [|p ps]; [done|]. pose proof (layout_length_pos p ps) as Hpos.
  unfold concatRoutingKey, routing_key_of. rewrite (proj2 (Z.eqb_neq _ _)) by lia.
  destruct ps as [|q ps]; [done|].
  cbn [fmap list_fmap]. change (EBuffer p :: EBuffer q :: list_fmap _ _ EBuffer ps) with (EBuffer <$> p :: q :: ps).
  change (concat_loop _ ?b 0) with (concat_loop (EBuffer <$> p :: q :: ps) ([] ++ b) (blen [])).
  rewrite concat_loop_layout by (rewrite allocUnsafe_length; lia).
  by case_bool_decide.
Qed.

(** The partition key columns, when every one is given and encodes to bytes. *)
Definition parts_of (indexes : list (option Z)) (encodeParam : Z -> result encoded) : option (list bytes) :=
  mapM (fun i => n ← i; match encodeParam n with Ok (EBuffer b) => Some b | _ => None end) indexes.

Lemma encodeRoutingKeyParts_spec indexes f t :
  match parts_of indexes f with
  | Some ps => encodeRoutingKeyParts indexes f t = Ok (t + layout_length ps, EBuffer <$> ps)
  | None => match encodeRoutingKeyParts indexes f t with Ok (total, _) => total = 0 | Err _ => True end
  end.
Proof.
  revert t. induction indexes as [|[i|] indexes IH]; intros t; [|cbn|done].
  { cbn. do 2 f_equal. unfold layout_length, layout, blen. simpl. lia. }
  destruct (f i) as [[| |b]|]; cbn; try done.
  specialize (IH (t + blen b + 3)). change (mapM _ indexes) with (parts_of indexes f).
  destruct (parts_of indexes f) as [ps|]; cbn.
  - rewrite IH, ok_bind. rewrite layout_length_cons. cbn. do 2 f_equal. lia.
  - by destruct (encodeRoutingKeyParts indexes f (t + blen b + 3)) as [[total parts]|].
Qed.

Lemma set_from_parts_spec `{Allocator} indexes f o :
  set_from_parts indexes f o
  = match parts_of indexes f with
    | None | Some [] => Ok o
    | Some ps => setRoutingKey o <$> routing_key_of ps
    end.
Proof.
  unfold set_from_parts. pose proof (encodeRoutingKeyParts_spec indexes f 0) as Hs.
  destruct (parts_of indexes f) as [[|p ps]|].
  - by rewrite Hs.
  - rewrite Hs, Z.add_0_l. pose proof (layout_length_pos p ps).
    rewrite (proj2 (Z.eqb_neq _ _)) by lia. rewrite concatRoutingKey_spec by done.
    by destruct (routing_key_of (p :: ps)).
  - destruct (encodeRoutingKeyParts indexes f 0) as [[total parts]|]; [|done]. by rewrite Hs.
Qed.

Lemma user_length_spec items t :
  user_length items t
  = (fun ps => t + layout_length ps) <$> mapM (fun x => match x with EBuffer b => Some b | _ => None end) items.
Proof.
  revert t. induction items as [|[| |b] items IH]; intros t; try done.
  { cbn. f_equal. unfold layout_length, layout, blen. simpl. lia. }
  cbn. rewrite IH. destruct (mapM _ items) as [ps|]; cbn; [|done].
  rewrite layout_length_cons. f_equal. lia.
Qed.

Lemma buffers_spec items ps :
  mapM (fun x => match x with EBuffer b => Some b | _ => None end) items = Some ps -> items = EBuffer <$> ps.
Proof.
  revert ps. induction items as [|x items IH]; intros ps; cbn; [by intros [= <-]|].
  destruct x as [| |b]; cbn; try done. destruct (mapM _ items) as [qs|]; cbn; [|done].
  intros [= <-]. cbn. by rewrite (IH qs).
Qed.

(** ** The layout can be read back *)

Lemma part_layout_inj p q x y :
  fits16 p -> fits16 q -> part_layout p ++ x = part_layout q ++ y -> p = q /\ x = y.
Proof.
  unfold part_layout. intros Hp Hq E. rewrite <- !app_assoc in E.
  apply app_inj_1 in E as [El E]; [|by rewrite !be_bytes_length].
  apply (f_equal be_val) in El. rewrite !be_val_bytes in El.
  pose proof (blen_nonneg p). pose proof (blen_nonneg q). unfold fits16 in *.
  rewrite !Z.mod_small in El by (change (256 ^ Z.of_nat 2) with 65536; lia).
  apply app_inj_1 in E as [-> E]; [|unfold blen in El; lia]. by injection E.
Qed.

Lemma layout_inj ps qs : Forall fits16 ps -> Forall fits16 qs -> layout ps = layout qs -> ps = qs.
Proof.
  intros Hps. revert qs. induction Hps as [|p ps Hp Hps IH]; intros [|q qs] Hqs E; try done.
  apply Forall_cons_1 in Hqs as [Hq Hqs]. rewrite !layout_cons in E.
  apply part_layout_inj in E as [-> E]; [|done..]. f_equal. by apply IH.
Qed.

Lemma routing_key_of_inj ps qs k :
  length ps = length qs -> routing_key_of ps = Ok k -> routing_key_of qs = Ok k -> ps = qs.
Proof.
  intros Hl Hp Hq.
  assert (Hc : forall r r' rs, routing_key_of (r :: r' :: rs) = Ok k ->
            Forall fits16 (r :: r' :: rs) /\ k = RKBuffer (layout (r :: r' :: rs))).
  { intros r r' rs Hrs. unfold routing_key_of in Hrs. case_bool_decide; [|done]. injection Hrs as <-. by split. }
  destruct ps as [|p [|p' ps]], qs as [|q [|q' qs]]; try done.
  - injection Hp as <-. by injection Hq as ->.
  - apply Hc in Hp as [Hp Ep], Hq as [Hq Eq]. apply layout_inj; [done..|]. congruence.
Qed.

(** ** Properties *)

Section properties.
Context `{Host, Allocator}.
Variable e : encoder.

(** How [setRoutingKeyFromMeta] encodes the parameter at an index. *)
Definition meta_param (columns : list columnInfo) (params : list jsval) (i : Z) : result encoded :=
  encode e (default JUndefined (nth_Z params i))
    (match nth_Z columns i with Some t => HType t | None => HNone end).

Lemma from_meta_eq columns params o indexes :
  routingIndexes o = Some indexes ->
  setRoutingKeyFromMeta e columns params o
  = match parts_of indexes (meta_param columns params) with
    | None | Some [] => Ok o
    | Some ps => setRoutingKey o <$> routing_key_of ps
    end.
Proof. intros Hi. unfold setRoutingKeyFromMeta. rewrite Hi. apply set_from_parts_spec. Qed.

End properties.

Lemma parts_of_inv indexes f ps :
  parts_of indexes f = Some ps ->
  Forall2 (fun i b => exists n, i = Some n /\ f n = Ok (EBuffer b)) indexes ps.
Proof.
  intros E%mapM_Some_1. eapply Forall2_impl; [|exact E]. intros [n|] b; cbn; [|done].
  destruct (f n) as [[| |b']|] eqn:Ef; try done. intros [= <-]. eauto.
Qed.

(** [setRoutingKeyFromMeta] on every branch.  Without routing indexes, or when an
    index is missing, a partition key column is null, undefined or unset, or its
    encoding throws, the options are left as they were and nothing is thrown.  Otherwise
    the routing key becomes the encoded column when there is one, and the two-byte
    length, content and zero byte of each column in order when there are several; the
    only error is the RangeError of a column of a composite key that takes 65536 bytes
    or more.  What the allocated buffer held before does not matter. *)
Theorem routing_key_from_meta `{Host, Allocator} (e : encoder) columns params o :
  setRoutingKeyFromMeta e columns params o
  = match routingIndexes o with
    | None => Ok o
    | Some indexes =>
        match parts_of indexes (meta_param e columns params) with
        | None | Some [] => Ok o
        | Some [p] => Ok (setRoutingKey o (RKBuffer p))
        | Some ps =>
            if bool_decide (Forall fits16 ps) then Ok (setRoutingKey o (RKBuffer (layout ps)))
            else Err (RangeError "ERR_OUT_OF_RANGE")
        end
    end.
Proof.
  destruct (routingIndexes o) as [indexes|] eqn:Hi; [|by unfold setRoutingKeyFromMeta; rewrite Hi].
  rewrite (from_meta_eq e columns params o indexes Hi).
  destruct (parts_of _ _) as [[|p [|q ps]]|]; try done. unfold routing_key_of. by case_bool_decide.
Qed.

(** A parameter of the routing key has a type and a value of that type. *)
Definition routing_typed (e : encoder) (columns : list columnInfo) (params : list jsval) (i : option Z) : Prop :=
  exists n t v, i = Some n /\ nth_Z columns n = Some t /\ nth_Z params n = Some v /\ typed (options e) t v.

Lemma meta_param_decodes `{Host, !LongLaws} e columns params n t v b :
  nth_Z columns n = Some t -> nth_Z params n = Some v -> typed (options e) t v ->
  meta_param e columns params n = Ok (EBuffer b) -> blen b < 2 ^ 31 -> decode e (Some b) t = Ok v.
Proof.
  intros Ht Hv Hty Hm Hb. unfold meta_param in Hm. rewrite Ht, Hv in Hm. cbn in Hm.
  destruct (typed_encodes e t v Hty) as [_ He]. rewrite Hm in He.
  destruct He as (b' & E & _ & _ & Hd). injection E as <-. by apply Hd.
Qed.

Lemma routing_values_inj `{Host, !LongLaws} e columns params1 params2 indexes ps :
  Forall (routing_typed e columns params1) indexes ->
  Forall (routing_typed e columns params2) indexes ->
  Forall (fun p => blen p < 2 ^ 31) ps ->
  parts_of indexes (meta_param e columns params1) = Some ps ->
  parts_of indexes (meta_param e columns params2) = Some ps ->
  forall n, Some n ∈ indexes -> nth_Z params1 n = nth_Z params2 n.
Proof.
  intros H1 H2 Hps E1%parts_of_inv E2%parts_of_inv n Hn.
  apply list_elem_of_lookup in Hn as [k Hk].
  destruct (Forall2_lookup_l _ _ _ _ _ E1 Hk) as (b & Hb & n1 & [= <-] & F1).
  destruct (Forall2_lookup_l _ _ _ _ _ E2 Hk) as (b' & Hb' & n2 & [= <-] & F2).
  rewrite Hb in Hb'. injection Hb' as <-.
  apply (Forall_lookup_1 _ _ _ _ H1) in Hk as T1.
  apply (Forall_lookup_1 _ _ _ _ H2) in Hk as T2.
  apply (Forall_lookup_1 _ _ _ _ Hps) in Hb as Hl.
  destruct T1 as (n1 & t & v & [= <-] & Ht & Hv & Hty).
  destruct T2 as (n2 & t2 & v2 & [= <-] & Ht2 & Hv2 & Hty2).
  rewrite Ht in Ht2. injection Ht2 as <-.
  pose proof (meta_param_decodes e columns params1 n t v b Ht Hv Hty F1 Hl) as D1.
  pose proof (meta_param_decodes e columns params2 n t v2 b Ht Hv2 Hty2 F2 Hl) as D2.
  rewrite Hv, Hv2. congruence.
Qed.

(** The bytes of each column of a key are no longer than the key. *)
Lemma routing_key_of_bound ps b :
  routing_key_of ps = Ok (RKBuffer b) -> Forall (fun p => blen p <= blen b) ps.
Proof.
  intros Hk. destruct ps as [|p [|q ps]]; [constructor| |].
  { injection Hk as ->. apply Forall_cons_2; [lia|apply Forall_nil_2]. }
  unfold routing_key_of in Hk. case_bool_decide; [|done]. injection Hk as <-.
  generalize (p :: q :: ps). intros l. induction l as [|x l IH]; [constructor|].
  pose proof (layout_length_cons x l) as E. unfold layout_length in E.
  pose proof (blen_nonneg (layout l)). pose proof (blen_nonneg x).
  apply Forall_cons_2; [lia|]. eapply Forall_impl; [|exact IH]. cbv beta. lia.
Qed.

Lemma parts_of_length indexes f ps : parts_of indexes f = Some ps -> length ps = length indexes.
Proof. intros E%parts_of_inv. by rewrite (Forall2_length E). Qed.

Lemma from_meta_parts `{Host, Allocator} e columns params o indexes b :
  routingIndexes o = Some indexes -> routingKey o = RKUndefined ->
  setRoutingKeyFromMeta e columns params o = Ok (setRoutingKey o (RKBuffer b)) ->
  exists ps, parts_of indexes (meta_param e columns params) = Some ps /\ routing_key_of ps = Ok (RKBuffer b).
Proof.
  intros Hi Hk. rewrite (from_meta_eq e columns params o indexes Hi).
  assert (Ho : Ok o <> Ok (setRoutingKey o (RKBuffer b))).
  { intros E. assert (E' : o = setRoutingKey o (RKBuffer b)) by congruence. by rewrite E' in Hk. }
  destruct (parts_of _ _) as [[|p ps]|]; [done| |done].
  intros E. exists (p :: ps). split; [done|].
  destruct (routing_key_of (p :: ps)) as [k|]; [|done]. by injection E as ->.
Qed.

(** C4. The routing key determines the partition key: when two executions of a prepared
    statement, whose partition key parameters are values of their columns' types, get
    the same routing key, they have the same partition key parameters.  (So the token
    the key is hashed to is a function of the partition key and no two partition keys
    are confused before hashing.)  It rests on the round trip of the encoder and on the
    unambiguity of the composite layout. *)
Theorem routing_key_determines_values `{Host, !LongLaws, Allocator} (e : encoder) columns params1 params2 o indexes b :
  routingIndexes o = Some indexes -> routingKey o = RKUndefined ->
  Forall (routing_typed e columns params1) indexes ->
  Forall (routing_typed e columns params2) indexes ->
  blen b < 2 ^ 31 ->
  setRoutingKeyFromMeta e columns params1 o = Ok (setRoutingKey o (RKBuffer b)) ->
  setRoutingKeyFromMeta e columns params2 o = Ok (setRoutingKey o (RKBuffer b)) ->
  forall n, Some n ∈ indexes -> nth_Z params1 n = nth_Z params2 n.
Proof.
  intros Hi Hk T1 T2 Hb E1 E2.
  destruct (from_meta_parts e columns params1 o indexes b Hi Hk E1) as (ps & P1 & K1).
  destruct (from_meta_parts e columns params2 o indexes b Hi Hk E2) as (qs & P2 & K2).
  assert (ps = qs) as <-.
  { eapply routing_key_of_inj; [|exact K1|exact K2].
    by rewrite (parts_of_length _ _ _ P1), (parts_of_length _ _ _ P2). }
  eapply routing_values_inj; [exact T1|exact T2| |exact P1|exact P2].
  eapply Forall_impl; [|by apply routing_key_of_bound]. cbv beta. lia.
Qed.

(** [setRoutingKeyFromUser] with a key of the user: an array of Buffers becomes the
    single Buffer or the composite layout, an absent item clears the key, and a value
    that is no key is refused with a TypeError; the parameters are not looked at. *)
Theorem routing_key_from_user `{Host, Allocator} (e : encoder) params keys o :
  match routingKey o with
  | RKArray items =>
      setRoutingKeyFromUser e params o keys
      = match mapM (fun x => match x with EBuffer b => Some b | _ => None end) items with
        | Some [] => Ok (setRoutingKey o RKNull)
        | Some ps => setRoutingKey o <$> routing_key_of ps
        | None => Ok (setRoutingKey o match items with [item] => key_of item | _ => RKNull end)
        end
  | RKBuffer _ | RKToken => setRoutingKeyFromUser e params o keys = Ok o
  | RKOther => is_ok (setRoutingKeyFromUser e params o keys) = false
  | RKUndefined | RKNull => True
  end.
Proof.
  unfold setRoutingKeyFromUser. destruct (routingKey o) as [| |b|items| |]; try done.
  pose proof (buffers_spec items) as Hbs. pose proof (user_length_spec items 0) as Hl.
  destruct (mapM _ items) as [ps|] eqn:E; cbn in Hl.
  - specialize (Hbs ps eq_refl). destruct ps as [|p [|q ps]].
    + subst items. done.
    + by subst items.
    + subst items. rewrite Hl, Z.add_0_l.
      pose proof (concatRoutingKey_spec (p :: q :: ps)) as Hc. cbn [fmap list_fmap] in Hc |- *.
      rewrite Hc by done. by destruct (routing_key_of (p :: q :: ps)).
  - destruct items as [|x [|y items]]; [done| |by rewrite Hl]. done.
Qed.

(** Two executions that differ in a parameter outside the partition key. *)
Definition sample_columns : list columnInfo := [simple dataTypes.int; simple dataTypes.text; simple dataTypes.int].
Definition sample_params (x : Z) : list jsval := [JNumber (num_of_Z 5); JString (js "ab"); JNumber (num_of_Z x)].
Definition sample_options : execOptions := mkExec RKUndefined (Some [Some 1; Some 0]) None None.

Lemma sample_routing_typed x :
  Forall (routing_typed sample_encoder sample_columns (sample_params x)) [Some 1; Some 0].
Proof.
  apply Forall_cons_2; [|apply Forall_cons_2; [|apply Forall_nil_2]].
  - exists 1, (simple dataTypes.text), (JString (js "ab")). split_and!; [done..|]. left. by apply sc_text.
  - exists 0, (simple dataTypes.int), (JNumber (num_of_Z 5)). split_and!; [done..|].
    left. apply sc_int. unfold int32. lia.
Qed.

Lemma routing_key_determines_values_witness :
  exists b, setRoutingKeyFromMeta sample_encoder sample_columns (sample_params 1) sample_options
            = Ok (setRoutingKey sample_options (RKBuffer b)) /\
  nth_Z (sample_params 1) 0 = nth_Z (sample_params 2) 0.
Proof.
  eexists. split; [vm_compute; reflexivity|].
  eapply (routing_key_determines_values sample_encoder sample_columns (sample_params 1) (sample_params 2)
            sample_options [Some 1; Some 0]).
  - reflexivity.
  - reflexivity.
  - apply sample_routing_typed.
  - apply sample_routing_typed.
  - shelve.
  - vm_compute. reflexivity.
  - vm_compute. reflexivity.
  - apply list_elem_of_further, list_elem_of_here.
  Unshelve. vm_compute. reflexivity.
Defined.
