(* ===== verification/Results.v ===== *)
(** * Results

    What the driver makes of the pages the Rust layer hands over: the conversion of the
    column types (lib/types/cql-utils.ts), the parameters of a request (the same file),
    the rows (lib/types/row.js, lib/types/results-wrapper.js) and the result set with
    its asynchronous iteration over the pages (lib/types/result-set.js).

    The objects of the Rust layer are records of what the JavaScript code reads of them. *)

From S2P Require Import Prelude JsNumber Buffer JsString Utf8 ProtocolVersion ValueTypes.
From S2P Require Import CqlTypes Frame JsValue Encoder EncoderScalars EncoderProofs.

(** ** Column types from the Rust layer *)

Definition CqlType_Vector : Z := 0x10001.

(** ComplexType: the base type and the properties that go with it; an absent one is
    none.  Each field of a user defined type has its name. *)
Local Unset Elimination Schemes.
Inductive complexType : Type :=
| mkComplex (baseType : Z) (subtype1 subtype2 : option complexType)
    (subtypes : option (list complexType))
    (udt_name udt_keyspace : jsstr) (udt_fields : option (list (jsstr * complexType)))
    (dimensions : Z) (is_frozen : bool).
Local Set Elimination Schemes.

Definition conversion_error {A} : result A := Err (PlainError "Error converting ComplexType").

(** The catch clause wraps every error in another one. *)
Fixpoint convertComplexType (type : complexType) : result columnInfo :=
  match type with
  | mkComplex baseType subtype1 subtype2 subtypes name keyspace udt dimensions fz =>
      let opts := Some (mkOptions fz false) in
      if (baseType =? dataTypes.list) || (baseType =? dataTypes.set) then
        match subtype1 with
        | Some s => t ← convertComplexType s; Ok (CI baseType (TypeInfo t) opts)
        | None => conversion_error
        end
      else if baseType =? dataTypes.map then
        match subtype1, subtype2 with
        | Some s1, Some s2 =>
            t1 ← convertComplexType s1; t2 ← convertComplexType s2;
            Ok (CI baseType (TypesInfo [t1; t2]) opts)
        | _, _ => conversion_error
        end
      else if baseType =? CqlType_Vector then
        match subtype1 with
        | Some s => t ← convertComplexType s; Ok (CI dataTypes.custom (VectorInfo t (num_of_Z dimensions)) None)
        | None => conversion_error
        end
      else if baseType =? dataTypes.udt then
        match udt with
        | Some fields =>
            fs ← traverse (fun f => t ← convertComplexType (snd f); Ok (fst f, t)) fields;
            Ok (CI baseType (UdtInfo keyspace name fs) opts)
        | None => conversion_error
        end
      else if baseType =? dataTypes.tuple then
        match subtypes with
        | Some l => ts ← traverse (fun s => convertComplexType s) l; Ok (CI baseType (TypesInfo ts) None)
        | None => conversion_error
        end
      else Ok (CI baseType NoInfo None)
  end.

(** ** Parameters *)

Section params.
Context `{Host}.
Variable e : encoder.

(** The loop over the parameters; a parameter beyond the types has none. *)
Fixpoint encodeParams_loop (expectedTypes : list (option columnInfo)) (params : list jsval)
    : result (list encoded) :=
  match params with
  | [] => Ok []
  | p :: params =>
      tmp ← encode e p (match expectedTypes with Some t :: _ => HType t | _ => HNone end);
      res ← encodeParams_loop (tail expectedTypes) params;
      Ok (tmp :: res)
  end.

Definition encodeParams (expectedTypes : list (option columnInfo)) (params : option (list jsval))
    : result (list encoded) :=
  match expectedTypes, params with
  | [], None => Ok []
  | _, None => not_object
  | _, Some params => encodeParams_loop expectedTypes params
  end.

End params.

(** ** Rows *)

Module Row.

Record t : Type := mk { columns : list jsstr; fields : list (jsstr * jsval) }.

(** [get(columnName)] with a name and with an index; a name that is not a column reads
    undefined, the inherited properties of objects aside *)
Definition get (r : t) (columnName : jsstr) : jsval :=
  default JUndefined (lookup_prop columnName (fields r)).

Definition get_index (r : t) (i : nat) : result jsval :=
  match columns r !! i with
  | Some columnName => Ok (get r columnName)
  | None => not_object
  end.

Definition values (r : t) : list jsval := snd <$> fields r.
Definition keys (r : t) : list jsstr := fst <$> fields r.

End Row.

Record resultWrapper : Type := mkWrapper {
  getRows : option (bytes * nat);
  getColumnsNames : list jsstr;
  getColumnsTypes : list complexType }.

Definition getRowsFromResultsWrapper `{Host} (e : encoder) (w : resultWrapper) : result (option (list Row.t)) :=
  match getRows w with
  | None => Ok None
  | Some (rawPage, rowLength) =>
      let colNames := getColumnsNames w in
      types ← traverse convertComplexType (getColumnsTypes w);
      rows ← decodeRows e rawPage rowLength (zip colNames types);
      Ok (Some (List.map (Row.mk colNames) rows))
  end.

(** ** ResultSet *)

Module ResultSet.

(** [rawNextPageAsync] fetches the page after a page state: the next page state and the
    page. *)
Record t : Type := mk {
  rows : option (list Row.t);
  rowLength : nat;
  pageState : option jsstr;
  rawPageState : option bytes;
  rawNextPageAsync : option (bytes -> result (option bytes * resultWrapper)) }.

Definition constructor `{Host} (e : encoder) (w : resultWrapper) (pagingState : option bytes) : result t :=
  rows ← getRowsFromResultsWrapper e w;
  Ok (mk rows (match rows with Some l => length l | None => 0%nat end)
        (hex_encode <$> pagingState) pagingState None).

Definition first (rs : t) : option Row.t :=
  match rows rs with Some (r :: _) => Some r | _ => None end.

Definition wasApplied (rs : t) : bool :=
  match rows rs with
  | Some (firstRow :: _) =>
      match Row.get firstRow (js "[applied]") with JBool applied => applied | _ => true end
  | _ => true
  end.

Definition iterator (rs : t) : list Row.t := default [] (rows rs).

Definition isPaged (rs : t) : bool := match rawPageState rs with Some _ => true | None => false end.

(** The variables the asynchronous iterator closes over. *)
Record iter : Type := mkIter { it_index : nat; it_pageState : option bytes; it_rows : option (list Row.t) }.

(** None: the iterator that is always done. *)
Definition asyncIterator (rs : t) : option iter :=
  match rows rs with
  | None | Some [] => None
  | Some rows => Some (mkIter 0 (rawPageState rs) (Some rows))
  end.

(** [index < rows.length] and what follows. *)
Definition yield_row (it : iter) : result (option Row.t * iter) :=
  match it_rows it with
  | None => not_object
  | Some rows =>
      match rows !! it_index it with
      | Some r => Ok (Some r, mkIter (S (it_index it)) (it_pageState it) (it_rows it))
      | None => Ok (None, it)
      end
  end.

(** One call of [next]; none is [{ done: true }]. *)
Definition next `{Host} (e : encoder) (rs : t) (it : iter) : result (option Row.t * iter) :=
  match it_rows it with
  | None => not_object
  | Some rows =>
      match it_pageState it with
      | Some ps =>
          if (length rows <=? it_index it)%nat then
            match rawNextPageAsync rs with
            | None => Err (DriverInternalError "Property rawNextPageAsync should be set when pageState is defined")
            | Some fetch =>
                '(ps', w) ← fetch ps;
                rows' ← getRowsFromResultsWrapper e w;
                yield_row (mkIter 0 ps' rows')
            end
          else yield_row it
      | None => yield_row it
      end
  end.

(** [for await (const row of rs)]: the rows received until the iterator is done. *)
Fixpoint drain `{Host} (fuel : nat) (e : encoder) (rs : t) (it : iter) : result (list Row.t) :=
  match fuel with
  | O => Err (PlainError "fuel")
  | S fuel =>
      '(r, it) ← next e rs it;
      match r with
      | None => Ok []
      | Some r => l ← drain fuel e rs it; Ok (r :: l)
      end
  end.

Definition for_await `{Host} (fuel : nat) (e : encoder) (rs : t) : result (list Row.t) :=
  match asyncIterator rs with None => Ok [] | Some it => drain fuel e rs it end.

End ResultSet.

(** ** Types: the conversion is the inverse of the description *)

(** The object the Rust layer describes a type with. *)
Fixpoint complex_of (t : columnInfo) : complexType :=
  match t with
  | CI code info opts =>
      let fz := match opts with Some o => frozen o | None => false end in
      match info with
      | NoInfo | StrInfo _ => mkComplex code None None None [] [] None 0 fz
      | TypeInfo t => mkComplex code (Some (complex_of t)) None None [] [] None 0 fz
      | TypesInfo ts =>
          if code =? dataTypes.map then
            mkComplex code (match ts with t :: _ => Some (complex_of t) | [] => None end)
              (match ts with _ :: t :: _ => Some (complex_of t) | _ => None end) None [] [] None 0 fz
          else mkComplex code None None (Some ((fun t => complex_of t) <$> ts)) [] [] None 0 fz
      | UdtInfo ks name fields =>
          mkComplex code None None None name ks (Some ((fun f => (fst f, complex_of (snd f))) <$> fields)) 0 fz
      | VectorInfo t dim =>
          mkComplex CqlType_Vector (Some (complex_of t)) None None [] [] None (num_trunc dim) fz
      end
  end.

Definition is_compound (code : Z) : bool :=
  (code =? dataTypes.list) || (code =? dataTypes.set) || (code =? dataTypes.map) ||
  (code =? CqlType_Vector) || (code =? dataTypes.udt) || (code =? dataTypes.tuple).

(** The descriptions the conversion can produce: the options record whether a type is
    frozen, for collections and user defined types only. *)
Fixpoint described (t : columnInfo) : Prop :=
  match t with
  | CI code info opts =>
      match info with
      | NoInfo => is_compound code = false /\ opts = None
      | TypeInfo t => (code = dataTypes.list \/ code = dataTypes.set) /\ (exists f, opts = Some (mkOptions f false)) /\ described t
      | TypesInfo ts =>
          (code = dataTypes.map /\ length ts = 2%nat /\ (exists f, opts = Some (mkOptions f false)) \/
           code = dataTypes.tuple /\ opts = None) /\ foldr and True (described <$> ts)
      | UdtInfo _ _ fields =>
          code = dataTypes.udt /\ (exists f, opts = Some (mkOptions f false)) /\
          foldr and True ((fun f => described (snd f)) <$> fields)
      | StrInfo _ => False
      | VectorInfo t dim => code = dataTypes.custom /\ (exists d, safe_int d /\ dim = num_of_Z d) /\ opts = None /\ described t
      end
  end.

Lemma traverse_id {A B} (f : A -> result B) (g : B -> A) (P : B -> Prop) l :
  Forall (fun x => P x -> f (g x) = Ok x) l -> foldr and True (P <$> l) -> traverse f (g <$> l) = Ok l.
Proof.
  induction 1 as [|x l Hx Hl IH]; [done|]. cbn. intros [Hp Hr]. change (list_fmap _ _ ?f l) with (f <$> l).
  rewrite (Hx Hp), ok_bind, (IH Hr). done.
Qed.

Lemma convert_described t : described t -> convertComplexType (complex_of t) = Ok t.
Proof.
  induction t as [code info opts IH] using columnInfo_all_ind.
  destruct info as [|t|ts|ks name fields|s|t dim]; cbn [cinfo_all] in IH; cbn [described complex_of].
  - intros [Hc ->]. unfold is_compound in Hc. repeat apply orb_false_elim in Hc as [Hc ?].
    cbn [convertComplexType]. by repeat match goal with H : (code =? _) = false |- _ => rewrite H end.
  - intros (Hc & [f ->] & Ht). cbn [convertComplexType frozen]. rewrite (IH Ht), ok_bind. by destruct Hc as [-> | ->].
  - intros [[(-> & Hl & [f ->])|(-> & ->)] Hts].
    + destruct ts as [|t1 [|t2 []]]; try done. cbn in Hts. destruct Hts as (H1 & H2 & _).
      apply Forall_cons_1 in IH as [IH1 IH]. apply Forall_cons_1 in IH as [IH2 _].
      cbn. by rewrite (IH1 H1), ok_bind, (IH2 H2).
    + change (convertComplexType _) with (ts' ← traverse (fun s => convertComplexType s) ((fun t => complex_of t) <$> ts);
        Ok (CI dataTypes.tuple (TypesInfo ts') None)).
      by rewrite (traverse_id _ complex_of described).
  - intros (-> & [f ->] & Hf).
    change (convertComplexType _) with
      (fs ← traverse (fun f => t ← convertComplexType (snd f); Ok (fst f, t)) ((fun f => (fst f, complex_of (snd f))) <$> fields);
        Ok (CI dataTypes.udt (UdtInfo ks name fs) (Some (mkOptions f false)))).
    rewrite (traverse_id _ (fun f => (fst f, complex_of (snd f))) (fun f => described (snd f))); [done| |done].
    eapply Forall_impl; [|exact IH]. intros [n t] Ht Hd. cbn in *. by rewrite (Ht Hd).
  - done.
  - intros (-> & (d & Hd & ->) & -> & Ht). rewrite (num_trunc_of_Z d Hd). cbn. by rewrite (IH Ht).
Qed.

(** [convertComplexType] is the inverse of the description of types on the Rust
    side: every type made of simple types, lists, sets, maps, tuples, vectors and user
    defined types, nested to any depth, is converted to its column info, with the order
    of components, the field names and the frozen flags. *)
Theorem convertComplexType_complex_of t : described t -> convertComplexType (complex_of t) = Ok t.
Proof. apply convert_described. Qed.

Lemma convertComplexType_complex_of_witness :
  convertComplexType (complex_of
    (CI dataTypes.map (TypesInfo [simple dataTypes.text;
       CI dataTypes.list (TypeInfo (CI dataTypes.udt (UdtInfo (js "ks") (js "u") [(js "f", simple dataTypes.int)])
         (Some (mkOptions true false)))) (Some (mkOptions false false))]) (Some (mkOptions false false))))
  = Ok (CI dataTypes.map (TypesInfo [simple dataTypes.text;
       CI dataTypes.list (TypeInfo (CI dataTypes.udt (UdtInfo (js "ks") (js "u") [(js "f", simple dataTypes.int)])
         (Some (mkOptions true false)))) (Some (mkOptions false false))]) (Some (mkOptions false false))).
Proof.
  apply convertComplexType_complex_of. cbn. split; [left; split; [done|]; split; [done|]; by eexists|].
  repeat split; try done; try (by left); try (by eexists).
Defined.

(** ** Pages of rows *)

Section pages.
Context `{Host, !LongLaws}.
Variable e : encoder.

(** The cell of a value at its column's type: a null, or the encoded value. *)
Definition cell_of (t : columnInfo) (v : jsval) (c : option bytes) : Prop :=
  (v = JNull /\ c = None) \/
  (typed (options e) t v /\ exists b, encode e v (HType t) = Ok (EBuffer b) /\ blen b < 2 ^ 31 /\ c = Some b).

(** The bytes of a page: the cells of its rows, in order. *)
Definition row_bytes (cs : list (option bytes)) : bytes := mjoin (FrameReader.cell <$> cs).
Definition page_bytes (rows : list (list (option bytes))) : bytes := mjoin (row_bytes <$> rows).

(** The object a row of values becomes. *)
Definition row_object (columns : list (jsstr * columnInfo)) (vs : list jsval) (acc : list (jsstr * jsval))
    : list (jsstr * jsval) :=
  fold_left (fun m kv => set_prop (fst kv) (snd kv) m) (zip (fst <$> columns) vs) acc.

Lemma cell_decodes t v c : cell_of t v c -> FrameReader.cell_ok c /\ decode e c t = Ok v.
Proof.
  intros [[-> ->]|(Ht & b & He & Hb & ->)]; [done|]. split; [done|].
  destruct (typed_encodes e t v Ht) as [_ Hv]. rewrite He in Hv.
  destruct Hv as (b' & E & _ & _ & Hd). injection E as <-. by apply Hd.
Qed.

Lemma decodeRow_cells columns vs cs a rest acc :
  Forall3 (fun col v c => cell_of (snd col) v c) columns vs cs ->
  decodeRow e columns (FrameReader.mk (blen a) (a ++ row_bytes cs ++ rest)) acc
  = Ok (row_object columns vs acc,
        FrameReader.mk (blen (a ++ row_bytes cs)) (a ++ row_bytes cs ++ rest)).
Proof.
  intros HF. revert a acc. induction HF as [|[name t] v c columns vs cs Hc HF IH]; intros a acc.
  { unfold row_bytes. cbn. by rewrite app_nil_r. }
  destruct (cell_decodes t v c Hc) as [Hok Hd].
  cbn [decodeRow]. change (row_bytes (c :: cs)) with (FrameReader.cell c ++ row_bytes cs).
  rewrite <- app_assoc, FrameReader.readBytes_cell, ok_bind by done. rewrite Hd, ok_bind.
  rewrite app_assoc. rewrite IH. unfold row_object. cbn [fmap list_fmap zip zip_with fold_left fst snd].
  by rewrite <- !app_assoc.
Qed.

Lemma decodeRows_loop_cells columns rows cells a :
  Forall2 (fun vs cs => Forall3 (fun col v c => cell_of (snd col) v c) columns vs cs) rows cells ->
  decodeRows_loop e (length rows) columns (FrameReader.mk (blen a) (a ++ page_bytes cells))
  = Ok (List.map (fun vs => row_object columns vs []) rows).
Proof.
  intros HF. revert a. induction HF as [|vs cs rows cells Hr HF IH]; intros a; [done|].
  cbn [length decodeRows_loop]. change (page_bytes (cs :: cells)) with (row_bytes cs ++ page_bytes cells).
  rewrite (decodeRow_cells columns vs cs a (page_bytes cells) [] Hr), ok_bind.
  rewrite app_assoc, IH, ok_bind. done.
Qed.

End pages.

(** A wrapper of the Rust layer whose page holds the cells of the given rows. *)
Definition page_wrapper (names : list jsstr) (types : list columnInfo) (n : nat)
    (cells : list (list (option bytes))) : resultWrapper :=
  mkWrapper (Some (page_bytes cells, n)) names (List.map complex_of types).

Lemma fst_zip_eq {A B} (l : list A) (k : list B) : length l = length k -> fst <$> zip l k = l.
Proof.
  revert k. induction l as [|x l IH]; intros [|y k] Hl; try done. cbn. f_equal. apply IH. by injection Hl.
Qed.

Lemma rev_reverse {A} (l : list A) : rev l = reverse l.
Proof. apply rev_alt. Qed.

Lemma row_object_get columns vs j name v :
  NoDup (fst <$> columns) -> proto ∉ fst <$> columns -> length vs = length columns ->
  (fst <$> columns) !! j = Some name -> vs !! j = Some v ->
  lookup_prop name (row_object columns vs []) = Some v.
Proof.
  intros Hnd Hp Hl Hn Hv. unfold row_object.
  rewrite lookup_set_props by (rewrite fst_zip_eq; [done|rewrite length_fmap; lia]).
  assert (E : lookup_prop name (rev (zip (fst <$> columns) vs)) = Some v); [|by rewrite E].
  apply lookup_prop_elem.
  - change (fst <$> rev ?l) with (List.map fst (rev l)). rewrite List.map_rev.
    change (List.map fst ?l) with (fst <$> l). rewrite fst_zip_eq by (rewrite length_fmap; lia).
    by apply NoDup_ListNoDup, List.NoDup_rev, NoDup_ListNoDup.
  - rewrite rev_reverse. apply elem_of_reverse, list_elem_of_lookup. exists j.
    rewrite lookup_zip_with, Hn. cbn. by rewrite Hv.
Qed.

Lemma traverse_complex types :
  Forall described types -> traverse convertComplexType (List.map complex_of types) = Ok types.
Proof.
  induction 1 as [|t types Ht Hts IH]; [done|]. cbn. rewrite IH.
  by rewrite (convert_described t Ht).
Qed.

(** C3. A page of results is decoded to the rows that were encoded: when the cells of
    the page are nulls and encodings of values of their columns' types, the Rust
    layer's description of the columns together with the page gives one row per
    encoded row, and each value is found both by the name of its column and by its
    position.  The column names differ and none is __proto__.  It composes the conversion of the types, the frame reader, the decoder
    and the construction of row objects. *)
Theorem getRows_page `{Host, !LongLaws} (e : encoder) names types rows cells :
  NoDup names -> proto ∉ names -> length names = length types -> Forall described types ->
  Forall2 (fun vs cs => Forall3 (fun col v c => cell_of e (snd col) v c) (zip names types) vs cs) rows cells ->
  exists rs, getRowsFromResultsWrapper e (page_wrapper names types (length rows) cells) = Ok (Some rs) /\
    Forall2 (fun vs r => forall j name v, names !! j = Some name -> vs !! j = Some v ->
      Row.get r name = v /\ Row.get_index r j = Ok v) rows rs.
Proof.
  intros Hnd Hp Hl Hd HF. unfold getRowsFromResultsWrapper, page_wrapper. cbn [getRows getColumnsTypes getColumnsNames].
  rewrite traverse_complex, ok_bind by done. unfold decodeRows, FrameReader.constructor.
  change (FrameReader.mk 0 (page_bytes cells)) with (FrameReader.mk (blen []) ([] ++ page_bytes cells)).
  rewrite (decodeRows_loop_cells e (zip names types) rows cells [] HF), ok_bind.
  eexists. split; [done|]. rewrite List.map_map.
  induction HF as [|vs cs rows cells Hr HF IH]; [constructor|]. cbn [List.map]. constructor; [|done].
  intros j name v Hn Hv.
  assert (Hg : Row.get (Row.mk names (row_object (zip names types) vs [])) name = v).
  { unfold Row.get. cbn [Row.fields]. rewrite (row_object_get _ vs j name v); [done|..];
      rewrite ?fst_zip_eq by done; try done.
    symmetry. exact (Forall3_length_lm _ _ _ _ Hr). }
  split; [done|]. unfold Row.get_index. cbn [Row.columns]. by rewrite Hn, Hg.
Qed.

Lemma getRows_page_witness :
  exists rs, getRowsFromResultsWrapper sample_encoder
    (page_wrapper [js "a"; js "b"] [simple dataTypes.int; simple dataTypes.text] 2
       [[Some [0;0;0;5]; Some [104;105]]; [None; Some []]]) = Ok (Some rs) /\ length rs = 2%nat.
Proof.
  destruct (getRows_page sample_encoder [js "a"; js "b"] [simple dataTypes.int; simple dataTypes.text]
    [[JNumber (num_of_Z 5); JString (js "hi")]; [JNull; JString []]]
    [[Some [0;0;0;5]; Some [104;105]]; [None; Some []]]) as (rs & Hrs & HF).
  - vm_compute. repeat constructor; intros Hin; repeat (inversion Hin as [|? ? ? Hin']; subst; clear Hin; rename Hin' into Hin).
  - by apply (bool_decide_eq_true_1 (proto ∉ [js "a"; js "b"])).
  - reflexivity.
  - repeat constructor.
  - repeat match goal with |- Forall2 _ _ _ => constructor | |- Forall3 _ _ _ _ => constructor end; cbn [snd zip zip_with].
    + right. split; [left; apply sc_int; unfold int32; lia|]. exists [0;0;0;5]. split; [vm_compute; reflexivity|by split].
    + right. split; [left; by apply sc_text|]. exists [104;105]. split; [vm_compute; reflexivity|by split].
    + by left.
    + right. split; [left; by apply sc_text|]. exists []. split; [vm_compute; reflexivity|by split].
  - exists rs. split; [exact Hrs|]. by rewrite <- (Forall2_length HF).
Defined.

(** ** Asynchronous iteration *)

Section iteration.
Context `{Host}.
Variable e : encoder.
Variable rs : ResultSet.t.

(** The pages the server holds after a page state, in order, none of them undefined. *)
Inductive pages_after (fetch : bytes -> result (option bytes * resultWrapper))
    : option bytes -> list (list Row.t) -> Prop :=
| pages_end : pages_after fetch None []
| pages_next ps ps' w page pages :
    fetch ps = Ok (ps', w) -> getRowsFromResultsWrapper e w = Ok (Some page) ->
    pages_after fetch ps' pages -> pages_after fetch (Some ps) (page :: pages).

(** The pages before the first empty one. *)
Fixpoint until_empty (pages : list (list Row.t)) : list (list Row.t) :=
  match pages with
  | [] | [] :: _ => []
  | page :: pages => page :: until_empty pages
  end.

(** What is left of the page at hand, then the pages up to the first empty one. *)
Definition remaining (it : ResultSet.iter) (rows : list Row.t) (pages : list (list Row.t)) : list Row.t :=
  drop (ResultSet.it_index it) rows ++ mjoin (until_empty pages).

Lemma next_in_page it rows r :
  ResultSet.it_rows it = Some rows -> rows !! ResultSet.it_index it = Some r ->
  ResultSet.next e rs it
  = Ok (Some r, ResultSet.mkIter (S (ResultSet.it_index it)) (ResultSet.it_pageState it) (Some rows)).
Proof.
  intros Hr Hi. unfold ResultSet.next, ResultSet.yield_row. rewrite Hr, Hi.
  apply lookup_lt_Some in Hi. destruct (ResultSet.it_pageState it); [|done].
  by rewrite (proj2 (Nat.leb_gt _ _)).
Qed.

Lemma next_at_end it rows fetch pages :
  ResultSet.it_rows it = Some rows -> (length rows <= ResultSet.it_index it)%nat ->
  ResultSet.rawNextPageAsync rs = Some fetch ->
  pages_after fetch (ResultSet.it_pageState it) pages ->
  match pages with
  | [] | [] :: _ => exists it', ResultSet.next e rs it = Ok (None, it')
  | (r :: page) :: pages' => exists ps, pages_after fetch ps pages' /\
      ResultSet.next e rs it = Ok (Some r, ResultSet.mkIter 1 ps (Some (r :: page)))
  end.
Proof.
  intros Hr Hi Hf Hp. unfold ResultSet.next, ResultSet.yield_row. rewrite Hr, Hf.
  inversion Hp as [E|ps ps' w page pages' Hw Hg Hp' E]; subst.
  - rewrite lookup_ge_None_2 by done. eauto.
  - rewrite (proj2 (Nat.leb_le _ _)) by done. rewrite Hw, ok_bind, Hg, ok_bind. cbn.
    destruct page as [|r page]; cbn; eauto.
Qed.

Lemma drain_spec fetch : ResultSet.rawNextPageAsync rs = Some fetch ->
  forall fuel it rows pages,
  ResultSet.it_rows it = Some rows -> pages_after fetch (ResultSet.it_pageState it) pages ->
  (length (remaining it rows pages) < fuel)%nat ->
  ResultSet.drain fuel e rs it = Ok (remaining it rows pages).
Proof.
  intros Hf. induction fuel as [|fuel IH]; intros it rows pages Hr Hp Hfuel; [lia|].
  cbn [ResultSet.drain]. destruct (rows !! ResultSet.it_index it) as [r|] eqn:Hi.
  - rewrite (next_in_page it rows r Hr Hi), ok_bind.
    assert (E : remaining it rows pages = r :: remaining
      (ResultSet.mkIter (S (ResultSet.it_index it)) (ResultSet.it_pageState it) (Some rows)) rows pages).
    { unfold remaining. cbn [ResultSet.it_index]. by rewrite (drop_S _ _ _ Hi). }
    rewrite E in *. cbn [length] in Hfuel. rewrite (IH _ rows pages); [done..|lia].
  - apply lookup_ge_None in Hi. pose proof (next_at_end it rows fetch pages Hr Hi Hf Hp) as Hn.
    unfold remaining in *. rewrite drop_ge in * by done. cbn [app] in *.
    destruct pages as [|[|r page] pages]; [by destruct Hn as [it' ->]..|].
    destruct Hn as (ps & Hps & ->). rewrite ok_bind.
    rewrite (IH _ (r :: page) pages); [done|done|done|].
    change (mjoin (until_empty ((r :: page) :: pages))) with (r :: (page ++ mjoin (until_empty pages))) in Hfuel.
    cbn [ResultSet.it_index drop length] in *. rewrite drop_0. lia.
Qed.

End iteration.

Lemma until_empty_length pages : (length (mjoin (until_empty pages)) <= length (mjoin pages))%nat.
Proof.
  induction pages as [|[|x l] ls IH]; [done|cbn; lia|].
  change (mjoin (until_empty ((x :: l) :: ls))) with ((x :: l) ++ mjoin (until_empty ls)).
  change (mjoin ((x :: l) :: ls)) with ((x :: l) ++ mjoin ls). rewrite !length_app. lia.
Qed.

(** Asynchronous iteration over a result set ends, without error, and yields the
    rows of the first page and of the following pages in order, up to the first page
    without rows.  In particular, when only the last page may be empty, it yields every
    row exactly once; when an empty page is followed by others, their rows are not
    yielded. *)
Theorem for_await_rows `{Host} (e : encoder) (rs : ResultSet.t) rows fetch pages fuel :
  ResultSet.rows rs = Some rows -> ResultSet.rawNextPageAsync rs = Some fetch ->
  pages_after e fetch (ResultSet.rawPageState rs) pages ->
  (length (rows ++ mjoin pages) < fuel)%nat ->
  ResultSet.for_await fuel e rs = Ok (mjoin (until_empty (rows :: pages))).
Proof.
  intros Hr Hf Hp Hfuel. unfold ResultSet.for_await, ResultSet.asyncIterator. rewrite Hr.
  destruct rows as [|r rows]; [done|].
  rewrite (drain_spec e rs fetch Hf fuel _ (r :: rows) pages); [done|done|done|].
  unfold remaining. cbn [ResultSet.it_index]. rewrite drop_0, length_app in *.
  pose proof (until_empty_length pages). lia.
Qed.

(** Two columns of a page of ints, as wrappers of the Rust layer. *)
Definition int_page (zs : list Z) : resultWrapper :=
  page_wrapper [js "a"] [simple dataTypes.int] (length zs) (List.map (fun z => [Some (be_bytes 4 z)]) zs).

Definition int_row (z : Z) : Row.t := Row.mk [js "a"] [(js "a", JNumber (num_of_Z z))].

Definition three_pages (middle : list Z) : bytes -> result (option bytes * resultWrapper) := fun ps =>
  if bool_decide (ps = [1]) then Ok (Some [2], int_page middle) else Ok (None, int_page [5]).

Definition sample_result (middle : list Z) : ResultSet.t :=
  ResultSet.mk (Some [int_row 1; int_row 2]) 2 (Some (js "01")) (Some [1]) (Some (three_pages middle)).

Lemma for_await_rows_witness :
  ResultSet.for_await 10 sample_encoder (sample_result [3; 4])
  = Ok [int_row 1; int_row 2; int_row 3; int_row 4; int_row 5].
Proof.
  apply (for_await_rows sample_encoder (sample_result [3; 4]) [int_row 1; int_row 2] (three_pages [3; 4])
           [[int_row 3; int_row 4]; [int_row 5]] 10).
  - reflexivity.
  - reflexivity.
  - eapply pages_next; [reflexivity|vm_compute; reflexivity|].
    eapply pages_next; [reflexivity|vm_compute; reflexivity|constructor].
  - cbn. lia.
Defined.

(** An empty page in the middle ends the asynchronous iteration: of a result whose
    pages hold the rows 1 and 2, no rows, and the row 5, the iteration yields 1 and 2
    and is done, though the page state says there are more pages. *)
Theorem for_await_empty_page :
  ResultSet.for_await 10 sample_encoder (sample_result []) = Ok [int_row 1; int_row 2] /\
  three_pages [] [1] = Ok (Some [2], int_page []) /\
  three_pages [] [2] = Ok (None, int_page [5]) /\
  getRowsFromResultsWrapper sample_encoder (int_page [5]) = Ok (Some [int_row 5]).
Proof. split_and!; vm_compute; reflexivity. Qed.

(** [encodeParams] does not compare the number of parameters with the number of
    expected types: with one expected type and two parameters it returns two buffers,
    the second encoded by the type guessed from its value. *)
Theorem encodeParams_count :
  encodeParams sample_encoder [Some (simple dataTypes.int)]
    (Some [JNumber (num_of_Z 1); JString (js "x")]) = Ok [EBuffer [0; 0; 0; 1]; EBuffer [120]].
Proof. vm_compute. reflexivity. Qed.

(** ** The name __proto__ *)

(** A map with the text key __proto__ is encoded with its entry and decoded, to a plain
    object, without it. *)
Lemma proto_key_lost :
  let e := mkEncoder (mkEncoding false false false false false false) 4 in
  let t := of_info dataTypes.map (TypesInfo [simple dataTypes.text; simple dataTypes.int]) in
  exists b, encode e (JObject [(proto, JNumber (num_of_Z 5))]) (HType t) = Ok (EBuffer b) /\
            decode e (Some b) t = Ok (JObject []).
Proof.
  exists ([0; 0; 0; 1; 0; 0; 0; 9; 95; 95; 112; 114; 111; 116; 111; 95; 95; 0; 0; 0; 4; 0; 0; 0; 5]).
  split; vm_compute; reflexivity.
Qed.
