(* ===== verification/LongArith.v ===== *)
(** * 64-bit integers of the [long] package

    The operations of Long that the driver calls, as an interface with what it relies
    on: they are exact whenever the operands and the result fit 64 bits (and the Number
    converted is a safe integer); [div] and [modulo] truncate towards zero. *)

From S2P Require Import Prelude JsNumber.

Class LongArith : Type := {
  l_fromNumber : Z -> Z;                  (** of an integral Number *)
  l_multiply : Z -> Z -> Z;
  l_add : Z -> Z -> Z;
  l_subtract : Z -> Z -> Z;
  l_div : Z -> Z -> Z;
  l_modulo : Z -> Z -> Z
}.

Class LongArithLaws `{LongArith} : Prop := {
  l_fromNumber_exact : forall z, Z.abs z <= 2 ^ 53 -> l_fromNumber z = z;
  l_multiply_exact : forall a b, int64 a -> int64 b -> int64 (a * b) -> l_multiply a b = a * b;
  l_add_exact : forall a b, int64 a -> int64 b -> int64 (a + b) -> l_add a b = a + b;
  l_subtract_exact : forall a b, int64 a -> int64 b -> int64 (a - b) -> l_subtract a b = a - b;
  l_div_exact : forall a b, int64 a -> 0 < b -> l_div a b = Z.quot a b;
  l_modulo_exact : forall a b, int64 a -> 0 < b -> l_modulo a b = Z.rem a b
}.

(** Arithmetic modulo 2^64, with conversions that saturate. *)
Definition wrap64 (z : Z) : Z := (z + 2 ^ 63) mod 2 ^ 64 - 2 ^ 63.

Lemma wrap64_id z : int64 z -> wrap64 z = z.
Proof. unfold int64, wrap64. lia. Qed.

Lemma quot_int64 a b : int64 a -> 0 < b -> int64 (Z.quot a b).
Proof.
  unfold int64. intros Ha Hb. destruct (Z.le_ge_cases 0 a) as [Hs|Hs].
  - rewrite Z.quot_div_nonneg by lia. pose proof (Z.div_le_upper_bound a b a). nia.
  - rewrite <- (Z.opp_involutive a), Z.quot_opp_l, Z.quot_div_nonneg by lia.
    pose proof (Z.div_le_upper_bound (- a) b (- a)). pose proof (Z.div_pos (- a) b). nia.
Qed.

#[export] Instance wrapping_long : LongArith := {|
  l_fromNumber z := Z.max (- 2 ^ 63) (Z.min z (2 ^ 63 - 1));
  l_multiply a b := wrap64 (a * b);
  l_add a b := wrap64 (a + b);
  l_subtract a b := wrap64 (a - b);
  l_div a b := wrap64 (Z.quot a b);
  l_modulo a b := Z.rem a b
|}.

#[export] Instance wrapping_long_laws : LongArithLaws.
Proof.
  split; cbn; intros; try (by apply wrap64_id); [lia| |done].
  apply wrap64_id. by apply quot_int64.
Qed.
