(* ===== verification/Timestamps.v ===== *)
(** * Client timestamps

    lib/policies/timestamp-generation.js (MonotonicTimestampGenerator), the function
    [generateTimestamp] of lib/types/index.js and [getOrGenerateTimestamp] of
    lib/execution-options.js.

    The clock is a parameter: each call gets what [getDate()] and, for the rate of the
    warnings, [Date.now()] return.  The theorems: the timestamps of successive calls
    increase strictly whatever the clock does, they are never behind the clock, and the
    warnings are spaced by the configured interval. *)

From Stdlib Require Import Sorted.
From S2P Require Import Prelude JsNumber JsString LongArith ProtocolVersion.

(** What [next] and [getTimestamp] return. *)
Inductive stamp : Type :=
| SNumber (z : Z)
| SLong (z : Z).

Definition stamp_value (s : stamp) : Z := match s with SNumber z | SLong z => z end.

Module MonotonicTimestampGenerator.
Section generator.
Context `{LongArith}.

Record t : Type := mk {
  warningThreshold : Z;
  minLogInterval : Z;
  micros : Z;
  lastDate : Z;
  lastLogDate : Z }.

(** The arguments are integral Numbers or absent. *)
Definition constructor (threshold interval : option Z) : result t :=
  if match threshold with Some w => w <? 0 | None => false end then
    Err (ArgumentError "warningThreshold can not be lower than 0")
  else
    Ok (mk (match threshold with Some w => if w =? 0 then 1000 else w | None => 1000 end)
           (default 1000 interval) (-1) 0 0).

Definition maxSafeNumberDate : Z := 9007199254740.

Definition generateMicroseconds (lastDate micros : Z) : stamp :=
  if lastDate <? maxSafeNumberDate then SNumber (lastDate * 1000 + micros)
  else SLong (l_add (l_multiply (l_fromNumber lastDate) 1000) micros).

(** A warning: the drift, the last millisecond and the value returned. *)
Record warning : Type := mkWarning { drift : Z; behind : Z; returned : stamp }.

(** [next(client)], when [getDate()] is [date] and, where it is read, [Date.now()] is
    [now]; the third component is the call of [client.log]. *)
Definition next (g : t) (date now : Z) : stamp * t * option warning :=
  if lastDate g <? date then
    (generateMicroseconds date 0, mk (warningThreshold g) (minLogInterval g) 0 date (lastLogDate g), None)
  else
    let '(drifted, date) :=
      if date <? lastDate g then (lastDate g - date, lastDate g) else (0, date) in
    let micros := micros g + 1 in
    let '(micros, date, drifted) :=
      if micros =? 1000 then
        if date =? lastDate g then (0, date + 1, drifted + 1) else (0, date, drifted)
      else (micros, date, drifted) in
    let result := generateMicroseconds date micros in
    if (warningThreshold g <=? drifted) && (0 <? minLogInterval g) &&
       (lastLogDate g + minLogInterval g <=? now)
    then (result, mk (warningThreshold g) (minLogInterval g) micros date now,
          Some (mkWarning drifted (lastDate g) result))
    else (result, mk (warningThreshold g) (minLogInterval g) micros date (lastLogDate g), None).

(** Successive calls, each with its readings of the clock. *)
Fixpoint calls (g : t) (readings : list (Z * Z)) : list stamp * t * list (Z * warning) :=
  match readings with
  | [] => ([], g, [])
  | (date, now) :: readings =>
      let '(s, g, w) := next g date now in
      let '(ss, g, ws) := calls g readings in
      (s :: ss, g, match w with Some w => (now, w) :: ws | None => ws end)
  end.

End generator.
End MonotonicTimestampGenerator.

(** ** generateTimestamp *)

(** The module's counter is threaded; [date] is [getTime()] of the date given or of the
    current one; [microseconds] is none when it is not a Number. *)
Definition generateTimestamp `{LongArith} (timestampTicks date : Z) (microseconds : option Z) : Z * Z :=
  let '(longMicro, timestampTicks) :=
    match microseconds with
    | Some m =>
        if (0 <=? m) && (m <? 1000) then (m, timestampTicks)
        else let ticks := if 999 <? timestampTicks then 0 else timestampTicks in (ticks, ticks + 1)
    | None => let ticks := if 999 <? timestampTicks then 0 else timestampTicks in (ticks, ticks + 1)
    end in
  (l_add (l_multiply (l_fromNumber date) 1000) longMicro, timestampTicks).

(** ** getOrGenerateTimestamp

    [timestamp] is the option of the query: absent, null, a Number or a Long; the
    generator is absent, or is called and returns null or a timestamp. *)
Inductive timestamp_option : Type :=
| TUndefined
| TNull
| TStamp (s : stamp).

Definition getOrGenerateTimestamp `{LongArith} (timestamp : timestamp_option) (protocolVersion : Z)
    (generator : option timestamp_option) : timestamp_option :=
  let result :=
    match timestamp with
    | TUndefined =>
        match generator with
        | Some generated => if protocolVersion.supportsTimestamp protocolVersion then generated else TNull
        | None => TNull
        end
    | _ => timestamp
    end in
  match result with
  | TStamp (SNumber z) => TStamp (SLong (l_fromNumber z))
  | _ => result
  end.

(** ** Properties *)

Import MonotonicTimestampGenerator.

(** The range of a Date, and the number of calls for which the generator's own date,
    which moves ahead of the clock by a millisecond every thousand calls, stays exact. *)
Definition max_date : Z := 8640000000000000.
Definition max_calls : Z := 300000000000000.

(** The last timestamp given out. *)
Definition last_stamp (g : t) : Z := lastDate g * 1000 + micros g.

Definition wf (g : t) : Prop := -1 <= micros g <= 999 /\ 0 <= lastDate g.

Lemma generateMicroseconds_value `{LongArithLaws} d m :
  0 <= d <= 9000000000000000 -> 0 <= m <= 999 -> stamp_value (generateMicroseconds d m) = d * 1000 + m.
Proof.
  intros Hd Hm. unfold generateMicroseconds, maxSafeNumberDate. case_Z; [done|]. cbn [stamp_value].
  rewrite l_fromNumber_exact, l_multiply_exact, l_add_exact by (unfold int64; lia). done.
Qed.

Section monotonic.
Context `{LongArithLaws}.

(** One call: the greater of the clock and the successor of the last timestamp. *)
Lemma next_spec g date now :
  wf g -> lastDate g < 9000000000000000 -> date <= max_date ->
  let '(s, g', w) := next g date now in
  wf g' /\ stamp_value s = Z.max (date * 1000) (last_stamp g + 1) /\ last_stamp g' = stamp_value s /\
  lastDate g <= lastDate g' <= Z.max date (lastDate g + 1).
Proof.
  intros [Hm Hl] Hb Hd. unfold next, last_stamp, wf, max_date in *.
  destruct (Z.ltb_spec (lastDate g) date) as [Hc|Hc].
  { cbn [micros lastDate]. rewrite generateMicroseconds_value by lia. lia. }
  assert (E : (if date <? lastDate g then (lastDate g - date, lastDate g) else (0, date))
              = (lastDate g - date, lastDate g)).
  { case_Z; [done|]. replace date with (lastDate g) by lia. f_equal. lia. }
  rewrite E. cbv beta iota zeta. rewrite Z.eqb_refl.
  destruct (Z.eqb_spec (micros g + 1) 1000) as [Em|Em];
    match goal with |- context [if ?b then _ else _] => destruct b end;
    cbn [micros lastDate]; rewrite generateMicroseconds_value by lia; lia.
Qed.

(** The reference: each timestamp is the clock's, or the successor of the one before. *)
Fixpoint reference (last : Z) (dates : list Z) : list Z :=
  match dates with
  | [] => []
  | date :: dates => let s := Z.max (date * 1000) (last + 1) in s :: reference s dates
  end.

Lemma calls_reference readings g :
  wf g -> Forall (fun r => fst r <= max_date) readings ->
  Z.of_nat (length readings) <= max_calls ->
  lastDate g <= max_date + max_calls - Z.of_nat (length readings) ->
  stamp_value <$> (fst (fst (calls g readings))) = reference (last_stamp g) (fst <$> readings).
Proof.
  revert g. induction readings as [|[date now] readings IH]; intros g Hg Hr Hc Hl; [done|].
  apply Forall_cons_1 in Hr as [Hd Hr]. cbn [fst] in Hd. cbn [length] in Hc, Hl.
  pose proof (next_spec g date now Hg) as Hn. cbn [calls fmap list_fmap reference fst].
  destruct (next g date now) as [[s g'] w]. unfold max_calls, max_date in *.
  destruct Hn as (Hg' & Hs & Hs' & Hd'); [lia|done|].
  specialize (IH g' Hg' Hr). destruct (calls g' readings) as [[ss g''] ws]. cbn [fst fmap list_fmap] in *.
  change (list_fmap _ _ ?f ?l) with (f <$> l) in *. rewrite IH by lia. by rewrite Hs', Hs.
Qed.

Lemma reference_increases last dates :
  Forall (fun s => last < s) (reference last dates) /\ StronglySorted Z.lt (reference last dates).
Proof.
  revert last. induction dates as [|date dates IH]; intros last; cbn [reference]; [by split; constructor|].
  destruct (IH (Z.max (date * 1000) (last + 1))) as [Hf Hs]. split.
  - apply Forall_cons_2; [lia|]. eapply Forall_impl; [|exact Hf]. cbv beta. lia.
  - by constructor.
Qed.

(** The reference is the least strictly increasing sequence that is not behind the clock. *)
Lemma reference_least last dates l :
  StronglySorted Z.lt (last :: l) -> Forall2 (fun date s => date * 1000 <= s) dates l ->
  Forall2 Z.le (reference last dates) l.
Proof.
  intros Hs HF. assert (Hgen : forall last', last' <= last -> Forall2 Z.le (reference last' dates) l);
    [|by apply Hgen].
  revert last Hs. induction HF as [|date s dates l Hd HF IH]; intros last Hs last' Hl; cbn [reference]; [constructor|].
  inversion Hs as [|x y Hs' Hf]; subst. apply Forall_cons_1 in Hf as [Hls Hf].
  constructor; [lia|]. apply (IH s); [done|]. lia.
Qed.

Lemma generator_wf threshold interval g :
  constructor threshold interval = Ok g -> wf g /\ lastDate g = 0 /\ last_stamp g = -1.
Proof.
  unfold constructor. destruct (match threshold with Some _ => _ | None => _ end); [done|].
  intros [= <-]. unfold wf, last_stamp. cbn. lia.
Qed.

End monotonic.

(** C9. The monotonic generator is equivalent to its specification: whatever the clock
    readings are, forwards or backwards, each timestamp is the greater of the clock's
    microseconds and the successor of the previous timestamp.  (For clocks in the range
    of a Date and up to 3*10^14 calls.) *)
Theorem monotonic_reference `{LongArithLaws} threshold interval g readings :
  constructor threshold interval = Ok g ->
  Forall (fun r => fst r <= max_date) readings -> Z.of_nat (length readings) <= max_calls ->
  stamp_value <$> (fst (fst (calls g readings))) = reference (-1) (fst <$> readings).
Proof.
  intros (Hg & Hl & Hs)%generator_wf Hr Hn. rewrite <- Hs. apply calls_reference; [done|done|done|].
  unfold max_date. lia.
Qed.

Lemma monotonic_reference_witness :
  exists g, constructor None None = Ok g /\
  stamp_value <$> (fst (fst (calls g [(100, 0); (100, 0); (50, 0); (101, 0)]))) = [100000; 100001; 100002; 101000].
Proof.
  eexists. split; [reflexivity|].
  rewrite (monotonic_reference None None); [reflexivity|reflexivity| |].
  - repeat (apply Forall_cons_2; [cbn; unfold max_date; lia|]). apply Forall_nil_2.
  - unfold max_calls. cbn. lia.
Defined.

(** The timestamps of successive calls increase strictly and none is behind the
    clock, and no other strictly increasing sequence that is not behind the clock stays
    below them: the generator drifts no further ahead than it has to. *)
Theorem monotonic_increasing `{LongArithLaws} threshold interval g readings l :
  constructor threshold interval = Ok g ->
  Forall (fun r => 0 <= fst r <= max_date) readings -> Z.of_nat (length readings) <= max_calls ->
  let ss := stamp_value <$> (fst (fst (calls g readings))) in
  StronglySorted Z.lt ss /\ Forall2 (fun r s => fst r * 1000 <= s) readings ss /\
  (StronglySorted Z.lt l -> Forall2 (fun r s => fst r * 1000 <= s) readings l -> Forall2 Z.le ss l).
Proof.
  intros (Hg & Hl & Hs)%generator_wf Hr Hn ss. subst ss.
  rewrite calls_reference by (done || unfold max_date in *; first [lia | eapply Forall_impl; [|exact Hr]; cbv beta; lia]).
  rewrite Hs. split; [apply reference_increases|]. split.
  - clear. generalize (-1). induction readings as [|[date now] readings IH]; intros last; [constructor|].
    cbn [fmap list_fmap reference fst]. constructor; [cbn; lia|]. apply IH.
  - intros Hl' HF. apply reference_least; [|by apply Forall2_fmap_l].
    constructor; [done|]. destruct Hl' as [|x l Hl' Hf]; [constructor|].
    inversion HF as [|r s rs' l' Hrs HF' E]; subst. apply Forall_cons_1 in Hr as [[Hr0 _] _].
    apply Forall_cons_2; [lia|]. eapply Forall_impl; [|exact Hf]. cbv beta. lia.
Qed.

Lemma monotonic_increasing_witness :
  exists g, constructor (Some 5) None = Ok g /\
  StronglySorted Z.lt (stamp_value <$> (fst (fst (calls g [(7, 0); (3, 0)])))).
Proof.
  eexists. split; [reflexivity|].
  apply (monotonic_increasing (Some 5) None _ [(7, 0); (3, 0)] []).
  - reflexivity.
  - repeat (apply Forall_cons_2; [cbn; unfold max_date; lia|]). apply Forall_nil_2.
  - unfold max_calls. cbn. lia.
Defined.

(** ** Warnings *)

Section warnings.
Context `{LongArith}.

Lemma next_warning g date now :
  let '(_, g', w) := next g date now in
  warningThreshold g' = warningThreshold g /\ minLogInterval g' = minLogInterval g /\
  match w with
  | None => lastLogDate g' = lastLogDate g
  | Some w =>
      warningThreshold g <= drift w /\ drift w = lastDate g' - date /\ 0 < minLogInterval g /\
      lastLogDate g + minLogInterval g <= now /\ lastLogDate g' = now
  end.
Proof.
  unfold next. destruct (Z.ltb_spec (lastDate g) date); [done|].
  assert (E : (if date <? lastDate g then (lastDate g - date, lastDate g) else (0, date))
              = (lastDate g - date, lastDate g)).
  { case_Z; [done|]. replace date with (lastDate g) by lia. f_equal. lia. }
  rewrite E. cbv beta iota zeta. rewrite Z.eqb_refl.
  destruct (micros g + 1 =? 1000);
    match goal with |- context [if ?b then _ else _] => destruct b eqn:Hb end; cbn; try done;
    repeat (apply andb_true_iff in Hb as [Hb ?]); lia.
Qed.

Lemma calls_warnings readings g :
  let ws := snd (calls g readings) in
  HdRel (fun a b => a + minLogInterval g <= b) (lastLogDate g) (fst <$> ws) /\
  Sorted (fun a b => a + minLogInterval g <= b) (fst <$> ws) /\
  Forall (fun w => warningThreshold g <= drift (snd w) /\ 0 < minLogInterval g) ws.
Proof.
  revert g. induction readings as [|[date now] readings IH]; intros g; cbn; [by split_and!; constructor|].
  pose proof (next_warning g date now) as Hn. destruct (next g date now) as [[s g'] w].
  destruct Hn as (Ht & Hi & Hw). specialize (IH g'). cbv zeta in IH.
  rewrite Ht, Hi in IH. destruct (calls g' readings) as [[ss g''] ws]. cbn [snd] in *.
  destruct w as [w|]; [|by rewrite Hw in IH].
  destruct Hw as (H1 & _ & H2 & H3 & H4). rewrite H4 in IH. destruct IH as (Hh & Hs & Hf).
  cbn [fmap list_fmap fst]. split_and!; [by constructor|by constructor|by constructor].
Qed.

End warnings.

(** The warnings about drift are rate limited: two successive ones are at least the
    configured interval apart on the clock, none is given when the interval is not
    positive, and each one reports a drift of at least the threshold. *)
Theorem warnings_spaced `{LongArith} threshold interval g readings :
  constructor threshold interval = Ok g ->
  let ws := snd (calls g readings) in
  Sorted (fun a b => a + minLogInterval g <= b) (fst <$> ws) /\
  Forall (fun w => warningThreshold g <= drift (snd w) /\ 0 < minLogInterval g) ws.
Proof. intros _. apply calls_warnings. Qed.

Lemma warnings_spaced_witness :
  exists g, constructor (Some 10) (Some 1000) = Ok g /\
  (fst <$> snd (calls g [(100, 5000); (0, 6000); (0, 6500); (0, 7000)])) = [6000; 7000] /\
  Sorted (fun a b => a + minLogInterval g <= b)
    (fst <$> snd (calls g [(100, 5000); (0, 6000); (0, 6500); (0, 7000)])).
Proof.
  eexists. split; [reflexivity|]. split; [reflexivity|].
  apply (warnings_spaced (Some 10) (Some 1000)). reflexivity.
Defined.

(** ** generateTimestamp *)

(** Successive calls without microseconds, for one date. *)
Fixpoint automatic `{LongArith} (n : nat) (ticks date : Z) : list Z :=
  match n with
  | O => []
  | S n => let '(v, ticks) := generateTimestamp ticks date None in v :: automatic n ticks date
  end.

Lemma generateTimestamp_value `{LongArithLaws} ticks date m :
  Z.abs date <= max_date -> 0 <= ticks <= 1000 ->
  let '(v, ticks') := generateTimestamp ticks date m in
  0 <= ticks' <= 1000 /\
  match m with
  | Some z => if (0 <=? z) && (z <? 1000) then v = date * 1000 + z /\ ticks' = ticks
              else v = date * 1000 + ticks mod 1000 /\ ticks' = ticks mod 1000 + 1
  | None => v = date * 1000 + ticks mod 1000 /\ ticks' = ticks mod 1000 + 1
  end.
Proof.
  unfold max_date. intros Hd Ht. unfold generateTimestamp.
  assert (E : (if 999 <? ticks then 0 else ticks) = ticks mod 1000) by (case_Z; lia).
  assert (V : forall k, 0 <= k < 1000 -> l_add (l_multiply (l_fromNumber date) 1000) k = date * 1000 + k).
  { intros k Hk. rewrite l_fromNumber_exact, l_multiply_exact, l_add_exact by (unfold int64; lia). done. }
  assert (Hm : 0 <= ticks mod 1000 < 1000) by lia.
  destruct m as [z|]; [destruct ((0 <=? z) && (z <? 1000)) eqn:Ez|].
  - rewrite V by lia. lia.
  - rewrite E, V by lia. lia.
  - rewrite E, V by lia. lia.
Qed.

Lemma automatic_values `{LongArithLaws} n ticks date :
  Z.abs date <= max_date -> 0 <= ticks <= 1000 ->
  automatic n ticks date = (fun i => date * 1000 + (ticks + Z.of_nat i) mod 1000) <$> seq 0 n.
Proof.
  intros Hd. revert ticks. induction n as [|n IH]; intros ticks Ht; [done|]. cbn [automatic].
  pose proof (generateTimestamp_value ticks date None Hd Ht) as Hv.
  destruct (generateTimestamp ticks date None) as [v ticks']. destruct Hv as (Ht' & -> & ->).
  rewrite IH by lia. cbn [seq fmap list_fmap]. f_equal; [f_equal; f_equal; lia|].
  change (list_fmap _ _ ?f ?l) with (f <$> l). rewrite <- fmap_S_seq, <- list_fmap_compose.
  apply list_fmap_ext. intros i k _. unfold compose. lia.
Qed.

(** Automatic timestamps of one date lie in its millisecond, and up to a thousand
    successive ones are all different, from any state of the counter. *)
Theorem automatic_distinct `{LongArithLaws} n ticks date :
  Z.abs date <= max_date -> 0 <= ticks <= 1000 -> (n <= 1000)%nat ->
  NoDup (automatic n ticks date) /\
  Forall (fun v => date * 1000 <= v < (date + 1) * 1000) (automatic n ticks date).
Proof.
  intros Hd Ht Hn. rewrite automatic_values by done. split.
  - apply NoDup_fmap_2_strong; [|apply NoDup_seq].
    intros i j Hi%elem_of_seq Hj%elem_of_seq E. lia.
  - apply Forall_fmap, Forall_forall. intros i _. cbn. lia.
Qed.

Lemma automatic_distinct_witness : NoDup (automatic 5 998 7).
Proof. apply (automatic_distinct 5 998 7); unfold max_date; lia. Defined.
