(* ===== verification/TimeUuid.v ===== *)
(** * Time-based UUIDs

    lib/types/time-uuid.js: the layout of version 1 UUIDs, the counters that give
    different values to UUIDs of one millisecond, and the least and greatest UUID of a
    date.  The counters of the module are threaded as a record; the clock and the random
    bytes are arguments.  Dates are milliseconds since the epoch.

    The theorems: the date, the ticks, the node and the clock identifiers are read back
    from a UUID for dates up to the year 5236; [min] and [max] bound the UUIDs of a date
    in the order the server uses. *)

From S2P Require Import Prelude JsNumber Buffer Alloc JsString Utf8 LongArith ValueTypes.

Module TimeUuid.

Definition unixToGregorian : Z := 12219292800000.
Definition ticksInMs : Z := 10000.

Definition minNodeId : bytes := replicate 6 128.
Definition minClockId : bytes := replicate 2 128.
Definition maxNodeId : bytes := replicate 6 127.
Definition maxClockId : bytes := replicate 2 127.

(** The counters of the module. *)
Record counters : Type := mkCounters {
  ticks_ : Z;
  ticksForCurrentTime : Z;
  lastTimestamp : Z }.

Definition initial : counters := mkCounters 0 0 0.

(** The ticks are none when they are not a Number. *)
Definition getTicks (c : counters) (ticks : option Z) : Z * counters :=
  match ticks with
  | Some t => if ticksInMs <=? t
              then let n := if ticksInMs <=? ticks_ c + 1 then 0 else ticks_ c + 1 in
                   (n, mkCounters n (ticksForCurrentTime c) (lastTimestamp c))
              else (t, c)
  | None => let n := if ticksInMs <=? ticks_ c + 1 then 0 else ticks_ c + 1 in
            (n, mkCounters n (ticksForCurrentTime c) (lastTimestamp c))
  end.

(** The date is none when it is no Date or an invalid one; [now] is the current time. *)
Definition getTimeWithTicks (c : counters) (now : Z) (date ticks : option Z) : Z * Z * counters :=
  match date with
  | Some time => let '(t, c) := getTicks c ticks in (time, t, c)
  | None =>
      let n := ticksForCurrentTime c + 1 in
      let c := if (ticksInMs <? n) || (lastTimestamp c <? now)
               then mkCounters (ticks_ c) 0 now
               else mkCounters (ticks_ c) n (lastTimestamp c) in
      let '(t, c) := getTicks c (Some (ticksForCurrentTime c)) in (now, t, c)
  end.

(** An identifier: a string, a Buffer, or something else. *)
Inductive ident : Type :=
| IdString (s : jsstr)
| IdBuffer (b : bytes)
| IdOther.

Definition getNodeId_ (nodeId : ident) (random : bytes) : result bytes :=
  match nodeId with
  | IdOther => Ok random
  | IdString s => let b := ascii_encode s in
      if negb (blen b =? 6) then Err (PlainError "Node identifier must have 6 bytes") else Ok b
  | IdBuffer b => if negb (blen b =? 6) then Err (PlainError "Node identifier must have 6 bytes") else Ok b
  end.

Definition getClockId_ (clockId : ident) (random : bytes) : result bytes :=
  match clockId with
  | IdOther => Ok random
  | IdString s => let b := ascii_encode s in
      if negb (blen b =? 2) then Err (PlainError "Clock identifier must have 2 bytes") else Ok b
  | IdBuffer b => if negb (blen b =? 2) then Err (PlainError "Clock identifier must have 2 bytes") else Ok b
  end.

(** [buffer[i] = f(buffer[i])] *)
Definition update (i : nat) (f : Z -> Z) (b : bytes) : bytes := alter (fun x => f x mod 256) i b.

Section TimeUuid.
Context `{LongArith, Allocator}.

Definition writeTime (buffer : bytes) (time ticks : Z) : result bytes :=
  let val := l_add (l_multiply (l_fromNumber (time + unixToGregorian)) (l_fromNumber 10000)) (l_fromNumber ticks) in
  let timeHigh := to_uint32 (val / 2 ^ 32) in
  lo ← uint32_bytes (to_uint32 val);
  buffer ← write_at buffer 0 lo;
  mid ← uint16_bytes (js_and timeHigh 0xffff);
  buffer ← write_at buffer 4 mid;
  hi ← uint16_bytes (js_and (js_ushr timeHigh 16) 0xffff);
  write_at buffer 6 hi.

(** The counters have advanced also when an identifier is refused. *)
Definition generateBuffer (c : counters) (now : Z) (date ticks : option Z) (nodeId clockId : ident)
    (randomNode randomClock : bytes) : result bytes * counters :=
  let '(time, ticks, c) := getTimeWithTicks c now date ticks in
  (nodeId ← getNodeId_ nodeId randomNode;
   clockId ← getClockId_ clockId randomClock;
   buffer ← writeTime (allocUnsafe 16) time ticks;
   let buffer := copy_into clockId buffer 8 in
   let buffer := copy_into nodeId buffer 10 in
   let buffer := update 6 (fun x => js_and x 0x0f) buffer in
   let buffer := update 6 (fun x => js_or x 0x10) buffer in
   let buffer := update 8 (fun x => js_and x 0x3f) buffer in
   let buffer := update 8 (fun x => js_or x 0x80) buffer in
   Ok buffer, c).

(** [new TimeUuid(buffer)] *)
Definition of_buffer (b : bytes) : result Uuid.t :=
  if negb (blen b =? 16) then Err (PlainError "Buffer for v1 uuid not valid") else Uuid.constructor b.

(** [fromDate] without a callback; [now] with absent date and ticks. *)
Definition fromDate (c : counters) (now : Z) (date ticks : option Z) (nodeId clockId : ident)
    (randomNode randomClock : bytes) : result Uuid.t * counters :=
  let '(b, c) := generateBuffer c now date ticks nodeId clockId randomNode randomClock in
  (b ← b; Uuid.constructor b, c).

Definition min (c : counters) (now : Z) (date ticks : option Z) : result Uuid.t * counters :=
  fromDate c now date ticks (IdBuffer minNodeId) (IdBuffer minClockId) [] [].

Definition max (c : counters) (now : Z) (date ticks : option Z) : result Uuid.t * counters :=
  fromDate c now date ticks (IdBuffer maxNodeId) (IdBuffer maxClockId) [] [].

Definition fromString (value : jsstr) : result Uuid.t :=
  u ← Uuid.fromString value; of_buffer (Uuid.getBuffer u).

(** An element of a Buffer; out of range it is undefined, which the operators take as 0. *)
Definition elem (b : bytes) (i : Z) : Z := default 0 (byte_at b i).

(** The milliseconds of the date and the ticks. *)
Definition getDatePrecision (u : Uuid.t) : result (Z * Z) :=
  let b := Uuid.raw u in
  timeLow ← readUInt32BE b 0;
  let timeHigh := js_or 0 (js_shl (js_and (elem b 4) 0xff) 8) in
  let timeHigh := js_or timeHigh (js_and (elem b 5) 0xff) in
  let timeHigh := js_or timeHigh (js_shl (js_and (elem b 6) 0x0f) 24) in
  let timeHigh := js_or timeHigh (js_shl (js_and (elem b 7) 0xff) 16) in
  let val := to_int32 timeHigh * 2 ^ 32 + to_uint32 timeLow in
  let ticksInMsLong := l_fromNumber ticksInMs in
  let ticks := l_modulo val ticksInMsLong in
  let time := l_subtract (l_div val ticksInMsLong) (l_fromNumber unixToGregorian) in
  Ok (time, ticks).

Definition getNodeId (u : Uuid.t) : bytes := slice_from (Uuid.raw u) 10.
Definition getClockId (u : Uuid.t) : bytes := slice (Uuid.raw u) 8 10.
Definition getNodeIdString (u : Uuid.t) : jsstr := ascii_decode (slice_from (Uuid.raw u) 10).

End TimeUuid.

(** ** The layout *)

(** A property of bytes that holds of all 256 of them. *)
Lemma byte_check (P : Z -> bool) x : forallb P (Z.of_nat <$> seq 0 256) = true -> is_byte x -> P x = true.
Proof.
  intros Hf Hx. rewrite forallb_forall in Hf. apply Hf. unfold is_byte in Hx.
  apply List.in_map_iff. exists (Z.to_nat x). split; [lia|]. apply List.in_seq. lia.
Qed.

Lemma version_byte x : is_byte x -> js_or (js_and x 0x0f mod 256) 0x10 mod 256 = 16 + x mod 16.
Proof.
  intros Hx. apply Z.eqb_eq.
  exact (byte_check (fun x => js_or (js_and x 0x0f mod 256) 0x10 mod 256 =? 16 + x mod 16) x eq_refl Hx).
Qed.

Lemma variant_byte x : is_byte x -> js_or (js_and x 0x3f mod 256) 0x80 mod 256 = 128 + x mod 64.
Proof.
  intros Hx. apply Z.eqb_eq.
  exact (byte_check (fun x => js_or (js_and x 0x3f mod 256) 0x80 mod 256 =? 128 + x mod 64) x eq_refl Hx).
Qed.

(** The value in 100-nanosecond units since the Gregorian epoch. *)
Definition gregorian (time ticks : Z) : Z := (time + unixToGregorian) * 10000 + ticks.

(** The bytes of a UUID: low, middle and high parts of the value, with the version; the
    clock identifier, with the variant; the node identifier. *)
Definition layout (val c0 c1 : Z) (node : bytes) : bytes :=
  be_bytes 4 val ++ be_bytes 2 (val / 2 ^ 32) ++
  [16 + (val / 2 ^ 56) mod 16; (val / 2 ^ 48) mod 256; 128 + c0 mod 64; c1] ++ node.

Lemma list16 (b : bytes) : blen b = 16 -> exists x0 x1 x2 x3 x4 x5 x6 x7 x8 x9 x10 x11 x12 x13 x14 x15,
  b = [x0; x1; x2; x3; x4; x5; x6; x7; x8; x9; x10; x11; x12; x13; x14; x15].
Proof.
  intros Hb. unfold blen in Hb.
  do 16 (destruct b as [|? b]; [cbn in Hb; lia|]). destruct b; [|cbn in Hb; lia]. by eexists _, _, _, _, _, _, _, _, _, _, _, _, _, _, _, _.
Qed.

Lemma be_bytes_low n z : be_bytes n (z mod 256 ^ Z.of_nat n) = be_bytes n z.
Proof.
  rewrite Z.mod_eq by lia. replace (z - _) with (z + - (z / 256 ^ Z.of_nat n) * 256 ^ Z.of_nat n) by ring.
  apply be_bytes_mod.
Qed.

Section layout.
Context `{LongArithLaws, Allocator}.

Lemma gregorian_exact time ticks :
  0 <= ticks < 10000 -> 0 <= gregorian time ticks < 2 ^ 60 ->
  l_add (l_multiply (l_fromNumber (time + unixToGregorian)) (l_fromNumber 10000)) (l_fromNumber ticks)
  = gregorian time ticks.
Proof.
  unfold gregorian, unixToGregorian. intros Ht Hg.
  rewrite !l_fromNumber_exact, l_multiply_exact, l_add_exact by (unfold int64; lia). done.
Qed.

Lemma writeTime_spec buffer time ticks :
  blen buffer = 16 -> 0 <= ticks < 10000 -> 0 <= gregorian time ticks < 2 ^ 60 ->
  writeTime buffer time ticks
  = Ok (be_bytes 4 (gregorian time ticks) ++ be_bytes 2 (gregorian time ticks / 2 ^ 32) ++
        be_bytes 2 (gregorian time ticks / 2 ^ 48) ++ drop 8 buffer).
Proof.
  intros Hb Ht Hd. unfold writeTime. rewrite gregorian_exact by done.
  set (val := gregorian time ticks) in *. cbv zeta.
  rewrite js_ushr_div, !js_and_65535 by lia.
  unfold uint32_bytes, uint16_bytes, to_uint32.
  rewrite (int_bytes_ok 4), ok_bind by lia.
  destruct (list16 buffer Hb) as (x0 & x1 & x2 & x3 & x4 & x5 & x6 & x7 & x8 & x9 & x10 & x11 & x12 & x13 & x14 & x15 & ->).
  set (r8 := [x8; x9; x10; x11; x12; x13; x14; x15]).
  rewrite (write_at_off [] [x0; x1; x2; x3] ([x4; x5] ++ [x6; x7] ++ r8)), ok_bind by (by rewrite ?blen_be).
  rewrite (int_bytes_ok 2 0 65535 ((val / 2 ^ 32) mod 2 ^ 32 mod 65536)), ok_bind by lia. cbn [app].
  rewrite (write_at_off _ [x4; x5] ([x6; x7] ++ r8)), ok_bind by (by rewrite ?blen_be).
  rewrite int_bytes_ok, ok_bind by lia. rewrite app_assoc.
  rewrite (write_at_off _ [x6; x7] r8) by (by rewrite ?blen_app, ?blen_be).
  f_equal. rewrite <- app_assoc. cbn [drop].
  replace ((val / 2 ^ 32) mod 2 ^ 32 mod 65536) with ((val / 2 ^ 32) mod 65536) by lia.
  replace ((val / 2 ^ 32) mod 2 ^ 32 mod 2 ^ 32 / 2 ^ 16 mod 65536) with ((val / 2 ^ 48) mod 65536) by lia.
  change (2 ^ 32) with (256 ^ Z.of_nat 4) at 1. change 65536 with (256 ^ Z.of_nat 2). by rewrite !be_bytes_low.
Qed.

Lemma update_at (a r : bytes) x f i :
  i = length a -> update i f (a ++ x :: r) = a ++ f x mod 256 :: r.
Proof. intros ->. unfold update. rewrite alter_app_r_alt by lia. by rewrite Nat.sub_diag. Qed.

(** The buffer of a date, whatever the allocated memory held. *)
Lemma generateBuffer_spec c now time ticks node c0 c1 rn rc :
  0 <= ticks < 10000 -> 0 <= gregorian time ticks < 2 ^ 60 -> blen node = 6 -> is_byte c0 ->
  generateBuffer c now (Some time) (Some ticks) (IdBuffer node) (IdBuffer [c0; c1]) rn rc
  = (Ok (layout (gregorian time ticks) c0 c1 node), c).
Proof.
  intros Ht Hg Hn Hc. unfold generateBuffer, getTimeWithTicks, getTicks, ticksInMs.
  rewrite (proj2 (Z.leb_gt 10000 ticks)) by lia. cbn [getNodeId_ getClockId_].
  rewrite Hn. cbn [negb Z.eqb Pos.eqb]. rewrite !ok_bind. change (blen [c0; c1]) with 2. cbn [negb Z.eqb Pos.eqb].
  rewrite ok_bind, writeTime_spec, ok_bind by (done || by apply allocUnsafe_length).
  set (val := gregorian time ticks) in *. f_equal. f_equal.
  destruct (list16 (allocUnsafe 16)) as (x0 & x1 & x2 & x3 & x4 & x5 & x6 & x7 & x8 & x9 & x10 & x11 & x12 & x13 & x14 & x15 & ->);
    [by apply allocUnsafe_length|].
  cbn [drop]. rewrite !app_assoc.
  rewrite (copy_into_off _ [x8; x9] [x10; x11; x12; x13; x14; x15]) by (by rewrite ?blen_app, ?blen_be).
  rewrite app_assoc, <- (app_nil_r [x10; x11; x12; x13; x14; x15]).
  rewrite (copy_into_off _ [x10; x11; x12; x13; x14; x15] []) by (done || by rewrite ?blen_app, ?blen_be).
  rewrite app_nil_r, <- !app_assoc.
  assert (E : be_bytes 2 (val / 2 ^ 48) = [val / 2 ^ 56 mod 256; val / 2 ^ 48 mod 256]).
  { unfold be_bytes. change (256 ^ Z.of_nat 1) with (2 ^ 8). change (256 ^ Z.of_nat 0) with 1.
    rewrite Z.div_1_r, Z.div_div by lia. done. }
  rewrite E. unfold layout. rewrite !(app_assoc (be_bytes 4 val)). cbn [app].
  rewrite !update_at by (by rewrite length_app, !be_bytes_length).
  rewrite version_byte by (unfold is_byte; lia).
  change (_ :: _ :: c0 :: ?r) with ([16 + val / 2 ^ 56 mod 256 mod 16; val / 2 ^ 48 mod 256] ++ c0 :: r).
  rewrite app_assoc, !update_at by (by rewrite !length_app, !be_bytes_length).
  rewrite variant_byte by done. rewrite <- !app_assoc. cbn [app]. repeat f_equal. lia.
Qed.

End layout.

(** ** Reading a UUID *)

Lemma js_and_15 x : is_byte x -> js_and x 0x0f = x mod 16.
Proof.
  intros Hx. apply Z.eqb_eq. exact (byte_check (fun x => js_and x 0x0f =? x mod 16) x eq_refl Hx).
Qed.

Lemma join_high b4 b5 h b7 :
  is_byte b4 -> is_byte b5 -> 0 <= h < 16 -> is_byte b7 ->
  js_or (js_or (js_or (js_or 0 (js_shl b4 8)) b5) (js_shl h 24)) (js_shl b7 16)
  = h * 2 ^ 24 + b7 * 2 ^ 16 + b4 * 2 ^ 8 + b5.
Proof.
  unfold is_byte. intros H4 H5 Hh H7. rewrite !js_shl_mul by lia.
  rewrite (to_int32_id (b4 * 2 ^ 8)), (to_int32_id (h * 2 ^ 24)), (to_int32_id (b7 * 2 ^ 16)) by (unfold int32; lia).
  assert (E1 : js_or 0 (b4 * 2 ^ 8) = b4 * 2 ^ 8).
  { unfold js_or. rewrite (to_int32_id (b4 * 2 ^ 8)) by (unfold int32; lia). reflexivity. }
  assert (E2 : js_or (b4 * 2 ^ 8) b5 = b4 * 2 ^ 8 + b5) by (apply js_or_disjoint; unfold int32; lia).
  assert (E3 : js_or (b4 * 2 ^ 8 + b5) (h * 2 ^ 24) = h * 2 ^ 24 + (b4 * 2 ^ 8 + b5)).
  { unfold js_or. rewrite Z.lor_comm. apply js_or_disjoint; unfold int32; lia. }
  rewrite E1, E2, E3. unfold js_or. rewrite !to_int32_id by (unfold int32; lia).
  rewrite <- (lor_mul_add h (b4 * 2 ^ 8 + b5) 24) by lia.
  rewrite <- Z.lor_assoc, (Z.lor_comm (b4 * 2 ^ 8 + b5)), (lor_mul_add b7 _ 16), (lor_mul_add h _ 24) by lia. lia.
Qed.

Section reading.
Context `{LongArithLaws}.

Lemma getDatePrecision_layout val c0 c1 node :
  0 <= val < 2 ^ 60 ->
  getDatePrecision (Uuid.mk (layout val c0 c1 node)) = Ok (val / 10000 - unixToGregorian, val mod 10000).
Proof.
  intros Hv. unfold getDatePrecision. cbn [Uuid.raw]. unfold readUInt32BE, layout.
  rewrite read_uint_0, ok_bind by done. rewrite be_val_bytes. change (256 ^ Z.of_nat 4) with (2 ^ 32).
  set (r := [16 + _; _; _; _] ++ node).
  assert (E : be_bytes 2 (val / 2 ^ 32) = [val / 2 ^ 40 mod 256; val / 2 ^ 32 mod 256]).
  { unfold be_bytes. change (256 ^ Z.of_nat 1) with (2 ^ 8). change (256 ^ Z.of_nat 0) with 1.
    rewrite Z.div_1_r, Z.div_div by lia. done. }
  rewrite E. subst r. unfold elem.
  assert (B : forall k, (4 <= k)%nat -> forall l, byte_at (be_bytes 4 val ++ l) (Z.of_nat k) = byte_at l (Z.of_nat (k - 4))).
  { intros k Hk l. unfold byte_at. rewrite !(proj2 (Z.ltb_ge _ 0)) by lia. rewrite !Nat2Z.id.
    rewrite lookup_app_r by (rewrite be_bytes_length; lia). by rewrite be_bytes_length. }
  change 4 with (Z.of_nat 4). rewrite B by lia. change 5 with (Z.of_nat 5). rewrite B by lia.
  change (byte_at _ 6) with (byte_at (be_bytes 4 val ++ [val / 2 ^ 40 mod 256; val / 2 ^ 32 mod 256] ++
    [16 + val / 2 ^ 56 mod 16; val / 2 ^ 48 mod 256; 128 + c0 mod 64; c1] ++ node) (Z.of_nat 6)).
  change (byte_at _ 7) with (byte_at (be_bytes 4 val ++ [val / 2 ^ 40 mod 256; val / 2 ^ 32 mod 256] ++
    [16 + val / 2 ^ 56 mod 16; val / 2 ^ 48 mod 256; 128 + c0 mod 64; c1] ++ node) (Z.of_nat 7)).
  rewrite !B by lia. cbn [app].
  change (byte_at (?a :: ?b :: ?c :: ?d :: ?l) (Z.of_nat (4 - 4))) with (Some a).
  change (byte_at (?a :: ?b :: ?c :: ?d :: ?l) (Z.of_nat (5 - 4))) with (Some b).
  change (byte_at (?a :: ?b :: ?c :: ?d :: ?l) (Z.of_nat (6 - 4))) with (Some c).
  change (byte_at (?a :: ?b :: ?c :: ?d :: ?l) (Z.of_nat (7 - 4))) with (Some d).
  cbn [default]. unfold id.
  rewrite !js_and_255, js_and_15 by (unfold is_byte; lia).
  rewrite join_high by (unfold is_byte; lia).
  assert (V : to_int32 ((16 + val / 2 ^ 56 mod 16) mod 16 * 2 ^ 24 + val / 2 ^ 48 mod 256 mod 256 * 2 ^ 16 +
             val / 2 ^ 40 mod 256 mod 256 * 2 ^ 8 + val / 2 ^ 32 mod 256 mod 256) * 2 ^ 32 + to_uint32 (val mod 2 ^ 32) = val).
  { rewrite to_int32_id by (unfold int32; lia). unfold to_uint32. lia. }
  rewrite V. unfold unixToGregorian, ticksInMs.
  rewrite !l_fromNumber_exact by lia. rewrite l_div_exact, l_modulo_exact by (unfold int64; lia).
  rewrite Z.quot_div_nonneg, Z.rem_mod_nonneg by lia. rewrite l_subtract_exact by (unfold int64; lia). done.
Qed.

End reading.

(** ** Properties *)

(** The comparison of the last eight bytes by the server: lexicographic, on signed bytes. *)
Fixpoint signed_le (a b : bytes) : bool :=
  match a, b with
  | [], _ => true
  | _ :: _, [] => false
  | x :: a, y :: b =>
      (signed 8 x <? signed 8 y) || ((signed 8 x =? signed 8 y) && signed_le a b)
  end.

Definition lsb (u : Uuid.t) : bytes := slice_from (Uuid.raw u) 8.

Lemma signed_le_pointwise a b : Forall2 (fun x y => signed 8 x <= signed 8 y) a b -> signed_le a b = true.
Proof. induction 1 as [|x y a b Hxy HF IH]; cbn; [done|]. rewrite IH. repeat case_Z; cbn; try done; lia. Qed.

Lemma layout_length val c0 c1 node : blen node = 6 -> blen (layout val c0 c1 node) = 16.
Proof. intros Hn. unfold layout. rewrite !blen_app, !blen_be, Hn. reflexivity. Qed.

Section properties.
Context `{LongArithLaws, Allocator}.

Lemma fromDate_layout c now time ticks node c0 c1 rn rc :
  0 <= ticks < 10000 -> 0 <= gregorian time ticks < 2 ^ 60 -> blen node = 6 -> is_byte c0 ->
  fromDate c now (Some time) (Some ticks) (IdBuffer node) (IdBuffer [c0; c1]) rn rc
  = (Ok (Uuid.mk (layout (gregorian time ticks) c0 c1 node)), c).
Proof.
  intros Ht Hg Hn Hc. unfold fromDate. rewrite generateBuffer_spec by done. rewrite ok_bind.
  unfold Uuid.constructor. by rewrite layout_length.
Qed.

Lemma lsb_layout val c0 c1 node : blen node = 6 ->
  lsb (Uuid.mk (layout val c0 c1 node)) = 128 + c0 mod 64 :: c1 :: node.
Proof.
  intros Hn. unfold lsb, slice_from. cbn [Uuid.raw]. rewrite layout_length by done. unfold layout.
  rewrite <- (app_nil_r node) at 1.
  change ([?a; ?b; ?x; ?y] ++ node ++ []) with ([a; b] ++ (x :: y :: node) ++ []).
  rewrite !app_assoc. rewrite <- (app_assoc _ (_ :: _ :: node)).
  rewrite slice_app; [done|by rewrite !blen_app, !blen_be|].
  rewrite !blen_app, !blen_be. change (128 + c0 mod 64 :: c1 :: node) with ([128 + c0 mod 64; c1] ++ node).
  rewrite blen_app, Hn. reflexivity.
Qed.

Lemma byte_signed x : is_byte x -> -128 <= signed 8 x <= 127.
Proof. unfold is_byte, signed. intros Hx. case_Z; lia. Qed.

(** The parts of a time-based UUID are read back: for a date (up to the year 5236,
    where the 60 bits of the timestamp end) with its ticks, a node and a clock
    identifier, the UUID has version 1, [getDatePrecision] gives the date and the
    ticks, [getNodeId] the node, and [getClockId] the clock identifier with the two
    variant bits set; the counters of the module are not used. *)
Theorem timeuuid_roundtrip c now time ticks node c0 c1 rn rc :
  0 <= ticks < 10000 -> 0 <= gregorian time ticks < 2 ^ 60 ->
  blen node = 6 -> wf_bytes node -> is_byte c0 -> is_byte c1 ->
  exists u, fromDate c now (Some time) (Some ticks) (IdBuffer node) (IdBuffer [c0; c1]) rn rc = (Ok u, c) /\
    getDatePrecision u = Ok (time, ticks) /\ getNodeId u = node /\
    getClockId u = [128 + c0 mod 64; c1] /\ Uuid.wf u /\ elem (Uuid.raw u) 6 / 16 = 1.
Proof.
  intros Ht Hg Hn Hwf Hc0 Hc1. eexists. split; [by apply fromDate_layout|].
  set (val := gregorian time ticks) in *.
  assert (Hl : lsb (Uuid.mk (layout val c0 c1 node)) = 128 + c0 mod 64 :: c1 :: node) by by apply lsb_layout.
  split; [rewrite getDatePrecision_layout by done; unfold val, gregorian in *; f_equal; f_equal; lia|].
  assert (Hlist : exists a, layout val c0 c1 node = a ++ [16 + val / 2 ^ 56 mod 16; val / 2 ^ 48 mod 256] ++
            [128 + c0 mod 64; c1] ++ node /\ blen a = 6 /\ wf_bytes a).
  { exists (be_bytes 4 val ++ be_bytes 2 (val / 2 ^ 32)). unfold layout. rewrite <- app_assoc. split; [done|].
    rewrite blen_app, !blen_be. split; [done|]. apply Forall_app. split; apply be_bytes_wf. }
  destruct Hlist as (a & Ha & Hla & Hwa).
  assert (H16 : blen (layout val c0 c1 node) = 16) by by apply layout_length.
  unfold getNodeId, getClockId, Uuid.wf, elem, slice_from. cbn [Uuid.raw]. rewrite H16, Ha.
  unfold is_byte in Hc0. split_and!.
  - rewrite <- (app_nil_r node) at 1. rewrite !app_assoc.
    rewrite <- (app_assoc _ node). apply slice_app; rewrite !blen_app, Hla; [reflexivity|rewrite Hn; reflexivity].
  - rewrite app_assoc. apply slice_app; rewrite blen_app, Hla; reflexivity.
  - unfold wf_bytes. rewrite !Forall_app. split_and!; try done;
      repeat (apply Forall_cons_2; [unfold is_byte in *; lia|]); apply Forall_nil_2.
  - rewrite Ha in H16. unfold blen in H16. lia.
  - replace 6 with (blen a). cbn [app]. rewrite byte_at_app. cbn [default]. unfold id. lia.
Qed.

(** [min] and [max] bound the UUIDs of their date: any UUID made for the same date
    and ticks has the same first eight bytes, and its last eight lie between those of
    [min] and [max] in the server's order, which compares them as signed bytes. *)
Theorem timeuuid_min_max c now time ticks node c0 c1 rn rc :
  0 <= ticks < 10000 -> 0 <= gregorian time ticks < 2 ^ 60 ->
  blen node = 6 -> wf_bytes node -> is_byte c0 -> is_byte c1 ->
  exists lo u hi,
    min c now (Some time) (Some ticks) = (Ok lo, c) /\
    fromDate c now (Some time) (Some ticks) (IdBuffer node) (IdBuffer [c0; c1]) rn rc = (Ok u, c) /\
    max c now (Some time) (Some ticks) = (Ok hi, c) /\
    take 8 (Uuid.raw lo) = take 8 (Uuid.raw u) /\ take 8 (Uuid.raw u) = take 8 (Uuid.raw hi) /\
    signed_le (lsb lo) (lsb u) = true /\ signed_le (lsb u) (lsb hi) = true.
Proof.
  intros Ht Hg Hn Hwf Hc0 Hc1. set (val := gregorian time ticks).
  exists (Uuid.mk (layout val 128 128 minNodeId)), (Uuid.mk (layout val c0 c1 node)),
    (Uuid.mk (layout val 127 127 maxNodeId)).
  split; [by apply fromDate_layout|]. split; [by apply fromDate_layout|]. split; [by apply fromDate_layout|].
  assert (Hpre : forall c0 c1 node, take 8 (layout val c0 c1 node)
            = be_bytes 4 val ++ be_bytes 2 (val / 2 ^ 32) ++ [16 + val / 2 ^ 56 mod 16; val / 2 ^ 48 mod 256]).
  { intros d0 d1 nd. unfold layout. change ([?a; ?b; ?x; ?y] ++ nd) with ([a; b] ++ (x :: y :: nd)).
    rewrite !app_assoc. apply take_app_length'. by rewrite !length_app, !be_bytes_length. }
  cbn [Uuid.raw]. rewrite !Hpre, !lsb_layout by done. split; [done|]. split; [done|].
  pose proof (byte_signed c1 Hc1) as Hs1. unfold is_byte in Hc0.
  assert (Hs0 : signed 8 128 <= signed 8 (128 + c0 mod 64) <= signed 8 191).
  { unfold signed. repeat case_Z; lia. }
  assert (Hb : forall k, length k = 6%nat -> Forall (fun x => signed 8 x = -128) k ->
             Forall2 (fun x y => signed 8 x <= signed 8 y) k node).
  { intros k Hk HF. apply Forall2_same_length_lookup_2; [unfold blen in Hn; lia|]. intros i x y Hx Hy.
    rewrite (Forall_lookup_1 _ _ _ _ HF Hx). pose proof (byte_signed y (Forall_lookup_1 _ _ _ _ Hwf Hy)). lia. }
  assert (Hm : forall k, length k = 6%nat -> Forall (fun x => signed 8 x = 127) k ->
             Forall2 (fun x y => signed 8 x <= signed 8 y) node k).
  { intros k Hk HF. apply Forall2_same_length_lookup_2; [unfold blen in Hn; lia|]. intros i x y Hx Hy.
    rewrite (Forall_lookup_1 _ _ _ _ HF Hy). pose proof (byte_signed x (Forall_lookup_1 _ _ _ _ Hwf Hx)). lia. }
  split; apply signed_le_pointwise.
  - constructor; [change (128 + 128 mod 64) with 128; lia|]. constructor; [exact (proj1 Hs1)|].
    apply Hb; [done|]. repeat constructor.
  - constructor; [change (128 + 127 mod 64) with 191; lia|]. constructor; [exact (proj2 Hs1)|].
    apply Hm; [done|]. repeat constructor.
Qed.

End properties.

Lemma timeuuid_roundtrip_witness :
  exists u, fromDate initial 0 (Some 1700000000000) (Some 1203) (IdBuffer [104;111;115;116;48;49])
              (IdBuffer [200; 7]) [] [] = (Ok u, initial) /\
            getDatePrecision u = Ok (1700000000000, 1203).
Proof.
  destruct (timeuuid_roundtrip initial 0 1700000000000 1203 [104;111;115;116;48;49] 200 7 [] [])
    as (u & Hu & Hd & _); [lia|vm_compute; split; [discriminate|reflexivity]|reflexivity| | | |by exists u].
  - repeat (apply Forall_cons_2; [unfold is_byte; lia|]); apply Forall_nil_2.
  - unfold is_byte. lia.
  - unfold is_byte. lia.
Defined.

Lemma timeuuid_min_max_witness :
  exists lo, min initial 0 (Some 1700000000000) (Some 1203) = (Ok lo, initial).
Proof.
  destruct (timeuuid_min_max initial 0 1700000000000 1203 [104;111;115;116;48;49] 200 7 [] [])
    as (lo & u & hi & Hlo & _); [lia|vm_compute; split; [discriminate|reflexivity]|reflexivity| | | |by exists lo].
  - repeat (apply Forall_cons_2; [unfold is_byte; lia|]); apply Forall_nil_2.
  - unfold is_byte. lia.
  - unfold is_byte. lia.
Defined.

End TimeUuid.
