(* ===== verification/Token.v ===== *)
(** * Tokens and token ranges

    lib/token.js.  A token holds a value of the partitioner's type; ranges compare tokens
    through [compare] only.  [TokenValue] is that interface, with the three partitioners
    as instances and the laws of a total preorder they satisfy ([TokenOrder]).  The
    tokenizer, which is not part of the repository, is the class [Tokenizer].

    The theorems: [contains] agrees with the definition of a start-exclusive,
    end-inclusive interval of the ring; [unwrap] and [splitEvenly] partition a range. *)

From S2P Require Import Prelude JsNumber Buffer JsString Utf8 Integer ValueTypes CqlTypes.

(** ** Values of tokens *)

Class TokenValue (V : Type) : Type := {
  compare : V -> V -> Z;
  getType : columnInfo
}.

(** [compare] is a total preorder. *)
Class TokenOrder (V : Type) `{TokenValue V} : Prop := {
  compare_opp : forall a b : V, Z.sgn (compare a b) = - Z.sgn (compare b a);
  compare_trans : forall a b c : V, compare a b <= 0 -> compare b c <= 0 -> compare a c <= 0
}.

(** The tokenizer of the ring: its least token, and the points that divide a range. *)
Class Tokenizer (V : Type) : Type := {
  minToken : V;
  split : V -> V -> Z -> list V
}.

Class TokenizerLaws (V : Type) `{TokenValue V, Tokenizer V} : Prop := {
  minToken_least : forall a : V, compare minToken a <= 0
}.

(** Murmur3Token: a Long. *)
Definition long_value : Type := {z : Z | - 2 ^ 63 <= z < 2 ^ 63}.

#[export] Instance murmur3 : TokenValue long_value := {|
  compare := fun a b => if `a <? `b then -1 else if `b <? `a then 1 else 0;
  getType := simple dataTypes.bigint
|}.

(** RandomToken: a canonical Integer. *)
Definition random_value : Type := {i : Integer.t | Integer.wf i}.

#[export] Instance random : TokenValue random_value := {|
  compare := fun a b => Integer.compare (`a) (`b);
  getType := simple dataTypes.varint
|}.

(** ByteOrderedToken: a Buffer; [Buffer.compare] is lexicographic. *)
Fixpoint buffer_compare (a b : bytes) : Z :=
  match a, b with
  | [], [] => 0
  | [], _ :: _ => -1
  | _ :: _, [] => 1
  | x :: a, y :: b => if x <? y then -1 else if y <? x then 1 else buffer_compare a b
  end.

(** [toUpperCase] of a hexadecimal string *)
Definition upper_hex (s : jsstr) : jsstr := (fun c => if 97 <=? c then c - 32 else c) <$> s.

#[export] Instance byte_ordered : TokenValue bytes := {|
  compare := buffer_compare;
  getType := simple dataTypes.blob
|}.

(** [toString] of a ByteOrderedToken *)
Definition byte_ordered_string (b : bytes) : jsstr := upper_hex (hex_encode b).

#[export] Instance murmur3_order : TokenOrder long_value.
Proof.
  split; unfold compare; cbn.
  - intros [a Ha] [b Hb]. cbn. repeat case_Z; lia.
  - intros [a Ha] [b Hb] [c Hc]. cbn. repeat case_Z; lia.
Qed.

#[export] Instance random_order : TokenOrder random_value.
Proof.
  split; unfold compare; cbn.
  - intros [a Ha] [b Hb]. cbn. rewrite !Integer.compare_value by done.
    destruct (Z.compare_spec (Integer.value a) (Integer.value b)),
      (Z.compare_spec (Integer.value b) (Integer.value a)); lia.
  - intros [a Ha] [b Hb] [c Hc]. cbn. rewrite !Integer.compare_value by done.
    destruct (Z.compare_spec (Integer.value a) (Integer.value b)),
      (Z.compare_spec (Integer.value b) (Integer.value c)),
      (Z.compare_spec (Integer.value a) (Integer.value c)); lia.
Qed.

#[export] Instance byte_ordered_order : TokenOrder bytes.
Proof.
  split; unfold compare; cbn.
  - induction a as [|x a IH]; intros [|y b]; cbn; try done. repeat case_Z; try lia. apply IH.
  - induction a as [|x a IH]; intros [|y b] [|z c]; cbn; try lia. repeat case_Z; try lia. apply IH.
Qed.

Section Token.
Context {V : Type} `{TokenValue V}.

Definition equals (a b : V) : bool := compare a b =? 0.

(** ** TokenRange *)

Record range : Type := mkRange { start : V; end_ : V }.

Context `{Tokenizer V}.

Definition isEmpty (r : range) : bool := equals (start r) (end_ r) && negb (equals (start r) minToken).

Definition isWrappedAround (r : range) : bool :=
  (0 <? compare (start r) (end_ r)) && negb (equals (end_ r) minToken).

Definition unwrap (r : range) : list range :=
  if isWrappedAround r then [mkRange (start r) minToken; mkRange minToken (end_ r)] else [r].

Definition contains (r : range) (token : V) : bool :=
  if isEmpty r then false
  else if equals (end_ r) minToken then
    if equals (start r) minToken then true
    else if equals token minToken then true
    else 0 <? compare token (start r)
  else
    let isAfterStart := 0 <? compare token (start r) in
    let isBeforeEnd := compare token (end_ r) <=? 0 in
    if isWrappedAround r then isAfterStart || isBeforeEnd else isAfterStart && isBeforeEnd.

(** The loop over the split points, and the range after the last one. *)
Fixpoint split_ranges (splitStart : V) (splitPoints : list V) (last : V) : list range :=
  match splitPoints with
  | [] => [mkRange splitStart last]
  | splitEnd :: points => mkRange splitStart splitEnd :: split_ranges splitEnd points last
  end.

Definition splitEvenly (r : range) (numberOfSplits : Z) : result (list range) :=
  if numberOfSplits <? 1 then Err (PlainError "numberOfSplits must be greater than 0.")
  else if isEmpty r then Err (PlainError "Can't split empty range")
  else Ok (split_ranges (start r) (split (start r) (end_ r) numberOfSplits) (end_ r)).

Definition compare_ranges (r other : range) : Z :=
  let compareStart := compare (start r) (start other) in
  if negb (compareStart =? 0) then compareStart else compare (end_ r) (end_ other).

(** None: the other value is no TokenRange.  An object equals itself. *)
Definition equals_range (r : range) (other : option range) : bool :=
  match other with Some other => compare_ranges r other =? 0 | None => false end.

(** [toString] of a range, with that of its tokens. *)
Definition toString (token_string : V -> jsstr) (r : range) : jsstr :=
  js "]" ++ token_string (start r) ++ js ", " ++ token_string (end_ r) ++ js "]".

End Token.

Arguments range V : clear implicits.

(** ** The order of tokens *)

Section order.
Context {V : Type} `{TokenOrder V}.

Definition le (a b : V) : Prop := compare a b <= 0.
Definition lt (a b : V) : Prop := compare a b < 0.
Definition same (a b : V) : Prop := compare a b = 0.

Lemma le_total (a b : V) : le a b \/ le b a.
Proof. unfold le. pose proof (compare_opp a b). lia. Qed.

Lemma not_le_lt (a b : V) : ~ le a b <-> lt b a.
Proof. unfold le, lt. pose proof (compare_opp a b). lia. Qed.

#[export] Instance le_preorder : PreOrder le.
Proof.
  split.
  - intros a. destruct (le_total a a); done.
  - intros a b c. apply compare_trans.
Qed.

#[export] Instance same_equiv : Equivalence same.
Proof.
  split.
  - intros a. unfold same. pose proof (compare_opp a a). lia.
  - intros a b. unfold same. pose proof (compare_opp a b). lia.
  - intros a b c Hab Hbc. unfold same in *.
    assert (compare a c <= 0) by (apply (compare_trans a b c); lia).
    assert (compare c a <= 0)
      by (apply (compare_trans c b a); [pose proof (compare_opp c b)|pose proof (compare_opp b a)]; lia).
    pose proof (compare_opp a c). lia.
Qed.

Lemma same_le (a b : V) : same a b <-> le a b /\ le b a.
Proof. unfold same, le. pose proof (compare_opp a b). lia. Qed.

#[export] Instance le_proper : Proper (same ==> same ==> iff) le.
Proof.
  intros a a' [Ha Ha']%same_le b b' [Hb Hb']%same_le.
  split; intros Hl; [transitivity a; [done|]; by transitivity b|transitivity a'; [done|]; by transitivity b'].
Qed.

Lemma le_lt_trans (a b c : V) : le a b -> lt b c -> lt a c.
Proof. rewrite <- !not_le_lt. intros Hab Hbc Hca. apply Hbc. by transitivity a. Qed.

Lemma lt_le_trans (a b c : V) : lt a b -> le b c -> lt a c.
Proof. rewrite <- !not_le_lt. intros Hab Hbc Hca. apply Hab. by transitivity c. Qed.

Lemma lt_le (a b : V) : lt a b -> le a b.
Proof. unfold lt, le. lia. Qed.

Lemma lt_irrefl (a : V) : ~ lt a a.
Proof. rewrite <- not_le_lt. intros Hn. apply Hn. reflexivity. Qed.

(** The position of a token among finitely many tokens: how many are less. *)
Fixpoint rank (l : list V) (x : V) : Z :=
  match l with [] => 0 | y :: l => (if compare y x <? 0 then 1 else 0) + rank l x end.

Lemma rank_le l (x y : V) : le x y -> rank l x <= rank l y.
Proof.
  intros Hl. induction l as [|z l IH]; cbn; [lia|].
  destruct (Z.ltb_spec (compare z x) 0) as [Hx|Hx], (Z.ltb_spec (compare z y) 0) as [Hy|Hy]; try lia.
  assert (compare z y < 0) by (apply (lt_le_trans z x y); done). lia.
Qed.

Lemma rank_lt l (x y : V) : x ∈ l -> lt x y -> rank l x < rank l y.
Proof.
  intros Hin Hl. induction l as [|z l IH]; [by apply not_elem_of_nil in Hin|]. cbn.
  pose proof (rank_le l x y (lt_le x y Hl)).
  apply elem_of_cons in Hin as [<-|Hin].
  - destruct (Z.ltb_spec (compare x x) 0) as [Hx|Hx]; [by apply lt_irrefl in Hx|].
    destruct (Z.ltb_spec (compare x y) 0) as [Hy|Hy]; [lia|unfold lt in Hl; lia].
  - specialize (IH Hin).
    destruct (Z.ltb_spec (compare z x) 0) as [Hx|Hx], (Z.ltb_spec (compare z y) 0) as [Hy|Hy]; try lia.
    assert (compare z y < 0) by (apply (lt_le_trans z x y); [done|by apply lt_le]). lia.
Qed.

(** Among finitely many tokens, comparing them is comparing their positions. *)
Lemma compare_rank l (x y : V) : x ∈ l -> y ∈ l -> Z.sgn (compare x y) = Z.sgn (rank l x - rank l y).
Proof.
  intros Hx Hy. pose proof (compare_opp x y). destruct (Z.lt_trichotomy (compare x y) 0) as [Hc|[Hc|Hc]].
  - pose proof (rank_lt l x y Hx Hc). lia.
  - assert (le x y /\ le y x) as [Hle Hge] by by apply same_le. pose proof (rank_le l x y Hle). pose proof (rank_le l y x Hge). lia.
  - assert (Hc' : lt y x) by (unfold lt; lia). pose proof (rank_lt l y x Hy Hc'). lia.
Qed.

End order.

(** ** Ranges as intervals of the ring *)

Section ranges.
Context {V : Type} `{TokenOrder V, !Tokenizer V, !TokenizerLaws V}.

(** The tests on a comparison, as tests on positions. *)
Definition placed (a b : V) (ra rb : Z) : Prop :=
  (0 <? compare a b) = (rb <? ra) /\ (compare a b <=? 0) = (ra <=? rb) /\ (compare a b =? 0) = (ra =? rb).

Lemma placed_rank l a b : a ∈ l -> b ∈ l -> placed a b (rank l a) (rank l b).
Proof.
  intros Ha Hb. pose proof (compare_rank l a b Ha Hb) as E. unfold placed.
  split_and!; repeat case_Z; try reflexivity; lia.
Qed.

(** Four tokens and the least one have positions that determine their comparisons. *)
Lemma positions (a b c d : V) : exists ra rb rc rd rm : Z,
  (rm <= ra /\ rm <= rb /\ rm <= rc /\ rm <= rd) /\
  (placed a b ra rb /\ placed a c ra rc /\ placed a d ra rd /\
   placed b a rb ra /\ placed b c rb rc /\ placed b d rb rd /\
   placed c a rc ra /\ placed c b rc rb /\ placed c d rc rd /\
   placed d a rd ra /\ placed d b rd rb /\ placed d c rd rc) /\
  (placed a minToken ra rm /\ placed b minToken rb rm /\ placed c minToken rc rm /\ placed d minToken rd rm /\
   placed minToken a rm ra /\ placed minToken b rm rb /\ placed minToken c rm rc /\ placed minToken d rm rd /\
   placed minToken minToken rm rm).
Proof.
  set (l := [a; b; c; d; minToken]).
  exists (rank l a), (rank l b), (rank l c), (rank l d), (rank l minToken).
  split; [split_and!; apply rank_le, minToken_least|].
  split_and!; apply placed_rank; unfold l; rewrite !elem_of_cons; tauto.
Qed.

(** Replaces the comparisons of four tokens and the least one by those of integers, and
    decides the goal by cases on their order. *)
Ltac by_positions a b c d :=
  let Hm := fresh in let Ho := fresh in let Hn := fresh in
  let ra := fresh in let rb := fresh in let rc := fresh in let rd := fresh in let rm := fresh in
  destruct (positions a b c d) as (ra & rb & rc & rd & rm & Hm & Ho & Hn); unfold placed in Ho, Hn;
  destruct_and? Ho; destruct_and? Hn;
  repeat match goal with E : _ = _ :> bool |- _ => rewrite ?E; clear E end;
  clear - Hm; repeat (case_Z; try (exfalso; lia)); cbn; first [reflexivity | lia | done].

(** Counting from the start of the ring, the least token comes last: it is the end of
    the ranges that go up to it. *)
Definition after (s t : V) : bool := (0 <? compare t s) || equals t minToken.
Definition upto (t e : V) : bool := equals e minToken || (negb (equals t minToken) && (compare t e <=? 0)).

Definition linear (s e : V) : bool := (compare s e <=? 0) || equals e minToken.

Lemma contains_linear s e t : linear s e = true -> contains (mkRange s e) t = after s t && upto t e.
Proof.
  unfold linear, contains, isEmpty, isWrappedAround, after, upto, equals. cbn [start end_].
  by_positions s e t t.
Qed.


(** How many ranges contain a token. *)
Definition covering (rs : list (range V)) (t : V) : Z :=
  Z.of_nat (length (List.filter (fun r => contains r t) rs)).

Lemma covering_cons r rs t : covering (r :: rs) t = Z.b2z (contains r t) + covering rs t.
Proof. unfold covering. cbn. destruct (contains r t); cbn [length Z.b2z]; lia. Qed.

Lemma contains_wrapped s e t :
  isWrappedAround (mkRange s e) = true ->
  contains (mkRange s e) t = (0 <? compare t s) || (compare t e <=? 0).
Proof.
  intros Hw. unfold contains. rewrite Hw. revert Hw.
  unfold isEmpty, isWrappedAround, equals. cbn [start end_]. by_positions s e t t.
Qed.

(** Points in order from [s] to [e] without passing the end of the ring. *)
Fixpoint chain (s : V) (ps : list V) (e : V) : bool :=
  match ps with
  | [] => linear s e
  | p :: ps => (compare s p <=? 0) && negb (equals p minToken) && chain p ps e
  end.

(** Points in order from [s] around the end of the ring to [e]. *)
Fixpoint wrap_chain (s : V) (ps : list V) (e : V) : bool :=
  match ps with
  | [] => true
  | p :: ps =>
      negb (equals p minToken) &&
      (if compare s p <=? 0 then wrap_chain p ps e else chain p ps e)
  end.

(** The split points of a range are met in order when going along it. *)
Definition ring_chain (r : range V) (ps : list V) : bool :=
  if isWrappedAround r then wrap_chain (start r) ps (end_ r) else chain (start r) ps (end_ r).

Lemma chain_linear s ps e : chain s ps e = true -> linear s e = true.
Proof.
  revert s. induction ps as [|p ps IH]; intros s; [done|]. cbn [chain]. intros Hc.
  apply andb_true_iff in Hc as [Hc Hr]. apply IH in Hr. revert Hc Hr.
  unfold linear, equals. by_positions s p e e.
Qed.

Lemma covering_chain s ps e t :
  chain s ps e = true -> covering (split_ranges s ps e) t = Z.b2z (after s t && upto t e).
Proof.
  revert s. induction ps as [|p ps IH]; intros s Hc; cbn [split_ranges]; rewrite covering_cons.
  - rewrite contains_linear by done. unfold covering. cbn [List.filter length]. lia.
  - cbn [chain] in Hc. apply andb_true_iff in Hc as [Hc Hr].
    rewrite IH by done. apply chain_linear in Hr.
    rewrite contains_linear by (unfold linear; by apply andb_true_iff in Hc as [-> _]).
    revert Hc Hr. unfold linear, after, upto, equals. by_positions s p e t.
Qed.

Lemma covering_wrap_chain s ps e t :
  isWrappedAround (mkRange s e) = true -> wrap_chain s ps e = true ->
  covering (split_ranges s ps e) t = Z.b2z ((0 <? compare t s) || (compare t e <=? 0)).
Proof.
  revert s. induction ps as [|p ps IH]; intros s Hw Hc; cbn [split_ranges]; rewrite covering_cons.
  - rewrite contains_wrapped by done. unfold covering. cbn [List.filter length]. lia.
  - cbn [wrap_chain] in Hc. apply andb_true_iff in Hc as [Hp Hc].
    destruct (compare s p <=? 0) eqn:Hsp.
    + rewrite IH by (done || revert Hw Hp Hsp; unfold isWrappedAround, equals; cbn [start end_]; by_positions s p e e).
      rewrite contains_linear by (unfold linear; by rewrite Hsp).
      revert Hw Hp Hsp. unfold isWrappedAround, after, upto, equals. cbn [start end_]. by_positions s p e t.
    + rewrite covering_chain by done. apply chain_linear in Hc.
      rewrite contains_wrapped
        by (revert Hw Hp Hsp Hc; unfold isWrappedAround, linear, equals; cbn [start end_]; by_positions s p e e).
      revert Hw Hp Hsp Hc. unfold isWrappedAround, linear, after, upto, equals. cbn [start end_]. by_positions s p e t.
Qed.

(** [unwrap] gives ranges that do not wrap around the ring, and together they
    contain exactly the tokens of the range, each of them once. *)
Theorem unwrap_partition (r : range V) (t : V) :
  Forall (fun p => isWrappedAround p = false) (unwrap r) /\
  covering (unwrap r) t = Z.b2z (contains r t).
Proof.
  destruct r as [s e]. unfold unwrap. destruct (isWrappedAround (mkRange s e)) eqn:Hw; cbn [start end_].
  - split; [apply Forall_cons_2; [|apply Forall_cons_2; [|apply Forall_nil_2]]|].
    + unfold isWrappedAround, equals. cbn [start end_]. by_positions s e e e.
    + unfold isWrappedAround, equals. cbn [start end_]. by_positions s e e e.
    + rewrite !covering_cons, (contains_wrapped s e t) by done.
      rewrite !contains_linear by (unfold linear, equals; by_positions s e e e).
      change (covering [] t) with 0. revert Hw.
      unfold isWrappedAround, after, upto, equals. cbn [start end_]. by_positions s e t t.
  - split; [by apply Forall_cons_2; [|apply Forall_nil_2]|].
    rewrite covering_cons. change (covering [] t) with 0. lia.
Qed.

(** [splitEvenly] partitions a range: for a range that is not empty and split points
    that lie in order along it, away from the least token, every token of the range is
    in exactly one of the ranges returned and no other token is in any; there is one
    range more than split points. *)
Theorem splitEvenly_partition (r : range V) (n : Z) (t : V) :
  1 <= n -> isEmpty r = false ->
  ring_chain r (split (start r) (end_ r) n) = true ->
  exists rs, splitEvenly r n = Ok rs /\ length rs = S (length (split (start r) (end_ r) n)) /\
             covering rs t = Z.b2z (contains r t).
Proof.
  intros Hn He Hc. unfold splitEvenly. rewrite (proj2 (Z.ltb_ge n 1)), He by lia.
  eexists. split; [done|]. destruct r as [s e]. unfold ring_chain in Hc. cbn [start end_] in *.
  generalize dependent (split s e n). intros ps Hc. split.
  - clear Hc. revert s He. induction ps as [|p ps IH]; intros s He; [done|]. cbn [split_ranges length].
    f_equal. clear He IH. revert p. induction ps as [|q ps IH]; intros p; [done|]. cbn. f_equal. apply IH.
  - destruct (isWrappedAround (mkRange s e)) eqn:Hw.
    + by rewrite covering_wrap_chain, contains_wrapped.
    + rewrite covering_chain by done. apply chain_linear in Hc. by rewrite contains_linear.
Qed.

End ranges.

(** A ring of 64-bit tokens, with fixed split points. *)
Lemma long_ok z : (- 2 ^ 63 <=? z) && (z <? 2 ^ 63) = true -> - 2 ^ 63 <= z < 2 ^ 63.
Proof. intros [Ha Hb]%andb_true_iff. apply Z.leb_le in Ha. by apply Z.ltb_lt in Hb. Qed.

Definition long (z : Z) (Hz : (- 2 ^ 63 <=? z) && (z <? 2 ^ 63) = true) : long_value :=
  exist _ z (long_ok z Hz).

#[local] Instance sample_tokenizer : Tokenizer long_value := {|
  minToken := long (- 2 ^ 63) eq_refl;
  split := fun _ _ _ => [long 100 eq_refl; long 200 eq_refl; long (- 50) eq_refl]
|}.

#[local] Instance sample_tokenizer_laws : TokenizerLaws long_value.
Proof. split. intros [a Ha]. unfold compare. cbn [murmur3 minToken sample_tokenizer long proj1_sig]. repeat case_Z; lia. Qed.

Lemma unwrap_partition_witness :
  covering (unwrap (mkRange (long 5 eq_refl) (long 3 eq_refl))) (long 7 eq_refl) = 1.
Proof. exact (proj2 (unwrap_partition (mkRange (long 5 eq_refl) (long 3 eq_refl)) (long 7 eq_refl))). Defined.

Lemma splitEvenly_partition_witness :
  exists rs, splitEvenly (mkRange (long 5 eq_refl) (long 3 eq_refl)) 4 = Ok rs /\ length rs = 4%nat /\
             covering rs (long 150 eq_refl) = 1.
Proof.
  destruct (splitEvenly_partition (mkRange (long 5 eq_refl) (long 3 eq_refl)) 4 (long 150 eq_refl))
    as (rs & Hrs & Hl & Hc); [| | |by exists rs].
  - lia.
  - vm_compute. reflexivity.
  - vm_compute. reflexivity.
Defined.
