(* ===== verification/LoadBalancing.v ===== *)
(** * Load balancing

    lib/policies/load-balancing.js: the query plans of the policy implemented in
    JavaScript (LegacyDefaultLoadBalancingPolicy), with [shuffleArray] of lib/utils.js,
    and the configurations the other policies hand to the Rust layer.

    Random numbers are arguments: [pick i] is [Math.floor(Math.random() * (i + 1))] and
    [dice] is [Math.random() * 4 >= 1].  A plan is iterated while the hosts keep their
    state.

    The theorems: a plan contains every usable host exactly once, the local replicas
    first; moving unhealthy replicas puts them last and changes nothing else; nested
    allow lists intersect, and configurations are shared, not copied. *)

From S2P Require Import Prelude JsString.

(** ** Arrays *)

(** [temp = a[i]; a[i] = a[j]; a[j] = temp] *)
Definition swap {A} (l : list A) (i j : nat) : list A :=
  match l !! i, l !! j with
  | Some x, Some y => <[j := x]> (<[i := y]> l)
  | _, _ => l
  end.

(** The loop of [shuffleArray], from index [i] down to 1. *)
Fixpoint shuffle_loop {A} (pick : nat -> nat) (i : nat) (arr : list A) : list A :=
  match i with
  | O => arr
  | S i' => shuffle_loop pick i' (swap arr i (pick i))
  end.

Definition shuffleArray {A} (pick : nat -> nat) (arr : list A) : list A :=
  shuffle_loop pick (length arr - 1) arr.

(** ** Hosts *)

Record host : Type := mkHost {
  host_id : nat;
  datacenter : jsstr;
  isUp : bool;
  isUpSince : option Z;
  inFlight : Z;
  responseCount : Z }.

#[export] Instance host_eq_dec : EqDecision host.
Proof. solve_decision. Defined.

Inductive distance : Type := d_local | d_remote | d_ignored.

Definition newlyUpInterval : Z := 60000.

Definition isHostNewlyUp (now : Z) (h : host) : option Z :=
  match isUpSince h with
  | Some since => if now - since <? newlyUpInterval then Some since else None
  | None => None
  end.

Definition healthCheck (h : host) : bool := negb ((10 <=? inFlight h) && (responseCount h <=? 1)).

Definition compare_load (h1 h2 : host) : Z := if inFlight h1 <? inFlight h2 then 1 else -1.

(** ** The policy *)

(** The fields of the policy; the hosts are the values of the host map. *)
Record policy : Type := mkPolicy {
  hosts : list host;
  filteredHosts : option (list host);
  preferredHost : option host;
  index : Z;
  localDc : jsstr;
  filter_ : host -> bool }.

Definition getDistance (p : policy) (h : host) : distance :=
  if bool_decide (preferredHost p = Some h) then d_local
  else if negb (filter_ p h) then d_ignored
  else if bool_decide (datacenter h = localDc p) then d_local else d_ignored.

Definition getFilteredLocalHosts (p : policy) : list host * policy :=
  match filteredHosts p with
  | Some l => (l, p)
  | None =>
      let l := List.filter (fun h => filter_ p h && bool_decide (datacenter h = localDc p)) (hosts p) in
      (l, mkPolicy (hosts p) (Some l) (preferredHost p) (index p) (localDc p) (filter_ p))
  end.

Definition getIndex (p : policy) : Z * policy :=
  let result := index p in
  let index := if index p + 1 =? 0x7fffffff then 0 else index p + 1 in
  (result, mkPolicy (hosts p) (filteredHosts p) (preferredHost p) index (localDc p) (filter_ p)).

(** The hosts the generator [#getLocalHosts] yields; [localReplicas] are not yielded again. *)
Definition getLocalHosts (p : policy) (localReplicas : list host) : list host * policy :=
  let '(hosts, p) := getFilteredLocalHosts p in
  let '(initialIndex, p) := getIndex p in
  let at_ := fun i => hosts !! Z.to_nat ((Z.of_nat i + initialIndex) mod Z.of_nat (length hosts)) in
  let canBeYield := fun h => negb (bool_decide (h ∈ localReplicas)) in
  (List.filter (fun h => canBeYield h && isUp h) (omap at_ (seq 0 (length hosts))), p).

(** The loop of [#getReplicasAndLocalHosts]: the replicas kept, the one that is up for
    the shortest time with its timestamp, and how many are unhealthy. *)
Record scan : Type := mkScan {
  filteredReplicas : list host;
  newlyUpReplica : option host;
  newlyUpReplicaTimestamp : Z;
  unhealthyReplicas : nat }.

Definition MIN_SAFE_INTEGER : Z := - (2 ^ 53 - 1).

Definition usable (p : policy) (h : host) : bool :=
  filter_ p h && bool_decide (datacenter h = localDc p) && isUp h.

Definition scan_replica (p : policy) (now : Z) (s : scan) (h : host) : scan :=
  if negb (usable p h) then s
  else
    let '(nr, nt) :=
      match isHostNewlyUp now h with
      | Some since => if newlyUpReplicaTimestamp s <? since then (Some h, since)
                      else (newlyUpReplica s, newlyUpReplicaTimestamp s)
      | None => (newlyUpReplica s, newlyUpReplicaTimestamp s)
      end in
    let unhealthy :=
      match nr with
      | None => if negb (healthCheck h) then S (unhealthyReplicas s) else unhealthyReplicas s
      | Some _ => unhealthyReplicas s
      end in
    mkScan (filteredReplicas s ++ [h]) nr nt unhealthy.

(** The loop over [i] downwards; [counter] are already at the back. *)
Fixpoint unhealthy_loop (unhealthyReplicas : nat) (i : nat) (counter : nat) (replicas : list host) : list host :=
  match i with
  | O => replicas
  | S i' =>
      if (counter <? unhealthyReplicas)%nat then
        match replicas !! i' with
        | Some h =>
            if healthCheck h then unhealthy_loop unhealthyReplicas i' counter replicas
            else
              let targetIndex := (length replicas - 1 - counter)%nat in
              let replicas := if (targetIndex =? i')%nat then replicas else swap replicas targetIndex i' in
              unhealthy_loop unhealthyReplicas i' (S counter) replicas
        | None => replicas
        end
      else replicas
  end.

Definition sendUnhealthyToTheBack (replicas : list host) (unhealthyReplicas : nat) : list host :=
  unhealthy_loop unhealthyReplicas (length replicas) 0 replicas.

(** The order of the local replicas, once shuffled. *)
Definition order_replicas (dice : bool) (s : scan) (replicas : list host) : list host :=
  if (length replicas <? 3)%nat then replicas
  else
    let replicas :=
      match newlyUpReplica s with
      | None =>
          if (0 <? unhealthyReplicas s)%nat && (unhealthyReplicas s <? length replicas / 2 + 1)%nat
          then sendUnhealthyToTheBack replicas (unhealthyReplicas s) else replicas
      | Some h =>
          if (bool_decide (replicas !! 0%nat = Some h) || bool_decide (replicas !! 1%nat = Some h)) && dice
          then swap replicas (length replicas - 1) (if bool_decide (replicas !! 0%nat = Some h) then 0 else 1)
          else replicas
      end in
    match replicas !! 1%nat, replicas !! 0%nat with
    | Some r1, Some r0 => if 0 <? compare_load r1 r0 then swap replicas 0 1 else replicas
    | _, _ => replicas
    end.

(** What a plan is made of: local hosts only, or replicas and then local hosts. *)
Inductive plan : Type :=
| LocalHosts
| ReplicasFirst (replicas : list host)
| PreferredFirst (h : host) (rest : plan).

Definition getReplicasAndLocalHosts (p : policy) (now : Z) (pick : nat -> nat) (dice : bool)
    (replicas : option (list host)) : plan :=
  match replicas with
  | None => LocalHosts
  | Some replicas =>
      let s := fold_left (scan_replica p now) replicas (mkScan [] None MIN_SAFE_INTEGER 0) in
      ReplicasFirst (order_replicas dice s (shuffleArray pick (filteredReplicas s)))
  end.

(** [replicas] is what [client.getReplicas] returns for the keyspace and the routing key,
    or none; [keyed] tells whether there are both. *)
Definition newQueryPlan (p : policy) (keyed : bool) (preferred : option host) (now : Z)
    (pick : nat -> nat) (dice : bool) (replicas : option (list host)) : plan * policy :=
  let iterable := if keyed then getReplicasAndLocalHosts p now pick dice replicas else LocalHosts in
  match preferred with
  | None => (iterable, p)
  | Some h => (PreferredFirst h iterable,
               mkPolicy (hosts p) (filteredHosts p) (Some h) (index p) (localDc p) (filter_ p))
  end.

(** Iterating a plan: the hosts it yields. *)
Fixpoint iterate (p : policy) (pl : plan) : list host * policy :=
  match pl with
  | LocalHosts => getLocalHosts p []
  | ReplicasFirst replicas =>
      let '(l, p) := getLocalHosts p replicas in (replicas ++ l, p)
  | PreferredFirst h rest =>
      let '(l, p) := iterate p rest in
      (h :: List.filter (fun x => negb (bool_decide (x = h))) l, p)
  end.

(** [setLocalDc]: the data center of the policy or of the client, which must exist. *)
Definition setLocalDc (lbp_localDc client_localDc : jsstr) (hosts : list host) : result jsstr :=
  let dc := if bool_decide (lbp_localDc = []) then client_localDc else lbp_localDc in
  if bool_decide (dc = []) then
    Err (ArgumentError "'localDataCenter' is not defined in Client options and also was not specified in constructor.")
  else if negb (bool_decide (dc ∈ (datacenter <$> hosts))) then
    Err (ArgumentError "Datacenter was not found.")
  else Ok dc.

(** ** Permutations *)

Lemma insert_at_length {A} (a c : list A) x y : <[length a := x]> (a ++ y :: c) = a ++ x :: c.
Proof. rewrite insert_app_r_alt by lia. by rewrite Nat.sub_diag. Qed.

Lemma insert_twice_swap {A} (a b c : list A) x y :
  let l := a ++ x :: b ++ y :: c in
  <[length a := y]> (<[(length a + S (length b))%nat := x]> l) = a ++ y :: b ++ x :: c.
Proof.
  cbv zeta. rewrite insert_app_r. cbn [insert list_insert].
  rewrite insert_app_r_alt by lia. rewrite Nat.sub_diag. cbn. do 2 f_equal.
  apply insert_at_length.
Qed.

(** Swapping two positions exchanges the elements around what is between them. *)
Lemma swap_mid {A} (a b c : list A) x y :
  swap (a ++ x :: b ++ y :: c) (length a + S (length b)) (length a) = a ++ y :: b ++ x :: c.
Proof.
  assert (L : (a ++ x :: b ++ y :: c) !! (length a + S (length b))%nat = Some y).
  { change (a ++ x :: b ++ y :: c) with (a ++ (x :: b) ++ y :: c). rewrite app_assoc.
    apply list_lookup_middle. by rewrite length_app. }
  unfold swap. rewrite L, list_lookup_middle by done.
  apply insert_twice_swap.
Qed.

Lemma swap_comm {A} (l : list A) i j : swap l i j = swap l j i.
Proof.
  unfold swap. destruct (l !! i) as [x|] eqn:Hi, (l !! j) as [y|] eqn:Hj; try done.
  destruct (decide (i = j)) as [->|Hij]; [by simplify_eq|]. by rewrite list_insert_insert_ne.
Qed.

Lemma swap_perm {A} (l : list A) i j : swap l i j ≡ₚ l.
Proof.
  assert (Hlt : forall i j, (j < i)%nat -> swap l i j ≡ₚ l).
  { clear i j. intros i j Hij. destruct (l !! i) as [x|] eqn:Hi; [|unfold swap; by rewrite Hi].
    destruct (l !! j) as [y|] eqn:Hj; [|unfold swap; by rewrite Hi, Hj].
    apply list_elem_of_split_length in Hj as (a & r & -> & ->).
    rewrite lookup_app_r in Hi by lia. destruct (i - length a)%nat as [|k] eqn:Hk; [lia|]. cbn in Hi.
    apply list_elem_of_split_length in Hi as (b & c & -> & ->).
    replace i with (length a + S (length b))%nat by lia. rewrite swap_mid. solve_Permutation. }
  destruct (lt_eq_lt_dec i j) as [[Hij| ->]|Hij]; [rewrite swap_comm; by apply Hlt| |by apply Hlt].
  unfold swap. destruct (l !! j) as [x|] eqn:Hj; [|done]. rewrite list_insert_insert_eq, list_insert_id; done.
Qed.

Lemma shuffle_perm {A} pick (arr : list A) : shuffleArray pick arr ≡ₚ arr.
Proof.
  unfold shuffleArray. generalize (length arr - 1)%nat. intros i. revert arr.
  induction i as [|i IH]; intros arr; cbn [shuffle_loop]; [done|]. by rewrite IH, swap_perm.
Qed.

Lemma unhealthy_loop_perm n i c l : unhealthy_loop n i c l ≡ₚ l.
Proof.
  revert c l. induction i as [|i IH]; intros c l; cbn [unhealthy_loop]; [done|].
  repeat case_match; rewrite ?IH, ?swap_perm; done.
Qed.

Lemma order_replicas_perm dice s l : order_replicas dice s l ≡ₚ l.
Proof.
  unfold order_replicas, sendUnhealthyToTheBack.
  repeat case_match; rewrite ?swap_perm, ?unhealthy_loop_perm; done.
Qed.

(** ** The parts of a plan *)

Lemma omap_fmap_ext {A B C} (f : B -> option C) (f' : A -> option C) (g : A -> B) (l : list A) :
  (forall x, x ∈ l -> f (g x) = f' x) -> omap f (g <$> l) = omap f' l.
Proof.
  induction l as [|x l IH]; intros E; [done|]. cbn. change (list_omap _ _ ?f ?l) with (omap f l).
  change (list_fmap _ _ ?f ?l) with (f <$> l). rewrite (E x) by left. rewrite IH; [done|].
  intros y Hy. apply E. by right.
Qed.

Lemma omap_eq {A C} (f f' : A -> option C) (l : list A) : (forall x, x ∈ l -> f x = f' x) -> omap f l = omap f' l.
Proof. intros E. rewrite <- (list_fmap_id l) at 1. by apply omap_fmap_ext. Qed.

(** Reading consecutive positions. *)
Lemma omap_seq {A} (l : list A) k m :
  omap (fun i => l !! (i + k)%nat) (seq 0 m) = take m (drop k l).
Proof.
  revert k. induction m as [|m IH]; intros k; [done|]. cbn [seq].
  rewrite <- fmap_S_seq. cbn [omap list_omap]. change (list_omap _ _ ?f ?l) with (omap f l).
  rewrite (omap_fmap_ext _ (fun i => l !! (i + S k)%nat) S).
  - rewrite IH. cbn [Nat.add]. destruct (l !! k) as [x|] eqn:Hk.
    + by rewrite (drop_S _ _ _ Hk).
    + apply lookup_ge_None in Hk. rewrite !drop_ge by lia. by rewrite !take_nil.
  - intros i _. f_equal. lia.
Qed.

(** Going through an array from any start position, modulo its length, rotates it. *)
Lemma rotation {A} (l : list A) (k : Z) :
  0 <= k ->
  omap (fun i => l !! Z.to_nat ((Z.of_nat i + k) mod Z.of_nat (length l))) (seq 0 (length l)) ≡ₚ l.
Proof.
  intros Hk. destruct l as [|x l']; [done|]. set (l := x :: l'). set (n := length l).
  assert (Hn : 0 < Z.of_nat n) by (subst n l; cbn; lia).
  set (m := Z.to_nat (k mod Z.of_nat n)).
  assert (Hmod : k = k / Z.of_nat n * Z.of_nat n + Z.of_nat m).
  { subst m. rewrite Z2Nat.id by lia. rewrite Z.mul_comm. by apply Z.div_mod; lia. }
  assert (Hm : (m < n)%nat) by (subst m; lia). clearbody m.
  replace (seq 0 n) with (seq 0 (n - m) ++ seq (n - m) m) by (rewrite <- seq_app; f_equal; lia).
  rewrite omap_app.
  rewrite (omap_eq _ (fun i => l !! (i + m)%nat) (seq 0 (n - m))).
  - rewrite omap_seq. rewrite take_ge by (rewrite length_drop; subst n; lia).
    replace (seq (n - m) m) with ((Nat.add (n - m)) <$> seq 0 m) by (rewrite fmap_add_seq; f_equal; lia).
    rewrite (omap_fmap_ext _ (fun i => l !! (i + 0)%nat)).
    + rewrite omap_seq, drop_0. rewrite Permutation_app_comm. by rewrite take_drop.
    + intros i Hi%elem_of_seq. f_equal. fold n.
      replace (Z.of_nat (n - m + i) + k) with (Z.of_nat i + (k / Z.of_nat n + 1) * Z.of_nat n) by lia.
      rewrite Z.mod_add, Z.mod_small by lia. lia.
  - intros i Hi%elem_of_seq. f_equal. fold n.
    replace (Z.of_nat i + k) with (Z.of_nat (i + m) + (k / Z.of_nat n) * Z.of_nat n) by lia.
    rewrite Z.mod_add, Z.mod_small by lia. lia.
Qed.

Definition local (p : policy) (h : host) : bool := filter_ p h && bool_decide (datacenter h = localDc p).

(** The cached hosts are those of the map, no host is there twice, the index counts. *)
Record policy_ok (p : policy) : Prop := {
  ok_cache : filteredHosts p = None \/ filteredHosts p = Some (List.filter (local p) (hosts p));
  ok_nodup : NoDup (hosts p);
  ok_index : 0 <= index p < 0x7fffffff
}.

(** The hosts that a plan may use. *)
Definition usable_hosts (p : policy) : list host := List.filter (usable p) (hosts p).

Lemma filter_filter {A} (f g : A -> bool) l : List.filter f (List.filter g l) = List.filter (fun x => g x && f x) l.
Proof. induction l as [|x l IH]; [done|]. cbn. destruct (g x); cbn; [|done]. destruct (f x); by rewrite IH. Qed.

Lemma filter_perm {A} (f : A -> bool) l k : l ≡ₚ k -> List.filter f l ≡ₚ List.filter f k.
Proof.
  induction 1; cbn; [done|destruct (f x); [by constructor|done]|destruct (f x), (f y); try done; constructor|by etrans].
Qed.

Lemma filter_ext_eq {A} (f g : A -> bool) l : (forall x, f x = g x) -> List.filter f l = List.filter g l.
Proof. intros E. induction l as [|x l IH]; [done|]. cbn. rewrite E. by destruct (g x); rewrite IH. Qed.

(** The same policy after a plan was iterated: only the cache and the index change. *)
Definition same_hosts (p p' : policy) : Prop :=
  hosts p' = hosts p /\ localDc p' = localDc p /\ filter_ p' = filter_ p.

Lemma getFilteredLocalHosts_spec p :
  policy_ok p -> exists p1, getFilteredLocalHosts p = (List.filter (local p) (hosts p), p1) /\
    policy_ok p1 /\ same_hosts p p1.
Proof.
  intros [Hc Hn Hi]. unfold getFilteredLocalHosts.
  destruct Hc as [Hc|Hc]; rewrite Hc; eexists; (split; [done|]); split; [|done| |done].
  - constructor; [by right|done|done].
  - constructor; [by right|done|done].
Qed.

Lemma getLocalHosts_spec p rs :
  policy_ok p ->
  let '(l, p') := getLocalHosts p rs in
  policy_ok p' /\ same_hosts p p' /\
  l ≡ₚ List.filter (fun h => negb (bool_decide (h ∈ rs))) (usable_hosts p).
Proof.
  intros Hok. unfold getLocalHosts.
  destruct (getFilteredLocalHosts_spec p Hok) as (p1 & -> & [Hc1 Hn1 Hi1] & Hs).
  unfold getIndex. cbv beta iota zeta. split; [|split].
  - constructor; cbn; [exact Hc1|exact Hn1|]. destruct (Z.eqb_spec (index p1 + 1) 0x7fffffff); lia.
  - done.
  - etrans; [apply filter_perm, rotation; lia|]. unfold usable_hosts. rewrite !filter_filter.
    erewrite filter_ext_eq; [reflexivity|]. intros h. unfold usable, local. cbn.
    destruct (filter_ p h), (bool_decide (datacenter h = localDc p)), (isUp h), (bool_decide (h ∈ rs)); done.
Qed.

Lemma scan_filtered p now rs s :
  filteredReplicas (fold_left (scan_replica p now) rs s) = filteredReplicas s ++ List.filter (usable p) rs.
Proof.
  revert s. induction rs as [|h rs IH]; intros s; cbn [fold_left List.filter]; [by rewrite app_nil_r|].
  rewrite IH. unfold scan_replica. destruct (usable p h); cbn [negb]; [|done].
  destruct (isHostNewlyUp now h) as [since|]; [destruct (newlyUpReplicaTimestamp s <? since)|];
    cbn [filteredReplicas]; by rewrite <- app_assoc.
Qed.

Lemma replicas_perm p now pick dice rs :
  exists l, getReplicasAndLocalHosts p now pick dice (Some rs) = ReplicasFirst l /\ l ≡ₚ List.filter (usable p) rs.
Proof.
  eexists. split; [done|]. rewrite order_replicas_perm, shuffle_perm, scan_filtered. done.
Qed.

Lemma elem_of_filter_b {A} (f : A -> bool) x l : x ∈ List.filter f l <-> x ∈ l /\ f x = true.
Proof. rewrite !list_elem_of_In. apply List.filter_In. Qed.

Lemma NoDup_filter_b {A} (f : A -> bool) l : NoDup l -> NoDup (List.filter f l).
Proof. rewrite !NoDup_ListNoDup. apply List.NoDup_filter. Qed.

(** Replicas and then the other local hosts: the usable hosts, each once. *)
Lemma replicas_first_perm p l rest rs :
  NoDup (hosts p) -> NoDup rs -> (forall h, h ∈ rs -> h ∈ hosts p) ->
  l ≡ₚ List.filter (usable p) rs ->
  rest ≡ₚ List.filter (fun h => negb (bool_decide (h ∈ l))) (usable_hosts p) ->
  l ++ rest ≡ₚ usable_hosts p.
Proof.
  intros Hn Hr Hin Hl Hrest. apply NoDup_Permutation.
  - apply list.NoDup_app. split_and!.
    + rewrite Hl. by apply NoDup_filter_b.
    + intros h Hh Hf. rewrite Hrest in Hf. apply elem_of_filter_b in Hf as [_ Hf]. by rewrite bool_decide_true in Hf.
    + rewrite Hrest. by apply NoDup_filter_b, NoDup_filter_b.
  - by apply NoDup_filter_b.
  - intros h. rewrite elem_of_app, Hrest, elem_of_filter_b. unfold usable_hosts.
    split.
    + intros [Hh|[Hh _]]; [|done]. rewrite Hl, elem_of_filter_b in Hh. destruct Hh as [Hh Hu].
      apply elem_of_filter_b. auto.
    + intros Hh. destruct (decide (h ∈ l)) as [Hd|Hd]; [by left|right]. by rewrite bool_decide_false.
Qed.

(** ** Plans *)

Lemma filter_all {A} (l : list A) : List.filter (fun _ => true) l = l.
Proof. induction l as [|x l IH]; [done|]. cbn. by rewrite IH. Qed.

Lemma iterate_spec p pl :
  policy_ok p ->
  match pl with
  | LocalHosts => let '(l, p') := iterate p pl in policy_ok p' /\ same_hosts p p' /\ l ≡ₚ usable_hosts p
  | ReplicasFirst rs =>
      let '(l, p') := iterate p pl in
      policy_ok p' /\ same_hosts p p' /\
      exists rest, l = rs ++ rest /\
        rest ≡ₚ List.filter (fun h => negb (bool_decide (h ∈ rs))) (usable_hosts p)
  | PreferredFirst _ _ => True
  end.
Proof.
  intros Hok. destruct pl as [|rs|]; [| |done]; cbn [iterate].
  - pose proof (getLocalHosts_spec p [] Hok) as Hg. destruct (getLocalHosts p []) as [l p'].
    destruct Hg as (Hp & Hs & Hl). split_and!; [done|done|]. rewrite Hl.
    rewrite (filter_ext_eq _ (fun _ => true)); [|intros h; rewrite bool_decide_false; [done|apply not_elem_of_nil]].
    by rewrite filter_all.
  - pose proof (getLocalHosts_spec p rs Hok) as Hg. destruct (getLocalHosts p rs) as [l p'].
    destruct Hg as (Hp & Hs & Hl). split_and!; [done|done|]. by exists l.
Qed.

(** The plan of a query, and the hosts it yields. *)
Definition query_hosts (p : policy) (keyed : bool) (preferred : option host) (now : Z)
    (pick : nat -> nat) (dice : bool) (replicas : option (list host)) : list host * policy :=
  let '(pl, p) := newQueryPlan p keyed preferred now pick dice replicas in iterate p pl.

Lemma plan_without_preferred p (keyed : bool) now pick dice replicas :
  policy_ok p ->
  (forall rs, replicas = Some rs -> NoDup rs /\ forall h, h ∈ rs -> h ∈ hosts p) ->
  let pl := if keyed then getReplicasAndLocalHosts p now pick dice replicas else LocalHosts in
  let '(l, p') := iterate p pl in
  policy_ok p' /\ same_hosts p p' /\ l ≡ₚ usable_hosts p /\
  (keyed = true -> forall rs, replicas = Some rs -> exists rs' rest, l = rs' ++ rest /\ rs' ≡ₚ List.filter (usable p) rs).
Proof.
  intros Hok Hrs pl.
  assert (Hlocal : pl = LocalHosts -> (keyed = true -> replicas = None) ->
    let '(l, p') := iterate p pl in
    policy_ok p' /\ same_hosts p p' /\ l ≡ₚ usable_hosts p /\
    (keyed = true -> forall rs, replicas = Some rs -> exists rs' rest, l = rs' ++ rest /\ rs' ≡ₚ List.filter (usable p) rs)).
  { intros -> Hk. pose proof (iterate_spec p LocalHosts Hok) as Hi. destruct (iterate p LocalHosts) as [l p'].
    destruct Hi as (H1 & H2 & H3). split_and!; [done..|]. intros Hkey rs E. by rewrite (Hk Hkey) in E. }
  subst pl. destruct keyed; [|by apply Hlocal]. destruct replicas as [rs|]; [|by apply Hlocal]. clear Hlocal.
  destruct (replicas_perm p now pick dice rs) as (l & -> & Hl).
  destruct (Hrs rs eq_refl) as [Hnd Hin].
  pose proof (iterate_spec p (ReplicasFirst l) Hok) as Hi. destruct (iterate p (ReplicasFirst l)) as [l' p'].
  destruct Hi as (Hp & Hs & rest & -> & Hrest). split_and!; [done|done| |].
  - eapply replicas_first_perm; [apply Hok|exact Hnd|exact Hin|exact Hl|exact Hrest].
  - intros _ rs' [= <-]. by exists l, rest.
Qed.

(** C8. A query plan is complete and has no host twice.  For any random choices, clock,
    rotation index and replicas among the hosts: without a preferred host, the plan is
    a permutation of the hosts that are up, in the local data center and accepted by
    the filter; with one, it starts with it and goes on with the others.  When there is
    a routing key, the usable replicas come first.  The policy stays well formed. *)
Theorem query_plan_complete p keyed preferred now pick dice replicas :
  policy_ok p ->
  (forall rs, replicas = Some rs -> NoDup rs /\ forall h, h ∈ rs -> h ∈ hosts p) ->
  let '(l, p') := query_hosts p keyed preferred now pick dice replicas in
  policy_ok p' /\
  match preferred with
  | None =>
      l ≡ₚ usable_hosts p /\
      (keyed = true -> forall rs, replicas = Some rs ->
         exists rs' rest, l = rs' ++ rest /\ rs' ≡ₚ List.filter (usable p) rs)
  | Some h => exists rest, l = h :: rest /\
      rest ≡ₚ List.filter (fun x => negb (bool_decide (x = h))) (usable_hosts p)
  end.
Proof.
  intros Hok Hrs. unfold query_hosts, newQueryPlan. destruct preferred as [h|].
  - set (p1 := mkPolicy _ _ _ _ _ _).
    assert (Hok1 : policy_ok p1) by (destruct Hok; by constructor).
    pose proof (plan_without_preferred p1 keyed now pick dice replicas Hok1 Hrs) as Hp. cbv zeta in Hp.
    cbn [iterate].
    change (getReplicasAndLocalHosts p1 now pick dice replicas) with (getReplicasAndLocalHosts p now pick dice replicas) in Hp.
    destruct (iterate p1 _) as [l p']. destruct Hp as (Hp & _ & Hl & _). split; [done|].
    eexists. split; [done|]. by apply filter_perm.
  - pose proof (plan_without_preferred p keyed now pick dice replicas Hok Hrs) as Hp. cbv zeta in Hp.
    destruct (iterate p _) as [l p']. destruct Hp as (Hp & _ & Hl). by split.
Qed.

(** ** Unhealthy replicas *)

Definition unhealthy (h : host) : bool := negb (healthCheck h).

Lemma filter_app_b {A} (f : A -> bool) l k : List.filter f (l ++ k) = List.filter f l ++ List.filter f k.
Proof. apply List.filter_app. Qed.

(** Before the position lies what is still to be looked at, then healthy replicas, then
    the unhealthy ones already moved. *)
Lemma unhealthy_loop_spec n pre mid back :
  Forall (fun h => unhealthy h = false) mid -> Forall (fun h => unhealthy h = true) back ->
  (length back + length (List.filter unhealthy pre) = n)%nat ->
  exists a b, unhealthy_loop n (length pre) (length back) (pre ++ mid ++ back) = a ++ b /\
    Forall (fun h => unhealthy h = false) a /\ Forall (fun h => unhealthy h = true) b.
Proof.
  revert mid back. induction pre as [|h pre IH] using rev_ind; intros mid back Hm Hb Hn.
  { exists mid, back. by split_and!. }
  rewrite filter_app_b, length_app in Hn. cbn [List.filter] in Hn.
  rewrite length_app. cbn [length]. rewrite Nat.add_1_r. cbn [unhealthy_loop]. rewrite <- app_assoc.
  change ([h] ++ mid ++ back) with (h :: mid ++ back).
  destruct (Nat.ltb_spec (length back) n) as [Hlt|Hge].
  - rewrite list_lookup_middle by done. unfold unhealthy in Hn at 2. destruct (healthCheck h) eqn:Hh; cbn [negb] in Hn.
    + cbn [length] in Hn. change (h :: mid ++ back) with ((h :: mid) ++ back). apply IH; [|done|lia].
      constructor; [|done]. unfold unhealthy. by rewrite Hh.
    + cbn [length] in Hn. assert (Hu : unhealthy h = true) by (unfold unhealthy; by rewrite Hh).
      assert (Hmid : mid = [] \/ exists mid' m, mid = mid' ++ [m]).
      { destruct mid as [|m0 mid0] using rev_ind; [by left|right; eauto]. }
      destruct Hmid as [->|(mid' & m & ->)].
      * cbn [app]. rewrite !length_app. cbn [length].
        rewrite (proj2 (Nat.eqb_eq _ _)) by lia. apply (IH [] (h :: back)); [done|by constructor|]. cbn [length]. lia.
      * rewrite !length_app. cbn [length]. rewrite !length_app. cbn [length]. rewrite (proj2 (Nat.eqb_neq _ _)) by lia.
        replace (length pre + S (length mid' + 1 + length back) - 1 - length back)%nat
          with (length pre + S (length mid'))%nat by lia.
        cbn [app]. rewrite <- app_assoc. cbn [app]. rewrite swap_mid.
        change (pre ++ m :: mid' ++ h :: back) with (pre ++ (m :: mid') ++ h :: back).
        apply Forall_app in Hm as [Hm1 Hm2]. apply Forall_cons_1 in Hm2 as [Hm2 _].
        apply (IH (m :: mid') (h :: back)); [by constructor|by constructor|]. cbn [length]. lia.
  - exists (pre ++ h :: mid), back. rewrite <- app_assoc. split_and!; [done| |done].
    assert (Hz : List.filter unhealthy (pre ++ [h]) = []).
    { apply nil_length_inv. rewrite filter_app_b, length_app. cbn [List.filter]. lia. }
    change (pre ++ h :: mid) with (pre ++ [h] ++ mid). rewrite app_assoc. apply Forall_app. split; [|done].
    apply Forall_forall. intros x Hx%list_elem_of_In. destruct (unhealthy x) eqn:Ex; [|done].
    assert (Hin : x ∈ List.filter unhealthy (pre ++ [h])) by by apply elem_of_filter_b.
    rewrite Hz in Hin. by apply not_elem_of_nil in Hin.
Qed.

(** The count of the scan, when no replica is newly up. *)
Lemma scan_unhealthy p now rs s :
  newlyUpReplica (fold_left (scan_replica p now) rs s) = None ->
  newlyUpReplica s = None /\
  unhealthyReplicas (fold_left (scan_replica p now) rs s)
  = (unhealthyReplicas s + length (List.filter unhealthy (List.filter (usable p) rs)))%nat.
Proof.
  revert s. induction rs as [|h rs IH]; intros s Hn; cbn [fold_left List.filter] in *; [by split; [|cbn; lia]|].
  destruct (IH _ Hn) as [Hs Hc]. rewrite Hc. unfold scan_replica in *.
  destruct (usable p h); cbn [negb] in *; [|done].
  destruct (isHostNewlyUp now h) as [since|]; [destruct (newlyUpReplicaTimestamp s <? since)|]; cbn in *; [done| |];
    (split; [done|]); rewrite Hs; unfold unhealthy at 2; destruct (healthCheck h); cbn; lia.
Qed.

(** When no replica is newly up, sending the unhealthy replicas to the back, with the
    number of them that the scan counted, gives a permutation of the local replicas
    with the healthy ones first and the unhealthy ones last. *)
Theorem unhealthy_last p now pick rs :
  let s := fold_left (scan_replica p now) rs (mkScan [] None MIN_SAFE_INTEGER 0) in
  newlyUpReplica s = None ->
  exists a b, sendUnhealthyToTheBack (shuffleArray pick (filteredReplicas s)) (unhealthyReplicas s) = a ++ b /\
    a ++ b ≡ₚ List.filter (usable p) rs /\
    Forall (fun h => healthCheck h = true) a /\ Forall (fun h => healthCheck h = false) b.
Proof.
  intros s Hn. subst s. apply scan_unhealthy in Hn as [_ Hc]. rewrite Hc, scan_filtered. cbn [filteredReplicas unhealthyReplicas app Nat.add].
  set (l := shuffleArray pick (List.filter (usable p) rs)).
  assert (Hl : l ≡ₚ List.filter (usable p) rs) by apply shuffle_perm.
  destruct (unhealthy_loop_spec (length (List.filter unhealthy (List.filter (usable p) rs))) l [] []) as (a & b & E & Ha & Hb).
  - constructor.
  - constructor.
  - cbn. apply Permutation_length, filter_perm, Hl.
  - rewrite !app_nil_r in E. exists a, b. split; [exact E|]. split.
    + rewrite <- E, unhealthy_loop_perm. exact Hl.
    + unfold unhealthy in Ha, Hb. split; (eapply Forall_impl; [|eassumption]); intros h; cbv beta; by destruct (healthCheck h).
Qed.

(** ** Configurations for the Rust layer *)

Record lbConfig : Type := mkConfig {
  preferDatacenter : option jsstr;
  preferRack : option jsstr;
  tokenAware : option bool;
  permitDcFailover : option bool;
  enableShufflingReplicas : option bool;
  allowList : option (list jsstr) }.

(** The policies.  A configuration object is a reference into the store; the legacy
    policy has none. *)
Inductive lbPolicy : Type :=
| RoundRobinPolicy
| DCAwareRoundRobinPolicy (dc : option jsstr)
| TokenAwarePolicy (childPolicy : lbPolicy)
| AllowListPolicy (childPolicy : lbPolicy) (allowed : list jsstr)
| DefaultLoadBalancingPolicy (config : nat)
| LegacyPolicy.

Definition set_tokenAware (c : lbConfig) : lbConfig :=
  mkConfig (preferDatacenter c) (preferRack c) (Some true) (permitDcFailover c)
    (enableShufflingReplicas c) (allowList c).

Definition set_allowList (l : list jsstr) (c : lbConfig) : lbConfig :=
  mkConfig (preferDatacenter c) (preferRack c) (tokenAware c) (permitDcFailover c)
    (enableShufflingReplicas c) (Some l).

(** The lists of the policy at hand restricted to those of the child, if it has some. *)
Definition restrict (allowed : list jsstr) (c : lbConfig) : list jsstr :=
  match allowList c with
  | Some child => List.filter (fun n => bool_decide (n ∈ child)) allowed
  | None => allowed
  end.

(** [getRustConfiguration()]: a reference to the configuration, in the store after the
    call.  Literal objects are new; the object of a default policy is the user's, and
    the wrappers update it in place. *)
Fixpoint getRustConfiguration (pol : lbPolicy) (st : list lbConfig) : result (nat * list lbConfig) :=
  match pol with
  | RoundRobinPolicy => Ok (length st, st ++ [mkConfig None None (Some false) None None None])
  | DCAwareRoundRobinPolicy dc =>
      Ok (length st, st ++ [mkConfig dc None (Some false) (Some false) None None])
  | TokenAwarePolicy child =>
      '(r, st) ← getRustConfiguration child st; Ok (r, alter set_tokenAware r st)
  | AllowListPolicy child allowed =>
      '(r, st) ← getRustConfiguration child st;
      Ok (r, alter (fun c => set_allowList (restrict allowed c) c) r st)
  | DefaultLoadBalancingPolicy r => Ok (r, st)
  | LegacyPolicy => Err (PlainError "Currently this load balancing policy is not supported by the driver")
  end.

(** The allow lists that apply to a policy, the outermost first. *)
Fixpoint allow_lists (pol : lbPolicy) (st : list lbConfig) : list (list jsstr) :=
  match pol with
  | TokenAwarePolicy child => allow_lists child st
  | AllowListPolicy child allowed => allowed :: allow_lists child st
  | DefaultLoadBalancingPolicy r =>
      match st !! r ≫= allowList with Some l => [l] | None => [] end
  | _ => []
  end.

(** The configuration objects exist. *)
Fixpoint allocated (pol : lbPolicy) (st : list lbConfig) : Prop :=
  match pol with
  | TokenAwarePolicy child | AllowListPolicy child _ => allocated child st
  | DefaultLoadBalancingPolicy r => (r < length st)%nat
  | LegacyPolicy => False
  | _ => True
  end.

Fixpoint token_aware (pol : lbPolicy) (st : list lbConfig) : bool :=
  match pol with
  | TokenAwarePolicy _ => true
  | AllowListPolicy child _ => token_aware child st
  | DefaultLoadBalancingPolicy r =>
      match st !! r ≫= tokenAware with Some b => b | None => false end
  | _ => false
  end.

Lemma configuration_spec pol st :
  allocated pol st ->
  exists r st' c, getRustConfiguration pol st = Ok (r, st') /\ st' !! r = Some c /\
    match allow_lists pol st with
    | [] => allowList c = None
    | ls => exists l, allowList c = Some l /\ forall x, x ∈ l <-> Forall (fun al => x ∈ al) ls
    end /\
    (match tokenAware c with Some b => b | None => false end) = token_aware pol st.
Proof.
  assert (Hnew : forall c, exists r st' c', Ok (length st, st ++ [c]) = Ok (r, st') /\ st' !! r = Some c' /\ c' = c).
  { intros c. exists (length st), (st ++ [c]), c. by rewrite list_lookup_middle. }
  induction pol as [|dc|child IH|child IH allowed|r|]; cbn [allocated getRustConfiguration allow_lists token_aware]; intros Ha.
  - destruct (Hnew (mkConfig None None (Some false) None None None)) as (r & st' & c & E & Hr & ->).
    eexists r, st', _. split; [exact E|]. split; [exact Hr|done].
  - destruct (Hnew (mkConfig dc None (Some false) (Some false) None None)) as (r & st' & c & E & Hr & ->).
    eexists r, st', _. split; [exact E|]. split; [exact Hr|done].
  - destruct (IH Ha) as (r & st' & c & -> & Hr & Hl & _). rewrite ok_bind.
    exists r, (alter set_tokenAware r st'), (set_tokenAware c). split; [done|].
    split; [by rewrite list_lookup_alter_eq, Hr|]. by split.
  - destruct (IH Ha) as (r & st' & c & -> & Hr & Hl & Ht). rewrite ok_bind.
    exists r, (alter (fun c => set_allowList (restrict allowed c) c) r st'), (set_allowList (restrict allowed c) c).
    split; [done|]. split; [by rewrite list_lookup_alter_eq, Hr|]. split; [|done].
    exists (restrict allowed c). split; [done|]. intros x. unfold restrict. rewrite Forall_cons_iff.
    destruct (allow_lists child st) as [|al als].
    + rewrite Hl. split; [by split; [|constructor]|by intros [? _]].
    + destruct Hl as (l & -> & Hx). rewrite elem_of_filter_b, bool_decide_eq_true, Hx. done.
  - exists r, st. destruct (lookup_lt_is_Some_2 st r Ha) as [c Hc]. exists c.
    split; [done|]. split; [done|]. rewrite Hc. cbn. split; [|done].
    destruct (allowList c) as [l|] eqn:El; [|done]. exists l. split; [done|]. intros x.
    rewrite Forall_singleton. done.
  - done.
Qed.

(** The configuration of a policy for the Rust layer: the hosts it allows are those
    of every allow list around and inside the policy (all hosts when there is none), in
    any nesting of the wrappers, and it is token aware when one of the wrappers says so. *)
Theorem allow_lists_intersect pol st :
  allocated pol st ->
  exists r st' c, getRustConfiguration pol st = Ok (r, st') /\ st' !! r = Some c /\
    match allow_lists pol st with
    | [] => allowList c = None
    | ls => exists l, allowList c = Some l /\ forall x, x ∈ l <-> Forall (fun al => x ∈ al) ls
    end /\
    (match tokenAware c with Some b => b | None => false end) = token_aware pol st.
Proof. apply configuration_spec. Qed.

Lemma allow_lists_intersect_witness :
  exists r st' c,
    getRustConfiguration (AllowListPolicy (TokenAwarePolicy (AllowListPolicy RoundRobinPolicy [js "a"; js "b"])) [js "b"; js "c"]) []
    = Ok (r, st') /\ st' !! r = Some c /\ allowList c = Some [js "b"].
Proof.
  destruct (allow_lists_intersect
    (AllowListPolicy (TokenAwarePolicy (AllowListPolicy RoundRobinPolicy [js "a"; js "b"])) [js "b"; js "c"]) [] I)
    as (r & st' & c & E & Hr & _).
  exists r, st', c. split; [exact E|]. split; [exact Hr|]. injection E as <- <-. injection Hr as <-. reflexivity.
Defined.

(** Reading the configuration of a policy changes the object it was given: after an
    allow list around a default policy is read, the user's configuration has that allow
    list, so another allow list around the same configuration allows no host at all. *)
Theorem configuration_shared :
  let config := mkConfig None None None None None None in
  exists st1, getRustConfiguration (AllowListPolicy (DefaultLoadBalancingPolicy 0) [js "a"]) [config] = Ok (0%nat, st1) /\
    (st1 !! 0%nat ≫= allowList) = Some [js "a"] /\
    exists st2, getRustConfiguration (AllowListPolicy (DefaultLoadBalancingPolicy 0) [js "b"]) st1 = Ok (0%nat, st2) /\
      (st2 !! 0%nat ≫= allowList) = Some [] /\
    exists st3, getRustConfiguration (AllowListPolicy (DefaultLoadBalancingPolicy 0) [js "b"]) [config] = Ok (0%nat, st3) /\
      (st3 !! 0%nat ≫= allowList) = Some [js "b"].
Proof. eexists. split; [reflexivity|]. split; [reflexivity|]. eexists. split; [reflexivity|]. split; [reflexivity|]. eexists. split; reflexivity. Qed.

(** ** Samples *)

Definition sample_host (n : nat) (up : bool) : host := mkHost n (js "dc1") up None (Z.of_nat n) 5.

Definition sample_policy : policy :=
  mkPolicy [sample_host 1 true; sample_host 2 false; sample_host 3 true; sample_host 4 true] None None 2 (js "dc1") (fun _ => true).

Lemma sample_policy_ok : policy_ok sample_policy.
Proof.
  constructor; [by left| |cbn; lia].
  apply (bool_decide_eq_true_1 (NoDup (hosts sample_policy))). vm_compute. reflexivity.
Qed.

Lemma query_plan_complete_witness :
  fst (query_hosts sample_policy true None 0 (fun i => i) false (Some [sample_host 4 true; sample_host 2 false]))
  = [sample_host 4 true; sample_host 3 true; sample_host 1 true] /\
  fst (query_hosts sample_policy true None 0 (fun i => i) false (Some [sample_host 4 true; sample_host 2 false]))
  ≡ₚ usable_hosts sample_policy.
Proof.
  split; [reflexivity|].
  apply (query_plan_complete sample_policy true None 0 (fun i => i) false (Some [sample_host 4 true; sample_host 2 false])).
  - exact sample_policy_ok.
  - intros rs [= <-]. split.
    + apply (bool_decide_eq_true_1 (NoDup [sample_host 4 true; sample_host 2 false])). vm_compute. reflexivity.
    + intros h Hh. rewrite !elem_of_cons in Hh. unfold sample_policy. cbn [hosts]. rewrite !elem_of_cons. tauto.
Defined.

Definition sick_host (n : nat) : host := mkHost n (js "dc1") true None 20 0.

Lemma unhealthy_last_witness :
  exists a b, sendUnhealthyToTheBack (shuffleArray (fun i => i) [sick_host 1; sample_host 3 true; sample_host 4 true]) 1 = a ++ b /\
  Forall (fun h => healthCheck h = false) b.
Proof.
  destruct (unhealthy_last sample_policy 0 (fun i => i) [sick_host 1; sample_host 3 true; sample_host 4 true] eq_refl)
    as (a & b & E & _ & _ & Hb).
  exists a, b. split; [exact E|exact Hb].
Defined.
