(* ===== verification/Concurrent.v ===== *)
(** * Concurrent execution

    lib/concurrent/index.js: many executions with a bounded number in flight, over an
    array (ArrayBasedExecutor) or a stream (StreamBasedExecutor) of parameters, and the
    group of their results.

    Each executor is a step relation: a step is what runs between two suspensions of the
    code, and the completion of a request, successful or not, is a choice of the
    environment.  [log] and [sent] record, for the statements, the completions in order
    and the requests made; the code does not keep them.

    The theorems: at most the configured number of requests are in flight; no item is
    executed twice; when the promise resolves every item was executed and the group
    holds the outcomes; an execution over an array cannot go on for ever nor get stuck;
    the promise of a stream is settled once the stream has ended, nothing is in flight and the
    handlers that are due have run.  The handlers of a result and the one that resumes the
    stream are separate reactions: a stream that emits items between them can exceed the
    level ([stream_level_exceeded]). *)

From stdpp Require Import relations.
From S2P Require Import Prelude.

(** ** ResultSetGroup *)

(** What an execution gives: a result or an error. *)
Inductive outcome : Type :=
| Result (rs : nat)
| Failure (err : nat).

#[export] Instance outcome_eq_dec : EqDecision outcome.
Proof. solve_decision. Defined.

Record groupOptions : Type := mkGroupOptions { collectResults : bool; maxErrors_ : option nat }.

(** [resultItems] is kept only when results are collected; an absent item is none. *)
Record group : Type := mkGroup {
  maxErrors : nat;
  totalExecuted : nat;
  errors : list nat;
  resultItems : option (nat -> option outcome) }.

(** [options.maxErrors || 100] *)
Definition new_group (o : groupOptions) : group :=
  mkGroup (match maxErrors_ o with Some (S m) => S m | _ => 100%nat end) 0 []
    (if collectResults o then Some (fun _ => None) else None).

Definition set_item (items : option (nat -> option outcome)) (index : nat) (x : outcome)
    : option (nat -> option outcome) :=
  (fun f => fun i => if (i =? index)%nat then Some x else f i) <$> items.

Definition setResultItem (g : group) (index rs : nat) : group :=
  mkGroup (maxErrors g) (S (totalExecuted g)) (errors g) (set_item (resultItems g) index (Result rs)).

Definition group_setError (g : group) (index err : nat) : group :=
  mkGroup (maxErrors g) (S (totalExecuted g))
    (if (length (errors g) <? maxErrors g)%nat then errors g ++ [err] else errors g)
    (set_item (resultItems g) index (Failure err)).

Definition record (g : group) (entry : nat * outcome) : group :=
  match entry with
  | (index, Result rs) => setResultItem g index rs
  | (index, Failure err) => group_setError g index err
  end.

(** ** ArrayBasedExecutor *)

Module ArrayBasedExecutor.

(** [query] gives the statement of an item, for the cache of prepared statements. *)
Record config : Type := mkConfig {
  parameters : nat;                     (** how many items *)
  concurrencyLevel : nat;
  raiseOnFirstError : bool;
  query : nat -> nat;
  groupOpts : groupOptions }.

(** [Math.min(options.concurrencyLevel || 100, parameters.length)] *)
Definition level (requested : option nat) (n : nat) : nat :=
  Nat.min (match requested with Some (S k) => S k | _ => 100 end) n.

(** Where a chain of [#executeOneAtATime] is, with its iteration: about to look at its
    next item, waiting for a statement to be prepared, waiting for a request, resolved,
    or rejected. *)
Inductive worker : Type :=
| Start (iteration : nat)
| Preparing (iteration : nat)
| Executing (iteration : nat)
| Resolved (iteration : nat)
| Rejected (iteration : nat) (err : nat).

Record state : Type := mkState {
  workers : list worker;
  stop : bool;
  cache : list nat;
  result : group;
  sent : list nat;
  log : list (nat * outcome) }.

Definition initial (c : config) : state :=
  mkState (replicate (concurrencyLevel c) (Start 0)) false [] (new_group (groupOpts c)) [] [].

Definition item (c : config) (initialIndex iteration : nat) : nat :=
  (initialIndex + concurrencyLevel c * iteration)%nat.

Definition set_worker (s : state) (i : nat) (w : worker) : state :=
  mkState (<[i := w]> (workers s)) (stop s) (cache s) (result s) (sent s) (log s).

(** [rustyExecute] is called for the item. *)
Definition send (s : state) (index : nat) : state :=
  mkState (workers s) (stop s) (cache s) (result s) (sent s ++ [index]) (log s).

Definition storeElement (s : state) (q : nat) : state :=
  mkState (workers s) (stop s) (q :: cache s) (result s) (sent s) (log s).

(** The outcome of an item is recorded. *)
Definition complete (s : state) (index : nat) (x : outcome) : state :=
  mkState (workers s) (stop s) (cache s) (record (result s) (index, x)) (sent s) (log s ++ [(index, x)]).

Definition set_stop (s : state) : state :=
  mkState (workers s) true (cache s) (result s) (sent s) (log s).

(** The beginning of [#executeOneAtATime], up to the first suspension. *)
Definition begin (c : config) (s : state) (i iteration : nat) : state :=
  let index := item c i iteration in
  if (parameters c <=? index)%nat || stop s then set_worker s i (Resolved iteration)
  else if bool_decide (query c index ∈ cache s)
       then set_worker (send s index) i (Executing iteration)
       else set_worker s i (Preparing iteration).

(** A statement was prepared: it is stored and the item is executed. *)
Definition prepared (c : config) (s : state) (i iteration : nat) : state :=
  let index := item c i iteration in
  set_worker (send (storeElement s (query c index)) index) i (Executing iteration).

(** A request succeeded. *)
Definition succeeded (c : config) (s : state) (i iteration rs : nat) : state :=
  set_worker (complete s (item c i iteration) (Result rs)) i (Start (S iteration)).

(** The catch clause with [#setError]. *)
Definition failed (c : config) (s : state) (i iteration err : nat) : state :=
  let s := complete s (item c i iteration) (Failure err) in
  if raiseOnFirstError c then set_worker (set_stop s) i (Rejected iteration err)
  else set_worker s i (Start (S iteration)).

Inductive step (c : config) : state -> state -> Prop :=
| step_begin s i it : workers s !! i = Some (Start it) -> step c s (begin c s i it)
| step_prepared s i it : workers s !! i = Some (Preparing it) -> step c s (prepared c s i it)
| step_prepare_failed s i it err :
    workers s !! i = Some (Preparing it) -> step c s (failed c s i it err)
| step_succeeded s i it rs : workers s !! i = Some (Executing it) -> step c s (succeeded c s i it rs)
| step_failed s i it err : workers s !! i = Some (Executing it) -> step c s (failed c s i it err).

Definition reachable (c : config) (s : state) : Prop := rtc (step c) (initial c) s.

(** A request of the worker is waited for. *)
Definition in_flight (w : worker) : bool :=
  match w with Preparing _ | Executing _ => true | _ => false end.

Definition finished (w : worker) : bool :=
  match w with Resolved _ | Rejected _ _ => true | _ => false end.

Definition is_resolved (w : worker) : bool := match w with Resolved _ => true | _ => false end.

(** [Promise.all(promises)] *)
Definition resolved (s : state) : bool := forallb is_resolved (workers s).

End ArrayBasedExecutor.

(** ** Invariant of the array executor *)

Section array.
Import ArrayBasedExecutor.
Variable c : config.

(** The number of items of its chain that a worker has completed. *)
Definition completed (w : worker) : nat :=
  match w with
  | Start it | Preparing it | Executing it | Resolved it => it
  | Rejected it _ => S it
  end.

Definition logged (s : state) : list nat := fst <$> log s.

Record array_inv (s : state) : Prop := {
  inv_length : length (workers s) = concurrencyLevel c;
  inv_chain : forall i w, workers s !! i = Some w ->
    forall k, item c i k ∈ logged s <-> (k < completed w)%nat;
  inv_nodup : NoDup (logged s);
  inv_range : Forall (fun x => (x < parameters c)%nat) (logged s);
  inv_live : forall i w, workers s !! i = Some w -> in_flight w = true ->
    (item c i (completed w) < parameters c)%nat;
  inv_resolved : forall i it, workers s !! i = Some (Resolved it) ->
    stop s = true \/ (parameters c <= item c i it)%nat;
  inv_stop : stop s = true -> exists i it err, workers s !! i = Some (Rejected it err);
  inv_group : result s = fold_left record (log s) (new_group (groupOpts c));
  inv_sent_nodup : NoDup (sent s);
  inv_sent : forall x, x ∈ sent s ->
    x ∈ logged s \/ exists i it, workers s !! i = Some (Executing it) /\ x = item c i it
}.

Lemma item_inj i j k l :
  (i < concurrencyLevel c)%nat -> (j < concurrencyLevel c)%nat -> item c i k = item c j l -> i = j /\ k = l.
Proof.
  unfold item. intros Hi Hj E.
  destruct (Nat.div_mod_unique (concurrencyLevel c) k l i j Hi Hj) as [-> ->]; [lia|done].
Qed.

Lemma worker_lt s i w : array_inv s -> workers s !! i = Some w -> (i < concurrencyLevel c)%nat.
Proof. intros Hinv Hw. rewrite <- (inv_length s Hinv). by apply lookup_lt_Some in Hw. Qed.

Lemma lookup_set_worker s i w j :
  (i < length (workers s))%nat ->
  workers (set_worker s i w) !! j = if decide (i = j) then Some w else workers s !! j.
Proof.
  intros Hi. cbn [set_worker workers]. destruct (decide (i = j)) as [<-|Hij];
    [by apply list_lookup_insert_eq|by apply list_lookup_insert_ne].
Qed.

Lemma initial_inv : array_inv (initial c).
Proof.
  constructor; cbn.
  - apply length_replicate.
  - intros i w [-> Hw]%lookup_replicate k. split; [by intros ?%not_elem_of_nil|cbn; lia].
  - constructor.
  - constructor.
  - intros i w [-> Hw]%lookup_replicate. done.
  - intros i it [? ?]%lookup_replicate. done.
  - done.
  - done.
  - constructor.
  - by intros x ?%not_elem_of_nil.
Qed.

(** A worker goes on with the same item: nothing is completed. *)
Lemma move_inv s i w w' ca :
  array_inv s -> workers s !! i = Some w -> completed w' = completed w ->
  (in_flight w' = true -> (item c i (completed w') < parameters c)%nat) ->
  (forall it, w' = Resolved it -> stop s = true \/ (parameters c <= item c i it)%nat) ->
  (forall it err, w <> Rejected it err) -> (forall it, w <> Executing it) -> (forall it, w' <> Executing it) ->
  array_inv (mkState (<[i := w']> (workers s)) (stop s) ca (result s) (sent s) (log s)).
Proof.
  intros Hinv Hw Hc Hlive Hres Hnr Hne Hne'. pose proof (worker_lt s i w Hinv Hw) as Hi.
  pose proof (lookup_lt_Some _ _ _ Hw) as Hi'.
  assert (Hl : forall j, <[i := w']> (workers s) !! j = if decide (i = j) then Some w' else workers s !! j)
    by (intros j; by apply lookup_set_worker).
  destruct Hinv as [H1 H2 H3 H4 H5 H6 H7 H8 H9 H10].
  constructor; cbn [workers stop result sent log]; try done.
  - by rewrite length_insert.
  - intros j v Hv. rewrite Hl in Hv. case_decide; [|by apply H2]. simplify_eq. intros k. rewrite Hc. by apply (H2 j w).
  - intros j v Hv. rewrite Hl in Hv. case_decide; [|by apply H5]. by simplify_eq.
  - intros j it Hv. rewrite Hl in Hv. case_decide; [|by apply H6]. simplify_eq. by apply Hres.
  - intros Hs. destruct (H7 Hs) as (j & it & err & Hj). exists j, it, err. rewrite Hl.
    case_decide; [|done]. subst. rewrite Hw in Hj. injection Hj as ->. by destruct (Hnr it err).
  - intros x Hx. destruct (H10 x Hx) as [Hin|(j & it & Hj & ->)]; [by left|right].
    exists j, it. rewrite Hl. case_decide; [|done]. subst. rewrite Hw in Hj. injection Hj as ->. by destruct (Hne it).
Qed.

(** A worker sends the request of its item. *)
Lemma send_inv s i w it ca :
  array_inv s -> workers s !! i = Some w -> completed w = it ->
  (item c i it < parameters c)%nat ->
  (forall it err, w <> Rejected it err) -> (forall it, w <> Executing it) ->
  array_inv (mkState (<[i := Executing it]> (workers s)) (stop s) ca (result s) (sent s ++ [item c i it]) (log s)).
Proof.
  intros Hinv Hw Hc Hlive Hnr Hne. pose proof (worker_lt s i w Hinv Hw) as Hi.
  pose proof (lookup_lt_Some _ _ _ Hw) as Hi'. pose proof (worker_lt s) as Hwlt.
  assert (Hl : forall j, <[i := Executing it]> (workers s) !! j = if decide (i = j) then Some (Executing it) else workers s !! j)
    by (intros j; by apply lookup_set_worker).
  assert (Hfresh : item c i it ∉ sent s).
  { intros Hin. destruct (inv_sent s Hinv _ Hin) as [Hin'|(j & k & Hj & E)].
    - rewrite (inv_chain s Hinv i w Hw it) in Hin'. lia.
    - destruct (item_inj i j it k Hi (Hwlt j _ Hinv Hj) E) as [-> ->]. rewrite Hw in Hj. injection Hj as ->.
      by destruct (Hne k). }
  destruct Hinv as [H1 H2 H3 H4 H5 H6 H7 H8 H9 H10].
  constructor; cbn [workers stop result sent log]; try done.
  - by rewrite length_insert.
  - intros j v Hv. rewrite Hl in Hv. case_decide; [|by apply H2]. simplify_eq. intros k. by apply (H2 j w).
  - intros j v Hv. rewrite Hl in Hv. case_decide; [|by apply H5]. by simplify_eq.
  - intros j k Hv. rewrite Hl in Hv. case_decide; [done|by apply H6].
  - intros Hs. destruct (H7 Hs) as (j & k & err & Hj). exists j, k, err. rewrite Hl.
    case_decide; [|done]. subst. rewrite Hw in Hj. injection Hj as ->. by destruct (Hnr k err).
  - apply list.NoDup_app. split_and!; [done| |apply NoDup_singleton].
    intros x Hx ->%list_elem_of_singleton. done.
  - intros x [Hx| ->%list_elem_of_singleton]%elem_of_app.
    + destruct (H10 x Hx) as [Hin|(j & k & Hj & ->)]; [by left|right].
      exists j, k. rewrite Hl. case_decide; [|done]. subst. rewrite Hw in Hj. injection Hj as ->. by destruct (Hne k).
    + right. exists i, it. rewrite Hl. by case_decide.
Qed.

(** The outcome of a worker's item is recorded and the worker goes on or is rejected. *)
Lemma complete_inv s i w w' x st :
  array_inv s -> workers s !! i = Some w -> in_flight w = true -> completed w' = S (completed w) ->
  in_flight w' = false -> (forall it, w' <> Resolved it) ->
  (st = stop s \/ st = true /\ exists it err, w' = Rejected it err) ->
  let index := item c i (completed w) in
  array_inv (mkState (<[i := w']> (workers s)) st (cache s) (record (result s) (index, x)) (sent s)
               (log s ++ [(index, x)])).
Proof.
  intros Hinv Hw Hf Hc Hf' Hnr Hst index. pose proof (worker_lt s i w Hinv Hw) as Hi.
  pose proof (lookup_lt_Some _ _ _ Hw) as Hi'. pose proof (worker_lt s) as Hwlt.
  assert (Hl : forall j, <[i := w']> (workers s) !! j = if decide (i = j) then Some w' else workers s !! j)
    by (intros j; by apply lookup_set_worker).
  assert (Hlog : forall y, y ∈ logged (mkState (<[i := w']> (workers s)) st (cache s)
      (record (result s) (index, x)) (sent s) (log s ++ [(index, x)])) <-> y ∈ logged s \/ y = index).
  { intros y. unfold logged. cbn [log]. rewrite fmap_app, elem_of_app. cbn. by rewrite list_elem_of_singleton. }
  assert (Hfresh : index ∉ logged s).
  { intros Hin. unfold index in Hin. rewrite (inv_chain s Hinv i w Hw) in Hin. lia. }
  pose proof (inv_live s Hinv i w Hw Hf) as Hlt.
  destruct Hinv as [H1 H2 H3 H4 H5 H6 H7 H8 H9 H10].
  constructor; cbn [workers stop result sent].
  - by rewrite length_insert.
  - intros j v Hv k. rewrite Hlog. rewrite Hl in Hv. case_decide as Hd.
    + simplify_eq. rewrite (H2 j w Hw k), Hc. split.
      * intros [Hk|E]; [lia|]. destruct (item_inj j j k (completed w) Hi Hi E) as [_ ->]. lia.
      * intros Hk. destruct (decide (k = completed w)) as [->|]; [by right|left; lia].
    + rewrite (H2 j v Hv k). split; [|by left]. intros [Hk|E]; [done|].
      destruct (item_inj j i k (completed w)) as [-> _]; [|done|done|done].
      rewrite <- H1. by apply lookup_lt_Some in Hv.
  - unfold logged. cbn [log]. rewrite fmap_app. apply list.NoDup_app. split_and!; [done| |apply NoDup_singleton].
    intros y Hy ->%list_elem_of_singleton. done.
  - unfold logged. cbn [log]. rewrite fmap_app. apply Forall_app. split; [done|]. by apply Forall_singleton.
  - intros j v Hv. rewrite Hl in Hv. case_decide; [simplify_eq; by rewrite Hf'|by apply H5].
  - intros j k Hv. rewrite Hl in Hv. case_decide; [simplify_eq; by destruct (Hnr k)|].
    destruct (H6 j k Hv) as [Hs|Hs]; [|by right]. left. destruct Hst as [->|[-> _]]; done.
  - intros Hs. destruct Hst as [->|[-> (it & err & ->)]].
    + destruct (H7 Hs) as (j & k & err & Hj). exists j, k, err. rewrite Hl. case_decide; [|done].
      subst. rewrite Hw in Hj. injection Hj as ->. done.
    + exists i, it, err. rewrite Hl. by case_decide.
  - cbn [log]. rewrite fold_left_app, <- H8. done.
  - done.
  - intros y Hy. destruct (H10 y Hy) as [Hin|(j & k & Hj & ->)]; [left; rewrite Hlog; by left|].
    destruct (decide (i = j)) as [<-|Hij].
    + left. rewrite Hlog. right. rewrite Hw in Hj. by injection Hj as ->.
    + right. exists j, k. rewrite Hl. by case_decide.
Qed.

Lemma step_inv s s' : array_inv s -> step c s s' -> array_inv s'.
Proof.
  intros Hinv Hs. destruct Hs as [s i it Hw|s i it Hw|s i it err Hw|s i it rs Hw|s i it err Hw].
  - unfold begin. destruct ((parameters c <=? item c i it)%nat || stop s) eqn:Hb.
    + apply (move_inv s i (Start it) (Resolved it)); try done.
      intros it' [= <-]. apply orb_true_iff in Hb as [Hb%Nat.leb_le|Hb]; auto.
    + apply orb_false_iff in Hb as [Hb%Nat.leb_gt _]. case_bool_decide.
      * by apply (send_inv s i (Start it) it).
      * by apply (move_inv s i (Start it) (Preparing it)).
  - pose proof (inv_live s Hinv i _ Hw eq_refl) as Hlt. by apply (send_inv s i (Preparing it) it).
  - unfold failed. destruct (raiseOnFirstError c);
      apply (complete_inv s i (Preparing it)); try done; [right; split; [done|]; by eexists _, _|by left].
  - apply (complete_inv s i (Executing it)); try done. by left.
  - unfold failed. destruct (raiseOnFirstError c);
      apply (complete_inv s i (Executing it)); try done; [right; split; [done|]; by eexists _, _|by left].
Qed.

Lemma reachable_inv s : reachable c s -> array_inv s.
Proof.
  unfold reachable. intros Hr. assert (Hi : array_inv (initial c)) by apply initial_inv.
  induction Hr as [|s1 s2 s3 Hst _ IH]; [done|]. apply IH. by apply (step_inv s1).
Qed.

(** The worker of an item. *)
Lemma item_worker s x :
  array_inv s -> (x < parameters c)%nat -> (0 < concurrencyLevel c)%nat ->
  exists i k w, workers s !! i = Some w /\ x = item c i k.
Proof.
  intros Hinv Hx Hl. set (i := (x mod concurrencyLevel c)%nat).
  assert (Hi : (i < length (workers s))%nat).
  { rewrite (inv_length s Hinv). apply Nat.mod_upper_bound. lia. }
  destruct (lookup_lt_is_Some_2 _ _ Hi) as [w Hw].
  exists i, (x / concurrencyLevel c)%nat, w. split; [done|]. unfold item, i.
  pose proof (Nat.div_mod_eq x (concurrencyLevel c)). lia.
Qed.

(** All items are completed once every worker is resolved. *)
Lemma resolved_complete s :
  array_inv s -> (0 < concurrencyLevel c)%nat -> resolved s = true ->
  logged s ≡ₚ seq 0 (parameters c).
Proof.
  intros Hinv Hl Hr. unfold resolved in Hr. rewrite forallb_forall in Hr.
  assert (Hall : forall i w, workers s !! i = Some w -> exists it, w = Resolved it).
  { intros i w Hw. specialize (Hr w). destruct w; try (by eexists);
      exfalso; discriminate Hr; apply list_elem_of_In; by apply list_elem_of_lookup_2 in Hw. }
  assert (Hstop : stop s = false).
  { destruct (stop s) eqn:Hs; [|done]. destruct (inv_stop s Hinv Hs) as (i & it & err & Hw).
    destruct (Hall i _ Hw) as [? ?]. done. }
  apply NoDup_Permutation; [apply inv_nodup, Hinv|apply NoDup_seq|]. intros x. split.
  - intros Hx. pose proof (inv_range s Hinv) as HF. rewrite Forall_forall in HF.
    apply elem_of_seq. split; [lia|]. apply HF. by apply list_elem_of_In.
  - intros [_ Hx]%elem_of_seq. destruct (item_worker s x Hinv Hx Hl) as (i & k & w & Hw & ->).
    destruct (Hall i w Hw) as [it ->]. rewrite (inv_chain s Hinv i _ Hw). cbn [completed].
    destruct (inv_resolved s Hinv i it Hw) as [Hs|Hs]; [by rewrite Hstop in Hs|].
    cbn [Nat.add] in Hx. unfold item in *. nia.
Qed.

(** ** Progress and termination *)

(** Work left to a worker: it decreases at each of its steps. *)
Definition work (i : nat) (w : worker) : nat :=
  match w with
  | Start it => 4 * (parameters c - item c i it) + 1
  | Preparing it => 4 * (parameters c - item c i it)
  | Executing it => 4 * (parameters c - item c i it) - 1
  | Resolved _ | Rejected _ _ => 0
  end%nat.

Fixpoint total_work (i : nat) (ws : list worker) : nat :=
  match ws with [] => 0 | w :: ws => work i w + total_work (S i) ws end.

Lemma total_work_insert ws i w w' k :
  ws !! i = Some w -> (work (k + i) w' < work (k + i) w)%nat ->
  (total_work k (<[i := w']> ws) < total_work k ws)%nat.
Proof.
  revert i k. induction ws as [|v ws IH]; intros [|i] k Hw Hlt; try done; cbn in *.
  - injection Hw as ->. rewrite Nat.add_0_r in Hlt. lia.
  - assert (total_work (S k) (<[i := w']> ws) < total_work (S k) ws)%nat; [|unfold insert in *; lia].
    apply (IH i (S k)); [done|]. by rewrite Nat.add_succ_comm.
Qed.

Lemma step_decreases s s' :
  array_inv s -> step c s s' -> (total_work 0 (workers s') < total_work 0 (workers s))%nat.
Proof.
  intros Hinv Hs. destruct Hs as [s i it Hw|s i it Hw|s i it err Hw|s i it rs Hw|s i it err Hw].
  all: pose proof (worker_lt s i _ Hinv Hw) as Hi; pose proof (inv_live s Hinv i _ Hw) as Hlt; cbn in Hlt.
  - unfold begin. repeat case_match; cbn [workers set_worker send]; (eapply total_work_insert; [exact Hw|]);
      cbn [work Nat.add]; try lia;
      match goal with H : (_ <=? _)%nat || _ = false |- _ => apply orb_false_iff in H as [H%Nat.leb_gt _] end; lia.
  - specialize (Hlt eq_refl). eapply total_work_insert; [exact Hw|]. cbn [work Nat.add]. lia.
  - specialize (Hlt eq_refl). unfold failed. case_match; (eapply total_work_insert; [exact Hw|]); cbn [work Nat.add]; [lia|].
    unfold item in *. nia.
  - specialize (Hlt eq_refl). eapply total_work_insert; [exact Hw|]. cbn [work Nat.add]. unfold item in *. nia.
  - specialize (Hlt eq_refl). unfold failed. case_match; (eapply total_work_insert; [exact Hw|]); cbn [work Nat.add]; [lia|].
    unfold item in *. nia.
Qed.

Lemma step_progress s : (exists s', step c s s') \/ forallb finished (workers s) = true.
Proof.
  destruct (forallb finished (workers s)) eqn:Hf; [by right|left].
  assert (Hex : exists i w, workers s !! i = Some w /\ finished w = false).
  { clear -Hf. induction (workers s) as [|w ws IH]; [done|]. cbn in Hf.
    apply andb_false_iff in Hf as [Hf|Hf]; [by exists 0%nat, w|]. destruct (IH Hf) as (i & v & ? & ?). by exists (S i), v. }
  destruct Hex as (i & w & Hw & Hn). destruct w as [it|it|it|it|it err]; try done.
  - eexists. by eapply step_begin.
  - eexists. by eapply step_prepared.
  - eexists. by eapply (step_succeeded _ _ _ _ 0%nat).
Qed.

End array.

(** ** The group of results *)

Definition failures (log : list (nat * outcome)) : list nat :=
  omap (fun e => match snd e with Failure err => Some err | Result _ => None end) log.

Lemma record_maxErrors g e : maxErrors (record g e) = maxErrors g.
Proof. by destruct e as [i [rs|err]]. Qed.

Lemma group_total log g : totalExecuted (fold_left record log g) = (totalExecuted g + length log)%nat.
Proof.
  revert g. induction log as [|[i x] log IH]; intros g; cbn [fold_left length]; [lia|].
  rewrite IH. destruct x; cbn; lia.
Qed.

Lemma group_errors log g :
  (length (errors g) <= maxErrors g)%nat ->
  errors (fold_left record log g) = take (maxErrors g) (errors g ++ failures log).
Proof.
  revert g. induction log as [|[i x] log IH]; intros g Hg; cbn [fold_left].
  { unfold failures. cbn. rewrite app_nil_r. by rewrite take_ge. }
  rewrite IH.
  - rewrite record_maxErrors. destruct x as [rs|err]; [done|]. cbn [record group_setError errors].
    change (failures ((i, Failure err) :: log)) with (err :: failures log).
    destruct (Nat.ltb_spec (length (errors g)) (maxErrors g)) as [Hlt|Hge]; [by rewrite <- app_assoc|].
    assert (E : length (errors g) = maxErrors g) by lia.
    by rewrite !take_app_length'.
  - rewrite record_maxErrors. destruct x as [rs|err]; [done|]. cbn [record group_setError errors].
    destruct (Nat.ltb_spec (length (errors g)) (maxErrors g)); [rewrite length_app; cbn; lia|done].
Qed.

Lemma group_items log g items :
  resultItems g = Some items -> NoDup (fst <$> log) ->
  exists f, resultItems (fold_left record log g) = Some f /\
    forall i, f i = match List.find (fun e => (fst e =? i)%nat) log with Some e => Some (snd e) | None => items i end.
Proof.
  revert g items. induction log as [|[j x] log IH]; intros g items Hg Hnd; cbn [fold_left]; [by exists items|].
  inversion Hnd as [|? ? Hni Hnd' E]; subst.
  assert (Hr : resultItems (record g (j, x)) = Some (fun i => if (i =? j)%nat then Some x else items i)).
  { destruct x; cbn; by rewrite Hg. }
  destruct (IH _ _ Hr Hnd') as (f & Hf & Hi). exists f. split; [done|]. intros i. rewrite Hi. cbn [List.find fst snd].
  destruct (Nat.eqb_spec j i) as [<-|Hji].
  - rewrite Nat.eqb_refl. destruct (List.find _ log) as [e|] eqn:Hfe; [|done].
    apply List.find_some in Hfe as [Hin He]. apply Nat.eqb_eq in He. destruct Hni. rewrite <- He.
    apply list_elem_of_fmap_2. by apply list_elem_of_In.
  - by rewrite (proj2 (Nat.eqb_neq i j)) by done.
Qed.

(** ** Properties of the array executor *)

Section array_properties.
Import ArrayBasedExecutor.

(** C5. The array executor keeps to its concurrency level and executes no item twice:
    in every reachable state, for every order of completions and failures, at most
    [concurrencyLevel] requests are waited for, the requests made are of different
    items of the array, and no item has two outcomes. *)
Theorem array_executor_safe (c : config) (s : state) :
  reachable c s ->
  (length (List.filter in_flight (workers s)) <= concurrencyLevel c)%nat /\
  NoDup (sent s) /\ Forall (fun x => (x < parameters c)%nat) (sent s) /\ NoDup (fst <$> log s).
Proof.
  intros Hinv%reachable_inv. split_and!.
  - rewrite <- (inv_length c s Hinv). apply List.filter_length_le.
  - apply (inv_sent_nodup c s Hinv).
  - apply Forall_forall. intros x Hx%list_elem_of_In.
    destruct (inv_sent c s Hinv x Hx) as [Hin|(i & it & Hw & ->)].
    + pose proof (inv_range c s Hinv) as HF. rewrite Forall_forall in HF. apply HF. by apply list_elem_of_In.
    + by apply (inv_live c s Hinv i _ Hw).
  - apply (inv_nodup c s Hinv).
Qed.

(** C6. When the promise of the array executor resolves, every item of the array was
    executed exactly once, [totalExecuted] is their number, [errors] are the errors in
    the order they came, up to [maxErrors], and, when results are collected,
    [resultItems] holds at each index the outcome of that item. *)
Theorem array_executor_result (c : config) (s : state) requested :
  concurrencyLevel c = level requested (parameters c) ->
  reachable c s -> resolved s = true ->
  (fst <$> log s) ≡ₚ seq 0 (parameters c) /\
  totalExecuted (result s) = parameters c /\
  errors (result s) = take (maxErrors (new_group (groupOpts c))) (failures (log s)) /\
  (collectResults (groupOpts c) = true -> exists f, resultItems (result s) = Some f /\
     forall i, f i = match List.find (fun e => (fst e =? i)%nat) (log s) with Some e => Some (snd e) | None => None end).
Proof.
  intros Hlevel Hinv%reachable_inv Hr.
  assert (Hp : (fst <$> log s) ≡ₚ seq 0 (parameters c)).
  { destruct (Nat.eq_0_gt_0_cases (concurrencyLevel c)) as [H0|Hpos]; [|by apply (resolved_complete c)].
    assert (Hn : parameters c = 0%nat).
    { rewrite H0 in Hlevel. unfold level in Hlevel. destruct requested as [[|k]|]; lia. }
    pose proof (inv_range c s Hinv) as HF. unfold logged in HF. rewrite Hn in *.
    destruct (fst <$> log s) as [|x l]; [done|]. apply Forall_cons_1 in HF as [? _]. lia. }
  split; [exact Hp|]. rewrite (inv_group c s Hinv). split_and!.
  - rewrite group_total. cbn [new_group totalExecuted Nat.add].
    rewrite <- (length_fmap fst), Hp. apply length_seq.
  - rewrite group_errors by (cbn; lia). done.
  - intros Hc.
    destruct (group_items (log s) (new_group (groupOpts c)) (fun _ => None)) as (f & Hf & Hi).
    + unfold new_group. cbn. by rewrite Hc.
    + apply (inv_nodup c s Hinv).
    + by exists f.
Qed.

(** C7. The array executor finishes: from every reachable state there is no infinite
    sequence of steps, and a state without a step has all its promises settled.  So the
    promise is settled after finitely many completions of requests, whatever they are. *)
Theorem array_executor_terminates (c : config) (s : state) :
  reachable c s -> sn (step c) s /\ (nf (step c) s -> forallb finished (workers s) = true).
Proof.
  intros Hinv%reachable_inv. split.
  - remember (total_work c 0 (workers s)) as n eqn:En. revert s En Hinv.
    induction n as [n IH] using lt_wf_ind. intros s -> Hinv. constructor. intros s' Hs. cbn in Hs.
    eapply IH; [|reflexivity|by apply (step_inv c s)]. by apply step_decreases.
  - intros Hnf. destruct (step_progress c s) as [[s' Hs]|Hf]; [|done]. destruct Hnf. by exists s'.
Qed.

End array_properties.

(** Two items, two workers, results collected. *)
Definition sample_config : ArrayBasedExecutor.config :=
  ArrayBasedExecutor.mkConfig 2 2 true (fun _ => 0%nat) (mkGroupOptions true None).

Definition sample_run : ArrayBasedExecutor.state :=
  let c := sample_config in
  let s := ArrayBasedExecutor.initial c in
  let s := ArrayBasedExecutor.begin c s 0 0 in
  let s := ArrayBasedExecutor.begin c s 1 0 in
  let s := ArrayBasedExecutor.prepared c s 1 0 in
  let s := ArrayBasedExecutor.prepared c s 0 0 in
  let s := ArrayBasedExecutor.succeeded c s 0 0 7 in
  let s := ArrayBasedExecutor.succeeded c s 1 0 8 in
  let s := ArrayBasedExecutor.begin c s 0 1 in
  ArrayBasedExecutor.begin c s 1 1.

Lemma sample_run_reachable : ArrayBasedExecutor.reachable sample_config sample_run.
Proof.
  unfold ArrayBasedExecutor.reachable, sample_run. cbv zeta.
  do 2 (eapply rtc_r; [|apply ArrayBasedExecutor.step_begin; reflexivity]).
  do 2 (eapply rtc_r; [|apply ArrayBasedExecutor.step_succeeded; reflexivity]).
  do 2 (eapply rtc_r; [|apply ArrayBasedExecutor.step_prepared; reflexivity]).
  do 2 (eapply rtc_r; [|apply ArrayBasedExecutor.step_begin; reflexivity]). reflexivity.
Qed.

Lemma array_executor_safe_witness : NoDup (ArrayBasedExecutor.sent sample_run).
Proof. apply (array_executor_safe sample_config sample_run sample_run_reachable). Defined.

Lemma array_executor_result_witness : totalExecuted (ArrayBasedExecutor.result sample_run) = 2%nat.
Proof.
  apply (array_executor_result sample_config sample_run None eq_refl sample_run_reachable). reflexivity.
Defined.

Lemma array_executor_terminates_witness : sn (ArrayBasedExecutor.step sample_config) sample_run.
Proof. apply (array_executor_terminates sample_config sample_run sample_run_reachable). Defined.

(** ** StreamBasedExecutor *)

Module StreamBasedExecutor.

Record config : Type := mkConfig {
  raiseOnFirstError : bool;
  concurrencyLevel : nat;                (** [options.concurrencyLevel || 100] *)
  groupOpts : groupOptions }.

(** The promise [execute()] returns; settling it again has no effect. *)
Inductive promise : Type :=
| Pending
| Fulfilled (g : group)
| RejectedWith (err : nat).

(** [outstanding] are the items whose request is waited for, [reactions] those whose
    outcome was handled and whose last handler is still to run; [ended] tells that the
    stream emits no more events. *)
Record state : Type := mkState {
  inFlight : nat;
  index : nat;
  result : group;
  readEnded : bool;
  paused : bool;
  ended : bool;
  settled : promise;
  outstanding : list nat;
  reactions : list nat;
  log : list (nat * outcome) }.

Definition initial (c : config) : state :=
  mkState 0 0 (new_group (groupOpts c)) false false false Pending [] [] [].

Definition settle (p q : promise) : promise := match p with Pending => q | _ => p end.

(** [#setReadEnded(err)]; [e] is the event after which the stream is silent. *)
Definition setReadEnded (s : state) (err : option nat) (e : bool) : state :=
  if readEnded s then
    mkState (inFlight s) (index s) (result s) true (paused s) e (settled s) (outstanding s) (reactions s) (log s)
  else
    let p := match err with
             | Some err => settle (settled s) (RejectedWith err)
             | None => if (inFlight s =? 0)%nat then settle (settled s) (Fulfilled (result s)) else settled s
             end in
    mkState (inFlight s) (index s) (result s) true (paused s) e p (outstanding s) (reactions s) (log s).

(** [#executeOne(params)] with an Array, up to its end. *)
Definition executeOne (c : config) (s : state) : state :=
  if readEnded s then s
  else
    let inFlight := S (inFlight s) in
    mkState inFlight (S (index s)) (result s) false
      (if (concurrencyLevel c <=? inFlight)%nat then true else paused s) (ended s) (settled s)
      (index s :: outstanding s) (reactions s) (log s).

Definition remove_one (i : nat) (l : list nat) : list nat := List.filter (fun j => negb (j =? i)%nat) l.

(** The handler of a result. *)
Definition succeeded (s : state) (i rs : nat) : state :=
  mkState (pred (inFlight s)) (index s) (setResultItem (result s) i rs) (readEnded s) (paused s)
    (ended s) (settled s) (remove_one i (outstanding s)) (i :: reactions s) (log s ++ [(i, Result rs)]).

(** The handler of an error, with [#setError]. *)
Definition failed (c : config) (s : state) (i err : nat) : state :=
  mkState (pred (inFlight s)) (index s) (group_setError (result s) i err)
    (raiseOnFirstError c || readEnded s) (paused s) (ended s)
    (if raiseOnFirstError c then settle (settled s) (RejectedWith err) else settled s)
    (remove_one i (outstanding s)) (i :: reactions s) (log s ++ [(i, Failure err)]).

(** The last handler, which runs after one of those: the stream is resumed, and the
    promise resolved at the end. *)
Definition after_each (s : state) (i : nat) : state :=
  mkState (inFlight s) (index s) (result s) (readEnded s) false (ended s)
    (if readEnded s && (inFlight s =? 0)%nat then settle (settled s) (Fulfilled (result s)) else settled s)
    (outstanding s) (remove_one i (reactions s)) (log s).

(** A stream emits items while it is not paused, and then ends or fails.  The handlers of
    a request are separate reactions of promises.  A stream that reads from the outside
    emits items when the reactions that are due have run; an [eager] one may also emit
    them from a reaction of its own, between two others. *)
Inductive step (eager : bool) (c : config) : state -> state -> Prop :=
| step_data s : ended s = false -> paused s = false -> eager = true \/ reactions s = [] -> step eager c s (executeOne c s)
| step_bad_data s err : ended s = false -> paused s = false -> eager = true \/ reactions s = [] ->
    step eager c s (setReadEnded s (Some err) false)
| step_end s : ended s = false -> step eager c s (setReadEnded s None true)
| step_error s err : ended s = false -> step eager c s (setReadEnded s (Some err) true)
| step_succeeded s i rs : i ∈ outstanding s -> step eager c s (succeeded s i rs)
| step_failed s i err : i ∈ outstanding s -> step eager c s (failed c s i err)
| step_after s i : i ∈ reactions s -> step eager c s (after_each s i).

Definition reachable (eager : bool) (c : config) (s : state) : Prop := rtc (step eager c) (initial c) s.

End StreamBasedExecutor.

Section stream.
Import StreamBasedExecutor.
Variable eager : bool.
Variable c : config.

Record stream_inv (s : state) : Prop := {
  si_inFlight : inFlight s = length (outstanding s);
  si_nodup : NoDup (outstanding s);
  si_items : forall i, (i < index s)%nat <-> i ∈ outstanding s \/ i ∈ (fst <$> log s);
  si_log : NoDup (fst <$> log s);
  si_disjoint : forall i, i ∈ outstanding s -> i ∉ (fst <$> log s);
  si_reactions : NoDup (reactions s) /\ forall i, i ∈ reactions s -> i ∈ (fst <$> log s);
  si_level : eager = false -> (inFlight s + length (reactions s) <= concurrencyLevel c)%nat;
  si_paused : eager = false -> (concurrencyLevel c <= inFlight s)%nat -> paused s = true;
  si_ended : ended s = true -> readEnded s = true;
  si_pending : readEnded s = true -> settled s = Pending -> (0 < inFlight s)%nat \/ reactions s <> [];
  si_open : readEnded s = false -> settled s = Pending;
  si_fulfilled : forall g, settled s = Fulfilled g -> readEnded s = true /\ outstanding s = [] /\ g = result s;
  si_group : result s = fold_left record (log s) (new_group (groupOpts c))
}.

Lemma remove_one_length i l : NoDup l -> i ∈ l -> length (remove_one i l) = pred (length l).
Proof.
  induction l as [|j l IH]; intros Hnd Hin; [by apply not_elem_of_nil in Hin|].
  inversion Hnd as [|? ? Hni Hnd' E]; subst. cbn [remove_one List.filter length pred].
  destruct (Nat.eqb_spec j i) as [->|Hji]; cbn [negb].
  - f_equal. clear -Hni. induction l as [|k l IH]; [done|]. cbn [List.filter].
    destruct (Nat.eqb_spec k i) as [->|Hk]; cbn [negb]; [destruct Hni; left|].
    f_equal. apply IH. intros Hin. apply Hni. by right.
  - apply elem_of_cons in Hin as [->|Hin]; [done|]. cbn [length].
    change (S (length (remove_one i l)) = length l). rewrite IH by done.
    destruct l; [by apply not_elem_of_nil in Hin|done].
Qed.

Lemma remove_one_elem i l x : x ∈ remove_one i l <-> x ∈ l /\ x <> i.
Proof.
  unfold remove_one. rewrite !list_elem_of_In, List.filter_In.
  destruct (Nat.eqb_spec x i); cbn; split; intros [? ?]; split; try done.
Qed.

Lemma initial_stream_inv : (0 < concurrencyLevel c)%nat -> stream_inv (initial c).
Proof.
  intros Hc. constructor; cbn; try done; try lia.
  - constructor.
  - intros i. split; [lia|]. by intros [?%not_elem_of_nil|?%not_elem_of_nil].
  - constructor.
  - by intros i ?%not_elem_of_nil.
  - split; [constructor|]. by intros i ?%not_elem_of_nil.
Qed.

(** A completion: the item goes from the outstanding ones to the log, and its last handler
    is due. *)
Lemma completion_inv s i x (re : bool) p :
  stream_inv s -> i ∈ outstanding s ->
  (re = readEnded s /\ p = settled s \/
   re = true /\ exists err, p = settle (settled s) (RejectedWith err)) ->
  (forall g, p <> Fulfilled g) ->
  stream_inv (mkState (pred (inFlight s)) (index s) (record (result s) (i, x)) re (paused s)
    (ended s) p (remove_one i (outstanding s)) (i :: reactions s) (log s ++ [(i, x)])).
Proof.
  intros [H1 H2 H3 H4 H5 [HR HRl] H6 H7 H8 H9 H10 H11 H12] Hi Hre Hp.
  assert (Hlen : length (remove_one i (outstanding s)) = pred (inFlight s)) by (rewrite H1; by apply remove_one_length).
  assert (Hpos : (0 < inFlight s)%nat).
  { rewrite H1. destruct (outstanding s); [by apply not_elem_of_nil in Hi|cbn; lia]. }
  constructor; cbn [inFlight index result readEnded paused ended settled outstanding reactions log]; try done.
  - by apply List.NoDup_filter, NoDup_ListNoDup || (apply NoDup_ListNoDup, List.NoDup_filter, NoDup_ListNoDup; done).
  - intros j. rewrite H3, remove_one_elem, fmap_app, elem_of_app. cbn. rewrite list_elem_of_singleton.
    destruct (decide (j = i)) as [->|]; intuition.
  - rewrite fmap_app. apply list.NoDup_app. split_and!; [done| |apply NoDup_singleton].
    cbn. intros j Hj ->%list_elem_of_singleton. by apply (H5 i).
  - intros j [Hj Hji]%remove_one_elem. rewrite fmap_app, elem_of_app. cbn. rewrite list_elem_of_singleton.
    intros [Hin|E]; [by apply (H5 j)|done].
  - split; [constructor; [|done]; intros Hin; by apply (H5 i Hi), HRl|].
    intros j Hj. rewrite fmap_app, elem_of_app. cbn. rewrite list_elem_of_singleton. apply elem_of_cons in Hj as [->|Hj]; auto.
  - intros He. cbn. specialize (H6 He). lia.
  - intros He. specialize (H6 He). lia.
  - intros He. destruct Hre as [[-> _]|[-> _]]; auto.
  - by right.
  - intros ->. destruct Hre as [[Hr ->]|[Hr _]]; [|done]. by apply H10.
  - intros g Hg. by apply Hp in Hg.
  - rewrite fold_left_app, <- H12. done.
Qed.

(** The last handler. *)
Lemma after_each_inv s i : stream_inv s -> i ∈ reactions s -> stream_inv (after_each s i).
Proof.
  intros [H1 H2 H3 H4 H5 [HR HRl] H6 H7 H8 H9 H10 H11 H12] Hi.
  assert (Hlen : length (remove_one i (reactions s)) = pred (length (reactions s))) by (by apply remove_one_length).
  assert (Hpos : (0 < length (reactions s))%nat).
  { destruct (reactions s); [by apply not_elem_of_nil in Hi|cbn; lia]. }
  constructor; cbn [after_each inFlight index result readEnded paused ended settled outstanding reactions log]; try done.
  - split; [apply NoDup_ListNoDup, List.NoDup_filter, NoDup_ListNoDup; done|]. intros j [Hj _]%remove_one_elem. auto.
  - intros He. specialize (H6 He). lia.
  - intros He. specialize (H6 He). lia.
  - intros Hr Hset. rewrite Hr in Hset. cbn [andb] in Hset. destruct (Nat.eqb_spec (inFlight s) 0); [|lia]. by destruct (settled s).
  - intros Hr. rewrite Hr. cbn [andb]. by apply H10.
  - intros g Hg. destruct (readEnded s) eqn:Hr; cbn [andb] in Hg; [|by apply H11].
    destruct (Nat.eqb_spec (inFlight s) 0) as [E0|E0]; [|by apply H11].
    destruct (settled s); cbn in Hg; [|by apply H11|done]. injection Hg as <-. split_and!; [done| |done].
    apply nil_length_inv. by rewrite <- H1.
Qed.

Lemma settled_not_fulfilled s i : stream_inv s -> i ∈ outstanding s -> forall g, settled s <> Fulfilled g.
Proof.
  intros Hinv Hi g Hg. destruct (si_fulfilled s Hinv g Hg) as (_ & Ho & _). rewrite Ho in Hi. by apply not_elem_of_nil in Hi.
Qed.

Lemma setReadEnded_inv s err e : stream_inv s -> stream_inv (setReadEnded s err e).
Proof.
  intros [H1 H2 H3 H4 H5 HR H6 H7 H8 H9 H10 H11 H12]. unfold setReadEnded. destruct (readEnded s) eqn:Hr.
  - constructor; done.
  - specialize (H10 eq_refl). rewrite H10. destruct err as [err|]; [constructor; done|].
    destruct (Nat.eqb_spec (inFlight s) 0) as [E|E].
    + constructor; try done. cbn. intros g [= <-]. split; [done|]. split; [|done].
      apply nil_length_inv. by rewrite <- H1.
    + constructor; try done. cbn. intros _ _. left. lia.
Qed.

Lemma stream_step_inv s s' : stream_inv s -> step eager c s s' -> stream_inv s'.
Proof.
  intros Hinv Hs. destruct Hs as [s He Hp Hq|s err He Hp Hq|s He|s err He|s i rs Hi|s i err Hi|s i Hi].
  - unfold executeOne. destruct (readEnded s) eqn:Hr; [done|].
    destruct Hinv as [H1 H2 H3 H4 H5 HR H6 H7 H8 H9 H10 H11 H12].
    assert (Hfresh : (index s ∉ outstanding s) /\ (index s ∉ (fst <$> log s))).
    { split; intros Hin; (assert (Hx : (index s < index s)%nat); [apply H3; auto|lia]). }
    assert (Hlt : eager = false -> (inFlight s < concurrencyLevel c)%nat).
    { intros Hea. destruct (le_lt_dec (concurrencyLevel c) (inFlight s)) as [Hle|]; [|done]. by rewrite (H7 Hea Hle) in Hp. }
    constructor; cbn [inFlight index result readEnded paused ended settled outstanding reactions log length].
    + by rewrite H1.
    + constructor; [apply Hfresh|done].
    + intros j. rewrite elem_of_cons. destruct (decide (j = index s)) as [->|Hj]; [split; [by auto|lia]|].
      split; [intros Hlt'; assert (Hj' : (j < index s)%nat) by lia; apply H3 in Hj'; tauto|].
      intros Hor. assert (j < index s)%nat; [|lia]. apply H3. tauto.
    + done.
    + intros j [->|Hj]%elem_of_cons; [apply Hfresh|by apply H5].
    + done.
    + intros Hea. specialize (Hlt Hea). destruct Hq as [Hq| ->]; [congruence|cbn; lia].
    + intros _ Hle. by rewrite (proj2 (Nat.leb_le _ _)).
    + intros He'. by rewrite He in He'.
    + done.
    + intros _. by apply H10.
    + intros g Hg. by rewrite (H10 Hr) in Hg.
    + done.
  - by apply setReadEnded_inv.
  - by apply setReadEnded_inv.
  - by apply setReadEnded_inv.
  - apply (completion_inv s i (Result rs) (readEnded s) (settled s)); [done|done|by left|].
    by apply (settled_not_fulfilled s i).
  - unfold failed. pose proof (settled_not_fulfilled s i Hinv Hi) as Hnf.
    destruct (raiseOnFirstError c); cbn [orb].
    + apply (completion_inv s i (Failure err) true (settle (settled s) (RejectedWith err))); [done|done| |].
      * right. split; [done|]. by exists err.
      * intros g Hg. unfold settle in Hg. destruct (settled s) as [|g'|]; [done|by apply (Hnf g')|done].
    + by apply (completion_inv s i (Failure err) (readEnded s) (settled s)); [| |left|].
  - by apply after_each_inv.
Qed.

Lemma stream_reachable_inv s : (0 < concurrencyLevel c)%nat -> reachable eager c s -> stream_inv s.
Proof.
  intros Hc Hr. pose proof (initial_stream_inv Hc) as Hi. unfold reachable in Hr.
  induction Hr as [|s1 s2 s3 Hst _ IH]; [done|]. apply IH. by apply (stream_step_inv s1).
Qed.

(** C10. The stream executor, in every reachable state, with the handlers of different
    requests and the events of the stream in any order: each item taken from the stream is in
    flight or has exactly one outcome; the promise is fulfilled only after the end of the
    stream, with the group of the outcomes of all items; it is settled when reading has
    ended, nothing is in flight and the handlers that are due have run.  At most
    [concurrencyLevel] requests are in flight when the stream emits no items between the
    handlers of a request; a stream that does can exceed the level. *)
Theorem stream_executor_correct (s : state) :
  (0 < concurrencyLevel c)%nat -> reachable eager c s ->
  (eager = false -> (inFlight s <= concurrencyLevel c)%nat) /\ inFlight s = length (outstanding s) /\
  outstanding s ++ (fst <$> log s) ≡ₚ seq 0 (index s) /\
  (forall g, settled s = Fulfilled g ->
     readEnded s = true /\ g = result s /\ (fst <$> log s) ≡ₚ seq 0 (index s) /\ totalExecuted g = index s) /\
  (readEnded s = true -> inFlight s = 0%nat -> reactions s = [] -> settled s <> Pending).
Proof.
  intros Hc Hinv%stream_reachable_inv; [|done].
  assert (Hp : outstanding s ++ (fst <$> log s) ≡ₚ seq 0 (index s)).
  { destruct Hinv as [H1 H2 H3 H4 H5 _ _ _ _ _ _ _ _]. apply NoDup_Permutation; [by apply list.NoDup_app|apply NoDup_seq|].
    intros i. rewrite elem_of_app, elem_of_seq. rewrite <- H3. cbn. lia. }
  destruct Hinv as [H1 H2 H3 H4 H5 HR H6 H7 H8 H9 H10 H11 H12]. split_and!; [|done|done| |].
  - intros He. specialize (H6 He). lia.
  - intros g Hg. destruct (H11 g Hg) as (Hr & Ho & ->). rewrite Ho in Hp. cbn [app] in Hp.
    split_and!; [done|done|done|]. rewrite H12, group_total. cbn [new_group totalExecuted Nat.add].
    rewrite <- (length_fmap fst), Hp. apply length_seq.
  - intros Hr H0 Hre Hs. destruct (H9 Hr Hs); [lia|done].
Qed.

End stream.

Definition stream_config : StreamBasedExecutor.config :=
  StreamBasedExecutor.mkConfig true 1 (mkGroupOptions false None).

Lemma stream_executor_correct_witness :
  exists s, StreamBasedExecutor.reachable false stream_config s /\
    StreamBasedExecutor.settled s <> StreamBasedExecutor.Pending.
Proof.
  set (s1 := StreamBasedExecutor.executeOne stream_config (StreamBasedExecutor.initial stream_config)).
  set (s2 := StreamBasedExecutor.succeeded s1 0 5).
  set (s3 := StreamBasedExecutor.setReadEnded (StreamBasedExecutor.after_each s2 0) None true).
  assert (Hr : StreamBasedExecutor.reachable false stream_config s3).
  { eapply rtc_l; [apply StreamBasedExecutor.step_data; [reflexivity|reflexivity|by right]|].
    eapply rtc_l; [apply (StreamBasedExecutor.step_succeeded _ _ _ 0%nat 5%nat); left|].
    eapply rtc_l; [apply (StreamBasedExecutor.step_after _ _ _ 0%nat); left|].
    eapply rtc_l; [apply StreamBasedExecutor.step_end; reflexivity|]. reflexivity. }
  exists s3. split; [exact Hr|].
  apply (stream_executor_correct false stream_config s3); [cbn; lia|exact Hr|reflexivity|reflexivity|reflexivity].
Defined.

(** A stream that emits items between the handlers: two results are handled, the last
    handler of the first resumes the stream, two more items pause it again, and the last
    handler of the second resumes it although the level is reached. *)
Lemma stream_level_exceeded :
  exists c s, StreamBasedExecutor.concurrencyLevel c = 2%nat /\ StreamBasedExecutor.reachable true c s /\
    StreamBasedExecutor.inFlight s = 3%nat.
Proof.
  pose (c := StreamBasedExecutor.mkConfig true 2 (mkGroupOptions false None)).
  pose (data := StreamBasedExecutor.executeOne c).
  pose (s2 := data (data (StreamBasedExecutor.initial c))).
  pose (s4 := StreamBasedExecutor.succeeded (StreamBasedExecutor.succeeded s2 0 7) 1 8).
  pose (s5 := StreamBasedExecutor.after_each s4 0). pose (s8 := StreamBasedExecutor.after_each (data (data s5)) 1).
  assert (Hd : forall s, StreamBasedExecutor.ended s = false -> StreamBasedExecutor.paused s = false ->
    StreamBasedExecutor.step true c s (data s)) by (intros s He Hp; apply StreamBasedExecutor.step_data; auto).
  exists c, (data s8). split; [done|]. split; [|done].
  assert (H2 : StreamBasedExecutor.reachable true c s2).
  { eapply rtc_r; [eapply rtc_r; [reflexivity|]|]; by apply Hd. }
  assert (H4 : StreamBasedExecutor.reachable true c s4).
  { eapply rtc_r; [eapply rtc_r; [exact H2|]|]; apply StreamBasedExecutor.step_succeeded; [right; left|left]. }
  assert (H5 : StreamBasedExecutor.reachable true c s5).
  { eapply rtc_r; [exact H4|]. apply StreamBasedExecutor.step_after. right. left. }
  assert (H8 : StreamBasedExecutor.reachable true c s8).
  { eapply rtc_r; [eapply rtc_r; [eapply rtc_r; [exact H5|]|]|]; [by apply Hd|by apply Hd|].
    apply StreamBasedExecutor.step_after. left. }
  eapply rtc_r; [exact H8|]. by apply Hd.
Qed.
