(* ===== verification/Collections.v ===== *)
(** * Collections and parameters

    The functions of lib/utils.js on arrays and objects: binary search and sorted
    insertion, the set of keys, merging objects, and the adaptation of named parameters
    of a request.

    The theorems: binary search finds a key or its place, sorted insertion keeps an
    array sorted, the set of keys behaves as a set, and named parameters become the
    positional ones of the statement. *)

From Stdlib Require Import Sorted.
From stdpp Require Import gmap.
From S2P Require Import Prelude JsNumber Buffer JsString Utf8 CqlTypes JsValue Encoder RoutingKey Token.

(** ** Arrays *)

(** The loop of [binarySearch]; [fuel] bounds the iterations. *)
Fixpoint binarySearch_loop {A K} (fuel : nat) (arr : list A) (key : K) (compareFunc : A -> K -> Z)
    (low high : Z) : option Z :=
  match fuel with
  | O => None
  | S fuel =>
      if low <=? high then
        let mid := js_ushr (low + high) 1 in
        midVal ← arr !! Z.to_nat mid;
        let cmp := compareFunc midVal key in
        if cmp <? 0 then binarySearch_loop fuel arr key compareFunc (mid + 1) high
        else if 0 <? cmp then binarySearch_loop fuel arr key compareFunc low (mid - 1)
        else Some mid
      else Some (js_not low)
  end.

Definition binarySearch {A K} (arr : list A) (key : K) (compareFunc : A -> K -> Z) : option Z :=
  binarySearch_loop (S (length arr)) arr key compareFunc 0 (Z.of_nat (length arr) - 1).

(** [arr.splice(position, 0, item)] *)
Definition splice_in {A} (arr : list A) (position : nat) (item : A) : list A :=
  take position arr ++ item :: drop position arr.

Definition insertSorted {A} (arr : list A) (item : A) (compareFunc : A -> A -> Z) : option (list A) :=
  match arr with
  | [] => Some [item]
  | _ =>
      position ← binarySearch arr item compareFunc;
      let position := if position <? 0 then js_not position else position in
      Some (splice_in arr (Z.to_nat position) item)
  end.

(** The sum of the lengths of the items, given by their [length] properties; an item
    without one counts as 0, unless it is the only item. *)
Definition totalLength (arr : list (option Z)) : option Z :=
  match arr with
  | [n] => n
  | _ => Some (fold_left (fun total n => total + default 0 n) arr 0)
  end.

Definition stringRepeat (val : jsstr) (times : Z) : result jsstr :=
  if times =? 0 then Ok []
  else if times <? 0 then Err (ArgumentError "Cannot repeat string negative amount of times")
  else Ok (mjoin (replicate (Z.to_nat times) val)).

(** ** HashSet *)

Module HashSet.

(** [items] are the properties of the object, all with the value true. *)
Record t : Type := mk { length_ : Z; items : list (jsstr * jsval) }.

Definition constructor : t := mk 0 [].

Definition contains (s : t) (key : jsstr) : bool :=
  (0 <? length_ s) && match lookup_prop key (items s) with Some (JBool true) => true | _ => false end.

Definition add (s : t) (key : jsstr) : bool * t :=
  if contains s key then (false, s)
  else (true, mk (length_ s + 1) (set_prop key (JBool true) (items s))).

(** [delete this.items[key]] *)
Definition delete_prop (key : jsstr) (l : list (jsstr * jsval)) : list (jsstr * jsval) :=
  List.filter (fun e => negb (bool_decide (fst e = key))) l.

(** [None] is undefined. *)
Definition remove (s : t) (key : jsstr) : option bool * t :=
  if negb (contains s key) then (Some false, s)
  else (None, mk (length_ s - 1) (delete_prop key (items s))).

Definition toArray (s : t) : list jsstr := fst <$> items s.

End HashSet.

(** ** Objects *)

(** One source of [extend]: properties that are undefined are not set. *)
Definition extend_source (target source : list (jsstr * jsval)) : list (jsstr * jsval) :=
  fold_left (fun t kv => match snd kv with JUndefined => t | v => set_prop (fst kv) v t end) source target.

Definition extend (target : list (jsstr * jsval)) (sources : list (list (jsstr * jsval))) : list (jsstr * jsval) :=
  fold_left extend_source sources target.

Section parameters.
Context `{Unicode}.

Definition toLowerCaseProperties (obj : list (jsstr * jsval)) : list (jsstr * jsval) :=
  fold_left (fun r kv => set_prop (toLowerCase (fst kv)) (snd kv) r) obj [].

(** ** Named parameters *)

(** The loop over the names of the bound parameters. *)
Fixpoint named_loop (params : list (jsstr * jsval)) (names : list jsstr) : result (list jsval) :=
  match names with
  | [] => Ok []
  | name :: names =>
      match lookup_prop name params with
      | None => Err (ArgumentErrorAt "Parameter not defined" name)
      | Some v => vs ← named_loop params names; Ok (v :: vs)
      end
  end.

(** [prepared] has as many types as names of bound parameters. *)
Definition adaptNamedParamsPrepared (params : list (jsstr * jsval)) (boundParamNames : list jsstr)
    : result (list jsval) :=
  named_loop (toLowerCaseProperties params) boundParamNames.

(** A parameter of a simple statement: its name in lower case and its value. *)
Record named : Type := mkNamed { param_name : jsstr; param_value : jsval }.

(** The parameters of a request as its documentation has them: absent, an array or an
    object of named values. *)
Inductive requestParams : Type :=
| NoParams
| ArrayParams (values : list jsval)
| ObjectParams (fields : list (jsstr * jsval)).

(** What the parameters become: left as they are, or positional with the hints set in
    the options and the position of each key. *)
Inductive adapted : Type :=
| Unnamed (params : requestParams)
| Named (params : list named) (hints : list hint) (keyIndexes : list (jsstr * Z)).

(** [userHints] are the hints by name. *)
Definition adaptNamedParamsWithHints (params : requestParams) (userHints : list (jsstr * hint)) : adapted :=
  match params with
  | NoParams | ArrayParams _ => Unnamed params
  | ObjectParams fields =>
      Named (map (fun kv => mkNamed (toLowerCase (fst kv)) (snd kv)) fields)
            (map (fun kv => default HNone (lookup_prop (fst kv) userHints)) fields)
            (fold_left (fun m ikv => set_prop (fst (snd ikv)) (fst ikv) m)
               (imap (fun i kv => (Z.of_nat i, kv)) fields) [])
  end.

End parameters.

(** ** Binary search *)

Section search.
Context {A K : Type}.
Variable arr : list A.
Variable key : K.
Variable cmp : A -> K -> Z.

(** The elements before the key, those equal to it and those after it, in this order. *)
Definition ordered_for : Prop := forall i j x y, (i <= j)%nat -> arr !! i = Some x -> arr !! j = Some y ->
  (cmp y key < 0 -> cmp x key < 0) /\ (0 < cmp x key -> 0 < cmp y key).

(** The position of an element equal to the key, or the complement of the number of
    elements before it, which are all less, the others being greater. *)
Definition found (r : Z) : Prop :=
  if 0 <=? r then exists x, arr !! Z.to_nat r = Some x /\ cmp x key = 0
  else let p := Z.to_nat (- r - 1) in
       (p <= length arr)%nat /\ forall i x, arr !! i = Some x ->
         if (i <? p)%nat then cmp x key < 0 else 0 < cmp x key.

Lemma search_loop fuel low high :
  ordered_for -> Z.of_nat (length arr) < 2 ^ 31 ->
  0 <= low -> high < Z.of_nat (length arr) -> low <= high + 1 -> high - low + 1 < Z.of_nat fuel ->
  (forall i x, arr !! i = Some x -> Z.of_nat i < low -> cmp x key < 0) ->
  (forall i x, arr !! i = Some x -> high < Z.of_nat i -> 0 < cmp x key) ->
  exists r, binarySearch_loop fuel arr key cmp low high = Some r /\ found r.
Proof.
  intros Hord Hn. revert low high. induction fuel as [|fuel IH]; intros low high Hl Hh Hlh Hf Hlow Hhigh; [lia|].
  cbn [binarySearch_loop]. destruct (Z.leb_spec low high) as [Hle|Hgt].
  - rewrite js_ushr_div by lia. rewrite Z.mod_small by lia. change (2 ^ 1) with 2.
    set (mid := (low + high) / 2). assert (Hm : low <= mid <= high) by lia.
    destruct (lookup_lt_is_Some_2 arr (Z.to_nat mid)) as [x Hx]; [lia|]. rewrite Hx. cbn [mbind option_bind].
    destruct (Z.ltb_spec (cmp x key) 0) as [Hc|Hc]; [|destruct (Z.ltb_spec 0 (cmp x key)) as [Hc'|Hc']].
    + apply IH; try lia; [|done]. intros i y Hy Hi.
      destruct (Hord i (Z.to_nat mid) y x) as [Hless _]; [lia|done|done|]. by apply Hless.
    + apply IH; try lia; [done|]. intros i y Hy Hi.
      destruct (Hord (Z.to_nat mid) i x y) as [_ Hmore]; [lia|done|done|]. by apply Hmore.
    + exists mid. split; [done|]. unfold found. rewrite (proj2 (Z.leb_le 0 mid)) by lia. exists x. split; [done|lia].
  - exists (js_not low). split; [done|]. rewrite js_not_eq by (unfold int32; lia).
    unfold found. rewrite (proj2 (Z.leb_gt 0 _)) by lia. split; [lia|].
    intros i y Hy. destruct (Nat.ltb_spec i (Z.to_nat (- (- low - 1) - 1))); [apply (Hlow i)|apply (Hhigh i)]; done || lia.
Qed.

Lemma binarySearch_found :
  ordered_for -> Z.of_nat (length arr) < 2 ^ 31 -> exists r, binarySearch arr key cmp = Some r /\ found r.
Proof.
  intros Hord Hn. apply search_loop; try done; try lia.
  intros i x Hx%lookup_lt_Some Hi. lia.
Qed.

End search.

Section insertion.
Context {V : Type} `{TokenOrder V}.

Definition sorted (l : list V) : Prop := StronglySorted le l.

Lemma sorted_lookup l i j x y :
  sorted l -> (i <= j)%nat -> l !! i = Some x -> l !! j = Some y -> le x y.
Proof.
  intros Hs. revert i j. induction Hs as [|z l Hs IH Hf]; intros i j Hij Hx Hy; [done|].
  destruct i as [|i], j as [|j]; cbn in Hx, Hy; try lia.
  - simplify_eq. reflexivity.
  - simplify_eq. apply (Forall_lookup_1 _ _ _ _ Hf Hy).
  - apply (IH i j); [lia|done|done].
Qed.

Lemma sorted_ordered l (key : V) : sorted l -> ordered_for l key compare.
Proof.
  intros Hs i j x y Hij Hx Hy. pose proof (sorted_lookup l i j x y Hs Hij Hx Hy) as Hle. split.
  - intros Hlt. apply (le_lt_trans x y key Hle Hlt).
  - intros Hgt. assert (Hk : lt key x) by (unfold lt; pose proof (compare_opp x key); lia).
    pose proof (lt_le_trans key x y Hk Hle) as Hy'. unfold lt in Hy'. pose proof (compare_opp y key). lia.
Qed.

Lemma sorted_splice l p (item : V) :
  sorted l -> Forall (fun x => le x item) (take p l) -> Forall (fun x => le item x) (drop p l) ->
  sorted (splice_in l p item).
Proof.
  unfold splice_in, sorted. revert p. induction l as [|x l IH]; intros p Hs Ht Hd.
  { destruct p; repeat constructor. }
  inversion Hs as [|? ? Hs' Hf]; subst. destruct p as [|p]; cbn [take drop app] in *.
  - constructor; [done|]. done.
  - apply Forall_cons_1 in Ht as [Hx Ht]. constructor; [by apply IH|].
    apply Forall_app. split; [by apply Forall_take|]. constructor; [done|]. by apply Forall_drop.
Qed.

Lemma take_bound {B} (P : B -> Prop) l p : (forall i x, l !! i = Some x -> (i < p)%nat -> P x) -> Forall P (take p l).
Proof.
  intros Hp. apply Forall_lookup_2. intros i x [Hx Hi]%lookup_take_Some. by apply (Hp i).
Qed.

Lemma drop_bound {B} (P : B -> Prop) l p : (forall i x, l !! i = Some x -> (p <= i)%nat -> P x) -> Forall P (drop p l).
Proof.
  intros Hp. apply Forall_lookup_2. intros i x Hx. rewrite lookup_drop in Hx. apply (Hp (p + i)%nat); [done|lia].
Qed.

End insertion.

(** Binary search on an array ordered for the key (of fewer than 2^31 elements)
    ends and returns the position of an equal element or, when there is none, the
    complement of the position where the key belongs: every element before it is less
    and every element from it on is greater. *)
Theorem binarySearch_correct {A K} (arr : list A) (key : K) (cmp : A -> K -> Z) :
  ordered_for arr key cmp -> Z.of_nat (length arr) < 2 ^ 31 ->
  exists r, binarySearch arr key cmp = Some r /\ found arr key cmp r.
Proof. apply binarySearch_found. Qed.

Lemma binarySearch_correct_witness :
  exists r, binarySearch [1; 3; 5; 9] 6 (fun a b => a - b) = Some r /\ r = -4.
Proof.
  destruct (binarySearch_correct [1; 3; 5; 9] 6 (fun a b => a - b)) as (r & Hr & _).
  - intros i j x y Hij Hx Hy.
    do 4 (destruct i as [|i]; [do 4 (destruct j as [|j]; [cbn in Hx, Hy; simplify_eq; lia|]); done|]). done.
  - cbn. lia.
  - exists r. split; [exact Hr|]. vm_compute in Hr. by injection Hr as <-.
Defined.

(** Sorted insertion keeps an array sorted and adds exactly the item, for any
    comparison that is a total preorder. *)
Theorem insertSorted_correct {V} `{TokenOrder V} (arr : list V) (item : V) :
  sorted arr -> Z.of_nat (length arr) < 2 ^ 31 ->
  exists l, insertSorted arr item compare = Some l /\ sorted l /\ l ≡ₚ item :: arr.
Proof.
  intros Hs Hn. unfold insertSorted.
  assert (Hgen : exists l, (position ← binarySearch arr item compare;
      let position := if position <? 0 then js_not position else position in
      Some (splice_in arr (Z.to_nat position) item)) = Some l /\ sorted l /\ l ≡ₚ item :: arr).
  { destruct (binarySearch_found arr item compare (sorted_ordered arr item Hs) Hn) as (r & -> & Hf).
    cbn [mbind option_bind]. eexists. split; [done|]. split.
    - unfold found in Hf. destruct (Z.leb_spec 0 r) as [Hr|Hr].
      + rewrite (proj2 (Z.ltb_ge r 0)) by lia. destruct Hf as (x & Hx & Hc).
        apply same_le in Hc as [Hxi Hix]. apply sorted_splice; [done| |].
        * apply take_bound. intros i y Hy Hi. transitivity x; [|done]. by apply (sorted_lookup arr i (Z.to_nat r) y x Hs); [lia| |].
        * apply drop_bound. intros i y Hy Hi. transitivity x; [done|]. by apply (sorted_lookup arr (Z.to_nat r) i x y Hs).
      + rewrite (proj2 (Z.ltb_lt r 0)) by lia. destruct Hf as [Hp Hf].
        rewrite js_not_eq by (unfold int32; lia). apply sorted_splice; [done| |].
        * apply take_bound. intros i y Hy Hi. specialize (Hf i y Hy). rewrite (proj2 (Nat.ltb_lt _ _)) in Hf by lia.
          by apply lt_le.
        * apply drop_bound. intros i y Hy Hi. specialize (Hf i y Hy). rewrite (proj2 (Nat.ltb_ge _ _)) in Hf by lia.
          unfold le. pose proof (compare_opp y item). lia.
    - unfold splice_in. rewrite <- Permutation_middle, take_drop. done. }
  destruct arr as [|x arr]; [|exact Hgen].
  exists [item]. split; [done|]. split; [repeat constructor|done].
Qed.

Lemma insertSorted_correct_witness : exists l, insertSorted [[1]; [3]] [2] compare = Some l /\ l = [[1]; [2]; [3]].
Proof.
  destruct (insertSorted_correct (V := bytes) [[1]; [3]] [2]) as (l & Hl & _).
  - unfold sorted. repeat constructor; unfold le; cbn; lia.
  - cbn. lia.
  - exists l. split; [exact Hl|]. vm_compute in Hl. by injection Hl as <-.
Defined.

(** ** The set of keys *)

Section hashset.

(** A call of the set and what a mathematical set answers; removing an element that is
    present answers undefined. *)
Inductive set_call : Type :=
| Add (key : jsstr)
| Remove (key : jsstr)
| Contains (key : jsstr).

Definition call_key (c : set_call) : jsstr := match c with Add k | Remove k | Contains k => k end.

Definition set_step (s : HashSet.t) (c : set_call) : option bool * HashSet.t :=
  match c with
  | Add k => let '(r, s) := HashSet.add s k in (Some r, s)
  | Remove k => HashSet.remove s k
  | Contains k => (Some (HashSet.contains s k), s)
  end.

Definition abs_step (m : gset jsstr) (c : set_call) : option bool * gset jsstr :=
  match c with
  | Add k => (Some (negb (bool_decide (k ∈ m))), {[k]} ∪ m)
  | Remove k => (if bool_decide (k ∈ m) then None else Some false, m ∖ {[k]})
  | Contains k => (Some (bool_decide (k ∈ m)), m)
  end.

(** The answers of a sequence of calls and the final state. *)
Fixpoint run_calls {S} (step : S -> set_call -> option bool * S) (s : S) (calls : list set_call)
    : list (option bool) * S :=
  match calls with
  | [] => ([], s)
  | c :: calls => let '(r, s) := step s c in let '(rs, s) := run_calls step s calls in (r :: rs, s)
  end.

(** The properties are the elements, once each, all true, and counted. *)
Record set_rel (s : HashSet.t) (m : gset jsstr) : Prop := {
  sr_keys : list_to_set (HashSet.toArray s) = m;
  sr_nodup : NoDup (HashSet.toArray s);
  sr_true : Forall (fun e => snd e = JBool true) (HashSet.items s);
  sr_length : HashSet.length_ s = Z.of_nat (size m) }.

Lemma lookup_prop_keys {A} k (l : list (jsstr * A)) : is_Some (lookup_prop k l) <-> k ∈ fst <$> l.
Proof.
  induction l as [|e l IH]; [split; [by intros []|set_solver]|].
  rewrite lookup_prop_cons, fmap_cons, elem_of_cons. case_bool_decide as He.
  - split; [by left|done].
  - rewrite IH. split; [by right|]. intros [->|?]; done.
Qed.

Lemma insert_prop_perm {A} k (v : A) l : insert_prop k v l ≡ₚ (k, v) :: l.
Proof.
  induction l as [|e l IH]; cbn [insert_prop]; [done|]. repeat case_match; try done; rewrite IH; by constructor.
Qed.

Lemma contains_rel s m k : set_rel s m -> HashSet.contains s k = bool_decide (k ∈ m).
Proof.
  intros [<- Hnd Ht Hl]. unfold HashSet.contains. rewrite Hl.
  destruct (lookup_prop k (HashSet.items s)) as [v|] eqn:Hk.
  - assert (Hin : k ∈ HashSet.toArray s) by (apply lookup_prop_keys; eauto).
    assert (v = JBool true) as ->.
    { unfold lookup_prop in Hk. apply fmap_Some in Hk as (e & He & ->). apply List.find_some in He as [He _].
      rewrite List.Forall_forall in Ht. by apply Ht. }
    rewrite bool_decide_true by set_solver. rewrite andb_true_r. apply Z.ltb_lt.
    assert (size (list_to_set (HashSet.toArray s) : gset jsstr) <> 0%nat); [|lia].
    rewrite size_non_empty_iff. set_solver.
  - rewrite andb_false_r. symmetry. apply bool_decide_false. rewrite elem_of_list_to_set.
    intros Hin. apply lookup_prop_keys in Hin as [? ?]. congruence.
Qed.

Lemma add_rel s m k : k <> proto -> set_rel s m ->
  set_rel (snd (set_step s (Add k))) (snd (abs_step m (Add k))).
Proof.
  intros Hp Hr. cbn. unfold HashSet.add. rewrite (contains_rel s m k Hr). case_bool_decide as Hk; cbn [snd].
  { by replace ({[k]} ∪ m) with m by set_solver. }
  destruct Hr as [<- Hnd Ht Hl]. rewrite elem_of_list_to_set in Hk.
  assert (Hn : lookup_prop k (HashSet.items s) = None).
  { destruct (lookup_prop k _) eqn:E; [|done]. destruct Hk. apply lookup_prop_keys; eauto. }
  assert (Hperm : set_prop k (JBool true) (HashSet.items s) ≡ₚ (k, JBool true) :: HashSet.items s).
  { unfold set_prop. rewrite bool_decide_false by done. rewrite Hn. apply insert_prop_perm. }
  assert (Hkeys : fst <$> set_prop k (JBool true) (HashSet.items s) ≡ₚ k :: HashSet.toArray s)
    by (rewrite Hperm; done).
  constructor; unfold HashSet.toArray in *; cbn [HashSet.items HashSet.length_].
  - apply set_eq. intros x. rewrite elem_of_list_to_set, Hkeys. set_solver.
  - rewrite Hkeys. by constructor.
  - rewrite Hperm. by constructor.
  - rewrite size_union by set_solver. rewrite size_singleton. lia.
Qed.

Lemma delete_prop_keys k l : fst <$> HashSet.delete_prop k l = List.filter (fun x => negb (bool_decide (x = k))) (fst <$> l).
Proof.
  unfold HashSet.delete_prop. induction l as [|e l IH]; [done|]. cbn.
  change (list_fmap _ _ fst ?l) with (fst <$> l).
  case_bool_decide; cbn; change (list_fmap _ _ fst ?l) with (fst <$> l); [done|]. by rewrite <- IH.
Qed.

Lemma remove_rel s m k : set_rel s m -> set_rel (snd (set_step s (Remove k))) (snd (abs_step m (Remove k))).
Proof.
  intros Hr. cbn. unfold HashSet.remove. rewrite (contains_rel s m k Hr). case_bool_decide as Hk; cbn [snd negb].
  2: { by replace (m ∖ {[k]}) with m by set_solver. }
  destruct Hr as [<- Hnd Ht Hl].
  constructor; unfold HashSet.toArray in *; cbn [HashSet.items HashSet.length_]; rewrite ?delete_prop_keys.
  - apply set_eq. intros x. rewrite elem_of_list_to_set, list_elem_of_In, List.filter_In, <- list_elem_of_In.
    case_bool_decide; cbn; set_solver.
  - by apply NoDup_ListNoDup, List.NoDup_filter, NoDup_ListNoDup.
  - rewrite List.Forall_forall in *. intros e [He _]%List.filter_In. by apply Ht.
  - rewrite size_difference by set_solver. rewrite size_singleton.
    assert (size (list_to_set (fst <$> HashSet.items s) : gset jsstr) <> 0%nat); [|lia].
    rewrite size_non_empty_iff. set_solver.
Qed.

Lemma step_rel s m c : call_key c <> proto -> set_rel s m ->
  fst (set_step s c) = fst (abs_step m c) /\ set_rel (snd (set_step s c)) (snd (abs_step m c)).
Proof.
  intros Hp Hr. pose proof (contains_rel s m (call_key c) Hr) as Hc. destruct c as [k|k|k]; cbn [call_key] in *.
  - split; [|by apply add_rel]. cbn. unfold HashSet.add. rewrite Hc. by case_bool_decide.
  - split; [|by apply remove_rel]. cbn. unfold HashSet.remove. rewrite Hc. by case_bool_decide.
  - cbn. by rewrite Hc.
Qed.

Lemma run_calls_rel calls s m : Forall (fun c => call_key c <> proto) calls -> set_rel s m ->
  fst (run_calls set_step s calls) = fst (run_calls abs_step m calls) /\
  set_rel (snd (run_calls set_step s calls)) (snd (run_calls abs_step m calls)).
Proof.
  intros Hf. revert s m. induction Hf as [|c calls Hc Hf IH]; intros s m Hr; [done|]. cbn [run_calls].
  destruct (step_rel s m c Hc Hr) as [Ha Hr'].
  destruct (set_step s c) as [r s'], (abs_step m c) as [r' m']. cbn [fst snd] in *.
  destruct (IH s' m' Hr') as [Hb Hr''].
  destruct (run_calls set_step s' calls), (run_calls abs_step m' calls). cbn [fst snd] in *. by subst.
Qed.

End hashset.

(** HashSet implements a mathematical set: every sequence of additions, removals and
    membership tests gives the answers of the set (removing a present key answers
    undefined, not the documented true), [toArray] lists the elements once each and
    [length] counts them.  The key __proto__ is excluded: an object cannot hold it. *)
Theorem hashset_is_a_set calls :
  Forall (fun c => call_key c <> proto) calls ->
  let '(rs, s) := run_calls set_step HashSet.constructor calls in
  let '(rs', m) := run_calls abs_step ∅ calls in
  rs = rs' /\ NoDup (HashSet.toArray s) /\ (forall k, k ∈ HashSet.toArray s <-> k ∈ m) /\
  HashSet.length_ s = Z.of_nat (size m).
Proof.
  intros Hf. destruct (run_calls_rel calls HashSet.constructor ∅ Hf) as [Hrs [Hk Hnd _ Hl]]; [by repeat constructor|].
  destruct (run_calls set_step _ calls) as [rs s], (run_calls abs_step ∅ calls) as [rs' m]. cbn [fst snd] in *.
  split_and!; [done|done| |done]. intros k. rewrite <- Hk. by rewrite elem_of_list_to_set.
Qed.

Lemma hashset_is_a_set_witness :
  fst (run_calls set_step HashSet.constructor [Add (js "a"); Add (js "b"); Add (js "a"); Remove (js "a"); Contains (js "a")])
  = [Some true; Some true; Some false; None; Some false] /\
  fst (run_calls abs_step ∅ [Add (js "a"); Add (js "b"); Add (js "a"); Remove (js "a"); Contains (js "a")])
  = [Some true; Some true; Some false; None; Some false].
Proof.
  pose proof (hashset_is_a_set [Add (js "a"); Add (js "b"); Add (js "a"); Remove (js "a"); Contains (js "a")]) as Ht.
  destruct (run_calls set_step _ _) as [rs s] eqn:E1. destruct (run_calls abs_step ∅ _) as [rs' m] eqn:E2.
  destruct Ht as [<- _]; [repeat (constructor; [discriminate|]); constructor|].
  cbn [fst]. assert (rs = fst (rs, s)) as -> by done. rewrite <- E1. split; vm_compute; reflexivity.
Defined.

(** The key __proto__ is added again and again: the length grows without an element. *)
Lemma hashset_proto :
  run_calls set_step HashSet.constructor [Add proto; Add proto; Contains proto]
  = ([Some true; Some true; Some false], HashSet.mk 2 []).
Proof. reflexivity. Qed.

(** ** Named parameters *)

Section named_parameters.
Context `{Unicode}.

Lemma lookup_prop_In {A} k (v : A) l : lookup_prop k l = Some v -> (k, v) ∈ l.
Proof.
  unfold lookup_prop. intros ([k' v'] & He & ->)%fmap_Some. apply List.find_some in He as [He Hk].
  apply bool_decide_eq_true_1 in Hk. cbn in *. subst. by apply list_elem_of_In.
Qed.

(** The parameters with their names in lower case. *)
Definition lowered (params : list (jsstr * jsval)) : list (jsstr * jsval) :=
  (fun kv => (toLowerCase (fst kv), snd kv)) <$> params.

Lemma lookup_toLowerCaseProperties params k : proto ∉ fst <$> lowered params ->
  lookup_prop k (toLowerCaseProperties params) = lookup_prop k (rev (lowered params)).
Proof.
  intros Hp. pose proof (lookup_set_props k (lowered params) [] Hp) as E.
  assert (Ef : forall acc, fold_left (fun m kv => set_prop (fst kv) (snd kv) m) (lowered params) acc
    = fold_left (fun r kv => set_prop (toLowerCase (fst kv)) (snd kv) r) params acc).
  { clear Hp E. induction params as [|kv params IH]; intros acc; [done|]. cbn. apply IH. }
  rewrite Ef in E. unfold toLowerCaseProperties. rewrite E. by destruct (lookup_prop k (rev _)).
Qed.

Lemma elem_lowered k v params : (k, v) ∈ lowered params <-> exists key, toLowerCase key = k /\ (key, v) ∈ params.
Proof.
  unfold lowered. rewrite list_elem_of_fmap. split.
  - intros ([key v'] & E & Hin). cbn in E. injection E as -> ->. by exists key.
  - intros (key & <- & Hin). by exists (key, v).
Qed.

Lemma lookup_lowered_Some params k v : proto ∉ fst <$> lowered params ->
  lookup_prop k (toLowerCaseProperties params) = Some v ->
  exists key, toLowerCase key = k /\ (key, v) ∈ params.
Proof.
  intros Hp Hl. rewrite lookup_toLowerCaseProperties in Hl by done. apply lookup_prop_In in Hl.
  rewrite list_elem_of_In, <- List.in_rev, <- list_elem_of_In in Hl. by apply elem_lowered.
Qed.

Lemma lookup_lowered_None params k key v : proto ∉ fst <$> lowered params ->
  lookup_prop k (toLowerCaseProperties params) = None -> (key, v) ∈ params -> toLowerCase key <> k.
Proof.
  intros Hp Hl Hin Hk. rewrite lookup_toLowerCaseProperties in Hl by done.
  assert (Hs : is_Some (lookup_prop k (rev (lowered params)))); [|rewrite Hl in Hs; by destruct Hs].
  apply lookup_prop_keys. apply list_elem_of_fmap. exists (k, v). split; [done|].
  rewrite list_elem_of_In, <- List.in_rev, <- list_elem_of_In. apply elem_lowered. by exists key.
Qed.

(** C38. Named parameters of a prepared statement: either every bound parameter gets the
    value of a property whose name in lower case is the parameter's name, in the order of
    the statement, or the call fails with an ArgumentError that names the first bound
    parameter for which there is no such property; when the names differ in lower case
    the value is that of the only such property, whatever the order of the object.  The
    names of the bound parameters are taken as they are: the client gives them in lower
    case, and a name with capitals that is not lowered is refused even when the object has
    a property of exactly that name.  No name is __proto__. *)
Theorem named_params_bound params names :
  proto ∉ fst <$> lowered params ->
  match adaptNamedParamsPrepared params names with
  | Ok vs =>
      Forall2 (fun name v => exists key, toLowerCase key = name /\ (key, v) ∈ params) names vs /\
      (NoDup (fst <$> lowered params) -> forall params', params' ≡ₚ params ->
        adaptNamedParamsPrepared params' names = Ok vs)
  | Err err =>
      exists before name after, names = before ++ name :: after /\
        err = ArgumentErrorAt "Parameter not defined" name /\
        (forall key v, (key, v) ∈ params -> toLowerCase key <> name) /\
        Forall (fun name => exists key v, toLowerCase key = name /\ (key, v) ∈ params) before
  end.
Proof.
  intros Hp. unfold adaptNamedParamsPrepared.
  induction names as [|name names IH]; [by repeat constructor|]. cbn [named_loop].
  destruct (lookup_prop name (toLowerCaseProperties params)) as [v|] eqn:Hn.
  2: { exists [], name, names. split_and!; [done|done| |done]. intros key v. by apply lookup_lowered_None. }
  destruct (named_loop (toLowerCaseProperties params) names) as [vs|err] eqn:Hvs; cbn.
  2: { destruct IH as (before & nm & after & -> & -> & Hno & Hb). exists (name :: before), nm, after. split_and!; [done|done|done|].
       constructor; [|done]. destruct (lookup_lowered_Some params name v Hp Hn) as (key & ? & ?). by exists key, v. }
  destruct IH as [HF Hperm]. split; [constructor; [by apply lookup_lowered_Some|done]|].
  intros Hnd params' Hpp.
  assert (Hl : lowered params' ≡ₚ lowered params) by (unfold lowered; by rewrite Hpp).
  assert (E : lookup_prop name (toLowerCaseProperties params') = Some v).
  { rewrite lookup_toLowerCaseProperties in * by (rewrite ?Hl; done).
    apply lookup_prop_elem.
    - rewrite <- Hl in Hnd. by rewrite <- (Permutation_rev (lowered params')).
    - apply lookup_prop_In in Hn. by rewrite <- Permutation_rev, Hl, (Permutation_rev (lowered params)). }
  rewrite E, (Hperm Hnd params' Hpp). done.
Qed.

End named_parameters.

Lemma named_params_bound_witness :
  adaptNamedParamsPrepared [(js "Name", JString (js "x")); (js "id", JBool true)] [js "id"; js "name"]
  = Ok [JBool true; JString (js "x")] /\
  adaptNamedParamsPrepared [(js "id", JBool true); (js "Name", JString (js "x"))] [js "id"; js "name"]
  = Ok [JBool true; JString (js "x")].
Proof.
  pose proof (named_params_bound [(js "Name", JString (js "x")); (js "id", JBool true)] [js "id"; js "name"]) as Ht.
  assert (E : adaptNamedParamsPrepared [(js "Name", JString (js "x")); (js "id", JBool true)] [js "id"; js "name"]
    = Ok [JBool true; JString (js "x")]) by (vm_compute; reflexivity).
  rewrite E in Ht. split; [exact E|]. destruct Ht as [_ Hperm].
  - by apply (bool_decide_eq_true_1 (proto ∉ [js "name"; js "id"])).
  - apply Hperm; [|constructor]. by apply (bool_decide_eq_true_1 (NoDup [js "name"; js "id"])).
Defined.

(** The first missing parameter is the one named; a bound name with capitals is not found
    under its own name. *)
Example named_params_missing :
  adaptNamedParamsPrepared [(js "id", JBool true)] [js "id"; js "b"; js "a"] = Err (ArgumentErrorAt "Parameter not defined" (js "b")) /\
  adaptNamedParamsPrepared [(js "Id", JBool true)] [js "Id"] = Err (ArgumentErrorAt "Parameter not defined" (js "Id")) /\
  adaptNamedParamsPrepared [(js "Id", JBool true)] [toLowerCase (js "Id")] = Ok [JBool true].
Proof. vm_compute. by split_and!. Qed.

(** ** Merging objects *)

(** A property of the merged object: the last source that defines it counts, and
    properties that are undefined do not overwrite. *)
Lemma lookup_extend_source k target source : proto ∉ fst <$> source ->
  lookup_prop k (extend_source target source)
  = match lookup_prop k (rev (List.filter (fun kv => match snd kv with JUndefined => false | _ => true end) source)) with
    | Some v => Some v
    | None => lookup_prop k target
    end.
Proof.
  intros Hp. set (defined := List.filter _ source).
  assert (E : extend_source target source = fold_left (fun m kv => set_prop (fst kv) (snd kv) m) defined target).
  { clear Hp. subst defined. unfold extend_source. revert target.
    induction source as [|[k' v] source IH]; intros target; [done|]. cbn. destruct v; apply IH. }
  rewrite E. apply lookup_set_props. intros (kv & Hk & Hin)%list_elem_of_fmap. apply Hp.
  apply list_elem_of_fmap. exists kv. split; [done|].
  apply list_elem_of_In, List.filter_In in Hin as [Hin _]. by apply list_elem_of_In.
Qed.
