(* ===== verification/AsyncFlow.v ===== *)
(** * Asynchronous flow

    The callback helpers of lib/utils.js: [each], [forEachOf], [map], [parallel] and
    [times] call a function for all items at once ([FanOut]), [timesLimit] keeps a
    number of calls in flight ([TimesLimit]), and [eachSeries], [mapSeries], [series],
    [timesSeries] and [whilst] make one call after the other ([Series]); and the
    round-robin [AddressResolver].

    A helper is a transition system: the environment chooses when a call completes, at
    once or later, and how.  Every call completes at most once.  The state holds the
    variables of the helper's closure, the calls in flight, the invocations of the final
    callback and, for the statements only, a log of the completed calls.

    The theorems: under every schedule the final callback is invoked at most once, with
    the first error or, when all calls have succeeded, with the results; when nothing is
    left to happen it has been invoked; the limit holds; series run in order. *)

From stdpp Require Import relations.
From S2P Require Import Prelude JsString.

(** ** Shared definitions *)

(** The invocation of the final callback: with an error, or with the results if any. *)
Inductive answer (E R : Type) : Type :=
| Failed (e : E)
| Completed (r : R).
Arguments Failed {E R}.
Arguments Completed {E R}.

(** [const cb = callback; callback = noop; cb(...)]: only a live callback is invoked. *)
Definition invoke {E R} (live : bool) (a : answer E R) (answers : list (answer E R)) : list (answer E R) :=
  if live then answers ++ [a] else answers.

(** The completed calls: the index, the error if any and the value. *)
Definition first_error {E V} (log : list (nat * (option E * V))) : option E :=
  head (omap (fun x => fst (snd x)) log).

(** The number of calls that succeeded. *)
Definition successes {E V} (log : list (nat * (option E * V))) : nat :=
  length (List.filter (fun x => match fst (snd x) with None => true | Some _ => false end) log).

(** What the callback must have been invoked with after the completions of a log, for [n]
    calls. *)
Definition outcome {E V R} (n : Z) (log : list (nat * (option E * V))) (r : R) : list (answer E R) :=
  match first_error log with
  | Some e => [Failed e]
  | None => if Z.of_nat (length log) =? n then [Completed r] else []
  end.

Lemma first_error_snoc {E V} (log : list (nat * (option E * V))) i e v :
  first_error (log ++ [(i, (e, v))]) = match first_error log with Some e => Some e | None => e end.
Proof.
  unfold first_error. induction log as [|[j [[e'|] v']] log IH]; cbn in *; [by destruct e| done | done].
Qed.

Lemma successes_snoc {E V} (log : list (nat * (option E * V))) i e v :
  successes (log ++ [(i, (e, v))]) = (successes log + match e with None => 1 | Some _ => 0 end)%nat.
Proof. unfold successes. rewrite List.filter_app, length_app. destruct e; cbn; lia. Qed.

Lemma outcome_snoc {E V R} n (log : list (nat * (option E * V))) i e v (r : R) :
  outcome n (log ++ [(i, (e, v))]) r
  = match first_error log, e with
    | Some e, _ | None, Some e => [Failed e]
    | None, None => if Z.of_nat (length log) + 1 =? n then [Completed r] else []
    end.
Proof.
  unfold outcome. rewrite first_error_snoc, length_app. cbn [length].
  replace (Z.of_nat (length log + 1)) with (Z.of_nat (length log) + 1) by lia.
  by destruct (first_error log), e.
Qed.

Lemma successes_all {E V} (log : list (nat * (option E * V))) :
  (successes log <= length log)%nat /\ (first_error log = None <-> successes log = length log).
Proof.
  unfold successes, first_error. induction log as [|[j [[e|] v]] log [Hle IH]]; cbn; [split; [lia|done]|split; [lia|]..].
  - split; [done|lia].
  - rewrite IH. lia.
Qed.

Lemma remove_perm i (l : list nat) : NoDup l -> i ∈ l -> l ≡ₚ i :: List.remove Nat.eq_dec i l.
Proof.
  induction l as [|x l IH]; intros Hnd Hin; [by apply not_elem_of_nil in Hin|].
  inversion Hnd as [|? ? Hni Hnd']; subst. cbn. destruct (Nat.eq_dec i x) as [->|Hne].
  - rewrite List.notin_remove; [done|]. by rewrite <- list_elem_of_In.
  - apply elem_of_cons in Hin as [?|Hin]; [done|]. rewrite (IH Hnd' Hin) at 1. apply Permutation_swap.
Qed.

(** ** All calls at once *)

Module FanOut.

Inductive kind : Type := Each | Map | Parallel | Times.

Section machine.
Context {E V : Type}.

(** The values of [Map] are the transformed items; none in the array is a hole. *)
Definition results : Type := option (list (option V)).

Record state : Type := mk {
  begun : nat;
  outstanding : list nat;
  completed : Z;
  result : list (option V);
  live : bool;
  answers : list (answer E results);
  log : list (nat * (option E * V)) }.

(** [length] is the length of the array, or the count of [times]. *)
Variable k : kind.
Variable length_ : Z.

(** What the final callback gets on success. *)
Definition payload (result : list (option V)) : results :=
  match k with Map => Some result | _ => None end.

(** Before the loop: without items, the callback is invoked at once; [parallel] has no
    such test. *)
Definition initial : state :=
  mk 0 [] 0 (replicate (Z.to_nat length_) None) true
     (match k with
      | Parallel => []
      | _ => if length_ =? 0 then [Completed (payload [])] else []
      end) [].

(** The body of the loop calls the function. *)
Definition begin (s : state) : option state :=
  if Z.of_nat (begun s) <? length_
  then Some (mk (S (begun s)) (outstanding s ++ [begun s]) (completed s) (result s) (live s) (answers s) (log s))
  else None.

Definition next (err : option E) (s : state) : state :=
  match err with
  | Some e =>
      mk (begun s) (outstanding s) (completed s) (result s) false (invoke (live s) (Failed e) (answers s)) (log s)
  | None =>
      let completed := completed s + 1 in
      if negb (completed =? length_)
      then mk (begun s) (outstanding s) completed (result s) (live s) (answers s) (log s)
      else mk (begun s) (outstanding s) completed (result s) (live s)
              (invoke (live s) (Completed (payload (result s))) (answers s)) (log s)
  end.

(** The callback of item [i]; only [Map] stores the value. *)
Definition itemCallback (i : nat) (err : option E) (transformed : V) (s : state) : state :=
  next err (mk (begun s) (List.remove Nat.eq_dec i (outstanding s)) (completed s)
               (match k with Map => <[i := Some transformed]> (result s) | _ => result s end)
               (live s) (answers s) (log s ++ [(i, (err, transformed))])).

Inductive step : state -> state -> Prop :=
| step_begin s s' : begin s = Some s' -> step s s'
| step_callback s i err v : i ∈ outstanding s -> step s (itemCallback i err v s).

Definition reachable (s : state) : Prop := rtc step initial s.

(** Nothing can happen any more: every item was given to the function and every call
    has completed. *)
Definition quiescent (s : state) : Prop := length_ <= Z.of_nat (begun s) /\ outstanding s = [].

(** The array of the values in the log. *)
Definition values_of (log : list (nat * (option E * V))) : list (option V) :=
  fold_left (fun r x => <[fst x := Some (snd (snd x))]> r) log (replicate (Z.to_nat length_) None).

Definition expected (log : list (nat * (option E * V))) : list (answer E results) :=
  outcome length_ log (payload (values_of log)).

Record inv (s : state) : Prop := {
  inv_items : seq 0 (begun s) ≡ₚ outstanding s ++ (fst <$> log s);
  inv_begun : Z.of_nat (begun s) <= Z.max 0 length_;
  inv_completed : completed s = Z.of_nat (successes (log s));
  inv_result : match k with Map => result s = values_of (log s) | _ => True end;
  inv_live : live s = match first_error (log s) with None => true | Some _ => false end;
  inv_answers : 0 < length_ -> answers s = expected (log s);
  inv_none : length_ <= 0 -> answers s = answers initial }.

Lemma fan_initial_inv : inv initial.
Proof.
  split; cbn [initial begun outstanding completed result live answers log]; [done|lia|done| |done| |done].
  { unfold values_of. by destruct k. }
  intros Hn. unfold expected, outcome. cbn.
  rewrite (proj2 (Z.eqb_neq (Z.of_nat 0) length_)), (proj2 (Z.eqb_neq length_ 0)) by lia. by destruct k.
Qed.

Lemma fan_begin_inv s s' : inv s -> begin s = Some s' -> inv s'.
Proof.
  intros [Hi Hb Hc Hr Hl Ha Hn]. unfold begin. destruct (Z.ltb_spec (Z.of_nat (begun s)) length_); [|done].
  intros [= <-]. split; cbn; try done; [|lia].
  change (0%nat :: seq 1 (begun s)) with (seq 0 (S (begun s))). rewrite seq_S, Hi. cbn.
  rewrite <- !app_assoc. f_equiv. apply Permutation_app_comm.
Qed.

Lemma fan_inv_nodup s : inv s -> NoDup (outstanding s).
Proof. intros [Hi _ _ _ _ _ _]. pose proof (NoDup_seq 0 (begun s)) as Hnd. rewrite Hi in Hnd. by apply list.NoDup_app in Hnd as [? _]. Qed.

Lemma fan_inv_log_lt s i : inv s -> i ∈ outstanding s -> 0 < length_ /\ (length (log s) < Z.to_nat length_)%nat.
Proof.
  intros Hinv Hin. pose proof (inv_items _ Hinv) as Hi. pose proof (inv_begun _ Hinv) as Hb.
  apply Permutation_length in Hi. rewrite length_seq, length_app, length_fmap in Hi.
  destruct (outstanding s) as [|x l]; [by apply not_elem_of_nil in Hin|]. cbn in Hi. lia.
Qed.

Lemma fan_values_of_snoc log i e v : values_of (log ++ [(i, (e, v))]) = <[i := Some v]> (values_of log).
Proof. unfold values_of. by rewrite fold_left_app. Qed.

Lemma fan_callback_inv s i err v : inv s -> i ∈ outstanding s -> inv (itemCallback i err v s).
Proof.
  intros Hinv Hin. pose proof (fan_inv_nodup s Hinv) as Hnd. destruct (fan_inv_log_lt s i Hinv Hin) as [Hpos Hlt].
  destruct Hinv as [Hi Hb Hc Hr Hl Ha Hn]. specialize (Ha Hpos).
  destruct (successes_all (log s)) as [Hle Hall].
  assert (Hitems : seq 0 (begun s) ≡ₚ List.remove Nat.eq_dec i (outstanding s) ++ (fst <$> (log s ++ [(i, (err, v))]))).
  { rewrite Hi, (remove_perm i (outstanding s)) at 1 by done. rewrite fmap_app. cbn.
    rewrite app_assoc, <- Permutation_cons_append. done. }
  assert (Hres : match k with Map => <[i := Some v]> (result s) = values_of (log s ++ [(i, (err, v))]) | _ => True end).
  { destruct k; try done. by rewrite fan_values_of_snoc, Hr. }
  assert (Hpay : payload (match k with Map => <[i := Some v]> (result s) | _ => result s end)
    = payload (values_of (log s ++ [(i, (err, v))]))) by (unfold payload; destruct k; by rewrite ?Hres).
  unfold itemCallback, next. destruct err as [e|].
  - split; cbn [begun outstanding completed result live answers log]; try done; try lia.
    + rewrite successes_snoc. lia.
    + by destruct k.
    + rewrite first_error_snoc. by destruct (first_error (log s)).
    + intros _. unfold expected in *. rewrite outcome_snoc, Hl, Ha. unfold outcome.
      destruct (first_error (log s)); [done|]. destruct (Z.eqb_spec (Z.of_nat (length (log s))) length_); [lia|done].
  - cbn [completed]. destruct (Z.eqb_spec (completed s + 1) length_) as [He|He]; cbn [negb];
      (split; cbn [begun outstanding completed result live answers log];
       [done|done|rewrite successes_snoc; lia|by destruct k
       |rewrite first_error_snoc, Hl; by destruct (first_error (log s))| |lia]);
      intros _; unfold expected in *; rewrite outcome_snoc, ?Hl, Ha; unfold outcome;
      destruct (first_error (log s)) as [e|] eqn:Hfe; cbn [invoke]; try done;
      destruct (Z.eqb_spec (Z.of_nat (length (log s))) length_); try lia;
      destruct Hall as [Hall _]; specialize (Hall eq_refl).
    + rewrite (proj2 (Z.eqb_eq _ _)) by lia. by rewrite Hpay.
    + by rewrite (proj2 (Z.eqb_neq _ _)) by lia.
Qed.

Lemma fan_reachable_inv s : reachable s -> inv s.
Proof.
  apply (rtc_ind_r inv); [apply fan_initial_inv|]. intros s1 s2 _ Hst Hinv.
  destruct Hst; [by eapply fan_begin_inv|by apply fan_callback_inv].
Qed.

(** Each step uses up an item to give or a call to complete. *)
Definition work (s : state) : nat := 2 * (Z.to_nat length_ - begun s) + length (outstanding s).

Lemma fan_step_work s s' : inv s -> step s s' -> (work s' < work s)%nat.
Proof.
  intros Hinv. destruct 1 as [s s' Hb|s i err v Hin].
  - unfold begin in Hb. destruct (Z.ltb_spec (Z.of_nat (begun s)) length_); [|done]. injection Hb as <-.
    unfold work. cbn [begun outstanding]. rewrite length_app. cbn. lia.
  - pose proof (Permutation_length (remove_perm i _ (fan_inv_nodup s Hinv) Hin)) as Hl. cbn in Hl.
    unfold work, itemCallback, next. destruct err; [|case_match]; cbn [begun outstanding]; lia.
Qed.

Lemma fan_reachable_sn s : inv s -> sn step s.
Proof.
  remember (work s) as w eqn:Hw. revert s Hw. induction (lt_wf w) as [w _ IH]. intros s -> Hinv.
  constructor. intros s' Hst. apply (IH (work s')); [by apply fan_step_work|done|].
  destruct Hst; [by eapply fan_begin_inv|by apply fan_callback_inv].
Qed.

Lemma fan_length_values_of log : length (values_of log) = Z.to_nat length_.
Proof.
  induction log as [|[i [e v]] log IH] using rev_ind; [apply length_replicate|].
  by rewrite fan_values_of_snoc, length_insert.
Qed.

Lemma fan_values_of_elem log i e v : NoDup (fst <$> log) -> (i, (e, v)) ∈ log -> (i < Z.to_nat length_)%nat ->
  values_of log !! i = Some (Some v).
Proof.
  intros Hnd Hin Hi. induction log as [|[j [e' v']] log IH] using rev_ind; [by apply not_elem_of_nil in Hin|].
  rewrite fan_values_of_snoc. rewrite fmap_app in Hnd. apply list.NoDup_app in Hnd as (Hnd & Hdis & _).
  apply elem_of_app in Hin as [Hin|Hin%list_elem_of_singleton].
  - rewrite list_lookup_insert_ne; [by apply IH|]. intros ->. apply (Hdis i); [|by left].
    apply list_elem_of_fmap. by exists (i, (e, v)).
  - injection Hin as -> -> ->. apply list_lookup_insert_eq. by rewrite fan_length_values_of.
Qed.

(** Once all items are in the log, each of them is. *)
Lemma fan_log_complete s : inv s -> Z.of_nat (length (log s)) = length_ ->
  NoDup (fst <$> log s) /\ forall i, (i < Z.to_nat length_)%nat -> exists e v, (i, (e, v)) ∈ log s.
Proof.
  intros [Hi Hb _ _ _ _ _] Hl. pose proof (Permutation_length Hi) as Hlen.
  rewrite length_seq, length_app, length_fmap in Hlen.
  pose proof (NoDup_seq 0 (begun s)) as Hnd. rewrite Hi in Hnd. apply list.NoDup_app in Hnd as (_ & _ & Hnd).
  split; [done|]. intros i Hlt. assert (Ho : outstanding s = []) by (apply length_zero_iff_nil; lia).
  assert (Hin : i ∈ seq 0 (begun s)) by (apply elem_of_seq; lia).
  rewrite Hi, Ho in Hin. apply list_elem_of_fmap in Hin as ([j [e v]] & -> & Hin). by exists e, v.
Qed.

Lemma fan_log_no_error (log : list (nat * (option E * V))) i e v : first_error log = None -> (i, (e, v)) ∈ log -> e = None.
Proof.
  unfold first_error. induction log as [|[j [[e'|] v']] log IH]; cbn; intros Hf Hin; try done; [by apply not_elem_of_nil in Hin|].
  apply elem_of_cons in Hin as [[= <- <- <-]|Hin]; [done|by apply IH].
Qed.

End machine.

End FanOut.

(** C30. The helpers that make all calls at once ([each], [forEachOf], [map], [parallel],
    [times], on at least one item), under every schedule of the completions: only finitely
    many things happen; the final callback is invoked at most once, with an error exactly
    when some call failed, then the first error, and with success only after every item
    has succeeded, where [map] gives the value of each item at its position; when all
    calls have completed it has been invoked. *)
Theorem fan_out_callback {E V} k n (s : FanOut.state (E := E) (V := V)) :
  0 < n -> FanOut.reachable k n s ->
  sn (FanOut.step k n) s /\
  match FanOut.answers s with
  | [] => ~ FanOut.quiescent n s
  | [Failed e] => first_error (FanOut.log s) = Some e
  | [Completed r] =>
      forall i, (i < Z.to_nat n)%nat -> exists v, (i, (None, v)) ∈ FanOut.log s /\
        (k = FanOut.Map -> exists l, r = Some l /\ l !! i = Some (Some v))
  | _ => False
  end.
Proof.
  intros Hn Hr. pose proof (FanOut.fan_reachable_inv k n s Hr) as Hinv. split; [by apply FanOut.fan_reachable_sn|].
  rewrite (FanOut.inv_answers _ _ _ Hinv Hn). unfold FanOut.expected, outcome.
  destruct (first_error (FanOut.log s)) as [e|] eqn:Hf; [done|].
  destruct (Z.eqb_spec (Z.of_nat (length (FanOut.log s))) n) as [Hl|Hl].
  - intros i Hi. destruct (FanOut.fan_log_complete _ _ s Hinv Hl) as [Hnd Hall]. destruct (Hall i Hi) as (e & v & Hin).
    pose proof (FanOut.fan_log_no_error _ _ _ _ Hf Hin) as ->. exists v. split; [done|]. intros ->.
    eexists. split; [done|]. by eapply FanOut.fan_values_of_elem.
  - intros [Hq Ho]. pose proof (Permutation_length (FanOut.inv_items _ _ _ Hinv)) as Hlen.
    pose proof (FanOut.inv_begun _ _ _ Hinv). rewrite Ho, length_seq in Hlen. cbn in Hlen. rewrite length_fmap in Hlen. lia.
Qed.

Definition map_run : FanOut.state (E := unit) (V := Z) :=
  FanOut.mk 2 [] 2 [Some 10; Some 11] true [Completed (Some [Some 10; Some 11])] [(1%nat, (None, 11)); (0%nat, (None, 10))].

Lemma fan_out_callback_witness :
  FanOut.reachable FanOut.Map 2 map_run /\ sn (FanOut.step FanOut.Map 2) map_run.
Proof.
  assert (Hr : FanOut.reachable FanOut.Map 2 map_run).
  { do 2 (eapply rtc_l; [apply FanOut.step_begin; reflexivity|]).
    eapply rtc_l; [apply (FanOut.step_callback _ _ _ 1%nat None 11); cbn; set_solver|].
    eapply rtc_l; [apply (FanOut.step_callback _ _ _ 0%nat None 10); cbn; set_solver|]. reflexivity. }
  split; [exact Hr|]. by apply (fan_out_callback FanOut.Map 2 map_run).
Defined.

(** Without items: [parallel] never invokes its callback, the other helpers do at once;
    a negative count of [times] is never answered either. *)
Lemma fan_out_empty {E V} k n (s : FanOut.state (E := E) (V := V)) :
  n <= 0 -> FanOut.reachable k n s ->
  length (FanOut.answers s)
  = match k with FanOut.Parallel => 0%nat | _ => if n =? 0 then 1%nat else 0%nat end.
Proof.
  intros Hn Hr. rewrite (FanOut.inv_none _ _ _ (FanOut.fan_reachable_inv k n s Hr) Hn).
  cbn. destruct k; try done; by destruct (n =? 0).
Qed.

(** ** A limited number of calls *)

Module TimesLimit.

Section machine.
Context {E : Type}.

(** [loop] is [Some k] when the initial loop has made [k] calls, [i] being [k - 1], and
    none after it, when [i] is -1; [queued] are the calls given to [process.nextTick]. *)
Record state : Type := mk {
  loop : option nat;
  index : Z;
  completed : Z;
  sync : option bool;
  queued : list nat;
  outstanding : list nat;
  live : bool;
  answers : list (answer E unit);
  log : list (nat * (option E * unit)) }.

Variable count : Z.
Variable limit0 : Z.

Definition limit : Z := Z.min limit0 count.

Definition initial : state := mk (Some 0%nat) (limit - 1) 0 None [] [] true [] [].

(** One call of the loop, or its end. *)
Definition iterate (s : state) : option state :=
  k ← loop s;
  if Z.of_nat k <? limit
  then Some (mk (Some (S k)) (index s) (completed s) (sync s) (queued s) (outstanding s ++ [k]) (live s) (answers s) (log s))
  else Some (mk None (index s) (completed s) (sync s) (queued s) (outstanding s) (live s) (answers s) (log s)).

(** The variable [i] *)
Definition i_var (s : state) : Z := match loop s with Some k => Z.of_nat k - 1 | None => -1 end.

(** [if (sync === undefined) sync = i >= 0] *)
Definition decide_sync (s : state) : bool :=
  match sync s with Some b => b | None => 0 <=? i_var s end.

Definition next (err : option E) (s : state) : state :=
  match err with
  | Some e =>
      mk (loop s) (index s) (completed s) (sync s) (queued s) (outstanding s) false
         (invoke (live s) (Failed e) (answers s)) (log s)
  | None =>
      let completed := completed s + 1 in
      if completed =? count then
        mk (loop s) (index s) completed (sync s) (queued s) (outstanding s) (live s)
           (invoke (live s) (Completed tt) (answers s)) (log s)
      else
        let index := index s + 1 in
        if count <=? index then
          mk (loop s) index completed (sync s) (queued s) (outstanding s) (live s) (answers s) (log s)
        else
          let sync := decide_sync s in
          if sync then
            mk (loop s) index completed (Some sync) (queued s ++ [Z.to_nat index]) (outstanding s) (live s) (answers s) (log s)
          else
            mk (loop s) index completed (Some sync) (queued s) (outstanding s ++ [Z.to_nat index]) (live s) (answers s) (log s)
  end.

Definition itemCallback (i : nat) (err : option E) (s : state) : state :=
  next err (mk (loop s) (index s) (completed s) (sync s) (queued s) (List.remove Nat.eq_dec i (outstanding s))
               (live s) (answers s) (log s ++ [(i, (err, tt))])).

(** The queue of [process.nextTick] runs after the loop. *)
Definition tick (s : state) : option state :=
  match loop s, queued s with
  | None, i :: queued =>
      Some (mk None (index s) (completed s) (sync s) queued (outstanding s ++ [i]) (live s) (answers s) (log s))
  | _, _ => None
  end.

Inductive step : state -> state -> Prop :=
| step_iterate s s' : iterate s = Some s' -> step s s'
| step_callback s i err : i ∈ outstanding s -> step s (itemCallback i err s)
| step_tick s s' : tick s = Some s' -> step s s'.

Definition reachable (s : state) : Prop := rtc step initial s.

Definition quiescent (s : state) : Prop := loop s = None /\ queued s = [] /\ outstanding s = [].

(** The calls of the loop so far, and the calls made by completions. *)
Definition looped (s : state) : nat := match loop s with Some k => k | None => Z.to_nat limit end.
Definition launched (s : state) : nat := Z.to_nat (Z.min count (index s + 1) - limit).

Record inv (s : state) : Prop := {
  inv_loop : (looped s <= Z.to_nat limit)%nat;
  inv_completed : completed s = Z.of_nat (successes (log s));
  inv_index : index s = limit - 1 + Z.min (completed s) (count - 1);
  inv_items : seq 0 (looped s) ++ seq (Z.to_nat limit) (launched s) ≡ₚ outstanding s ++ queued s ++ (fst <$> log s);
  inv_live : live s = match first_error (log s) with None => true | Some _ => false end;
  inv_answers : answers s = outcome count (log s) tt }.

Hypothesis Hcount : 0 < count.
Hypothesis Hlimit : 0 < limit0.

Lemma limited_limit_bounds : 0 < limit <= count.
Proof. unfold limit. lia. Qed.

Lemma limited_initial_inv : inv initial.
Proof.
  pose proof limited_limit_bounds. split; cbn [initial loop index completed queued outstanding live answers log]; try done.
  - unfold looped. cbn. lia.
  - cbn. lia.
  - unfold launched, looped. cbn [initial index loop]. by replace (Z.min count (limit - 1 + 1) - limit) with 0 by lia.
  - unfold outcome. cbn. by rewrite (proj2 (Z.eqb_neq _ _)) by (cbn; lia).
Qed.

(** The calls made, in flight or finished. *)
Lemma limited_inv_sizes s : inv s ->
  (looped s + launched s = length (outstanding s) + length (queued s) + length (log s))%nat /\
  NoDup (outstanding s) /\ (looped s + launched s <= Z.to_nat count)%nat /\
  (length (outstanding s) + length (queued s) <= Z.to_nat limit)%nat.
Proof.
  intros [Hlp Hc Hix Hi _ _]. pose proof limited_limit_bounds. destruct (successes_all (log s)) as [Hs _].
  pose proof (Permutation_length Hi) as Hlen. rewrite !length_app, !length_seq, length_fmap in Hlen.
  assert (Hnd : NoDup (seq 0 (looped s) ++ seq (Z.to_nat limit) (launched s))).
  { apply list.NoDup_app. split_and!; [apply NoDup_seq| |apply NoDup_seq]. intros x. rewrite !elem_of_seq. lia. }
  rewrite Hi in Hnd. apply list.NoDup_app in Hnd as [Hnd _].
  unfold launched in *. split_and!; [lia|done|lia|lia].
Qed.

Lemma limited_iterate_inv s s' : inv s -> iterate s = Some s' -> inv s'.
Proof.
  intros [Hlp Hc Hix Hi Hl Ha]. unfold iterate. destruct (loop s) as [k|] eqn:Hk; [|done].
  unfold looped, launched in *. rewrite Hk in *. cbn [mbind option_bind]. pose proof limited_limit_bounds.
  destruct (Z.ltb_spec (Z.of_nat k) limit); intros [= <-]; split;
    unfold looped, launched; cbn [loop index completed queued outstanding live answers log]; try done; try lia.
  - change (0%nat :: seq 1 k) with (seq 0 (S k)) || idtac. rewrite seq_S. cbn [plus].
    rewrite <- !app_assoc, (Permutation_app_comm [k]), !app_assoc.
    apply (Permutation_app_tail [k]) in Hi. rewrite Hi. rewrite <- !app_assoc. f_equiv.
    rewrite app_assoc, Permutation_app_comm. done.
  - by replace (Z.to_nat limit) with k in * by lia.
Qed.

Lemma limited_tick_inv s s' : inv s -> tick s = Some s' -> inv s'.
Proof.
  intros [Hlp Hc Hix Hi Hl Ha]. unfold tick. destruct (loop s) eqn:Hk; [done|].
  destruct (queued s) as [|i q] eqn:Hq; [done|]. intros [= <-].
  split; unfold looped, launched in *; rewrite ?Hk in *;
    cbn [loop index completed queued outstanding live answers log] in *; try done.
  rewrite Hi. by rewrite <- app_assoc.
Qed.

(** The log and the items after a completion, before [next]. *)
Lemma limited_remove_items s i err : inv s -> i ∈ outstanding s ->
  seq 0 (looped s) ++ seq (Z.to_nat limit) (launched s)
  ≡ₚ List.remove Nat.eq_dec i (outstanding s) ++ queued s ++ (fst <$> (log s ++ [(i, (err, tt))])).
Proof.
  intros Hinv Hin. destruct (limited_inv_sizes s Hinv) as (_ & Hnd & _ & _).
  rewrite (inv_items s Hinv), (remove_perm i (outstanding s)) at 1 by done. rewrite fmap_app. cbn.
  by rewrite !app_assoc, <- Permutation_cons_append.
Qed.

Lemma limited_callback_inv s i err : inv s -> i ∈ outstanding s -> inv (itemCallback i err s).
Proof.
  intros Hinv Hin. pose proof (limited_remove_items s i err Hinv Hin) as Hitems.
  destruct (limited_inv_sizes s Hinv) as (Hsz & Hnd & Htot & Hbound). pose proof limited_limit_bounds as Hlb.
  assert (Hlog : Z.of_nat (length (log s)) < count).
  { destruct (outstanding s); [by apply not_elem_of_nil in Hin|]. cbn in Hsz. lia. }
  destruct (successes_all (log s)) as [Hle Hall].
  destruct Hinv as [Hlp Hc Hix _ Hl Ha].
  assert (Hout : answers s = match first_error (log s) with Some e => [Failed e] | None => [] end).
  { rewrite Ha. unfold outcome. destruct (first_error (log s)); [done|]. by rewrite (proj2 (Z.eqb_neq _ _)) by lia. }
  unfold itemCallback, next. destruct err as [e|].
  - split; unfold looped, launched in *; cbn [loop index completed queued outstanding live answers log] in *; try done.
    + rewrite successes_snoc. lia.
    + rewrite first_error_snoc. by destruct (first_error (log s)).
    + rewrite outcome_snoc, Hl, Hout. by destruct (first_error (log s)).
  - cbn [completed loop index sync queued outstanding live answers log]. rewrite Hout, Hl.
    assert (Ho : outcome count (log s ++ [(i, (None, tt))]) tt
      = match first_error (log s) with Some e => [Failed e]
        | None => if completed s + 1 =? count then [Completed tt] else [] end).
    { rewrite outcome_snoc. destruct (first_error (log s)) eqn:Hf; [done|]. destruct Hall as [Hall _].
      rewrite (Hall eq_refl) in Hc. by rewrite Hc. }
    destruct (Z.eqb_spec (completed s + 1) count) as [He|He];
      [|destruct (Z.leb_spec count (index s + 1)) as [Hge|Hlt]; [|destruct (decide_sync _)]];
      (split; unfold looped, launched in *; cbn [loop index completed queued outstanding live answers log] in *;
       [done|rewrite successes_snoc; lia|lia| |rewrite first_error_snoc; by destruct (first_error (log s))
       |rewrite Ho; by destruct (first_error (log s))]).
    + done.
    + rewrite <- Hitems. do 2 f_equiv. lia.
    + replace (Z.to_nat (Z.min count (index s + 1 + 1) - limit))
        with (S (Z.to_nat (Z.min count (index s + 1) - limit))) by lia.
      rewrite seq_S, app_assoc, Hitems. replace (Z.to_nat limit + _)%nat with (Z.to_nat (index s + 1)) by lia.
      rewrite <- !app_assoc. do 2 f_equiv. apply Permutation_app_comm.
    + replace (Z.to_nat (Z.min count (index s + 1 + 1) - limit))
        with (S (Z.to_nat (Z.min count (index s + 1) - limit))) by lia.
      rewrite seq_S, app_assoc, Hitems. replace (Z.to_nat limit + _)%nat with (Z.to_nat (index s + 1)) by lia.
      rewrite <- !app_assoc. f_equiv. rewrite app_assoc. apply Permutation_app_comm.
Qed.

Lemma limited_step_inv s s' : inv s -> step s s' -> inv s'.
Proof.
  intros Hinv Hst. destruct Hst as [s s' H|s i err H|s s' H];
    [exact (limited_iterate_inv s s' Hinv H)|exact (limited_callback_inv s i err Hinv H)|exact (limited_tick_inv s s' Hinv H)].
Qed.

Lemma limited_reachable_inv s : reachable s -> inv s.
Proof.
  apply (rtc_ind_r inv); [apply limited_initial_inv|]. intros s1 s2 _ Hst Hinv. by eapply limited_step_inv.
Qed.

(** Each step uses up a call to make, to run or to complete, or ends the loop. *)
Definition work (s : state) : nat :=
  3 * (Z.to_nat count - (looped s + launched s)) + 2 * length (queued s) + length (outstanding s)
  + match loop s with Some _ => 1 | None => 0 end.

Lemma limited_step_work s s' : inv s -> step s s' -> (work s' < work s)%nat.
Proof.
  intros Hinv Hst. pose proof (limited_step_inv s s' Hinv Hst) as Hinv'. destruct (limited_inv_sizes s Hinv) as (Hsz & Hnd & Htot & _).
  destruct (limited_inv_sizes s' Hinv') as (Hsz' & _ & Htot' & _). unfold work.
  clear Hinv Hinv'. destruct Hst as [s s' Hs|s i err Hin|s s' Hs].
  - unfold iterate in Hs. destruct (loop s) eqn:Hk; [|done]. cbn in Hs.
    case_match; injection Hs as <-; cbn [loop index queued outstanding log] in *; rewrite ?length_app in *; cbn [length] in *; lia.
  - pose proof (Permutation_length (remove_perm i _ Hnd Hin)) as Hl. cbn in Hl.
    unfold itemCallback, next in *.
    destruct err; [|destruct (_ =? count); [|destruct (count <=? _); [|destruct (decide_sync _)]]]; cbn [loop index queued outstanding log completed sync] in *;
      rewrite ?length_app in *; cbn [length] in *; lia.
  - unfold tick in Hs. destruct (loop s); [done|]. destruct (queued s) eqn:Hq; [done|]. injection Hs as <-.
    cbn [loop index queued outstanding log] in *. rewrite ?length_app in *; cbn [length] in *; lia.
Qed.

Lemma limited_reachable_sn s : inv s -> sn step s.
Proof.
  remember (work s) as w eqn:Hw. revert s Hw. induction (lt_wf w) as [w _ IH]. intros s -> Hinv.
  constructor. intros s' Hst. apply (IH (work s')); [by apply limited_step_work|done|by eapply limited_step_inv].
Qed.

(** When nothing is left and no call failed, all calls have completed. *)
Lemma limited_quiescent_complete s : inv s -> quiescent s -> first_error (log s) = None -> Z.of_nat (length (log s)) = count.
Proof.
  intros Hinv (Hk & Hq & Ho) Hf. destruct (limited_inv_sizes s Hinv) as (Hsz & _ & Htot & _). pose proof limited_limit_bounds.
  destruct (successes_all (log s)) as [_ [Hs _]]. specialize (Hs Hf). destruct Hinv as [_ Hc Hix _ _ _].
  rewrite Hq, Ho in Hsz. unfold looped, launched in *. rewrite Hk in *. cbn in Hsz. lia.
Qed.

End machine.

End TimesLimit.

(** C29. [timesLimit] with a positive count and limit, under every schedule: only finitely
    many things happen; at most [limit] calls are in flight, each index below [count] is
    called at most once; the callback is invoked at most once, with the first error or,
    only when all [count] calls have succeeded, with success; when nothing is left to
    happen it has been invoked. *)
Theorem times_limit_correct {E} count limit (s : TimesLimit.state (E := E)) :
  0 < count -> 0 < limit -> TimesLimit.reachable count limit s ->
  sn (TimesLimit.step count limit) s /\
  (length (TimesLimit.outstanding s) + length (TimesLimit.queued s) <= Z.to_nat limit)%nat /\
  (exists begun, NoDup begun /\ Forall (fun i => (i < Z.to_nat count)%nat) begun /\
     begun ≡ₚ TimesLimit.outstanding s ++ TimesLimit.queued s ++ (fst <$> TimesLimit.log s)) /\
  match TimesLimit.answers s with
  | [] => ~ TimesLimit.quiescent s
  | [Failed e] => first_error (TimesLimit.log s) = Some e
  | [Completed _] => first_error (TimesLimit.log s) = None /\ Z.of_nat (length (TimesLimit.log s)) = count
  | _ => False
  end.
Proof.
  intros Hc Hl Hr. pose proof (TimesLimit.limited_reachable_inv count limit Hc Hl s Hr) as Hinv.
  destruct (TimesLimit.limited_inv_sizes _ _ Hc Hl s Hinv) as (Hsz & _ & Htot & Hb).
  pose proof (TimesLimit.limited_limit_bounds _ _ Hc Hl) as Hlb. split_and!.
  - by apply TimesLimit.limited_reachable_sn.
  - unfold TimesLimit.limit in *. lia.
  - eexists. split_and!; [| |exact (TimesLimit.inv_items _ _ s Hinv)].
    + apply list.NoDup_app. split_and!; [apply NoDup_seq| |apply NoDup_seq].
      pose proof (TimesLimit.inv_loop _ _ s Hinv). intros x. rewrite !elem_of_seq. lia.
    + pose proof (TimesLimit.inv_loop _ _ s Hinv). apply Forall_app.
      split; apply List.Forall_forall; intros x Hx%in_seq; [lia|]. unfold TimesLimit.launched in *. lia.
  - rewrite (TimesLimit.inv_answers _ _ s Hinv). unfold outcome.
    destruct (first_error (TimesLimit.log s)) eqn:Hf; [done|].
    destruct (Z.eqb_spec (Z.of_nat (length (TimesLimit.log s))) count) as [He|He]; [done|].
    intros Hq. by apply He, (TimesLimit.limited_quiescent_complete count limit Hc Hl s Hinv Hq).
Qed.

(** Two calls in flight; the first completes at once and its successor is queued. *)
Definition limited_run : TimesLimit.state (E := unit) :=
  TimesLimit.mk None 2 1 (Some true) [2%nat] [1%nat] true [] [(0%nat, (None, tt))].

Lemma times_limit_correct_witness :
  TimesLimit.reachable 3 2 limited_run /\ sn (TimesLimit.step 3 2) limited_run.
Proof.
  assert (Hr : TimesLimit.reachable 3 2 limited_run).
  { eapply rtc_l; [apply TimesLimit.step_iterate; reflexivity|].
    eapply rtc_l; [apply (TimesLimit.step_callback _ _ _ 0%nat None); cbn; set_solver|].
    do 2 (eapply rtc_l; [apply TimesLimit.step_iterate; reflexivity|]). reflexivity. }
  split; [exact Hr|]. by apply (times_limit_correct 3 2 limited_run).
Defined.

(** Without calls to make, [timesLimit] never invokes its callback. *)
Lemma times_limit_zero {E} count limit (s : TimesLimit.state (E := E)) :
  Z.min limit count <= 0 -> TimesLimit.reachable count limit s -> TimesLimit.answers s = [].
Proof.
  intros Hn Hr.
  enough (TimesLimit.outstanding s = [] /\ TimesLimit.queued s = [] /\ TimesLimit.answers s = []) by tauto.
  revert s Hr. apply (rtc_ind_r (fun s => TimesLimit.outstanding s = [] /\ TimesLimit.queued s = [] /\ TimesLimit.answers s = []));
    [done|].
  intros s1 s2 _ Hst (Ho & Hq & Ha). destruct Hst as [s s' H|s i err H|s s' H].
  - unfold TimesLimit.iterate in H. destruct (TimesLimit.loop s) as [k|]; [|done]. cbn in H.
    destruct (Z.ltb_spec (Z.of_nat k) (TimesLimit.limit count limit)) as [Hlt|_].
    { unfold TimesLimit.limit in Hlt. lia. }
    by injection H as <-.
  - rewrite Ho in H. by apply not_elem_of_nil in H.
  - unfold TimesLimit.tick in H. rewrite Hq in H. by destruct (TimesLimit.loop s).
Qed.

(** ** One call after the other *)

Module Series.

Inductive kind : Type := EachSeries | MapSeries | SeriesOf | TimesSeries | Whilst.

(** The variable [sync]; in [whilst], 0 and 1 are undefined, 4 is true and 2 false. *)
Inductive sync_var : Type := SUndefined | STrue | SFalse.

(** The call in flight or given to [process.nextTick]. *)
Inductive current : Type := Idle | Running (i : nat) | Queued (i : nat).

Section machine.
Context {E V : Type}.

(** What the callback gets on success: [mapSeries] the array, [series] the last value. *)
Inductive results : Type := Nothing | Array (result : list (option V)) | Last (v : option V).

(** [inside]: the function has been called and has not returned. *)
Record state : Type := mk {
  index : nat;
  sync : sync_var;
  cur : current;
  inside : bool;
  result : list (option V);
  answers : list (answer E results);
  log : list (nat * (option E * V)) }.

Variable k : kind.

(** [more i]: there is a call [i]; for [whilst] the condition, tested before that call. *)
Variable more : nat -> bool.

(** The size of the array of [mapSeries]. *)
Variable size : nat.

Definition payload (result : list (option V)) (last : option V) : results :=
  match k with MapSeries => Array result | SeriesOf => Last last | _ => Nothing end.

(** The variable [sync] when a call is made: [series] sets it around every call. *)
Definition sync_call (y : sync_var) : sync_var := match k with SeriesOf => STrue | _ => y end.

(** ... and when the call has returned. *)
Definition sync_return (y : sync_var) : sync_var :=
  match k, y with
  | SeriesOf, _ => SFalse
  | _, SUndefined => SFalse
  | _, _ => y
  end.

(** ... and when [next] goes on to the following call. *)
Definition sync_next (y : sync_var) : sync_var :=
  match k, y with
  | SeriesOf, _ => y
  | _, SUndefined => STrue
  | _, _ => y
  end.

(** The first call, or the callback when there is none. *)
Definition initial : state :=
  let result := replicate size None in
  if more 0 then mk 1 (sync_call SUndefined) (Running 0) true result [] []
  else mk 0 SUndefined Idle false result [Completed (payload [] None)] [].

Definition next (err : option E) (last : V) (s : state) : state :=
  match err with
  | Some e => mk (index s) (sync s) Idle (inside s) (result s) (answers s ++ [Failed e]) (log s)
  | None =>
      if more (index s) then
        match sync_next (sync s) with
        | STrue => mk (S (index s)) STrue (Queued (index s)) (inside s) (result s) (answers s) (log s)
        | y => mk (S (index s)) (sync_call y) (Running (index s)) true (result s) (answers s) (log s)
        end
      else mk (index s) (sync s) Idle (inside s) (result s)
              (answers s ++ [Completed (payload (result s) (Some last))]) (log s)
  end.

(** The callback of the call [i]. *)
Definition itemCallback (i : nat) (err : option E) (v : V) (s : state) : state :=
  next err v (mk (index s) (sync s) (cur s) (inside s)
                 (match k with MapSeries => <[i := Some v]> (result s) | _ => result s end)
                 (answers s) (log s ++ [(i, (err, v))])).

(** The call returns. *)
Definition returned (s : state) : state :=
  mk (index s) (sync_return (sync s)) (cur s) false (result s) (answers s) (log s).

Inductive step : state -> state -> Prop :=
| step_callback s i err v : cur s = Running i -> step s (itemCallback i err v s)
| step_return s : inside s = true -> step s (returned s)
| step_tick s i : cur s = Queued i -> inside s = false ->
    step s (mk (index s) (sync_call (sync s)) (Running i) true (result s) (answers s) (log s)).

Definition reachable (s : state) : Prop := rtc step initial s.

(** No call is in flight, queued or about to return. *)
Definition quiescent (s : state) : Prop := cur s = Idle /\ inside s = false.

Definition values_of (log : list (nat * (option E * V))) : list (option V) :=
  fold_left (fun r x => <[fst x := Some (snd (snd x))]> r) log (replicate size None).

Definition last_value (log : list (nat * (option E * V))) : option V := (fun x => snd (snd x)) <$> list.last log.

(** The calls that have completed. *)
Record inv (s : state) : Prop := {
  inv_order : fst <$> log s = seq 0 (length (log s));
  inv_more : forall i, (i < index s)%nat -> more i = true;
  inv_cur : match cur s with
            | Running i | Queued i =>
                i = length (log s) /\ index s = S i /\ answers s = [] /\ first_error (log s) = None
            | Idle =>
                length (log s) = index s /\
                match first_error (log s) with
                | Some e => answers s = [Failed e] /\ exists v, list.last (log s) = Some ((index s - 1)%nat, (Some e, v))
                | None => more (index s) = false /\
                          answers s = [Completed (payload (if decide (index s = 0%nat) then [] else values_of (log s))
                                                     (last_value (log s)))]
                end
            end;
  inv_result : match k with MapSeries => result s = values_of (log s) | _ => True end }.

Lemma series_initial_inv : inv initial.
Proof.
  unfold initial. destruct (more 0) eqn:Hm; split; cbn; try done; try (by destruct k); try lia.
  intros i Hi. by replace i with 0%nat by lia.
Qed.

Lemma series_values_of_snoc log i e v : values_of (log ++ [(i, (e, v))]) = <[i := Some v]> (values_of log).
Proof. unfold values_of. by rewrite fold_left_app. Qed.

Lemma series_callback_inv s i err v : inv s -> cur s = Running i -> inv (itemCallback i err v s).
Proof.
  intros [Ho Hm Hc Hr] Hcur. rewrite Hcur in Hc. destruct Hc as (-> & Hix & Ha & Hf).
  assert (Ho' : fst <$> (log s ++ [(length (log s), (err, v))]) = seq 0 (length (log s ++ [(length (log s), (err, v))]))).
  { by rewrite fmap_app, length_app, Ho, Nat.add_1_r, seq_S. }
  assert (Hr' : match k with MapSeries => <[length (log s) := Some v]> (result s) = values_of (log s ++ [(length (log s), (err, v))]) | _ => True end).
  { destruct k; try done. by rewrite series_values_of_snoc, Hr. }
  assert (Hfe : first_error (log s ++ [(length (log s), (err, v))]) = err) by (by rewrite first_error_snoc, Hf).
  unfold itemCallback, next. destruct err as [e|].
  - split; cbn [index sync cur inside result answers log]; [done|done| |by destruct k].
    rewrite Hfe, length_app, Ha. cbn. split_and!; [lia|done|]. exists v. rewrite last_snoc. by rewrite Hix, Nat.sub_1_r.
  - cbn [index sync cur inside result answers log]. destruct (more (index s)) eqn:Hmore.
    + destruct (sync_next (sync s)); split; cbn [index sync cur inside result answers log]; try done; try (by destruct k);
        try (intros j Hj; destruct (decide (j = index s)) as [->|]; [done|apply Hm; lia]);
        rewrite length_app; cbn; split_and!; (done || lia).
    + split; cbn [index sync cur inside result answers log]; [done|done| |by destruct k].
      rewrite Hfe, length_app, Ha. cbn [length]. split; [lia|]. split; [done|]. rewrite decide_False by lia.
      unfold payload, last_value. rewrite last_snoc. destruct k; try done. by rewrite Hr'.
Qed.

Lemma series_step_inv s s' : inv s -> step s s' -> inv s'.
Proof.
  intros Hinv Hst. destruct Hst as [s i err v Hc|s Hi|s i Hc Hi]; [by apply series_callback_inv|by destruct Hinv|].
  destruct Hinv as [Ho Hm Hcur Hr]. rewrite Hc in Hcur. by split.
Qed.

Lemma series_reachable_inv s : reachable s -> inv s.
Proof. apply (rtc_ind_r inv); [apply series_initial_inv|]. intros s1 s2 _ Hst Hinv. by eapply series_step_inv. Qed.

Lemma series_length_values_of log : length (values_of log) = size.
Proof.
  induction log as [|[i [e v]] log IH] using rev_ind; [apply length_replicate|].
  by rewrite series_values_of_snoc, length_insert.
Qed.

(** In order, the values of the log fill the array from the left. *)
Lemma series_values_of_order (log : list (nat * (option E * V))) i x :
  (length log <= size)%nat -> fst <$> log = seq 0 (length log) -> log !! i = Some x ->
  values_of log !! i = Some (Some (snd (snd x))).
Proof.
  revert i x. induction log as [|[j [e v]] log IH] using rev_ind; intros i x Hs Ho Hi; [done|].
  rewrite fmap_app, length_app, Nat.add_1_r, seq_S in Ho. rewrite length_app in Hs. cbn in Ho, Hs.
  apply app_inj_2 in Ho as [Ho [= ->]]; [|done]. rewrite series_values_of_snoc.
  apply lookup_app_Some in Hi as [Hi|[Hge Hi]].
  - pose proof (lookup_lt_Some _ _ _ Hi). rewrite list_lookup_insert_ne by lia. apply IH; [lia|done|done].
  - apply list_lookup_singleton_Some in Hi as [Heq <-]. replace i with (length log) by lia.
    apply list_lookup_insert_eq. rewrite series_length_values_of. lia.
Qed.

(** Each step uses up a call to make, to run, to complete or to return from. *)
Definition work (n : nat) (s : state) : nat :=
  4 * (n - index s) + match cur s with Idle => 0 | Running _ => 1 | Queued _ => 3 end
  + (if inside s then 1 else 0).

Lemma series_index_bound n s : inv s -> more n = false -> (index s <= n)%nat.
Proof.
  intros Hinv Hn. destruct (le_lt_dec (index s) n) as [|Hlt]; [done|].
  by rewrite (inv_more s Hinv n Hlt) in Hn.
Qed.

Lemma series_step_work n s s' : more n = false -> inv s -> step s s' -> (work n s' < work n s)%nat.
Proof.
  intros Hn Hinv Hst. pose proof (series_step_inv s s' Hinv Hst) as Hinv'. pose proof (series_index_bound n s' Hinv' Hn) as Hb'.
  clear Hinv'. unfold work. destruct Hst as [s i err v Hc|s Hi|s i Hc Hi].
  - rewrite Hc. revert Hb'. unfold itemCallback, next. clear Hn. destruct err; [|destruct (more _); [destruct (sync_next _)|]];
      cbn [index cur inside]; intros Hb'; destruct (inside s); lia.
  - cbn. rewrite Hi. lia.
  - cbn. rewrite Hc, Hi. lia.
Qed.

Lemma series_reachable_sn n s : more n = false -> inv s -> sn step s.
Proof.
  intros Hn. remember (work n s) as w eqn:Hw. revert s Hw. induction (lt_wf w) as [w _ IH]. intros s -> Hinv.
  constructor. intros s' Hst. apply (IH (work n s')); [by apply series_step_work|done|by eapply series_step_inv].
Qed.

End machine.

End Series.

(** The helpers that make one call after the other ([eachSeries], [mapSeries],
    [series], [timesSeries], [whilst]), under every schedule of synchronous and
    asynchronous completions: the calls complete in order 0, 1, 2, ..., a call is made
    only while there is one more to make and none failed, and at most one is in flight;
    the callback is invoked at most once, after the first error or when there is no more
    call to make, where [mapSeries] gives the values in order and [series] the last one;
    until then a call is in flight or queued; and when the calls are finite in number,
    only finitely many things happen. *)
Theorem series_correct {E V} k more size (s : Series.state (E := E) (V := V)) :
  Series.reachable k more size s ->
  fst <$> Series.log s = seq 0 (length (Series.log s)) /\
  (forall i, i ∈ fst <$> Series.log s -> more i = true) /\
  (forall n, more n = false -> sn (Series.step k more) s) /\
  match Series.answers s with
  | [] => (Series.cur s = Series.Running (length (Series.log s)) \/ Series.cur s = Series.Queued (length (Series.log s))) /\
          more (length (Series.log s)) = true /\ first_error (Series.log s) = None
  | [Failed e] => Series.cur s = Series.Idle /\ first_error (Series.log s) = Some e /\
          exists i v, list.last (Series.log s) = Some (i, (Some e, v))
  | [Completed r] => Series.cur s = Series.Idle /\ first_error (Series.log s) = None /\
          more (length (Series.log s)) = false /\
          match k with
          | Series.MapSeries => exists l, r = Series.Array l /\
              forall i x, (length (Series.log s) <= size)%nat -> Series.log s !! i = Some x -> l !! i = Some (Some (snd (snd x)))
          | Series.SeriesOf => r = Series.Last ((fun x => snd (snd x)) <$> list.last (Series.log s))
          | _ => r = Series.Nothing
          end
  | _ => False
  end.
Proof.
  intros Hr. pose proof (Series.series_reachable_inv k more size s Hr) as Hinv.
  split_and!; [apply (Series.inv_order _ _ _ _ Hinv)| | |].
  - intros i Hi. apply (Series.inv_more _ _ _ _ Hinv). rewrite (Series.inv_order _ _ _ _ Hinv) in Hi.
    apply elem_of_seq in Hi. pose proof (Series.inv_cur _ _ _ _ Hinv) as Hc. destruct (Series.cur s); lia.
  - intros n Hn. by apply (Series.series_reachable_sn k more size n).
  - pose proof (Series.inv_cur _ _ _ _ Hinv) as Hc. pose proof (Series.inv_more _ _ _ _ Hinv) as Hm.
    destruct (Series.cur s) as [|i|i] eqn:Hcur.
    + destruct Hc as [Hl Hc]. destruct (first_error (Series.log s)) as [e|].
      * destruct Hc as (-> & v & Hlast). split_and!; [done|done|]. by eexists _, v.
      * destruct Hc as [Hmore ->]. rewrite Hl. split_and!; [done..|]. unfold Series.payload.
        destruct k; try done. eexists. split; [done|]. intros i x Hs Hx.
        rewrite decide_False by (apply lookup_lt_Some in Hx; lia).
        apply (Series.series_values_of_order more size (Series.log s) i x); [by rewrite Hl|apply (Series.inv_order _ _ _ _ Hinv)|done].
    + destruct Hc as (-> & Hix & -> & Hf). split_and!; [by left|apply Hm; lia|done].
    + destruct Hc as (-> & Hix & -> & Hf). split_and!; [by right|apply Hm; lia|done].
Qed.

(** [mapSeries] over two items: the first call completes at once, so the second waits for
    the next tick. *)
Definition series_run : Series.state (E := unit) (V := Z) :=
  Series.mk 2 Series.STrue (Series.Running 1) true [Some 7; None] [] [(0%nat, (None, 7))].

Lemma series_correct_witness :
  Series.reachable Series.MapSeries (fun i => (i <? 2)%nat) 2 series_run /\
  sn (Series.step Series.MapSeries (fun i => (i <? 2)%nat)) series_run.
Proof.
  assert (Hr : Series.reachable Series.MapSeries (fun i => (i <? 2)%nat) 2 series_run).
  { eapply rtc_l; [apply (Series.step_callback _ _ _ 0%nat None 7); reflexivity|].
    eapply rtc_l; [apply Series.step_return; reflexivity|].
    eapply rtc_l; [apply (Series.step_tick _ _ _ 1%nat); reflexivity|]. reflexivity. }
  split; [exact Hr|]. by apply (proj2 (proj2 (series_correct _ _ _ series_run Hr))) with (n := 2%nat).
Defined.

(** ** The functions

    A helper as its transition system: the state after the call and the steps. *)

Section functions.
Context {E V A : Type}.

(** A state and the steps from it. *)
Definition system (S : Type) : Type := S * (S -> S -> Prop).

Definition fan (k : FanOut.kind) (n : Z) : system (FanOut.state (E := E) (V := V)) :=
  (FanOut.initial k n, FanOut.step k n).

Definition each (arr : list A) := fan FanOut.Each (Z.of_nat (length arr)).

(** [useIndex] gives the function the index too. *)
Definition mapEach (arr : list A) (useIndex : bool) := fan FanOut.Map (Z.of_nat (length arr)).
Definition forEachOf (arr : list A) := mapEach arr true.
Definition map (arr : list A) := mapEach arr false.
Definition parallel (arr : list A) := fan FanOut.Parallel (Z.of_nat (length arr)).
Definition times (count : Z) := fan FanOut.Times count.

Definition timesLimit (count limit : Z) : system (TimesLimit.state (E := E)) :=
  (TimesLimit.initial count limit, TimesLimit.step count limit).

Definition serial (k : Series.kind) (more : nat -> bool) (size : nat) : system (Series.state (E := E) (V := V)) :=
  (Series.initial k more size, Series.step k more).

Definition eachSeries (arr : list A) := serial Series.EachSeries (fun i => (i <? length arr)%nat) (length arr).
Definition mapSeries (arr : list A) := serial Series.MapSeries (fun i => (i <? length arr)%nat) (length arr).
Definition series (arr : list A) := serial Series.SeriesOf (fun i => (i <? length arr)%nat) (length arr).
Definition timesSeries (count : Z) := serial Series.TimesSeries (fun i => Z.of_nat i <? count) 0.

(** [condition i]: the answer of the condition before the call [i]. *)
Definition whilst (condition : nat -> bool) := serial Series.Whilst condition 0.

End functions.

(** ** AddressResolver *)

Module AddressResolver.

(** [nameOrIp], whether it is an address, the resolved addresses if any, and the index
    of the next one. *)
Record t : Type := mk {
  nameOrIp : jsstr;
  isIp : bool;
  index : Z;
  addresses : option (list jsstr) }.

Definition max_index : Z := 2147483647.

(** [net.isIP] is a parameter; a missing name is an empty one. *)
Definition constructor (net_isIP : jsstr -> bool) (nameOrIp : jsstr) : result t :=
  match nameOrIp with
  | [] => Err (PlainError "nameOrIp and dns lib must be provided as part of the options")
  | _ => Ok (mk nameOrIp (net_isIP nameOrIp) 0 None)
  end.

(** [#resolve] with the answer of [resolve4] *)
Definition resolve (answer_ : result (list jsstr)) (r : t) : result t :=
  arr ← answer_;
  match arr with
  | [] => Err (PlainError "could not be resolved")
  | _ => Ok (mk (nameOrIp r) (isIp r) (index r) (Some arr))
  end.

Definition init (answer_ : result (list jsstr)) (r : t) : result t :=
  if isIp r then Ok r else resolve answer_ r.

(** A refresh that is alone: an error leaves the addresses as they are. *)
Definition refresh (answer_ : result (list jsstr)) (r : t) : t :=
  if isIp r then r else match resolve answer_ r with Ok r' => r' | Err _ => r end.

Definition getIp (r : t) : result (jsstr * t) :=
  if isIp r then Ok (nameOrIp r, r)
  else
    match addresses r with
    | None => Err (TypeError "Cannot read properties of null")
    | Some l =>
        match l !! Z.to_nat (Z.rem (index r) (Z.of_nat (length l))) with
        | None => Err (TypeError "undefined")
        | Some item =>
            Ok (item, mk (nameOrIp r) (isIp r) (if negb (index r =? max_index) then index r + 1 else 0) (addresses r))
        end
    end.

Fixpoint getIps (n : nat) (r : t) : result (list jsstr * t) :=
  match n with
  | O => Ok ([], r)
  | S n => '(ip, r) ← getIp r; '(ips, r) ← getIps n r; Ok (ip :: ips, r)
  end.

End AddressResolver.

Section resolver.
Import AddressResolver.

Lemma getIp_resolved r l : isIp r = false -> addresses r = Some l -> l <> [] -> 0 <= index r ->
  exists ip, l !! (Z.to_nat (index r) mod length l)%nat = Some ip /\
    getIp r = Ok (ip, mk (nameOrIp r) false (if negb (index r =? max_index) then index r + 1 else 0) (Some l)).
Proof.
  intros Hip Ha Hl Hi. assert (Hlen : (length l <> 0)%nat) by (by destruct l).
  destruct (lookup_lt_is_Some_2 l (Z.to_nat (index r) mod length l)) as [ip Hx]; [by apply Nat.mod_upper_bound|].
  exists ip. split; [done|]. unfold getIp. rewrite Hip, Ha.
  replace (Z.to_nat (Z.rem (index r) (Z.of_nat (length l)))) with (Z.to_nat (index r) mod length l)%nat.
  - by rewrite Hx.
  - rewrite Z.rem_mod_nonneg by lia. rewrite <- (Z2Nat.id (index r)) at 2 by done.
    by rewrite <- Nat2Z.inj_mod, Nat2Z.id.
Qed.

(** The addresses are given in turn. *)
Lemma getIps_round_robin n r l : isIp r = false -> addresses r = Some l -> l <> [] -> 0 <= index r ->
  index r + Z.of_nat n <= 2 ^ 31 ->
  exists ips r', getIps n r = Ok (ips, r') /\ length ips = n /\
    forall j ip, ips !! j = Some ip -> l !! ((Z.to_nat (index r) + j) mod length l)%nat = Some ip.
Proof.
  revert r. induction n as [|n IH]; intros r Hip Ha Hl Hi Hn; [by exists [], r|]. cbn [getIps].
  destruct (getIp_resolved r l Hip Ha Hl Hi) as (ip & Hx & ->). rewrite ok_bind.
  set (r1 := mk _ _ _ _). destruct n as [|n].
  { cbn. exists [ip], r1. split_and!; [done|done|]. intros [|j] ip' Hj; [|done].
    injection Hj as <-. by rewrite Nat.add_0_r. }
  assert (Hix : index r1 = index r + 1).
  { subst r1. cbn [index]. destruct (Z.eqb_spec (index r) max_index) as [E|E]; [|done]. unfold max_index in E. lia. }
  destruct (IH r1) as (ips & r' & -> & Hlen & Hips); [done|done|done|lia|lia|]. rewrite ok_bind.
  exists (ip :: ips), r'. split_and!; [done|cbn; lia|]. intros [|j] ip' Hj.
  - injection Hj as <-. by rewrite Nat.add_0_r.
  - cbn in Hj. rewrite <- (Hips j ip' Hj). do 2 f_equal. lia.
Qed.

End resolver.
