(* ===== verification/ExecutionOptions.v ===== *)
(** * Execution profiles and options

    lib/execution-profile.ts ([ProfileManager]), lib/execution-options.js
    ([DefaultExecutionOptions]) and lib/query-options.js ([queryOptionsIntoWrapper]): the
    settings of one execution, from the options of the query, its execution profile and
    the options of the client.

    A setting is a value with undefined as its absence.  Policies are objects, given by
    their identity; a profile object is its position in the client's list.  The property
    lookups are those of own properties.

    The theorems: a profile is found by its name and completed from the default profile;
    every setting given to the Rust layer is the first one defined in the order query,
    profile, client; the page state of a result resumes where it stopped; the custom
    payload of the user is left as it is. *)

From stdpp Require Import sets.
From S2P Require Import Prelude JsNumber Buffer JsString Utf8 CqlTypes JsValue Encoder LongArith Timestamps Collections.

Definition policy : Type := nat.

(** ** ExecutionProfile *)

Record profile : Type := mkProfile {
  name : jsstr;
  p_consistency : jsval;
  loadBalancing : option policy;
  p_readTimeout : jsval;
  p_retry : option policy;
  p_serialConsistency : jsval }.

(** [new ExecutionProfile(name)] *)
Definition ExecutionProfile (name : jsstr) : profile := mkProfile name JUndefined None JUndefined None JUndefined.

Definition default_name : jsstr := js "default".

Definition set_loadBalancing (lb : option policy) (p : profile) : profile :=
  mkProfile (name p) (p_consistency p) lb (p_readTimeout p) (p_retry p) (p_serialConsistency p).

Definition set_retry (r : option policy) (p : profile) : profile :=
  mkProfile (name p) (p_consistency p) (loadBalancing p) (p_readTimeout p) r (p_serialConsistency p).

(** [a || b] on objects *)
Definition or_else {A} (a b : option A) : option A := match a with Some _ => a | None => b end.

(** [options.executionProfile] *)
Inductive profile_ref : Type :=
| PUndefined
| PName (name : jsstr)
| PInstance (p : profile).

Module ProfileManager.

(** [profiles] are the objects of [options.profiles], completed in place; [defaultProfile]
    and [profilesMap] refer to them by position. *)
Record t : Type := mk {
  profiles : list profile;
  defaultConfiguredRetryPolicy : option policy;
  defaultProfile : nat;
  loadBalancingPolicies : list (option policy);
  profilesMap : list (jsstr * nat) }.

(** The position of the first element that satisfies a test. *)
Fixpoint position {A} (f : A -> bool) (l : list A) : option nat :=
  match l with
  | [] => None
  | x :: l => if f x then Some 0%nat else S <$> position f l
  end.

Definition is_default (p : profile) : bool := bool_decide (name p = default_name).

(** [#setAndGetDefault]: the profiles, the position of the default one and the retry
    policy it was configured with. *)
Definition setAndGetDefault (profiles : list profile) (policies_loadBalancing policies_retry : option policy)
    : list profile * nat * option policy :=
  let '(profiles, i) :=
    match position is_default profiles with
    | Some i => (profiles, i)
    | None => (profiles ++ [ExecutionProfile default_name], length profiles)
    end in
  let configured := profiles !! i ≫= p_retry in
  (alter (fun p => set_retry (or_else (p_retry p) policies_retry)
                     (set_loadBalancing (or_else (loadBalancing p) policies_loadBalancing) p)) i profiles,
   i, configured).

(** The loop over the profiles: the map, the policies and the profiles completed. *)
Fixpoint complete (lb : option policy) (i : nat) (ps : list profile) (m : list (jsstr * nat))
    (lbs : list (option policy)) : list profile * list (jsstr * nat) * list (option policy) :=
  match ps with
  | [] => ([], m, lbs)
  | p :: ps =>
      let m := set_prop (name p) i m in
      let p := set_loadBalancing (or_else (loadBalancing p) lb) p in
      let lbs := if bool_decide (loadBalancing p ∈ lbs) then lbs else lbs ++ [loadBalancing p] in
      let '(ps, m, lbs) := complete lb (S i) ps m lbs in
      (p :: ps, m, lbs)
  end.

Definition constructor (profiles : list profile) (policies_loadBalancing policies_retry : option policy) : t :=
  let '(profiles, i, configured) := setAndGetDefault profiles policies_loadBalancing policies_retry in
  let '(profiles, m, lbs) := complete (profiles !! i ≫= loadBalancing) 0 profiles [] [] in
  mk profiles configured i lbs m.

(** [getProfile]; an instance is returned as it is. *)
Definition getProfile (pm : t) (ref : profile_ref) : option profile :=
  match ref with
  | PInstance p => Some p
  | PUndefined => lookup_prop default_name (profilesMap pm) ≫= fun i => profiles pm !! i
  | PName nm =>
      lookup_prop (match nm with [] => default_name | _ => nm end) (profilesMap pm) ≫= fun i => profiles pm !! i
  end.

Definition getDefault (pm : t) : option profile := profiles pm !! defaultProfile pm.

End ProfileManager.

(** ** Options *)

(** The hints: absent, one list, or one list for each query of a batch. *)
Inductive hint_lists : Type :=
| NoHints
| Hints (hints : list (option columnInfo))
| BatchHints (hints : list (list (option columnInfo))).

Record queryOptions : Type := mkQuery {
  autoPage : jsval;
  captureStackTrace : jsval;
  consistency : jsval;
  customPayload : option (list (jsstr * jsval));
  executeAs : jsstr;                       (** empty when absent *)
  executionProfile : profile_ref;
  fetchSize : jsval;
  q_hints : hint_lists;
  host : jsval;
  isIdempotent : jsval;
  keyspace : jsval;
  logged : jsval;
  counter : jsval;
  paged : jsval;
  pageState : jsval;
  prepare : jsval;
  readTimeout : jsval;
  retry : option policy;
  q_routingIndexes : jsval;
  q_routingKey : jsval;
  q_routingNames : jsval;
  serialConsistency : jsval;
  timestamp : timestamp_option;
  traceQuery : jsval }.

(** [utils.emptyObject] *)
Definition emptyObject : queryOptions :=
  mkQuery JUndefined JUndefined JUndefined None [] PUndefined JUndefined NoHints JUndefined JUndefined JUndefined
    JUndefined JUndefined JUndefined JUndefined JUndefined JUndefined None JUndefined JUndefined JUndefined
    JUndefined TUndefined JUndefined.

(** What the options of an execution read of the client. *)
Record client : Type := mkClient {
  defaultQueryOptions : queryOptions;
  socket_readTimeout : jsval;
  policies_retry : option policy;
  profileManager : ProfileManager.t }.

Definition ifUndefined (v1 v2 : jsval) : jsval := match v1 with JUndefined => v2 | _ => v1 end.

Definition ifUndefined3 (v1 v2 v3 : jsval) : jsval :=
  match v1 with JUndefined => match v2 with JUndefined => v3 | _ => v2 end | _ => v1 end.

(** The options handed to the Rust layer; its timestamp may be a BigInt. *)
Inductive rust_timestamp : Type := RUndefined | RNull | RNumber (z : Z) | RBigInt (z : Z).

Record rustOptions : Type := mkRust {
  r_autoPage : jsval;
  r_captureStackTrace : jsval;
  r_consistency : jsval;
  r_counter : jsval;
  r_fetchSize : jsval;
  r_isIdempotent : jsval;
  r_keyspace : jsval;
  r_logged : jsval;
  r_prepare : jsval;
  r_readTimeout : jsval;
  r_routingIndexes : jsval;
  r_routingNames : jsval;
  r_serialConsistency : jsval;
  r_timestamp : rust_timestamp;
  r_traceQuery : jsval }.

Module DefaultExecutionOptions.

Record t : Type := mk {
  rustWrapper : option rustOptions;
  query : queryOptions;
  routingKey : jsval;
  hints : hint_lists;
  o_keyspace : jsval;
  routingIndexes : jsval;
  o_pageState : jsval;
  o_client : client;
  o_profile : profile;
  o_customPayload : option (list (jsstr * jsval)) }.

Definition proxyExecuteKey : jsstr := js "ProxyExecute".

Definition createCustomPayload (userOptions defaults : queryOptions) : option (list (jsstr * jsval)) :=
  let payload := or_else (customPayload userOptions) (customPayload defaults) in
  let executeAs := match executeAs userOptions with [] => executeAs defaults | s => s end in
  match executeAs with
  | [] => payload
  | _ =>
      match payload with
      | None => Some [(proxyExecuteKey, JBuffer (utf8_encode executeAs))]
      | Some l =>
          if truthy (default JUndefined (lookup_prop proxyExecuteKey l)) then payload
          else Some (set_prop proxyExecuteKey (JBuffer (utf8_encode executeAs)) (extend [] [l]))
      end
  end.

Definition constructor (q : queryOptions) (c : client) : result t :=
  let pageState := match pageState q with JString s => JBuffer (hex_decode s) | v => v end in
  let payload := createCustomPayload q (defaultQueryOptions c) in
  match ProfileManager.getProfile (profileManager c) (executionProfile q) with
  | None => Err (ArgumentError "Execution profile not found")
  | Some p => Ok (mk None q (q_routingKey q) (q_hints q) (keyspace q) (q_routingIndexes q) pageState c p payload)
  end.

(** [create]; none is an absent argument or a function. *)
Definition create (q : option queryOptions) (c : client) : result t := constructor (default emptyObject q) c.

Definition defaults (o : t) : queryOptions := defaultQueryOptions (o_client o).

Definition getCaptureStackTrace (o : t) : jsval := ifUndefined (captureStackTrace (query o)) (captureStackTrace (defaults o)).
Definition getConsistency (o : t) : jsval :=
  ifUndefined3 (consistency (query o)) (p_consistency (o_profile o)) (consistency (defaults o)).
Definition getCustomPayload (o : t) : option (list (jsstr * jsval)) := o_customPayload o.
Definition getFetchSize (o : t) : jsval := ifUndefined (fetchSize (query o)) (fetchSize (defaults o)).
Definition getFixedHost (o : t) : jsval := host (query o).
Definition getHints (o : t) : hint_lists := hints o.
Definition isAutoPage (o : t) : jsval := ifUndefined (autoPage (query o)) (autoPage (defaults o)).
Definition isBatchCounter (o : t) : jsval := ifUndefined (counter (query o)) (JBool false).
Definition isBatchLogged (o : t) : jsval := ifUndefined3 (logged (query o)) (logged (defaults o)) (JBool true).
Definition isIdempotent_ (o : t) : jsval := ifUndefined (isIdempotent (query o)) (isIdempotent (defaults o)).
Definition isPrepared (o : t) : jsval := ifUndefined (prepare (query o)) (prepare (defaults o)).
Definition isQueryTracing (o : t) : jsval := ifUndefined (traceQuery (query o)) (traceQuery (defaults o)).
Definition getKeyspace (o : t) : jsval := o_keyspace o.
Definition getLoadBalancingPolicy (o : t) : option policy := loadBalancing (o_profile o).
Definition isPaged (o : t) : jsval := ifUndefined (paged (query o)) (paged (defaults o)).
Definition getPageState (o : t) : jsval := o_pageState o.
Definition getReadTimeout (o : t) : jsval :=
  ifUndefined3 (readTimeout (query o)) (p_readTimeout (o_profile o)) (socket_readTimeout (o_client o)).
Definition getRetryPolicy (o : t) : option policy :=
  or_else (retry (query o)) (or_else (p_retry (o_profile o)) (policies_retry (o_client o))).
Definition getRoutingIndexes (o : t) : jsval := routingIndexes o.
Definition getRoutingKey (o : t) : jsval := routingKey o.
Definition getRoutingNames (o : t) : jsval := q_routingNames (query o).
Definition getSerialConsistency (o : t) : jsval :=
  ifUndefined3 (serialConsistency (query o)) (p_serialConsistency (o_profile o)) (serialConsistency (defaults o)).
Definition getTimestamp (o : t) : timestamp_option := timestamp (query o).

Definition setCustomPayload (payload : option (list (jsstr * jsval))) (o : t) : t :=
  mk (rustWrapper o) (query o) (routingKey o) (hints o) (o_keyspace o) (routingIndexes o) (o_pageState o)
     (o_client o) (o_profile o) payload.
Definition setHints (h : hint_lists) (o : t) : t :=
  mk (rustWrapper o) (query o) (routingKey o) h (o_keyspace o) (routingIndexes o) (o_pageState o)
     (o_client o) (o_profile o) (o_customPayload o).
Definition setKeyspace (ks : jsval) (o : t) : t :=
  mk (rustWrapper o) (query o) (routingKey o) (hints o) ks (routingIndexes o) (o_pageState o)
     (o_client o) (o_profile o) (o_customPayload o).
Definition setPageState (ps : jsval) (o : t) : t :=
  mk (rustWrapper o) (query o) (routingKey o) (hints o) (o_keyspace o) (routingIndexes o) ps
     (o_client o) (o_profile o) (o_customPayload o).
Definition setRoutingIndexes (v : jsval) (o : t) : t :=
  mk (rustWrapper o) (query o) (routingKey o) (hints o) (o_keyspace o) v (o_pageState o)
     (o_client o) (o_profile o) (o_customPayload o).
Definition setRoutingKey (v : jsval) (o : t) : t :=
  mk (rustWrapper o) (query o) v (hints o) (o_keyspace o) (routingIndexes o) (o_pageState o)
     (o_client o) (o_profile o) (o_customPayload o).

(** [queryOptionsIntoWrapper]; the object has no properties [counter], [keyspace],
    [logged] and [prepare], so that they read undefined. *)
Definition queryOptionsIntoWrapper (o : t) : rustOptions :=
  mkRust (isAutoPage o) (getCaptureStackTrace o) (getConsistency o) JUndefined (getFetchSize o) (isIdempotent_ o)
    JUndefined JUndefined JUndefined (getReadTimeout o) (getRoutingIndexes o) (getRoutingNames o)
    (getSerialConsistency o)
    (match getTimestamp o with
     | TUndefined => RUndefined
     | TNull => RNull
     | TStamp (SLong z) => RBigInt z
     | TStamp (SNumber z) => if z =? 0 then RNumber 0 else RBigInt z
     end)
    (isQueryTracing o).

Definition wrapOptionsIfNotWrappedYet (o : t) : t :=
  match rustWrapper o with
  | Some _ => o
  | None => mk (Some (queryOptionsIntoWrapper o)) (query o) (routingKey o) (hints o) (o_keyspace o)
              (routingIndexes o) (o_pageState o) (o_client o) (o_profile o) (o_customPayload o)
  end.

Definition getRustOptions (o : t) : option rustOptions * t :=
  let o := wrapOptionsIfNotWrappedYet o in (rustWrapper o, o).

End DefaultExecutionOptions.

(** ** Profiles *)

Section profiles.
Import ProfileManager.

(** A profile completed with the policy of the default profile. *)
Definition fill (lb : option policy) (p : profile) : profile := set_loadBalancing (or_else (loadBalancing p) lb) p.

Definition entries (i : nat) (ps : list profile) : list (jsstr * nat) := zip (name <$> ps) (seq i (length ps)).

Lemma complete_spec lb i ps m lbs :
  let '(ps', m', lbs') := complete lb i ps m lbs in
  ps' = fill lb <$> ps /\ m' = fold_left (fun m kv => set_prop (fst kv) (snd kv) m) (entries i ps) m /\
  (NoDup lbs -> NoDup lbs') /\ (forall x, x ∈ lbs' <-> x ∈ lbs \/ (x ∈ loadBalancing <$> ps')).
Proof.
  revert i m lbs. induction ps as [|p ps IH]; intros i m lbs; cbn [complete].
  { split_and!; [done..|]. intros x. cbn. set_solver. }
  change (set_loadBalancing (or_else (loadBalancing p) lb) p) with (fill lb p).
  set (lbs1 := if bool_decide (loadBalancing (fill lb p) ∈ lbs) then lbs else lbs ++ [loadBalancing (fill lb p)]).
  specialize (IH (S i) (set_prop (name p) i m) lbs1).
  destruct (complete lb (S i) ps (set_prop (name p) i m) lbs1) as [[ps' m'] lbs'].
  destruct IH as (-> & -> & Hnd & Hin). split_and!; [done|done| |].
  - intros Hl. apply Hnd. subst lbs1. case_bool_decide; [done|]. apply list.NoDup_app.
    split_and!; [done| |apply NoDup_singleton]. intros x Hx ->%list_elem_of_singleton. done.
  - intros x. rewrite Hin, fmap_cons, elem_of_cons. subst lbs1. case_bool_decide as Hlb.
    + split; [tauto|]. intros [?|[->|?]]; [by left|by left|by right].
    + rewrite elem_of_app, list_elem_of_singleton. tauto.
Qed.

Lemma position_Some {A} (f : A -> bool) l i : position f l = Some i -> exists x, l !! i = Some x /\ f x = true.
Proof.
  revert i. induction l as [|x l IH]; intros i Hi; [done|]. cbn in Hi. destruct (f x) eqn:Hf.
  - injection Hi as <-. by exists x.
  - apply fmap_Some in Hi as (j & Hj & ->). by apply IH.
Qed.

Lemma position_None {A} (f : A -> bool) l x : position f l = None -> x ∈ l -> f x = false.
Proof.
  induction l as [|y l IH]; intros Hn Hx; [by apply not_elem_of_nil in Hx|]. cbn in Hn. destruct (f y) eqn:Hf; [done|].
  apply fmap_None in Hn. apply elem_of_cons in Hx as [->|Hx]; [done|by apply IH].
Qed.

(** The profiles with the default one among them, before they are completed. *)
Definition with_default (ps : list profile) : list profile :=
  match position is_default ps with Some _ => ps | None => ps ++ [ExecutionProfile default_name] end.

Lemma with_default_names ps : NoDup (name <$> ps) -> proto ∉ name <$> ps ->
  NoDup (name <$> with_default ps) /\ (proto ∉ name <$> with_default ps) /\ (default_name ∈ name <$> with_default ps).
Proof.
  intros Hnd Hp. unfold with_default. destruct (position is_default ps) as [i|] eqn:Hi.
  - split_and!; [done|done|]. apply position_Some in Hi as (d & Hd & Hn). apply bool_decide_eq_true_1 in Hn.
    rewrite <- Hn. apply list_elem_of_fmap_2. by eapply list_elem_of_lookup_2.
  - rewrite fmap_app. change (name <$> [ExecutionProfile default_name]) with [default_name]. split_and!.
    + apply list.NoDup_app. split_and!; [done| |apply NoDup_singleton].
      intros x Hx ->%list_elem_of_singleton. apply list_elem_of_fmap in Hx as (p & E & Hpin).
      apply (position_None _ _ _ Hi) in Hpin. apply bool_decide_eq_false_1 in Hpin. by rewrite <- E in Hpin.
    + rewrite not_elem_of_app. split; [done|]. by apply (bool_decide_eq_true_1 (proto ∉ [default_name])).
    + apply elem_of_app. right. by left.
Qed.

(** The value of a profile in the manager: its own settings and the completed policies. *)
Definition completed_profile (ps : list profile) (plb pretry : option policy) (p : profile) : profile :=
  let dlb := or_else (head (List.filter is_default (with_default ps)) ≫= loadBalancing) plb in
  mkProfile (name p) (p_consistency p) (or_else (loadBalancing p) dlb) (p_readTimeout p)
    (if is_default p then or_else (p_retry p) pretry else p_retry p) (p_serialConsistency p).

Lemma lookup_entries ps i p : NoDup (name <$> ps) -> proto ∉ name <$> ps -> ps !! i = Some p ->
  lookup_prop (name p) (fold_left (fun m kv => set_prop (fst kv) (snd kv) m) (entries 0 ps) []) = Some i.
Proof.
  intros Hnd Hp Hi.
  assert (Hl : length (name <$> ps) = length (seq 0 (length ps))) by (by rewrite length_fmap, length_seq).
  assert (Hfst : fst <$> entries 0 ps = name <$> ps).
  { unfold entries. apply fst_zip. lia. }
  rewrite lookup_set_props by (by rewrite Hfst).
  assert (E : lookup_prop (name p) (rev (entries 0 ps)) = Some i); [|by rewrite E].
  apply lookup_prop_elem.
  - rewrite <- Permutation_rev. by rewrite Hfst.
  - rewrite <- Permutation_rev. apply list_elem_of_lookup. exists i. unfold entries. rewrite lookup_zip_with.
    rewrite list_lookup_fmap, Hi. cbn. rewrite lookup_seq_lt by (by eapply lookup_lt_Some). done.
Qed.

Lemma lookup_entries_none ps nm : proto ∉ name <$> ps -> nm ∉ name <$> ps ->
  lookup_prop nm (fold_left (fun m kv => set_prop (fst kv) (snd kv) m) (entries 0 ps) []) = None.
Proof.
  intros Hp Hn.
  assert (Hfst : fst <$> entries 0 ps = name <$> ps).
  { unfold entries. apply fst_zip. rewrite length_fmap, length_seq. lia. }
  rewrite lookup_set_props by (by rewrite Hfst).
  destruct (lookup_prop nm (rev (entries 0 ps))) as [i|] eqn:E; [|done]. exfalso. apply Hn. rewrite <- Hfst.
  rewrite (Permutation_rev (entries 0 ps)). apply lookup_prop_keys. by exists i.
Qed.

Lemma position_filter {A} (f : A -> bool) l i x :
  position f l = Some i -> l !! i = Some x -> head (List.filter f l) = Some x.
Proof.
  revert i. induction l as [|y l IH]; intros i Hi Hx; [done|]. cbn in *. destruct (f y) eqn:Hf.
  - injection Hi as <-. by injection Hx as <-.
  - apply fmap_Some in Hi as (j & Hj & ->). by apply (IH j).
Qed.

Lemma position_with_default ps : exists i d,
  position is_default (with_default ps) = Some i /\ with_default ps !! i = Some d /\ is_default d = true /\
  i = match position is_default ps with Some i => i | None => length ps end.
Proof.
  unfold with_default. destruct (position is_default ps) as [i|] eqn:Hi.
  - destruct (position_Some _ _ _ Hi) as (d & Hd & Hf). exists i, d. by rewrite Hi.
  - exists (length ps), (ExecutionProfile default_name). split_and!; [|by rewrite list_lookup_middle|done|done].
    clear -Hi. induction ps as [|p ps IH]; [done|]. cbn in *. destruct (is_default p); [done|].
    apply fmap_None in Hi. by rewrite (IH Hi).
Qed.

(** At most one profile is the default one when the names differ. *)
Lemma default_unique ps i j d p : NoDup (name <$> ps) -> ps !! i = Some d -> ps !! j = Some p ->
  is_default d = true -> is_default p = true -> i = j.
Proof.
  intros Hnd Hi Hj Hd Hp. apply bool_decide_eq_true_1 in Hd, Hp.
  apply (NoDup_lookup (name <$> ps) i j default_name Hnd); rewrite list_lookup_fmap;
    [rewrite Hi|rewrite Hj]; apply (f_equal Some); done.
Qed.

Lemma manager_profiles ps plb pretry : NoDup (name <$> ps) -> proto ∉ name <$> ps ->
  let pm := constructor ps plb pretry in
  profiles pm = completed_profile ps plb pretry <$> with_default ps /\
  profilesMap pm = fold_left (fun m kv => set_prop (fst kv) (snd kv) m) (entries 0 (with_default ps)) [] /\
  position is_default (with_default ps) = Some (defaultProfile pm) /\
  NoDup (loadBalancingPolicies pm) /\
  forall x, x ∈ loadBalancingPolicies pm <-> x ∈ loadBalancing <$> profiles pm.
Proof.
  intros Hnd Hp pm. subst pm. unfold constructor, setAndGetDefault.
  destruct (position_with_default ps) as (i & d & Hpos & Hd & Hdd & Hi).
  destruct (with_default_names ps Hnd Hp) as (Hnd' & _ & _).
  assert (Hw : (match position is_default ps with
    | Some i => (ps, i) | None => (ps ++ [ExecutionProfile default_name], length ps) end) = (with_default ps, i)).
  { subst i. unfold with_default. clear. destruct (position is_default ps); reflexivity. }
  rewrite Hw. set (upd := fun p : profile => set_retry _ _). set (ps1 := alter upd i (with_default ps)).
  assert (Hd1 : ps1 !! i = Some (upd d)) by (unfold ps1; by rewrite list_lookup_alter_eq, Hd).
  rewrite Hd1. cbn [mbind option_bind].
  pose proof (complete_spec (loadBalancing (upd d)) 0 ps1 [] []) as Hc.
  destruct (complete (loadBalancing (upd d)) 0 ps1 [] []) as [[ps' m'] lbs'].
  cbn [profiles profilesMap defaultProfile loadBalancingPolicies].
  destruct Hc as (-> & -> & Hn & Hin). split_and!; [| |done|apply Hn; constructor|].
  - apply list_eq. intros j. rewrite !list_lookup_fmap. unfold ps1.
    assert (Hhd : head (List.filter is_default (with_default ps)) = Some d) by (by eapply position_filter).
    destruct (decide (i = j)) as [<-|Hne].
    + rewrite list_lookup_alter_eq, Hd. cbn. f_equal. unfold completed_profile, fill, upd, set_retry, set_loadBalancing.
      rewrite Hhd, Hdd. cbn. by destruct (loadBalancing d), plb.
    + rewrite list_lookup_alter_ne by done. destruct (with_default ps !! j) as [p|] eqn:Hj; [|done]. cbn. f_equal.
      assert (Hpd : is_default p = false).
      { destruct (is_default p) eqn:E; [|done]. destruct Hne. by eapply (default_unique (with_default ps)). }
      unfold completed_profile, fill, upd, set_retry, set_loadBalancing. rewrite Hhd, Hpd. done.
  - f_equal. unfold entries. unfold ps1. rewrite length_alter. f_equal.
    apply list_eq. intros j. rewrite !list_lookup_fmap. destruct (decide (i = j)) as [<-|Hne].
    + by rewrite list_lookup_alter_eq, Hd.
    + by rewrite list_lookup_alter_ne.
  - intros x. rewrite Hin. split; [intros [Hx|Hx]; [by apply not_elem_of_nil in Hx|done]|by right].
Qed.

End profiles.

(** Execution profiles, with distinct names none of which is __proto__: without a name
    the default profile is returned, which is the first one named default or a new one;
    a name gives the profile of that name; the profile has the settings it was created
    with, the load balancing policy of the default profile or of the client when it has
    none, and the default profile the retry policy of the client when it has none; an
    unknown name gives nothing; the policies to initialise are those of the profiles, each
    once. *)
Theorem profiles_complete ps plb pretry :
  NoDup (name <$> ps) -> proto ∉ name <$> ps ->
  let pm := ProfileManager.constructor ps plb pretry in
  (forall p, p ∈ with_default ps -> name p <> [] ->
     ProfileManager.getProfile pm (PName (name p)) = Some (completed_profile ps plb pretry p)) /\
  (exists d, d ∈ with_default ps /\ name d = default_name /\
     ProfileManager.getProfile pm PUndefined = Some (completed_profile ps plb pretry d) /\
     ProfileManager.getDefault pm = Some (completed_profile ps plb pretry d)) /\
  (forall nm, nm <> [] -> nm ∉ name <$> with_default ps -> ProfileManager.getProfile pm (PName nm) = None) /\
  NoDup (ProfileManager.loadBalancingPolicies pm) /\
  (forall x, x ∈ ProfileManager.loadBalancingPolicies pm <-> x ∈ loadBalancing <$> ProfileManager.profiles pm).
Proof.
  intros Hnd Hp pm. destruct (manager_profiles ps plb pretry Hnd Hp) as (Hps & Hm & Hpos & Hl & Hin).
  destruct (with_default_names ps Hnd Hp) as (Hnd' & Hp' & _).
  assert (Hget : forall i p, with_default ps !! i = Some p ->
    lookup_prop (name p) (ProfileManager.profilesMap pm) ≫= (fun i => ProfileManager.profiles pm !! i)
    = Some (completed_profile ps plb pretry p)).
  { intros i p Hi. subst pm. rewrite Hm, (lookup_entries _ i p Hnd' Hp' Hi). cbn [mbind option_bind].
    by rewrite Hps, list_lookup_fmap, Hi. }
  split_and!; [| | |done|done].
  - intros p [i Hi]%list_elem_of_lookup Hne. pose proof (Hget i p Hi) as Hg.
    destruct (name p) as [|c nm]; [done|exact Hg].
  - destruct (position_Some _ _ _ Hpos) as (d & Hd & Hf). apply bool_decide_eq_true_1 in Hf. exists d. split_and!.
    + by eapply list_elem_of_lookup_2.
    + done.
    + cbn [ProfileManager.getProfile]. rewrite <- Hf. by apply (Hget (ProfileManager.defaultProfile pm)).
    + unfold ProfileManager.getDefault. subst pm. by rewrite Hps, list_lookup_fmap, Hd.
  - intros nm Hne Hni. unfold ProfileManager.getProfile. destruct nm as [|c nm]; [done|].
    subst pm. by rewrite Hm, lookup_entries_none.
Qed.

Definition sample_profiles : list profile :=
  [mkProfile (js "fast") (JNumber (num_of_Z 1)) None JUndefined None JUndefined].

Lemma profiles_complete_witness :
  ProfileManager.getProfile (ProfileManager.constructor sample_profiles (Some 7%nat) (Some 8%nat)) (PName (js "fast"))
  = Some (mkProfile (js "fast") (JNumber (num_of_Z 1)) (Some 7%nat) JUndefined None JUndefined).
Proof.
  destruct (profiles_complete sample_profiles (Some 7%nat) (Some 8%nat)) as (Hget & _).
  - by apply (bool_decide_eq_true_1 (NoDup [js "fast"])).
  - by apply (bool_decide_eq_true_1 (proto ∉ [js "fast"])).
  - etransitivity; [|apply (Hget (mkProfile (js "fast") (JNumber (num_of_Z 1)) None JUndefined None JUndefined))];
      [reflexivity|by left|done].
Defined.

(** ** Settings *)

Section settings.
Import DefaultExecutionOptions.

(** The first value that is defined. *)
Fixpoint first_defined (l : list jsval) : jsval :=
  match l with
  | [] => JUndefined
  | JUndefined :: l => first_defined l
  | v :: _ => v
  end.

Lemma ifUndefined_first v1 v2 : ifUndefined v1 v2 = first_defined [v1; v2].
Proof. destruct v1; try done. by destruct v2. Qed.

Lemma ifUndefined3_first v1 v2 v3 : ifUndefined3 v1 v2 v3 = first_defined [v1; v2; v3].
Proof. destruct v1; try done. destruct v2; try done. by destruct v3. Qed.

(** The settings that are changed after the creation of the options. *)
Inductive change : Type :=
| ChangePayload (payload : option (list (jsstr * jsval)))
| ChangeHints (h : hint_lists)
| ChangeKeyspace (ks : jsval)
| ChangePageState (ps : jsval)
| ChangeRoutingIndexes (v : jsval)
| ChangeRoutingKey (v : jsval).

Definition apply_change (o : t) (c : change) : t :=
  match c with
  | ChangePayload p => setCustomPayload p o
  | ChangeHints h => setHints h o
  | ChangeKeyspace ks => setKeyspace ks o
  | ChangePageState ps => setPageState ps o
  | ChangeRoutingIndexes v => setRoutingIndexes v o
  | ChangeRoutingKey v => setRoutingKey v o
  end.

(** The settings of an execution with the options [q], the profile [p] and the client
    [c]. *)
Definition effective (q : queryOptions) (p : profile) (c : client) : rustOptions :=
  let d := defaultQueryOptions c in
  mkRust (first_defined [autoPage q; autoPage d])
    (first_defined [captureStackTrace q; captureStackTrace d])
    (first_defined [consistency q; p_consistency p; consistency d])
    JUndefined
    (first_defined [fetchSize q; fetchSize d])
    (first_defined [isIdempotent q; isIdempotent d])
    JUndefined JUndefined JUndefined
    (first_defined [readTimeout q; p_readTimeout p; socket_readTimeout c])
    (q_routingIndexes q) (q_routingNames q)
    (first_defined [serialConsistency q; p_serialConsistency p; serialConsistency d])
    (match timestamp q with
     | TUndefined => RUndefined
     | TNull => RNull
     | TStamp (SNumber 0) => RNumber 0
     | TStamp s => RBigInt (stamp_value s)
     end)
    (first_defined [traceQuery q; traceQuery d]).

Lemma wrapper_effective q c o : constructor q c = Ok o ->
  exists p, ProfileManager.getProfile (profileManager c) (executionProfile q) = Some p /\
            queryOptionsIntoWrapper o = effective q p c /\ rustWrapper o = None.
Proof.
  unfold constructor. destruct (ProfileManager.getProfile _ _) as [p|]; [|done]. intros [= <-]. exists p.
  split_and!; [done| |done]. unfold queryOptionsIntoWrapper, effective. rewrite <- !ifUndefined_first, <- !ifUndefined3_first.
  unfold isAutoPage, getCaptureStackTrace, getConsistency, getFetchSize, isIdempotent_, getReadTimeout,
    getSerialConsistency, isQueryTracing, getTimestamp, defaults. cbn [query o_profile o_client getRoutingIndexes routingIndexes getRoutingNames].
  f_equal. destruct (timestamp q) as [| |[z|z]]; [done|done| |done]. by destruct z.
Qed.

Lemma changes_keep_wrapper cs o w : rustWrapper o = Some w -> rustWrapper (fold_left apply_change cs o) = Some w.
Proof. revert o. induction cs as [|c cs IH]; intros o Hw; [done|]. cbn. apply IH. by destruct c. Qed.

End settings.

(** C28. The settings of an execution that reach the Rust layer: the profile named by the
    options or, without one, the default profile; for every setting the first value
    defined in the order query options, profile, client; a timestamp as a BigInt (a Number
    0 stays a Number); the options [counter], [keyspace], [logged] and [prepare] are never
    passed on.  The settings are computed once: changes made to the options after that
    have no effect on them.  Without the profile, an ArgumentError. *)
Theorem effective_settings q c :
  match DefaultExecutionOptions.create q c with
  | Err err => err = ArgumentError "Execution profile not found" /\
      ProfileManager.getProfile (profileManager c) (executionProfile (default emptyObject q)) = None
  | Ok o =>
      exists p, ProfileManager.getProfile (profileManager c) (executionProfile (default emptyObject q)) = Some p /\
        let '(w, o') := DefaultExecutionOptions.getRustOptions o in
        w = Some (effective (default emptyObject q) p c) /\
        forall cs, fst (DefaultExecutionOptions.getRustOptions (fold_left apply_change cs o')) = w
  end.
Proof.
  unfold DefaultExecutionOptions.create. destruct (DefaultExecutionOptions.constructor _ c) as [o|err] eqn:Hc.
  - destruct (wrapper_effective _ _ _ Hc) as (p & Hp & Hw & Hn). exists p. split; [done|].
    assert (Ho : DefaultExecutionOptions.rustWrapper (DefaultExecutionOptions.wrapOptionsIfNotWrappedYet o)
      = Some (effective (default emptyObject q) p c)).
    { unfold DefaultExecutionOptions.wrapOptionsIfNotWrappedYet. rewrite Hn, <- Hw. done. }
    unfold DefaultExecutionOptions.getRustOptions. rewrite Ho. split; [done|]. intros cs. cbn [fst].
    pose proof (changes_keep_wrapper cs _ _ Ho) as Hk.
    unfold DefaultExecutionOptions.wrapOptionsIfNotWrappedYet at 1. rewrite Hk. exact Hk.
  - unfold DefaultExecutionOptions.constructor in Hc. destruct (ProfileManager.getProfile _ _); [done|].
    by injection Hc as <-.
Qed.

(** The payload of an execution has every entry of the user's payload, and the user to
    execute as unless the payload names one. *)
Lemma custom_payload_entries q d payload k v :
  proto ∉ fst <$> payload -> NoDup (fst <$> payload) -> customPayload q = Some payload ->
  k <> DefaultExecutionOptions.proxyExecuteKey -> v <> JUndefined -> lookup_prop k payload = Some v ->
  exists l, DefaultExecutionOptions.createCustomPayload q d = Some l /\ lookup_prop k l = Some v.
Proof.
  intros Hp Hnd Hq Hk Hv Hl. unfold DefaultExecutionOptions.createCustomPayload. rewrite Hq. cbn [or_else].
  assert (He : lookup_prop k (extend [] [payload]) = Some v).
  { change (extend [] [payload]) with (extend_source [] payload). rewrite lookup_extend_source by done. apply lookup_prop_In in Hl.
    rewrite (lookup_prop_elem k v); [done| |].
    - rewrite <- Permutation_rev. clear -Hnd. induction payload as [|kv l IH]; [constructor|]. cbn in *.
      inversion Hnd as [|? ? Hni Hnd']; subst. destruct (match snd kv with JUndefined => false | _ => true end); [|by apply IH].
      cbn. constructor; [|by apply IH]. intros (kv' & E & Hin)%list_elem_of_fmap. apply Hni. rewrite E.
      apply list_elem_of_In, List.filter_In in Hin as [Hin _]. apply list_elem_of_fmap_2. by apply list_elem_of_In.
    - rewrite <- Permutation_rev. apply list_elem_of_In, List.filter_In. rewrite <- list_elem_of_In. split; [done|]. by destruct v. }
  destruct (match executeAs q with [] => executeAs d | s => s end) as [|c s]; [by exists payload|].
  destruct (truthy _); [by exists payload|]. eexists. split; [done|].
  rewrite lookup_set_prop by done. rewrite bool_decide_false by done. done.
Qed.
