(* ===== verification/Client.v ===== *)
(** * Client

    lib/client.ts: the execution of queries and batches, the iteration over rows and the
    connection; [isNamedParameters] and [PreparedInfo] of lib/new-utils.ts and
    [PreparedCache] of lib/cache.js.

    The session of the Rust layer is a record of operations on a world of its own.  An
    asynchronous function is its sequence of effects on that world; a rejected promise is
    an error.  The connection is a transition system, since its calls interleave.

    The theorems: the buffers sent for a prepared statement decode to the values the user
    gave, by position or by name (to null for an empty list or set); a batch prepares every
    statement once and sends the statements in order with their encoded parameters; the rows of all pages are delivered in order; a page state
    resumes at the page it names; at most one session is created at a time and every call
    of [connect] is answered. *)

From stdpp Require Import relations.
From S2P Require Import Prelude JsNumber Buffer JsString Utf8 CqlTypes JsValue Encoder EncoderScalars EncoderProofs.
From S2P Require Import Results LongArith Timestamps Collections ExecutionOptions.

(** ** Statements and parameters *)

(** What is given as the parameters of a request: see [requestParams], or a primitive. *)
Inductive argParams : Type :=
| Params (p : requestParams)
| Primitive.

Record preparedInfo : Type := mkPrepared {
  types : list columnInfo;
  statement : jsstr;
  boundParamNames : list jsstr }.

Inductive queryArg : Type :=
| QueryString (query : jsstr)
| QueryPrepared (prepared : preparedInfo)
| QueryOther.

(** The page state of an execution: undefined for an unpaged one, null for the first
    page. *)
Inductive pageArg : Type :=
| PageUndefined
| PageNull
| PageWrapper (state : bytes)
| PageBuffer (state : bytes).

Definition isNamedParameters (params : argParams) (o : DefaultExecutionOptions.t) : result bool :=
  match params with
  | Params NoParams | Params (ArrayParams _) => Ok false
  | Primitive => Err (ArgumentError "Parameters must be either an array, or named object")
  | Params (ObjectParams _) =>
      if truthy (DefaultExecutionOptions.isPrepared o) then Ok true
      else Err (ArgumentError "Named parameters for simple statements are not supported, use prepare flag")
  end.

Definition normalizePagingState (pageState : pageArg) (o : DefaultExecutionOptions.t) : result (option bytes) :=
  match pageState with
  | PageUndefined => Ok None
  | PageWrapper b => Ok (Some b)
  | PageBuffer b => Ok (Some b)
  | PageNull =>
      match DefaultExecutionOptions.getPageState o with
      | JUndefined | JNull => Ok None
      | JBuffer b => Ok (Some b)
      | JString s => Ok (Some (hex_decode s))
      | _ => Err (TypeError "Invalid paging state")
      end
  end.

(** ** PreparedCache *)

Module PreparedCache.
Definition t : Type := list (jsstr * preparedInfo).
Definition constructor : t := [].
Definition getElement (c : t) (key : jsstr) : option preparedInfo := lookup_prop key c.
Definition storeElement (c : t) (key : jsstr) (element : preparedInfo) : t := set_prop key element c.
End PreparedCache.

(** ** The session of the Rust layer *)

(** A page: the state of the next page if any, the result, and the function that fetches
    a page of the same execution. *)
Record pageResult : Type := mkPage {
  page_state : option bytes;
  page_wrapper_ : resultWrapper;
  page_executor : bytes -> result (option bytes * resultWrapper) }.

Record session (W : Type) : Type := mkSession {
  s_connect : W -> result unit * W;
  s_prepareStatement : jsstr -> W -> result (list (complexType * jsstr)) * W;
  s_executeSinglePage : jsstr -> list encoded -> rustOptions -> option bytes -> W -> result pageResult * W;
  s_executePreparedUnpaged : jsstr -> list encoded -> rustOptions -> W -> result resultWrapper * W;
  s_querySinglePage : jsstr -> list encoded -> rustOptions -> option bytes -> W -> result pageResult * W;
  s_queryUnpaged : jsstr -> list encoded -> rustOptions -> W -> result resultWrapper * W;
  s_batch : list jsstr -> rustOptions -> list (list encoded) -> W -> result resultWrapper * W }.
Arguments s_connect {W}.
Arguments s_prepareStatement {W}.
Arguments s_executeSinglePage {W}.
Arguments s_executePreparedUnpaged {W}.
Arguments s_querySinglePage {W}.
Arguments s_queryUnpaged {W}.
Arguments s_batch {W}.

(** An asynchronous function: its effect on the world and its result. *)
Definition M (W A : Type) : Type := W -> result A * W.

Definition m_bind {W A B} (m : M W A) (k : A -> M W B) : M W B := fun w =>
  match m w with (Ok a, w) => k a w | (Err x, w) => (Err x, w) end.

Definition m_lift {W A} (r : result A) : M W A := fun w => (r, w).

Declare Scope m_scope.
Delimit Scope m_scope with M.
Notation "'let!' x ':=' m 'in' k" := (m_bind m (fun x => k))
  (at level 10, x name, m at level 200, k at level 200) : m_scope.

(** ** Execution *)

Section execution.
Context `{Host} {W : Type}.
Variable rust : session W.
Variable e : encoder.
Open Scope m_scope.

(** [prepareStatement] *)
Definition prepareStatement (stmt : jsstr) : M W preparedInfo :=
  let! expectedTypes := s_prepareStatement rust stmt in
  let! types := m_lift (traverse (fun t => convertComplexType (fst t)) expectedTypes) in
  m_lift (Ok (mkPrepared types stmt ((fun t => toLowerCase (snd t)) <$> expectedTypes))).

(** The values of the bound parameters, in order. *)
Definition unifiedParams (params : requestParams) (prepared : preparedInfo) : result (list jsval) :=
  match params with
  | NoParams => not_object
  | ArrayParams l => Ok l
  | ObjectParams fields => adaptNamedParamsPrepared fields (boundParamNames prepared)
  end.

(** An unpaged result has no page state and no executor. *)
Definition unpaged (w : resultWrapper) : pageResult := mkPage None w (fun _ => not_object).

Definition rustyExecutePrepared (query : queryArg) (params : requestParams) (opts : rustOptions) (paged : bool)
    (pageState : option bytes) : M W pageResult :=
  let! prepared := match query with
              | QueryString s => prepareStatement s
              | QueryPrepared p => m_lift (Ok p)
              | QueryOther => m_lift (Err (TypeError "Invalid type for query"))
              end in
  let! values := m_lift (unifiedParams params prepared) in
  let! encoded := m_lift (encodeParams e (Some <$> types prepared) (Some values)) in
  if paged then s_executeSinglePage rust (statement prepared) encoded opts pageState
  else let! w := s_executePreparedUnpaged rust (statement prepared) encoded opts in m_lift (Ok (unpaged w)).

Definition rustyExecuteUnprepared (query : queryArg) (params : list jsval) (o : DefaultExecutionOptions.t)
    (opts : rustOptions) (paged : bool) (pageState : option bytes) : M W pageResult :=
  match query with
  | QueryString s =>
      let! hints := m_lift (match DefaultExecutionOptions.getHints o with
                       | BatchHints (_ :: _) => Err (TypeError "For single statements expected 1D array of hints")
                       | BatchHints [] | NoHints => Ok []
                       | Hints l => Ok l
                       end) in
      let! encoded := m_lift (encodeParams e hints (Some params)) in
      if paged then s_querySinglePage rust s encoded opts pageState
      else let! w := s_queryUnpaged rust s encoded opts in m_lift (Ok (unpaged w))
  | _ => m_lift (Err (PlainError "Expected to obtain a string query"))
  end.

(** [params || []] *)
Definition or_empty (params : argParams) : argParams :=
  match params with Params NoParams => Params (ArrayParams []) | _ => params end.

(** The result set made of a page. *)
Definition result_of_page (p : pageResult) : result ResultSet.t :=
  rs ← ResultSet.constructor e (page_wrapper_ p) (page_state p);
  Ok (match page_state p with
      | Some _ => ResultSet.mk (ResultSet.rows rs) (ResultSet.rowLength rs) (ResultSet.pageState rs)
                    (ResultSet.rawPageState rs) (Some (page_executor p))
      | None => rs
      end).

(** [execOptions.getRustOptions()] *)
Definition rust_options (o : DefaultExecutionOptions.t) : rustOptions :=
  default (DefaultExecutionOptions.queryOptionsIntoWrapper o) (fst (DefaultExecutionOptions.getRustOptions o)).

(** [rustyExecute]; [connected] tells whether the client is. *)
Definition rustyExecute (connected : bool) (query : queryArg) (params : argParams) (o : DefaultExecutionOptions.t)
    (pageState : pageArg) : M W ResultSet.t :=
  let paged := match pageState with PageUndefined => false | _ => true end in
  let! state := m_lift (normalizePagingState pageState o) in
  let! named := m_lift (isNamedParameters params o) in
  let! connection := (if connected then m_lift (Ok tt) else s_connect rust) in
  let rustOpts := rust_options o in
  let! p := (if truthy (DefaultExecutionOptions.isPrepared o) then
          match params with
          | Params ps => rustyExecutePrepared query ps rustOpts paged state
          | Primitive => m_lift not_object
          end
        else
          match params with
          | Params (ArrayParams l) => rustyExecuteUnprepared query l o rustOpts paged state
          | _ => m_lift (Err (PlainError "AssertionError"))
          end) in
  m_lift (result_of_page p).

(** The options given to a method: those of a query, absent or not, or an instance. *)
Inductive optionsArg : Type :=
| QueryOptions (q : option queryOptions)
| ExecutionOptionsArg (o : DefaultExecutionOptions.t).

Definition createOptions (c : client) (a : optionsArg) : result DefaultExecutionOptions.t :=
  match a with
  | ExecutionOptionsArg o => Ok (DefaultExecutionOptions.wrapOptionsIfNotWrappedYet o)
  | QueryOptions q =>
      fullOptions ← DefaultExecutionOptions.create q c;
      Ok (DefaultExecutionOptions.wrapOptionsIfNotWrappedYet fullOptions)
  end.

(** [execute], as a promise; a callback gets the same result *)
Definition execute (c : client) (connected : bool) (query : jsstr) (params : argParams) (options : optionsArg)
    : M W ResultSet.t :=
  let! o := m_lift (createOptions c options) in
  rustyExecute connected (QueryString query) (or_empty params) o
    (if truthy (DefaultExecutionOptions.isPaged o) then PageNull else PageUndefined).

(** ** Batches *)

(** An element of the array: a falsy value, a string, or an object with a query. *)
Inductive batchItem : Type :=
| BatchFalsy
| BatchString (query : jsstr)
| BatchObject (query : jsstr) (params : argParams).

Definition item_query (i : batchItem) : jsstr :=
  match i with BatchFalsy => [] | BatchString q | BatchObject q _ => q end.

Definition item_params (i : batchItem) : argParams :=
  match i with BatchObject _ p => or_empty p | _ => Params (ArrayParams []) end.

(** [hints[i] || []]; a hint that is no list gives no types. *)
Definition batch_hints (hints : hint_lists) (i : nat) : list (option columnInfo) :=
  match hints with BatchHints l => default [] (l !! i) | _ => [] end.

(** One iteration of the loop: the statement, the encoded parameters and the cache. *)
Definition batch_item (o : DefaultExecutionOptions.t) (i : nat) (item : batchItem) (cache : PreparedCache.t)
    : M W (jsstr * list encoded * PreparedCache.t) :=
  match item_query item with
  | [] => m_lift (Err (ArgumentError "Invalid query"))
  | stmt =>
      let! named := m_lift (isNamedParameters (item_params item) o) in
      if truthy (DefaultExecutionOptions.isPrepared o) then
        let! pc := (match PreparedCache.getElement cache stmt with
               | Some p => m_lift (Ok (p, cache))
               | None => let! p := prepareStatement stmt in m_lift (Ok (p, PreparedCache.storeElement cache stmt p))
               end) in
        let! cleanParams := m_lift (match item_params item with
                               | Params ps => unifiedParams ps (fst pc)
                               | Primitive => not_object
                               end) in
        let! encoded := m_lift (encodeParams e (Some <$> types (fst pc)) (Some cleanParams)) in
        m_lift (Ok (statement (fst pc), encoded, snd pc))
      else
        match item_params item with
        | Params (ArrayParams l) =>
            let! encoded := m_lift (encodeParams e (batch_hints (DefaultExecutionOptions.getHints o) i) (Some l)) in
            m_lift (Ok (stmt, encoded, cache))
        | _ => m_lift (Err (PlainError "AssertionError"))
        end
  end.

Fixpoint batch_loop (o : DefaultExecutionOptions.t) (i : nat) (queries : list batchItem) (cache : PreparedCache.t)
    : M W (list jsstr * list (list encoded)) :=
  match queries with
  | [] => m_lift (Ok ([], []))
  | item :: queries =>
      let! r := batch_item o i item cache in
      let! rest := batch_loop o (S i) queries (snd r) in
      m_lift (Ok (fst (fst r) :: fst rest, snd (fst r) :: snd rest))
  end.

(** [#rustyBatch]; none is something else than an array. *)
Definition rustyBatch (c : client) (connected : bool) (queries : option (list batchItem)) (options : optionsArg)
    : M W ResultSet.t :=
  match queries with
  | None => m_lift (Err (ArgumentError "Queries should be an Array"))
  | Some [] => m_lift (Err (ArgumentError "Queries array should not be empty"))
  | Some queries =>
      let! connection := (if connected then m_lift (Ok tt) else s_connect rust) in
      let! o := m_lift (createOptions c options) in
      let! all := batch_loop o 0 queries PreparedCache.constructor in
      let! w := s_batch rust (fst all) (rust_options o) (snd all) in
      m_lift (ResultSet.constructor e w None)
  end.

(** ** eachRow *)

(** The rows given to the row callback with their indexes, the last result, its total row
    length, and the page state from which [nextPage] continues in manual paging. *)
Record eachRow_result : Type := mkEachRow {
  er_rows : list (nat * Row.t);
  er_result : ResultSet.t;
  er_rowLength : nat;
  er_next : option bytes }.

(** The requests and [pageCallback]; [fuel] bounds the pages.  After the first page the
    client is connected. *)
Fixpoint eachRow_loop (fuel : nat) (connected : bool) (query : jsstr) (params : argParams)
    (o : DefaultExecutionOptions.t) (pagingState : pageArg) (rowLength : nat) : M W eachRow_result :=
  match fuel with
  | O => m_lift (Err (PlainError "fuel"))
  | S fuel =>
      let! result := rustyExecute connected (QueryString query) (or_empty params) o pagingState in
      let rowLength := (rowLength + ResultSet.rowLength result)%nat in
      let delivered := imap pair (default [] (ResultSet.rows result)) in
      match ResultSet.rawPageState result with
      | Some ps =>
          if truthy (DefaultExecutionOptions.isAutoPage o) then
            let! rest := eachRow_loop fuel true query params o (PageWrapper ps) rowLength in
            m_lift (Ok (mkEachRow (delivered ++ er_rows rest) (er_result rest) (er_rowLength rest) (er_next rest)))
          else m_lift (Ok (mkEachRow delivered result rowLength (Some ps)))
      | None => m_lift (Ok (mkEachRow delivered result rowLength None))
      end
  end.

Definition eachRow (fuel : nat) (c : client) (connected : bool) (query : jsstr) (params : argParams)
    (q : option queryOptions) : M W eachRow_result :=
  let! o := m_lift (DefaultExecutionOptions.create q c) in
  eachRow_loop fuel connected query params o PageNull 0.

End execution.

(** ** What is sent for a prepared statement *)

Section sent.
Context `{Host, !LongLaws}.
Variable e : encoder.

(** A buffer that stands for a value of a type: null for null, otherwise bytes that
    decode to the value. *)
Definition carries (t : columnInfo) (v : jsval) (b : encoded) : Prop :=
  (v = JNull /\ b = ENull) \/
  exists bs, b = EBuffer bs /\ (blen bs < 2 ^ 31 -> decode e (Some bs) t = Ok v).

(** A value [v] to bind that arrives as [w]: null, an empty list or set, which is sent as
    null, or a value of the type. *)
Definition bindable (t : columnInfo) (v w : jsval) : Prop := component (options e) (gives (options e)) t v w.

Lemma encode_carries t v w : bindable t v w -> ensures (encode e v (HType t)) (carries t w).
Proof.
  intros Hv. apply (component_encoded e) in Hv; [|apply gives_encodes]. destruct Hv as [[-> ->]|[_ Henc]]; [by left|].
  eapply ensures_mono; [|exact Henc]. intros r (b & -> & _ & _ & Hd). right. exists b. split; [done|]. intros Hb. by apply Hd.
Qed.

Lemma encodeParams_carries ts vs ws : Forall3 bindable ts vs ws ->
  ensures (encodeParams e (Some <$> ts) (Some vs)) (fun bs => Forall3 carries ts ws bs).
Proof.
  intros HF. unfold encodeParams.
  assert (Hl : ensures (encodeParams_loop e (Some <$> ts) vs) (fun bs => Forall3 carries ts ws bs)).
  { induction HF as [|t v w ts vs ws Hb HF IH]; [constructor|]. cbn [encodeParams_loop fmap list_fmap tail].
    pose proof (encode_carries t v w Hb) as Hc. destruct (encode e v (HType t)) as [b|x]; [|exact Hc].
    rewrite ok_bind. change (list_fmap _ _ Some ts) with (Some <$> ts).
    destruct (encodeParams_loop e (Some <$> ts) vs) as [bs|x]; [|exact IH]. rewrite ok_bind. by constructor. }
  by destruct ts.
Qed.

(** Named values that match the parameters of the statement, in their order. *)
Definition matches (fields : list (jsstr * jsval)) (names : list jsstr) (vs : list jsval) : Prop :=
  (proto ∉ fst <$> lowered fields) /\ NoDup (fst <$> lowered fields) /\
  Forall2 (fun nm v => exists key, toLowerCase key = toLowerCase nm /\ (key, v) ∈ fields) names vs.

Lemma adapt_matches fields names vs : matches fields names vs ->
  adaptNamedParamsPrepared fields (toLowerCase <$> names) = Ok vs.
Proof.
  intros (Hp & Hnd & HF). unfold adaptNamedParamsPrepared.
  induction HF as [|nm v names vs (key & Hk & Hin) HF IH]; [done|]. cbn [named_loop fmap list_fmap].
  rewrite lookup_toLowerCaseProperties by done.
  rewrite (lookup_prop_elem (toLowerCase nm) v).
  - change (list_fmap _ _ toLowerCase names) with (toLowerCase <$> names). by rewrite IH.
  - by rewrite <- (Permutation_rev (lowered fields)).
  - rewrite <- (Permutation_rev (lowered fields)). apply elem_lowered. by exists key.
Qed.

(** The parameters given for values: an array, or an object that names them. *)
Definition provides (params : requestParams) (names : list jsstr) (vs : list jsval) : Prop :=
  match params with
  | NoParams => False
  | ArrayParams l => l = vs
  | ObjectParams fields => matches fields names vs
  end.

Lemma traverse_zip_complex ts (names : list jsstr) : Forall described ts -> length names = length ts ->
  traverse (fun t => convertComplexType (fst t)) (zip (complex_of <$> ts) names) = Ok ts.
Proof.
  intros Hd. revert names. induction Hd as [|t ts Ht Hd IH]; intros [|nm names] Hl; try done.
  cbn. change (list_fmap _ _ complex_of ts) with (complex_of <$> ts). rewrite (convert_described t Ht).
  cbn in Hl. change (zip_with pair ?a ?b) with (zip a b). by rewrite IH by lia.
Qed.

Lemma prepare_described {W} (rust : session W) stmt ts names w w1 :
  Forall described ts -> length names = length ts ->
  s_prepareStatement rust stmt w = (Ok (zip (complex_of <$> ts) names), w1) ->
  prepareStatement rust stmt w = (Ok (mkPrepared ts stmt (toLowerCase <$> names)), w1).
Proof.
  intros Hd Hl Hp. unfold prepareStatement, m_bind. rewrite Hp. unfold m_lift.
  rewrite traverse_zip_complex by done. do 3 f_equal. clear -Hl. revert ts Hl.
  induction names as [|nm names IH]; intros [|t ts] Hl; try done. cbn in *. f_equal. apply IH. lia.
Qed.

Lemma unified_provides params names vs prepared :
  provides params names vs -> boundParamNames prepared = toLowerCase <$> names -> unifiedParams params prepared = Ok vs.
Proof. destruct params; [done|by intros ->|]. cbn. intros Hm ->. by apply adapt_matches. Qed.

(** The client is connected, or connecting it succeeds. *)
Definition connects {W} (rust : session W) (connected : bool) (w w0 : W) : Prop :=
  if connected then w0 = w else s_connect rust w = (Ok tt, w0).

(** The request for a prepared statement and what is made of its answer. *)
Definition sends_prepared {W} (rust : session W) (paged : bool) (stmt : jsstr) (bs : list encoded) (opts : rustOptions)
    (ps : option bytes) : M W ResultSet.t :=
  if paged then m_bind (s_executeSinglePage rust stmt bs opts ps) (fun p => m_lift (result_of_page e p))
  else m_bind (s_executePreparedUnpaged rust stmt bs opts) (fun r => m_lift (result_of_page e (unpaged r))).

End sent.

(** C2. Executing a prepared statement, from the user's values to the bytes sent.  The
    client is connected or connecting succeeds, the statement's parameters are described by
    the Rust layer, and there is a value for each of them, given as an array or by their
    names in any case and order: null, an empty list or set, or a value of the parameter's
    type.  Then [execute] asks the Rust layer for a page of this statement (for all rows
    when the execution is not paged) with one buffer for each parameter, in the order of the
    statement, that decodes to the value given, null for null and for an empty list or set,
    with the settings of the execution and its page state; the result is made of what it
    answers.  The only other outcome is an error about a value too long for its length
    field, with nothing sent. *)
Theorem execute_prepared_sends `{Host, !LongLaws} {W} (rust : session W) e c connected q o stmt ts names vs ws params ps w w0 w1 :
  createOptions c q = Ok o -> truthy (DefaultExecutionOptions.isPrepared o) = true ->
  normalizePagingState (if truthy (DefaultExecutionOptions.isPaged o) then PageNull else PageUndefined) o = Ok ps ->
  connects rust connected w w0 ->
  s_prepareStatement rust stmt w0 = (Ok (zip (complex_of <$> ts) names), w1) ->
  Forall described ts -> length names = length ts ->
  Forall3 (bindable e) ts vs ws -> provides params names vs ->
  (exists x, too_long x /\ execute rust e c connected stmt (Params params) q w = (Err x, w1)) \/
  (exists bs, Forall3 (carries e) ts ws bs /\
     execute rust e c connected stmt (Params params) q w
     = sends_prepared e rust (truthy (DefaultExecutionOptions.isPaged o)) stmt bs (rust_options o) ps w1).
Proof.
  intros Hc Hp Hps Hcon Hprep Hd Hl Hb Hg.
  assert (Hne : or_empty (Params params) = Params params) by (by destruct params).
  assert (Hnamed : exists b, isNamedParameters (Params params) o = Ok b).
  { destruct params; cbn; rewrite ?Hp; eauto. }
  destruct Hnamed as [b Hnamed]. pose proof (encodeParams_carries e ts vs ws Hb) as Henc.
  unfold execute, m_bind, m_lift. rewrite Hc, Hne. unfold rustyExecute, m_bind, m_lift. rewrite Hps, Hnamed, Hp.
  set (conn := if connected then _ else _).
  assert (conn w = (Ok tt, w0)) as -> by (subst conn; unfold connects in Hcon; destruct connected; [by subst|done]).
  unfold rustyExecutePrepared, sends_prepared, m_bind, m_lift.
  rewrite (prepare_described rust stmt ts names w0 w1 Hd Hl Hprep).
  rewrite (unified_provides params names vs (mkPrepared ts stmt (toLowerCase <$> names)) Hg eq_refl). cbn [types statement].
  destruct (encodeParams e (Some <$> ts) (Some vs)) as [bs|x]; [right; exists bs|left; by exists x].
  split; [done|]. destruct (truthy (DefaultExecutionOptions.isPaged o)).
  - by destruct (s_executeSinglePage rust stmt bs (rust_options o) ps w1) as [[p|x] w2].
  - by destruct (s_executePreparedUnpaged rust stmt bs (rust_options o) w1) as [[p|x] w2].
Qed.

(** A session for examples: a statement with an int and a text parameter; its world is
    the list of the buffers received. *)
Definition sample_types : list columnInfo := [simple dataTypes.int; simple dataTypes.text].

Definition empty_page : resultWrapper := mkWrapper None [] [].

Definition sample_session : session (list (list encoded)) :=
  mkSession _ (fun w => (Ok tt, w))
    (fun _ w => (Ok (zip (complex_of <$> sample_types) [js "id"; js "name"]), w))
    (fun _ bs _ _ w => (Ok (unpaged empty_page), w ++ [bs]))
    (fun _ bs _ w => (Ok empty_page, w ++ [bs]))
    (fun _ bs _ _ w => (Ok (unpaged empty_page), w ++ [bs]))
    (fun _ bs _ w => (Ok empty_page, w ++ [bs]))
    (fun _ _ rows w => (Ok empty_page, w ++ rows)).

(** The options of a client that prepares and pages by default. *)
Definition sample_defaults : queryOptions :=
  mkQuery JUndefined JUndefined JUndefined None [] PUndefined JUndefined NoHints JUndefined JUndefined JUndefined
    JUndefined JUndefined (JBool true) JUndefined (JBool true) JUndefined None JUndefined JUndefined JUndefined
    JUndefined TUndefined JUndefined.

Definition sample_client : client :=
  mkClient sample_defaults JUndefined None (ProfileManager.constructor [] None None).

Definition sample_fields : list (jsstr * jsval) := [(js "Name", JString (js "hi")); (js "ID", JNumber (num_of_Z 5))].

Lemma execute_prepared_sends_witness :
  exists bs, Forall3 (carries sample_encoder) sample_types [JNumber (num_of_Z 5); JString (js "hi")] bs /\
    snd (execute sample_session sample_encoder sample_client false (js "q") (Params (ObjectParams sample_fields))
           (QueryOptions None) []) = [bs].
Proof.
  destruct (createOptions sample_client (QueryOptions None)) as [o|x] eqn:Ho; [|vm_compute in Ho; discriminate].
  assert (Hp : truthy (DefaultExecutionOptions.isPrepared o) = true /\ truthy (DefaultExecutionOptions.isPaged o) = true /\
    normalizePagingState (if truthy (DefaultExecutionOptions.isPaged o) then PageNull else PageUndefined) o = Ok None).
  { cbn in Ho. injection Ho as <-. vm_compute. done. }
  destruct Hp as (Hp & Hpg & Hps).
  destruct (execute_prepared_sends sample_session sample_encoder sample_client false (QueryOptions None) o (js "q") sample_types
    [js "id"; js "name"] [JNumber (num_of_Z 5); JString (js "hi")] [JNumber (num_of_Z 5); JString (js "hi")]
    (ObjectParams sample_fields) None [] [] [] Ho Hp Hps) as [(x & _ & Hx)|(bs & Hbs & Hx)].
  - reflexivity.
  - reflexivity.
  - repeat constructor.
  - reflexivity.
  - apply Forall3_cons; [right; right; split; [left; apply sc_int; unfold int32; lia|done]|].
    apply Forall3_cons; [right; right; split; [left; by apply sc_text|done]|apply Forall3_nil].
  - split_and!.
    + by apply (bool_decide_eq_true_1 (proto ∉ [js "name"; js "id"])).
    + by apply (bool_decide_eq_true_1 (NoDup [js "name"; js "id"])).
    + apply Forall2_cons; [exists (js "ID"); split; [reflexivity|right; left]|].
      apply Forall2_cons; [exists (js "Name"); split; [reflexivity|left]|apply Forall2_nil].
  - vm_compute in Hx. discriminate.
  - exists bs. split; [exact Hbs|]. rewrite Hx, Hpg. reflexivity.
Defined.

(** ** Batches *)

(** The calls a batch makes: the statements prepared, what was answered for them, and the
    batches sent. *)
Record calls : Type := mkCalls {
  prepares : list jsstr;
  answers : list (jsstr * list (complexType * jsstr));
  batches : list (list jsstr * list (list encoded)) }.

Definition no_calls : calls := mkCalls [] [] [].

(** A call of [prepareStatement] with its answer. *)
Definition prepare_call (l : calls) (s : jsstr) (r : result (list (complexType * jsstr))) : calls :=
  mkCalls (prepares l ++ [s]) (answers l ++ match r with Ok a => [(s, a)] | Err _ => [] end) (batches l).

(** A session that records these calls. *)
Definition recording {W} (rust : session W) : session (calls * W) :=
  let keep {A} (m : W -> result A * W) : calls * W -> result A * (calls * W) :=
    fun lw => let '(r, w) := m (snd lw) in (r, (fst lw, w)) in
  mkSession _
    (keep (s_connect rust))
    (fun s lw => let '(r, w) := s_prepareStatement rust s (snd lw) in (r, (prepare_call (fst lw) s r, w)))
    (fun s bs o p => keep (s_executeSinglePage rust s bs o p))
    (fun s bs o => keep (s_executePreparedUnpaged rust s bs o))
    (fun s bs o p => keep (s_querySinglePage rust s bs o p))
    (fun s bs o => keep (s_queryUnpaged rust s bs o))
    (fun ss o rows lw => let '(r, w) := s_batch rust ss o rows (snd lw) in
                         (r, (mkCalls (prepares (fst lw)) (answers (fst lw)) (batches (fst lw) ++ [(ss, rows)]), w))).

(** The prepared statement that an answer describes. *)
Definition prepared_of (stmt : jsstr) (a : list (complexType * jsstr)) : result preparedInfo :=
  ts ← traverse (fun t => convertComplexType (fst t)) a;
  Ok (mkPrepared ts stmt ((fun t => toLowerCase (snd t)) <$> a)).

Section batch.
Context `{Host} {W : Type}.
Variable rust : session W.
Variable e : encoder.

(** The row of an element: its parameters encoded for the types answered for its statement,
    in the order of the statement, or by the hints of its position. *)
Definition row_of (o : DefaultExecutionOptions.t) (l : calls) (i : nat) (item : batchItem) (row : list encoded) : Prop :=
  if truthy (DefaultExecutionOptions.isPrepared o) then
    exists a p ps vs, (item_query item, a) ∈ answers l /\ prepared_of (item_query item) a = Ok p /\
      item_params item = Params ps /\ unifiedParams ps p = Ok vs /\ encodeParams e (Some <$> types p) (Some vs) = Ok row
  else
    exists vs, item_params item = Params (ArrayParams vs) /\
      encodeParams e (batch_hints (DefaultExecutionOptions.getHints o) i) (Some vs) = Ok row.

Lemma row_of_mono o l l' i item row : (forall a, a ∈ answers l -> a ∈ answers l') -> row_of o l i item row -> row_of o l' i item row.
Proof.
  intros Hsub. unfold row_of. destruct (truthy _); [|done]. intros (a & p & ps & vs & Ha & ?). exists a, p, ps, vs. auto.
Qed.

(** The cache holds the statements prepared so far, each as it was answered. *)
Record cache_inv (cache : PreparedCache.t) (l : calls) : Prop := {
  ci_keys : forall s, is_Some (lookup_prop s cache) <-> s ∈ prepares l;
  ci_statement : forall s p, lookup_prop s cache = Some p -> exists a, (s, a) ∈ answers l /\ prepared_of s a = Ok p;
  ci_nodup : NoDup (prepares l);
  ci_batches : batches l = [] }.

(** What an operation of the loop keeps of the calls. *)
Record extends (l l' : calls) (new : list jsstr) : Prop := {
  ex_nodup : NoDup (prepares l');
  ex_batches : batches l' = [];
  ex_prepares : forall s, s ∈ prepares l' -> s ∈ prepares l \/ s ∈ new;
  ex_answers : forall a, a ∈ answers l -> a ∈ answers l' }.

Lemma extends_refl cache l new : cache_inv cache l -> extends l l new.
Proof. intros [Hk Hs Hnd Hb]. split; auto. Qed.

Lemma prepareStatement_calls stmt l w r lw :
  prepareStatement (recording rust) stmt (l, w) = (r, lw) ->
  exists answer, fst lw = prepare_call l stmt answer /\ r = (a ← answer; prepared_of stmt a).
Proof.
  unfold prepareStatement, m_bind, m_lift. cbn. destruct (s_prepareStatement rust stmt w) as [[ts|x] w'].
  - intros E. exists (Ok ts). unfold prepared_of. rewrite ok_bind. destruct (traverse _ ts); injection E as <- <-; done.
  - intros [= <- <-]. by exists (Err x).
Qed.

Lemma prepare_extends cache l stmt r : cache_inv cache l -> lookup_prop stmt cache = None ->
  extends l (prepare_call l stmt r) [stmt].
Proof.
  intros [Hk Hs Hnd Hb] Hn. split; cbn [prepare_call prepares answers batches]; [|done| |].
  - apply list.NoDup_app. split_and!; [done| |apply NoDup_singleton]. intros x Hx ->%list_elem_of_singleton.
    apply Hk in Hx as [? ?]. congruence.
  - intros s. rewrite elem_of_app. tauto.
  - intros a. rewrite elem_of_app. tauto.
Qed.

Lemma store_inv cache l stmt a p : stmt <> proto -> cache_inv cache l -> lookup_prop stmt cache = None ->
  prepared_of stmt a = Ok p ->
  cache_inv (PreparedCache.storeElement cache stmt p) (prepare_call l stmt (Ok a)).
Proof.
  intros Hp Hinv Hn Hst. destruct (prepare_extends cache l stmt (Ok a) Hinv Hn) as [Hnd Hb _ _]. destruct Hinv as [Hk Hs _ _].
  unfold PreparedCache.storeElement. split; [| |done|done]; cbn [prepare_call prepares answers].
  - intros s. rewrite lookup_set_prop, elem_of_app, list_elem_of_singleton by done. case_bool_decide as E.
    + subst. split; [by right|eauto].
    + rewrite Hk. split; [by left|]. intros [?| ->]; done.
  - intros s p'. rewrite lookup_set_prop by done. case_bool_decide as E.
    + subst s. intros [= <-]. exists a. rewrite elem_of_app, list_elem_of_singleton. auto.
    + intros Hl. destruct (Hs s p' Hl) as (a' & ? & ?). exists a'. rewrite elem_of_app. auto.
Qed.

(** The statement of an element, from the cache or prepared. *)
Lemma cached_statement stmt cache l w r lw :
  stmt <> proto -> cache_inv cache l ->
  (match PreparedCache.getElement cache stmt with
   | Some p => m_lift (Ok (p, cache))
   | None => m_bind (prepareStatement (recording rust) stmt) (fun p => m_lift (Ok (p, PreparedCache.storeElement cache stmt p)))
   end) (l, w) = (r, lw) ->
  extends l (fst lw) [stmt] /\
  match r with
  | Ok (p, cache') => cache_inv cache' (fst lw) /\ exists a, (stmt, a) ∈ answers (fst lw) /\ prepared_of stmt a = Ok p
  | Err _ => True
  end.
Proof.
  intros Hp Hinv. unfold PreparedCache.getElement. destruct (lookup_prop stmt cache) as [p|] eqn:Hl.
  - intros [= <- <-]. split; [by eapply extends_refl|]. split; [done|]. by apply (ci_statement _ _ Hinv).
  - unfold m_bind. destruct (prepareStatement (recording rust) stmt (l, w)) as [r1 [l1 w1]] eqn:Hpr.
    destruct (prepareStatement_calls _ _ _ _ _ Hpr) as (answer & Hl1 & Hr1). cbn [fst] in Hl1.
    pose proof (prepare_extends cache l stmt answer Hinv Hl) as Hex. rewrite <- Hl1 in Hex.
    destruct r1 as [p|x]; intros [= <- <-]; (split; [exact Hex|]); [|done].
    destruct answer as [a|]; [|done]. rewrite ok_bind in Hr1. cbn [fst]. rewrite Hl1.
    split; [by apply store_inv|]. exists a. cbn. rewrite elem_of_app, list_elem_of_singleton. auto.
Qed.

(** What one element does to the calls and the cache. *)
Lemma batch_item_calls o i item cache l w r lw :
  item_query item <> proto -> cache_inv cache l ->
  batch_item (recording rust) e o i item cache (l, w) = (r, lw) ->
  extends l (fst lw) [item_query item] /\
  match r with
  | Ok (stmt, row, cache') => stmt = item_query item /\ row_of o (fst lw) i item row /\ cache_inv cache' (fst lw)
  | Err _ => True
  end.
Proof.
  intros Hp Hinv. unfold batch_item, row_of.
  pose proof (fun new => extends_refl cache l new Hinv) as Hrefl.
  destruct (item_query item) as [|ch stmt'] eqn:Hq; [intros [= <- <-]; auto|]. set (stmt := ch :: stmt') in *.
  unfold m_bind at 1, m_lift at 1. destruct (isNamedParameters (item_params item) o) as [b|x]; [|intros [= <- <-]; auto].
  destruct (truthy (DefaultExecutionOptions.isPrepared o)).
  - intros Hrun. unfold m_bind at 1 in Hrun. match type of Hrun with (match ?m with _ => _ end) = _ => destruct m as [r1 lw1] eqn:Hpc end.
    destruct (cached_statement _ _ _ _ _ _ Hp Hinv Hpc) as [Hex Hc]. unfold m_bind, m_lift in Hrun.
    destruct r1 as [[p cache']|x]; [|by injection Hrun as <- <-]. destruct Hc as [Hinv' (a & Ha & Hpa)]. cbn [fst snd] in Hrun.
    destruct (item_params item) as [ps|] eqn:Hps; [|by injection Hrun as <- <-].
    destruct (unifiedParams ps p) as [vs|] eqn:Hu; [|by injection Hrun as <- <-].
    destruct (encodeParams e _ _) as [row|] eqn:Henc; [|by injection Hrun as <- <-]. injection Hrun as <- <-.
    split; [done|]. split; [|split; [|done]].
    + unfold prepared_of in Hpa. apply bind_ok in Hpa as (ts & _ & [= <-]). done.
    + by exists a, p, ps, vs.
  - unfold m_bind, m_lift. destruct (item_params item) as [[|vs|fields]|]; try (intros [= <- <-]; by auto).
    destruct (encodeParams e _ _) as [row|] eqn:Henc; intros [= <- <-]; [|by auto]. split; [done|]. split; [done|]. split; [by exists vs|done].
Qed.

Lemma batch_loop_calls o i queries cache l w r lw :
  proto ∉ item_query <$> queries -> cache_inv cache l ->
  batch_loop (recording rust) e o i queries cache (l, w) = (r, lw) ->
  extends l (fst lw) (item_query <$> queries) /\
  match r with
  | Ok (stmts, rows) =>
      stmts = item_query <$> queries /\ length rows = length queries /\
      forall j item, queries !! j = Some item -> exists row, rows !! j = Some row /\ row_of o (fst lw) (i + j) item row
  | Err _ => True
  end.
Proof.
  revert i cache l w r lw. induction queries as [|item queries IH]; intros i cache l w r lw Hp Hinv Hrun.
  { cbn in Hrun. injection Hrun as <- <-. split; [by eapply extends_refl|]. by split_and!. }
  rewrite fmap_cons, not_elem_of_cons in Hp. destruct Hp as [Hp1 Hp2].
  cbn [batch_loop] in Hrun. unfold m_bind, m_lift in Hrun.
  destruct (batch_item (recording rust) e o i item cache (l, w)) as [r1 [l1 w1]] eqn:Hi.
  destruct (batch_item_calls _ _ _ _ _ _ _ _ (not_eq_sym Hp1) Hinv Hi) as ([Hn1 Hb1 Hs1 Ha1] & Hr1). cbn [fst snd] in *.
  destruct r1 as [[[stmt row] cache']|x].
  2: { injection Hrun as <- <-. split; [|done]. split; [done|done| |done]. cbn [fst]. intros s [?|Hs]%Hs1; [by left|right].
       apply list_elem_of_singleton in Hs as ->. by left. }
  destruct Hr1 as (-> & Hrow & Hinv'). cbn [fst snd] in Hrun.
  destruct (batch_loop (recording rust) e o (S i) queries cache' (l1, w1)) as [r2 lw2] eqn:Hl2.
  destruct (IH _ _ _ _ _ _ Hp2 Hinv' Hl2) as ([Hn2 Hb2 Hs2 Ha2] & Hr2).
  assert (Hex : extends l (fst lw2) (item_query <$> item :: queries)).
  { split; [done|done| |auto]. intros s Hsin. rewrite fmap_cons, elem_of_cons. apply Hs2 in Hsin as [Hsin|?]; [|by right; right].
    apply Hs1 in Hsin as [?|Hs]; [by left|right; left]. by apply list_elem_of_singleton in Hs. }
  destruct r2 as [[stmts rows]|x]; injection Hrun as <- <-; [|done]. destruct Hr2 as (-> & Hlen & Hrows). split; [done|].
  split_and!; [done|cbn; lia|]. intros [|j] it Hj; cbn in Hj.
  - injection Hj as <-. exists row. split; [done|]. rewrite Nat.add_0_r. by eapply row_of_mono.
  - rewrite Nat.add_succ_r. by apply Hrows.
Qed.

End batch.

(** C20. A batch, whatever the Rust layer answers: every statement is prepared at most once
    and only statements of the batch are prepared.  A batch is sent at most once, and only
    when the parameters of every query have been encoded: with the statements of the
    queries in their order and, for each, the row of its own parameters encoded for the
    types the Rust layer answered for its statement (for the hints of its position when
    statements are not prepared).  A batch that is not sent is an error. *)
Theorem batch_prepares_once `{Host} {W} (rust : session W) e c connected queries q w r l w' :
  proto ∉ item_query <$> queries ->
  rustyBatch (recording rust) e c connected (Some queries) q (no_calls, w) = (r, (l, w')) ->
  NoDup (prepares l) /\ (forall s, s ∈ prepares l -> s ∈ item_query <$> queries) /\
  match batches l with
  | [] => is_ok r = false
  | [(stmts, rows)] =>
      stmts = item_query <$> queries /\ length rows = length queries /\
      exists o, createOptions c q = Ok o /\
        forall i item, queries !! i = Some item -> exists row, rows !! i = Some row /\ row_of e o l i item row
  | _ => False
  end.
Proof.
  intros Hp Hrun. set (P := NoDup (prepares l) /\ _).
  assert (Hnone : forall x wx, (Err x, (no_calls, wx)) = (r, (l, w')) -> P).
  { intros x wx [= <- <- <-]. split_and!; [constructor| |done]. intros s Hs. by apply not_elem_of_nil in Hs. }
  destruct queries as [|item queries]; [by eapply Hnone|].
  cbn [rustyBatch] in Hrun. unfold m_bind, m_lift in Hrun.
  set (all := item :: queries) in *.
  set (conn := if connected then _ else _) in Hrun.
  assert (Hcon : exists rc wc, conn (no_calls, w) = (rc, (no_calls, wc))).
  { subst conn. destruct connected; [by eexists _, _|]. cbn. destruct (s_connect rust w) as [rc wc]. by exists rc, wc. }
  destruct Hcon as (rc & wc & Hcon). rewrite Hcon in Hrun.
  destruct rc as [[]|x]; [|by eapply Hnone]. destruct (createOptions c q) as [o|x] eqn:Ho; [|by eapply Hnone].
  destruct (batch_loop (recording rust) e o 0 all PreparedCache.constructor (no_calls, wc)) as [r1 [l1 w1]] eqn:Hl.
  assert (Hinv : cache_inv [] no_calls) by (split; [split; [by intros []|intros Hs; by apply not_elem_of_nil in Hs]|done|constructor|done]).
  destruct (batch_loop_calls rust e o 0 all _ _ _ _ _ Hp Hinv Hl) as ([Hn Hb Hs _] & Hr). cbn [fst] in *.
  assert (Hs' : forall s, s ∈ prepares l1 -> s ∈ item_query <$> all).
  { intros s [Hx|?]%Hs; [by apply not_elem_of_nil in Hx|done]. }
  destruct r1 as [[stmts rows]|x]; [|injection Hrun as <- <- <-; subst P; by rewrite Hb].
  cbn [recording s_batch fst snd] in Hrun. destruct (s_batch rust stmts (rust_options o) rows w1) as [r2 w2].
  assert (l = mkCalls (prepares l1) (answers l1) [(stmts, rows)]) as ->.
  { destruct r2; injection Hrun as <- <- <-; by rewrite Hb. }
  subst P. cbn [prepares batches]. destruct Hr as (-> & Hlen & Hrows). do 2 (split; [done|]). do 2 (split; [done|]). by exists o.
Qed.

Definition sample_batch : list batchItem :=
  [BatchObject (js "q") (Params (ObjectParams sample_fields)); BatchObject (js "q") (Params (ObjectParams sample_fields))].

Lemma batch_prepares_once_witness :
  exists r l w', rustyBatch (recording sample_session) sample_encoder sample_client true (Some sample_batch)
    (QueryOptions None) (no_calls, []) = (r, (l, w')) /\
    prepares l = [js "q"] /\ length (batches l) = 1%nat /\ NoDup (prepares l).
Proof.
  destruct (rustyBatch (recording sample_session) sample_encoder sample_client true (Some sample_batch)
    (QueryOptions None) (no_calls, [])) as [r [l w']] eqn:E.
  exists r, l, w'. split; [done|]. assert (prepares l = [js "q"] /\ length (batches l) = 1%nat) as [Hp Hb].
  { vm_compute in E. injection E as <- <- <-. by split. }
  split; [done|]. split; [done|].
  apply (batch_prepares_once sample_session sample_encoder sample_client true sample_batch (QueryOptions None) [] r l w'); [|exact E].
  by apply (bool_decide_eq_true_1 (proto ∉ [js "q"; js "q"])).
Defined.

(** ** Rows of all pages *)

Section each_row.
Context `{Host} {W : Type}.
Variable rust : session W.
Variable e : encoder.
Variable query : jsstr.
Variable params : argParams.
Variable o : DefaultExecutionOptions.t.

(** The pages of an execution, from one page on. *)
Inductive pages : bool -> pageArg -> W -> list ResultSet.t -> W -> Prop :=
| pages_last connected pg w rs w' :
    rustyExecute rust e connected (QueryString query) (or_empty params) o pg w = (Ok rs, w') ->
    ResultSet.rawPageState rs = None -> pages connected pg w [rs] w'
| pages_next connected pg w rs ps w' l w'' :
    rustyExecute rust e connected (QueryString query) (or_empty params) o pg w = (Ok rs, w') ->
    ResultSet.rawPageState rs = Some ps -> pages true (PageWrapper ps) w' l w'' ->
    pages connected pg w (rs :: l) w''.

(** The rows of a page with their indexes in it. *)
Definition page_rows (rs : ResultSet.t) : list (nat * Row.t) := imap pair (default [] (ResultSet.rows rs)).

Lemma result_rowLength p rs : result_of_page e p = Ok rs -> ResultSet.rowLength rs = length (page_rows rs).
Proof.
  unfold result_of_page, ResultSet.constructor, page_rows. rewrite length_imap.
  destruct (getRowsFromResultsWrapper e (page_wrapper_ p)) as [rows|x]; [|done]. rewrite !ok_bind.
  destruct (page_state p); intros [= <-]; cbn; by destruct rows.
Qed.

Lemma rustyExecute_rowLength connected pg w rs w' :
  rustyExecute rust e connected (QueryString query) (or_empty params) o pg w = (Ok rs, w') ->
  ResultSet.rowLength rs = length (page_rows rs).
Proof.
  unfold rustyExecute, m_bind, m_lift. destruct (normalizePagingState pg o) as [ps|]; [|done].
  destruct (isNamedParameters _ o) as [nm|]; [|done].
  set (conn := if connected then _ else _). destruct (conn w) as [[[]|] w1]; [|done].
  set (request := if truthy _ then _ else _). destruct (request w1) as [[p|] w2]; [|done]. intros [= Hp _]. by apply (result_rowLength p).
Qed.

Lemma eachRow_loop_pages connected pg w l w' n fuel :
  truthy (DefaultExecutionOptions.isAutoPage o) = true -> pages connected pg w l w' -> (length l <= fuel)%nat ->
  exists rs, list.last l = Some rs /\
    eachRow_loop rust e fuel connected query params o pg n w
    = (Ok (mkEachRow (mjoin (page_rows <$> l)) rs (n + length (mjoin (page_rows <$> l))) None), w').
Proof.
  intros Ha Hp. revert n fuel. induction Hp as [connected pg w rs w' Hx Hn|connected pg w rs ps w' l w'' Hx Hn Hp IH];
    intros n [|fuel] Hl; cbn in Hl; try lia; cbn [eachRow_loop]; unfold m_bind at 1; rewrite Hx.
  - exists rs. split; [done|]. rewrite Hn. cbn. rewrite app_nil_r. unfold m_lift.
    by rewrite (rustyExecute_rowLength _ _ _ _ _ Hx).
  - destruct (IH (n + ResultSet.rowLength rs)%nat fuel) as (rl & Hlast & Hloop); [lia|]. exists rl. split.
    { destruct l; [done|exact Hlast]. }
    rewrite Hn, Ha. unfold m_bind. rewrite Hloop. unfold m_lift. cbn [er_rows er_result er_rowLength er_next].
    cbn [fmap list_fmap mjoin list_join]. change (list_fmap _ _ page_rows l) with (page_rows <$> l).
    rewrite length_app, (rustyExecute_rowLength _ _ _ _ _ Hx), Nat.add_assoc. done.
Qed.

End each_row.

(** C22. [eachRow] with automatic paging gives the row callback every row of every page, in
    order, each with its index in its page, and then ends with the last page and the
    number of all rows; it makes one request for each page, the next one from the state
    the page names. *)
Theorem each_row_delivers `{Host} {W} (rust : session W) e c connected query params q o w l w' fuel :
  DefaultExecutionOptions.create q c = Ok o -> truthy (DefaultExecutionOptions.isAutoPage o) = true ->
  pages rust e query params o connected PageNull w l w' -> (length l <= fuel)%nat ->
  exists rs, list.last l = Some rs /\
    eachRow rust e fuel c connected query params q w
    = (Ok (mkEachRow (mjoin (page_rows <$> l)) rs (length (mjoin (page_rows <$> l))) None), w').
Proof.
  intros Hc Ha Hp Hl. unfold eachRow, m_bind, m_lift. rewrite Hc.
  by apply (eachRow_loop_pages rust e query params o connected PageNull w l w' 0 fuel).
Qed.

(** A session whose pages hold one row with an int each: the world counts the pages left. *)
Definition paged_session : session nat :=
  mkSession _ (fun w => (Ok tt, w)) (fun _ w => (Ok [], w))
    (fun _ _ _ _ w => (Ok (mkPage (match w with S _ => Some [Z.of_nat w] | O => None end) (int_page [Z.of_nat w]) (fun _ => not_object)), Nat.pred w))
    (fun _ _ _ w => (Ok empty_page, w))
    (fun _ _ _ _ w => (Ok (mkPage (match w with S _ => Some [Z.of_nat w] | O => None end) (int_page [Z.of_nat w]) (fun _ => not_object)), Nat.pred w))
    (fun _ _ _ w => (Ok empty_page, w))
    (fun _ _ _ w => (Ok empty_page, w)).

Definition auto_paging : queryOptions :=
  mkQuery (JBool true) JUndefined JUndefined None [] PUndefined JUndefined NoHints JUndefined JUndefined JUndefined
    JUndefined JUndefined JUndefined JUndefined JUndefined JUndefined None JUndefined JUndefined JUndefined
    JUndefined TUndefined JUndefined.

Lemma each_row_delivers_witness :
  exists rs, fst (eachRow paged_session sample_encoder 2 sample_client true (js "q") (Params NoParams) (Some auto_paging) 1%nat)
    = Ok (mkEachRow [(0%nat, int_row 1); (0%nat, int_row 0)] rs 2 None).
Proof.
  destruct (DefaultExecutionOptions.create (Some auto_paging) sample_client) as [o|x] eqn:Ho; [|vm_compute in Ho; discriminate].
  destruct (rustyExecute paged_session sample_encoder true (QueryString (js "q")) (or_empty (Params NoParams)) o PageNull 1%nat)
    as [[rs1|x] w1] eqn:E1; [|vm_compute in Ho; injection Ho as <-; vm_compute in E1; discriminate].
  destruct (rustyExecute paged_session sample_encoder true (QueryString (js "q")) (or_empty (Params NoParams)) o (PageWrapper [1]) w1)
    as [[rs2|x] w2] eqn:E2; [|vm_compute in Ho; injection Ho as <-; vm_compute in E1; injection E1 as <- <-; vm_compute in E2; discriminate].
  destruct (each_row_delivers paged_session sample_encoder sample_client true (js "q") (Params NoParams) (Some auto_paging) o
    1%nat [rs1; rs2] w2 2 Ho) as (rs & _ & Hrun).
  - vm_compute in Ho. injection Ho as <-. reflexivity.
  - eapply pages_next; [exact E1| |eapply pages_last; [exact E2|]];
      vm_compute in Ho; injection Ho as <-; vm_compute in E1; injection E1 as <- <-; [reflexivity|].
    vm_compute in E2. injection E2 as <- <-. reflexivity.
  - cbn. lia.
  - exists rs. rewrite Hrun. cbn [fst].
    vm_compute in Ho; injection Ho as <-; vm_compute in E1; injection E1 as <- <-; vm_compute in E2; injection E2 as <- <-.
    reflexivity.
Defined.

(** ** Page states *)

(** The page state of a result resumes the query after that page: the string
    [result.pageState], given as the [pageState] of the options of a new execution, reaches
    the Rust layer as the state the page was received with; the state of a following page
    takes precedence over the one in the options. *)
Theorem page_state_resumes `{Host} e p b rs q c o next_state :
  wf_bytes b -> page_state p = Some b -> result_of_page e p = Ok rs ->
  DefaultExecutionOptions.create (Some q) c = Ok o ->
  exists s, ResultSet.pageState rs = Some s /\
    (pageState q = JString s -> normalizePagingState PageNull o = Ok (Some b)) /\
    normalizePagingState (PageWrapper next_state) o = Ok (Some next_state).
Proof.
  intros Hb Hp Hrs Ho. unfold result_of_page, ResultSet.constructor in Hrs. rewrite Hp in Hrs.
  destruct (getRowsFromResultsWrapper e (page_wrapper_ p)) as [rows|x]; [|done]. rewrite !ok_bind in Hrs.
  injection Hrs as <-. exists (hex_encode b). split_and!; [done| |done].
  intros Hq. unfold DefaultExecutionOptions.create, DefaultExecutionOptions.constructor in Ho. cbn [default] in Ho.
  destruct (ProfileManager.getProfile _ _); [|done]. injection Ho as <-. unfold normalizePagingState. cbn.
  rewrite Hq. by rewrite hex_roundtrip.
Qed.

Lemma page_state_resumes_witness :
  exists rs s, result_of_page sample_encoder (mkPage (Some [18; 52]) (int_page [3]) (fun _ => not_object)) = Ok rs /\
    ResultSet.pageState rs = Some s /\ s = js "1234".
Proof.
  destruct (DefaultExecutionOptions.create (Some auto_paging) sample_client) as [o|x] eqn:Ho; [|vm_compute in Ho; discriminate].
  destruct (result_of_page sample_encoder (mkPage (Some [18; 52]) (int_page [3]) (fun _ => not_object))) as [rs|x] eqn:Hrs;
    [|vm_compute in Hrs; discriminate].
  destruct (page_state_resumes sample_encoder (mkPage (Some [18; 52]) (int_page [3]) (fun _ => not_object)) [18; 52] rs
    auto_paging sample_client o [7]) as (s & Hs & _); [repeat constructor; lia|reflexivity|exact Hrs|exact Ho|].
  exists rs, s. split_and!; [done|done|]. vm_compute in Hrs. injection Hrs as <-. vm_compute in Hs. by injection Hs as <-.
Defined.

(** ** The connection *)

Module Connection.

(** How a call of [#connect] ends. *)
Inductive ending : Type :=
| Connected
| Rejected (err : error).

(** [waiting] are the calls that wait for the event [connected], [first] the one that
    creates the session; [answered] are the calls that have ended. *)
Record state : Type := mk {
  connected : bool;
  connecting : bool;
  isShuttingDown : bool;
  first : option nat;
  waiting : list nat;
  answered : list (nat * ending);
  calls_ : nat }.

Definition initial : state := mk false false false None [] [] 0.

(** A call of [#connect]. *)
Definition connect (s : state) : state :=
  let id := calls_ s in
  if connected s then
    mk (connected s) (connecting s) (isShuttingDown s) (first s) (waiting s) (answered s ++ [(id, Connected)]) (S id)
  else if isShuttingDown s then
    mk (connected s) (connecting s) (isShuttingDown s) (first s) (waiting s)
       (answered s ++ [(id, Rejected (PlainError "Connecting after shutdown is not supported"))]) (S id)
  else if connecting s then
    mk (connected s) (connecting s) (isShuttingDown s) (first s) (waiting s ++ [id]) (answered s) (S id)
  else
    mk (connected s) true (isShuttingDown s) (Some id) (waiting s) (answered s) (S id).

(** [createSession] settles: the event is emitted and the first call ends. *)
Definition settle (r : ending) (s : state) : option state :=
  id ← first s;
  Some (mk (match r with Connected => true | Rejected _ => false end) false (isShuttingDown s) None []
           (answered s ++ ((fun i => (i, r)) <$> (waiting s ++ [id]))) (calls_ s)).

(** [#shutdown]: none is a call that waits for the connection. *)
Definition shutdown (s : state) : option state :=
  if negb (connected s) then Some s
  else if connecting s then None
  else Some (mk false (connecting s) true (first s) (waiting s) (answered s) (calls_ s)).

Inductive step : state -> state -> Prop :=
| step_connect s : step s (connect s)
| step_settle s r s' : settle r s = Some s' -> step s s'
| step_shutdown s s' : shutdown s = Some s' -> step s s'.

Definition reachable (s : state) : Prop := rtc step initial s.

Record inv (s : state) : Prop := {
  inv_connecting : connecting s = match first s with Some _ => true | None => false end;
  inv_waiting : first s = None -> waiting s = [];
  inv_exclusive : connected s && connecting s = false;
  inv_down : isShuttingDown s = true -> connected s = false /\ connecting s = false;
  inv_calls : (fst <$> answered s) ++ waiting s ++ option_list (first s) ≡ₚ seq 0 (calls_ s) }.

Lemma connection_step s s' : inv s -> step s s' -> inv s'.
Proof.
  intros [Hc Hw Hx Hd Hcalls] Hst. destruct Hst as [s|s r s' Hs|s s' Hs].
  - unfold connect. destruct (connected s) eqn:E1; [|destruct (isShuttingDown s) eqn:E2; [|destruct (connecting s) eqn:E3]];
      split; cbn [connected connecting isShuttingDown first waiting answered calls_]; try done; try (destruct (first s); done).
    all: rewrite seq_S, <- Hcalls; cbn [plus].
    + rewrite fmap_app. cbn. rewrite <- !app_assoc. f_equiv. rewrite Permutation_app_comm, <- !app_assoc. done.
    + rewrite fmap_app. cbn. rewrite <- !app_assoc. f_equiv. rewrite Permutation_app_comm, <- !app_assoc. done.
    + rewrite <- !app_assoc. do 2 f_equiv. apply Permutation_app_comm.
    + destruct (first s); [done|]. cbn. by rewrite app_nil_r, <- app_assoc.
  - unfold settle in Hs. destruct (first s) as [id|] eqn:Hf; [|done]. cbn in Hs. injection Hs as <-.
    split; cbn [connected connecting isShuttingDown first waiting answered calls_]; try done.
    + by destruct r.
    + intros Hsd. destruct (Hd Hsd) as [_ Hc']. congruence.
    + cbn. rewrite app_nil_r, fmap_app, <- Hcalls. f_equiv.
      assert (Hid : forall l : list nat, fst <$> ((fun i => (i, r)) <$> l) = l).
      { intros l. induction l as [|x l IHl]; [done|]. rewrite !fmap_cons. cbn [fst]. by rewrite IHl. }
      by rewrite Hid.
  - unfold shutdown in Hs. destruct (connected s) eqn:E1; cbn [negb] in Hs; [|injection Hs as <-; split; by rewrite ?E1].
    destruct (connecting s) eqn:E2; [done|]. injection Hs as <-. by split.
Qed.

Lemma connection_inv s : reachable s -> inv s.
Proof.
  apply (rtc_ind_r inv); [by split|]. intros s1 s2 _ Hst Hinv. by apply (connection_step s1).
Qed.

End Connection.

(** C21. The connection of a client, for every interleaving of [connect] calls, the end of
    the creation of the session and [shutdown]: the client is never connected while it is
    connecting, so that [shutdown] never waits and, while connecting, does nothing; a
    session is being created exactly while it is connecting; every call of [connect] is
    either answered, once, or waits for the session being created; once a connected client
    has been shut down it is neither connected nor connecting, for good. *)
Theorem connection_correct s :
  Connection.reachable s ->
  ~ (Connection.connected s = true /\ Connection.connecting s = true) /\
  (Connection.connecting s = true -> Connection.shutdown s = Some s) /\
  (Connection.connecting s = true <-> is_Some (Connection.first s)) /\
  (fst <$> Connection.answered s) ++ Connection.waiting s ++ option_list (Connection.first s)
    ≡ₚ seq 0 (Connection.calls_ s) /\
  (Connection.connecting s = false -> Connection.waiting s = []) /\
  (Connection.connected s = true -> forall s1 s', Connection.shutdown s = Some s1 -> rtc Connection.step s1 s' ->
     Connection.connected s' = false /\ Connection.connecting s' = false).
Proof.
  intros Hr. pose proof (Connection.connection_inv s Hr) as [Hc Hw Hx Hd Hcalls]. split_and!; [| | |done| |].
  - intros [E1 E2]. by rewrite E1, E2 in Hx.
  - intros E. unfold Connection.shutdown. rewrite E in Hx. rewrite andb_true_r in Hx. by rewrite Hx.
  - rewrite Hc. destruct (Connection.first s); split; try done; by intros [? ?].
  - rewrite Hc. destruct (Connection.first s); [done|auto].
  - intros Hcon s1 s' Hs1 Hrun.
    assert (Hsd : Connection.isShuttingDown s1 = true).
    { unfold Connection.shutdown in Hs1. rewrite Hcon in Hs1. cbn in Hs1. destruct (Connection.connecting s); [done|].
      by injection Hs1 as <-. }
    assert (Hr1 : Connection.reachable s1) by (eapply rtc_r; [exact Hr|by apply Connection.step_shutdown]).
    assert (Hsd' : Connection.isShuttingDown s' = true).
    { clear -Hsd Hrun. induction Hrun as [|s1 s2 s3 Hst Hrun IH]; [done|]. apply IH. clear IH Hrun.
      destruct Hst as [s|s r s' Hs|s s' Hs].
      - unfold Connection.connect. by destruct (Connection.connected s), (Connection.isShuttingDown s), (Connection.connecting s).
      - unfold Connection.settle in Hs. destruct (Connection.first s); [|done]. by injection Hs as <-.
      - unfold Connection.shutdown in Hs. destruct (Connection.connected s); cbn in Hs; [|by injection Hs as <-].
        destruct (Connection.connecting s); [done|]. by injection Hs as <-. }
    apply (Connection.inv_down s' (Connection.connection_inv s' (transitivity Hr1 Hrun)) Hsd').
Qed.

(** Two calls while connecting, answered together; then a shutdown. *)
Definition closed_client : Connection.state :=
  Connection.mk false false true None [] [(1%nat, Connection.Connected); (0%nat, Connection.Connected)] 2.

Lemma connection_correct_witness :
  Connection.reachable closed_client /\
  ~ (Connection.connected closed_client = true /\ Connection.connecting closed_client = true).
Proof.
  assert (Hr : Connection.reachable closed_client).
  { do 2 (eapply rtc_l; [apply Connection.step_connect|]).
    eapply rtc_l; [apply (Connection.step_settle _ Connection.Connected); reflexivity|].
    eapply rtc_l; [apply Connection.step_shutdown; reflexivity|]. reflexivity. }
  split; [exact Hr|]. apply (connection_correct closed_client Hr).
Defined.
