(* ===== verification/Tree.v ===== *)
(** * Radix tree

    lib/mapping/tree.js: the tree in which the mapper caches what it makes of a document
    shape.  A key is a sequence of parts; a node holds one or more of them.

    The theorems: the tree implements a finite map from keys to values, in which a value
    is created for a key that has none and nothing else changes. *)

From S2P Require Import Prelude.

Section tree.
Context {K V : Type} `{!EqDecision K}.

(** [value] is none for null. *)
Local Unset Elimination Schemes.
Inductive node : Type := Node (key : list K) (value : option V) (edges : list node).
Local Set Elimination Schemes.

Definition node_key (n : node) : list K := match n with Node k _ _ => k end.
Definition node_value (n : node) : option V := match n with Node _ v _ => v end.
Definition node_edges (n : node) : list node := match n with Node _ _ e => e end.

Lemma node_ind (P : node -> Prop) :
  (forall key value edges, Forall P edges -> P (Node key value edges)) -> forall n, P n.
Proof.
  intros HP. fix IH 1. intros [key value edges]. apply HP.
  induction edges as [|e edges IHe]; constructor; [apply IH|exact IHe].
Qed.

Record tree : Type := mkTree { root : node; length_ : Z }.

(** [new Tree()] *)
Definition empty_tree : tree := mkTree (Node [] None []) 0.

(** The loop over the parts of the node's key from position [i] on: the position of the
    first part that differs, and the parts of the key from there; or the rest of the key. *)
Fixpoint match_key (i : nat) (parts item : list K) : nat * list K + list K :=
  match parts, item with
  | [], _ => inr item
  | _ :: _, [] => inl (i, [])
  | p :: parts, k :: item' => if decide (p = k) then match_key (S i) parts item' else inl (i, item)
  end.

(** [#createBranch]: the node keeps the first parts of its key, the rest moves to a new
    node; [value] is what the value handler returns. *)
Definition createBranch (n : node) (index : nat) (useNewValue : bool) (value : V) : node :=
  match n with
  | Node key old edges =>
      Node (take index key) (if useNewValue then Some value else None) [Node (drop index key) old edges]
  end.

(** [node.edges.push(new Node(...))] *)
Definition push_edge (n : node) (e : node) : node :=
  match n with Node key value edges => Node key value (edges ++ [e]) end.

(** The loop from a node on, with the rest of the key: what is returned, the node
    afterwards, and whether [#onItemAdded] was called. *)
Fixpoint getOrCreate_node (n : node) (item : list K) (value : V) : option V * node * bool :=
  match n with
  | Node key old edges =>
      match match_key 1 (tail key) item with
      | inl (i, []) => (Some value, createBranch n i true value, true)
      | inl (i, item) => (Some value, push_edge (createBranch n i false value) (Node item (Some value) []), true)
      | inr [] =>
          match old, edges with
          | None, _ :: _ => (Some value, Node key (Some value) edges, false)
          | _, _ => (old, n, false)
          end
      | inr (k :: item') =>
          let fix next (before after : list node) : option V * node * bool :=
            match after with
            | [] => (Some value, Node key old (edges ++ [Node (k :: item') (Some value) []]), true)
            | e :: after =>
                if bool_decide (head (node_key e) = Some k) then
                  let '(r, e', added) := getOrCreate_node e item' value in
                  (r, Node key old (before ++ e' :: after), added)
                else next (before ++ [e]) after
            end in
          next [] edges
      end
  end.

Definition getOrCreate (t : tree) (key : list K) (value : V) : option V * tree :=
  let '(r, n, added) := getOrCreate_node (root t) key value in
  (r, mkTree n (if added then length_ t + 1 else length_ t)).

(** ** The map a tree stands for *)

(** The value at a key, below a node whose first part has been consumed. *)
Fixpoint get_node (n : node) (item : list K) : option V :=
  match n with
  | Node key value edges =>
      match match_key 1 (tail key) item with
      | inl _ => None
      | inr [] => value
      | inr (k :: item') =>
          let fix next (after : list node) : option V :=
            match after with
            | [] => None
            | e :: after => if bool_decide (head (node_key e) = Some k) then get_node e item' else next after
            end in
          next edges
      end
  end.

Definition get (t : tree) (key : list K) : option V := get_node (root t) key.

(** The keys of the edges start with different parts, and every leaf has a value. *)
Fixpoint wf_node (n : node) : Prop :=
  match n with
  | Node key value edges =>
      NoDup ((fun e => head (node_key e)) <$> edges) /\
      (fix all (l : list node) : Prop :=
         match l with
         | [] => True
         | e :: l => node_key e <> [] /\ (node_edges e = [] -> node_value e <> None) /\ wf_node e /\ all l
         end) edges
  end.

Definition wf_edge (e : node) : Prop :=
  node_key e <> [] /\ (node_edges e = [] -> node_value e <> None) /\ wf_node e.

Lemma wf_node_unfold key value edges :
  wf_node (Node key value edges) <-> NoDup ((fun e => head (node_key e)) <$> edges) /\ Forall wf_edge edges.
Proof.
  cbn [wf_node]. apply and_iff_compat_l. induction edges as [|e l IH]; [split; [constructor|done]|].
  rewrite Forall_cons_iff, <- IH. unfold wf_edge. tauto.
Qed.

Definition wf_tree (t : tree) : Prop := node_key (root t) = [] /\ wf_node (root t).

(** ** Matching a key *)

(** What is left of a key after some parts. *)
Fixpoint strip (parts item : list K) : option (list K) :=
  match parts, item with
  | [], _ => Some item
  | _ :: _, [] => None
  | p :: parts, k :: item => if decide (p = k) then strip parts item else None
  end.

Lemma strip_app a b item : strip (a ++ b) item = strip a item ≫= strip b.
Proof.
  revert item. induction a as [|p a IH]; intros item; [done|]. destruct item as [|k item]; [done|]. cbn.
  destruct (decide (p = k)); [apply IH|done].
Qed.

Lemma strip_Some parts item rest : strip parts item = Some rest <-> item = parts ++ rest.
Proof.
  revert item. induction parts as [|p parts IH]; intros item; cbn [strip app].
  { split; [by intros [= ->]|by intros ->]. }
  destruct item as [|k item]; [done|]. destruct (decide (p = k)) as [->|Hne].
  - rewrite IH. split; [by intros ->|by intros [= ->]].
  - split; [done|]. intros [= -> _]. done.
Qed.

Lemma match_key_inr i parts item rest : match_key i parts item = inr rest -> item = parts ++ rest.
Proof.
  revert i item. induction parts as [|p parts IH]; intros i item; cbn [match_key app]; [by intros [= ->]|].
  destruct item as [|k item']; [done|]. destruct (decide (p = k)) as [->|]; [|done]. by intros ->%IH.
Qed.

(** At a difference, the common parts, and rests that start with different parts or of
    which the key's is empty. *)
Lemma match_key_inl i parts item j rest : match_key i parts item = inl (j, rest) ->
  exists common p parts', parts = common ++ p :: parts' /\ item = common ++ rest /\
    j = (i + length common)%nat /\ head rest <> Some p.
Proof.
  revert i item. induction parts as [|p parts IH]; intros i item; cbn [match_key]; [done|].
  destruct item as [|k item'].
  { intros [= <- <-]. exists [], p, parts. split_and!; [done..|cbn; lia|done]. }
  destruct (decide (p = k)) as [->|Hne].
  - intros (common & p' & parts' & -> & -> & -> & Hh)%IH. exists (k :: common), p', parts'.
    split_and!; [done|done|cbn; lia|done].
  - intros [= <- <-]. exists [], p, parts. split_and!; [done..|cbn; lia|]. cbn. congruence.
Qed.

(** The first edge whose key starts with a part. *)
Fixpoint split_edge (k : K) (edges : list node) : option (list node * node * list node) :=
  match edges with
  | [] => None
  | e :: edges =>
      if bool_decide (head (node_key e) = Some k) then Some ([], e, edges)
      else '(b, e', a) ← split_edge k edges; Some (e :: b, e', a)
  end.

Lemma split_edge_Some k edges b e a : split_edge k edges = Some (b, e, a) ->
  edges = b ++ e :: a /\ head (node_key e) = Some k /\ Forall (fun x => head (node_key x) <> Some k) b.
Proof.
  revert b. induction edges as [|x edges IH]; intros b; [done|]. cbn. case_bool_decide as Hx.
  - intros [= <- <- <-]. split_and!; [done|done|constructor].
  - destruct (split_edge k edges) as [[[b' e'] a']|]; [|done]. cbn. intros [= <- <- <-].
    destruct (IH b' eq_refl) as (-> & Hh & Hb). split_and!; [done|done|by constructor].
Qed.

Lemma split_edge_None k edges : split_edge k edges = None <-> Forall (fun x => head (node_key x) <> Some k) edges.
Proof.
  induction edges as [|x edges IH]; [split; [constructor|done]|]. cbn. case_bool_decide as Hx.
  - split; [done|]. by intros [? _]%Forall_cons_1.
  - rewrite Forall_cons_iff, <- IH. destruct (split_edge k edges) as [[[b' e'] a']|]; cbn; split; try done; by intros [_ ?].
Qed.

Lemma split_edge_app k b e a : Forall (fun x => head (node_key x) <> Some k) b -> head (node_key e) = Some k ->
  split_edge k (b ++ e :: a) = Some (b, e, a).
Proof.
  intros Hb He. induction Hb as [|x b Hx Hb IH]; cbn; [by rewrite bool_decide_true|].
  rewrite bool_decide_false by done. by rewrite IH.
Qed.

Lemma get_node_unfold key value edges item :
  get_node (Node key value edges) item
  = match strip (tail key) item with
    | None => None
    | Some [] => value
    | Some (k :: item') => '(_, e, _) ← split_edge k edges; get_node e item'
    end.
Proof.
  cbn [get_node]. destruct (match_key 1 (tail key) item) as [[i rest]|rest] eqn:Hm.
  - apply match_key_inl in Hm as (common & p & parts' & -> & -> & _ & Hh).
    rewrite strip_app. rewrite (proj2 (strip_Some common (common ++ rest) rest)) by done. cbn.
    destruct rest as [|k rest]; [done|]. cbn in Hh. destruct (decide (p = k)); [congruence|done].
  - apply match_key_inr in Hm as ->. rewrite (proj2 (strip_Some _ _ rest)) by done.
    destruct rest as [|k item']; [done|]. induction edges as [|e edges IH]; [done|]. cbn.
    case_bool_decide; [done|]. rewrite IH. by destruct (split_edge k edges) as [[[b e'] a]|].
Qed.

(** The loop in cases: a branch where the key of the node differs, the node itself, an
    edge to follow, or a new leaf. *)
Lemma getOrCreate_node_unfold key old edges item value :
  getOrCreate_node (Node key old edges) item value
  = match match_key 1 (tail key) item with
    | inl (i, []) => (Some value, createBranch (Node key old edges) i true value, true)
    | inl (i, rest) =>
        (Some value, push_edge (createBranch (Node key old edges) i false value) (Node rest (Some value) []), true)
    | inr [] =>
        match old, edges with
        | None, _ :: _ => (Some value, Node key (Some value) edges, false)
        | _, _ => (old, Node key old edges, false)
        end
    | inr (k :: item') =>
        match split_edge k edges with
        | None => (Some value, Node key old (edges ++ [Node (k :: item') (Some value) []]), true)
        | Some (b, e, a) =>
            let '(r, e', added) := getOrCreate_node e item' value in (r, Node key old (b ++ e' :: a), added)
        end
    end.
Proof.
  cbn [getOrCreate_node]. destruct (match_key 1 (tail key) item) as [[i rest]|[|k item']]; [done|done|].
  enough (Hn : forall all before, (fix next (before after : list node) : option V * node * bool :=
      match after with
      | [] => (Some value, Node key old (all ++ [Node (k :: item') (Some value) []]), true)
      | e :: after =>
          if bool_decide (head (node_key e) = Some k) then
            let '(r, e', added) := getOrCreate_node e item' value in (r, Node key old (before ++ e' :: after), added)
          else next (before ++ [e]) after
      end) before edges
    = match split_edge k edges with
      | None => (Some value, Node key old (all ++ [Node (k :: item') (Some value) []]), true)
      | Some (b, e, a) =>
          let '(r, e', added) := getOrCreate_node e item' value in (r, Node key old ((before ++ b) ++ e' :: a), added)
      end) by apply Hn.
  intros all. induction edges as [|e edges IH]; intros before; [done|]. cbn [split_edge].
  case_bool_decide; [by rewrite app_nil_r|]. rewrite IH. destruct (split_edge k edges) as [[[b e'] a]|]; [|done].
  cbn. by rewrite <- (app_assoc before [e] b).
Qed.

(** ** Creating a value *)

(** What creating a value does below a node: the value found or the new one is returned,
    the map changes at the key only, and the node stays well formed. *)
Record created (n : node) (item : list K) (value : V) (r : option V) (n' : node) : Prop := {
  cr_result : r = Some (default value (get_node n item));
  cr_get : forall item', get_node n' item' = if decide (item' = item) then r else get_node n item';
  cr_wf : wf_node n';
  cr_head : head (node_key n') = head (node_key n);
  cr_leaf : (node_edges n = [] -> node_value n <> None) -> node_edges n' = [] -> node_value n' <> None }.

Lemma leaf_get rest (value : V) item :
  get_node (Node rest (Some value) []) item = if decide (item = tail rest) then Some value else None.
Proof.
  rewrite get_node_unfold. destruct (strip (tail rest) item) as [[|k l]|] eqn:Hs.
  - apply strip_Some in Hs as ->. rewrite app_nil_r. by rewrite decide_True.
  - apply strip_Some in Hs as ->. rewrite decide_False; [done|]. intros E. apply (f_equal length) in E.
    rewrite length_app in E. cbn in E. lia.
  - rewrite decide_False; [done|]. intros ->. assert (E : strip (tail rest) (tail rest) = Some []) by (apply strip_Some; by rewrite app_nil_r).
    congruence.
Qed.

Lemma leaf_wf rest (value : V) : rest <> [] -> wf_edge (Node rest (Some value) []).
Proof. intros Hr. split_and!; [done|done|]. apply wf_node_unfold. split; constructor. Qed.

(** A branch in the key of a node. *)
Lemma branch_created h common p parts' old edges rest value :
  wf_node (Node (h :: common ++ p :: parts') old edges) -> (edges = [] -> old <> None) -> head rest <> Some p ->
  let n := Node (h :: common ++ p :: parts') old edges in
  let b := Node (p :: parts') old edges in
  let n' := match rest with
            | [] => Node (h :: common) (Some value) [b]
            | _ => Node (h :: common) None [b; Node rest (Some value) []]
            end in
  created n (common ++ rest) value (Some value) n'.
Proof.
  intros Hwf Hleaf Hh n b n'.
  assert (Hn : forall item, get_node n item = rest' ← strip common item;
    match rest' with [] => None | k :: item' => if decide (p = k) then get_node b item' else None end).
  { intros item. unfold n, b. rewrite !get_node_unfold. cbn [tail]. rewrite strip_app.
    destruct (strip common item) as [[|k item']|]; [done| |done]. cbn [mbind option_bind strip].
    destruct (decide (p = k)); [|done]. by rewrite get_node_unfold. }
  assert (Hb : wf_edge b).
  { split_and!; [done|done|]. apply wf_node_unfold in Hwf. by apply wf_node_unfold. }
  assert (Hnone : get_node n (common ++ rest) = None).
  { rewrite Hn, (proj2 (strip_Some common (common ++ rest) rest)) by done. cbn. destruct rest as [|k rest']; [done|].
    rewrite decide_False; [done|]. intros ->. done. }
  assert (Hedge : forall l k item', split_edge k (b :: l) ≫= (fun '(_, e, _) => get_node e item')
    = if decide (p = k) then get_node b item' else split_edge k l ≫= (fun '(_, e, _) => get_node e item')).
  { intros l k item'. cbn [split_edge]. destruct (decide (p = k)) as [->|Hne].
    - by rewrite bool_decide_true.
    - rewrite bool_decide_false by (cbn; congruence). by destruct (split_edge k l) as [[[b' e'] a']|]. }
  split.
  - by rewrite Hnone.
  - intros item. rewrite Hn. unfold n'. destruct rest as [|k0 rest0]; rewrite get_node_unfold; cbn [tail].
    + rewrite app_nil_r. destruct (strip common item) as [[|k item']|] eqn:Hs.
      * apply strip_Some in Hs as ->. rewrite app_nil_r. by rewrite decide_True.
      * apply strip_Some in Hs as ->. rewrite decide_False by (intros E; apply (f_equal length) in E; rewrite length_app in E; cbn in E; lia).
        rewrite Hedge. cbn. by destruct (decide (p = k)).
      * rewrite decide_False; [done|]. intros ->.
        assert (E : strip common common = Some []) by (apply strip_Some; by rewrite app_nil_r). congruence.
    + destruct (strip common item) as [[|k item']|] eqn:Hs.
      * apply strip_Some in Hs as ->. rewrite app_nil_r. rewrite decide_False; [done|].
        intros E. apply (f_equal length) in E. rewrite length_app in E. cbn in E. lia.
      * apply strip_Some in Hs as ->. rewrite Hedge. cbn [mbind option_bind].
        destruct (decide (p = k)) as [<-|Hne].
        { rewrite decide_False; [done|]. intros [= -> _]%app_inv_head. done. }
        cbn [split_edge]. case_bool_decide as Hk; cbn in Hk.
        -- injection Hk as ->. cbn [mbind option_bind]. rewrite leaf_get. cbn [tail]. destruct (decide (item' = rest0)) as [->|Hne'].
           ++ by rewrite decide_True.
           ++ rewrite decide_False; [done|]. intros [= ?]%app_inv_head. done.
        -- cbn. rewrite decide_False; [done|]. intros [= -> _]%app_inv_head. done.
      * rewrite decide_False; [done|]. intros ->.
        assert (E : strip common (common ++ k0 :: rest0) = Some (k0 :: rest0)) by (by apply strip_Some). congruence.
  - unfold n'. destruct rest as [|k0 rest0]; apply wf_node_unfold.
    + split; [apply NoDup_singleton|]. by apply Forall_singleton.
    + split; [|apply Forall_cons_2; [done|]; apply Forall_singleton; by apply leaf_wf]. cbn. cbn in Hh. constructor; [|apply NoDup_singleton].
      rewrite list_elem_of_singleton. congruence.
  - unfold n'. by destruct rest.
  - intros _. unfold n'. by destruct rest.
Qed.

(** Following an edge, or adding one. *)
Lemma follow_created key old b e a k item value r e' :
  wf_node (Node key old (b ++ e :: a)) -> head (node_key e) = Some k ->
  Forall (fun x => head (node_key x) <> Some k) b -> created e item value r e' ->
  created (Node key old (b ++ e :: a)) (tail key ++ k :: item) value r (Node key old (b ++ e' :: a)).
Proof.
  intros Hwf Hk Hb [Hr Hg Hw Hh Hl].
  apply wf_node_unfold in Hwf as [Hnd Hall]. apply Forall_app in Hall as [Hallb Hall]. apply Forall_cons_1 in Hall as [He Halla].
  assert (Hk' : head (node_key e') = Some k) by congruence.
  assert (Hnone : forall k', k' <> k -> forall e0, head (node_key e0) = Some k ->
    split_edge k' (b ++ e0 :: a) ≫= (fun '(_, x, _) => Some x) = split_edge k' (b ++ a) ≫= (fun '(_, x, _) => Some x)).
  { intros k' Hne e0 He0. clear -Hne He0. induction b as [|x b IH]; cbn [app split_edge].
    - rewrite bool_decide_false by congruence. by destruct (split_edge k' a) as [[[? ?] ?]|].
    - case_bool_decide; [done|].
      destruct (split_edge k' (b ++ e0 :: a)) as [[[? ?] ?]|], (split_edge k' (b ++ a)) as [[[? ?] ?]|]; cbn in *; congruence. }
  assert (Hget : forall e0, head (node_key e0) = Some k -> forall item',
    get_node (Node key old (b ++ e0 :: a)) item'
    = rest ← strip (tail key) item';
      match rest with
      | [] => old
      | k' :: l => if decide (k' = k) then get_node e0 l
                   else split_edge k' (b ++ a) ≫= (fun '(_, x, _) => get_node x l)
      end).
  { intros e0 He0 item'. rewrite get_node_unfold. destruct (strip (tail key) item') as [[|k' l]|]; [done| |done].
    cbn [mbind option_bind]. destruct (decide (k' = k)) as [->|Hne]; [by rewrite split_edge_app|].
    specialize (Hnone k' Hne e0 He0).
    destruct (split_edge k' (b ++ e0 :: a)) as [[[? x] ?]|], (split_edge k' (b ++ a)) as [[[? y] ?]|]; cbn in *; congruence. }
  split.
  - rewrite (Hget e Hk), (proj2 (strip_Some _ _ (k :: item))) by done. cbn [mbind option_bind]. by rewrite decide_True.
  - intros item'. rewrite (Hget e' Hk'), (Hget e Hk). destruct (strip (tail key) item') as [rest|] eqn:Hs.
    + apply strip_Some in Hs as ->. cbn [mbind option_bind]. destruct rest as [|k' l].
      { rewrite decide_False; [done|]. intros E%app_inv_head. done. }
      destruct (decide (k' = k)) as [->|Hne].
      * rewrite Hg. destruct (decide (l = item)) as [->|Hne']; [by rewrite decide_True|].
        rewrite decide_False; [done|]. intros [= ?]%app_inv_head. done.
      * rewrite decide_False; [done|]. intros [= ? _]%app_inv_head. done.
    + rewrite decide_False; [done|]. intros ->.
      assert (E : strip (tail key) (tail key ++ k :: item) = Some (k :: item)) by (by apply strip_Some). congruence.
  - apply wf_node_unfold. split.
    + rewrite !fmap_app, !fmap_cons in *. by rewrite Hh.
    + apply Forall_app. split; [done|]. apply Forall_cons_2; [|done]. destruct He as (Hne & Hlf & _). split_and!; [|by apply Hl|done].
      intros E. rewrite E in Hk'. done.
  - done.
  - intros _ E. by destruct b.
Qed.

Lemma leaf_created key old edges k item value :
  wf_node (Node key old edges) -> split_edge k edges = None ->
  created (Node key old edges) (tail key ++ k :: item) value (Some value)
    (Node key old (edges ++ [Node (k :: item) (Some value) []])).
Proof.
  intros Hwf Hn. pose proof (proj1 (split_edge_None k edges) Hn) as Hall.
  assert (Hget : get_node (Node key old edges) (tail key ++ k :: item) = None).
  { rewrite get_node_unfold, (proj2 (strip_Some _ _ (k :: item))) by done. by rewrite Hn. }
  split.
  - by rewrite Hget.
  - intros item'. rewrite !get_node_unfold. destruct (strip (tail key) item') as [rest|] eqn:Hs.
    + apply strip_Some in Hs as ->. destruct rest as [|k' l].
      { rewrite decide_False; [done|]. intros E%app_inv_head. done. }
      destruct (decide (k' = k)) as [->|Hne].
      * rewrite split_edge_app by done. cbn [mbind option_bind]. rewrite leaf_get, Hn. cbn [tail].
        destruct (decide (l = item)) as [->|Hne']; [by rewrite decide_True|].
        rewrite decide_False; [done|]. intros [= ?]%app_inv_head. done.
      * rewrite decide_False by (intros [= ? _]%app_inv_head; done).
        assert (E : split_edge k' (edges ++ [Node (k :: item) (Some value) []]) ≫= (fun '(_, x, _) => Some x)
          = split_edge k' edges ≫= (fun '(_, x, _) => Some x)).
        { clear -Hne. induction edges as [|x edges IH]; cbn [app split_edge].
          - rewrite bool_decide_false; [done|]. cbn. congruence.
          - case_bool_decide; [done|].
            destruct (split_edge k' (edges ++ _)) as [[[? ?] ?]|], (split_edge k' edges) as [[[? ?] ?]|]; cbn in *; congruence. }
        destruct (split_edge k' (edges ++ _)) as [[[? ?] ?]|], (split_edge k' edges) as [[[? ?] ?]|]; cbn in *; congruence.
    + rewrite decide_False; [done|]. intros ->.
      assert (E : strip (tail key) (tail key ++ k :: item) = Some (k :: item)) by (by apply strip_Some). congruence.
  - apply wf_node_unfold in Hwf as [Hnd Hwf]. apply wf_node_unfold. split.
    + rewrite fmap_app. apply list.NoDup_app. split_and!; [done| |apply NoDup_singleton].
      intros x (e & -> & He)%list_elem_of_fmap Hx. cbn in Hx. apply list_elem_of_singleton in Hx.
      rewrite List.Forall_forall in Hall. apply (Hall e); [by apply list_elem_of_In|done].
    + apply Forall_app. split; [done|]. apply Forall_singleton. by apply leaf_wf.
  - done.
  - intros _ E. by destruct edges.
Qed.

Lemma getOrCreate_created n item value :
  wf_node n -> (node_edges n = [] -> node_value n <> None) \/ (node_key n = [] /\ item <> []) ->
  created n item value (fst (fst (getOrCreate_node n item value))) (snd (fst (getOrCreate_node n item value))).
Proof.
  revert item. induction n as [key old edges IH] using node_ind. intros item Hwf Hleaf.
  rewrite getOrCreate_node_unfold. destruct (match_key 1 (tail key) item) as [[i rest]|rest] eqn:Hm.
  - apply match_key_inl in Hm as (common & p & parts' & Ht & -> & -> & Hh).
    destruct key as [|h key]; [by destruct common|]. cbn [tail] in Ht. subst key.
    destruct Hleaf as [Hleaf|[? _]]; [|done].
    pose proof (branch_created h common p parts' old edges rest value Hwf Hleaf Hh) as Hc.
    assert (Ht : take (1 + length common) (h :: common ++ p :: parts') = h :: common) by (cbn; by rewrite take_app_length).
    assert (Hd : drop (1 + length common) (h :: common ++ p :: parts') = p :: parts') by (cbn; by rewrite drop_app_length).
    unfold createBranch, push_edge. rewrite Ht, Hd. by destruct rest.
  - apply match_key_inr in Hm as ->. destruct rest as [|k item'].
    + rewrite app_nil_r. assert (Hg : get_node (Node key old edges) (tail key) = old).
      { rewrite get_node_unfold. by rewrite (proj2 (strip_Some _ _ [])) by (by rewrite app_nil_r). }
      assert (Hsame : created (Node key old edges) (tail key) value (Some (default value old)) (Node key (Some (default value old)) edges)).
      { split; [by rewrite Hg| | |done|done].
        - intros item'. rewrite !get_node_unfold. destruct (strip (tail key) item') as [[|k l]|] eqn:Hs.
          + apply strip_Some in Hs as ->. rewrite app_nil_r. by rewrite decide_True.
          + apply strip_Some in Hs as ->. rewrite decide_False; [done|]. intros E. apply (f_equal length) in E.
            rewrite length_app in E. cbn in E. lia.
          + rewrite decide_False; [done|]. intros ->.
            assert (E : strip (tail key) (tail key) = Some []) by (apply strip_Some; by rewrite app_nil_r). congruence.
        - apply wf_node_unfold. by apply wf_node_unfold in Hwf. }
      destruct old as [x|]; [by destruct edges|]. destruct edges as [|e edges]; [|done].
      exfalso. destruct Hleaf as [Hleaf|[Hk Hi]]; [by apply Hleaf|]. cbn in Hk. subst key. by apply Hi.
    + destruct (split_edge k edges) as [[[b e] a]|] eqn:Hs; [|by apply leaf_created].
      apply split_edge_Some in Hs as (-> & Hk & Hb).
      pose proof (proj1 (wf_node_unfold _ _ _) Hwf) as [_ Hall]. apply Forall_app in Hall as [_ Hall].
      apply Forall_cons_1 in Hall as [(Hne & Hlf & Hwe) _]. apply Forall_app in IH as [_ IH]. apply Forall_cons_1 in IH as [IH _].
      specialize (IH item' Hwe (or_introl Hlf)). destruct (getOrCreate_node e item' value) as [[r e'] added].
      by apply (follow_created key old b e a k item' value r e').
Qed.

(** One call on a tree. *)
Lemma getOrCreate_tree t key value :
  wf_tree t -> key <> [] ->
  let '(r, t') := getOrCreate t key value in
  wf_tree t' /\ r = Some (default value (get t key)) /\
  forall key', get t' key' = if decide (key' = key) then r else get t key'.
Proof.
  intros [Hk Hwf] Hne. unfold getOrCreate, get.
  pose proof (getOrCreate_created (root t) key value Hwf (or_intror (conj Hk Hne))) as Hc.
  destruct (getOrCreate_node (root t) key value) as [[r n] added]. cbn [fst snd] in Hc. destruct Hc as [Hr Hg Hw Hh _].
  split_and!; [|done|done]. split; [|done]. cbn [root]. rewrite Hk in Hh. by destruct (node_key n).
Qed.

(** A sequence of calls, each with the value its handler would create: on a tree, and on
    a map from keys to values. *)
Fixpoint run_tree (t : tree) (requests : list (list K * V)) : list (option V) * tree :=
  match requests with
  | [] => ([], t)
  | (key, v) :: requests =>
      let '(r, t) := getOrCreate t key v in let '(rs, t) := run_tree t requests in (r :: rs, t)
  end.

Fixpoint run_map (m : list K -> option V) (requests : list (list K * V)) : list (option V) * (list K -> option V) :=
  match requests with
  | [] => ([], m)
  | (key, v) :: requests =>
      let r := Some (default v (m key)) in
      let '(rs, m) := run_map (fun k => if decide (k = key) then r else m k) requests in (r :: rs, m)
  end.

Lemma run_tree_map requests t m : wf_tree t -> (forall k, get t k = m k) ->
  Forall (fun q => fst q <> []) requests ->
  fst (run_tree t requests) = fst (run_map m requests) /\
  (forall k, get (snd (run_tree t requests)) k = snd (run_map m requests) k) /\ wf_tree (snd (run_tree t requests)).
Proof.
  revert t m. induction requests as [|[key v] requests IH]; intros t m Hwf Hg Hne; [done|].
  apply Forall_cons_1 in Hne as [Hk Hne]. cbn [run_tree run_map]. pose proof (getOrCreate_tree t key v Hwf Hk) as Hc.
  destruct (getOrCreate t key v) as [r t']. destruct Hc as (Hwf' & -> & Hg'). rewrite Hg in *.
  specialize (IH t' (fun k => if decide (k = key) then Some (default v (m key)) else m k) Hwf').
  destruct IH as (Hr & Hgr & Hwr); [|done|].
  { intros k. rewrite Hg'. destruct (decide (k = key)); [done|apply Hg]. }
  destruct (run_tree t' requests), (run_map _ requests). cbn [fst snd] in *. by subst.
Qed.

Lemma empty_tree_wf : wf_tree empty_tree.
Proof. split; [done|]. apply wf_node_unfold. split; constructor. Qed.

End tree.

(** C14. The radix tree implements a map: any sequence of [getOrCreate] calls with keys of
    at least one part gives the values that a map gives in which a missing key gets the
    new value; afterwards the tree holds the same map, and keeps its invariant (edges that
    start with different parts, no empty leaf). *)
Theorem tree_is_a_map {K V} `{!EqDecision K} (requests : list (list K * V)) :
  Forall (fun q => fst q <> []) requests ->
  let '(rs, t) := run_tree empty_tree requests in
  let '(rs', m) := run_map (fun _ => None) requests in
  rs = rs' /\ (forall k, get t k = m k) /\ wf_tree t.
Proof.
  intros Hne. destruct (run_tree_map requests empty_tree (fun _ => None) empty_tree_wf) as (Hr & Hg & Hw); [|done|].
  { intros k. unfold get, empty_tree. cbn [root]. rewrite get_node_unfold. cbn. by destruct k. }
  by destruct (run_tree empty_tree requests), (run_map _ requests).
Qed.

(** Three items: the third is the node where the first two branch. *)
Definition sample_requests : list (list nat * nat) :=
  [([1; 2], 10); ([1; 3], 11); ([1], 12); ([1; 2], 13)]%nat.

Lemma tree_is_a_map_witness : fst (run_tree empty_tree sample_requests) = [Some 10; Some 11; Some 12; Some 10]%nat.
Proof.
  pose proof (tree_is_a_map sample_requests) as Ht.
  destruct (run_tree empty_tree sample_requests) as [rs t] eqn:E, (run_map (fun _ => None) sample_requests) as [rs' m] eqn:E'.
  destruct Ht as [-> _]; [by repeat constructor|]. assert (rs' = fst (rs', m)) as -> by done. rewrite <- E'. reflexivity.
Defined.

(** The length counts two of the three items. *)
Lemma tree_length_wrong : length_ (snd (run_tree empty_tree sample_requests)) = 2.
Proof. reflexivity. Qed.

(** An empty key in an empty tree gives null. *)
Lemma tree_empty_key {K V} `{!EqDecision K} (v : V) : fst (getOrCreate (K := K) empty_tree [] v) = None.
Proof. reflexivity. Qed.
