(* ===== verification/Mapping.v ===== *)
(** * Mapper: documents, names and options

    lib/mapping: the operators of [q] (q.js), the conventions for names
    (table-mappings.js), the mapping information of a model (model-mapping-info.js), the
    adapter of the user's options (doc-info-adapter.js) and the cache keys of a document
    shape (cache.js).

    A document is its properties in order.  A property that a document does not have is
    undefined.  The values of [orderBy] are strings.

    The theorems: the snake case and camel case conventions are inverse of each other on
    the names that follow them; the property of a column leads back to that column; what
    two documents with the same cache key have in common. *)

From stdpp Require Import list.
From S2P Require Import Prelude JsNumber Buffer JsString CqlTypes JsValue Timestamps Collections ExecutionOptions.

(** ** Operators (q.js) *)

(** A property of a document: a value, a [QueryOperator] without child values, the one
    with child values, whose key is AND, or a [QueryAssignment].  [Pair] is the array of
    the child values. *)
Inductive mval : Type :=
| Val (v : jsval)
| QueryOperator (key : jsstr) (value : mval) (isInOperator : bool)
| QueryAnd (value0 value1 : mval)
| QueryAssignment (sign : jsstr) (value : mval) (inverted : bool)
| Pair (value0 value1 : mval).

Definition undefined : mval := Val JUndefined.

Definition document : Type := list (jsstr * mval).

(** [doc[key]] *)
Definition prop (doc : document) (key : jsstr) : mval := default undefined (lookup_prop key doc).

Module q.

Definition in_ (arr : mval) : result mval :=
  match arr with
  | Val (JArray _) => Ok (QueryOperator (js "IN") arr true)
  | _ => Err (ArgumentError "IN operator supports only Array values")
  end.

Definition gt (value : mval) : mval := QueryOperator (js ">") value false.
Definition gte (value : mval) : mval := QueryOperator (js ">=") value false.
Definition lt (value : mval) : mval := QueryOperator (js "<") value false.
Definition lte (value : mval) : mval := QueryOperator (js "<=") value false.
Definition notEq (value : mval) : mval := QueryOperator (js "!=") value false.
Definition and (condition1 condition2 : mval) : mval := QueryAnd condition1 condition2.
Definition incr (value : mval) : mval := QueryAssignment (js "+") value false.
Definition decr (value : mval) : mval := QueryAssignment (js "-") value false.
Definition append (value : mval) : mval := QueryAssignment (js "+") value false.
Definition prepend (value : mval) : mval := QueryAssignment (js "+") value true.
Definition remove (value : mval) : mval := QueryAssignment (js "-") value false.

End q.

(** ** Conventions for names (table-mappings.js) *)

Class TableMappings : Type := {
  tm_getColumnName : jsstr -> jsstr;
  tm_getPropertyName : jsstr -> jsstr;
  tm_newObjectInstance : list (jsstr * jsval)
}.

Definition DefaultTableMappings : TableMappings :=
  {| tm_getColumnName := fun propName => propName;
     tm_getPropertyName := fun columnName => columnName;
     tm_newObjectInstance := [] |}.

Definition is_lower (c : Z) : bool := (97 <=? c) && (c <=? 122).
Definition is_upper (c : Z) : bool := (65 <=? c) && (c <=? 90).

Definition underscore : Z := 95.

Module UnderscoreCqlToCamelCaseMappings.

(** [replace(/[a-z][A-Z]/g, ...)]: an underscore between the two letters. *)
Fixpoint camel_split (s : jsstr) : jsstr :=
  match s with
  | a :: s =>
      match s with
      | b :: s' => if is_lower a && is_upper b then a :: underscore :: b :: camel_split s' else a :: camel_split s
      | [] => [a]
      end
  | [] => []
  end.

Definition getColumnName `{Unicode} (propName : jsstr) : jsstr := toLowerCase (camel_split propName).

(** [replace(/_[a-z]/g, ...)]: the letter in upper case, but at offset 0 the match. *)
Fixpoint snake_join (first : bool) (s : jsstr) : jsstr :=
  match s with
  | a :: s =>
      match s with
      | b :: s' =>
          if (a =? underscore) && is_lower b then
            if first then a :: b :: snake_join false s' else (b - 32) :: snake_join false s'
          else a :: snake_join false s
      | [] => [a]
      end
  | [] => []
  end.

Definition getPropertyName (columnName : jsstr) : jsstr := snake_join true columnName.

Definition mappings `{Unicode} : TableMappings :=
  {| tm_getColumnName := getColumnName;
     tm_getPropertyName := getPropertyName;
     tm_newObjectInstance := [] |}.

(** *** The names that follow the conventions *)

(** The rest of a snake case name; [prev]: the name so far ends in a letter that does not
    start a word. *)
Fixpoint snake_rest (prev : bool) (s : jsstr) : bool :=
  match s with
  | a :: s =>
      match s with
      | b :: s' =>
          if (a =? underscore) && is_lower b then prev && snake_rest false s'
          else (0 <=? a) && (a <? 128) && negb (is_upper a) && snake_rest (is_lower a) s
      | [] => (0 <=? a) && (a <? 128) && negb (is_upper a)
      end
  | [] => true
  end.

(** ASCII without capitals, in which an underscore before a letter follows a letter that
    does not itself follow an underscore, or starts the name. *)
Definition snake (s : jsstr) : bool :=
  match s with
  | a :: s' =>
      match s' with
      | b :: s'' => if (a =? underscore) && is_lower b then snake_rest true s'' else snake_rest false s
      | [] => snake_rest false s
      end
  | [] => true
  end.

(** ASCII without underscores, in which a capital follows a small letter. *)
Fixpoint camel (prev : bool) (s : jsstr) : bool :=
  match s with
  | a :: s =>
      (0 <=? a) && (a <? 128) && negb (a =? underscore) &&
      (if is_upper a then prev else true) && camel (is_lower a) s
  | [] => true
  end.

End UnderscoreCqlToCamelCaseMappings.

(** ** Mapping information (model-mapping-info.js) *)

(** A function of the user, on a property or a cell. *)
Definition mapping_fn : Type := mval -> result jsval.

Record ModelColumnInfo : Type := mkColumn {
  columnName : jsstr;
  propertyName : jsstr;
  toModel : option mapping_fn;
  fromModel : option mapping_fn }.

(** What the user gives as a function: nothing, a function, or something else. *)
Inductive fn_option : Type := FnNone | Fn (f : mapping_fn) | NotFn.

Definition the_fn (f : fn_option) : option mapping_fn := match f with Fn f => Some f | _ => None end.

(** [new ModelColumnInfo(columnName, propertyName, toModel, fromModel)] *)
Definition new_ModelColumnInfo (columnName propertyName : jsstr) (toModel fromModel : fn_option)
    : result ModelColumnInfo :=
  match toModel, fromModel with
  | NotFn, _ => Err (TypeError "toModel type for property should be a function")
  | _, NotFn => Err (TypeError "fromModel type for property should be a function")
  | _, _ => Ok (mkColumn columnName propertyName (the_fn toModel) (the_fn fromModel))
  end.

(** The option of a column: falsy, a property name, or an object, whose [name] is empty
    when it is falsy. *)
Inductive column_option : Type :=
| ColFalsy
| ColName (name : jsstr)
| ColObject (name : jsstr) (toModel fromModel : fn_option).

Definition ModelColumnInfo_parse (columnName : jsstr) (value : column_option) : result ModelColumnInfo :=
  match value with
  | ColFalsy | ColName [] => new_ModelColumnInfo columnName columnName FnNone FnNone
  | ColName name => new_ModelColumnInfo columnName name FnNone FnNone
  | ColObject name toModel fromModel =>
      new_ModelColumnInfo columnName (match name with [] => columnName | _ => name end) toModel fromModel
  end.

Record table_ref : Type := mkTable { t_name : jsstr; isView : bool }.

(** A Map with string keys is its entries, in insertion order. *)
Record ModelMappingInfo : Type := mkInfo {
  keyspace : jsstr;
  tables : list table_ref;
  mappings : TableMappings;
  columns : list (jsstr * ModelColumnInfo);
  documentProperties : list (jsstr * ModelColumnInfo) }.

(** [map.set(k, v)] with string keys *)
Fixpoint assoc_set {A} (k : jsstr) (v : A) (l : list (jsstr * A)) : list (jsstr * A) :=
  match l with
  | [] => [(k, v)]
  | e :: l => if bool_decide (fst e = k) then (k, v) :: l else e :: assoc_set k v l
  end.

Definition new_ModelMappingInfo (keyspace : jsstr) (tables : list table_ref) (mappings : TableMappings)
    (columns : list (jsstr * ModelColumnInfo)) : ModelMappingInfo :=
  mkInfo keyspace tables mappings columns
    (fold_left (fun m e => assoc_set (propertyName (snd e)) (snd e) m) columns []).

Definition getColumnName (info : ModelMappingInfo) (propName : jsstr) : jsstr :=
  match lookup_prop propName (documentProperties info) with
  | Some modelColumnInfo => columnName modelColumnInfo
  | None => @tm_getColumnName (mappings info) propName
  end.

Definition getPropertyName (info : ModelMappingInfo) (columnName : jsstr) : jsstr :=
  match lookup_prop columnName (columns info) with
  | Some modelColumnInfo => propertyName modelColumnInfo
  | None => @tm_getPropertyName (mappings info) columnName
  end.

Definition getFromModelFn (info : ModelMappingInfo) (propName : jsstr) : option mapping_fn :=
  lookup_prop propName (documentProperties info) ≫= fromModel.

Definition getToModelFn (info : ModelMappingInfo) (columnName : jsstr) : option mapping_fn :=
  lookup_prop columnName (columns info) ≫= toModel.

Definition newInstance (info : ModelMappingInfo) : list (jsstr * jsval) := @tm_newObjectInstance (mappings info).

Definition createDefault (modelName currentKeyspace : jsstr) : ModelMappingInfo :=
  new_ModelMappingInfo currentKeyspace [mkTable modelName false] DefaultTableMappings [].

(** The options of a model; an empty string stands for a falsy one. *)
Inductive table_option : Type :=
| TableName (name : jsstr)
| TableObject (name : jsstr) (isView : bool)
| TableFalsy.

Inductive mappings_option : Type := NoMappings | IsMappings (m : TableMappings) | NotMappings.

Record model_options : Type := mkModelOptions {
  mo_tables : list table_option;
  mo_mappings : mappings_option;
  mo_columns : list (jsstr * column_option);
  mo_keyspace : jsstr }.

Definition parse_table (item : table_option) : result table_ref :=
  let table :=
    match item with
    | TableName name => mkTable name false
    | TableObject name isView => mkTable name isView
    | TableFalsy => mkTable [] false
    end in
  match t_name table with
  | [] => Err (PlainError "Table name not specified for model")
  | _ => Ok table
  end.

Definition is_empty (s : jsstr) : bool := match s with [] => true | _ => false end.

(** [#create]; [modelOptions] is none when it is falsy. *)
Definition create (modelName currentKeyspace : jsstr) (modelOptions : option model_options)
    : result ModelMappingInfo :=
  if is_empty currentKeyspace && match modelOptions with None => true | Some o => is_empty (mo_keyspace o) end then
    Err (PlainError "You should specify the keyspace of the model in the MappingOptions when the Client is not using a keyspace")
  else
    match modelOptions with
    | None => Ok (createDefault modelName currentKeyspace)
    | Some o =>
        tables ← match mo_tables o with
                 | [] => Ok [mkTable modelName false]
                 | items => traverse parse_table items
                 end;
        mappings ← match mo_mappings o with
                   | NotMappings => Err (PlainError "mappings should be an instance of TableMappings")
                   | NoMappings => Ok DefaultTableMappings
                   | IsMappings m => Ok m
                   end;
        columns ← traverse (fun e => c ← ModelColumnInfo_parse (fst e) (snd e); Ok (fst e, c)) (mo_columns o);
        Ok (new_ModelMappingInfo (if is_empty (mo_keyspace o) then currentKeyspace else mo_keyspace o)
              tables mappings columns)
    end.

(** [parse]: the mapping information of every model. *)
Definition parse (models : list (jsstr * option model_options)) (currentKeyspace : jsstr)
    : result (list (jsstr * ModelMappingInfo)) :=
  traverse (fun e => info ← create (fst e) currentKeyspace (snd e); Ok (fst e, info)) models.

(** ** Options of a document (doc-info-adapter.js) *)

(** [docInfo]; [fields] and [orderBy] are none and empty when they are falsy. *)
Record docInfo : Type := mkDocInfo {
  fields : list jsstr;
  limit : jsval;
  orderBy : option (list (jsstr * jsstr));
  ttl : jsval;
  ifNotExists : jsval;
  ifExists : jsval;
  when_ : option document;
  deleteOnlyColumns : jsval }.

(** No option is given. *)
Definition noInfo : docInfo := mkDocInfo [] JUndefined None JUndefined JUndefined JUndefined None JUndefined.

(** [typeof v === "number"] *)
Definition is_number (v : jsval) : bool := match v with JNumber _ => true | _ => false end.

(** [toUpperCase] follows the Unicode tables; on ASCII it is the usual map. *)
Class UpperCase : Type := {
  toUpperCase : jsstr -> jsstr;
  toUpperCase_ascii : forall s,
    Forall (fun c => 0 <= c < 128) s -> toUpperCase s = (fun c => if is_lower c then c - 32 else c) <$> s
}.

#[export] Instance ascii_upper : UpperCase.
Proof. refine {| toUpperCase := fmap (fun c => if is_lower c then c - 32 else c) |}. done. Defined.

(** What the queries are made of: a property with its column, its value in the document
    and the function of the user. *)
Record propertyInfo : Type := mkProperty {
  pi_propertyName : jsstr;
  pi_columnName : jsstr;
  pi_value : mval;
  pi_fromModel : option mapping_fn }.

(** The options of an execution: a profile name, nothing, or an object. *)
Inductive executionOptions : Type :=
| EoName (profile : jsstr)
| EoNone
| EoObject (o : queryOptions).

Module DocInfoAdapter.

Definition propertyInfo_of (doc : document) (info : ModelMappingInfo) (name : jsstr) : propertyInfo :=
  mkProperty name (getColumnName info name) (prop doc name) (getFromModelFn info name).

Definition getPropertiesInfo (docKeys : list jsstr) (docInfo : option docInfo) (doc : document)
    (info : ModelMappingInfo) : list propertyInfo :=
  let propertyKeys :=
    match docInfo with
    | Some d => match fields d with [] => docKeys | l => l end
    | None => docKeys
    end in
  propertyInfo_of doc info <$> propertyKeys.

Definition adaptOrderBy `{UpperCase} (docInfo : option docInfo) (info : ModelMappingInfo)
    : result (list (jsstr * jsstr)) :=
  match docInfo ≫= orderBy with
  | None => Ok []
  | Some l =>
      traverse (fun e =>
        let ordering := toUpperCase (snd e) in
        if negb (bool_decide (ordering = js "ASC")) && negb (bool_decide (ordering = js "DESC")) then
          Err (ArgumentError "Order must be either ASC or DESC")
        else Ok (getColumnName info (fst e), ordering)) l
  end.

(** The properties of the options the adapter sets. *)
Definition adapted (profile : profile_ref) (fetchSize pageState : jsval) (timestamp : timestamp_option)
    (logged isIdempotent counter : jsval) : queryOptions :=
  mkQuery JUndefined JUndefined JUndefined None [] profile fetchSize NoHints JUndefined isIdempotent JUndefined
    logged counter JUndefined pageState (JBool true) JUndefined None JUndefined JUndefined JUndefined
    JUndefined timestamp JUndefined.

Definition adaptOptions (o : executionOptions) (isIdempotent : jsval) : queryOptions :=
  match o with
  | EoName name => adapted (PName name) JUndefined JUndefined TUndefined JUndefined isIdempotent JUndefined
  | EoNone => adapted PUndefined JUndefined JUndefined TUndefined JUndefined isIdempotent JUndefined
  | EoObject o =>
      adapted (executionProfile o) JUndefined JUndefined (timestamp o) JUndefined
        (ifUndefined (ExecutionOptions.isIdempotent o) isIdempotent) JUndefined
  end.

Definition adaptAllOptions (o : executionOptions) (overrideIdempotency : bool) : queryOptions :=
  let idempotent v := if overrideIdempotency then JBool true else v in
  match o with
  | EoName name => adapted (PName name) JUndefined JUndefined TUndefined JUndefined (idempotent JUndefined) JUndefined
  | EoNone => adapted PUndefined JUndefined JUndefined TUndefined JUndefined (idempotent JUndefined) JUndefined
  | EoObject o =>
      adapted (executionProfile o) (fetchSize o) (pageState o) (timestamp o) JUndefined
        (idempotent (ExecutionOptions.isIdempotent o)) JUndefined
  end.

(** [v !== false] *)
Definition not_false (v : jsval) : bool := match v with JBool false => false | _ => true end.

Definition adaptBatchOptions (o : executionOptions) (isIdempotent isCounter : jsval) : queryOptions :=
  match o with
  | EoName name => adapted (PName name) JUndefined JUndefined TUndefined JUndefined isIdempotent isCounter
  | EoNone => adapted PUndefined JUndefined JUndefined TUndefined JUndefined isIdempotent isCounter
  | EoObject o =>
      adapted (executionProfile o) JUndefined JUndefined (timestamp o) (JBool (not_false (logged o)))
        (ifUndefined (ExecutionOptions.isIdempotent o) isIdempotent) isCounter
  end.

End DocInfoAdapter.

(** ** Cache keys (cache.js) *)

(** A part of a key: a string, or the [inverted] flag of an assignment. *)
Inductive keyPart : Type := PStr (s : jsstr) | PBool (b : bool).

#[export] Instance keyPart_eq_dec : EqDecision keyPart.
Proof. solve_decision. Defined.

Module Cache.

Fixpoint yieldOperators (value : mval) : list keyPart :=
  match value with
  | QueryOperator key _ _ => [PStr key]
  | QueryAnd v0 v1 => PStr (js "AND") :: yieldOperators v0 ++ PStr (js "|/|") :: yieldOperators v1
  | _ => []
  end.

Definition yieldKeyAndOperators (keys : list jsstr) (obj : document) : list keyPart :=
  concat ((fun key => PStr key :: yieldOperators (prop obj key)) <$> keys).

Definition yieldQs (value : mval) : list keyPart :=
  match value with
  | QueryAssignment sign _ inverted => [PStr sign; PBool inverted]
  | _ => yieldOperators value
  end.

Definition yieldKeyAndAllQs (keys : list jsstr) (obj : document) : list keyPart :=
  concat ((fun key => PStr key :: yieldQs (prop obj key)) <$> keys).

(** The separator and the names of [docInfo.fields]. *)
Definition yieldFields (d : docInfo) : list keyPart :=
  match fields d with [] => [] | l => PStr (js "|f|") :: (PStr <$> l) end.

(** [if (b) yield mark] *)
Definition mark (b : bool) (m : string) : list keyPart := if b then [PStr (js m)] else [].

Definition getSelectDocInfo (info : option docInfo) : list keyPart :=
  match info with
  | None => []
  | Some d =>
      yieldFields d ++ mark (is_number (limit d)) "|l|" ++
      match orderBy d with
      | None => []
      | Some l => PStr (js "|o|") :: concat ((fun e => [PStr (fst e); PStr (snd e)]) <$> l)
      end
  end.

Definition getSelectKey (docKeys : list jsstr) (doc : document) (info : option docInfo) : list keyPart :=
  yieldKeyAndOperators docKeys doc ++ getSelectDocInfo info.

Definition getSelectAllKey (info : option docInfo) : list keyPart := PStr (js "root") :: getSelectDocInfo info.

Definition getInsertKey (docKeys : list jsstr) (info : option docInfo) : list keyPart :=
  (PStr <$> docKeys) ++
  match info with
  | None => []
  | Some d => yieldFields d ++ mark (is_number (ttl d)) "|t|" ++ mark (truthy (ifNotExists d)) "|e|"
  end.

(** The conditions of an UPDATE or DELETE. *)
Definition yieldWhen (d : docInfo) : list keyPart :=
  match when_ d with None => [] | Some w => yieldKeyAndOperators (fst <$> w) w end.

Definition getUpdateKey (docKeys : list jsstr) (doc : document) (info : option docInfo) : list keyPart :=
  yieldKeyAndAllQs docKeys doc ++
  match info with
  | None => []
  | Some d =>
      yieldFields d ++ mark (is_number (ttl d)) "|t|" ++ mark (truthy (ifExists d)) "|e|" ++ yieldWhen d
  end.

Definition getRemoveKey (docKeys : list jsstr) (doc : document) (info : option docInfo) : list keyPart :=
  yieldKeyAndOperators docKeys doc ++
  match info with
  | None => []
  | Some d =>
      yieldFields d ++ mark (truthy (ifExists d)) "|e|" ++ mark (truthy (deleteOnlyColumns d)) "|dc|" ++ yieldWhen d
  end.

End Cache.

(** ** Names *)

Module Names.
Import UnderscoreCqlToCamelCaseMappings.

Definition ascii (c : Z) : Prop := 0 <= c < 128.

Lemma lower_id a : is_upper a = false -> lower_ascii a = a.
Proof. unfold is_upper, lower_ascii. destruct ((65 <=? a) && (a <=? 90)) eqn:E; [done|]. done. Qed.

Lemma lower_capital b : is_lower b = true -> lower_ascii (b - 32) = b.
Proof. unfold is_lower, lower_ascii. intros [H1%Z.leb_le H2%Z.leb_le]%andb_prop. repeat case_Z; cbn [andb]; lia. Qed.

Lemma upper_capital b : is_lower b = true -> is_upper (b - 32) = true /\ is_lower (b - 32) = false.
Proof.
  unfold is_lower, is_upper. intros [H1%Z.leb_le H2%Z.leb_le]%andb_prop.
  split; [apply andb_true_intro; split; apply Z.leb_le; lia|]. repeat case_Z; try lia; done.
Qed.

Lemma lower_not_upper a : is_lower a = true -> is_upper a = false.
Proof. unfold is_lower, is_upper. intros [H1%Z.leb_le H2%Z.leb_le]%andb_prop. repeat case_Z; try lia; done. Qed.

Lemma split_skip a s : is_lower a = false -> camel_split (a :: s) = a :: camel_split s.
Proof. intros Ha. destruct s as [|b s]; [done|]. cbn. by rewrite Ha. Qed.

Lemma split_next p a s : is_upper a = false -> camel_split (p :: a :: s) = p :: camel_split (a :: s).
Proof. intros Ha. cbn. by rewrite Ha, andb_false_r. Qed.

Lemma split_match p b s : is_lower p = true -> is_upper b = true ->
  camel_split (p :: b :: s) = p :: underscore :: b :: camel_split s.
Proof. intros Hp Hb. cbn. by rewrite Hp, Hb. Qed.

Lemma join_cons2 first a b s : snake_join first (a :: b :: s)
  = if (a =? underscore) && is_lower b then
      if first then a :: b :: snake_join false s else (b - 32) :: snake_join false s
    else a :: snake_join false (b :: s).
Proof. done. Qed.

Lemma rest_cons2 prev a b s : snake_rest prev (a :: b :: s)
  = if (a =? underscore) && is_lower b then prev && snake_rest false s
    else (0 <=? a) && (a <? 128) && negb (is_upper a) && snake_rest (is_lower a) (b :: s).
Proof. done. Qed.

(** The conversion back, where the name so far does or does not end in a small letter. *)
Lemma camel_of_snake n s : (length s <= n)%nat ->
  (snake_rest false s = true -> lower_ascii <$> camel_split (snake_join false s) = s) /\
  (forall p, is_lower p = true -> snake_rest true s = true ->
     lower_ascii <$> camel_split (p :: snake_join false s) = p :: s).
Proof.
  revert s. induction n as [|n IH]; intros s Hn.
  { destruct s; [|cbn in Hn; lia]. split; [done|]. intros p Hp _. cbn. by rewrite lower_id by by apply lower_not_upper. }
  destruct s as [|a s]; [apply IH; cbn; lia|].
  assert (Hplain : (0 <=? a) && (a <? 128) && negb (is_upper a) && snake_rest (is_lower a) s = true ->
    lower_ascii <$> camel_split (a :: snake_join false s) = a :: s /\ is_upper a = false).
  { intros [[_ Hu%negb_true_iff]%andb_prop Hs]%andb_prop. split; [|done]. destruct (IH s) as [IH1 IH2]; [cbn in Hn; lia|].
    destruct (is_lower a) eqn:Ha; [by apply IH2|]. rewrite split_skip, fmap_cons, lower_id by done. by rewrite IH1. }
  destruct s as [|b s].
  { rewrite andb_true_r in Hplain. split; [by intros [? _]%Hplain|]. intros p Hp Hs. destruct (Hplain Hs) as [E Hu].
    cbn [snake_join] in *. rewrite split_next, fmap_cons, E, lower_id by (done || by apply lower_not_upper). done. }
  rewrite !rest_cons2, join_cons2. destruct ((a =? underscore) && is_lower b) eqn:Hab.
  - split; [done|]. intros p Hp Hs. apply andb_prop in Hab as [->%Z.eqb_eq Hb]. destruct (upper_capital b Hb) as [Hu _].
    rewrite split_match, !fmap_cons, lower_capital, (lower_id p) by (done || by apply lower_not_upper).
    destruct (IH s) as [-> _]; [cbn in Hn; lia|done|done].
  - split; [by intros [? _]%Hplain|]. intros p Hp Hs. destruct (Hplain Hs) as [E Hu].
    rewrite split_next, fmap_cons, E, lower_id by (done || by apply lower_not_upper). done.
Qed.

Lemma ascii_lower b : is_lower b = true -> ascii b.
Proof. unfold is_lower, ascii. intros [H1%Z.leb_le H2%Z.leb_le]%andb_prop. lia. Qed.

Lemma snake_rest_ascii n prev s : (length s <= n)%nat -> snake_rest prev s = true -> Forall ascii s.
Proof.
  revert prev s. induction n as [|n IH]; intros prev s Hn; [destruct s; [constructor|cbn in Hn; lia]|].
  destruct s as [|a s]; [constructor|].
  assert (Hplain : (0 <=? a) && (a <? 128) = true -> ascii a).
  { intros [?%Z.leb_le ?%Z.ltb_lt]%andb_prop. unfold ascii. lia. }
  destruct s as [|b s]; [cbn [snake_rest]|rewrite rest_cons2].
  - intros [?%Hplain _]%andb_prop. by apply Forall_singleton.
  - destruct ((a =? underscore) && is_lower b) eqn:Hab.
    + apply andb_prop in Hab as [->%Z.eqb_eq Hb%ascii_lower]. intros [_ Hs]%andb_prop.
      constructor; [unfold ascii, underscore; lia|]. constructor; [done|]. eapply IH; [|done]. cbn in Hn. lia.
    + intros [[?%Hplain _]%andb_prop Hs]%andb_prop. constructor; [done|]. eapply IH; [|done]. cbn in *. lia.
Qed.

Lemma split_ascii n s : (length s <= n)%nat -> Forall ascii s -> Forall ascii (camel_split s).
Proof.
  revert s. induction n as [|n IH]; intros s Hn Hs; [destruct s; [constructor|cbn in Hn; lia]|].
  destruct Hs as [|a s Ha Hs]; [constructor|]. destruct s as [|b s]; [by apply Forall_singleton|]. cbn [camel_split].
  apply Forall_cons_1 in Hs as [Hb Hs]. destruct (_ && _).
  - apply Forall_cons_2; [done|]. apply Forall_cons_2; [unfold ascii, underscore; lia|]. apply Forall_cons_2; [done|].
    apply IH; [cbn in Hn; lia|done].
  - constructor; [done|]. apply (IH (b :: s)); [cbn in *; lia|by constructor].
Qed.

Lemma join_ascii n first s : (length s <= n)%nat -> Forall ascii s -> Forall ascii (snake_join first s).
Proof.
  revert first s. induction n as [|n IH]; intros first s Hn Hs; [destruct s; [constructor|cbn in Hn; lia]|].
  destruct Hs as [|a s Ha Hs]; [constructor|]. destruct s as [|b s]; [by apply Forall_singleton|]. rewrite join_cons2.
  pose proof Hs as [Hb Hs']%Forall_cons_1. destruct (_ && is_lower b) eqn:E.
  - apply andb_prop in E as [_ Hl]. unfold is_lower in Hl. apply andb_prop in Hl as [?%Z.leb_le ?%Z.leb_le].
    assert (Hr : Forall ascii (snake_join false s)) by (apply IH; [cbn in Hn; lia|done]).
    destruct first; repeat apply Forall_cons_2; [done..|unfold ascii in *; lia|done].
  - constructor; [done|]. apply IH; [cbn in *; lia|done].
Qed.

(** The conversion to camel case, where the name so far does or does not end in a small
    letter. *)
Lemma snake_of_camel n s : (length s <= n)%nat ->
  (camel false s = true -> forall first, snake_join first (lower_ascii <$> camel_split s) = s) /\
  (forall p first, is_lower p = true -> camel true s = true ->
     snake_join first (lower_ascii <$> camel_split (p :: s)) = p :: s).
Proof.
  assert (Hkeep : forall first a s, a <> underscore -> snake_join first (a :: s) = a :: snake_join false s).
  { intros first a t Ha. destruct t as [|b t]; [done|]. rewrite join_cons2, (proj2 (Z.eqb_neq a underscore)) by done. done. }
  assert (Hlow : forall p, is_lower p = true -> p <> underscore).
  { unfold is_lower, underscore. intros p [? ?]%andb_prop ->. done. }
  revert s. induction n as [|n IH]; intros s Hn.
  { destruct s; [|cbn in Hn; lia]. split; [done|]. intros p first Hp _. cbn. by rewrite lower_id by by apply lower_not_upper. }
  destruct s as [|a s]; [apply IH; cbn; lia|]. destruct (IH s) as [IH1 IH2]; [cbn in Hn; lia|].
  assert (Hplain : camel (is_lower a) s = true -> a <> underscore -> is_upper a = false ->
    forall first, snake_join first (lower_ascii <$> camel_split (a :: s)) = a :: s).
  { intros Hs Ha Hu first. destruct (is_lower a) eqn:Hl; [by apply IH2|].
    rewrite split_skip, fmap_cons, lower_id, Hkeep, IH1 by done. done. }
  cbn [camel]. split.
  - intros [[[_ Ha%negb_true_iff%Z.eqb_neq]%andb_prop Hu]%andb_prop Hs]%andb_prop first.
    destruct (is_upper a) eqn:Hup; [done|]. by apply Hplain.
  - intros p first Hp [[[_ Ha%negb_true_iff%Z.eqb_neq]%andb_prop _]%andb_prop Hs]%andb_prop.
    destruct (is_upper a) eqn:Hup.
    + assert (Hl : is_lower a = false) by (destruct (is_lower a) eqn:E; [apply lower_not_upper in E; congruence|done]).
      assert (Hla : is_lower (lower_ascii a) = true /\ lower_ascii a - 32 = a).
      { unfold lower_ascii. unfold is_upper in Hup. rewrite Hup. apply andb_prop in Hup as [?%Z.leb_le ?%Z.leb_le].
        split; [|lia]. unfold is_lower. apply andb_true_intro. split; apply Z.leb_le; lia. }
      destruct Hla as [Hla1 Hla2]. rewrite Hl in Hs.
      rewrite split_match, !fmap_cons, (lower_id p), Hkeep by (auto using lower_not_upper).
      change (lower_ascii underscore) with underscore. rewrite join_cons2, Z.eqb_refl, Hla1, Hla2. cbn [andb]. by rewrite IH1.
    + rewrite split_next, fmap_cons, (lower_id p), Hkeep by (auto using lower_not_upper). by rewrite Hplain.
Qed.

Lemma camel_ascii prev s : camel prev s = true -> Forall ascii s.
Proof.
  revert prev. induction s as [|a s IH]; intros prev; [constructor|]. cbn [camel].
  intros [[[[?%Z.leb_le ?%Z.ltb_lt]%andb_prop _]%andb_prop _]%andb_prop Hs]%andb_prop.
  constructor; [unfold ascii; lia|by eapply IH].
Qed.

Lemma getColumnName_ascii `{Unicode} s : Forall ascii s ->
  UnderscoreCqlToCamelCaseMappings.getColumnName s = lower_ascii <$> camel_split s.
Proof.
  intros Hs. unfold UnderscoreCqlToCamelCaseMappings.getColumnName. rewrite toLowerCase_ascii; [done|].
  by apply (split_ascii (length s)).
Qed.

Lemma snake_column `{Unicode} c : snake c = true ->
  UnderscoreCqlToCamelCaseMappings.getColumnName (UnderscoreCqlToCamelCaseMappings.getPropertyName c) = c.
Proof.
  intros Hc.
  assert (Ha : Forall ascii c /\ lower_ascii <$> camel_split (snake_join true c) = c).
  { destruct c as [|a [|b s]]; [split; [constructor|done] | | ].
    - change (snake_rest false [a] = true) in Hc. split; [apply (snake_rest_ascii 1 false); [cbn; lia|done]|].
      cbn in *. rewrite lower_id; [done|]. by apply andb_prop in Hc as [_ ?%negb_true_iff].
    - cbn [snake] in Hc. destruct ((a =? underscore) && is_lower b) eqn:Hab.
      + rewrite join_cons2, Hab. apply andb_prop in Hab as [->%Z.eqb_eq Hb]. split.
        * constructor; [unfold ascii, underscore; lia|]. constructor; [by apply ascii_lower|].
          by apply (snake_rest_ascii (length s) true).
        * rewrite split_skip by done. rewrite fmap_cons. by rewrite (proj2 (camel_of_snake (length s) s (le_n _))).
      + split; [apply (snake_rest_ascii (S (S (length s))) false); [cbn; lia|done]|].
        transitivity (lower_ascii <$> camel_split (snake_join false (a :: b :: s))).
        { rewrite !join_cons2. by rewrite Hab. }
        by apply (camel_of_snake (length (a :: b :: s))). }
  rewrite getColumnName_ascii; [apply Ha|]. apply (join_ascii (length c)); [lia|apply Ha].
Qed.

Lemma camel_property `{Unicode} p : camel false p = true ->
  UnderscoreCqlToCamelCaseMappings.getPropertyName (UnderscoreCqlToCamelCaseMappings.getColumnName p) = p.
Proof.
  intros Hp. rewrite getColumnName_ascii by (by eapply camel_ascii). by apply (snake_of_camel (length p)).
Qed.

(** The naming convention of the mapper is a bijection between the names that follow
    it: the property name of a snake case column leads back to that column, and the column
    name of a camel case property leads back to that property. *)
Theorem camel_snake_inverse `{Unicode} c p : snake c = true -> camel false p = true ->
  UnderscoreCqlToCamelCaseMappings.getColumnName (UnderscoreCqlToCamelCaseMappings.getPropertyName c) = c /\
  UnderscoreCqlToCamelCaseMappings.getPropertyName (UnderscoreCqlToCamelCaseMappings.getColumnName p) = p.
Proof. intros Hc Hp. split; [by apply snake_column|by apply camel_property]. Qed.

Lemma camel_snake_inverse_witness :
  UnderscoreCqlToCamelCaseMappings.getPropertyName (js "_user_id_v2") = js "_userIdV2" /\
  UnderscoreCqlToCamelCaseMappings.getColumnName (js "_userIdV2") = js "_user_id_v2" /\
  UnderscoreCqlToCamelCaseMappings.getPropertyName (UnderscoreCqlToCamelCaseMappings.getColumnName (js "userIdV2")) = js "userIdV2".
Proof.
  destruct (camel_snake_inverse (js "_user_id_v2") (js "userIdV2") eq_refl eq_refl) as [H1 H2].
  split; [reflexivity|]. split; [exact H1|exact H2].
Defined.

(** A word of one letter, or one that ends in a digit, is not found again. *)
Lemma camel_snake_words :
  UnderscoreCqlToCamelCaseMappings.getColumnName (UnderscoreCqlToCamelCaseMappings.getPropertyName (js "a_b_c")) = js "a_bc" /\
  UnderscoreCqlToCamelCaseMappings.getColumnName (UnderscoreCqlToCamelCaseMappings.getPropertyName (js "line1_text")) = js "line1text".
Proof. split; reflexivity. Qed.

End Names.

(** ** Mapping information *)

Lemma lookup_assoc_set {A} k (v : A) k' l :
  lookup_prop k' (assoc_set k v l) = if bool_decide (k = k') then Some v else lookup_prop k' l.
Proof.
  induction l as [|e l IH]; cbn [assoc_set]; [by rewrite lookup_prop_cons|].
  destruct (decide (fst e = k)) as [E|E].
  - rewrite bool_decide_true, !lookup_prop_cons by done. cbn [fst snd]. rewrite E. by case_bool_decide.
  - rewrite (bool_decide_false (fst e = k)), !lookup_prop_cons, IH by done.
    destruct (decide (fst e = k')) as [<-|Hk']; [|by rewrite (bool_decide_false (fst e = k'))].
    rewrite (bool_decide_true (fst e = fst e)) by done. by rewrite bool_decide_false.
Qed.

(** The columns by property name: the last column of a property counts. *)
Lemma lookup_documentProperties cols acc p :
  lookup_prop p (fold_left (fun m e => assoc_set (propertyName (snd e)) (snd e) m) cols acc)
  = match List.find (fun e : jsstr * ModelColumnInfo => bool_decide (propertyName (snd e) = p)) (rev cols) with
    | Some e => Some (snd e)
    | None => lookup_prop p acc
    end.
Proof.
  revert acc. induction cols as [|e cols IH]; intros acc; [done|]. cbn [fold_left rev]. rewrite IH, lookup_assoc_set.
  assert (Hf : forall f (l1 l2 : list (jsstr * ModelColumnInfo)),
    List.find f (l1 ++ l2) = match List.find f l1 with Some x => Some x | None => List.find f l2 end).
  { intros f l1 l2. induction l1 as [|x l1 IHl]; [done|]. cbn. by destruct (f x). }
  rewrite Hf. destruct (List.find _ (rev cols)); [done|]. cbn. by case_bool_decide.
Qed.

(** What the class maintains: every column is kept under its own name, no two under one. *)
Definition wf_columns (cols : list (jsstr * ModelColumnInfo)) : Prop :=
  NoDup (fst <$> cols) /\ Forall (fun e => columnName (snd e) = fst e) cols.

Record wf_info (info : ModelMappingInfo) : Prop := {
  wi_keyspace : keyspace info <> [];
  wi_tables : tables info <> [];
  wi_names : Forall (fun t => t_name t <> []) (tables info);
  wi_columns : wf_columns (columns info);
  wi_properties : info = new_ModelMappingInfo (keyspace info) (tables info) (mappings info) (columns info) }.

Lemma parse_columns_wf opts cols :
  NoDup (fst <$> opts) ->
  traverse (fun e => c ← ModelColumnInfo_parse (fst e) (snd e); Ok (fst e, c)) opts = Ok cols -> wf_columns cols.
Proof.
  intros Hnd Hp. apply traverse_ok in Hp.
  assert (Hone : Forall2 (fun o e => fst e = fst o /\ columnName (snd e) = fst e) opts cols).
  { eapply Forall2_impl; [|exact Hp]. intros [k o] e. cbn [fst snd]. intros (c & Hc & [= <-])%bind_ok. cbn [fst snd].
    split; [done|]. destruct o as [|[|x nm]|[|x nm] [] []]; cbn in Hc; (discriminate Hc || by injection Hc as <-). }
  assert (Hk : fst <$> cols = fst <$> opts).
  { clear Hp Hnd. induction Hone as [|o e opts cols [He _] _ IH]; [done|]. by rewrite !fmap_cons, He, IH. }
  split; [by rewrite Hk|]. apply Forall_forall. intros e [i Hi]%list_elem_of_In%list_elem_of_lookup.
  destruct (Forall2_lookup_r _ _ _ _ _ Hone Hi) as (? & _ & _ & ?). done.
Qed.

Lemma create_wf_lemma modelName currentKeyspace opts info :
  modelName <> [] -> NoDup (fst <$> default [] (mo_columns <$> opts)) ->
  create modelName currentKeyspace opts = Ok info -> wf_info info.
Proof.
  intros Hm Hnd. unfold create. destruct (_ && _) eqn:Hk; [done|].
  destruct opts as [o|]; cbn [default fmap option_fmap option_map] in *.
  - intros (ts & Hts & (m & Hmm & (cols & Hcols%parse_columns_wf & [= <-])%bind_ok)%bind_ok)%bind_ok; [|done].
    assert (Ht : ts <> [] /\ Forall (fun t => t_name t <> []) ts).
    { destruct (mo_tables o) as [|i items]; [injection Hts as <-; split; [done|by apply Forall_singleton]|].
      apply traverse_ok in Hts. split; [by inversion Hts|]. clear -Hts. induction Hts as [|x t ? ? Hx _ IH]; constructor; [|done].
      unfold parse_table in Hx. destruct (t_name _) eqn:E; [done|]. injection Hx as <-. congruence. }
    split; cbn [keyspace tables columns new_ModelMappingInfo]; [|apply Ht|apply Ht|done|done].
    destruct (mo_keyspace o); cbn in *; [|done]. by destruct currentKeyspace.
  - intros [= <-]. split; cbn; [by destruct currentKeyspace|done|by apply Forall_singleton|by split; constructor|done].
Qed.

(** The mapping information made of the user's options is well formed: it has a
    keyspace and at least one table, every table has a name, every column is kept once,
    under its own name, and the properties are those of the columns. *)
Theorem create_wf modelName currentKeyspace opts info :
  modelName <> [] -> NoDup (fst <$> default [] (mo_columns <$> opts)) ->
  create modelName currentKeyspace opts = Ok info -> wf_info info.
Proof. apply create_wf_lemma. Qed.

Definition sample_options : model_options :=
  mkModelOptions [TableName (js "users"); TableObject (js "users_by_name") true] NoMappings
    [(js "user_id", ColName (js "id")); (js "full_name", ColObject [] FnNone FnNone)] [].

Lemma create_wf_witness :
  exists info, create (js "User") (js "ks") (Some sample_options) = Ok info /\ wf_info info /\
    tables info = [mkTable (js "users") false; mkTable (js "users_by_name") true] /\
    getColumnName info (js "id") = js "user_id".
Proof.
  eexists. split; [reflexivity|]. split; [|split; reflexivity].
  apply (create_wf (js "User") (js "ks") (Some sample_options)); [discriminate| |reflexivity].
  exact (bool_decide_eq_true_1 (NoDup [js "user_id"; js "full_name"]) eq_refl).
Defined.

(** The property a column is read into is written back to that column: for a column
    of the options when the properties of the columns are different, and for another
    column when the convention leads back to it and no column of the options has taken
    its property. *)
Theorem names_roundtrip info c :
  wf_info info -> NoDup ((fun e => propertyName (snd e)) <$> columns info) ->
  (c ∈ fst <$> columns info \/
   @tm_getColumnName (mappings info) (@tm_getPropertyName (mappings info) c) = c /\
   @tm_getPropertyName (mappings info) c ∉ (fun e => propertyName (snd e)) <$> columns info) ->
  getColumnName info (getPropertyName info c) = c.
Proof.
  intros [_ _ _ [Hnd Hcol] ->] Hprop Hc. unfold getColumnName, getPropertyName. cbn [columns documentProperties mappings new_ModelMappingInfo] in *.
  rewrite lookup_documentProperties. destruct (lookup_prop c (columns info)) as [ci|] eqn:Hl.
  - assert (Hin : (c, ci) ∈ columns info) by by apply lookup_prop_In.
    destruct (List.find _ (rev (columns info))) as [e|] eqn:Hf.
    + apply find_some in Hf as [He%in_rev%list_elem_of_In Hp%bool_decide_eq_true].
      rewrite Forall_forall in Hcol. rewrite (Hcol e) by by apply list_elem_of_In.
      apply list_elem_of_lookup in He as [i Hi]. apply list_elem_of_lookup in Hin as [j Hj].
      assert (i = j) as <-; [|rewrite Hi in Hj; by injection Hj as ->]. eapply NoDup_lookup; [exact Hprop|by rewrite list_lookup_fmap, Hi|].
      rewrite list_lookup_fmap, Hj. cbn. by rewrite Hp.
    + apply find_none with (x := (c, ci)) in Hf; [|by apply in_rev; rewrite rev_involutive; apply list_elem_of_In].
      by rewrite bool_decide_true in Hf.
  - destruct Hc as [[[k ci] [-> Hin]]%list_elem_of_fmap|[Hc Hnp]].
    { apply (lookup_prop_elem k ci) in Hin; [|done]. cbn in Hl. congruence. }
    destruct (List.find _ (rev (columns info))) as [e|] eqn:Hf; [|done].
    apply find_some in Hf as [He%in_rev%list_elem_of_In Hp%bool_decide_eq_true]. destruct Hnp. rewrite <- Hp.
    by apply (list_elem_of_fmap_2 (fun e => propertyName (snd e))).
Qed.

Lemma names_roundtrip_witness :
  exists info, create (js "User") (js "ks") (Some sample_options) = Ok info /\
    getColumnName info (getPropertyName info (js "user_id")) = js "user_id" /\
    getColumnName info (getPropertyName info (js "email")) = js "email".
Proof.
  assert (Hnd : NoDup [js "id"; js "full_name"]) by exact (bool_decide_eq_true_1 (NoDup [js "id"; js "full_name"]) eq_refl).
  eexists. split; [reflexivity|]. split; apply names_roundtrip.
  1, 4: (apply (create_wf_lemma (js "User") (js "ks") (Some sample_options)); [discriminate| |reflexivity];
    exact (bool_decide_eq_true_1 (NoDup [js "user_id"; js "full_name"]) eq_refl)).
  1, 3: exact Hnd.
  - left. exact (bool_decide_eq_true_1 (js "user_id" ∈ [js "user_id"; js "full_name"]) eq_refl).
  - right. split; [reflexivity|]. exact (bool_decide_eq_true_1 (js "email" ∉ [js "id"; js "full_name"]) eq_refl).
Defined.
