(* ===== verification/QueryGen.v ===== *)
(** * Mapper: tables and queries

    lib/mapping/object-selector.js ([ObjectSelector]) and lib/mapping/query-generator.js
    ([QueryGenerator]): the tables that a document concerns, the text of the queries and
    the functions that take the parameters out of a document.

    Those functions are scripts.  [Script] reads the expressions that the generator
    writes: a property of the document, of the options or of the conditions, a path of
    [value] accesses in it, and a call of the user's function; anything else is a syntax
    error here.

    The theorems: which tables are selected; a script that the generator writes is read
    as the expressions it was written from; the parameters of a query are the operands of
    its conditions, in the order of the placeholders. *)

From stdpp Require Import list.
From S2P Require Import Prelude JsNumber Buffer JsString CqlTypes JsValue Encoder Timestamps Collections ExecutionOptions Mapping.

(** ** Metadata of tables *)

(** What the mapper reads of the metadata of a table: names of the keys, whether each
    column is static, and the type codes of the columns by name. *)
Record tableMetadata : Type := mkTableMetadata {
  tm_name : jsstr;
  partitionKeys : list jsstr;
  clusteringKeys : list jsstr;
  staticFlags : list bool;
  columnsByName : list (jsstr * Z) }.

(** [table.columnsByName[name] !== undefined] *)
Definition has_column (table : tableMetadata) (name : jsstr) : bool :=
  match lookup_prop name (columnsByName table) with Some _ => true | None => false end.

(** ** ObjectSelector *)

Module ObjectSelector.

Inductive keyMatches : Type := all | none | some.

#[export] Instance keyMatches_eq_dec : EqDecision keyMatches.
Proof. solve_decision. Defined.

(** [contains(keys, k => k.name === name)] *)
Definition contains (keys : list jsstr) (name : jsstr) : bool :=
  (0 <? length (List.filter (fun k => bool_decide (k = name)) keys))%nat.

(** [l.reduce((acc, p) => acc + (f(p) ? 1 : 0), 0)] *)
Definition count_if {A} (f : A -> bool) (l : list A) : nat :=
  fold_left (fun acc x => (acc + if f x then 1 else 0)%nat) l 0%nat.

(** [l.reduce((acc, p) => acc && f(p), true)] *)
Definition all_of {A} (f : A -> bool) (l : list A) : bool := fold_left (fun acc x => acc && f x) l true.

Definition keysAreIncluded (keys : list jsstr) (propertiesInfo : list propertyInfo) : keyMatches :=
  match keys with
  | [] => all
  | _ =>
      let matches := count_if (fun p => contains keys (pi_columnName p)) propertiesInfo in
      if (matches =? 0)%nat then none else if (matches =? length keys)%nat then all else some
  end.

Definition staticColumnCount (table : tableMetadata) : nat := count_if (fun b => b) (staticFlags table).
Definition hasStaticColumn (table : tableMetadata) : bool := (0 <? staticColumnCount table)%nat.

(** The columns of the order are the first clustering keys; [acc] is the reduction's. *)
Fixpoint order_matches (clusteringKeys : list jsstr) (orderByColumns : list (jsstr * jsstr)) (acc : bool) : bool :=
  match orderByColumns with
  | [] => acc
  | o :: orderByColumns =>
      order_matches (tail clusteringKeys) orderByColumns
        (acc && match clusteringKeys with ck :: _ => bool_decide (ck = fst o) | [] => false end)
  end.

(** The body of the loop of [getForSelect]: no [continue] is reached. *)
Definition select_matches (allPKsDefined : bool) (propertiesInfo fieldsInfo : list propertyInfo)
    (orderByColumns : list (jsstr * jsstr)) (table : tableMetadata) : bool :=
  bool_decide (keysAreIncluded (partitionKeys table) propertiesInfo = all) &&
  (if allPKsDefined then bool_decide (keysAreIncluded (clusteringKeys table) propertiesInfo = all) else true) &&
  (if (length (partitionKeys table) <? length propertiesInfo)%nat then
     all_of (fun p => contains (partitionKeys table) (pi_columnName p) || contains (clusteringKeys table) (pi_columnName p))
       propertiesInfo
   else true) &&
  all_of (fun p => has_column table (pi_columnName p)) fieldsInfo &&
  order_matches (clusteringKeys table) orderByColumns true.

(** The loop of [getForSelect]; a table that could not be retrieved is null. *)
Fixpoint select_loop (matches : tableMetadata -> bool) (tables : list (option tableMetadata)) : result jsstr :=
  match tables with
  | [] => Err (PlainError "No table matches the filter")
  | None :: _ => Err (PlainError "Table could not be retrieved")
  | Some table :: tables => if matches table then Ok (tm_name table) else select_loop matches tables
  end.

(** [tables] are what the metadata returned for the tables and views of the model. *)
Definition getForSelect (tables : list (option tableMetadata)) (allPKsDefined : bool)
    (propertiesInfo fieldsInfo : list propertyInfo) (orderByColumns : list (jsstr * jsstr)) : result jsstr :=
  select_loop (select_matches allPKsDefined propertiesInfo fieldsInfo orderByColumns) tables.

Definition getForSelectAll (info : ModelMappingInfo) : result jsstr :=
  match tables info with
  | t :: _ => Ok (t_name t)
  | [] => Err (TypeError "Cannot read properties of undefined (reading 'name')")
  end.

(** [tables.filter(...)] with a null check. *)
Definition filter_tables (matches : tableMetadata -> bool) (tables : list (option tableMetadata))
    : result (list tableMetadata) :=
  found ← traverse (fun t =>
    match t with
    | None => Err (PlainError "Table could not be retrieved")
    | Some table => Ok (if matches table then [table] else [])
    end) tables;
  match mjoin found with
  | [] => Err (PlainError "No table matches")
  | l => Ok l
  end.

Definition insert_matches (propertiesInfo : list propertyInfo) (table : tableMetadata) : bool :=
  if negb (bool_decide (keysAreIncluded (partitionKeys table) propertiesInfo = all)) then false
  else
    match keysAreIncluded (clusteringKeys table) propertiesInfo with
    | all => true
    | some => false
    | none =>
        let staticColumns := staticColumnCount table in
        (length propertiesInfo =? length (partitionKeys table) + staticColumns)%nat && (0 <? staticColumns)%nat
    end.

(** [tables] are what the metadata returned for the tables of the model that are no
    views, here and below. *)
Definition getForInsert (tables : list (option tableMetadata)) (propertiesInfo : list propertyInfo)
    : result (list tableMetadata) := filter_tables (insert_matches propertiesInfo) tables.

Definition when_matches (when_ : list propertyInfo) (table : tableMetadata) : bool :=
  all_of (fun p => has_column table (pi_columnName p)) when_.

Definition update_matches (propertiesInfo when_ : list propertyInfo) (table : tableMetadata) : bool :=
  if negb (bool_decide (keysAreIncluded (partitionKeys table) propertiesInfo = all)) then false
  else
    let clusteringKeyMatches := keysAreIncluded (clusteringKeys table) propertiesInfo in
    if bool_decide (clusteringKeyMatches = some) then false
    else if bool_decide (clusteringKeyMatches = none) && negb (hasStaticColumn table) then false
    else
      let applicableColumns := count_if (fun p => has_column table (pi_columnName p)) propertiesInfo in
      if (applicableColumns <=? length (partitionKeys table) + length (clusteringKeys table))%nat &&
         (negb (hasStaticColumn table) || (applicableColumns <=? length (partitionKeys table))%nat) then false
      else when_matches when_ table.

Definition getForUpdate (tables : list (option tableMetadata)) (propertiesInfo when_ : list propertyInfo)
    : result (list tableMetadata) := filter_tables (update_matches propertiesInfo when_) tables.

Definition delete_matches (propertiesInfo when_ : list propertyInfo) (table : tableMetadata) : bool :=
  let keyNames := partitionKeys table ++ clusteringKeys table in
  let columns := pi_columnName <$> propertiesInfo in
  forallb (fun k => bool_decide (k ∈ columns)) keyNames && when_matches when_ table.

Definition getForDelete (tables : list (option tableMetadata)) (propertiesInfo when_ : list propertyInfo)
    : result (list tableMetadata) := filter_tables (delete_matches propertiesInfo when_) tables.

End ObjectSelector.

(** ** Scripts *)

Module Script.

Inductive object : Type := Doc | When | Info.

(** [.value[0]], [.value[1]], [.value] and [.value.map(v => f(v))] *)
Inductive access : Type := Value0 | Value1 | Value | MapCall (fn : jsstr).

(** A property of an object, a path in it, and the call around it. *)
Record getter : Type := mkGetter {
  g_object : object;
  g_property : jsstr;
  g_path : list access;
  g_call : option jsstr }.

(** *** Reading *)

(** The characters of a string literal between single quotes. *)
Definition literal_char (c : Z) : bool := negb ((c =? 39) || (c =? 92) || (c =? 10) || (c =? 13)).

Fixpoint literal (s : jsstr) : jsstr * jsstr :=
  match s with
  | c :: s' => if literal_char c then let '(n, r) := literal s' in (c :: n, r) else ([], s)
  | [] => ([], [])
  end.

(** A literal and what closes it. *)
Definition quoted (close s : jsstr) : option (jsstr * jsstr) :=
  let '(n, r) := literal s in r ← strip_prefix close r; Some (n, r).

Definition fn_open : jsstr := js "mappingInfo.getFromModelFn('".

Definition read_access (s : jsstr) : option (access * jsstr) :=
  match strip_prefix (js ".value[0]") s with
  | Some r => Some (Value0, r)
  | None =>
      match strip_prefix (js ".value[1]") s with
      | Some r => Some (Value1, r)
      | None =>
          match strip_prefix (js ".value.map(v => " ++ fn_open) s with
          | Some r => '(f, r) ← quoted (js "')(v))") r; Some (MapCall f, r)
          | None => r ← strip_prefix (js ".value") s; Some (Value, r)
          end
      end
  end.

Fixpoint read_path (fuel : nat) (s : jsstr) : list access * jsstr :=
  match fuel with
  | O => ([], s)
  | S fuel =>
      match read_access s with
      | Some (a, r) => let '(l, r) := read_path fuel r in (a :: l, r)
      | None => ([], s)
      end
  end.

Definition read_object (s : jsstr) : option (object * jsstr) :=
  match strip_prefix (js "docInfo.when['") s with
  | Some r => Some (When, r)
  | None =>
      match strip_prefix (js "docInfo['") s with
      | Some r => Some (Info, r)
      | None => r ← strip_prefix (js "doc['") s; Some (Doc, r)
      end
  end.

Definition read_property (s : jsstr) : option (object * jsstr * list access * jsstr) :=
  '(o, r) ← read_object s;
  '(p, r) ← quoted (js "']") r;
  let '(l, r) := read_path (length r) r in Some (o, p, l, r).

Definition read_getter (s : jsstr) : option (getter * jsstr) :=
  match strip_prefix fn_open s with
  | Some r =>
      '(f, r) ← quoted (js "')(") r;
      '(o, p, l, r) ← read_property r;
      r ← strip_prefix (js ")") r;
      Some (mkGetter o p l (Some f), r)
  | None => '(o, p, l, r) ← read_property s; Some (mkGetter o p l None, r)
  end.

(** The elements of an array literal up to its closing bracket; none is a hole. *)
Fixpoint read_elements (fuel : nat) (s : jsstr) : option (list (option getter) * jsstr) :=
  match fuel with
  | O => None
  | S fuel =>
      match strip_prefix (js "]") s with
      | Some r => Some ([], r)
      | None =>
          match strip_prefix (js ", ") s with
          | Some r => '(l, r) ← read_elements fuel r; Some (None :: l, r)
          | None =>
              '(g, r) ← read_getter s;
              match strip_prefix (js ", ") r with
              | Some r => '(l, r) ← read_elements fuel r; Some (Some g :: l, r)
              | None => r ← strip_prefix (js "]") r; Some ([Some g], r)
              end
          end
      end
  end.

(** The text before the elements, for a function name, and after them. *)
Definition opening (name : jsstr) : jsstr :=
  js "(function " ++ name ++ js "(doc, docInfo, mappingInfo) {" ++ [10] ++ js "  return [".
Definition closing : jsstr := js "];" ++ [10] ++ js "})".

(** [new vm.Script(text)]: the elements that the function returns. *)
Definition new_Script (name text : jsstr) : result (list (option getter)) :=
  match
    r ← strip_prefix (opening name) text;
    '(l, r) ← read_elements (S (length r)) r;
    if bool_decide (r = js ";" ++ [10] ++ js "})") then Some l else None
  with
  | Some l => Ok l
  | None => Err (SyntaxError "Invalid or unexpected token")
  end.

(** *** Running *)

(** [v.value] of an object; an object of another class has no such property. *)
Definition get_value (v : mval) : result mval :=
  match v with
  | QueryOperator _ v _ => Ok v
  | QueryAssignment _ v _ => Ok v
  | QueryAnd v0 v1 => Ok (Pair v0 v1)
  | Val JUndefined | Val JNull => Err (TypeError "Cannot read properties of undefined (reading 'value')")
  | Val (JObject fields) => Ok (Val (default JUndefined (lookup_prop (js "value") fields)))
  | _ => Ok undefined
  end.

(** [v[i]] *)
Definition get_at (i : nat) (v : mval) : result mval :=
  match v with
  | Pair v0 v1 => Ok (match i with O => v0 | _ => v1 end)
  | Val JUndefined | Val JNull => Err (TypeError "Cannot read properties of undefined")
  | Val (JArray l) => Ok (Val (default JUndefined (l !! i)))
  | _ => Ok undefined
  end.

Definition call_fn (info : ModelMappingInfo) (f : jsstr) (v : mval) : result mval :=
  match getFromModelFn info f with
  | Some fn => r ← fn v; Ok (Val r)
  | None => Err (TypeError "mappingInfo.getFromModelFn(...) is not a function")
  end.

(** [v.map(f)] *)
Definition map_fn (info : ModelMappingInfo) (f : jsstr) (v : mval) : result mval :=
  let apply x := match getFromModelFn info f with
                 | Some fn => fn x
                 | None => Err (TypeError "mappingInfo.getFromModelFn(...) is not a function")
                 end in
  match v with
  | Val (JArray l) => r ← traverse (fun x => apply (Val x)) l; Ok (Val (JArray r))
  | Pair v0 v1 => r ← traverse apply [v0; v1]; Ok (Val (JArray r))
  | _ => Err (TypeError "value.map is not a function")
  end.

Definition run_access (info : ModelMappingInfo) (v : mval) (a : access) : result mval :=
  v ← get_value v;
  match a with
  | Value => Ok v
  | Value0 => get_at 0 v
  | Value1 => get_at 1 v
  | MapCall f => map_fn info f v
  end.

(** [doc] is none for null, which [findAll] passes. *)
Definition run_object (doc : option document) (d : option docInfo) (o : object) (p : jsstr) : result mval :=
  match o, doc, d with
  | Doc, Some doc, _ => Ok (prop doc p)
  | Info, _, Some d =>
      Ok (if bool_decide (p = js "ttl") then Val (ttl d)
          else if bool_decide (p = js "limit") then Val (limit d) else undefined)
  | When, _, Some d =>
      match when_ d with
      | Some w => Ok (prop w p)
      | None => Err (TypeError "Cannot read properties of undefined")
      end
  | _, _, _ => Err (TypeError "Cannot read properties of null")
  end.

Definition run_getter (doc : option document) (d : option docInfo) (info : ModelMappingInfo) (g : option getter)
    : result mval :=
  match g with
  | None => Ok undefined
  | Some g =>
      v ← run_object doc d (g_object g) (g_property g);
      v ← fold_left (fun acc a => v ← acc; run_access info v a) (g_path g) (Ok v);
      match g_call g with
      | Some f => call_fn info f v
      | None => Ok v
      end
  end.

Definition run (l : list (option getter)) (doc : option document) (d : option docInfo) (info : ModelMappingInfo)
    : result (list mval) := traverse (run_getter doc d info) l.

End Script.

(** ** QueryGenerator *)

Module QueryGenerator.

Definition is_some {A} (o : option A) : bool := match o with Some _ => true | None => false end.

(** A column name between double quotes. *)
Definition column (name : jsstr) : jsstr := 34 :: name ++ [34].

(** *** Conditions and parameters *)

Fixpoint _getSingleCondition (columnName : jsstr) (value : mval) : jsstr :=
  match value with
  | QueryAnd v0 v1 =>
      _getSingleCondition columnName v0 ++ js " AND " ++ _getSingleCondition columnName v1
  | QueryOperator key _ _ => column columnName ++ js " " ++ key ++ js " ?"
  | _ => column columnName ++ js " = ?"
  end.

Definition _getConditionWithOperators (propertiesInfo : list propertyInfo) : jsstr :=
  join (js " AND ") ((fun p => _getSingleCondition (pi_columnName p) (pi_value p)) <$> propertiesInfo).

Definition _getMappingFunctionCall (propName valueGetter : jsstr) : jsstr :=
  js "mappingInfo.getFromModelFn('" ++ propName ++ js "')(" ++ valueGetter ++ js ")".

Fixpoint _valueGetterSingle (prefix propName : jsstr) (value : mval) (fromModelFn : bool) : jsstr :=
  match value with
  | QueryAnd v0 v1 =>
      _valueGetterSingle (prefix ++ js ".value[0]") propName v0 fromModelFn ++ js ", " ++
      _valueGetterSingle (prefix ++ js ".value[1]") propName v1 fromModelFn
  | _ =>
      let valueGetter := match value with QueryOperator _ _ _ => prefix ++ js ".value" | _ => prefix end in
      let isIn := match value with QueryOperator _ _ isInOperator => isInOperator | _ => false end in
      if isIn && fromModelFn then
        valueGetter ++ js ".map(v => " ++ _getMappingFunctionCall propName (js "v") ++ js ")"
      else if negb fromModelFn then valueGetter
      else _getMappingFunctionCall propName valueGetter
  end.

Definition _valueGetterExpression (propertiesInfo : list propertyInfo) (objectName : jsstr) : jsstr :=
  join (js ", ") ((fun p =>
    _valueGetterSingle (objectName ++ js "['" ++ pi_propertyName p ++ js "']") (pi_propertyName p) (pi_value p)
      (is_some (pi_fromModel p))) <$> propertiesInfo).

Definition _assignmentGetterExpression (propertiesInfo : list propertyInfo) (prefix : jsstr) : jsstr :=
  join (js ", ") ((fun p =>
    let valueGetter := prefix ++ js "['" ++ pi_propertyName p ++ js "']" ++
      match pi_value p with QueryAssignment _ _ _ => js ".value" | _ => [] end in
    if is_some (pi_fromModel p) then _getMappingFunctionCall (pi_propertyName p) valueGetter
    else valueGetter) <$> propertiesInfo).

(** *** SELECT *)

Definition getSelect (tableName keyspace : jsstr) (propertiesInfo fieldsInfo : list propertyInfo)
    (orderByColumns : list (jsstr * jsstr)) (limit : jsval) : jsstr :=
  js "SELECT " ++
  (if (0 <? length fieldsInfo)%nat then join (js ", ") ((fun p => column (pi_columnName p)) <$> fieldsInfo)
   else js "*") ++
  js " FROM " ++ keyspace ++ js "." ++ tableName ++
  (if (0 <? length propertiesInfo)%nat then js " WHERE " ++ _getConditionWithOperators propertiesInfo else []) ++
  (if (0 <? length orderByColumns)%nat then
     js " ORDER BY " ++ join (js ", ") ((fun o => column (fst o) ++ js " " ++ snd o) <$> orderByColumns)
   else []) ++
  (if is_number limit then js " LIMIT ?" else []).

Definition doc_ : jsstr := js "doc".
Definition docInfo_when : jsstr := js "docInfo.when".

Definition select_script (propertiesInfo : list propertyInfo) (limit : jsval) : jsstr :=
  Script.opening (js "getParametersSelect") ++ _valueGetterExpression propertiesInfo doc_ ++
  (if is_number limit then
     (if (0 <? length propertiesInfo)%nat then js ", " else []) ++ js "docInfo['limit']"
   else []) ++ Script.closing.

Definition selectParamsGetter (propertiesInfo : list propertyInfo) (limit : jsval)
    : result (list (option Script.getter)) :=
  Script.new_Script (js "getParametersSelect") (select_script propertiesInfo limit).

(** *** INSERT *)

(** A query, its parameters, and what is known of it; [isCounter] is undefined but for an
    UPDATE. *)
Record queryInfo : Type := mkQueryInfo {
  query : jsstr;
  paramsGetter : list (option Script.getter);
  isIdempotent : bool;
  isCounter : jsval }.

(** [v === true] *)
Definition is_true (v : jsval) : bool := match v with JBool true => true | _ => false end.

Definition _getInsertQuery (tableName keyspace : jsstr) (propertiesInfo : list propertyInfo)
    (ifNotExists ttl : jsval) : jsstr :=
  js "INSERT INTO " ++ keyspace ++ js "." ++ tableName ++ js " (" ++
  join (js ", ") ((fun p => column (pi_columnName p)) <$> propertiesInfo) ++ js ") VALUES (" ++
  join (js ", ") ((fun _ => js "?") <$> propertiesInfo) ++ js ")" ++
  (if is_true ifNotExists then js " IF NOT EXISTS" else []) ++
  (if is_number ttl then js " USING TTL ?" else []).

Definition insert_script (propertiesInfo : list propertyInfo) (d : option docInfo) : jsstr :=
  Script.opening (js "getParametersInsert") ++ _valueGetterExpression propertiesInfo doc_ ++
  (if match d with Some d => is_number (ttl d) | None => false end then js ", docInfo['ttl']" else []) ++
  Script.closing.

Definition _insertParamsGetter (propertiesInfo : list propertyInfo) (d : option docInfo)
    : result (list (option Script.getter)) :=
  Script.new_Script (js "getParametersInsert") (insert_script propertiesInfo d).

(** [docInfo && docInfo.x] *)
Definition of_info (f : docInfo -> jsval) (d : option docInfo) : jsval :=
  match d with Some d => f d | None => JUndefined end.

Definition filter_columns (table : tableMetadata) (propertiesInfo : list propertyInfo) : list propertyInfo :=
  List.filter (fun p => has_column table (pi_columnName p)) propertiesInfo.

Definition getInsert (table : tableMetadata) (keyspace : jsstr) (propertiesInfo : list propertyInfo)
    (d : option docInfo) (ifNotExists : jsval) : result queryInfo :=
  let filtered := filter_columns table propertiesInfo in
  params ← _insertParamsGetter filtered d;
  Ok (mkQueryInfo (_getInsertQuery (tm_name table) keyspace filtered ifNotExists (of_info ttl d)) params
        (negb (truthy ifNotExists)) JUndefined).

(** *** UPDATE *)

Definition is_key (primaryKeys : list jsstr) (p : propertyInfo) : bool := bool_decide (pi_columnName p ∈ primaryKeys).
Definition not_key (primaryKeys : list jsstr) (p : propertyInfo) : bool := negb (is_key primaryKeys p).

Definition assignment (p : propertyInfo) : jsstr :=
  match pi_value p with
  | QueryAssignment sign _ inverted =>
      if inverted then column (pi_columnName p) ++ js " = ? " ++ sign ++ js " " ++ column (pi_columnName p)
      else column (pi_columnName p) ++ js " = " ++ column (pi_columnName p) ++ js " " ++ sign ++ js " ?"
  | _ => column (pi_columnName p) ++ js " = ?"
  end.

Definition equals (p : propertyInfo) : jsstr := column (pi_columnName p) ++ js " = ?".

(** [IF EXISTS], or the conditions. *)
Definition condition (when_ : list propertyInfo) (ifExists : jsval) : jsstr :=
  if is_true ifExists then js " IF EXISTS"
  else if (0 <? length when_)%nat then js " IF " ++ _getConditionWithOperators when_ else [].

Definition _getUpdateQuery (tableName keyspace : jsstr) (primaryKeys : list jsstr)
    (propertiesInfo when_ : list propertyInfo) (ifExists ttl : jsval) : jsstr :=
  js "UPDATE " ++ keyspace ++ js "." ++ tableName ++ js " " ++
  (if is_number ttl then js "USING TTL ? " else []) ++ js "SET " ++
  join (js ", ") (assignment <$> List.filter (not_key primaryKeys) propertiesInfo) ++ js " WHERE " ++
  join (js " AND ") (equals <$> List.filter (is_key primaryKeys) propertiesInfo) ++
  condition when_ ifExists.

Definition when_script (when_ : list propertyInfo) : jsstr :=
  if (0 <? length when_)%nat then js ", " ++ _valueGetterExpression when_ docInfo_when else [].

Definition update_script (primaryKeys : list jsstr) (propertiesInfo when_ : list propertyInfo) (ttl : jsval) : jsstr :=
  Script.opening (js "getParametersUpdate") ++
  (if is_number ttl then js "docInfo['ttl'], " else []) ++
  _assignmentGetterExpression (List.filter (not_key primaryKeys) propertiesInfo) doc_ ++ js ", " ++
  _valueGetterExpression (List.filter (is_key primaryKeys) propertiesInfo) doc_ ++
  when_script when_ ++ Script.closing.

Definition _updateParamsGetter (primaryKeys : list jsstr) (propertiesInfo when_ : list propertyInfo) (ttl : jsval)
    : result (list (option Script.getter)) :=
  Script.new_Script (js "getParametersUpdate") (update_script primaryKeys propertiesInfo when_ ttl).

(** The column of a property is a list that is assigned to, or a counter. *)
Definition list_assignment (table : tableMetadata) (p : propertyInfo) : bool :=
  bool_decide (lookup_prop (pi_columnName p) (columnsByName table) = Some dataTypes.list) &&
  match pi_value p with QueryAssignment _ _ _ => true | _ => false end.
Definition counter_column (table : tableMetadata) (p : propertyInfo) : bool :=
  bool_decide (lookup_prop (pi_columnName p) (columnsByName table) = Some dataTypes.counter).

Definition primaryKeys (table : tableMetadata) : list jsstr := partitionKeys table ++ clusteringKeys table.

Definition getUpdate (table : tableMetadata) (keyspace : jsstr) (propertiesInfo : list propertyInfo)
    (d : option docInfo) (when_ : list propertyInfo) (ifExists : jsval) : result queryInfo :=
  let ttl := of_info ttl d in
  let primaryKeys := primaryKeys table in
  let filtered := filter_columns table propertiesInfo in
  let isCounter := existsb (counter_column table) filtered in
  let isIdempotent := negb (existsb (list_assignment table) filtered) && negb isCounter in
  params ← _updateParamsGetter primaryKeys filtered when_ ttl;
  Ok (mkQueryInfo (_getUpdateQuery (tm_name table) keyspace primaryKeys filtered when_ ifExists ttl) params
        (isIdempotent && (length when_ =? 0)%nat && negb (truthy ifExists)) (JBool isCounter)).

(** *** DELETE *)

Definition _getDeleteQuery (tableName keyspace : jsstr) (primaryKeys : list jsstr)
    (propertiesInfo when_ : list propertyInfo) (ifExists deleteOnlyColumns : jsval) : jsstr :=
  let columnsToDelete :=
    join (js ", ") ((fun p => column (pi_columnName p)) <$> List.filter (not_key primaryKeys) propertiesInfo) in
  js "DELETE" ++
  (if truthy deleteOnlyColumns && negb (bool_decide (columnsToDelete = [])) then js " " ++ columnsToDelete else []) ++
  js " FROM " ++ keyspace ++ js "." ++ tableName ++ js " WHERE " ++
  join (js " AND ") (equals <$> List.filter (is_key primaryKeys) propertiesInfo) ++
  condition when_ ifExists.

Definition delete_script (primaryKeys : list jsstr) (propertiesInfo when_ : list propertyInfo) : jsstr :=
  Script.opening (js "getParametersDelete") ++
  _valueGetterExpression (List.filter (is_key primaryKeys) propertiesInfo) doc_ ++
  when_script when_ ++ Script.closing.

Definition _deleteParamsGetter (primaryKeys : list jsstr) (propertiesInfo when_ : list propertyInfo)
    : result (list (option Script.getter)) :=
  Script.new_Script (js "getParametersDelete") (delete_script primaryKeys propertiesInfo when_).

Definition getDelete (table : tableMetadata) (keyspace : jsstr) (propertiesInfo : list propertyInfo)
    (d : option docInfo) (when_ : list propertyInfo) (ifExists : jsval) : result queryInfo :=
  let primaryKeys := primaryKeys table in
  let filtered := filter_columns table propertiesInfo in
  params ← _deleteParamsGetter primaryKeys filtered when_;
  Ok (mkQueryInfo
        (_getDeleteQuery (tm_name table) keyspace primaryKeys filtered when_ ifExists (of_info deleteOnlyColumns d))
        params ((length when_ =? 0)%nat && negb (truthy ifExists)) JUndefined).

End QueryGenerator.
