(* ===== verification/QueryGenProofs.v ===== *)
(** * Mapper: the queries and their parameters

    The proofs about QueryGen.v: the scripts that the generator writes are read as the
    expressions they were written from, and the parameters they take out of a document
    are the operands of the conditions of the query, in the order of its placeholders. *)

From stdpp Require Import list.
From S2P Require Import Prelude JsNumber Buffer JsString CqlTypes JsValue Encoder Timestamps Collections ExecutionOptions.
From S2P Require Import Mapping QueryGen.

(** ** Writing and reading scripts *)

Module ScriptText.
Import Script.

Definition plain (s : jsstr) : Prop := forallb literal_char s = true.

Definition render_access (a : access) : jsstr :=
  match a with
  | Value0 => js ".value[0]"
  | Value1 => js ".value[1]"
  | Value => js ".value"
  | MapCall f => js ".value.map(v => mappingInfo.getFromModelFn('" ++ f ++ js "')(v))"
  end.

Definition render_path (l : list access) : jsstr := mjoin (render_access <$> l).

Definition render_object (o : object) : jsstr :=
  match o with Doc => js "doc" | When => js "docInfo.when" | Info => js "docInfo" end.

Definition render_property (g : getter) : jsstr :=
  render_object (g_object g) ++ js "['" ++ g_property g ++ js "']" ++ render_path (g_path g).

Definition render (g : getter) : jsstr :=
  match g_call g with
  | Some f => js "mappingInfo.getFromModelFn('" ++ f ++ js "')(" ++ render_property g ++ js ")"
  | None => render_property g
  end.

(** Only the last access may be one that does not go on. *)
Fixpoint wf_path (l : list access) : Prop :=
  match l with
  | [] => True
  | Value0 :: l | Value1 :: l => wf_path l
  | Value :: l => l = []
  | MapCall f :: l => l = [] /\ plain f
  end.

Record wf_getter (g : getter) : Prop := {
  wg_property : plain (g_property g);
  wg_path : wf_path (g_path g);
  wg_call : forall f, g_call g = Some f -> plain f }.

(** What may follow an expression. *)
Definition ends (s : jsstr) : Prop := match s with c :: _ => c <> 46 /\ c <> 91 | [] => True end.

Lemma literal_app n c s : plain n -> literal_char c = false -> literal (n ++ c :: s) = (n, c :: s).
Proof.
  intros Hn Hc. induction n as [|x n IH]; cbn; [by rewrite Hc|]. apply andb_prop in Hn as [-> Hn]. by rewrite IH.
Qed.

Lemma quoted_app n close s : plain n -> quoted (39 :: close) (n ++ 39 :: close ++ s) = Some (n, s).
Proof.
  intros Hn. unfold quoted. rewrite literal_app by done. cbn [strip_prefix]. rewrite Z.eqb_refl.
  by rewrite strip_prefix_app.
Qed.

Lemma strip_prefix_ne a p c s : a <> c -> strip_prefix (a :: p) (c :: s) = None.
Proof. intros Hc. cbn [strip_prefix]. by rewrite (proj2 (Z.eqb_neq a c)). Qed.

Lemma read_access_none s : ends s -> read_access s = None.
Proof.
  destruct s as [|c s]; [done|]. intros [Hc _]. unfold read_access.
  change (js ".value[0]") with (46 :: js "value[0]"). change (js ".value[1]") with (46 :: js "value[1]").
  change (js ".value.map(v => " ++ fn_open) with (46 :: (js "value.map(v => " ++ fn_open)).
  change (js ".value") with (46 :: js "value"). by rewrite !strip_prefix_ne by done.
Qed.

Lemma strip_prefix_common l a p c s : a <> c -> strip_prefix (l ++ a :: p) (l ++ c :: s) = None.
Proof. intros Hc. induction l as [|x l IH]; [by apply strip_prefix_ne|]. cbn. by rewrite Z.eqb_refl. Qed.

Lemma read_access_render a s :
  match a with Value => ends s | MapCall f => plain f | _ => True end ->
  read_access (render_access a ++ s) = Some (a, s).
Proof.
  intros Ha. destruct a as [| | |f]; [done|done| |]; unfold read_access; cbn [render_access];
    change (js ".value[0]") with (js ".value" ++ 91 :: js "0]");
    change (js ".value[1]") with (js ".value" ++ 91 :: js "1]").
  - change (js ".value.map(v => " ++ fn_open) with (js ".value" ++ 46 :: js "map(v => " ++ fn_open).
    destruct s as [|c s]; [done|]. destruct Ha as [H1 H2]. by rewrite !strip_prefix_common by done.
  - change (js ".value.map(v => mappingInfo.getFromModelFn('") with (js ".value.map(v => " ++ fn_open).
    rewrite <- !app_assoc.
    change (js ".value.map(v => " ++ fn_open ++ ?x) with (js ".value" ++ 46 :: js "map(v => " ++ fn_open ++ x) at 1 2.
    rewrite !strip_prefix_common by done. rewrite (app_assoc (js ".value.map(v => ") fn_open).
    rewrite strip_prefix_app. change (js "')(v))") with (39 :: js ")(v))"). cbn [app]. by rewrite quoted_app.
Qed.

Lemma read_path_render l s fuel : wf_path l -> ends s -> (length l <= fuel)%nat ->
  read_path fuel (render_path l ++ s) = (l, s).
Proof.
  intros Hl Hs. revert fuel. induction l as [|a l IH]; intros fuel Hf; cbn [render_path fmap list_fmap mjoin list_join].
  { change ([] ++ s) with s. destruct fuel as [|fuel]; [done|]. cbn. by rewrite read_access_none. }
  destruct fuel as [|fuel]; [cbn in Hf; lia|].
  change (mjoin (list_fmap _ _ render_access l)) with (render_path l). rewrite <- app_assoc. cbn [read_path].
  rewrite read_access_render.
  - rewrite IH; [done| |cbn in Hf; lia]. destruct a; cbn in Hl; [done|done|by subst|by destruct Hl as [-> _]].
  - destruct a; [done|done| |by destruct Hl]. cbn in Hl. by subst.
Qed.

Lemma path_length l : (length l <= length (render_path l))%nat.
Proof.
  induction l as [|a l IH]; [done|].
  change (length (a :: l) <= length (render_access a ++ render_path l))%nat. rewrite length_app.
  destruct a; cbn [render_access length js app]; lia.
Qed.

Lemma read_property_render g s : wf_getter g -> ends s ->
  read_property (render_property g ++ s) = Some (g_object g, g_property g, g_path g, s).
Proof.
  intros [Hp Hl _] Hs. unfold read_property, render_property. rewrite <- !app_assoc.
  assert (E : read_object (render_object (g_object g) ++ js "['" ++ g_property g ++ js "']" ++ render_path (g_path g) ++ s)
    = Some (g_object g, g_property g ++ js "']" ++ render_path (g_path g) ++ s)) by by destruct (g_object g).
  rewrite E. cbn [mbind option_bind]. change (js "']") with (39 :: js "]"). cbn [app]. rewrite quoted_app by done.
  cbn [mbind option_bind]. rewrite read_path_render; [done|done|done|]. rewrite length_app.
  pose proof (path_length (g_path g)). lia.
Qed.

Lemma read_getter_render g s : wf_getter g -> ends s -> read_getter (render g ++ s) = Some (g, s).
Proof.
  intros Hg Hs. unfold read_getter, render. destruct (g_call g) as [f|] eqn:Hf.
  - change (js "mappingInfo.getFromModelFn('") with fn_open. rewrite <- !app_assoc, strip_prefix_app.
    change (js "')(") with (39 :: js ")("). cbn [app]. rewrite quoted_app by (by eapply wg_call).
    cbn [mbind option_bind]. rewrite read_property_render; [|done|done]. cbn [mbind option_bind].
    rewrite strip_prefix_app. cbn [mbind option_bind]. rewrite <- Hf. by destruct g.
  - assert (E : strip_prefix fn_open (render_property g ++ s) = None).
    { unfold render_property. by destruct (g_object g). }
    rewrite E, read_property_render by done. cbn [mbind option_bind]. rewrite <- Hf. by destruct g.
Qed.

(** The elements of an array literal. *)
Lemma read_elements_render gs s fuel : Forall wf_getter gs -> (length gs < fuel)%nat ->
  read_elements fuel (join (js ", ") (render <$> gs) ++ js "]" ++ s) = Some (Some <$> gs, s).
Proof.
  intros Hgs. revert fuel. induction Hgs as [|g gs Hg Hgs IH]; intros fuel Hf; (destruct fuel as [|fuel]; [lia|]); [done|].
  assert (Hstart : forall t, strip_prefix (js "]") (render g ++ t) = None /\ strip_prefix (js ", ") (render g ++ t) = None).
  { intros t. unfold render, render_property. destruct (g_call g); [by split|]. by destruct (g_object g). }
  rewrite !fmap_cons. destruct gs as [|g' gs].
  - cbn [fmap list_fmap join]. destruct (Hstart (js "]" ++ s)) as [E1 E2]. cbn [read_elements]. rewrite E1, E2.
    rewrite read_getter_render; [done|done|done].
  - change (join (js ", ") (render g :: (render <$> (g' :: gs)))) with (render g ++ js ", " ++ join (js ", ") (render <$> g' :: gs)).
    rewrite <- !app_assoc. destruct (Hstart (js ", " ++ join (js ", ") (render <$> g' :: gs) ++ js "]" ++ s)) as [E1 E2].
    cbn [read_elements]. rewrite E1, E2, read_getter_render by done. cbn [mbind option_bind].
    rewrite strip_prefix_app, IH by (cbn in *; lia). done.
Qed.

Lemma join_length l : (length l <= S (length (join (js ", ") l)))%nat.
Proof.
  induction l as [|x l IH]; [cbn; lia|]. destruct l as [|y l]; [cbn; lia|].
  change (join (js ", ") (x :: y :: l)) with (x ++ js ", " ++ join (js ", ") (y :: l)). rewrite !length_app.
  cbn [length js] in *. lia.
Qed.

(** A script of the generator is read as the expressions it was written from. *)
Lemma new_Script_render name gs : Forall wf_getter gs ->
  new_Script name (opening name ++ join (js ", ") (render <$> gs) ++ closing) = Ok (Some <$> gs).
Proof.
  intros Hgs. unfold new_Script. rewrite strip_prefix_app. cbn [mbind option_bind].
  change closing with (js "]" ++ (js ";" ++ [10] ++ js "})")).
  rewrite read_elements_render; [cbn [mbind option_bind]; by rewrite bool_decide_true|done|].
  rewrite length_app. pose proof (join_length (render <$> gs)) as Hl. rewrite length_fmap in Hl. rewrite !length_app. change (length (js "]")) with 1%nat. lia.
Qed.

End ScriptText.

(** ** Parameters *)

Module Params.
Import Script ScriptText QueryGenerator.

(** The expressions written for a property: one for each operand of its conditions. *)
Fixpoint single (o : object) (p : jsstr) (path : list access) (v : mval) (fn : bool) : list getter :=
  match v with
  | QueryAnd v0 v1 => single o p (path ++ [Value0]) v0 fn ++ single o p (path ++ [Value1]) v1 fn
  | QueryOperator _ _ isIn =>
      if isIn && fn then [mkGetter o p (path ++ [MapCall p]) None]
      else [mkGetter o p (path ++ [Value]) (if fn then Some p else None)]
  | _ => [mkGetter o p path (if fn then Some p else None)]
  end.

Definition getters (o : object) (p : propertyInfo) : list getter :=
  single o (pi_propertyName p) [] (pi_value p) (is_some (pi_fromModel p)).

Lemma join_sep_app sep l1 l2 : l1 <> [] -> l2 <> [] -> join sep (l1 ++ l2) = join sep l1 ++ sep ++ join sep l2.
Proof.
  intros H1 H2. induction l1 as [|x l1 IH]; [done|]. destruct l1 as [|y l1].
  - by destruct l2.
  - change (join sep ((x :: y :: l1) ++ l2)) with (x ++ sep ++ join sep ((y :: l1) ++ l2)). rewrite IH by done.
    change (join sep (x :: y :: l1)) with (x ++ sep ++ join sep (y :: l1)). by rewrite <- !app_assoc.
Qed.

Lemma single_ne o p path v fn : single o p path v fn <> [].
Proof.
  revert path. induction v as [v|k v IH i|v0 IH0 v1 IH1|s v IH i|v0 IH0 v1 IH1]; intros path; cbn; try done.
  - by destruct (_ && _).
  - intros [E _]%app_eq_nil. by apply IH0 in E.
Qed.

Lemma render_path_snoc path a : render_path (path ++ [a]) = render_path path ++ render_access a.
Proof.
  unfold render_path. rewrite fmap_app, join_app. cbn. by rewrite app_nil_r.
Qed.

Lemma single_text o p path v fn :
  _valueGetterSingle (render_property (mkGetter o p path None)) p v fn
  = join (js ", ") (render <$> single o p path v fn).
Proof.
  assert (Hsnoc : forall path a, render_property (mkGetter o p path None) ++ render_access a
    = render_property (mkGetter o p (path ++ [a]) None)).
  { intros l a. unfold render_property. cbn [g_object g_property g_path]. by rewrite render_path_snoc, <- !app_assoc. }
  revert path. induction v as [v|k v IH i|v0 IH0 v1 IH1|s v IH i|v0 IH0 v1 IH1]; intros path; cbn [_valueGetterSingle single];
    try by destruct fn.
  - assert (Hv : render_property (mkGetter o p path None) ++ js ".value" = render_property (mkGetter o p (path ++ [Value]) None))
      by apply (Hsnoc path Value).
    destruct i, fn; cbn [andb negb]; [|exact Hv| |exact Hv].
    + change (join (js ", ") (render <$> [mkGetter o p (path ++ [MapCall p]) None]))
        with (render_property (mkGetter o p (path ++ [MapCall p]) None)).
      rewrite <- (Hsnoc path (MapCall p)). cbn [render_access]. unfold _getMappingFunctionCall.
      change (js ".value.map(v => mappingInfo.getFromModelFn('") with (js ".value" ++ js ".map(v => " ++ js "mappingInfo.getFromModelFn('").
      by rewrite <- !app_assoc.
    + rewrite Hv. done.
  - change (js ".value[0]") with (render_access Value0). change (js ".value[1]") with (render_access Value1).
    rewrite !Hsnoc, IH0, IH1, fmap_app, join_sep_app; [done| |].
    all: intros E%fmap_nil_inv; exact (single_ne _ _ _ _ _ E).
Qed.

Lemma getters_text o props :
  _valueGetterExpression props (render_object o) = join (js ", ") (render <$> mjoin (getters o <$> props)).
Proof.
  unfold _valueGetterExpression. induction props as [|p props IH]; [done|]. rewrite !fmap_cons.
  assert (E : _valueGetterSingle (render_object o ++ js "['" ++ pi_propertyName p ++ js "']") (pi_propertyName p) (pi_value p)
      (is_some (pi_fromModel p)) = join (js ", ") (render <$> getters o p)).
  { unfold getters. rewrite <- single_text. done. }
  destruct props as [|q props].
  { cbn [fmap list_fmap mjoin list_join join]. by rewrite app_nil_r. }
  change (mjoin (getters o p :: (getters o <$> (q :: props)))) with (getters o p ++ mjoin (getters o <$> (q :: props))).
  rewrite fmap_app, join_sep_app, <- IH, E; [done| |].
  - intros E'%fmap_nil_inv. exact (single_ne _ _ _ _ _ E').
  - rewrite fmap_cons. cbn. intros E'%fmap_nil_inv. apply app_eq_nil in E' as [E' _]. exact (single_ne _ _ _ _ _ E').
Qed.

Lemma single_wf o p path v fn : plain p -> Forall (fun a => a = Value0 \/ a = Value1) path ->
  Forall wf_getter (single o p path v fn).
Proof.
  intros Hp.
  assert (Hw : forall path last, Forall (fun a => a = Value0 \/ a = Value1) path -> wf_path last -> wf_path (path ++ last)).
  { intros l last Hl Hlast. induction Hl as [|a l [-> | ->] _ IH]; done. }
  revert path. induction v as [v|k v IH i|v0 IH0 v1 IH1|s v IH i|v0 IH0 v1 IH1]; intros path Hpath; cbn [single].
  1, 4, 5: apply Forall_singleton; split; cbn;
    [done|rewrite <- (app_nil_r path); by apply Hw|by destruct fn; intros f [= <-]].
  - destruct i, fn; cbn; apply Forall_singleton; split; cbn; try done; try (by apply Hw).
    all: by intros f [= <-].
  - apply Forall_app. split; [apply IH0|apply IH1]; apply Forall_app; (split; [done|]); apply Forall_singleton; auto.
Qed.

(** *** Operands *)

(** The value of a property through the function of the user. *)
Definition mapped (info : ModelMappingInfo) (p : jsstr) (v : mval) : result mval :=
  match getFromModelFn info p with Some _ => call_fn info p v | None => Ok v end.

(** The values that the conditions on a property compare with, from left to right. *)
Fixpoint operands (info : ModelMappingInfo) (p : jsstr) (v : mval) : result (list mval) :=
  match v with
  | QueryAnd v0 v1 => l0 ← operands info p v0; l1 ← operands info p v1; Ok (l0 ++ l1)
  | QueryOperator _ x isIn =>
      y ← (if isIn && is_some (getFromModelFn info p) then map_fn info p x else mapped info p x); Ok [y]
  | _ => y ← mapped info p v; Ok [y]
  end.

(** The same operators: the values only differ in what is compared with. *)
Fixpoint same_operators (v v' : mval) : bool :=
  match v, v' with
  | QueryAnd v0 v1, QueryAnd v0' v1' => same_operators v0 v0' && same_operators v1 v1'
  | QueryOperator k _ i, QueryOperator k' _ i' => bool_decide (k = k') && Bool.eqb i i'
  | QueryAnd _ _, _ | QueryOperator _ _ _, _ | _, QueryAnd _ _ | _, QueryOperator _ _ _ => false
  | _, _ => true
  end.

Lemma same_operators_refl v : same_operators v v = true.
Proof.
  induction v as [v|k v IH i|v0 IH0 v1 IH1|s v IH i|v0 IH0 v1 IH1]; cbn; try done.
  - by rewrite bool_decide_true, eqb_reflx.
  - by rewrite IH0, IH1.
Qed.

Definition run_path (info : ModelMappingInfo) (path : list access) (v : mval) : result mval :=
  fold_left (fun acc a => v ← acc; run_access info v a) path (Ok v).

Lemma run_path_snoc info path a v : run_path info (path ++ [a]) v = (x ← run_path info path v; run_access info x a).
Proof. unfold run_path. by rewrite fold_left_app. Qed.

Lemma run_one doc d info o p path call root v :
  run_object doc d o p = Ok root -> run_path info path root = v ->
  run_getter doc d info (Some (mkGetter o p path call))
  = (x ← v; match call with Some f => call_fn info f x | None => Ok x end).
Proof. intros Ho <-. cbn [run_getter g_object g_property g_path g_call]. by rewrite Ho. Qed.

Lemma run_single doc d info o p root v v' path :
  run_object doc d o p = Ok root -> run_path info path root = Ok v' -> same_operators v v' = true ->
  traverse (run_getter doc d info) (Some <$> single o p path v (is_some (getFromModelFn info p))) = operands info p v'.
Proof.
  intros Ho. set (fn := is_some (getFromModelFn info p)).
  assert (Hcall : forall x, (match (if fn then Some p else None) with Some f => call_fn info f x | None => Ok x end)
    = mapped info p x) by (unfold mapped; subst fn; by destruct (getFromModelFn info p)).
  assert (Hplain : forall w w' l, run_path info l root = Ok w' ->
    single o p l w fn = [mkGetter o p l (if fn then Some p else None)] ->
    traverse (run_getter doc d info) (Some <$> single o p l w fn) = (y ← mapped info p w'; Ok [y])).
  { intros w w' l Hl ->. cbn [fmap list_fmap traverse]. rewrite (run_one _ _ _ _ _ _ _ root _ Ho Hl).
    rewrite ok_bind. by rewrite Hcall. }
  revert v' path. induction v as [v|k v IH i|v0 IH0 v1 IH1|s v IH i|v0 IH0 v1 IH1]; intros v' path Hp Hs.
  1, 4, 5: destruct v'; try done; by eapply Hplain.
  - destruct v' as [|k' x i'| | |]; try done. cbn in Hs. apply andb_prop in Hs as [_ ->%eqb_prop].
    cbn [single operands]. fold fn. destruct (i' && fn) eqn:Hi; cbn [fmap list_fmap traverse].
    + rewrite (run_one _ _ _ _ _ _ None root _ Ho eq_refl), run_path_snoc, Hp. cbn.
      by destruct (map_fn info p x).
    + rewrite (run_one _ _ _ _ _ _ (if fn then Some p else None) root _ Ho eq_refl), run_path_snoc, Hp. cbn [mbind result_bind run_access get_value].
      by rewrite Hcall.
  - destruct v' as [| |w0 w1| |]; try done. cbn in Hs. apply andb_prop in Hs as [Hs0 Hs1].
    cbn [single operands]. rewrite fmap_app, traverse_app.
    rewrite (IH0 w0), (IH1 w1) by (done || by rewrite run_path_snoc, Hp). done.
Qed.

End Params.

(** ** Conditions *)

Module Conditions.
Import Script ScriptText QueryGenerator Params.

(** A condition of a query with what its placeholder stands for. *)
Record bound : Type := mkBound { b_column : jsstr; b_operator : jsstr; b_operand : mval }.

Definition bound_text (b : bound) : jsstr := column (b_column b) ++ js " " ++ b_operator b ++ js " ?".

Fixpoint operators (v : mval) : list jsstr :=
  match v with
  | QueryAnd v0 v1 => operators v0 ++ operators v1
  | QueryOperator key _ _ => [key]
  | _ => [js "="]
  end.

Definition property_bounds (info : ModelMappingInfo) (doc : document) (k : jsstr) : result (list bound) :=
  vs ← operands info k (prop doc k);
  Ok (zip_with (mkBound (getColumnName info k)) (operators (prop doc k)) vs).

(** The conditions that a document states. *)
Definition conditions_of (info : ModelMappingInfo) (doc : document) (keys : list jsstr) : result (list bound) :=
  l ← traverse (property_bounds info doc) keys; Ok (mjoin (l : list (list bound))).

Lemma operators_ne v : operators v <> [].
Proof.
  induction v as [v|k v IH i|v0 IH0 v1 IH1|s v IH i|v0 IH0 v1 IH1]; cbn; try done. by intros [E _]%app_eq_nil.
Qed.

Lemma operands_length info p v vs : operands info p v = Ok vs -> length vs = length (operators v).
Proof.
  revert vs. induction v as [v|k v IH i|v0 IH0 v1 IH1|s v IH i|v0 IH0 v1 IH1]; intros vs; cbn [operands operators].
  1, 2, 4, 5: by intros (y & _ & [= <-])%bind_ok.
  intros (l0 & H0%IH0 & (l1 & H1%IH1 & [= <-])%bind_ok)%bind_ok. rewrite !length_app. by rewrite H0, H1.
Qed.

Lemma same_operators_eq v v' : same_operators v v' = true -> operators v = operators v'.
Proof.
  revert v'. induction v as [v|k v IH i|v0 IH0 v1 IH1|s v IH i|v0 IH0 v1 IH1]; intros [] Hs; try done; cbn in *.
  - by apply andb_prop in Hs as [->%bool_decide_eq_true _].
  - apply andb_prop in Hs as [H0 H1]. by rewrite (IH0 _ H0), (IH1 _ H1).
Qed.

Lemma single_condition c v :
  _getSingleCondition c v = join (js " AND ") ((fun op => column c ++ js " " ++ op ++ js " ?") <$> operators v).
Proof.
  induction v as [v|k v IH i|v0 IH0 v1 IH1|s v IH i|v0 IH0 v1 IH1]; try done. cbn [_getSingleCondition operators].
  rewrite IH0, IH1, fmap_app, join_sep_app; [done| |]; intros E%fmap_nil_inv; exact (operators_ne _ E).
Qed.

(** The properties of a document and another document with the same operators. *)
Definition same_shape (keys : list jsstr) (doc doc' : document) : Prop :=
  Forall (fun k => same_operators (prop doc k) (prop doc' k) = true) keys.

Lemma conditions_cons info doc k keys bs : conditions_of info doc (k :: keys) = Ok bs ->
  exists vs bs', operands info k (prop doc k) = Ok vs /\ conditions_of info doc keys = Ok bs' /\
    bs = zip_with (mkBound (getColumnName info k)) (operators (prop doc k)) vs ++ bs'.
Proof.
  unfold conditions_of. cbn [traverse]. intros (l & (b & Hb & (bs' & Hbs & [= <-])%bind_ok)%bind_ok & [= <-])%bind_ok.
  unfold property_bounds in Hb at 1. apply bind_ok in Hb as (vs & Hvs & [= <-]). exists vs, (mjoin bs').
  split_and!; [done| |done]. by rewrite Hbs.
Qed.

Lemma conditions_text info doc doc' keys bs : same_shape keys doc doc' -> conditions_of info doc' keys = Ok bs ->
  _getConditionWithOperators (DocInfoAdapter.getPropertiesInfo keys None doc info) = join (js " AND ") (bound_text <$> bs) /\
  (length keys <= length bs)%nat.
Proof.
  intros Hs. revert bs. induction Hs as [|k keys Hk _ IH]; intros bs; [by intros [= <-]|].
  intros (vs & bs' & Hvs & Hbs' & ->)%conditions_cons. destruct (IH _ Hbs') as [IHt IHl].
  pose proof (operands_length _ _ _ _ Hvs) as Hlen. pose proof (operators_ne (prop doc' k)) as Hne.
  assert (E : bound_text <$> zip_with (mkBound (getColumnName info k)) (operators (prop doc' k)) vs
    = (fun op => column (getColumnName info k) ++ js " " ++ op ++ js " ?") <$> operators (prop doc' k)).
  { clear -Hlen. revert vs Hlen. induction (operators (prop doc' k)) as [|op ops IHo]; intros [|v vs] Hlen; try done.
    cbn. f_equal. apply (IHo vs). cbn in Hlen. lia. }
  split; [|rewrite length_app, length_zip_with, Hlen, Nat.min_id; destruct (operators (prop doc' k)); [done|cbn [length]; lia]].
  unfold _getConditionWithOperators, DocInfoAdapter.getPropertiesInfo. rewrite !fmap_cons, fmap_app, E.
  cbn [DocInfoAdapter.propertyInfo_of pi_columnName pi_value]. rewrite single_condition, (same_operators_eq _ _ Hk).
  destruct keys as [|k' keys].
  { change (Ok (@nil bound) = Ok bs') in Hbs'. injection Hbs' as <-. rewrite fmap_nil, app_nil_r. done. }
  rewrite join_sep_app; [by rewrite <- IHt| |].
  - intros E'%fmap_nil_inv. done.
  - intros E'%fmap_nil_inv. rewrite E' in IHl. cbn in IHl. lia.
Qed.

(** Running the expressions written for the properties of an object gives the operands of
    its conditions. *)
Lemma run_conditions info doc d obj obj' o keys bs :
  (forall p, run_object doc d o p = Ok (prop obj' p)) -> same_shape keys obj obj' ->
  conditions_of info obj' keys = Ok bs ->
  traverse (run_getter doc d info) (Some <$> mjoin (getters o <$> DocInfoAdapter.getPropertiesInfo keys None obj info))
  = Ok (b_operand <$> bs).
Proof.
  intros Ho Hs. revert bs. induction Hs as [|k keys Hk _ IH]; intros bs; [by intros [= <-]|].
  intros (vs & bs' & Hvs & Hbs' & ->)%conditions_cons.
  change (mjoin (getters o <$> DocInfoAdapter.getPropertiesInfo (k :: keys) None obj info))
    with (single o k [] (prop obj k) (is_some (getFromModelFn info k)) ++ mjoin (getters o <$> DocInfoAdapter.getPropertiesInfo keys None obj info)).
  rewrite fmap_app, traverse_app, (run_single doc d info o k (prop obj' k) _ (prop obj' k)) by done.
  rewrite Hvs, ok_bind, (IH _ Hbs'), ok_bind, fmap_app. do 2 f_equal.
  pose proof (operands_length _ _ _ _ Hvs) as Hlen. clear -Hlen. revert vs Hlen.
  induction (operators (prop obj' k)) as [|op ops IHo]; intros [|v vs] Hlen; try done.
  cbn. f_equal. apply (IHo vs). cbn in Hlen. lia.
Qed.

Lemma getters_wf o keys doc info : Forall plain keys ->
  Forall wf_getter (mjoin (getters o <$> DocInfoAdapter.getPropertiesInfo keys None doc info)).
Proof.
  intros Hk. induction Hk as [|k keys Hk _ IH]; [constructor|]. cbn. apply Forall_app. split; [|done].
  by apply single_wf.
Qed.

End Conditions.

(** ** Placeholders *)

Module Placeholders.
Import Script ScriptText QueryGenerator Params Conditions.

Definition marks (s : jsstr) : nat := count 63 s.
Definition unmarked (s : jsstr) : Prop := marks s = 0%nat.

(** Counts the placeholders of the constant parts of a query. *)
Ltac eval_marks :=
  repeat match goal with
  | |- context [marks (js ?s)] => let n := eval vm_compute in (marks (js s)) in change (marks (js s)) with n
  | |- context [marks []] => change (marks []) with 0%nat
  end.

Lemma marks_app a b : marks (a ++ b) = (marks a + marks b)%nat.
Proof. unfold marks, count. by rewrite List.filter_app, length_app. Qed.

Lemma marks_join sep l : unmarked sep -> marks (join sep l) = sum_list (marks <$> l).
Proof.
  intros Hs. induction l as [|x l IH]; [done|]. destruct l as [|y l]; [by rewrite fmap_cons; cbn [join fmap list_fmap sum_list_with]; rewrite Nat.add_0_r|].
  change (join sep (x :: y :: l)) with (x ++ sep ++ join sep (y :: l)). rewrite !marks_app, IH, Hs. done.
Qed.

Lemma sum_const {A} (f : A -> nat) n l : Forall (fun x => f x = n) l -> sum_list (f <$> l) = (n * length l)%nat.
Proof. induction 1 as [|x l Hx _ IH]; [cbn; lia|]. rewrite fmap_cons. cbn [sum_list_with length id]. rewrite Hx, IH. lia. Qed.

Lemma marks_list {A} (f : A -> jsstr) n sep l : unmarked sep -> Forall (fun x => marks (f x) = n) l ->
  marks (join sep (f <$> l)) = (n * length l)%nat.
Proof. intros Hs Hl. rewrite marks_join by done. rewrite <- list_fmap_compose. by apply (sum_const (marks ∘ f)). Qed.

Lemma marks_column c : unmarked c -> marks (column c) = 0%nat.
Proof. intros Hc. unfold column. change (34 :: c ++ [34]) with ([34] ++ c ++ [34]). by rewrite !marks_app, Hc. Qed.

Definition unmarked_bound (b : bound) : Prop := unmarked (b_column b) /\ unmarked (b_operator b).

Lemma marks_bounds bs : Forall unmarked_bound bs -> marks (join (js " AND ") (bound_text <$> bs)) = length bs.
Proof.
  intros Hb. rewrite (marks_list bound_text 1); [lia|done|]. eapply Forall_impl; [|exact Hb].
  intros b [H1 H2]. unfold bound_text. by rewrite !marks_app, marks_column, H2.
Qed.

Lemma marks_columns l : Forall (fun p => unmarked (pi_columnName p)) l ->
  marks (join (js ", ") ((fun p => column (pi_columnName p)) <$> l)) = 0%nat.
Proof.
  intros Hl. rewrite (marks_list _ 0); [lia|done|]. eapply Forall_impl; [|exact Hl]. intros p Hp. by apply marks_column.
Qed.


(** The values that a select takes from the options. *)
Definition limit_values (lim : jsval) (d : docInfo) : list mval := if is_number lim then [Val (limit d)] else [].

Lemma select_script_text props lim :
  select_script props lim = opening (js "getParametersSelect") ++
    join (js ", ") (render <$> (mjoin (getters Doc <$> props) ++
      if is_number lim then [mkGetter Info (js "limit") [] None] else [])) ++ closing.
Proof.
  unfold select_script. change doc_ with (render_object Doc). rewrite getters_text. f_equal.
  destruct (is_number lim); [|by rewrite (app_nil_r (mjoin _))]. destruct props as [|p props]; [done|].
  rewrite fmap_app, join_sep_app; [by rewrite <- !app_assoc| |done]. cbn. intros E%fmap_nil_inv.
  apply app_eq_nil in E as [E _]. exact (single_ne _ _ _ _ _ E).
Qed.


(** *** Mutations *)

Definition plain_value (v : mval) : Prop := operators v = [js "="].

(** The value of an assignment, and assignments that only differ in it. *)
Definition assign_value (v : mval) : mval := match v with QueryAssignment _ x _ => x | _ => v end.

Definition same_assignment (v v' : mval) : bool :=
  match v, v' with
  | QueryAssignment s _ i, QueryAssignment s' _ i' => bool_decide (s = s') && Bool.eqb i i'
  | QueryAssignment _ _ _, _ | _, QueryAssignment _ _ _ => false
  | _, _ => true
  end.

Definition assigned (info : ModelMappingInfo) (doc : document) (k : jsstr) : result mval :=
  mapped info k (assign_value (prop doc k)).

Definition assign_getter (p : propertyInfo) : getter :=
  mkGetter Doc (pi_propertyName p) (match pi_value p with QueryAssignment _ _ _ => [Value] | _ => [] end)
    (if is_some (pi_fromModel p) then Some (pi_propertyName p) else None).

Lemma assign_text props :
  _assignmentGetterExpression props doc_ = join (js ", ") (render <$> (assign_getter <$> props)).
Proof.
  unfold _assignmentGetterExpression. f_equal. rewrite <- list_fmap_compose. apply list_fmap_ext. intros i p _.
  unfold compose, assign_getter, render. cbn [g_call]. unfold render_property, _getMappingFunctionCall, doc_.
  cbn [g_object g_property g_path render_object].
  assert (E : render_path (match pi_value p with QueryAssignment _ _ _ => [Value] | _ => [] end)
    = match pi_value p with QueryAssignment _ _ _ => js ".value" | _ => [] end) by by destruct (pi_value p).
  rewrite E. by destruct (is_some (pi_fromModel p)).
Qed.

Lemma assign_wf keys doc info : Forall plain keys ->
  Forall wf_getter (assign_getter <$> DocInfoAdapter.getPropertiesInfo keys None doc info).
Proof.
  intros Hk. unfold DocInfoAdapter.getPropertiesInfo. rewrite <- list_fmap_compose, Forall_fmap.
  eapply Forall_impl; [|exact Hk]. intros k Hp. split; cbn; [done| |].
  - by destruct (prop doc k).
  - intros f. by destruct (is_some _); intros [= <-].
Qed.

Lemma run_assignments info doc doc' d keys vals :
  Forall (fun k => same_assignment (prop doc k) (prop doc' k) = true) keys ->
  traverse (assigned info doc') keys = Ok vals ->
  traverse (run_getter (Some doc') d info) (Some <$> (assign_getter <$> DocInfoAdapter.getPropertiesInfo keys None doc info)) = Ok vals.
Proof.
  intros Hs. revert vals. induction Hs as [|k keys Hk _ IH]; intros vals; [done|]. cbn [traverse].
  intros (v & Hv & (vs & Hvs & [= <-])%bind_ok)%bind_ok.
  change (DocInfoAdapter.getPropertiesInfo (k :: keys) None doc info)
    with (DocInfoAdapter.propertyInfo_of doc info k :: DocInfoAdapter.getPropertiesInfo keys None doc info).
  rewrite !fmap_cons. cbn [traverse]. rewrite (IH _ Hvs).
  assert (E : run_getter (Some doc') d info (Some (assign_getter (DocInfoAdapter.propertyInfo_of doc info k))) = Ok v); [|by rewrite E].
  rewrite <- Hv. unfold assigned, mapped, assign_getter. cbn [pi_propertyName pi_value pi_fromModel DocInfoAdapter.propertyInfo_of].
  erewrite run_one; [|done|reflexivity]. unfold run_path.
  destruct (prop doc k), (prop doc' k); try done; cbn; by destruct (getFromModelFn info k).
Qed.

(** The keys of a document whose property satisfies a test on the column name. *)
Definition select_keys (f : jsstr -> bool) (info : ModelMappingInfo) (keys : list jsstr) : list jsstr :=
  List.filter (fun k => f (getColumnName info k)) keys.

Lemma filter_properties f info doc keys :
  List.filter (fun p => f (pi_columnName p)) (DocInfoAdapter.getPropertiesInfo keys None doc info)
  = DocInfoAdapter.getPropertiesInfo (select_keys f info keys) None doc info.
Proof. induction keys as [|k keys IH]; [done|]. cbn in *. destruct (f (getColumnName info k)); [cbn; f_equal|]; apply IH. Qed.

Lemma Forall_select (P : jsstr -> Prop) f info keys : Forall P keys -> Forall P (select_keys f info keys).
Proof. induction 1 as [|k keys Hk _ IH]; [constructor|]. cbn. destruct (f _); [by constructor|done]. Qed.

(** The WHERE clause of a mutation has one equality for each key. *)
Lemma equals_text info doc doc' keys bs :
  Forall (fun k => plain_value (prop doc' k)) keys -> conditions_of info doc' keys = Ok bs ->
  equals <$> DocInfoAdapter.getPropertiesInfo keys None doc info = bound_text <$> bs /\ length bs = length keys.
Proof.
  intros Hp. revert bs. induction Hp as [|k keys Hk _ IH]; intros bs; [by intros [= <-]|].
  intros (vs & bs' & Hvs & Hbs' & ->)%conditions_cons. destruct (IH _ Hbs') as [IHt IHl].
  pose proof (operands_length _ _ _ _ Hvs) as Hlen. rewrite Hk in *. destruct vs as [|v [|]]; try done.
  cbn [zip_with app length]. split; [|by rewrite IHl]. rewrite fmap_cons, <- IHt. done.
Qed.

Lemma join_sep_opt sep l1 l2 : l1 <> [] ->
  join sep (l1 ++ l2) = join sep l1 ++ match l2 with [] => [] | _ => sep ++ join sep l2 end.
Proof. intros H1. destruct l2 as [|x l2]; [by rewrite !app_nil_r|]. by rewrite join_sep_app. Qed.

Lemma getters_ne o props : props <> [] -> mjoin (getters o <$> props) <> [].
Proof. destruct props as [|p props]; [done|]. intros _. cbn. intros [E _]%app_eq_nil. exact (single_ne _ _ _ _ _ E). Qed.

Lemma when_script_text when_ :
  when_script when_ = match (render <$> mjoin (getters When <$> when_)) with [] => [] | l => js ", " ++ join (js ", ") l end.
Proof.
  unfold when_script. change docInfo_when with (render_object When). rewrite getters_text.
  destruct when_ as [|p when_]; [done|]. cbn [length Nat.ltb Nat.leb].
  destruct (render <$> mjoin (getters When <$> p :: when_)) eqn:E; [|done].
  apply fmap_nil_inv in E. by apply getters_ne in E.
Qed.

(** *** UPDATE and DELETE *)

(** The options that the parameters of a mutation are taken from: the conditions with
    their operands. *)
Definition when_bounds (info : ModelMappingInfo) (d d' : docInfo) (ws : list bound) : Prop :=
  match when_ d with
  | None => ws = []
  | Some w => Forall plain (fst <$> w) /\
      exists w', when_ d' = Some w' /\ same_shape (fst <$> w) w w' /\ conditions_of info w' (fst <$> w) = Ok ws
  end.

(** [when] of [createUpdateQueries] and [createDeleteQueries] *)
Definition when_properties (info : ModelMappingInfo) (d : option docInfo) : list propertyInfo :=
  match d ≫= when_ with
  | Some w => DocInfoAdapter.getPropertiesInfo (fst <$> w) None w info
  | None => []
  end.

Lemma when_facts info d d' ws doc' : when_bounds info d d' ws ->
  let props := when_properties info (Some d) in
  Forall wf_getter (mjoin (getters When <$> props)) /\
  traverse (run_getter doc' (Some d') info) (Some <$> mjoin (getters When <$> props)) = Ok (b_operand <$> ws) /\
  _getConditionWithOperators props = join (js " AND ") (bound_text <$> ws) /\ (length props <= length ws)%nat /\
  (props = [] -> ws = []).
Proof.
  unfold when_bounds, when_properties. cbn [mbind option_bind]. destruct (when_ d) as [w|].
  - intros (Hp & w' & Hw' & Hs & Hc). destruct (conditions_text _ _ _ _ _ Hs Hc) as [Ht Hl]. cbn zeta. split_and!.
    + by apply getters_wf.
    + apply (run_conditions info doc' (Some d') w w'); [|done|done]. intros p. cbn. rewrite Hw'. by destruct doc'.
    + done.
    + by unfold DocInfoAdapter.getPropertiesInfo; rewrite length_fmap.
    + intros E%fmap_nil_inv. rewrite E in Hc. change (Ok (@nil bound) = Ok ws) in Hc. by injection Hc as <-.
  - intros ->. split_and!; [constructor|done..].
Qed.

(** The last part of a mutation. *)
Definition condition_text (ifExists : jsval) (ws : list bound) : jsstr :=
  if is_true ifExists then js " IF EXISTS"
  else match ws with [] => [] | _ => js " IF " ++ join (js " AND ") (bound_text <$> ws) end.

Lemma condition_bounds when_ ws ifExists :
  _getConditionWithOperators when_ = join (js " AND ") (bound_text <$> ws) -> (when_ = [] -> ws = []) -> (length when_ <= length ws)%nat ->
  condition when_ ifExists = condition_text ifExists ws.
Proof.
  intros Ht Hn Hl. unfold condition, condition_text. rewrite Ht. destruct (is_true ifExists); [done|].
  destruct when_ as [|p when_]; [by rewrite Hn|]. cbn [length Nat.ltb Nat.leb]. destruct ws; [cbn in Hl; lia|done].
Qed.

Lemma marks_condition ws ifExists : Forall unmarked_bound ws -> (is_true ifExists = true -> ws = []) ->
  marks (condition_text ifExists ws) = length ws.
Proof.
  intros Hb Hi. unfold condition_text. destruct (is_true ifExists); [by rewrite Hi|]. destruct ws as [|w ws]; [done|].
  rewrite marks_app, marks_bounds by done. done.
Qed.

(** An assignment: the column, the sign and side of an operation on the column, if any, and
    the value. *)
Record assign : Type := mkAssign { a_column : jsstr; a_operation : option (jsstr * bool); a_value : mval }.

Definition assign_fragment (a : assign) : jsstr :=
  column (a_column a) ++ js " = " ++
  match a_operation a with
  | None => js "?"
  | Some (sign, true) => js "? " ++ sign ++ js " " ++ column (a_column a)
  | Some (sign, false) => column (a_column a) ++ js " " ++ sign ++ js " ?"
  end.

Definition operation_of (v : mval) : option (jsstr * bool) :=
  match v with QueryAssignment sign _ inverted => Some (sign, inverted) | _ => None end.

(** The assignments that a document gives. *)
Definition assignments_of (info : ModelMappingInfo) (doc : document) (keys : list jsstr) : result (list assign) :=
  traverse (fun k => v ← assigned info doc k; Ok (mkAssign (getColumnName info k) (operation_of (prop doc k)) v)) keys.

Lemma same_operation v v' : same_assignment v v' = true -> operation_of v = operation_of v'.
Proof.
  destruct v, v'; try done. cbn. intros [H1%bool_decide_eq_true H2%eqb_prop]%andb_true_iff. by subst.
Qed.

Lemma assignments_text info doc doc' keys l :
  Forall (fun k => same_assignment (prop doc k) (prop doc' k) = true) keys -> assignments_of info doc' keys = Ok l ->
  assignment <$> DocInfoAdapter.getPropertiesInfo keys None doc info = assign_fragment <$> l /\
  traverse (assigned info doc') keys = Ok (a_value <$> l).
Proof.
  intros Hs. revert l. unfold assignments_of. induction Hs as [|k keys Hk _ IH]; intros l; [by intros [= <-]|]. cbn [traverse].
  intros (a & (v & Hv & [= <-])%bind_ok & (l' & Hl & [= <-])%bind_ok)%bind_ok. destruct (IH _ Hl) as [IHt IHv].
  change (DocInfoAdapter.getPropertiesInfo (k :: keys) None doc info)
    with (DocInfoAdapter.propertyInfo_of doc info k :: DocInfoAdapter.getPropertiesInfo keys None doc info).
  rewrite !fmap_cons, IHt, Hv, IHv. split; [|done]. f_equal. unfold assignment, assign_fragment.
  cbn [pi_value pi_columnName DocInfoAdapter.propertyInfo_of a_column a_operation]. rewrite <- (same_operation _ _ Hk).
  destruct (prop doc k) as [| | |sign v0 [|]|]; done.
Qed.

Lemma marks_assignment p :
  unmarked (pi_columnName p) -> (forall s v i, pi_value p = QueryAssignment s v i -> unmarked s) ->
  marks (assignment p) = 1%nat.
Proof.
  intros Hc Hs. unfold assignment. destruct (pi_value p) as [| | |s v [|]|] eqn:E;
    rewrite ?marks_app, !marks_column by done; try rewrite (Hs _ _ _ eq_refl); done.
Qed.

Lemma marks_equals info doc keys : Forall (fun k => unmarked (getColumnName info k)) keys ->
  marks (join (js " AND ") (equals <$> DocInfoAdapter.getPropertiesInfo keys None doc info)) = length keys.
Proof.
  intros Hk. rewrite (marks_list equals 1); [unfold DocInfoAdapter.getPropertiesInfo; rewrite length_fmap; lia|done|].
  apply Forall_fmap. eapply Forall_impl; [|exact Hk]. intros k Hc. unfold compose, equals. by rewrite marks_app, marks_column.
Qed.

Lemma assignments_marks info doc keys : Forall (fun k => unmarked (getColumnName info k)) keys ->
  Forall (fun k => forall s v i, prop doc k = QueryAssignment s v i -> unmarked s) keys ->
  Forall (fun p => marks (assignment p) = 1%nat) (DocInfoAdapter.getPropertiesInfo keys None doc info).
Proof.
  intros Hk Hs. apply Forall_fmap. induction Hk as [|k keys Hk _ IH]; [constructor|].
  apply Forall_cons_1 in Hs as [Hs1 Hs]. constructor; [|by apply IH]. by apply marks_assignment.
Qed.

Section mutation.
Context (info : ModelMappingInfo) (table : tableMetadata) (keys : list jsstr) (doc doc' : document) (d d' : docInfo).

(** The properties that are columns of the table: those to set, and those of the key. *)
Definition set_keys : list jsstr :=
  select_keys (fun c => has_column table c && negb (bool_decide (c ∈ primaryKeys table))) info keys.
Definition where_keys : list jsstr :=
  select_keys (fun c => has_column table c && bool_decide (c ∈ primaryKeys table)) info keys.

Definition unmarked_names : Prop :=
  unmarked (tm_name table) /\ unmarked (keyspace info) /\ Forall (fun k => unmarked (getColumnName info k)) keys /\
  Forall (fun k => forall s v i, prop doc k = QueryAssignment s v i -> unmarked s) keys.

Lemma filter_set : List.filter (not_key (primaryKeys table))
    (filter_columns table (DocInfoAdapter.getPropertiesInfo keys None doc info))
  = DocInfoAdapter.getPropertiesInfo set_keys None doc info.
Proof.
  unfold set_keys. rewrite <- filter_properties. unfold filter_columns, not_key, is_key.
  induction (DocInfoAdapter.getPropertiesInfo keys None doc info) as [|p l IH]; [done|]. cbn [List.filter].
  destruct (has_column table (pi_columnName p)); cbn [List.filter andb]; [|done]. by rewrite IH.
Qed.

Lemma filter_where : List.filter (is_key (primaryKeys table))
    (filter_columns table (DocInfoAdapter.getPropertiesInfo keys None doc info))
  = DocInfoAdapter.getPropertiesInfo where_keys None doc info.
Proof.
  unfold where_keys. rewrite <- filter_properties. unfold filter_columns, is_key.
  induction (DocInfoAdapter.getPropertiesInfo keys None doc info) as [|p l IH]; [done|]. cbn [List.filter].
  destruct (has_column table (pi_columnName p)); cbn [List.filter andb]; [|done]. by rewrite IH.
Qed.

Definition ttl_getters : list getter := if is_number (ttl d) then [mkGetter Info (js "ttl") [] None] else [].
Definition ttl_values : list mval := if is_number (ttl d) then [Val (ttl d')] else [].

Lemma update_script_text : set_keys <> [] -> where_keys <> [] ->
  update_script (primaryKeys table) (filter_columns table (DocInfoAdapter.getPropertiesInfo keys None doc info))
    (when_properties info (Some d)) (ttl d)
  = opening (js "getParametersUpdate") ++
    join (js ", ") (render <$> (ttl_getters ++ (assign_getter <$> DocInfoAdapter.getPropertiesInfo set_keys None doc info) ++
      mjoin (getters Doc <$> DocInfoAdapter.getPropertiesInfo where_keys None doc info) ++
      mjoin (getters When <$> when_properties info (Some d)))) ++ closing.
Proof.
  intros Hset Hwhere. unfold update_script. rewrite filter_set, filter_where, assign_text, when_script_text.
  change doc_ with (render_object Doc). rewrite getters_text. f_equal.
  set (A := assign_getter <$> _). set (B := mjoin (getters Doc <$> _)). set (C := mjoin (getters When <$> _)).
  assert (HA : render <$> A <> []) by (unfold A; intros E%fmap_nil_inv%fmap_nil_inv%fmap_nil_inv; done).
  assert (HB : render <$> B <> []) by (intros E%fmap_nil_inv; revert E; apply getters_ne; intros E%fmap_nil_inv; done).
  rewrite !fmap_app. rewrite (app_assoc (render <$> ttl_getters)).
  rewrite (join_sep_app _ _ ((render <$> B) ++ _)).
  - rewrite (join_sep_opt _ (render <$> B)) by done. unfold ttl_getters. destruct (render <$> C), (is_number (ttl d)).
    1, 3: rewrite (join_sep_app _ (render <$> [_])) by done; by rewrite <- !app_assoc.
    all: by rewrite <- !app_assoc.
  - intros [_ E]%app_eq_nil. done.
  - intros [E _]%app_eq_nil. done.
Qed.

End mutation.

(** C15. The parameters of an UPDATE: a query made for a document is run with a document of
    the same shape.  Its text is fixed: the time to live if there is one, the assignments
    with their columns and operations, an equality for each column of the key, and the
    conditions of [when] (or IF EXISTS); the parameters are the time to live, the values
    assigned, the values of the key and the operands of the conditions in that very order,
    one for each placeholder, so that the i-th placeholder gets the value of its own
    column.  The columns of the key are given plain values: an operator there would be
    written as an equality.  Names and operators have no question mark in them, and
    conditions are not given together with [ifExists]. *)
Theorem update_parameters info table keys doc doc' d d' ifExists assigns bs ws :
  let sets := set_keys info table keys in
  let wheres := where_keys info table keys in
  Forall plain keys -> fields d = [] -> sets <> [] -> wheres <> [] ->
  Forall (fun k => same_assignment (prop doc k) (prop doc' k) = true) keys ->
  same_shape wheres doc doc' -> Forall (fun k => plain_value (prop doc' k)) wheres ->
  assignments_of info doc' sets = Ok assigns -> conditions_of info doc' wheres = Ok bs -> when_bounds info d d' ws ->
  unmarked_names info table keys doc -> Forall unmarked_bound ws -> (is_true ifExists = true -> ws = []) ->
  let params := ttl_values d d' ++ (a_value <$> assigns) ++ (b_operand <$> bs) ++ (b_operand <$> ws) in
  exists qi, getUpdate table (keyspace info) (DocInfoAdapter.getPropertiesInfo keys (Some d) doc info) (Some d)
      (when_properties info (Some d)) ifExists = Ok qi /\
    query qi = js "UPDATE " ++ keyspace info ++ js "." ++ tm_name table ++ js " " ++
      (if is_number (ttl d) then js "USING TTL ? " else []) ++
      js "SET " ++ join (js ", ") (assign_fragment <$> assigns) ++
      js " WHERE " ++ join (js " AND ") (bound_text <$> bs) ++ condition_text ifExists ws /\
    run (paramsGetter qi) (Some doc') (Some d') info = Ok params /\ marks (query qi) = length params.
Proof.
  intros sets wheres Hk Hf Hset Hwhere Ha Hs Hp Hvals Hbs Hws (Ht & Hks & Hn & Hsign) Hwu Hi params.
  destruct (when_facts _ _ _ _ (Some doc') Hws) as (Wwf & Wrun & Wtext & Wlen & Wnil).
  destruct (equals_text info doc doc' wheres bs Hp Hbs) as [Etext Elen].
  destruct (assignments_text info doc doc' sets assigns (Forall_select _ _ _ _ Ha) Hvals) as [Atext Avals].
  assert (Hprops : DocInfoAdapter.getPropertiesInfo keys (Some d) doc info = DocInfoAdapter.getPropertiesInfo keys None doc info)
    by (unfold DocInfoAdapter.getPropertiesInfo; by rewrite Hf).
  rewrite Hprops. eexists. split.
  { unfold getUpdate, _updateParamsGetter. cbn [of_info]. rewrite update_script_text by done. rewrite new_Script_render; [by rewrite ok_bind|].
    apply Forall_app. split; [unfold ttl_getters; destruct (is_number _); [by apply Forall_singleton|constructor]|].
    apply Forall_app. split; [apply assign_wf; by apply Forall_select|].
    apply Forall_app. split; [apply getters_wf; by apply Forall_select|done]. }
  cbn [paramsGetter query]. unfold _getUpdateQuery. rewrite filter_set, filter_where. fold sets wheres.
  rewrite (condition_bounds _ ws) by done. split_and!.
  - by rewrite Atext, Etext.
  - unfold run. rewrite !fmap_app, !traverse_app.
    assert (Et : traverse (run_getter (Some doc') (Some d') info) (Some <$> ttl_getters d) = Ok (ttl_values d d'))
      by (unfold ttl_getters, ttl_values; by destruct (is_number (ttl d))).
    rewrite Et, ok_bind, (run_assignments info doc doc' (Some d') sets (a_value <$> assigns)), ok_bind by (done || by apply Forall_select).
    rewrite (run_conditions info (Some doc') (Some d') doc doc' Doc wheres bs), ok_bind by done. by rewrite Wrun.
  - rewrite !marks_app, Ht, Hks, (marks_condition ws) by done.
    rewrite (marks_equals info doc wheres), (marks_list assignment 1) by
      (done || by apply Forall_select || by apply assignments_marks; apply Forall_select).
    unfold DocInfoAdapter.getPropertiesInfo. rewrite length_fmap. subst params. rewrite !length_app, !length_fmap, Elen.
    apply traverse_ok, Forall2_length in Avals. rewrite length_fmap in Avals. rewrite <- Avals. unfold ttl_values, sets, wheres.
    destruct (is_number (ttl d)); eval_marks; cbn [length]; lia.
Qed.

Lemma marks_questions n : marks (join (js ", ") (replicate n (js "?"))) = n.
Proof.
  rewrite marks_join by done. induction n as [|n IH]; [done|]. cbn [replicate]. rewrite fmap_cons. cbn [sum_list_with id].
  by rewrite IH.
Qed.

(** The properties of an INSERT. *)
Definition insert_keys (info : ModelMappingInfo) (table : tableMetadata) (keys : list jsstr) : list jsstr :=
  select_keys (has_column table) info keys.

Lemma insert_script_text info table keys doc d : insert_keys info table keys <> [] ->
  insert_script (filter_columns table (DocInfoAdapter.getPropertiesInfo keys None doc info)) (Some d)
  = opening (js "getParametersInsert") ++
    join (js ", ") (render <$> (mjoin (getters Doc <$> DocInfoAdapter.getPropertiesInfo (insert_keys info table keys) None doc info) ++
      ttl_getters d)) ++ closing.
Proof.
  intros Hne. unfold insert_script, filter_columns. rewrite (filter_properties (has_column table)). fold (insert_keys info table keys).
  change doc_ with (render_object Doc). rewrite getters_text. f_equal. rewrite fmap_app, join_sep_opt.
  - unfold ttl_getters. destruct (is_number (ttl d)); by rewrite <- !app_assoc.
  - intros E%fmap_nil_inv. revert E. apply getters_ne. intros E%fmap_nil_inv. done.
Qed.

(** The parameters of an INSERT: a query made for a document and run with another of
    the same shape names the columns of the table, has a placeholder for each of them and
    for the time to live, and the parameters are the values of those columns in the same
    order. *)
Theorem insert_parameters info table keys doc doc' d d' bs :
  let cols := insert_keys info table keys in
  Forall plain keys -> fields d = [] -> cols <> [] ->
  same_shape cols doc doc' -> Forall (fun k => plain_value (prop doc' k)) cols -> conditions_of info doc' cols = Ok bs ->
  unmarked_names info table keys doc ->
  let params := (b_operand <$> bs) ++ ttl_values d d' in
  exists qi, getInsert table (keyspace info) (DocInfoAdapter.getPropertiesInfo keys (Some d) doc info) (Some d)
      (ifNotExists d) = Ok qi /\
    query qi = js "INSERT INTO " ++ keyspace info ++ js "." ++ tm_name table ++ js " (" ++
      join (js ", ") (column <$> (b_column <$> bs)) ++ js ") VALUES (" ++ join (js ", ") (replicate (length bs) (js "?")) ++ js ")" ++
      (if is_true (ifNotExists d) then js " IF NOT EXISTS" else []) ++
      (if is_number (ttl d) then js " USING TTL ?" else []) /\
    run (paramsGetter qi) (Some doc') (Some d') info = Ok params /\ marks (query qi) = length params.
Proof.
  intros cols Hk Hf Hne Hs Hp Hbs (Ht & Hks & Hn & _) params.
  destruct (equals_text info doc doc' cols bs Hp Hbs) as [_ Elen].
  assert (Hcols : b_column <$> bs = getColumnName info <$> cols).
  { clear -Hbs Hp. revert bs Hbs. induction Hp as [|k ks Hk _ IH]; intros bs; [by intros [= <-]|].
    intros (vs & bs' & Hvs & Hbs' & ->)%conditions_cons. pose proof (operands_length _ _ _ _ Hvs) as Hlen. rewrite Hk in *.
    destruct vs as [|v [|]]; try done. cbn [zip_with app]. by rewrite !fmap_cons, (IH _ Hbs'). }
  assert (Hprops : DocInfoAdapter.getPropertiesInfo keys (Some d) doc info = DocInfoAdapter.getPropertiesInfo keys None doc info)
    by (unfold DocInfoAdapter.getPropertiesInfo; by rewrite Hf).
  assert (Hc : Forall (fun k => unmarked (getColumnName info k)) cols) by by apply Forall_select.
  rewrite Hprops. eexists. split.
  { unfold getInsert, _insertParamsGetter. rewrite insert_script_text by done. rewrite new_Script_render; [by rewrite ok_bind|].
    apply Forall_app. split; [apply getters_wf; by apply Forall_select|].
    unfold ttl_getters. destruct (is_number _); [by apply Forall_singleton|constructor]. }
  cbn [paramsGetter query]. unfold _getInsertQuery, filter_columns. rewrite (filter_properties (has_column table)). fold (insert_keys info table keys). fold cols.
  assert (Eq : forall p : list propertyInfo, (fun _ => js "?") <$> p = replicate (length p) (js "?"))
    by (intros p; induction p as [|x p IHp]; [done|]; rewrite fmap_cons, IHp; done).
  assert (El : length (DocInfoAdapter.getPropertiesInfo cols None doc info) = length bs)
    by (unfold DocInfoAdapter.getPropertiesInfo; by rewrite length_fmap).
  rewrite Eq, El.
  assert (Ec : (fun p => column (pi_columnName p)) <$> DocInfoAdapter.getPropertiesInfo cols None doc info = column <$> (b_column <$> bs)).
  { rewrite Hcols. unfold DocInfoAdapter.getPropertiesInfo. by rewrite <- !list_fmap_compose. }
  rewrite Ec. split; [done|]. split.
  - unfold run. rewrite fmap_app, traverse_app, (run_conditions info (Some doc') (Some d') doc doc' Doc cols bs), ok_bind by done.
    unfold ttl_getters, params, ttl_values. by destruct (is_number (ttl d)).
  - rewrite !marks_app, Ht, Hks, Hcols, <- list_fmap_compose, (marks_list _ 0) by
      (done || by eapply Forall_impl; [|exact Hc]; intros k; apply marks_column).
    rewrite marks_questions. subst params. rewrite length_app, length_fmap. unfold ttl_values. cbn [of_info].
    destruct (is_true (ifNotExists d)), (is_number (ttl d)); eval_marks; cbn [length]; lia.
Qed.

Lemma delete_script_text info table keys doc d : where_keys info table keys <> [] ->
  delete_script (primaryKeys table) (filter_columns table (DocInfoAdapter.getPropertiesInfo keys None doc info))
    (when_properties info (Some d))
  = opening (js "getParametersDelete") ++
    join (js ", ") (render <$> (mjoin (getters Doc <$> DocInfoAdapter.getPropertiesInfo (where_keys info table keys) None doc info) ++
      mjoin (getters When <$> when_properties info (Some d)))) ++ closing.
Proof.
  intros Hne. unfold delete_script. rewrite filter_where, when_script_text. change doc_ with (render_object Doc).
  rewrite getters_text. f_equal. rewrite fmap_app, join_sep_opt; [destruct (render <$> mjoin (getters When <$> _)); by rewrite <- !app_assoc|].
  intros E%fmap_nil_inv. revert E. apply getters_ne. intros E%fmap_nil_inv. done.
Qed.

(** The parameters of a DELETE: a query made for a document and run with a document of
    the same shape has one placeholder for each parameter; they are the values of the key
    and the operands of the conditions, in the order of the text. *)
Theorem delete_parameters info table keys doc doc' d d' ifExists bs ws :
  let wheres := where_keys info table keys in
  Forall plain keys -> fields d = [] -> wheres <> [] ->
  same_shape wheres doc doc' -> Forall (fun k => plain_value (prop doc' k)) wheres ->
  conditions_of info doc' wheres = Ok bs -> when_bounds info d d' ws ->
  unmarked_names info table keys doc -> Forall unmarked_bound ws -> (is_true ifExists = true -> ws = []) ->
  let params := (b_operand <$> bs) ++ (b_operand <$> ws) in
  exists qi, getDelete table (keyspace info) (DocInfoAdapter.getPropertiesInfo keys (Some d) doc info) (Some d)
      (when_properties info (Some d)) ifExists = Ok qi /\
    run (paramsGetter qi) (Some doc') (Some d') info = Ok params /\ marks (query qi) = length params.
Proof.
  intros wheres Hk Hf Hwhere Hs Hp Hbs Hws (Ht & Hks & Hn & _) Hwu Hi params.
  destruct (when_facts _ _ _ _ (Some doc') Hws) as (Wwf & Wrun & Wtext & Wlen & Wnil).
  destruct (equals_text info doc doc' wheres bs Hp Hbs) as [_ Elen].
  assert (Hprops : DocInfoAdapter.getPropertiesInfo keys (Some d) doc info = DocInfoAdapter.getPropertiesInfo keys None doc info)
    by (unfold DocInfoAdapter.getPropertiesInfo; by rewrite Hf).
  rewrite Hprops. eexists. split.
  { unfold getDelete, _deleteParamsGetter. rewrite delete_script_text by done. rewrite new_Script_render; [by rewrite ok_bind|].
    apply Forall_app. split; [apply getters_wf; by apply Forall_select|done]. }
  cbn [paramsGetter query]. split.
  - unfold run. rewrite fmap_app, traverse_app. fold wheres.
    rewrite (run_conditions info (Some doc') (Some d') doc doc' Doc wheres bs), ok_bind by done. by rewrite Wrun.
  - unfold _getDeleteQuery. rewrite filter_set, filter_where. fold wheres.
    assert (Hcol : marks (join (js ", ") ((fun p => column (pi_columnName p)) <$>
        DocInfoAdapter.getPropertiesInfo (set_keys info table keys) None doc info)) = 0%nat).
    { apply marks_columns. apply Forall_fmap. apply (Forall_select (fun k => unmarked (getColumnName info k))). done. }
    rewrite !marks_app, Ht, Hks, (condition_bounds _ ws), (marks_condition ws), (marks_equals info doc wheres) by (done || by apply Forall_select).
    destruct (truthy _ && _); [rewrite marks_app, Hcol|]; subst params; rewrite length_app, !length_fmap, Elen;
      eval_marks; lia.
Qed.

(** *** Samples *)

Definition num (z : Z) : mval := Val (JNumber (num_of_Z z)).

(** A table with a clustering key, and a model that maps one property. *)
Definition sample_table : tableMetadata :=
  mkTableMetadata (js "videos") [js "id"] [js "added_on"] [false; false; false; false; true]
    [(js "id", dataTypes.int); (js "added_on", dataTypes.int); (js "name", dataTypes.text); (js "tags", dataTypes.list);
     (js "owner", dataTypes.text)].

Definition sample_fn : mapping_fn := fun v => match v with Val x => Ok (JTuple [x]) | _ => Ok JNull end.

Definition sample_info : ModelMappingInfo :=
  new_ModelMappingInfo (js "ks") [mkTable (js "videos") false] DefaultTableMappings
    [(js "added_on", mkColumn (js "added_on") (js "addedOn") None (Some sample_fn))].

Definition range (a b : Z) : document :=
  [(js "id", num a); (js "addedOn", q.and (q.gte (num a)) (q.lt (num b)))].

Definition edit (a b : Z) : document :=
  [(js "id", num a); (js "addedOn", num b); (js "name", num 7); (js "tags", q.prepend (num b))].

Definition with_ttl (z : Z) : docInfo :=
  mkDocInfo [] JUndefined None (JNumber (num_of_Z z)) JUndefined JUndefined None JUndefined.
Definition with_when (z : Z) : docInfo :=
  mkDocInfo [] JUndefined None JUndefined JUndefined JUndefined (Some [(js "name", q.notEq (num z))]) JUndefined.
Definition with_limit (z : Z) : docInfo :=
  mkDocInfo [] (JNumber (num_of_Z z)) None JUndefined JUndefined JUndefined None JUndefined.

(** Discharges the decidable hypotheses of a sample. *)
Ltac sample :=
  repeat match goal with
  | H : prop _ _ = QueryAssignment _ _ _ |- _ => discriminate H
  | |- Forall _ [] => apply Forall_nil_2
  | |- Forall _ (_ :: _) => apply Forall_cons_2
  | |- Forall ?P ?l => let l' := eval vm_compute in l in change (Forall P l')
  | |- _ = _ => vm_compute; reflexivity
  | |- _ <> _ => vm_compute; discriminate
  | |- _ /\ _ => split
  | |- same_shape _ _ _ => unfold same_shape
  | |- unmarked_names _ _ _ _ => unfold unmarked_names
  | |- unmarked_bound _ => split
  | |- when_bounds _ _ _ _ => unfold when_bounds; cbn [when_ with_when]
  | |- plain _ => unfold plain
  | |- unmarked _ => unfold unmarked
  | |- plain_value _ => unfold plain_value
  | |- forall _, _ => intro
  end.


Definition edit_keys : list jsstr := [js "id"; js "addedOn"; js "name"; js "tags"].

(** What the properties of [edit a b] are bound to. *)
Definition edit_bounds (a b : Z) : list bound :=
  [mkBound (js "id") (js "=") (num a); mkBound (js "added_on") (js "=") (Val (JTuple [JNumber (num_of_Z b)]))].

Lemma update_parameters_witness :
  exists qi, getUpdate sample_table (js "ks") (DocInfoAdapter.getPropertiesInfo edit_keys (Some (with_when 0)) (edit 1 2) sample_info)
      (Some (with_when 0)) (when_properties sample_info (Some (with_when 0))) JUndefined = Ok qi /\
    query qi = js "UPDATE ks.videos SET " ++ column (js "name") ++ js " = ?, " ++ column (js "tags") ++ js " = ? + " ++
      column (js "tags") ++ js " WHERE " ++ column (js "id") ++ js " = ? AND " ++ column (js "added_on") ++ js " = ? IF " ++
      column (js "name") ++ js " != ?" /\
    run (paramsGetter qi) (Some (edit 3 4)) (Some (with_when 8)) sample_info
    = Ok [num 7; num 4; num 3; Val (JTuple [JNumber (num_of_Z 4)]); num 8].
Proof.
  destruct (update_parameters sample_info sample_table edit_keys (edit 1 2) (edit 3 4) (with_when 0) (with_when 8) JUndefined
    [mkAssign (js "name") None (num 7); mkAssign (js "tags") (Some (js "+", true)) (num 4)]
    (edit_bounds 3 4) [mkBound (js "name") (js "!=") (num 8)]) as (qi & H1 & Hq & H2 & _).
  all: lazymatch goal with |- ex _ => idtac | _ => try (solve [sample]) end.
  - sample. exists [(js "name", q.notEq (num 8))]. sample.
  - unfold unmarked_names, edit_keys. split_and!; [reflexivity|reflexivity|sample|].
    repeat apply Forall_cons_2; [| | | |apply Forall_nil_2]; intros s v i E; try discriminate E.
    injection E as <- _ _. reflexivity.
  - intros E. discriminate E.
  - exists qi. split; [exact H1|]. split; [|exact H2]. rewrite Hq. reflexivity.
Defined.

Lemma insert_parameters_witness :
  exists qi, getInsert sample_table (js "ks") (DocInfoAdapter.getPropertiesInfo [js "id"; js "addedOn"; js "other"] (Some (with_ttl 1)) (edit 1 2) sample_info)
      (Some (with_ttl 1)) JUndefined = Ok qi /\
    query qi = js "INSERT INTO ks.videos (" ++ column (js "id") ++ js ", " ++ column (js "added_on") ++
      js ") VALUES (?, ?) USING TTL ?" /\
    run (paramsGetter qi) (Some (edit 3 4)) (Some (with_ttl 9)) sample_info
    = Ok [num 3; Val (JTuple [JNumber (num_of_Z 4)]); num 9].
Proof.
  destruct (insert_parameters sample_info sample_table [js "id"; js "addedOn"; js "other"] (edit 1 2) (edit 3 4) (with_ttl 1) (with_ttl 9)
    (edit_bounds 3 4)) as (qi & H1 & Hq & H2 & _).
  all: lazymatch goal with |- ex _ => idtac | _ => try (solve [sample]) end.
  exists qi. split; [exact H1|]. split; [|exact H2]. rewrite Hq. reflexivity.
Defined.

Lemma delete_parameters_witness :
  exists qi, getDelete sample_table (js "ks") (DocInfoAdapter.getPropertiesInfo [js "id"; js "addedOn"] (Some (with_when 0)) (edit 1 2) sample_info)
      (Some (with_when 0)) (when_properties sample_info (Some (with_when 0))) JUndefined = Ok qi /\
    query qi = js "DELETE FROM ks.videos WHERE " ++ column (js "id") ++ js " = ? AND " ++ column (js "added_on") ++ js " = ? IF " ++
      column (js "name") ++ js " != ?" /\
    run (paramsGetter qi) (Some (edit 3 4)) (Some (with_when 8)) sample_info
    = Ok [num 3; Val (JTuple [JNumber (num_of_Z 4)]); num 8].
Proof.
  destruct (delete_parameters sample_info sample_table [js "id"; js "addedOn"] (edit 1 2) (edit 3 4) (with_when 0) (with_when 8) JUndefined
    (edit_bounds 3 4) [mkBound (js "name") (js "!=") (num 8)]) as (qi & H1 & H2 & _).
  all: lazymatch goal with |- ex _ => idtac | _ => try (solve [sample]) end.
  - sample. exists [(js "name", q.notEq (num 8))]. sample.
  - intros E. discriminate E.
  - exists qi. split; [exact H1|]. split; [|exact H2]. revert H1. vm_compute. intros [= <-]. reflexivity.
Defined.

(** *** What the generator does not guard against *)

(** A table with a static column is selected for an update that sets nothing; the query
    then has an empty SET clause, and one parameter more than placeholders. *)
Lemma update_without_columns :
  let props := DocInfoAdapter.getPropertiesInfo [js "id"; js "addedOn"] None (edit 1 2) sample_info in
  ObjectSelector.getForUpdate [Some sample_table] props [] = Ok [sample_table] /\
  exists qi, getUpdate sample_table (js "ks") props None [] JUndefined = Ok qi /\
    query qi = js "UPDATE ks.videos SET  WHERE " ++ column (js "id") ++ js " = ? AND " ++ column (js "added_on") ++ js " = ?" /\
    run (paramsGetter qi) (Some (edit 1 2)) None sample_info
    = Ok [undefined; num 1; Val (JTuple [JNumber (num_of_Z 2)])].
Proof.
  split; [vm_compute; reflexivity|]. eexists. split; [vm_compute; reflexivity|]. split; vm_compute; reflexivity.
Qed.

(** An operator on a column of the key is written as an equality, with a placeholder for one
    of its operands only. *)
Lemma update_key_operator :
  let doc := [(js "id", num 1); (js "addedOn", q.and (q.gte (num 2)) (q.lt (num 3))); (js "name", num 7)] in
  let props := DocInfoAdapter.getPropertiesInfo [js "id"; js "addedOn"; js "name"] None doc sample_info in
  ObjectSelector.getForUpdate [Some sample_table] props [] = Ok [sample_table] /\
  exists qi, getUpdate sample_table (js "ks") props None [] JUndefined = Ok qi /\
    query qi = js "UPDATE ks.videos SET " ++ column (js "name") ++ js " = ? WHERE " ++ column (js "id") ++ js " = ? AND " ++
      column (js "added_on") ++ js " = ?" /\
    run (paramsGetter qi) (Some doc) None sample_info
    = Ok [num 7; num 1; Val (JTuple [JNumber (num_of_Z 2)]); Val (JTuple [JNumber (num_of_Z 3)])].
Proof.
  split; [vm_compute; reflexivity|]. eexists. split; [vm_compute; reflexivity|]. split; vm_compute; reflexivity.
Qed.

(** The name of a property is written into the script as it is. *)
Lemma apostrophe_in_property :
  selectParamsGetter (DocInfoAdapter.getPropertiesInfo [js "driver's"] None [(js "driver's", num 1)] sample_info) JUndefined
  = Err (SyntaxError "Invalid or unexpected token").
Proof. vm_compute. reflexivity. Qed.

End Placeholders.

(** ** Selection of tables *)

Module Selection.
Import ObjectSelector.

Definition cols (props : list propertyInfo) : list jsstr := pi_columnName <$> props.

Lemma count_if_length {A} (f : A -> bool) l : count_if f l = length (List.filter f l).
Proof.
  unfold count_if. enough (E : forall n, fold_left (fun acc x => (acc + if f x then 1 else 0)%nat) l n = (n + length (List.filter f l))%nat)
    by apply E.
  induction l as [|x l IH]; intros n; cbn; [lia|]. rewrite IH. destruct (f x); cbn; lia.
Qed.

Lemma all_of_forallb {A} (f : A -> bool) l : all_of f l = forallb f l.
Proof.
  unfold all_of. enough (E : forall b, fold_left (fun acc x => acc && f x) l b = b && forallb f l) by apply E.
  induction l as [|x l IH]; intros b; cbn; [by rewrite andb_true_r|]. by rewrite IH, andb_assoc.
Qed.

Lemma contains_iff keys name : contains keys name = true <-> name ∈ keys.
Proof.
  unfold contains. rewrite Nat.ltb_lt. induction keys as [|k keys IH]; cbn.
  - split; [lia|]. by intros ?%not_elem_of_nil.
  - rewrite elem_of_cons. case_bool_decide as Hk; cbn; [subst; split; [by left|lia]|]. rewrite IH.
    split; [by right|]. by intros [-> |?].
Qed.

Lemma filter_map_length (f : jsstr -> bool) props :
  length (List.filter (fun p => f (pi_columnName p)) props) = length (List.filter f (cols props)).
Proof. induction props as [|p props IH]; [done|]. cbn. destruct (f (pi_columnName p)); cbn; by rewrite IH. Qed.

(** The keys are all found exactly when every one is the column of a property. *)
Lemma keysAreIncluded_all keys props : NoDup keys -> NoDup (cols props) ->
  keysAreIncluded keys props = all <-> (forall k, k ∈ keys -> k ∈ cols props).
Proof.
  intros Hk Hc. destruct keys as [|k0 keys]; [split; [by intros _ k ?%not_elem_of_nil|done]|].
  set (ks := k0 :: keys) in *. change (keysAreIncluded ks props) with
    (let matches := count_if (fun p => contains ks (pi_columnName p)) props in
      if (matches =? 0)%nat then none else if (matches =? length ks)%nat then all else some).
  cbn zeta. rewrite count_if_length, (filter_map_length (contains ks)). set (found := List.filter (contains ks) (cols props)).
  assert (Hin : forall x, In x found <-> x ∈ ks /\ x ∈ cols props).
  { intros x. unfold found. rewrite List.filter_In, contains_iff, <- list_elem_of_In. tauto. }
  assert (Hnd : List.NoDup found) by (apply List.NoDup_filter; by apply NoDup_ListNoDup).
  assert (Hincl : incl found ks) by (intros x [? _]%Hin; by apply list_elem_of_In).
  pose proof (NoDup_incl_length Hnd Hincl) as Hle.
  assert (Hall : length found = length ks <-> (forall k, k ∈ ks -> k ∈ cols props)).
  { split.
    - intros E k Hks. apply Hin. assert (H : incl ks found) by (apply NoDup_length_incl; [done|lia|done]). apply H. by apply list_elem_of_In.
    - intros Hks. apply Nat.le_antisymm; [done|]. apply NoDup_incl_length; [by apply NoDup_ListNoDup|].
      intros x Hx%list_elem_of_In. apply Hin. split; [done|by apply Hks]. }
  rewrite <- Hall. destruct (Nat.eqb_spec (length found) 0) as [E|E]; [split; [done|]; cbn; lia|].
  destruct (Nat.eqb_spec (length found) (length ks)); done.
Qed.

Lemma order_matches_prefix ck order acc :
  order_matches ck order acc = true <-> acc = true /\ (fst <$> order) `prefix_of` ck.
Proof.
  revert ck acc. induction order as [|o order IH]; intros ck acc; cbn [order_matches].
  - split; [intros ->; split; [done|apply prefix_nil]|by intros [? _]].
  - rewrite IH, fmap_cons, andb_true_iff. destruct ck as [|c ck]; cbn [tail].
    + split; [by intros [[_ ?] _]|]. by intros [_ ?%prefix_nil_not].
    + rewrite bool_decide_eq_true. split.
      * intros [[-> ->] Hp]. split; [done|]. by apply prefix_cons.
      * intros [-> Hp]. split; [split; [done|]; symmetry; by eapply prefix_cons_inv_1|by eapply prefix_cons_inv_2].
Qed.

(** A table serves a select: its partition key is given, its clustering key too when all
    of the key has to be, nothing but its key is restricted, it has the fields, and the
    order is that of its first clustering columns. *)
Record serves (allPKsDefined : bool) (props fieldsInfo : list propertyInfo) (order : list (jsstr * jsstr))
    (t : tableMetadata) : Prop := {
  sv_partition : forall k, k ∈ partitionKeys t -> k ∈ cols props;
  sv_clustering : allPKsDefined = true -> forall k, k ∈ clusteringKeys t -> k ∈ cols props;
  sv_key : forall c, c ∈ cols props -> c ∈ partitionKeys t ++ clusteringKeys t;
  sv_fields : forall c, c ∈ cols fieldsInfo -> has_column t c = true;
  sv_order : (fst <$> order) `prefix_of` clusteringKeys t }.

Definition wf_keys (t : tableMetadata) : Prop := NoDup (partitionKeys t) /\ NoDup (clusteringKeys t).

Lemma all_of_cols (f : jsstr -> bool) props :
  all_of (fun p => f (pi_columnName p)) props = true <-> (forall c, c ∈ cols props -> f c = true).
Proof.
  rewrite all_of_forallb, forallb_forall. split.
  - intros H c (p & -> & Hp)%list_elem_of_fmap. apply H. by apply list_elem_of_In.
  - intros H p Hp%list_elem_of_In. apply H. by apply list_elem_of_fmap_2.
Qed.

(** Where the partition key is given, the number of properties tells whether there are
    others. *)
Lemma only_keys t props : NoDup (partitionKeys t) -> NoDup (cols props) ->
  (forall k, k ∈ partitionKeys t -> k ∈ cols props) ->
  (if (length (partitionKeys t) <? length props)%nat then
     all_of (fun p => contains (partitionKeys t) (pi_columnName p) || contains (clusteringKeys t) (pi_columnName p)) props
   else true) = true <-> (forall c, c ∈ cols props -> c ∈ partitionKeys t ++ clusteringKeys t).
Proof.
  intros Hp Hc Hsub. destruct (Nat.ltb_spec (length (partitionKeys t)) (length props)) as [Hl|Hl].
  - rewrite (all_of_cols (fun c => contains (partitionKeys t) c || contains (clusteringKeys t) c)).
    split; intros H c Hin; specialize (H c Hin); rewrite ?orb_true_iff, ?elem_of_app, ?contains_iff in *; done.
  - split; [|done]. intros _ c Hin. apply elem_of_app. left. apply list_elem_of_In.
    assert (Hincl : incl (partitionKeys t) (cols props)) by (intros x Hx%list_elem_of_In; apply list_elem_of_In; by apply Hsub).
    assert (H : incl (cols props) (partitionKeys t))
      by (apply NoDup_length_incl; [by apply NoDup_ListNoDup|unfold cols; by rewrite length_fmap|done]).
    apply H. by apply list_elem_of_In.
Qed.

Lemma select_matches_serves allPKs props fieldsInfo order t : wf_keys t -> NoDup (cols props) ->
  select_matches allPKs props fieldsInfo order t = true <-> serves allPKs props fieldsInfo order t.
Proof.
  intros [Hp Hck] Hc. unfold select_matches. rewrite !andb_true_iff, bool_decide_eq_true, keysAreIncluded_all by done.
  rewrite (all_of_cols (has_column t)), order_matches_prefix.
  assert (Ha : (if allPKs then bool_decide (keysAreIncluded (clusteringKeys t) props = all) else true) = true <->
    (allPKs = true -> forall k, k ∈ clusteringKeys t -> k ∈ cols props)).
  { destruct allPKs; [|done]. rewrite bool_decide_eq_true, keysAreIncluded_all by done. split; [done|]. by intros H; apply H. }
  rewrite Ha. split.
  - intros ((((H1 & H2) & H3) & H4) & [_ H5]). split; try done. by apply only_keys.
  - intros [H1 H2 H3 H4 H5]. split_and!; try done. by apply only_keys.
Qed.

(** The table of a SELECT is the first of the model that serves it; no table after one
    that could not be retrieved is considered. *)
Theorem select_first allPKs props fieldsInfo order tables nm :
  NoDup (cols props) -> Forall (fun t => forall m, t = Some m -> wf_keys m) tables ->
  getForSelect tables allPKs props fieldsInfo order = Ok nm <->
  exists before t after, tables = (Some <$> before) ++ Some t :: after /\ tm_name t = nm /\
    serves allPKs props fieldsInfo order t /\ Forall (fun b => ~ serves allPKs props fieldsInfo order b) before.
Proof.
  intros Hc Hw. unfold getForSelect. induction Hw as [|t tables Ht _ IH]; cbn [select_loop].
  - split; [done|]. intros ([|? ?] & x & after & E & _); discriminate E.
  - destruct t as [m|]; [|split; [done|]; intros ([|? ?] & x & after & E & _); discriminate E].
    pose proof (select_matches_serves allPKs props fieldsInfo order m (Ht m eq_refl) Hc) as Hs.
    destruct (select_matches _ _ _ _ m) eqn:E.
    + split.
      * intros [= <-]. exists [], m, tables. split_and!; [done|done|by apply Hs|constructor].
      * intros ([|b before] & t' & after & Et & <- & _ & Hb); cbn in Et; injection Et as -> _; [done|].
        apply Forall_cons_1 in Hb as [Hb _]. destruct Hb. by apply Hs.
    + rewrite IH. split.
      * intros (before & t' & after & -> & Hn & Hsv & Hb). exists (m :: before), t', after. split_and!; [done..|].
        constructor; [|done]. intros Ht'%Hs. done.
      * intros ([|b before] & t' & after & Et & Hn & Hsv & Hb); cbn in Et; injection Et as -> Et.
        { by apply Hs in Hsv. }
        exists before, t', after. apply Forall_cons_1 in Hb as [_ Hb]. done.
Qed.

Lemma select_first_witness :
  let view := mkTableMetadata (js "videos_by_name") [js "name"] [js "id"] [] [(js "name", dataTypes.text); (js "id", dataTypes.int)] in
  let props := DocInfoAdapter.getPropertiesInfo [js "name"] None (Placeholders.edit 1 2) Placeholders.sample_info in
  getForSelect [Some Placeholders.sample_table; Some view] false props [] [(js "id", js "DESC")] = Ok (js "videos_by_name") /\
  exists before t after, [Some Placeholders.sample_table; Some view] = (Some <$> before) ++ Some t :: after /\
    tm_name t = js "videos_by_name" /\ serves false props [] [(js "id", js "DESC")] t /\
    Forall (fun b => ~ serves false props [] [(js "id", js "DESC")] b) before.
Proof.
  cbn zeta. set (view := mkTableMetadata _ _ _ _ _).
  assert (E : getForSelect [Some Placeholders.sample_table; Some view] false
    (DocInfoAdapter.getPropertiesInfo [js "name"] None (Placeholders.edit 1 2) Placeholders.sample_info) [] [(js "id", js "DESC")]
    = Ok (js "videos_by_name")) by (vm_compute; reflexivity).
  split; [exact E|]. apply (select_first false _ [] _ _ (js "videos_by_name")); [| |exact E].
  - exact (bool_decide_eq_true_1 (NoDup [js "name"]) eq_refl).
  - repeat apply Forall_cons_2; [| |apply Forall_nil_2]; intros m [= <-]; split; apply NoDup_singleton.
Defined.

(** What the tables of an UPDATE have. *)
Record settable (props when_ : list propertyInfo) (t : tableMetadata) : Prop := {
  st_partition : forall k, k ∈ partitionKeys t -> k ∈ cols props;
  st_clustering : hasStaticColumn t = false -> forall k, k ∈ clusteringKeys t -> k ∈ cols props;
  st_set : hasStaticColumn t = false ->
    exists c, c ∈ cols props /\ has_column t c = true /\ c ∉ partitionKeys t ++ clusteringKeys t;
  st_when : forall c, c ∈ cols when_ -> has_column t c = true }.

Lemma filter_tables_ok (matches : tableMetadata -> bool) tables l : filter_tables matches tables = Ok l ->
  l <> [] /\ l = List.filter matches (mjoin (option_list <$> tables)) /\ Forall (fun t => t <> None) tables.
Proof.
  unfold filter_tables. intros (found & Hf & Hl)%bind_ok. apply traverse_ok in Hf.
  assert (E : mjoin found = List.filter matches (mjoin (option_list <$> tables)) /\ Forall (fun t => t <> None) tables).
  { clear Hl. induction Hf as [|t x tables found Ht _ [IH1 IH2]]; [by split; [|constructor]|].
    destruct t as [t|]; [|done]. injection Ht as <-. split; [|by constructor].
    rewrite fmap_cons. change (mjoin (option_list (Some t) :: ?m)) with (t :: mjoin m). cbn [List.filter]. rewrite <- IH1.
    by destruct (matches t). }
  destruct E as [E1 E2]. rewrite <- E1. destruct (mjoin found); [done|]. by injection Hl as <-.
Qed.

(** The tables of an UPDATE: at least one is selected, and each has its partition key
    given and the columns of the conditions; one without static columns has its whole key
    given and at least one column to set. *)
Theorem update_tables tables props when_ l :
  NoDup (cols props) -> Forall (fun t => forall m, t = Some m -> wf_keys m) tables ->
  getForUpdate tables props when_ = Ok l ->
  l <> [] /\ (forall t, t ∈ l -> Some t ∈ tables) /\ Forall (settable props when_) l.
Proof.
  intros Hc Hw (Hne & -> & _)%filter_tables_ok. split; [done|].
  assert (Hin : forall t, t ∈ List.filter (update_matches props when_) (mjoin (option_list <$> tables)) ->
    Some t ∈ tables /\ update_matches props when_ t = true).
  { intros t [Ht Hm]%list_elem_of_In%List.filter_In. split; [|done].
    apply list_elem_of_In, list_elem_of_join in Ht as (x & Hx & (o & -> & Ho)%list_elem_of_fmap).
    destruct o as [o|]; cbn in Hx; [|by apply not_elem_of_nil in Hx]. by apply list_elem_of_singleton in Hx as ->. }
  split; [by intros t [? _]%Hin|]. apply Forall_forall. intros t [Ht Hm]%list_elem_of_In%Hin.
  rewrite Forall_forall in Hw. destruct (Hw (Some t) (proj1 (list_elem_of_In _ _) Ht) t eq_refl) as [Hp Hck].
  unfold update_matches in Hm. destruct (negb _) eqn:E1; [done|].
  apply negb_false_iff, bool_decide_eq_true in E1. rewrite keysAreIncluded_all in E1 by done.
  destruct (bool_decide (keysAreIncluded (clusteringKeys t) props = some)) eqn:E2; [done|]. apply bool_decide_eq_false in E2.
  destruct (_ && negb (hasStaticColumn t)) eqn:E3; [done|]. destruct (_ && (negb (hasStaticColumn t) || _)) eqn:E4; [done|].
  split; [done| | |].
  - intros Hst. rewrite Hst, andb_true_r in E3. apply bool_decide_eq_false in E3. apply keysAreIncluded_all; [done|done|].
    by destruct (keysAreIncluded (clusteringKeys t) props).
  - intros Hst. rewrite Hst in E4. cbn [negb orb] in E4. rewrite andb_true_r in E4. apply Nat.leb_gt in E4.
    rewrite count_if_length, (filter_map_length (has_column t)) in E4.
    destruct (decide (Exists (fun c => c ∉ partitionKeys t ++ clusteringKeys t) (List.filter (has_column t) (cols props)))) as [Hx|Hx].
    + apply Exists_exists in Hx as (c & [Hcin Hhas]%List.filter_In & Hn). exists c.
      split_and!; [by apply list_elem_of_In|done|done].
    + apply not_Exists_Forall in Hx; [|apply _].
      assert (Hincl : incl (List.filter (has_column t) (cols props)) (partitionKeys t ++ clusteringKeys t)).
      { intros c Hcin. rewrite Forall_forall in Hx. specialize (Hx c Hcin). apply list_elem_of_In. by apply dec_stable in Hx. }
      apply NoDup_incl_length in Hincl; [rewrite length_app in Hincl; lia|]. apply List.NoDup_filter. by apply NoDup_ListNoDup.
  - by apply (all_of_cols (has_column t)).
Qed.

Lemma update_tables_witness :
  let table := mkTableMetadata (js "videos") [js "id"] [js "added_on"] [false; false; false]
    [(js "id", dataTypes.int); (js "added_on", dataTypes.int); (js "name", dataTypes.text)] in
  let props := DocInfoAdapter.getPropertiesInfo [js "id"; js "addedOn"; js "name"] None (Placeholders.edit 1 2) Placeholders.sample_info in
  getForUpdate [Some table] props [] = Ok [table] /\ Forall (settable props []) [table].
Proof.
  cbn zeta. set (table := mkTableMetadata _ _ _ _ _).
  assert (E : getForUpdate [Some table] (DocInfoAdapter.getPropertiesInfo [js "id"; js "addedOn"; js "name"] None (Placeholders.edit 1 2)
    Placeholders.sample_info) [] = Ok [table]) by (vm_compute; reflexivity).
  split; [exact E|]. refine (proj2 (proj2 (update_tables _ _ [] _ _ _ E))).
  - exact (bool_decide_eq_true_1 (NoDup [js "id"; js "added_on"; js "name"]) eq_refl).
  - apply Forall_cons_2; [|apply Forall_nil_2]. intros m [= <-]. split; apply NoDup_singleton.
Defined.

End Selection.
