(* ===== verification/MappingHandler.v ===== *)
(** * Mapper: handler, batches and results

    lib/mapping: the handler of a model with its caches (mapping-handler.js), the items of
    a batch (model-batch-item.js, model-batch-mapper.js), the mapper and the model mappers
    (mapper.js, model-mapper.js), the adapters of rows (result-mapper.js) and the results
    (result.js).

    The client is a record of operations on a world of its own.  The metadata of a table
    is that of one schema: the handler reads it once for a document shape and keeps the
    queries.  A cached item is an object that the trees refer to by its position, since it
    is filled after it was created.

    The theorems: the caches of an INSERT and of a SELECT do not show, since two documents
    with the same key have the same queries; a row is mapped column by column. *)

From stdpp Require Import list.
From S2P Require Import Prelude JsNumber Buffer JsString Utf8 CqlTypes JsValue Encoder Results LongArith Timestamps Collections.
From S2P Require Import ExecutionOptions Client Tree Mapping QueryGen QueryGenProofs.

(** ** Adapters of rows (result-mapper.js) *)

(** What the mapper reads of a result. *)
Record resultSet : Type := mkResultSet {
  rs_columns : option (list (jsstr * Z));
  rs_set : ResultSet.t }.

(** One assignment of a generated adapter: the property, the column, and whether the
    function of the user is called. *)
Record assignment : Type := mkAssignment { as_property : jsstr; as_column : jsstr; as_call : bool }.

Inductive rowAdapter : Type :=
| Noop
| ConditionalRowAdapter (columns : list jsstr)       (** without the first one *)
| SelectAdapter (assignments : list assignment).

Module ResultMapper.

Definition applied : jsstr := js "[applied]".

(** The text of one assignment. *)
Definition assignment_text (info : ModelMappingInfo) (c : jsstr) : jsstr :=
  js "  item['" ++ getPropertyName info c ++ js "'] = " ++
  match getToModelFn info c with
  | None => js "row['" ++ c ++ js "'];" ++ [10]
  | Some _ => js "info.getToModelFn('" ++ c ++ js "')(row['" ++ c ++ js "']);" ++ [10]
  end.

Definition adapter_opening : jsstr :=
  js "(function rowAdapter(row, info) {" ++ [10] ++ js "  const item = info.newInstance();" ++ [10].
Definition adapter_closing : jsstr := js "  return item;" ++ [10] ++ js "})".

Definition adapter_script (info : ModelMappingInfo) (columns : list jsstr) : jsstr :=
  adapter_opening ++ mjoin (assignment_text info <$> columns) ++ adapter_closing.

(** Reading an assignment back. *)
Definition read_assignment (s : jsstr) : option (assignment * jsstr) :=
  r ← strip_prefix (js "  item['") s;
  '(p, r) ← Script.quoted (js "'] = ") r;
  match strip_prefix (js "row['") r with
  | Some r => '(c, r) ← Script.quoted (js "'];" ++ [10]) r; Some (mkAssignment p c false, r)
  | None =>
      r ← strip_prefix (js "info.getToModelFn('") r;
      '(f, r) ← Script.quoted (js "')(row['") r;
      '(c, r) ← Script.quoted (js "']);" ++ [10]) r;
      if bool_decide (f = c) then Some (mkAssignment p c true, r) else None
  end.

Fixpoint read_assignments (fuel : nat) (s : jsstr) : option (list assignment) :=
  match fuel with
  | O => None
  | S fuel =>
      if bool_decide (s = adapter_closing) then Some []
      else '(a, r) ← read_assignment s; l ← read_assignments fuel r; Some (a :: l)
  end.

(** [new vm.Script(text)] *)
Definition new_Script (text : jsstr) : result rowAdapter :=
  match r ← strip_prefix adapter_opening text; read_assignments (S (length r)) r with
  | Some l => Ok (SelectAdapter l)
  | None => Err (SyntaxError "Invalid or unexpected token")
  end.

Definition getSelectAdapter (info : ModelMappingInfo) (rs : resultSet) : result rowAdapter :=
  match rs_columns rs with
  | None => Err (PlainError "Expected ROWS result obtained VOID")
  | Some columns => new_Script (adapter_script info (fst <$> columns))
  end.

Definition is_applied (c : jsstr * Z) : bool := bool_decide (fst c = applied) && (snd c =? dataTypes.boolean).

Definition getConditionalRowAdapter (columns : list (jsstr * Z)) : rowAdapter :=
  ConditionalRowAdapter (fst <$> tail columns).

Definition getMutationAdapter (rs : resultSet) : rowAdapter :=
  match rs_columns rs with
  | None => Noop
  | Some [c] => if is_applied c then Noop else getConditionalRowAdapter [c]
  | Some columns => getConditionalRowAdapter columns
  end.

(** The adapter and whether it can be cached. *)
Definition getCustomQueryAdapter (info : ModelMappingInfo) (rs : resultSet) : result (bool * rowAdapter) :=
  match rs_columns rs with
  | None | Some [] => Ok (true, Noop)
  | Some (c :: columns) =>
      if is_applied c then Ok (false, getConditionalRowAdapter (c :: columns))
      else adapter ← getSelectAdapter info rs; Ok (true, adapter)
  end.

(** One assignment of the generated function. *)
Definition run_assignment (info : ModelMappingInfo) (row : Row.t) (item : list (jsstr * jsval)) (a : assignment)
    : result (list (jsstr * jsval)) :=
  let cell := Row.get row (as_column a) in
  v ← (if as_call a then
         match getToModelFn info (as_column a) with
         | Some f => f (Val cell)
         | None => Err (TypeError "info.getToModelFn(...) is not a function")
         end
       else Ok cell);
  Ok (set_prop (as_property a) v item).

(** What an adapter makes of a row; none is undefined. *)
Definition run_adapter (info : ModelMappingInfo) (a : rowAdapter) (row : Row.t) : result (option (list (jsstr * jsval))) :=
  match a with
  | Noop => Ok None
  | ConditionalRowAdapter columns =>
      Ok (Some (fold_left (fun item c => set_prop (getPropertyName info c) (Row.get row c) item) columns (newInstance info)))
  | SelectAdapter l =>
      item ← fold_left (fun acc a => item ← acc; run_assignment info row item a) l (Ok (newInstance info));
      Ok (Some item)
  end.

End ResultMapper.

(** ** Results (result.js) *)

Module Result.

Record t : Type := mk {
  rs : resultSet;
  info : ModelMappingInfo;
  adapter : rowAdapter;
  isEmptyLwt : bool;
  length_ : nat;
  pageState : option jsstr }.

Definition constructor (rs : resultSet) (info : ModelMappingInfo) (adapter : rowAdapter) : t :=
  let isEmptyLwt :=
    match rs_columns rs with
    | Some [c] => (ResultSet.rowLength (rs_set rs) =? 1)%nat && bool_decide (fst c = ResultMapper.applied)
    | _ => false
    end in
  mk rs info adapter isEmptyLwt (if isEmptyLwt then 0%nat else ResultSet.rowLength (rs_set rs))
    (ResultSet.pageState (rs_set rs)).

Definition wasApplied (r : t) : bool := ResultSet.wasApplied (rs_set (rs r)).

(** A document; none is null or undefined. *)
Definition doc : Type := option (list (jsstr * jsval)).

Definition first (r : t) : result doc :=
  if (ResultSet.rowLength (rs_set (rs r)) =? 0)%nat || isEmptyLwt r then Ok None
  else match ResultSet.rows (rs_set (rs r)) with
       | Some (row :: _) => ResultMapper.run_adapter (info r) (adapter r) row
       | _ => Err (TypeError "Cannot read properties of undefined")
       end.

(** The values the iterator yields until it stops or throws. *)
Definition iterator (r : t) : result (list doc) :=
  if isEmptyLwt r then Ok []
  else match ResultSet.rows (rs_set (rs r)) with
       | Some rows => traverse (ResultMapper.run_adapter (info r) (adapter r)) rows
       | None => Err (TypeError "Cannot read properties of undefined (reading 'length')")
       end.

Definition toArray (r : t) : result (list doc) :=
  if isEmptyLwt r then Ok []
  else match ResultSet.rows (rs_set (rs r)) with
       | Some rows => traverse (ResultMapper.run_adapter (info r) (adapter r)) rows
       | None => Ok []
       end.

(** The arguments of the calls of the callback. *)
Definition forEach (r : t) : result (list (doc * nat)) :=
  docs ← iterator r; Ok (imap (fun i d => (d, i)) docs).

End Result.

(** ** The handler of a model (mapping-handler.js) *)

(** What the mapper uses of the client. *)
Record mapperClient (W : Type) : Type := mkMapperClient {
  mc_connect : M W unit;
  mc_execute : jsstr -> list mval -> queryOptions -> M W resultSet;
  mc_batch : list (jsstr * list mval) -> queryOptions -> M W resultSet;
  mc_log : string -> string -> W -> W }.
Arguments mc_connect {W}.
Arguments mc_execute {W}.
Arguments mc_batch {W}.
Arguments mc_log {W}.

(** The metadata of the tables and of the materialized views of a keyspace; none is null. *)
Class Schema : Type := {
  getTable : jsstr -> jsstr -> result (option tableMetadata);
  getMaterializedView : jsstr -> jsstr -> result (option tableMetadata)
}.

(** A tree of cached objects, and the objects: none is one that has not been filled. *)
Record cache (E : Type) : Type := mkCache { c_tree : tree (K := keyPart) (V := nat); c_items : list (option E) }.
Arguments mkCache {E}.
Arguments c_tree {E}.
Arguments c_items {E}.

Definition empty_cache {E} : cache E := mkCache empty_tree [].

(** [tree.getOrCreate(key, () => ({ executor: null }))]: the object, none for null, and the
    cache. *)
Definition cache_item {E} (c : cache E) (key : list keyPart) : option nat * cache E :=
  let new := length (c_items c) in
  let '(id, t) := getOrCreate (c_tree c) key new in
  (id, mkCache t (if bool_decide (id = Some new) then c_items c ++ [None] else c_items c)).

(** [cacheItem.executor = e] *)
Definition fill_item {E} (c : cache E) (id : nat) (e : E) : cache E := mkCache (c_tree c) (<[id := Some e]> (c_items c)).

Definition cacheHighWaterMark : Z := 100.

Section handler.
Context `{UpperCase} `{Schema} {W : Type}.
Variable client : mapperClient W.
Variable info : ModelMappingInfo.

(** The tables of the model that the metadata gives: for a select, and for a mutation. *)
Definition tables_and_views : result (list (option tableMetadata)) :=
  traverse (fun t => (if isView t then getMaterializedView else getTable) (keyspace info) (t_name t)) (tables info).

Definition tables_only : result (list (option tableMetadata)) :=
  traverse (fun t => getTable (keyspace info) (t_name t)) (List.filter (fun t => negb (isView t)) (tables info)).

(** *** Queries *)

Definition keys_of (doc : document) : list jsstr := fst <$> doc.

Definition truthy_option (f : docInfo -> jsval) (d : option docInfo) : bool := truthy (QueryGenerator.of_info f d).

Definition createInsertQueries (docKeys : list jsstr) (doc : document) (d : option docInfo)
    : result (list QueryGenerator.queryInfo) :=
  let propertiesInfo := DocInfoAdapter.getPropertiesInfo docKeys d doc info in
  let ifNotExists := QueryGenerator.of_info ifNotExists d in
  metadata ← tables_only;
  tables ← ObjectSelector.getForInsert metadata propertiesInfo;
  if (1 <? length tables)%nat && truthy ifNotExists then
    Err (PlainError "Batch with ifNotExists conditions cannot span multiple tables")
  else traverse (fun table => QueryGenerator.getInsert table (keyspace info) propertiesInfo d ifNotExists) tables.

(** Both kinds of conditions are given. *)
Definition conflict (d : option docInfo) : bool :=
  (0 <? length (Placeholders.when_properties info d))%nat && truthy (QueryGenerator.of_info ifExists d).

(** The checks and the queries of an UPDATE or DELETE, with the functions of each. *)
Definition create_conditional
    (select : list (option tableMetadata) -> list propertyInfo -> list propertyInfo -> result (list tableMetadata))
    (generate : tableMetadata -> list propertyInfo -> list propertyInfo -> jsval -> result QueryGenerator.queryInfo)
    (docKeys : list jsstr) (doc : document) (d : option docInfo) : result (list QueryGenerator.queryInfo) :=
  let propertiesInfo := DocInfoAdapter.getPropertiesInfo docKeys d doc info in
  let ifExists := QueryGenerator.of_info ifExists d in
  let when_ := Placeholders.when_properties info d in
  if conflict d then
    Err (PlainError "Both when and ifExists conditions can not be applied to the same statement")
  else
    metadata ← tables_only;
    tables ← select metadata propertiesInfo when_;
    if (1 <? length tables)%nat && ((0 <? length when_)%nat || truthy ifExists) then
      Err (PlainError "Batch with when or ifExists conditions cannot span multiple tables")
    else traverse (fun table => generate table propertiesInfo when_ ifExists) tables.

Definition createUpdateQueries (docKeys : list jsstr) (doc : document) (d : option docInfo)
    : result (list QueryGenerator.queryInfo) :=
  create_conditional ObjectSelector.getForUpdate
    (fun table props when_ ifExists => QueryGenerator.getUpdate table (keyspace info) props d when_ ifExists) docKeys doc d.

Definition createDeleteQueries (docKeys : list jsstr) (doc : document) (d : option docInfo)
    : result (list QueryGenerator.queryInfo) :=
  create_conditional ObjectSelector.getForDelete
    (fun table props when_ ifExists => QueryGenerator.getDelete table (keyspace info) props d when_ ifExists) docKeys doc d.

(** A select: the text, the parameters, and what it keeps of the table. *)
Record selectQuery : Type := mkSelect { sq_query : jsstr; sq_params : list (option Script.getter) }.

(** [orderByColumns] is what [adaptOrderBy] returned. *)
Definition create_select (doc : document) (d : option docInfo) (allPKsDefined : bool)
    (orderByColumns : list (jsstr * jsstr)) : result selectQuery :=
  let propertiesInfo := DocInfoAdapter.getPropertiesInfo (keys_of doc) None doc info in
  let fieldsInfo := DocInfoAdapter.getPropertiesInfo [] d doc info in
  let limit := QueryGenerator.of_info limit d in
  metadata ← tables_and_views;
  tableName ← ObjectSelector.getForSelect metadata allPKsDefined propertiesInfo fieldsInfo orderByColumns;
  params ← QueryGenerator.selectParamsGetter propertiesInfo limit;
  Ok (mkSelect (QueryGenerator.getSelect tableName (keyspace info) propertiesInfo fieldsInfo orderByColumns limit) params).

Definition create_selectAll (d : option docInfo) : result selectQuery :=
  let fieldsInfo := DocInfoAdapter.getPropertiesInfo [] d [] info in
  orderByColumns ← DocInfoAdapter.adaptOrderBy d info;
  let limit := QueryGenerator.of_info limit d in
  tableName ← ObjectSelector.getForSelectAll info;
  params ← QueryGenerator.selectParamsGetter [] limit;
  Ok (mkSelect (QueryGenerator.getSelect tableName (keyspace info) [] fieldsInfo orderByColumns limit) params).

(** *** Executors *)

(** [_setSingleExecutor] and [_setBatchExecutor] *)
Inductive executor : Type :=
| SingleExecutor (q : QueryGenerator.queryInfo)
| BatchExecutor (queries : list QueryGenerator.queryInfo) (isIdempotent : bool).

Definition make_executor (queries : list QueryGenerator.queryInfo) : executor :=
  match queries with
  | [q] => SingleExecutor q
  | _ => BatchExecutor queries (fold_left (fun acc q => acc && QueryGenerator.isIdempotent q) queries true)
  end.

(** The state of a handler.  The item of a select also keeps the adapter of its rows. *)
Record handler : Type := mkHandler {
  h_select : cache selectQuery;
  h_selectAll : cache selectQuery;
  h_insert : cache executor;
  h_update : cache executor;
  h_remove : cache executor;
  h_adapters : list (nat * rowAdapter);
  h_allAdapters : list (nat * rowAdapter);
  customQueries : list (jsstr * rowAdapter) }.

Definition new_handler : handler :=
  mkHandler empty_cache empty_cache empty_cache empty_cache empty_cache [] [] [].

Definition _validateCacheLength (length : Z) (w : W) : W :=
  if negb (length =? cacheHighWaterMark) then w
  else mc_log client "warning" "ModelMapper cache reached 100 items" w.

(** An object of a cache that is filled on its first use; the value of a later use. *)
Definition memo {E} (c : cache E) (key : list keyPart) (create : M W E) : W -> result (nat * E) * cache E * W := fun w =>
  let '(id, c') := cache_item c key in
  let w := if length_ (c_tree c') =? length_ (c_tree c) then w else _validateCacheLength (length_ (c_tree c')) w in
  match id with
  | None => (Err (TypeError "Cannot read properties of null (reading 'executor')"), c', w)
  | Some id =>
      match mjoin (c_items c' !! id) with
      | Some e => (Ok (id, e), c', w)
      | None =>
          match create w with
          | (Ok e, w) => (Ok (id, e), fill_item c' id e, w)
          | (Err x, w) => (Err x, c', w)
          end
      end
  end.

Definition no_keys {A} : result A := Err (PlainError "Expected object with keys").

(** [this._client.connect().then(...)] *)
Definition connected {A} (r : result A) : M W A := m_bind (mc_connect client) (fun _ => m_lift r).

(** The queries of an UPDATE or DELETE: the conditions are checked before the connection. *)
Definition conditional (d : option docInfo) (r : result (list QueryGenerator.queryInfo))
    : M W (list QueryGenerator.queryInfo) := if conflict d then m_lift r else connected r.

Definition executor_of (m : M W (list QueryGenerator.queryInfo)) : M W executor :=
  m_bind m (fun queries => m_lift (Ok (make_executor queries))).

(** Each of the following returns the executor with the object it is kept in. *)
Definition state (A : Type) : Type := handler -> W -> result A * handler * W.

Definition getSelectExecutor (doc : document) (d : option docInfo) (allPKsDefined : bool) : state (nat * selectQuery) :=
  fun h w =>
    match keys_of doc with
    | [] => (no_keys, h, w)
    | docKeys =>
        let '(r, c, w) := memo (h_select h) (Cache.getSelectKey docKeys doc d)
          (m_bind (m_lift (DocInfoAdapter.adaptOrderBy d info))
             (fun order => connected (create_select doc d allPKsDefined order))) w in
        (r, mkHandler c (h_selectAll h) (h_insert h) (h_update h) (h_remove h) (h_adapters h) (h_allAdapters h) (customQueries h), w)
    end.

Definition getSelectAllExecutor (d : option docInfo) : state (nat * selectQuery) := fun h w =>
  let '(r, c, w) := memo (h_selectAll h) (Cache.getSelectAllKey d) (m_lift (create_selectAll d)) w in
  (r, mkHandler (h_select h) c (h_insert h) (h_update h) (h_remove h) (h_adapters h) (h_allAdapters h) (customQueries h), w).

Definition getInsertExecutor (doc : document) (d : option docInfo) : state (nat * executor) := fun h w =>
  match keys_of doc with
  | [] => (no_keys, h, w)
  | docKeys =>
      let '(r, c, w) := memo (h_insert h) (Cache.getInsertKey docKeys d)
        (executor_of (connected (createInsertQueries docKeys doc d))) w in
      (r, mkHandler (h_select h) (h_selectAll h) c (h_update h) (h_remove h) (h_adapters h) (h_allAdapters h) (customQueries h), w)
  end.

Definition getUpdateExecutor (doc : document) (d : option docInfo) : state (nat * executor) := fun h w =>
  match keys_of doc with
  | [] => (no_keys, h, w)
  | docKeys =>
      let '(r, c, w) := memo (h_update h) (Cache.getUpdateKey docKeys doc d)
        (executor_of (conditional d (createUpdateQueries docKeys doc d))) w in
      (r, mkHandler (h_select h) (h_selectAll h) (h_insert h) c (h_remove h) (h_adapters h) (h_allAdapters h) (customQueries h), w)
  end.

Definition getDeleteExecutor (doc : document) (d : option docInfo) : state (nat * executor) := fun h w =>
  match keys_of doc with
  | [] => (no_keys, h, w)
  | docKeys =>
      let '(r, c, w) := memo (h_remove h) (Cache.getRemoveKey docKeys doc d)
        (executor_of (conditional d (createDeleteQueries docKeys doc d))) w in
      (r, mkHandler (h_select h) (h_selectAll h) (h_insert h) (h_update h) c (h_adapters h) (h_allAdapters h) (customQueries h), w)
  end.

(** *** Execution *)

(** The adapter kept in an object, or a new one that is then kept. *)
Definition row_adapter (adapters : list (nat * rowAdapter)) (id : nat) (rs : resultSet)
    : result (rowAdapter * list (nat * rowAdapter)) :=
  match List.find (fun e => (fst e =? id)%nat) adapters with
  | Some e => Ok (snd e, adapters)
  | None => adapter ← ResultMapper.getSelectAdapter info rs; Ok (adapter, (id, adapter) :: adapters)
  end.

(** [_executeSelect], with the adapters of the cache that the object belongs to. *)
Definition _executeSelect (adapters : list (nat * rowAdapter)) (e : nat * selectQuery) (doc : option document)
    (d : option docInfo) (options : executionOptions) : M W (Result.t * list (nat * rowAdapter)) :=
  let queryOptions := DocInfoAdapter.adaptAllOptions options true in
  m_bind (m_lift (Script.run (sq_params (snd e)) doc d info)) (fun params =>
  m_bind (mc_execute client (sq_query (snd e)) params queryOptions) (fun rs =>
  m_bind (m_lift (row_adapter adapters (fst e) rs)) (fun ra =>
  m_lift (Ok (Result.constructor rs info (fst ra), snd ra))))).

Definition set_adapters (h : handler) (l : list (nat * rowAdapter)) : handler :=
  mkHandler (h_select h) (h_selectAll h) (h_insert h) (h_update h) (h_remove h) l (h_allAdapters h) (customQueries h).
Definition set_allAdapters (h : handler) (l : list (nat * rowAdapter)) : handler :=
  mkHandler (h_select h) (h_selectAll h) (h_insert h) (h_update h) (h_remove h) (h_adapters h) l (customQueries h).

(** [selectExecutor] and [selectAllExecutor] *)
Definition run_select (e : nat * selectQuery) (doc : document) (d : option docInfo) (o : executionOptions) : state Result.t :=
  fun h w =>
    match _executeSelect (h_adapters h) e (Some doc) d o w with
    | (Ok (r, l), w) => (Ok r, set_adapters h l, w)
    | (Err x, w) => (Err x, h, w)
    end.

Definition run_selectAll (e : nat * selectQuery) (d : option docInfo) (o : executionOptions) : state Result.t := fun h w =>
  match _executeSelect (h_allAdapters h) e None d o w with
  | (Ok (r, l), w) => (Ok r, set_allAdapters h l, w)
  | (Err x, w) => (Err x, h, w)
  end.

(** [singleExecutor] and [batchExecutor] *)
Definition run_executor (e : executor) (doc : document) (d : option docInfo) (o : executionOptions) : M W Result.t :=
  let result rs := m_lift (Ok (Result.constructor rs info (ResultMapper.getMutationAdapter rs))) in
  match e with
  | SingleExecutor q =>
      m_bind (m_lift (Script.run (QueryGenerator.paramsGetter q) (Some doc) d info)) (fun params =>
      m_bind (mc_execute client (QueryGenerator.query q) params
                (DocInfoAdapter.adaptOptions o (JBool (QueryGenerator.isIdempotent q)))) result)
  | BatchExecutor queries isIdempotent =>
      m_bind (m_lift (traverse (fun q =>
        params ← Script.run (QueryGenerator.paramsGetter q) (Some doc) d info; Ok (QueryGenerator.query q, params)) queries))
        (fun queryAndParams =>
      m_bind (mc_batch client queryAndParams (DocInfoAdapter.adaptOptions o (JBool isIdempotent))) result)
  end.

(** [getExecutorFromQuery] and the function it returns; [common] is none when it is falsy. *)
Definition queryMappedExecutor (query : jsstr) (paramsHandler : document -> result (list mval))
    (common : option executionOptions) (doc : document) (options : executionOptions) : state Result.t := fun h w =>
  let options := DocInfoAdapter.adaptAllOptions (default options common) false in
  match m_bind (m_lift (paramsHandler doc)) (fun params => mc_execute client query params options) w with
  | (Err x, w) => (Err x, h, w)
  | (Ok rs, w) =>
      match lookup_prop query (customQueries h) with
      | Some adapter => (Ok (Result.constructor rs info adapter), h, w)
      | None =>
          match ResultMapper.getCustomQueryAdapter info rs with
          | Err x => (Err x, h, w)
          | Ok (canCache, adapter) =>
              let custom := if canCache then assoc_set query adapter (customQueries h) else customQueries h in
              let w := if canCache && (Z.of_nat (length custom) =? cacheHighWaterMark)
                       then mc_log client "warning" "Custom queries cache reached 100 items" w else w in
              (Ok (Result.constructor rs info adapter),
               mkHandler (h_select h) (h_selectAll h) (h_insert h) (h_update h) (h_remove h) (h_adapters h) (h_allAdapters h) custom, w)
          end
      end
  end.

(** ** ModelMapper (model-mapper.js) *)

(** The second argument: options of the document, or the execution options when these are
    not given and it is a string; the third argument. *)
Inductive docInfoArg : Type := InfoArg (d : option docInfo) | ProfileArg (profile : jsstr).

Definition arguments (a : docInfoArg) (o : option executionOptions) : option docInfo * executionOptions :=
  match a, o with
  | ProfileArg p, None => (None, EoName p)
  | ProfileArg _, Some o => (Some noInfo, o)
  | InfoArg d, _ => (d, default EoNone o)
  end.

Definition s_bind {A B} (m : state A) (k : A -> state B) : state B := fun h w =>
  match m h w with
  | (Ok a, h, w) => k a h w
  | (Err x, h, w) => (Err x, h, w)
  end.

Definition s_lift {A} (m : M W A) : state A := fun h w => let '(r, w) := m w in (r, h, w).

Definition get (doc : document) (a : docInfoArg) (o : option executionOptions) : state Result.doc :=
  let '(d, o) := arguments a o in
  s_bind (getSelectExecutor doc d true) (fun e => s_bind (run_select e doc d o) (fun r => s_lift (m_lift (Result.first r)))).

Definition find (doc : document) (a : docInfoArg) (o : option executionOptions) : state Result.t :=
  let '(d, o) := arguments a o in
  s_bind (getSelectExecutor doc d false) (fun e => run_select e doc d o).

Definition findAll (a : docInfoArg) (o : option executionOptions) : state Result.t :=
  let '(d, o) := arguments a o in
  s_bind (getSelectAllExecutor d) (fun e => run_selectAll e d o).

Definition insert (doc : document) (a : docInfoArg) (o : option executionOptions) : state Result.t :=
  let '(d, o) := arguments a o in
  s_bind (getInsertExecutor doc d) (fun e => s_lift (run_executor (snd e) doc d o)).

Definition update (doc : document) (a : docInfoArg) (o : option executionOptions) : state Result.t :=
  let '(d, o) := arguments a o in
  s_bind (getUpdateExecutor doc d) (fun e => s_lift (run_executor (snd e) doc d o)).

Definition remove (doc : document) (a : docInfoArg) (o : option executionOptions) : state Result.t :=
  let '(d, o) := arguments a o in
  s_bind (getDeleteExecutor doc d) (fun e => s_lift (run_executor (snd e) doc d o)).

(** ** Batches (model-batch-item.js, model-batch-mapper.js) *)

(** The object of a batch item keeps the promise of its queries: they or an error. *)
Record batchCaches : Type := mkBatchCaches {
  b_insert : cache (result (list QueryGenerator.queryInfo));
  b_update : cache (result (list QueryGenerator.queryInfo));
  b_remove : cache (result (list QueryGenerator.queryInfo)) }.

Definition new_ModelBatchMapper : batchCaches := mkBatchCaches empty_cache empty_cache empty_cache.

Inductive itemKind : Type := InsertItem | UpdateItem | RemoveItem.

Record batchItem : Type := mkItem { bi_kind : itemKind; bi_doc : document; bi_info : option docInfo }.

Definition insert_getCacheKey (i : batchItem) (docKeys : list jsstr) : list keyPart := Cache.getInsertKey docKeys (bi_info i).
Definition update_getCacheKey (i : batchItem) (docKeys : list jsstr) : list keyPart :=
  Cache.getUpdateKey docKeys (bi_doc i) (bi_info i).
Definition remove_getCacheKey (i : batchItem) (docKeys : list jsstr) : list keyPart :=
  Cache.getRemoveKey docKeys (bi_doc i) (bi_info i).

Definition getCacheKey (i : batchItem) : list jsstr -> list keyPart :=
  match bi_kind i with
  | InsertItem => insert_getCacheKey i
  | UpdateItem => update_getCacheKey i
  | RemoveItem => remove_getCacheKey i
  end.

Definition insert_createQueries (i : batchItem) (docKeys : list jsstr) : result (list QueryGenerator.queryInfo) :=
  createInsertQueries docKeys (bi_doc i) (bi_info i).
Definition update_createQueries (i : batchItem) (docKeys : list jsstr) : result (list QueryGenerator.queryInfo) :=
  createUpdateQueries docKeys (bi_doc i) (bi_info i).
Definition remove_createQueries (i : batchItem) (docKeys : list jsstr) : result (list QueryGenerator.queryInfo) :=
  createDeleteQueries docKeys (bi_doc i) (bi_info i).

Definition createQueries (i : batchItem) : list jsstr -> result (list QueryGenerator.queryInfo) :=
  match bi_kind i with
  | InsertItem => insert_createQueries i
  | UpdateItem => update_createQueries i
  | RemoveItem => remove_createQueries i
  end.

(** [insert], [update] and [remove] of the batch mapper *)
Definition batch_insert (doc : document) (d : option docInfo) : batchItem := mkItem InsertItem doc d.
Definition batch_update (doc : document) (d : option docInfo) : batchItem := mkItem UpdateItem doc d.
Definition batch_remove (doc : document) (d : option docInfo) : batchItem := mkItem RemoveItem doc d.

(** An error that is thrown before there is a promise. *)
Definition throws (i : batchItem) : bool :=
  match bi_kind i with InsertItem => false | _ => conflict (bi_info i) end.

(** The cache that [insert], [update] and [remove] give to the item: that of the updates
    for a removal too. *)
Definition item_cache (i : batchItem) (b : batchCaches) : cache (result (list QueryGenerator.queryInfo)) :=
  match bi_kind i with InsertItem => b_insert b | UpdateItem | RemoveItem => b_update b end.

Definition set_item_cache (i : batchItem) (c : cache (result (list QueryGenerator.queryInfo))) (b : batchCaches) : batchCaches :=
  match bi_kind i with
  | InsertItem => mkBatchCaches c (b_update b) (b_remove b)
  | UpdateItem | RemoveItem => mkBatchCaches (b_insert b) c (b_remove b)
  end.

Definition getQueries (i : batchItem) (b : batchCaches) (w : W)
    : result (list QueryGenerator.queryInfo) * batchCaches * W :=
  let docKeys := keys_of (bi_doc i) in
  let '(id, c) := cache_item (item_cache i b) (getCacheKey i docKeys) in
  match id with
  | None => (Err (TypeError "Cannot read properties of null (reading 'queries')"), set_item_cache i c b, w)
  | Some id =>
      match mjoin (c_items c !! id) with
      | Some queries => (queries, set_item_cache i c b, w)
      | None =>
          if throws i then (createQueries i docKeys, set_item_cache i c b, w)
          else let '(queries, w) := connected (createQueries i docKeys) w in
               (queries, set_item_cache i (fill_item c id queries) b, w)
      end
  end.

(** What an item adds to a batch: its queries with their parameters, and its options. *)
Record pushed : Type := mkPushed {
  pu_queries : list (jsstr * list mval);
  pu_isIdempotent : bool;
  pu_isCounter : jsval }.

Definition pushQueries (i : batchItem) (queries : list QueryGenerator.queryInfo) : result pushed :=
  arr ← traverse (fun q =>
    params ← Script.run (QueryGenerator.paramsGetter q) (Some (bi_doc i)) (bi_info i) info;
    Ok (QueryGenerator.query q, params)) queries;
  Ok (mkPushed arr (fold_left (fun acc q => acc && QueryGenerator.isIdempotent q) queries true)
        (fold_left (fun _ q => QueryGenerator.isCounter q) queries JUndefined)).

(** ** Batches of a mapper (mapper.js) *)

(** The calls of [getQueries], in the order of the items. *)
Fixpoint all_queries (items : list batchItem) (b : batchCaches) (w : W)
    : list (result pushed) * batchCaches * W :=
  match items with
  | [] => ([], b, w)
  | i :: items =>
      let '(r, b, w) := getQueries i b w in
      let '(rest, b, w) := all_queries items b w in
      ((queries ← r; pushQueries i queries) :: rest, b, w)
  end.

(** What the batch is made of, in the order in which the items complete. *)
Definition batch_of (done : list pushed) : pushed :=
  mkPushed (mjoin (pu_queries <$> done)) (fold_left (fun acc p => acc && pu_isIdempotent p) done true)
    (fold_left (fun _ p => pu_isCounter p) done JUndefined).

(** [batch]; the items are those of one model, and [order] lists them as they complete. *)
Definition batch (items : list batchItem) (order : list nat) (o : executionOptions) (b : batchCaches) (w : W)
    : result Result.t * batchCaches * W :=
  match items with
  | [] => (Err (ArgumentError "First parameter items should be an Array with 1 or more ModelBatchItem instances"), b, w)
  | _ =>
      let '(rs, b, w) := all_queries items b w in
      let request :=
        m_bind (m_lift (traverse (fun i => default (Err (PlainError "no such item")) (rs !! i)) order)) (fun done =>
        let p := batch_of done in
        m_bind (mc_batch client (pu_queries p) (DocInfoAdapter.adaptBatchOptions o (JBool (pu_isIdempotent p)) (pu_isCounter p)))
          (fun rs => m_lift (Ok (Result.constructor rs info (ResultMapper.getMutationAdapter rs))))) in
      let '(r, w) := request w in (r, b, w)
  end.

End handler.

(** ** Mapper (mapper.js) *)

Module Mapper.

(** The models made so far, with the information each handler has. *)
Record t : Type := mk {
  client_keyspace : jsstr;
  modelMappingInfos : list (jsstr * ModelMappingInfo);
  modelMappers : list (jsstr * (ModelMappingInfo * handler)) }.

Definition constructor (models : list (jsstr * option model_options)) (keyspace : jsstr) : result t :=
  infos ← parse models keyspace; Ok (mk keyspace infos []).

(** The information of the model and the mapper. *)
Definition forModel (m : t) (name : jsstr) : result (ModelMappingInfo * handler) * t :=
  match lookup_prop name (modelMappers m) with
  | Some h => (Ok h, m)
  | None =>
      let found :=
        match lookup_prop name (modelMappingInfos m) with
        | Some info => Ok info
        | None =>
            match client_keyspace m with
            | [] => Err (PlainError "No mapping information found for model. Mapper is unable to create default mappings without setting the keyspace")
            | keyspace => Ok (createDefault name keyspace)
            end
        end in
      match found with
      | Err x => (Err x, m)
      | Ok info =>
          let h := (info, new_handler) in
          (Ok h, mk (client_keyspace m) (modelMappingInfos m) (assoc_set name h (modelMappers m)))
      end
  end.

End Mapper.
