(* ===== verification/MapperProofs.v ===== *)
(** * Mapper: the caches do not show

    The proofs about MappingHandler.v: an object that is made for a document shape and
    kept is the one that would be made again, for any later document with the same key;
    where the keys of different requests coincide it is not, and the last part of the file
    shows such requests.  A row is mapped column by column. *)

From stdpp Require Import list.
From S2P Require Import Prelude JsNumber Buffer JsString Utf8 CqlTypes JsValue Encoder Results LongArith Timestamps Collections.
From S2P Require Import ExecutionOptions Client Tree Mapping QueryGen QueryGenProofs MappingHandler.

(** ** Objects that are made once *)

Section memo.
Context {A E W : Type}.
Variables (client : mapperClient W) (key_of : A -> list keyPart) (make : A -> result E) (wf : A -> Prop).
Hypothesis key_ne : forall a, wf a -> key_of a <> [].
Hypothesis key_make : forall a a', wf a -> wf a' -> key_of a = key_of a' -> make a = make a'.

(** What holds of a cache: the objects of different keys are different, and a filled one
    is what would be made for any request with its key. *)
Record cache_ok (c : cache E) : Prop := {
  co_tree : wf_tree (c_tree c);
  co_ids : forall k i, Tree.get (c_tree c) k = Some i -> (i < length (c_items c))%nat;
  co_inj : forall k k' i, Tree.get (c_tree c) k = Some i -> Tree.get (c_tree c) k' = Some i -> k = k';
  co_items : forall k i e, Tree.get (c_tree c) k = Some i -> c_items c !! i = Some (Some e) ->
    forall a, wf a -> key_of a = k -> make a = Ok e }.

Lemma empty_cache_ok : cache_ok empty_cache.
Proof.
  assert (Hn : forall k, Tree.get (c_tree (empty_cache (E := E))) k = None).
  { intros k. unfold Tree.get, empty_cache, empty_tree. cbn [c_tree root]. rewrite get_node_unfold. cbn. by destruct k. }
  split; [apply empty_tree_wf|intros k i|intros k k' i|intros k i e]; rewrite ?Hn; done.
Qed.

Lemma cache_item_ok c key : cache_ok c -> key <> [] ->
  let '(id, c') := cache_item c key in
  exists i, id = Some i /\ cache_ok c' /\ Tree.get (c_tree c') key = Some i.
Proof.
  intros [Ht Hi Hj He] Hk. unfold cache_item. pose proof (getOrCreate_tree (c_tree c) key (length (c_items c)) Ht Hk) as Hc.
  destruct (getOrCreate (c_tree c) key (length (c_items c))) as [id t]. destruct Hc as (Hw & -> & Hg).
  destruct (Tree.get (c_tree c) key) as [i|] eqn:Hkey; cbn [default] in *; eexists; (split; [reflexivity|]).
  - assert (Hsame : forall k, Tree.get t k = Tree.get (c_tree c) k).
    { intros k. rewrite Hg. by destruct (decide (k = key)) as [->|]. }
    pose proof (Hi _ _ Hkey). rewrite bool_decide_false by (intros [= ?]; lia). cbn [c_tree].
    split; [|by rewrite Hsame]. split; cbn [c_tree c_items]; [done|intros k j|intros k k' j|intros k j e]; rewrite !Hsame; eauto.
  - rewrite bool_decide_true by done. cbn [c_tree]. split; [|by rewrite Hg, decide_True].
    split; cbn [c_tree c_items]; [done| | |].
    + intros k j. rewrite Hg, length_app. cbn. destruct (decide (k = key)); [intros [= <-]; lia|]. intros ?%Hi. lia.
    + intros k k' j. rewrite !Hg. destruct (decide (k = key)) as [->|], (decide (k' = key)) as [->|]; [done| | |by apply Hj].
      * intros [= <-] ?%Hi. lia.
      * intros ?%Hi [= <-]. lia.
    + intros k j e. rewrite Hg. destruct (decide (k = key)) as [->|].
      * intros [= <-]. rewrite lookup_app_r, Nat.sub_diag by done. done.
      * intros Hk'. rewrite lookup_app_l by (by eapply Hi). eauto.
Qed.

Lemma fill_item_ok c a i e : cache_ok c -> wf a -> Tree.get (c_tree c) (key_of a) = Some i -> make a = Ok e ->
  cache_ok (fill_item c i e).
Proof.
  intros [Ht Hi Hj He] Ha Hk Hm. split; cbn [fill_item c_tree c_items]; [done| |done|].
  - intros k j Hg. rewrite length_insert. eauto.
  - intros k j e' Hg Hl a' Ha' Hk'. destruct (decide (j = i)) as [->|Hne].
    + rewrite list_lookup_insert_eq in Hl by eauto. injection Hl as <-. rewrite <- Hm. apply key_make; [done|done|].
      rewrite Hk'. by eapply Hj.
    + rewrite list_lookup_insert_ne in Hl by done. eauto.
Qed.

(** A request: the answer is what would be made for it, whatever was requested before. *)
Lemma memo_ok c a (create : M W E) w : cache_ok c -> wf a -> (forall w, fst (create w) = make a) ->
  let '(r, c', w') := memo client c (key_of a) create w in cache_ok c' /\ snd <$> r = make a.
Proof.
  intros Hc Ha Hmake. unfold memo. pose proof (cache_item_ok c (key_of a) Hc (key_ne a Ha)) as Hitem.
  destruct (cache_item c (key_of a)) as [id c']. destruct Hitem as (i & -> & Hc' & Hg).
  destruct (mjoin (c_items c' !! i)) as [e|] eqn:Hl.
  - split; [done|]. cbn. symmetry. eapply (co_items _ Hc'); [exact Hg| |done|done].
    by destruct (c_items c' !! i) as [[x|]|]; cbn in Hl; [injection Hl as ->| |].
  - match goal with |- context [create ?x] => specialize (Hmake x); destruct (create x) as [[e|err] w'] end.
    + cbn in Hmake. split; [by eapply fill_item_ok|done].
    + split; [done|]. by rewrite <- Hmake.
Qed.

(** A sequence of requests. *)
Fixpoint run_memo (create : A -> M W E) (requests : list A) (c : cache E) (w : W) : list (result E) :=
  match requests with
  | [] => []
  | a :: requests =>
      let '(r, c, w) := memo client c (key_of a) (create a) w in (snd <$> r) :: run_memo create requests c w
  end.

Lemma run_memo_ok create requests c w : cache_ok c -> Forall wf requests ->
  (forall a w, wf a -> fst (create a w) = make a) -> run_memo create requests c w = make <$> requests.
Proof.
  intros Hc Hr Hm. revert c w Hc. induction Hr as [|a requests Ha _ IH]; intros c w Hc; [done|]. cbn [run_memo].
  pose proof (memo_ok c a (create a) w Hc Ha (fun w => Hm a w Ha)) as Hok.
  destruct (memo client c (key_of a) (create a) w) as [[r c'] w']. destruct Hok as [Hc' ->]. by rewrite fmap_cons, IH.
Qed.

End memo.

(** ** What the queries read of a document *)

Lemma traverse_ext {A B} (f g : A -> result B) l : (forall x, x ∈ l -> f x = g x) -> traverse f l = traverse g l.
Proof.
  induction l as [|x l IH]; intros Hf; [done|]. cbn. rewrite (Hf x) by left. destruct (g x); [|done]. cbn.
  rewrite IH; [done|]. intros y Hy. apply Hf. by right.
Qed.

Module Erase.
Import ObjectSelector QueryGenerator.

Definition no_operator (v : mval) : bool :=
  match v with QueryOperator _ _ _ | QueryAnd _ _ => false | _ => true end.

(** A property without its value. *)
Definition erase (p : propertyInfo) : propertyInfo :=
  mkProperty (pi_propertyName p) (pi_columnName p) undefined (pi_fromModel p).

Lemma count_if_fmap {A B} (f : B -> bool) (g : A -> B) l : count_if f (g <$> l) = count_if (fun x => f (g x)) l.
Proof.
  rewrite !Selection.count_if_length. induction l as [|x l IH]; [done|]. rewrite fmap_cons. cbn [List.filter].
  destruct (f (g x)); cbn [length]; by rewrite IH.
Qed.

Lemma keysAreIncluded_erase keys props : keysAreIncluded keys (erase <$> props) = keysAreIncluded keys props.
Proof. unfold keysAreIncluded. destruct keys; [done|]. by rewrite count_if_fmap. Qed.

Lemma filter_columns_erase table props : filter_columns table (erase <$> props) = erase <$> filter_columns table props.
Proof.
  induction props as [|p props IH]; [done|]. rewrite fmap_cons. cbn [filter_columns List.filter erase pi_columnName].
  destruct (has_column table (pi_columnName p)); [rewrite fmap_cons; f_equal|]; apply IH.
Qed.

Lemma filter_tables_ext (f g : tableMetadata -> bool) metadata : (forall t, f t = g t) ->
  filter_tables f metadata = filter_tables g metadata.
Proof.
  intros H. unfold filter_tables. rewrite (traverse_ext _ (fun t =>
    match t with
    | None => Err (PlainError "Table could not be retrieved")
    | Some table => Ok (if g table then [table] else [])
    end)); [done|]. intros [t|] _; [by rewrite H|done].
Qed.

Lemma getForInsert_erase metadata props : getForInsert metadata (erase <$> props) = getForInsert metadata props.
Proof.
  apply filter_tables_ext. intros t. unfold insert_matches. by rewrite !keysAreIncluded_erase, length_fmap.
Qed.

Lemma getters_text_erase props o : Forall (fun p => no_operator (pi_value p) = true) props ->
  _valueGetterExpression (erase <$> props) o = _valueGetterExpression props o.
Proof.
  intros Hp. unfold _valueGetterExpression. f_equal. rewrite <- list_fmap_compose.
  induction Hp as [|p props Hp _ IH]; [done|]. rewrite !fmap_cons, IH. f_equal. unfold compose. cbn.
  by destruct (pi_value p).
Qed.

Lemma getInsert_erase table ks props d ine : Forall (fun p => no_operator (pi_value p) = true) props ->
  getInsert table ks (erase <$> props) d ine = getInsert table ks props d ine.
Proof.
  intros Hp. unfold getInsert, _insertParamsGetter, insert_script, _getInsertQuery. rewrite filter_columns_erase.
  assert (Hf : Forall (fun p => no_operator (pi_value p) = true) (filter_columns table props)).
  { clear -Hp. induction Hp as [|p props Hp _ IH]; [constructor|]. cbn. destruct (has_column _ _); [by constructor|done]. }
  rewrite getters_text_erase by done. by rewrite <- !list_fmap_compose.
Qed.

(** The properties of two documents only differ in their values. *)
Lemma properties_erase keys d doc doc' info :
  erase <$> DocInfoAdapter.getPropertiesInfo keys d doc info = erase <$> DocInfoAdapter.getPropertiesInfo keys d doc' info.
Proof. unfold DocInfoAdapter.getPropertiesInfo. by rewrite <- !list_fmap_compose. Qed.

End Erase.

(** ** Requests of an INSERT *)

Module Insert.
Import Erase.

(** A name that does not look like a separator. *)
Definition name_ok (s : jsstr) : bool := match s with c :: _ => negb (c =? 124) | [] => true end.

Definition part_ok (p : keyPart) : bool := match p with PStr s => name_ok s | PBool _ => true end.

(** A prefix of names is determined by what follows it. *)
Lemma names_split l l' r r' :
  Forall (fun p => part_ok p = true) l -> Forall (fun p => part_ok p = true) l' ->
  (forall p, head r = Some p -> part_ok p = false) -> (forall p, head r' = Some p -> part_ok p = false) ->
  l ++ r = l' ++ r' -> l = l' /\ r = r'.
Proof.
  intros Hl. revert l'. induction Hl as [|x l Hx _ IH]; intros l' Hl' Hr Hr' E.
  - destruct Hl' as [|x' l' Hx' _]; [done|]. cbn in E. subst r. rewrite (Hr x' eq_refl) in Hx'. done.
  - destruct Hl' as [|x' l' Hx' Hl']; cbn in E.
    + subst r'. rewrite (Hr' x eq_refl) in Hx. done.
    + injection E as -> E. destruct (IH l' Hl' Hr Hr' E) as [-> ->]. done.
Qed.

Lemma names_ok l : Forall (fun s => name_ok s = true) l -> Forall (fun p => part_ok p = true) (PStr <$> l).
Proof. intros Hl. apply Forall_fmap. exact Hl. Qed.

Definition request : Type := document * option docInfo.

(** The properties that are written. *)
Definition written (r : request) : list jsstr :=
  match fields (default noInfo (snd r)) with [] => keys_of (fst r) | l => l end.

(** A document with properties, names that are no separators, and no operators; the flag
    is a boolean or absent. *)
Record wf_request (r : request) : Prop := {
  wr_keys : keys_of (fst r) <> [];
  wr_names : Forall (fun s => name_ok s = true) (keys_of (fst r));
  wr_fields : Forall (fun s => name_ok s = true) (fields (default noInfo (snd r)));
  wr_values : Forall (fun k => no_operator (prop (fst r) k) = true) (written r);
  wr_flag : truthy (ifNotExists (default noInfo (snd r))) = QueryGenerator.is_true (ifNotExists (default noInfo (snd r))) }.

Definition key_of (r : request) : list keyPart := Cache.getInsertKey (keys_of (fst r)) (snd r).

Lemma key_default keys d : Cache.getInsertKey keys d = Cache.getInsertKey keys (Some (default noInfo d)).
Proof. by destruct d. Qed.

Lemma mark_inj b b' m m' r r' : PStr (js m) <> PStr (js m') ->
  (r = [] \/ r = [PStr (js m')]) -> (r' = [] \/ r' = [PStr (js m')]) ->
  Cache.mark b m ++ r = Cache.mark b' m ++ r' -> b = b' /\ r = r'.
Proof. intros Hm [-> | ->] [-> | ->] E; destruct b, b'; cbn in E; try done; try (injection E as E; congruence); injection E; congruence. Qed.

Lemma PStr_inj (a b : list jsstr) : PStr <$> a = PStr <$> b -> a = b.
Proof. apply list_fmap_eq_inj. by intros x y [= ->]. Qed.

(** The fields, before other separators. *)
Lemma fields_inj d d' t t' :
  Forall (fun s => name_ok s = true) (fields d) -> Forall (fun s => name_ok s = true) (fields d') ->
  (forall p, head t = Some p -> part_ok p = false /\ p <> PStr (js "|f|")) ->
  (forall p, head t' = Some p -> part_ok p = false /\ p <> PStr (js "|f|")) ->
  Cache.yieldFields d ++ t = Cache.yieldFields d' ++ t' -> fields d = fields d' /\ t = t'.
Proof.
  intros Hf Hf' Ht Ht' E. unfold Cache.yieldFields in E.
  destruct (fields d) as [|f l], (fields d') as [|f' l']; [done| | |].
  - cbn in E. subst t. by destruct (Ht _ eq_refl).
  - cbn in E. subst t'. by destruct (Ht' _ eq_refl).
  - apply (f_equal List.tl) in E. change ((PStr <$> (f :: l)) ++ t = (PStr <$> (f' :: l')) ++ t') in E.
    destruct (names_split _ _ _ _ (names_ok _ Hf) (names_ok _ Hf') (fun p H => proj1 (Ht p H)) (fun p H => proj1 (Ht' p H)) E) as [H1 H2].
    split; [by apply PStr_inj|done].
Qed.

(** Equal keys: the same properties, fields and options. *)
Lemma key_inj r r' : wf_request r -> wf_request r' -> key_of r = key_of r' ->
  let d := default noInfo (snd r) in
  let d' := default noInfo (snd r') in
  keys_of (fst r) = keys_of (fst r') /\ fields d = fields d' /\ is_number (ttl d) = is_number (ttl d') /\
  truthy (ifNotExists d) = truthy (ifNotExists d').
Proof.
  intros [_ Hn Hf _ _] [_ Hn' Hf' _ _] E. unfold key_of in E. rewrite !(key_default _ (snd _)) in E.
  set (d := default noInfo (snd r)) in *. set (d' := default noInfo (snd r')) in *. cbn zeta. cbn [Cache.getInsertKey] in E.
  set (tail := fun d : docInfo => Cache.mark (is_number (ttl d)) "|t|" ++ Cache.mark (truthy (ifNotExists d)) "|e|") in *.
  change (Cache.mark (is_number (ttl ?x)) "|t|" ++ Cache.mark (truthy (ifNotExists ?x)) "|e|") with (tail x) in E.
  assert (Htail : forall d p, head (tail d) = Some p -> part_ok p = false /\ p <> PStr (js "|f|")).
  { intros x p. unfold tail, Cache.mark. destruct (is_number _), (truthy _); cbn; by intros [= <-]. }
  assert (Hrest : forall d p, head (Cache.yieldFields d ++ tail d) = Some p -> part_ok p = false).
  { intros x p. unfold Cache.yieldFields. destruct (fields x); [apply Htail|by intros [= <-]]. }
  destruct (names_split _ _ _ _ (names_ok _ Hn) (names_ok _ Hn') (Hrest d) (Hrest d') E) as [Hk E2].
  split; [by apply PStr_inj|].
  destruct (fields_inj d d' (tail d) (tail d') Hf Hf' (Htail d) (Htail d') E2) as [Hff Ht]. split; [done|].
unfold tail in Ht. apply (mark_inj _ _ "|t|" "|e|") in Ht; [|done| |].
  - destruct Ht as [-> Ht]. split; [done|]. by destruct (truthy (ifNotExists d)), (truthy (ifNotExists d')).
  - destruct (truthy (ifNotExists d)); [by right|by left].
  - destruct (truthy (ifNotExists d')); [by right|by left].
Qed.

Lemma getInsert_options table ks props d d' ine ine' :
  is_number (ttl d) = is_number (ttl d') -> truthy ine = truthy ine' -> QueryGenerator.is_true ine = QueryGenerator.is_true ine' ->
  QueryGenerator.getInsert table ks props (Some d) ine = QueryGenerator.getInsert table ks props (Some d') ine'.
Proof.
  intros Ht H1 H2. unfold QueryGenerator.getInsert, QueryGenerator._insertParamsGetter, QueryGenerator.insert_script, QueryGenerator._getInsertQuery.
  cbn [QueryGenerator.of_info]. by rewrite Ht, H1, H2.
Qed.

Section insert.
Context `{Schema} (info : ModelMappingInfo).

Definition queries (r : request) : result (list QueryGenerator.queryInfo) :=
  createInsertQueries info (keys_of (fst r)) (fst r) (snd r).

Definition make (r : request) : result executor := make_executor <$> queries r.

Lemma queries_default r : queries r = createInsertQueries info (keys_of (fst r)) (fst r) (Some (default noInfo (snd r))).
Proof. unfold queries. by destruct (snd r). Qed.

(** Requests with equal keys have the same queries. *)
Lemma key_queries r r' : wf_request r -> wf_request r' -> key_of r = key_of r' -> queries r = queries r'.
Proof.
  intros Hr Hr' E. pose proof (key_inj r r' Hr Hr' E) as (Hk & Hf & Ht & Hi). cbn zeta in *.
  rewrite !queries_default. destruct Hr as [_ _ _ Hv Hb], Hr' as [_ _ _ Hv' Hb'].
  unfold written in Hv, Hv'. set (d := default noInfo (snd r)) in *. set (d' := default noInfo (snd r')) in *. unfold createInsertQueries.
  assert (Hprops : forall (x : request) e, let dx := e in
    Forall (fun k => no_operator (prop (fst x) k) = true) (match fields dx with [] => keys_of (fst x) | l => l end) ->
    Forall (fun p => no_operator (pi_value p) = true) (DocInfoAdapter.getPropertiesInfo (keys_of (fst x)) (Some dx) (fst x) info)).
  { intros x e dx Hx. unfold DocInfoAdapter.getPropertiesInfo. apply Forall_fmap. exact Hx. }
  pose proof (Hprops r d Hv) as P. pose proof (Hprops r' d' Hv') as P'. clear Hprops.
  assert (Eprops : erase <$> DocInfoAdapter.getPropertiesInfo (keys_of (fst r)) (Some d) (fst r) info
    = erase <$> DocInfoAdapter.getPropertiesInfo (keys_of (fst r')) (Some d') (fst r') info).
  { rewrite (properties_erase _ (Some d) (fst r) (fst r')), Hk. unfold DocInfoAdapter.getPropertiesInfo. by rewrite Hf. }
  cbn [QueryGenerator.of_info]. rewrite Hi. destruct tables_only as [md|x]; [|done]. rewrite !ok_bind.
  rewrite <- (getForInsert_erase md), Eprops, getForInsert_erase. destruct (ObjectSelector.getForInsert md _) as [ts|x]; [|done].
  rewrite !ok_bind. destruct (_ && _); [done|]. apply traverse_ext. intros t _.
  rewrite <- (getInsert_erase _ _ _ _ _ P), <- (getInsert_erase _ _ _ _ _ P'), Eprops.
  apply getInsert_options; [done|done|]. by rewrite <- Hb, <- Hb'.
Qed.

End insert.

(** A handler that answers a sequence of requests. *)
Fixpoint run_inserts `{UpperCase} `{Schema} {W} (client : mapperClient W) (info : ModelMappingInfo) (requests : list request)
    (h : handler) (w : W) : list (result executor) :=
  match requests with
  | [] => []
  | r :: requests =>
      let '(e, h, w) := getInsertExecutor client info (fst r) (snd r) h w in
      (snd <$> e) :: run_inserts client info requests h w
  end.

(** C12. The cache of the INSERT queries does not show: a handler whose client connects
    answers every request of any sequence with the executor that is made from its document
    and options, whatever was requested before; an error is not kept.  The documents have
    no operators, and no property is named like a separator of the keys. *)
Theorem insert_cache_transparent `{UpperCase} `{Schema} {W} (client : mapperClient W) info requests w :
  (forall w, fst (mc_connect client w) = Ok tt) -> Forall wf_request requests ->
  run_inserts client info requests new_handler w = make info <$> requests.
Proof.
  intros Hconn Hr.
  rewrite <- (run_memo_ok client key_of (make info) wf_request) with
    (create := fun r => executor_of (connected client (createInsertQueries info (keys_of (fst r)) (fst r) (snd r))))
    (c := empty_cache) (w := w).
  - assert (Hgen : forall h w, run_inserts client info requests h w
      = run_memo client key_of (fun r => executor_of (connected client (createInsertQueries info (keys_of (fst r)) (fst r) (snd r))))
          requests (h_insert h) w); [|apply (Hgen new_handler)].
    induction Hr as [|r requests [Hk _ _ _ _] _ IH]; intros h w'; [done|]. cbn [run_inserts run_memo]. unfold getInsertExecutor.
    destruct (keys_of (fst r)) as [|k ks] eqn:Ek; [done|]. unfold key_of. rewrite Ek.
    destruct (memo client (h_insert h) _ _ w') as [[e c] w'']. by rewrite IH.
  - intros r [Hk _ _ _ _] E. apply Hk. unfold key_of, Cache.getInsertKey in E. apply app_eq_nil in E as [E _].
    by apply fmap_nil_inv in E.
  - intros a a' Ha Ha' E. unfold make. by rewrite (key_queries info a a').
  - apply empty_cache_ok.
  - done.
  - intros a w' _. unfold executor_of, connected, m_bind, m_lift, make, queries. specialize (Hconn w').
    destruct (mc_connect client w') as [[[]|x] w'']; [|done]. by destruct (createInsertQueries _ _ _ _).
Qed.

End Insert.

(** ** Requests of a SELECT *)

Module Select.
Import Erase Insert ObjectSelector QueryGenerator Params Conditions.

Definition request : Type := document * option docInfo.

(** The keys of the operators of [q]. *)
Definition op_keys : list jsstr := [js "IN"; js ">"; js ">="; js "<"; js "<="; js "!="; js "AND"].

Definition is_op (p : keyPart) : bool := match p with PStr s => bool_decide (s ∈ op_keys) | PBool _ => false end.

(** The values that [q] makes. *)
Fixpoint wf_value (v : mval) : bool :=
  match v with
  | QueryOperator key _ isIn =>
      bool_decide (key ∈ op_keys) && negb (bool_decide (key = js "AND")) && Bool.eqb isIn (bool_decide (key = js "IN"))
  | QueryAnd v0 v1 => wf_value v0 && wf_value v1
  | _ => true
  end.

(** What follows the operators of a value. *)
Definition stops (r : list keyPart) : Prop := forall p, head r = Some p -> is_op p = false.

Lemma stops_separator l : stops (PStr (js "|/|") :: l).
Proof. intros p Hp. injection Hp as <-. done. Qed.

Lemma yield_inj v v' r r' : wf_value v = true -> wf_value v' = true -> stops r -> stops r' ->
  Cache.yieldOperators v ++ r = Cache.yieldOperators v' ++ r' -> same_operators v v' = true /\ r = r'.
Proof.
  assert (Hop : forall k, bool_decide (k ∈ op_keys) = true -> forall l, ~ stops (PStr k :: l)).
  { intros k Hk l Hs. specialize (Hs (PStr k) eq_refl). cbn in Hs. congruence. }
  revert v' r r'. induction v as [v|k v IH i|v0 IH0 v1 IH1|s v IH i|v0 IH0 v1 IH1]; intros v' r r' Hv Hv' Hr Hr' E.
  1, 4, 5: cbn [Cache.yieldOperators app] in E; subst r; destruct v' as [|k' v' i'|w0 w1| |]; try done;
    cbn in Hv'; [apply andb_prop in Hv' as [[Hk _]%andb_prop _]; by apply Hop in Hr|by apply (Hop (js "AND")) in Hr].
  - cbn in Hv. apply andb_prop in Hv as [[Hk Hna%negb_true_iff%bool_decide_eq_false]%andb_prop Hi%eqb_prop].
    destruct v' as [|k' v' i'|w0 w1| |]; cbn in E.
    1, 4, 5: subst r'; by apply Hop in Hr'.
    + injection E as -> ->. cbn in Hv'. apply andb_prop in Hv' as [_ Hi'%eqb_prop]. split; [|done]. cbn.
      by rewrite bool_decide_true, Hi, Hi', eqb_reflx.
    + by injection E as -> _.
  - cbn in Hv. apply andb_prop in Hv as [Hv0 Hv1]. destruct v' as [|k' v' i'|w0 w1| |]; cbn [Cache.yieldOperators app] in E.
    1, 4, 5: subst r'; by apply (Hop (js "AND")) in Hr'.
    + injection E as <- _. cbn in Hv'. by apply andb_prop in Hv' as [[_ ?]%andb_prop _].
    + cbn in Hv'. apply andb_prop in Hv' as [Hw0 Hw1]. injection E as E. rewrite <- !app_assoc in E. cbn [app] in E.
      destruct (IH0 w0 _ _ Hv0 Hw0 (stops_separator _) (stops_separator _) E) as [S0 E'].
      injection E' as E'. destruct (IH1 w1 _ _ Hv1 Hw1 Hr Hr' E') as [S1 ->]. split; [|done]. cbn. by rewrite S0, S1.
Qed.

Definition good_name (s : jsstr) : bool := name_ok s && negb (bool_decide (s ∈ op_keys)).

Lemma good_part s : good_name s = true -> part_ok (PStr s) = true /\ is_op (PStr s) = false.
Proof. intros [H1 H2%negb_true_iff]%andb_prop. done. Qed.

Lemma marker_stops p : part_ok p = false -> is_op p = false.
Proof.
  destruct p as [s|]; [|done]. cbn. intros Hs. apply bool_decide_eq_false. intros Hin.
  repeat (apply elem_of_cons in Hin as [->|Hin]; [done|]). by apply not_elem_of_nil in Hin.
Qed.

(** The keys of a document with their operators, before separators. *)
Lemma keys_inj keys keys' doc doc' r r' :
  Forall (fun k => good_name k = true /\ wf_value (prop doc k) = true) keys ->
  Forall (fun k => good_name k = true /\ wf_value (prop doc' k) = true) keys' ->
  (forall p, head r = Some p -> part_ok p = false) -> (forall p, head r' = Some p -> part_ok p = false) ->
  Cache.yieldKeyAndOperators keys doc ++ r = Cache.yieldKeyAndOperators keys' doc' ++ r' ->
  keys = keys' /\ same_shape keys doc doc' /\ r = r'.
Proof.
  assert (Hstop : forall ks d x, Forall (fun k => good_name k = true /\ wf_value (prop d k) = true) ks ->
    (forall p, head x = Some p -> part_ok p = false) -> stops (Cache.yieldKeyAndOperators ks d ++ x)).
  { intros ks d x Hks Hx p. destruct Hks as [|k ks [Hk _] _]; [intros ?%Hx; by apply marker_stops|]. cbn. intros [= <-]. by apply good_part. }
  intros Hk. revert keys'. induction Hk as [|k keys [Hg Hv] Hks IH]; intros keys' Hk' Hr Hr' E.
  - destruct Hk' as [|k' keys' [Hg' _] _]; [by split_and!; [|constructor|]|]. cbn in E. subst r.
    specialize (Hr _ eq_refl). apply good_part in Hg' as [Hg' _]. congruence.
  - destruct Hk' as [|k' keys' [Hg' Hv'] Hks'].
    + cbn in E. subst r'. specialize (Hr' _ eq_refl). apply good_part in Hg as [Hg _]. congruence.
    + change (PStr k :: (Cache.yieldOperators (prop doc k) ++ Cache.yieldKeyAndOperators keys doc) ++ r
        = PStr k' :: (Cache.yieldOperators (prop doc' k') ++ Cache.yieldKeyAndOperators keys' doc') ++ r') in E.
      injection E as -> E. rewrite <- !app_assoc in E.
      apply yield_inj in E as [Hs E]; [|done|done|by apply Hstop|by apply Hstop].
      destruct (IH keys' Hks' Hr Hr' E) as (-> & Hsame & ->). split_and!; [done|by constructor|done].
Qed.

Definition order_parts (d : docInfo) : list keyPart :=
  match orderBy d with
  | None => []
  | Some l => PStr (js "|o|") :: concat ((fun e => [PStr (fst e); PStr (snd e)]) <$> l)
  end.

Lemma order_inj d d' : order_parts d = order_parts d' -> orderBy d = orderBy d'.
Proof.
  unfold order_parts. destruct (orderBy d) as [l|], (orderBy d') as [l'|]; try done. intros [= E]. f_equal.
  revert l' E. induction l as [|[k v] l IH]; intros [|[k' v'] l'] E; try done. cbn in E.
  injection E as -> -> E. by rewrite (IH l' E).
Qed.

(** The options that the key of a select tells. *)
Lemma select_info_inj d d' :
  Forall (fun s => name_ok s = true) (fields d) -> Forall (fun s => name_ok s = true) (fields d') ->
  Cache.getSelectDocInfo (Some d) = Cache.getSelectDocInfo (Some d') ->
  fields d = fields d' /\ is_number (limit d) = is_number (limit d') /\ orderBy d = orderBy d'.
Proof.
  intros Hf Hf' E. change (Cache.yieldFields d ++ (Cache.mark (is_number (limit d)) "|l|" ++ order_parts d)
    = Cache.yieldFields d' ++ (Cache.mark (is_number (limit d')) "|l|" ++ order_parts d')) in E.
  assert (Hhead : forall x p, head (Cache.mark (is_number (limit x)) "|l|" ++ order_parts x) = Some p -> part_ok p = false /\ p <> PStr (js "|f|")).
  { intros x p. unfold order_parts. destruct (is_number (limit x)), (orderBy x); cbn; by intros [= <-]. }
  destruct (fields_inj _ _ _ _ Hf Hf' (Hhead d) (Hhead d') E) as [-> E']. split; [done|].
  assert (Ho : forall x, order_parts x = PStr (js "|l|") :: order_parts x \/ head (order_parts x) <> Some (PStr (js "|l|"))).
  { intros x. right. unfold order_parts. by destruct (orderBy x). }
  destruct (is_number (limit d)), (is_number (limit d')); cbn [Cache.mark app] in E'.
  - injection E' as E'. split; [done|by apply order_inj].
  - destruct (Ho d') as [Hx|Hx]; [apply (f_equal length) in Hx; cbn in Hx; lia|]. by rewrite <- E' in Hx.
  - destruct (Ho d) as [Hx|Hx]; [apply (f_equal length) in Hx; cbn in Hx; lia|]. by rewrite E' in Hx.
  - split; [done|by apply order_inj].
Qed.

(** A request of [find] or [get]: names that are no separators and no operators, and
    values made by [q]. *)
Record wf_select (r : request) : Prop := {
  ws_keys : keys_of (fst r) <> [];
  ws_values : Forall (fun k => good_name k = true /\ wf_value (prop (fst r) k) = true) (keys_of (fst r));
  ws_fields : Forall (fun s => name_ok s = true) (fields (default noInfo (snd r))) }.

Definition select_key (r : request) : list keyPart := Cache.getSelectKey (keys_of (fst r)) (fst r) (snd r).

Lemma select_key_inj r r' : wf_select r -> wf_select r' -> select_key r = select_key r' ->
  let d := default noInfo (snd r) in
  let d' := default noInfo (snd r') in
  keys_of (fst r) = keys_of (fst r') /\ same_shape (keys_of (fst r)) (fst r) (fst r') /\
  fields d = fields d' /\ is_number (limit d) = is_number (limit d') /\ orderBy d = orderBy d'.
Proof.
  intros [_ Hv Hf] [_ Hv' Hf'] E. cbn zeta. unfold select_key, Cache.getSelectKey in E.
  assert (Ed : forall d, Cache.getSelectDocInfo d = Cache.getSelectDocInfo (Some (default noInfo d))) by by intros [d|].
  assert (Hhead : forall d p, head (Cache.getSelectDocInfo (Some d)) = Some p -> part_ok p = false).
  { intros d p. cbn [Cache.getSelectDocInfo]. unfold Cache.yieldFields. destruct (fields d), (is_number (limit d)), (orderBy d); cbn; by intros [= <-]. }
  rewrite !(Ed (snd _)) in E. apply keys_inj in E as (-> & Hs & E); [|done|done|apply Hhead|apply Hhead].
  split_and!; [done|done|by apply select_info_inj..].
Qed.

(** *** The same queries *)

Lemma single_same o p path v v' fn : same_operators v v' = true -> single o p path v fn = single o p path v' fn.
Proof.
  revert path v'. induction v as [v|k v IH i|v0 IH0 v1 IH1|s v IH i|v0 IH0 v1 IH1]; intros path [] Hs; try done; cbn in Hs |- *.
  - apply andb_prop in Hs as [_ ->%eqb_prop]. done.
  - apply andb_prop in Hs as [H0 H1]. by rewrite (IH0 _ _ H0), (IH1 _ _ H1).
Qed.

Lemma all_of_fmap {A B} (f : B -> bool) (g : A -> B) l : all_of f (g <$> l) = all_of (fun x => f (g x)) l.
Proof. rewrite !Selection.all_of_forallb. induction l as [|x l IH]; [done|]. rewrite fmap_cons. cbn. by rewrite IH. Qed.

Lemma getForSelect_erase metadata allPKs props fieldsInfo order :
  getForSelect metadata allPKs (erase <$> props) (erase <$> fieldsInfo) order = getForSelect metadata allPKs props fieldsInfo order.
Proof.
  unfold getForSelect. induction metadata as [|[t|] metadata IH]; [done| |done]. cbn [select_loop].
  assert (E : select_matches allPKs (erase <$> props) (erase <$> fieldsInfo) order t = select_matches allPKs props fieldsInfo order t).
  { unfold select_matches. by rewrite !keysAreIncluded_erase, length_fmap, !all_of_fmap. }
  by rewrite E, IH.
Qed.

Section same.
Context (info : ModelMappingInfo) (keys : list jsstr) (doc doc' : document) (Hs : same_shape keys doc doc').

Let props := DocInfoAdapter.getPropertiesInfo keys None doc info.
Let props' := DocInfoAdapter.getPropertiesInfo keys None doc' info.

Lemma same_conditions : _getConditionWithOperators props = _getConditionWithOperators props'.
Proof.
  unfold _getConditionWithOperators. f_equal. unfold props, props', DocInfoAdapter.getPropertiesInfo. rewrite <- !list_fmap_compose.
  clear props props'. induction Hs as [|k ks Hk Hks IH]; [done|]. rewrite !fmap_cons, IH by done. f_equal. unfold compose. cbn.
  by rewrite !single_condition, (same_operators_eq _ _ Hk).
Qed.

Lemma same_getters o : _valueGetterExpression props (ScriptText.render_object o) = _valueGetterExpression props' (ScriptText.render_object o).
Proof.
  rewrite !getters_text. do 2 f_equal. unfold props, props', DocInfoAdapter.getPropertiesInfo. rewrite <- !list_fmap_compose.
  clear props props'. f_equal. induction Hs as [|k ks Hk Hks IH]; [done|]. rewrite !fmap_cons, IH by done. f_equal. unfold compose, getters. cbn.
  by apply single_same.
Qed.

Lemma same_length : length props = length props'.
Proof. unfold props, props', DocInfoAdapter.getPropertiesInfo. by rewrite !length_fmap. Qed.

End same.

Section select.
Context `{UpperCase} `{Schema} (info : ModelMappingInfo) (allPKsDefined : bool).

(** What a handler makes for a request. *)
Definition make_select (r : request) : result selectQuery :=
  order ← DocInfoAdapter.adaptOrderBy (snd r) info; create_select info (fst r) (snd r) allPKsDefined order.

Lemma select_same r r' : wf_select r -> wf_select r' -> select_key r = select_key r' -> make_select r = make_select r'.
Proof.
  intros Hr Hr' E. pose proof (select_key_inj r r' Hr Hr' E) as (Hk & Hs & Hf & Hl & Ho). cbn zeta in *.
  assert (Ed : forall x : request, make_select x = make_select (fst x, Some (default noInfo (snd x)))) by by intros [x [d|]].
  rewrite (Ed r), (Ed r'). set (d := default noInfo (snd r)) in *. set (d' := default noInfo (snd r')) in *.
  unfold make_select. cbn [fst snd]. unfold DocInfoAdapter.adaptOrderBy. cbn [mbind option_bind]. rewrite Ho.
  match goal with |- (?m ≫= _) = _ => destruct m as [order|x]; [|done] end. rewrite !ok_bind.
  unfold create_select. rewrite Hk in Hs |- *.
  assert (Eprops : erase <$> DocInfoAdapter.getPropertiesInfo (keys_of (fst r')) None (fst r) info
    = erase <$> DocInfoAdapter.getPropertiesInfo (keys_of (fst r')) None (fst r') info) by apply properties_erase.
  assert (Efields : erase <$> DocInfoAdapter.getPropertiesInfo [] (Some d) (fst r) info
    = erase <$> DocInfoAdapter.getPropertiesInfo [] (Some d') (fst r') info).
  { rewrite (properties_erase _ (Some d) (fst r) (fst r')). unfold DocInfoAdapter.getPropertiesInfo. by rewrite Hf. }
  destruct tables_and_views as [md|x]; [|done]. rewrite !ok_bind.
  rewrite <- getForSelect_erase, Eprops, Efields, getForSelect_erase. destruct (getForSelect md _ _ _ _) as [tableName|x]; [|done].
  rewrite !ok_bind. cbn [of_info]. unfold selectParamsGetter, select_script, getSelect. change doc_ with (ScriptText.render_object Script.Doc).
  rewrite (same_getters info _ _ _ Hs), (same_conditions info _ _ _ Hs), (same_length info (keys_of (fst r')) (fst r) (fst r')), Hl.
  assert (Ec : forall l l', erase <$> l = erase <$> l' ->
    length l = length l' /\ (fun p => column (pi_columnName p)) <$> l = (fun p => column (pi_columnName p)) <$> l').
  { intros l l' El. split; [by apply (f_equal length) in El; rewrite !length_fmap in El|].
    apply (f_equal (fmap (fun p => column (pi_columnName p)))) in El. by rewrite <- !list_fmap_compose in El. }
  destruct (Ec _ _ Efields) as [-> ->]. done.
Qed.

End select.

Fixpoint run_selects `{UpperCase} `{Schema} {W} (client : mapperClient W) (info : ModelMappingInfo) (allPKsDefined : bool)
    (requests : list request) (h : handler) (w : W) : list (result selectQuery) :=
  match requests with
  | [] => []
  | r :: requests =>
      let '(e, h, w) := getSelectExecutor client info (fst r) (snd r) allPKsDefined h w in
      (snd <$> e) :: run_selects client info allPKsDefined requests h w
  end.

(** C13. The cache of the SELECT queries does not show among requests that all have to give
    the whole key, or that all need not: every request of any sequence is answered with
    the query that is made from its document and options.  No property is named like an
    operator or a separator of the keys. *)
Theorem select_cache_transparent `{UpperCase} `{Schema} {W} (client : mapperClient W) info allPKsDefined requests w :
  (forall w, fst (mc_connect client w) = Ok tt) -> Forall wf_select requests ->
  run_selects client info allPKsDefined requests new_handler w = make_select info allPKsDefined <$> requests.
Proof.
  intros Hconn Hr.
  pose (create := fun r : request => m_bind (m_lift (DocInfoAdapter.adaptOrderBy (snd r) info))
    (fun order => connected client (create_select info (fst r) (snd r) allPKsDefined order))).
  rewrite <- (run_memo_ok client select_key (make_select info allPKsDefined) wf_select) with (create := create) (c := empty_cache) (w := w).
  - assert (Hgen : forall h w, run_selects client info allPKsDefined requests h w = run_memo client select_key create requests (h_select h) w);
      [|apply (Hgen new_handler)].
    induction Hr as [|r requests [Hk _ _] _ IH]; intros h w'; [done|]. cbn [run_selects run_memo]. unfold getSelectExecutor.
    destruct (keys_of (fst r)) as [|k ks] eqn:Ek; [done|]. unfold select_key, create. rewrite Ek.
    destruct (memo client (h_select h) _ _ w') as [[e c] w'']. by rewrite IH.
  - intros r [Hk _ _] E. apply Hk. unfold select_key, Cache.getSelectKey in E. apply app_eq_nil in E as [E _].
    by destruct (keys_of (fst r)).
  - intros a a' Ha Ha' E. by apply select_same.
  - apply empty_cache_ok.
  - done.
  - intros a w' _. unfold create, connected, m_bind, m_lift, make_select. destruct (DocInfoAdapter.adaptOrderBy (snd a) info) as [order|x]; [|done].
    specialize (Hconn w'). cbn [fst mbind result_bind]. by destruct (mc_connect client w') as [[[]|x] w''].
Qed.

End Select.

(** ** Rows *)

Module Rows.
Import ResultMapper ScriptText.

(** The value of a cell through the function of the user. *)
Definition cell (info : ModelMappingInfo) (row : Row.t) (c : jsstr) : result jsval :=
  match getToModelFn info c with
  | Some f => f (Val (Row.get row c))
  | None => Ok (Row.get row c)
  end.

Definition assignment_of (info : ModelMappingInfo) (c : jsstr) : assignment :=
  mkAssignment (getPropertyName info c) c (QueryGenerator.is_some (getToModelFn info c)).

Lemma quoted_close n close s : plain n -> head close = Some 39 -> Script.quoted close (n ++ close ++ s) = Some (n, s).
Proof. intros Hn Hc. destruct close as [|c close]; [done|]. injection Hc as ->. by apply quoted_app. Qed.

Lemma read_assignment_text info c r : plain c -> plain (getPropertyName info c) ->
  read_assignment (assignment_text info c ++ r) = Some (assignment_of info c, r).
Proof.
  intros Hc Hp. unfold read_assignment, assignment_text, assignment_of. rewrite <- !app_assoc, strip_prefix_app. cbn [mbind option_bind].
  rewrite quoted_close by done. cbn [mbind option_bind].
  destruct (getToModelFn info c); rewrite <- !app_assoc.
  - assert (E : forall x, strip_prefix (js "row['") (js "info.getToModelFn('" ++ x) = None) by done.
    rewrite E, strip_prefix_app. cbn [mbind option_bind]. rewrite quoted_close by done. cbn [mbind option_bind].
    rewrite (app_assoc (js "']);") [10] r), quoted_close by done. cbn [mbind option_bind]. by rewrite bool_decide_true.
  - rewrite strip_prefix_app, (app_assoc (js "'];") [10] r). by rewrite quoted_close.
Qed.

Lemma read_assignments_text info names fuel : Forall plain names -> Forall (fun c => plain (getPropertyName info c)) names ->
  (length names < fuel)%nat ->
  read_assignments fuel (mjoin (assignment_text info <$> names) ++ adapter_closing) = Some (assignment_of info <$> names).
Proof.
  intros Hn. revert fuel. induction Hn as [|c names Hc _ IH]; intros fuel Hp Hf; (destruct fuel as [|fuel]; [lia|]); [done|].
  apply Forall_cons_1 in Hp as [Hp1 Hp]. rewrite fmap_cons.
  change (mjoin (assignment_text info c :: (assignment_text info <$> names))) with (assignment_text info c ++ mjoin (assignment_text info <$> names)).
  rewrite <- app_assoc. cbn [read_assignments]. rewrite bool_decide_false by (unfold assignment_text; intros E; discriminate E).
  rewrite read_assignment_text by done. cbn [mbind option_bind]. rewrite IH; [done|done|cbn in Hf; lia].
Qed.

Lemma texts_length info names : (length names <= length (mjoin (assignment_text info <$> names)))%nat.
Proof.
  induction names as [|c names IH]; [done|].
  change (S (length names) <= length (assignment_text info c ++ mjoin (assignment_text info <$> names)))%nat.
  rewrite length_app. unfold assignment_text at 1. rewrite length_app. change (length (js "  item['")) with 8%nat. lia.
Qed.

Lemma new_Script_text info names : Forall plain names -> Forall (fun c => plain (getPropertyName info c)) names ->
  new_Script (adapter_script info names) = Ok (SelectAdapter (assignment_of info <$> names)).
Proof.
  intros Hn Hp. unfold new_Script, adapter_script. rewrite strip_prefix_app. cbn [mbind option_bind].
  rewrite read_assignments_text; [done|done|done|]. rewrite length_app. pose proof (texts_length info names). lia.
Qed.

Lemma run_assignments_fold info row names vs item : traverse (cell info row) names = Ok vs ->
  fold_left (fun acc a => item ← acc; run_assignment info row item a) (assignment_of info <$> names) (Ok item)
  = Ok (fold_left (fun m kv => set_prop (fst kv) (snd kv) m) (zip (getPropertyName info <$> names) vs) item).
Proof.
  revert vs item. induction names as [|c names IH]; intros vs item; cbn [traverse].
  - by intros [= <-].
  - intros (v & Hv & (vs' & Hvs & [= <-])%bind_ok)%bind_ok. rewrite !fmap_cons. cbn [fold_left zip zip_with fst snd].
    assert (E : run_assignment info row item (assignment_of info c) = Ok (set_prop (getPropertyName info c) v item)).
    { unfold run_assignment, assignment_of, cell in *. cbn [as_call as_column as_property].
      destruct (getToModelFn info c); cbn [QueryGenerator.is_some]; [by rewrite Hv|by injection Hv as ->]. }
    rewrite ok_bind, E. by apply IH.
Qed.

(** The adapter generated for a result maps a row column by column: the property of
    each column holds the value of its cell, through the function of the user if the
    column has one. *)
Theorem row_mapped info rs row columns vs :
  rs_columns rs = Some columns ->
  let names := fst <$> columns in
  Forall plain names -> Forall (fun c => plain (getPropertyName info c)) names ->
  NoDup (getPropertyName info <$> names) -> proto ∉ getPropertyName info <$> names ->
  traverse (cell info row) names = Ok vs ->
  exists adapter item, getSelectAdapter info rs = Ok adapter /\ run_adapter info adapter row = Ok (Some item) /\
    Forall2 (fun c v => lookup_prop (getPropertyName info c) item = Some v) names vs.
Proof.
  intros Hc names Hn Hp Hnd Hproto Hvs. unfold getSelectAdapter. rewrite Hc. fold names.
  eexists _, _. split; [by apply new_Script_text|]. split.
  { cbn [run_adapter]. by rewrite (run_assignments_fold info row names vs). }
  pose proof (proj1 (traverse_ok _ _ _) Hvs) as Hall. pose proof (Forall2_length Hall) as Hlen.
  assert (Hfst : (zip (getPropertyName info <$> names) vs).*1 = getPropertyName info <$> names) by (apply fst_zip; rewrite length_fmap; lia).
  apply Forall2_same_length_lookup_2; [lia|]. intros i c v Hi Hv.
  rewrite lookup_set_props by (by rewrite Hfst).
  rewrite (lookup_prop_elem _ v); [done| |].
  - rewrite <- Permutation_rev. by rewrite Hfst.
  - apply list_elem_of_In, in_rev. rewrite rev_involutive. apply list_elem_of_In, list_elem_of_lookup. exists i.
    by rewrite lookup_zip_with, list_lookup_fmap, Hi, Hv.
Qed.

End Rows.

(** ** Samples *)

Module Samples.
Import Placeholders.

Definition sample_schema : Schema := {|
  getTable := fun _ name => Ok (if bool_decide (name = js "videos") then Some sample_table else None);
  getMaterializedView := fun _ _ => Ok None |}.
#[local] Existing Instance sample_schema.

(** A world that counts the calls of [connect], which fails the first [n] times. *)
Definition void : resultSet := mkResultSet None (ResultSet.mk None 0 None None None).

Definition counting_client (n : nat) : mapperClient nat :=
  mkMapperClient nat (fun w => (if (w <? n)%nat then Err (PlainError "NoHostAvailable") else Ok tt, S w))
    (fun _ _ _ w => (Ok void, w)) (fun _ _ w => (Ok void, w)) (fun _ _ w => w).

Definition row_doc (a b : Z) : document := [(js "id", num a); (js "addedOn", num b)].
Definition if_not_exists (v : jsval) : docInfo := mkDocInfo [] JUndefined None JUndefined v JUndefined None JUndefined.

Definition sample_inserts : list Insert.request :=
  [(row_doc 1 2, None); (row_doc 3 4, Some (with_ttl 5)); (row_doc 5 6, None); ([(js "id", num 1)], None)].

Lemma insert_cache_transparent_witness :
  Insert.run_inserts (counting_client 0) sample_info sample_inserts new_handler 0%nat = Insert.make sample_info <$> sample_inserts /\
  is_ok <$> (Insert.make sample_info <$> sample_inserts) = [true; true; true; false].
Proof.
  split; [|vm_compute; reflexivity]. apply Insert.insert_cache_transparent; [reflexivity|].
  repeat apply Forall_cons_2; [| | | |apply Forall_nil_2]; (split; [discriminate|..|reflexivity]); repeat constructor.
Defined.

Definition sample_selects : list Select.request :=
  [(range 1 2, None); (range 3 4, Some (with_limit 5)); (range 5 6, None); (row_doc 1 2, None)].

Lemma select_cache_transparent_witness :
  Select.run_selects (counting_client 0) sample_info false sample_selects new_handler 0%nat
  = Select.make_select sample_info false <$> sample_selects /\
  is_ok <$> (Select.make_select sample_info false <$> sample_selects) = [true; true; true; true].
Proof.
  split; [|vm_compute; reflexivity]. apply Select.select_cache_transparent; [reflexivity|].
  repeat apply Forall_cons_2; [| | | |apply Forall_nil_2]; (split; [discriminate|..]); repeat constructor.
Defined.

Definition sample_row : Row.t := Row.mk [js "id"; js "added_on"] [(js "id", JBool true); (js "added_on", JBool false)].
Definition sample_rs : resultSet :=
  mkResultSet (Some [(js "id", dataTypes.boolean); (js "added_on", dataTypes.boolean)]) (ResultSet.mk (Some [sample_row]) 1 None None None).

Lemma row_mapped_witness :
  exists adapter item, ResultMapper.getSelectAdapter sample_info sample_rs = Ok adapter /\
    ResultMapper.run_adapter sample_info adapter sample_row = Ok (Some item) /\
    lookup_prop (js "id") item = Some (JBool true) /\ lookup_prop (js "addedOn") item = Some (JBool false).
Proof.
  destruct (Rows.row_mapped sample_info sample_rs sample_row [(js "id", dataTypes.boolean); (js "added_on", dataTypes.boolean)]
    [JBool true; JBool false] eq_refl) as (adapter & item & H1 & H2 & H3).
  - repeat constructor.
  - repeat constructor.
  - exact (bool_decide_eq_true_1 (NoDup [js "id"; js "addedOn"]) eq_refl).
  - exact (bool_decide_eq_true_1 (proto ∉ [js "id"; js "addedOn"]) eq_refl).
  - reflexivity.
  - exists adapter, item. apply Forall2_cons_1 in H3 as [H3 H4]. apply Forall2_cons_1 in H4 as [H4 _]. done.
Defined.

(** ** Where the caches show *)

(** The text of the query of an executor. *)
Definition executor_query (r : result (nat * executor)) : option jsstr :=
  match r with Ok (_, SingleExecutor q) => Some (QueryGenerator.query q) | _ => None end.

Definition with_condition (name : jsstr) : docInfo :=
  mkDocInfo [] JUndefined None JUndefined JUndefined JUndefined (Some [(name, num 0)]) JUndefined.

Definition named (a b c : Z) : document := row_doc a b ++ [(js "name", num c)].

(** The conditions of an update follow its properties without a separator: an update with
    a condition on a column runs the query of one that sets this column. *)
Lemma update_condition_lost :
  let first := named 1 2 3 ++ [(js "owner", num 4)] in
  Cache.getUpdateKey (keys_of first) first None
  = Cache.getUpdateKey (keys_of (named 5 6 7)) (named 5 6 7) (Some (with_condition (js "owner"))) /\
  let '(r1, h, w) := getUpdateExecutor (counting_client 0) sample_info first None new_handler 0%nat in
  let '(r2, _, _) := getUpdateExecutor (counting_client 0) sample_info (named 5 6 7) (Some (with_condition (js "owner"))) h w in
  let '(r3, _, _) := getUpdateExecutor (counting_client 0) sample_info (named 5 6 7) (Some (with_condition (js "owner"))) new_handler w in
  executor_query r2 = executor_query r1 /\ executor_query r3 <> executor_query r1 /\ executor_query r3 <> None.
Proof. split; [reflexivity|]. vm_compute. repeat split; discriminate. Qed.

(** [find] and [get] share the cache: a partial key that [find] was given is then
    accepted by [get]. *)
Lemma get_after_find :
  let doc := [(js "id", num 1)] in
  let '(r1, h, w) := getSelectExecutor (counting_client 0) sample_info doc None false new_handler 0%nat in
  let '(r2, _, _) := getSelectExecutor (counting_client 0) sample_info doc None true h w in
  let '(r3, _, _) := getSelectExecutor (counting_client 0) sample_info doc None true new_handler w in
  is_ok r2 = true /\ r3 = Err (PlainError "No table matches the filter").
Proof. vm_compute. split; reflexivity. Qed.

(** A truthy value that is not true marks the key of an insert but not its query. *)
Lemma truthy_if_not_exists :
  let '(r1, h, w) := getInsertExecutor (counting_client 0) sample_info (row_doc 1 2) (Some (if_not_exists (JString (js "yes")))) new_handler 0%nat in
  let '(r2, _, _) := getInsertExecutor (counting_client 0) sample_info (row_doc 1 2) (Some (if_not_exists (JBool true))) h w in
  let '(r3, _, _) := getInsertExecutor (counting_client 0) sample_info (row_doc 1 2) (Some (if_not_exists (JBool true))) new_handler w in
  executor_query r2 = executor_query r1 /\ executor_query r3 <> executor_query r1.
Proof. vm_compute. split; [reflexivity|discriminate]. Qed.

Definition first_query (r : result (list QueryGenerator.queryInfo)) : option jsstr :=
  match r with Ok (q :: _) => Some (QueryGenerator.query q) | _ => None end.

(** The items of a batch: a removal uses the cache of the updates, and so runs the UPDATE
    that was made for a document of the same shape. *)
Lemma batch_remove_updates :
  let '(r1, b, w) := getQueries (counting_client 0) sample_info (batch_update (named 1 2 3) None) new_ModelBatchMapper 0%nat in
  let '(r2, _, _) := getQueries (counting_client 0) sample_info (batch_remove (named 1 2 3) None) b w in
  first_query r2 = first_query r1 /\ option_map (take 6) (first_query r2) = Some (js "UPDATE").
Proof. vm_compute. split; reflexivity. Qed.

(** The promise of the queries of a batch item is kept even when it is rejected. *)
Lemma batch_keeps_error :
  let '(r1, b, w) := getQueries (counting_client 1) sample_info (batch_insert (row_doc 1 2) None) new_ModelBatchMapper 0%nat in
  let '(r2, _, w') := getQueries (counting_client 1) sample_info (batch_insert (row_doc 1 2) None) b w in
  r1 = Err (PlainError "NoHostAvailable") /\ r2 = r1 /\ w' = w.
Proof. vm_compute. repeat split. Qed.

(** The result of a mutation has no rows: it is an empty array, but iterating it throws. *)
Lemma void_result_iteration :
  let r := Result.constructor void sample_info (ResultMapper.getMutationAdapter void) in
  Result.toArray r = Ok [] /\ is_ok (Result.iterator r) = false /\ is_ok (Result.forEach r) = false.
Proof. vm_compute. repeat split. Qed.

End Samples.

(** ** Batches *)

(** The order in which the items of a batch complete does not matter to what is sent,
    but for the order of the statements and the counter flag. *)
Lemma batch_of_permutation done done' : done ≡ₚ done' ->
  pu_queries (batch_of done) ≡ₚ pu_queries (batch_of done') /\ pu_isIdempotent (batch_of done) = pu_isIdempotent (batch_of done').
Proof.
  intros Hp. cbn [batch_of pu_queries pu_isIdempotent]. split; [by rewrite Hp|].
  assert (E : forall l b, fold_left (fun acc p => acc && pu_isIdempotent p) l b = b && forallb pu_isIdempotent l).
  { induction l as [|x l IH]; intros b; cbn; [by rewrite andb_true_r|]. by rewrite IH, andb_assoc. }
  rewrite !E. cbn. apply eq_true_iff_eq. rewrite !forallb_forall.
  split; intros H x Hx; apply H; [by rewrite Hp|by rewrite <- Hp].
Qed.
