(* ===== verification/ClientOptions.v ===== *)
(** * Client options

    lib/client-options.js and [deepExtend] of lib/utils.js: the defaults, their merging with
    the options of the user, the validation, and the options given to the Rust layer;
    the retry policies and address translators as far as these read them
    (lib/policies/retry.js, lib/policies/address-resolution.js).

    An option is a value of the language.  An object written with braces is merged, an
    instance of a class is not; of a class only what the code tests is known.  No object
    has properties of its own named [__proto__] or [constructor], or getters.

    The theorems: a setting is the user's where the user gave one and the default
    elsewhere; options that pass the validation have the types the driver relies on; the
    TLS options given to the Rust layer are complete and consistent; the session carries the
    credentials, the TLS options and the other options given. *)

From stdpp Require Import list.
From S2P Require Import Prelude JsNumber Buffer JsString Float NumText Utf8 ProtocolVersion ValueTypes CqlTypes JsValue Collections Mapping.

(** ** Values *)

Inductive retryKind : Type := RetryPolicy | FallthroughRetryPolicy | DerivedRetryPolicy.

(** What is tested with [instanceof] or [constructor]. *)
Inductive cls : Type :=
| LoadBalancingPolicy (config : result nat)         (** what [getRustConfiguration] gives *)
| ReconnectionPolicy
| Retry (kind : retryKind)
| AddressTranslator
| MappingAddressTranslator (mapping : list (jsstr * jsstr))
| DerivedAddressTranslator
| TimestampGenerator
| RequestTracker
| ClientMetrics
| NoAuthProvider
| PlainTextAuthProvider (username password : jsstr)
| OtherAuthProvider
| OtherClass.

Local Unset Elimination Schemes.
Inductive oval : Type :=
| OUndefined
| ONull
| OBool (b : bool)
| ONumber (x : number)
| OBigInt (z : Z)
| OString (s : jsstr)
| OBuffer (b : bytes)
| OUuid (u : Uuid.t)
| OArray (l : list oval)
| OObject (fields : list (jsstr * oval))
| OInstance (c : cls) (fields : list (jsstr * oval))
| OFunction (prototype : list jsstr).               (** the methods of its prototype *)
Local Set Elimination Schemes.

Definition object : Type := list (jsstr * oval).

Definition o_truthy (v : oval) : bool :=
  match v with
  | OUndefined | ONull => false
  | OBool b => b
  | ONumber x => truthy (JNumber x)
  | OBigInt z => negb (z =? 0)
  | OString s => negb (is_empty s)
  | _ => true
  end.

(** [o[k]] of own properties *)
Definition field (o : object) (k : string) : oval := default OUndefined (lookup_prop (js k) o).

(** The own enumerable properties of a value. *)
Definition own (v : oval) : object :=
  match v with
  | OObject f | OInstance _ f => f
  | OArray l => imap (fun i x => (dec_str (Z.of_nat i), x)) l
  | OString s => imap (fun i c => (dec_str (Z.of_nat i), OString [c])) s
  | OBuffer b => imap (fun i c => (dec_str (Z.of_nat i), ONumber (num_of_Z c))) b
  | _ => []
  end.

(** ** deepExtend *)

(** A value that is extended rather than replaced. *)
Definition is_plain (v : oval) : bool := match v with OObject _ => true | _ => false end.

(** [deepExtend({}, target)] of a value that is extended: a copy. *)
Definition copy (o : object) : object := fold_left (fun m e => set_prop (fst e) (snd e) m) o [].

(** The value of a property that was [old] when a string of one character is merged into it:
    the character is in turn the property 0 of that string. *)
Fixpoint merge_char (c : Z) (old : oval) : oval :=
  match old with
  | OObject f =>
      OObject (set_prop (js "0")
        ((fix find (f : object) : oval :=
            match f with
            | [] => OString [c]
            | e :: f => match e with (k, v) => if bool_decide (k = js "0") then merge_char c v else find f end
            end) f) (copy f))
  | _ => OString [c]
  end.

(** One source. *)
Fixpoint extend_one (target : object) (source : oval) : object :=
  let assign (target : object) (k : jsstr) (v : oval) : object :=
    set_prop k
      (match lookup_prop k target with
       | Some (OObject t) => OObject (extend_one (copy t) v)
       | _ => v
       end) target in
  match source with
  | OObject f | OInstance _ f =>
      (fix go (target : object) (f : object) : object :=
         match f with
         | [] => target
         | e :: f => match e with (k, v) => go (assign target k v) f end
         end) target f
  | OArray l =>
      (fix go (i : nat) (target : object) (l : list oval) : object :=
         match l with
         | [] => target
         | v :: l => go (S i) (assign target (dec_str (Z.of_nat i)) v) l
         end) 0%nat target l
  | OString s =>
      (fix go (i : nat) (target : object) (s : jsstr) : object :=
         match s with
         | [] => target
         | c :: s =>
             go (S i)
               (set_prop (dec_str (Z.of_nat i))
                  (merge_char c (default OUndefined (lookup_prop (dec_str (Z.of_nat i)) target))) target) s
         end) 0%nat target s
  | OBuffer b =>
      (fix go (i : nat) (target : object) (b : bytes) : object :=
         match b with
         | [] => target
         | x :: b =>
             go (S i)
               (set_prop (dec_str (Z.of_nat i))
                  (match lookup_prop (dec_str (Z.of_nat i)) target with
                   | Some (OObject t) => OObject (copy t)
                   | _ => ONumber (num_of_Z x)
                   end) target) b
         end) 0%nat target b
  | _ => target
  end.

Definition deepExtend (target : object) (sources : list oval) : object := fold_left extend_one sources target.

(** ** Defaults *)

Definition onum (z : Z) : oval := ONumber (num_of_Z z).
Definition obj (l : list (string * oval)) : oval := OObject ((fun e => (js (fst e), snd e)) <$> l).
Definition inst (c : cls) : oval := OInstance c [].

(** [lb] is the configuration of the default load balancing policy. *)
Definition defaultOptions (lb : nat) : oval :=
  obj [
    ("policies", obj [
      ("addressResolution", inst AddressTranslator);
      ("loadBalancing", inst (LoadBalancingPolicy (Ok lb)));
      ("reconnection", inst ReconnectionPolicy);
      ("retry", inst (Retry RetryPolicy));
      ("speculativeExecution", inst OtherClass);
      ("timestampGeneration", inst TimestampGenerator)]);
    ("queryOptions", obj [
      ("fetchSize", onum 5000); ("prepare", OBool false); ("captureStackTrace", OBool false); ("paged", OBool true)]);
    ("protocolOptions", obj [
      ("port", onum 9042); ("maxSchemaAgreementWaitSeconds", onum 10); ("maxVersion", onum 0)]);
    ("pooling", obj [("heartBeatInterval", onum 30000); ("warmup", OBool true)]);
    ("socketOptions", obj [
      ("connectTimeout", onum 5000); ("defunctReadTimeoutThreshold", onum 64); ("keepAlive", OBool true);
      ("keepAliveDelay", onum 0); ("readTimeout", onum 12000); ("tcpNoDelay", OBool true); ("coalescingThreshold", onum 65536)]);
    ("authProvider", ONull);
    ("requestTracker", ONull);
    ("metrics", inst ClientMetrics);
    ("maxPrepared", ONull);
    ("refreshSchemaDelay", onum 1000);
    ("prepareOnAllHosts", OBool true);
    ("rePrepareOnUp", OBool true);
    ("encoding", obj [
      ("copyBuffer", OBool true); ("useUndefinedAsUnset", OBool true); ("useBigIntAsLong", OBool true);
      ("useBigIntAsVarint", OBool true)]);
    ("logLevel", OString (js "warning"))].

(** ** Validation *)

Definition type_error {A} (msg : string) : result A := Err (TypeError msg).

Definition is_loadBalancing (v : oval) : bool := match v with OInstance (LoadBalancingPolicy _) _ => true | _ => false end.
Definition is_reconnection (v : oval) : bool := match v with OInstance ReconnectionPolicy _ => true | _ => false end.
Definition is_retry (v : oval) : bool := match v with OInstance (Retry _) _ => true | _ => false end.
Definition is_translator (v : oval) : bool :=
  match v with
  | OInstance AddressTranslator _ | OInstance (MappingAddressTranslator _) _ | OInstance DerivedAddressTranslator _ => true
  | _ => false
  end.
Definition is_timestampGenerator (v : oval) : bool := match v with OInstance TimestampGenerator _ => true | _ => false end.
Definition is_tracker (v : oval) : bool := match v with OInstance RequestTracker _ => true | _ => false end.
Definition is_metrics (v : oval) : bool := match v with OInstance ClientMetrics _ => true | _ => false end.
Definition is_authProvider (v : oval) : bool :=
  match v with
  | OInstance NoAuthProvider _ | OInstance (PlainTextAuthProvider _ _) _ | OInstance OtherAuthProvider _ => true
  | _ => false
  end.
Definition is_null (v : oval) : bool := match v with ONull => true | _ => false end.

Definition validatePoliciesOptions (policies : oval) : result unit :=
  if negb (o_truthy policies) then type_error "policies not defined in options"
  else
    let p := own policies in
    if negb (is_loadBalancing (field p "loadBalancing")) then
      type_error "Load balancing policy must be an instance of LoadBalancingPolicy"
    else if negb (is_reconnection (field p "reconnection")) then
      type_error "Reconnection policy must be an instance of ReconnectionPolicy"
    else if negb (is_retry (field p "retry")) then type_error "Retry policy must be an instance of RetryPolicy"
    else if negb (is_translator (field p "addressResolution")) then
      type_error "Address resolution policy must be an instance of AddressTranslator"
    else if negb (is_null (field p "timestampGeneration")) && negb (is_timestampGenerator (field p "timestampGeneration")) then
      type_error "Timestamp generation policy must be an instance of TimestampGenerator"
    else Ok tt.

(** [types.protocolVersion.isSupported] of a Number *)
Definition version_supported (x : number) : bool := negb (is_nan x) && negb (num_gtZ x 4) && negb (num_ltZ x 1).

Definition validateProtocolOptions (protocolOptions : oval) : result unit :=
  if negb (o_truthy protocolOptions) then type_error "protocolOptions not defined in options"
  else
    let version := field (own protocolOptions) "maxVersion" in
    if o_truthy version && negb (match version with ONumber x => version_supported x | _ => false end) then
      type_error "protocolOptions.maxVersion provided is invalid"
    else Ok tt.

(** [v <= 0] of a Number *)
Definition not_positive (x : number) : bool := negb (is_nan x) && negb (num_gtZ x 0).

Definition validateSocketOptions (socketOptions : oval) : result unit :=
  if negb (o_truthy socketOptions) then type_error "socketOptions not defined in options"
  else
    let s := own socketOptions in
    match field s "readTimeout" with
    | ONumber _ =>
        match field s "coalescingThreshold" with
        | ONumber x => if not_positive x then type_error "socketOptions.coalescingThreshold must be a positive Number" else Ok tt
        | _ => type_error "socketOptions.coalescingThreshold must be a positive Number"
        end
    | _ => type_error "socketOptions.readTimeout must be a Number"
    end.

Definition is_string (v : oval) : bool := match v with OString _ => true | _ => false end.

(** [options[k] = v] *)
Definition assign_option (k : string) (v : oval) (o : object) : object := set_prop (js k) v o.

(** The options with their authentication provider. *)
Definition validateAuthenticationOptions (options : object) : result object :=
  if negb (o_truthy (field options "authProvider")) then
    let credentials := field options "credentials" in
    if o_truthy credentials then
      if negb (is_string (field (own credentials) "username")) || negb (is_string (field (own credentials) "password")) then
        type_error "credentials username and password must be a string"
      else Ok options
    else Ok (assign_option "authProvider" (inst NoAuthProvider) options)
  else if negb (is_authProvider (field options "authProvider")) then
    type_error "options.authProvider must be an instance of AuthProvider"
  else Ok options.

(** A constructor whose prototype has two methods. *)
Definition has_methods (v : oval) (a b : string) : bool :=
  match v with OFunction methods => bool_decide (js a ∈ methods) && bool_decide (js b ∈ methods) | _ => false end.

Definition validateEncodingOptions (encodingOptions : oval) : result unit :=
  let e := own encodingOptions in
  if o_truthy (field e "map") && negb (has_methods (field e "map") "forEach" "set") then type_error "Map constructor not valid"
  else if o_truthy (field e "set") && negb (has_methods (field e "set") "forEach" "add") then type_error "Set constructor not valid"
  else Ok tt.

Definition validLogLevels : list jsstr := js <$> ["trace"; "debug"; "info"; "warning"; "error"; "off"]%string.

Definition valid_logLevel (v : oval) : bool :=
  match v with OUndefined => true | OString s => bool_decide (s ∈ validLogLevels) | _ => false end.

Definition validateLogLevel (logLevel : oval) : result unit :=
  if negb (valid_logLevel logLevel) then type_error "logLevel must be one of" else Ok tt.

(** Null, undefined or a string. *)
Definition optional_string (v : oval) : bool :=
  match v with ONull | OUndefined | OString _ => true | _ => false end.

Definition validateApplicationInfo (options : object) : result unit :=
  if negb (optional_string (field options "applicationName")) then type_error "applicationName should be a String"
  else if negb (optional_string (field options "applicationVersion")) then type_error "applicationVersion should be a String"
  else match field options "id" with
       | ONull | OUndefined | OUuid _ | OString _ => Ok tt
       | _ => type_error "Client id must be either a Uuid or a string"
       end.

Definition validate_contactPoints (v : oval) : result unit :=
  match v with
  | OArray [] => type_error "Contacts points are not defined."
  | OArray l => if forallb o_truthy l then Ok tt else type_error "Contact point is not a valid host name"
  | _ => type_error "Contacts points are not defined."
  end.

(** [extend(baseOptions, userOptions)]; with one argument [baseOptions] is empty. *)
Definition extend (lb : nat) (baseOptions : object) (userOptions : oval) : result object :=
  let options := deepExtend baseOptions [defaultOptions lb; userOptions] in
  _ ← validate_contactPoints (field options "contactPoints");
  let options := assign_option "sni" OUndefined options in
  let options := if o_truthy (field options "logEmitter") then options else assign_option "logEmitter" (OFunction []) options in
  if negb (o_truthy (field options "queryOptions")) then type_error "queryOptions not defined in options"
  else if negb (is_null (field options "requestTracker")) && negb (is_tracker (field options "requestTracker")) then
    type_error "requestTracker must be an instance of RequestTracker"
  else if negb (is_metrics (field options "metrics")) then type_error "metrics must be an instance of ClientMetrics"
  else
    _ ← validatePoliciesOptions (field options "policies");
    _ ← validateProtocolOptions (field options "protocolOptions");
    _ ← validateSocketOptions (field options "socketOptions");
    options ← validateAuthenticationOptions options;
    let options := assign_option "encoding"
      (if o_truthy (field options "encoding") then field options "encoding" else OObject []) options in
    _ ← validateEncodingOptions (field options "encoding");
    _ ← validateLogLevel (field options "logLevel");
    if o_truthy (field options "profiles") && negb (match field options "profiles" with OArray _ => true | _ => false end) then
      type_error "profiles must be an Array of ExecutionProfile instances"
    else
      _ ← validateApplicationInfo options;
      Ok options.

(** ** Options of the Rust layer *)

(** [value.toString("binary")] keeps every byte as a code unit. *)
Definition normalizeKey (value : oval) : result oval :=
  match value with
  | OString _ => Ok value
  | OBuffer b => Ok (OString b)
  | _ => type_error "Unexpected type. Expected to be string or buffer"
  end.

Inductive tlsVersion : Type := Tlsv1 | Tlsv1_1 | Tlsv1_2 | Tlsv1_3.

(** The numbers of the enumeration of the Rust layer. *)
Definition tls_code (v : tlsVersion) : oval :=
  onum (match v with Tlsv1 => 0 | Tlsv1_1 => 1 | Tlsv1_2 => 2 | Tlsv1_3 => 3 end).

Definition convertTlsVersion `{UpperCase} (value : oval) : result tlsVersion :=
  match value with
  | OString s =>
      let u := toUpperCase s in
      if bool_decide (u = js "TLSV1") then Ok Tlsv1
      else if bool_decide (u = js "TLSV1.1") then Ok Tlsv1_1
      else if bool_decide (u = js "TLSV1.2") then Ok Tlsv1_2
      else if bool_decide (u = js "TLSV1.3") then Ok Tlsv1_3
      else type_error "Invalid TLS version"
  | _ => type_error "TLS version must be a string"
  end.

(** The text of a value that is no primitive value, as a conversion to a Number or BigInt takes
    it: that of an object or of a function is no number. *)
Fixpoint o_text (v : oval) : jsstr :=
  match v with
  | OUndefined | ONull => []
  | OBool b => js (if b then "true" else "false")
  | ONumber x => num_to_string x
  | OBigInt z => int_str z
  | OString s => s
  | OBuffer b => utf8_decode b
  | OUuid u => Uuid.toString u
  | OArray l => join (js ",") (o_text <$> l)
  | _ => js "[object Object]"
  end.

(** [BigInt(v)] *)
Definition o_bigint (v : oval) : result oval :=
  match v with
  | ONumber x => z ← number_to_bigint x; Ok (OBigInt z)
  | OBigInt z => Ok v
  | OBool b => Ok (OBigInt (if b then 1 else 0))
  | OUndefined | ONull => type_error "Cannot convert to a BigInt"
  | _ => z ← string_to_bigint (o_text v); Ok (OBigInt z)
  end.

(** [if (o[k]) o[k] = f(o[k])] *)
Definition update_if (k : string) (f : oval -> result oval) (o : object) : result object :=
  if o_truthy (field o k) then v ← f (field o k); Ok (assign_option k v o) else Ok o.

Definition normalize_ca (v : oval) : result oval :=
  l ← traverse normalizeKey (match v with OArray l => l | _ => [v] end); Ok (OArray l).

(** [options] are the properties of the TLS options. *)
Definition normalizeSslOptions `{UpperCase} (options : object) : result object :=
  let normalized := copy options in
  normalized ← update_if "ca" normalize_ca normalized;
  normalized ← update_if "cert" normalizeKey normalized;
  normalized ← update_if "dhparam" normalizeKey normalized;
  normalized ← update_if "key" normalizeKey normalized;
  normalized ← update_if "pfx" normalizeKey normalized;
  normalized ← update_if "minVersion" (fun v => t ← convertTlsVersion v; Ok (tls_code t)) normalized;
  normalized ← update_if "maxVersion" (fun v => t ← convertTlsVersion v; Ok (tls_code t)) normalized;
  normalized ← update_if "secureOptions" o_bigint normalized;
  if xorb (o_truthy (field normalized "cert")) (o_truthy (field normalized "key")) then
    Err (ArgumentError "Both cert and key must be provided together in sslOptions.")
  else if o_truthy (field normalized "pfx") && o_truthy (field normalized "cert") then
    Err (ArgumentError "Only one of (pfx) or (cert with key) must be provided in sslOptions.")
  else Ok normalized.

(** [getRustConfiguration] of the retry policies *)
Inductive retryPolicyKind : Type := DefaultRetry | FallthroughRetry.

Definition retry_getRustConfiguration (k : retryKind) : result retryPolicyKind :=
  match k with
  | RetryPolicy => Ok DefaultRetry
  | FallthroughRetryPolicy => Ok FallthroughRetry
  | DerivedRetryPolicy => type_error "Currently only built-in retry policies are supported."
  end.

(** The options of a session; what is undefined is none. *)
Record sessionOptions : Type := mkSession {
  connectPoints : oval;
  s_applicationName : oval;
  s_applicationVersion : oval;
  clientId : oval;
  s_keyspace : oval;
  cacheSize : option oval;
  credentialsUsername : option oval;
  credentialsPassword : option oval;
  loadBalancingConfig : option nat;
  retryPolicy : option retryPolicyKind;
  addressMapping : option (list (jsstr * jsstr));
  sslOptions : option object }.

(** The user name and password. *)
Definition rust_credentials (options : object) : result (option (oval * oval)) :=
  let credentials := field options "credentials" in
  if o_truthy credentials then Ok (Some (field (own credentials) "username", field (own credentials) "password"))
  else if o_truthy (field options "authProvider") then
    match field options "authProvider" with
    | OInstance (PlainTextAuthProvider username password) _ => Ok (Some (OString username, OString password))
    | OInstance NoAuthProvider _ => Ok None
    | _ => Err (ArgumentError "Unsupported auth provider")
    end
  else Ok None.

Definition rust_loadBalancing (policies : object) : result (option nat) :=
  let v := field policies "loadBalancing" in
  if o_truthy v then
    match v with
    | OInstance (LoadBalancingPolicy (Ok config)) _ => Ok (Some config)
    | _ => Err (PlainError "This load balancing policy does not appear to be supported by the driver")
    end
  else Ok None.

Definition rust_retry (policies : object) : result (option retryPolicyKind) :=
  let v := field policies "retry" in
  if o_truthy v then
    match v with
    | OInstance (Retry k) _ =>
        match retry_getRustConfiguration k with
        | Ok c => Ok (Some c)
        | Err _ => Err (PlainError "This retry policy does not appear to be supported by the driver")
        end
    | _ => Err (PlainError "This retry policy does not appear to be supported by the driver")
    end
  else Ok None.

Definition rust_addresses (policies : object) : result (option (list (jsstr * jsstr))) :=
  let v := field policies "addressResolution" in
  if o_truthy v then
    match v with
    | OInstance AddressTranslator _ => Ok None
    | OInstance (MappingAddressTranslator mapping) _ => Ok (Some mapping)
    | _ => Err (PlainError "Currently only MappingAddressTranslator is supported as address resolution policy")
    end
  else Ok None.

Definition is_undefined (v : oval) : bool := match v with OUndefined => true | _ => false end.

Definition throwNotSupported {A} : result A := Err (ReferenceError "is not supported by our driver").

(** The options given to the Rust layer. *)
Definition session_options `{UpperCase} (options : object) : result sessionOptions :=
  credentials ← rust_credentials options;
  let policies := own (field options "policies") in
  lb ← rust_loadBalancing policies;
  retry ← rust_retry policies;
  mapping ← rust_addresses policies;
  ssl ← (if o_truthy (field options "sslOptions") then o ← normalizeSslOptions (own (field options "sslOptions")); Ok (Some o)
         else Ok None);
  _ ← (if o_truthy (field options "protocolOptions") &&
          negb (is_undefined (field (own (field options "protocolOptions")) "noCompact")) then throwNotSupported else Ok tt);
  _ ← (if negb (is_undefined (field options "cloud")) then throwNotSupported else Ok tt);
  _ ← (if negb (is_undefined (field options "monitorReporting")) then throwNotSupported else Ok tt);
  Ok (mkSession (field options "contactPoints") (field options "applicationName") (field options "applicationVersion")
        (field options "id") (field options "keyspace")
        (if o_truthy (field options "maxPrepared") then Some (field options "maxPrepared") else None)
        (fst <$> credentials) (snd <$> credentials) lb retry mapping ssl).

(** The options, whose identifier becomes text, and those of the Rust layer. *)
Definition setRustOptions `{UpperCase} (options : object) : object * result sessionOptions :=
  let options := match field options "id" with
                 | OUuid u => assign_option "id" (OString (Uuid.toString u)) options
                 | _ => options
                 end in
  (options, session_options options).

(** The options of a new client, whose [emit] is a function and to which [id] is given. *)
Definition client_options `{UpperCase} (lb : nat) (id : Uuid.t) (options : oval) : result (object * sessionOptions) :=
  options ← extend lb [(js "logEmitter", OFunction []); (js "id", OUuid id)] options;
  let (options, rust) := setRustOptions options in
  rustOptions ← rust; Ok (options, rustOptions).

(** ** Options that depend on the protocol version *)

Definition coreConnectionsPerHostV2 : oval := obj [("0", onum 2); ("1", onum 1); ("2", onum 0)].
Definition coreConnectionsPerHostV3 : oval := obj [("0", onum 1); ("1", onum 1); ("2", onum 0)].
Definition maxRequestsPerConnectionV2 : Z := 128.
Definition maxRequestsPerConnectionV3 : Z := 2048.

(** [o[k] = v] of a value; that of a primitive value is lost. *)
Definition put (v : oval) (k : string) (x : oval) : oval :=
  match v with
  | OObject f => OObject (assign_option k x f)
  | OInstance c f => OInstance c (assign_option k x f)
  | _ => v
  end.

(** [version] is that of the control connection and [isDbaas] what the metadata tells. *)
Definition setMetadataDependent (version : Z) (isDbaas : bool) (options : object) : result object :=
  let '(core, max) :=
    if negb (protocolVersion.uses2BytesStreamIds version) then (coreConnectionsPerHostV2, maxRequestsPerConnectionV2)
    else (coreConnectionsPerHostV3, maxRequestsPerConnectionV3) in
  options ← (match field options "queryOptions" with
             | OUndefined | ONull => type_error "Cannot read properties of undefined"
             | q =>
                 if is_undefined (field (own q) "consistency") then
                   Ok (assign_option "queryOptions" (put q "consistency" (onum (if isDbaas then 6 else 10))) options)
                 else Ok options
             end);
  Ok (assign_option "pooling"
        (OObject (deepExtend [] [obj [("coreConnectionsPerHost", core); ("maxRequestsPerConnection", onum max)];
                                 field options "pooling"])) options).

(** ** Merging *)

(** A property once the value [v] of a source is merged into it. *)
Definition merged (old : option oval) (v : oval) : oval :=
  match old with Some (OObject t) => OObject (extend_one (copy t) v) | _ => v end.

(** An object as the language has them: one value for each name. *)
Definition distinct (o : object) : Prop := NoDup (fst <$> o) /\ proto ∉ fst <$> o.

Lemma lookup_prop_absent {A} k (l : list (jsstr * A)) : k ∉ fst <$> l -> lookup_prop k l = None.
Proof.
  induction l as [|e l IH]; [done|]. rewrite fmap_cons, not_elem_of_cons. intros [H1 H2].
  rewrite lookup_prop_cons, bool_decide_false by congruence. auto.
Qed.

Lemma distinct_cons k v (o : object) : distinct ((k, v) :: o) -> k <> proto /\ lookup_prop k o = None /\ distinct o.
Proof.
  intros [H1 H2]. rewrite fmap_cons in H1, H2. inversion_clear H1 as [|? ? H0 H3]. apply not_elem_of_cons in H2 as [H2 H4].
  split; [by apply not_eq_sym|]. split; [by apply lookup_prop_absent|done].
Qed.

Lemma lookup_extend_object k (f target : object) :
  distinct f ->
  lookup_prop k (extend_one target (OObject f))
  = match lookup_prop k f with Some v => Some (merged (lookup_prop k target) v) | None => lookup_prop k target end.
Proof.
  revert target. induction f as [|[k' v] f IH]; intros target Hf; [done|].
  apply distinct_cons in Hf as (Hk & Hn & Hf).
  change (extend_one target (OObject ((k', v) :: f)))
    with (extend_one (set_prop k' (merged (lookup_prop k' target) v) target) (OObject f)).
  rewrite IH, lookup_prop_cons by done. cbn [fst snd]. rewrite lookup_set_prop by done.
  case_bool_decide as E; [|done]. subst k'. by rewrite Hn.
Qed.

Lemma lookup_copy k (o : object) : distinct o -> lookup_prop k (copy o) = lookup_prop k o.
Proof.
  intros Ho. unfold copy.
  enough (G : forall acc, lookup_prop k (fold_left (fun m e => set_prop (fst e) (snd e) m) o acc)
          = match lookup_prop k o with Some v => Some v | None => lookup_prop k acc end).
  { rewrite G. by destruct (lookup_prop k o). }
  induction o as [|[k' v] o IH]; intros acc; [done|]. apply distinct_cons in Ho as (Hk & Hn & Ho).
  cbn [fold_left fst snd]. rewrite (IH Ho), lookup_prop_cons, lookup_set_prop by done. cbn [fst snd].
  case_bool_decide as E; [|done]. subst k'. by rewrite Hn.
Qed.

(** The value found along a path of names. *)
Fixpoint walk (p : list jsstr) (v : oval) : option oval :=
  match p with
  | [] => Some v
  | k :: p => match v with OObject f => match lookup_prop k f with Some v => walk p v | None => None end | _ => None end
  end.

(** Objects with distinct names, at any depth. *)
Definition distinct_within (v : oval) : Prop := forall p f, walk p v = Some (OObject f) -> distinct f.

Lemma distinct_within_field k f v : distinct_within (OObject f) -> lookup_prop k f = Some v -> distinct_within v.
Proof. intros H Hk p g Hp. apply (H (k :: p)). cbn [walk]. by rewrite Hk. Qed.

(** A path is left open by a value when an object along it lacks the next name. *)
Fixpoint silent (p : list jsstr) (v : oval) : bool :=
  match p with
  | [] => false
  | k :: p =>
      match v with
      | OObject f => match lookup_prop k f with Some v => silent p v | None => true end
      | _ => false
      end
  end.

Lemma walk_silent p v : silent p v = true -> walk p v = None.
Proof.
  revert v. induction p as [|k p IH]; intros v; [done|]. cbn [silent walk].
  destruct v; try done. destruct (lookup_prop k fields); [apply IH|done].
Qed.

(** A value without properties: it cannot be merged into an object. *)
Definition bare (v : oval) : bool :=
  match v with OUndefined | ONull | OBool _ | ONumber _ | OBigInt _ | OUuid _ | OFunction _ => true | _ => false end.

Lemma extend_bare target v : bare v = true -> extend_one target v = target.
Proof. by destruct v. Qed.

(** A bare value of the user is not the object of the user itself. *)
Lemma walk_bare k p u w q r v :
  lookup_prop k u = w -> k :: p = q ++ r -> walk q (OObject u) = Some v -> bare v = true ->
  exists q' w', w = Some w' /\ q = k :: q' /\ p = q' ++ r /\ walk q' w' = Some v.
Proof.
  intros Hk Hqr Hq Hb. destruct q as [|k' q]; [cbn in Hq; injection Hq as <-; discriminate Hb|].
  injection Hqr as <- ->. cbn [walk] in Hq. rewrite Hk in Hq. destruct w as [w'|]; [|done]. by exists q, w'.
Qed.

(** Either an object is merged into, or the value is replaced. *)
Lemma merged_cases old w :
  (exists o, old = Some (OObject o)) \/
  (merged old w = w /\
   forall q, (forall o, (v ← old; walk q v) <> Some (OObject o)) /\ (q <> [] -> (v ← old; walk q v) = None)).
Proof. destruct old as [[]|]; first [by left; eauto|right; split; [done|]; intros []; done]. Qed.

(** What the object of the defaults [d], copied to [t], and of the user [u] become. *)
Lemma walk_extend p (d t u : object) :
  (forall k, lookup_prop k t = lookup_prop k d) -> distinct_within (OObject d) -> distinct_within (OObject u) ->
  let result := walk p (OObject (extend_one t (OObject u))) in
  (silent p (OObject u) = true -> result = walk p (OObject d)) /\
  (forall v, walk p (OObject u) = Some v -> is_plain v = false ->
     (forall o, walk p (OObject d) <> Some (OObject o)) -> result = Some v) /\
  (forall q r v o, p = q ++ r -> r <> [] -> walk q (OObject u) = Some v -> bare v = true ->
     walk q (OObject d) = Some (OObject o) -> result = walk p (OObject d)).
Proof.
  revert d t u. induction p as [|k p IH]; intros d t u Ht Hd Hu; cbn zeta.
  { split; [done|]. split; [intros v [= <-] Hv; discriminate Hv|].
    intros q r v o Hqr Hr. symmetry in Hqr. apply app_nil in Hqr as [-> ->]. done. }
  cbn [walk silent]. rewrite (lookup_extend_object k) by exact (Hu [] u eq_refl). rewrite Ht.
  destruct (lookup_prop k u) as [w|] eqn:Ek.
  2: { split; [done|]. split; [done|]. intros q r v o Hqr Hr Hq Hb _.
       by destruct (walk_bare _ _ _ _ _ _ _ Ek Hqr Hq Hb) as (? & ? & ? & _). }
  assert (Hw := distinct_within_field _ _ _ Hu Ek).
  destruct (merged_cases (lookup_prop k d) w) as [[d' Ed]|[-> Hn]].
  - assert (Hd' := distinct_within_field _ _ _ Hd Ed). assert (Hc := fun k => lookup_copy k d' (Hd' [] d' eq_refl)).
    rewrite Ed. cbn [merged]. destruct (is_plain w) eqn:Ew; [destruct w as [ | | | | | | | | |u'| |]; try discriminate Ew|].
    + destruct (IH d' (copy d') u' Hc Hd' Hw) as (I1 & I2 & I3). split; [exact I1|]. split; [exact I2|].
      intros q r v o Hqr Hr Hq Hb Ho. destruct (walk_bare _ _ _ _ _ _ _ Ek Hqr Hq Hb) as (q' & w' & [= <-] & -> & -> & Hq').
      cbn [walk] in Ho. rewrite Ed in Ho. by apply (I3 q' r v o).
    + split; [by destruct p, w|]. split; [intros v Hv _ Hno; destruct p; [by destruct (Hno d')|by destruct w]|].
      intros q r v o Hqr Hr Hq Hb Ho. destruct (walk_bare _ _ _ _ _ _ _ Ek Hqr Hq Hb) as (q' & w' & [= <-] & -> & -> & Hq').
      destruct q' as [|k'' q']; [|by destruct w]. injection Hq' as ->.
      rewrite extend_bare by done. destruct r; [done|]. cbn [app walk]. by rewrite Hc.
  - change (match lookup_prop k d with Some v => walk p v | None => None end) with (v ← lookup_prop k d; walk p v).
    split; [intros Hs; rewrite (proj2 (Hn p)) by (by intros ->); by apply walk_silent|]. split; [done|].
    intros q r v o Hqr Hr Hq Hb Ho. destruct (walk_bare _ _ _ _ _ _ _ Ek Hqr Hq Hb) as (q' & w' & _ & -> & _).
    by destruct (proj1 (Hn q') o).
Qed.

(** The test of distinct names. *)
Fixpoint all_distinct (v : oval) : bool :=
  match v with
  | OObject f => bool_decide (NoDup (fst <$> f)) && bool_decide (proto ∉ fst <$> f) &&
                 forallb (fun e => match e with (_, v) => all_distinct v end) f
  | _ => true
  end.

Lemma all_distinct_within v : all_distinct v = true -> distinct_within v.
Proof.
  intros H p. revert v H. induction p as [|k p IH]; intros v H f.
  - intros [= ->]. cbn [all_distinct] in H. apply andb_true_iff in H as [H _]. apply andb_true_iff in H as [H1 H2].
    apply bool_decide_eq_true_1 in H1, H2. done.
  - cbn [walk]. destruct v as [ | | | | | | | | |o| |]; try done. destruct (lookup_prop k o) as [w|] eqn:Ek; [|done].
    apply IH. cbn [all_distinct] in H. apply andb_true_iff in H as [_ H].
    rewrite forallb_forall in H. apply lookup_prop_In, list_elem_of_In in Ek. exact (H _ Ek).
Qed.

Lemma defaults_distinct lb : distinct_within (defaultOptions lb).
Proof. apply all_distinct_within. vm_compute. reflexivity. Qed.

(** C17. The merged options are layered: a setting the user leaves open has its default; a
    setting the user gives has the value given, unless the default is an object with settings
    of its own; and a value without properties given in the place of such an object, null and
    undefined included, leaves every setting of that object at its default. *)
Theorem settings_layered lb user p :
  distinct_within (OObject user) ->
  let options := OObject (deepExtend [] [defaultOptions lb; OObject user]) in
  (silent p (OObject user) = true -> walk p options = walk p (defaultOptions lb)) /\
  (forall v, walk p (OObject user) = Some v -> is_plain v = false ->
     (forall o, walk p (defaultOptions lb) <> Some (OObject o)) -> walk p options = Some v) /\
  (forall q r v o, p = q ++ r -> r <> [] -> walk q (OObject user) = Some v -> bare v = true ->
     walk q (defaultOptions lb) = Some (OObject o) -> walk p options = walk p (defaultOptions lb)).
Proof.
  intros Hu. assert (Hd := defaults_distinct lb). unfold deepExtend. cbn [fold_left].
  assert (E : defaultOptions lb = OObject (own (defaultOptions lb))) by reflexivity.
  set (d := own (defaultOptions lb)) in E. clearbody d. rewrite E in *. clear E. apply walk_extend; [|exact Hd|exact Hu].
  intros k. rewrite lookup_extend_object by exact (Hd [] _ eq_refl). by destruct (lookup_prop k d).
Qed.

Definition sample_user : object :=
  [(js "contactPoints", OArray [OString (js "10.0.0.1")]);
   (js "socketOptions", obj [("readTimeout", onum 500)]);
   (js "queryOptions", ONull)].

Lemma settings_layered_witness :
  let options := OObject (deepExtend [] [defaultOptions 0; OObject sample_user]) in
  walk [js "socketOptions"; js "connectTimeout"] options = Some (onum 5000) /\
  walk [js "socketOptions"; js "readTimeout"] options = Some (onum 500) /\
  walk [js "queryOptions"; js "fetchSize"] options = Some (onum 5000).
Proof.
  assert (H : distinct_within (OObject sample_user)) by (apply all_distinct_within; vm_compute; reflexivity).
  split; [|split].
  - transitivity (walk [js "socketOptions"; js "connectTimeout"] (defaultOptions 0)); [|vm_compute; reflexivity].
    apply (proj1 (settings_layered 0 sample_user _ H)). vm_compute. reflexivity.
  - apply (proj1 (proj2 (settings_layered 0 sample_user _ H))); [vm_compute; reflexivity|reflexivity|].
    intros o. vm_compute. discriminate.
  - transitivity (walk [js "queryOptions"; js "fetchSize"] (defaultOptions 0)); [|vm_compute; reflexivity].
    eapply (proj2 (proj2 (settings_layered 0 sample_user _ H)) [js "queryOptions"] [js "fetchSize"] ONull);
      [reflexivity|discriminate|vm_compute; reflexivity|reflexivity|vm_compute; reflexivity].
Defined.

(** *** Groups of settings *)

Definition is_group (k : jsstr) (o : object) : Prop := exists t, lookup_prop k o = Some (OObject t).

Lemma group_set k k' v (o : object) :
  is_group k o -> (is_group k' o -> exists t, v = OObject t) -> is_group k (set_prop k' v o).
Proof.
  intros Hk Hv. destruct (decide (k' = proto)) as [->|Hp]; [unfold set_prop; by rewrite bool_decide_true|].
  unfold is_group. rewrite lookup_set_prop by done. case_bool_decide as E; [|done]. subst k'.
  destruct (Hv Hk) as [t ->]. by exists t.
Qed.

Lemma group_merged k k' v (o : object) : is_group k o -> is_group k (set_prop k' (merged (lookup_prop k' o) v) o).
Proof. intros Hk. apply group_set; [done|]. intros [t ->]. cbn [merged]. eauto. Qed.

(** No source takes a group of settings away. *)
Lemma group_extend k source target : is_group k target -> is_group k (extend_one target source).
Proof.
  intros Ht. assert (G : forall f target, is_group k target -> is_group k (extend_one target (OObject f))).
  { intros f. induction f as [|[k' v] f IH]; intros target' H; [done|].
    exact (IH _ (group_merged k k' v target' H)). }
  destruct source as [ | | | | |s|b| |l|f|c f|]; try exact Ht; try exact (G f target Ht); cbn [extend_one];
    generalize 0%nat; revert target Ht.
  - induction s as [|c s IH]; intros target Ht i; [done|]. apply IH, group_set; [done|].
    intros [t ->]. cbn [default merge_char]. eauto.
  - induction b as [|x b IH]; intros target Ht i; [done|]. apply IH, group_set; [done|]. intros [t ->]. eauto.
  - induction l as [|v l IH]; intros target Ht i; [done|]. apply IH, (group_merged k (dec_str (Z.of_nat i)) v target Ht).
Qed.

Definition groups : list string := ["policies"; "queryOptions"; "protocolOptions"; "pooling"; "socketOptions"; "encoding"]%string.

Lemma group_defaults lb base k : k ∈ groups -> is_group (js k) (extend_one base (defaultOptions lb)).
Proof.
  intros Hk. assert (Hd := defaults_distinct lb).
  assert (G : exists t, lookup_prop (js k) (own (defaultOptions lb)) = Some (OObject t)).
  { unfold groups in Hk. repeat (apply elem_of_cons in Hk as [->|Hk]; [eexists; vm_compute; reflexivity|]).
    by apply not_elem_of_nil in Hk. }
  destruct G as [t Ht]. change (defaultOptions lb) with (OObject (own (defaultOptions lb))) in Hd |- *.
  unfold is_group. rewrite lookup_extend_object, Ht by exact (Hd [] _ eq_refl).
  unfold merged. repeat case_match; eauto.
Qed.

(** Whatever the base and the user's options are, the merged options have an object for each
    group of settings: policies, queryOptions, protocolOptions, pooling, socketOptions and encoding;
    the checks that they are defined never fail. *)
Theorem groups_defined lb base user k :
  k ∈ groups -> is_group (js k) (deepExtend base [defaultOptions lb; user]).
Proof. intros Hk. apply group_extend, group_defaults, Hk. Qed.

Lemma groups_defined_witness :
  is_group (js "policies") (deepExtend [] [defaultOptions 0; OObject [(js "policies", ONull)]]).
Proof. apply (groups_defined 0 [] (OObject [(js "policies", ONull)]) "policies"). unfold groups. constructor. Defined.

(** ** Validated options *)

Lemma field_assign k k' v o :
  js k <> proto -> field (assign_option k v o) k' = if bool_decide (js k = js k') then v else field o k'.
Proof. intros H. unfold field, assign_option. rewrite lookup_set_prop by done. by case_bool_decide. Qed.

Lemma field_assign_eq k v o : js k <> proto -> field (assign_option k v o) k = v.
Proof. intros H. by rewrite field_assign, bool_decide_true. Qed.

Lemma field_assign_ne k k' v o : js k <> proto -> js k <> js k' -> field (assign_option k v o) k' = field o k'.
Proof. intros H H'. by rewrite field_assign, bool_decide_false. Qed.

(** Two names that differ. *)
Ltac names := solve [vm_compute; discriminate].

(** Reads a setting after the assignment of another. *)
Ltac field_simpl := repeat first [rewrite field_assign_eq by names|rewrite field_assign_ne by names].

(** Falsity of a rejecting test. *)
Ltac refute H :=
  match type of H with
  | (if negb ?b then _ else _) = Ok _ => let E := fresh "V" in destruct b eqn:E; cbn [negb] in H; [|discriminate H]
  | (if ?b then _ else _) = Ok _ => let E := fresh "V" in destruct b eqn:E; [discriminate H|]
  end.

Record valid_policies (p : object) : Prop := {
  vp_loadBalancing : is_loadBalancing (field p "loadBalancing") = true;
  vp_reconnection : is_reconnection (field p "reconnection") = true;
  vp_retry : is_retry (field p "retry") = true;
  vp_translator : is_translator (field p "addressResolution") = true;
  vp_timestamps : field p "timestampGeneration" = ONull \/ is_timestampGenerator (field p "timestampGeneration") = true }.

Lemma is_null_inv v : is_null v = true -> v = ONull.
Proof. by destruct v. Qed.

Lemma validatePoliciesOptions_ok v : validatePoliciesOptions v = Ok tt -> valid_policies (own v).
Proof.
  unfold validatePoliciesOptions, type_error. intros H. refute H. cbn zeta in H. do 5 refute H. split; try done.
  destruct (is_null _) eqn:E; [left; by apply is_null_inv|right]. cbn [negb andb] in V4. by apply negb_false_iff in V4.
Qed.

(** A version that is not set, or a supported one. *)
Definition valid_version (v : oval) : Prop := o_truthy v = false \/ exists x, v = ONumber x /\ version_supported x = true.

Lemma validateProtocolOptions_ok v : validateProtocolOptions v = Ok tt -> valid_version (field (own v) "maxVersion").
Proof.
  unfold validateProtocolOptions, type_error, valid_version. intros H. refute H. cbn zeta in H. refute H.
  destruct (o_truthy (field _ _)); [right|by left]. cbn [andb] in V0. apply negb_false_iff in V0.
  destruct (field _ _); try discriminate V0. eauto.
Qed.

Definition valid_socket (s : object) : Prop :=
  (exists x, field s "readTimeout" = ONumber x) /\
  (exists x, field s "coalescingThreshold" = ONumber x /\ not_positive x = false).

Lemma validateSocketOptions_ok v : validateSocketOptions v = Ok tt -> valid_socket (own v).
Proof.
  unfold validateSocketOptions, type_error, valid_socket. intros H. refute H. cbn zeta in H.
  destruct (field _ "readTimeout"); try discriminate H. destruct (field _ "coalescingThreshold"); try discriminate H.
  refute H. eauto.
Qed.

(** A provider, or credentials that are strings. *)
Definition valid_authentication (o : object) : Prop :=
  is_authProvider (field o "authProvider") = true \/
  (o_truthy (field o "authProvider") = false /\
   exists u p, field (own (field o "credentials")) "username" = OString u /\ field (own (field o "credentials")) "password" = OString p).

Lemma is_string_inv v : is_string v = true -> exists s, v = OString s.
Proof. destruct v; try done. eauto. Qed.

Lemma validateAuthenticationOptions_ok o o' :
  validateAuthenticationOptions o = Ok o' ->
  valid_authentication o' /\ forall k, js k <> js "authProvider" -> field o' k = field o k.
Proof.
  unfold validateAuthenticationOptions, type_error, valid_authentication.
  destruct (o_truthy (field o "authProvider")) eqn:Ha; cbn [negb].
  - intros H. refute H. injection H as <-. auto.
  - cbn zeta. destruct (o_truthy (field o "credentials")).
    + intros H. refute H. injection H as <-. apply orb_false_iff in V as [V1 V2]. apply negb_false_iff in V1, V2.
      destruct (is_string_inv _ V1) as [u Hu], (is_string_inv _ V2) as [p Hp]. split; [right; eauto|done].
    + intros [= <-]. split.
      * left. by field_simpl.
      * intros k Hk. rewrite field_assign, bool_decide_false by (done || (vm_compute; discriminate)). done.
Qed.

(** A constructor that is not set, or has the two methods. *)
Definition valid_constructor (v : oval) (a b : string) : Prop := o_truthy v = false \/ has_methods v a b = true.

Lemma validateEncodingOptions_ok v :
  validateEncodingOptions v = Ok tt ->
  valid_constructor (field (own v) "map") "forEach" "set" /\ valid_constructor (field (own v) "set") "forEach" "add".
Proof.
  unfold validateEncodingOptions, type_error, valid_constructor. cbn zeta. intros H. do 2 refute H.
  apply andb_false_iff in V, V0. rewrite !negb_false_iff in V, V0. done.
Qed.

Definition valid_id (v : oval) : Prop := v = ONull \/ v = OUndefined \/ (exists u, v = OUuid u) \/ exists s, v = OString s.

Lemma validateApplicationInfo_ok o :
  validateApplicationInfo o = Ok tt ->
  optional_string (field o "applicationName") = true /\ optional_string (field o "applicationVersion") = true /\
  valid_id (field o "id").
Proof.
  unfold validateApplicationInfo, type_error, valid_id. intros H. do 2 refute H. split; [done|]. split; [done|].
  destruct (field o "id"); try discriminate H; eauto 6.
Qed.

Definition valid_contactPoints (v : oval) : Prop := exists l, v = OArray l /\ l <> [] /\ Forall (fun h => o_truthy h = true) l.

Lemma validate_contactPoints_ok v : validate_contactPoints v = Ok tt -> valid_contactPoints v.
Proof.
  unfold validate_contactPoints, type_error. destruct v as [ | | | | | | | |[|h l]| | |]; try discriminate.
  destruct (forallb o_truthy (h :: l)) eqn:E; [|discriminate]. intros _. exists (h :: l).
  split; [done|]. split; [done|]. apply Forall_forall. by apply forallb_forall.
Qed.

(** What the rest of the driver relies on. *)
Record valid_options (o : object) : Prop := {
  v_contactPoints : valid_contactPoints (field o "contactPoints");
  v_sni : field o "sni" = OUndefined;
  v_logEmitter : o_truthy (field o "logEmitter") = true;
  v_requestTracker : field o "requestTracker" = ONull \/ is_tracker (field o "requestTracker") = true;
  v_metrics : is_metrics (field o "metrics") = true;
  v_policies : valid_policies (own (field o "policies"));
  v_maxVersion : valid_version (field (own (field o "protocolOptions")) "maxVersion");
  v_socket : valid_socket (own (field o "socketOptions"));
  v_authentication : valid_authentication o;
  v_encoding : o_truthy (field o "encoding") = true;
  v_map : valid_constructor (field (own (field o "encoding")) "map") "forEach" "set";
  v_set : valid_constructor (field (own (field o "encoding")) "set") "forEach" "add";
  v_logLevel : valid_logLevel (field o "logLevel") = true;
  v_profiles : o_truthy (field o "profiles") = false \/ exists l, field o "profiles" = OArray l;
  v_applicationName : optional_string (field o "applicationName") = true;
  v_applicationVersion : optional_string (field o "applicationVersion") = true;
  v_id : valid_id (field o "id") }.
Arguments Build_valid_options : clear implicits.

(** The first assignments keep the other settings. *)
Lemma field_prepared o k :
  js k <> js "sni" -> js k <> js "logEmitter" ->
  let o' := assign_option "sni" OUndefined o in
  field (if o_truthy (field o' "logEmitter") then o' else assign_option "logEmitter" (OFunction []) o') k = field o k.
Proof.
  intros H1 H2. cbn zeta. destruct (o_truthy _);
    rewrite !field_assign, !bool_decide_false by (done || (vm_compute; discriminate)); done.
Qed.

Lemma prepared_emitter o :
  o_truthy (field (if o_truthy (field o "logEmitter") then o else assign_option "logEmitter" (OFunction []) o) "logEmitter") = true.
Proof. destruct (o_truthy (field o "logEmitter")) eqn:E; [done|]. by field_simpl. Qed.

Lemma validateLogLevel_ok v : validateLogLevel v = Ok tt -> valid_logLevel v = true.
Proof. unfold validateLogLevel, type_error. by destruct (valid_logLevel v). Qed.

Lemma tracker_ok v : negb (is_null v) && negb (is_tracker v) = false -> v = ONull \/ is_tracker v = true.
Proof. destruct v; cbn [is_null negb andb]; auto. intros H%negb_false_iff. auto. Qed.

Lemma profiles_ok v :
  o_truthy v && negb (match v with OArray _ => true | _ => false end) = false -> o_truthy v = false \/ exists l, v = OArray l.
Proof. destruct v; cbn [negb]; rewrite ?andb_true_r; eauto. Qed.

(** Takes a successful step of a computation. *)
Ltac step H := let a := fresh "a" in let E := fresh "E" in apply bind_ok in H as (a & E & H); cbn beta in H.

(** The settings the validation may assign. *)
Definition assigned : list string := ["sni"; "logEmitter"; "authProvider"; "encoding"]%string.

Lemma extend_ok lb base user options :
  extend lb base user = Ok options ->
  valid_options options /\
  forall k, Forall (fun n => js k <> js n) assigned -> field options k = field (deepExtend base [defaultOptions lb; user]) k.
Proof.
  unfold extend, type_error. set (o := deepExtend base _). clearbody o. cbn zeta. intros H. step H.
  assert (Hf := field_prepared o). cbn zeta in Hf. assert (He := prepared_emitter (assign_option "sni" OUndefined o)).
  assert (Hs : field (if o_truthy (field (assign_option "sni" OUndefined o) "logEmitter") then assign_option "sni" OUndefined o
           else assign_option "logEmitter" (OFunction []) (assign_option "sni" OUndefined o)) "sni" = OUndefined)
    by (destruct (o_truthy (field _ "logEmitter")); field_simpl; reflexivity).
  set (p := if o_truthy (field (assign_option "sni" OUndefined o) "logEmitter") then _ else _) in *.
  clearbody p. do 3 refute H. do 4 step H. destruct a, a0, a1, a2.
  destruct (validateAuthenticationOptions_ok _ _ E3) as [Ha Hk].
  set (e := if o_truthy (field a3 "encoding") then _ else _) in H.
  assert (Et : o_truthy e = true) by (unfold e; destruct (o_truthy (field a3 "encoding")) eqn:Ee; [exact Ee|reflexivity]).
  clearbody e. do 2 step H. destruct a, a0. refute H. step H. destruct a. injection H as <-.
  apply validatePoliciesOptions_ok in E0. apply validateProtocolOptions_ok in E1. apply validateSocketOptions_ok in E2.
  rewrite field_assign_eq in E4 by names. apply validateEncodingOptions_ok in E4 as [Em Es].
  apply validateApplicationInfo_ok in E6 as (An & Av & Ai). apply validate_contactPoints_ok in E.
  apply validateLogLevel_ok in E5. apply profiles_ok in V2. apply tracker_ok in V0.
  rewrite field_assign_ne, Hk in E5, V2, An, Av, Ai by names.
  split; [split; unfold valid_authentication in *; field_simpl; rewrite ?Hk by names; try assumption; by rewrite Hf by names|].
  intros k Hn. unfold assigned in Hn. repeat (apply Forall_cons_1 in Hn as [? Hn]).
  rewrite field_assign_ne, Hk, Hf by (congruence || names). reflexivity.
Qed.

(** C18. Options accepted by the validation have the types the driver relies on: at least one
    contact point, none of them empty; policies, tracker and metrics of the right classes; a
    supported protocol version or none; numeric time outs; a provider of authentication or
    credentials that are strings; constructors with the methods used; a known log level; an array of
    profiles; and an identifier that is text, a Uuid or absent. *)
Theorem extend_valid lb base user options : extend lb base user = Ok options -> valid_options options.
Proof. intros H. apply (extend_ok _ _ _ _ H). Qed.

Lemma extend_valid_witness :
  match extend 0 [] (OObject sample_user) with Ok options => valid_options options | Err _ => False end.
Proof.
  destruct (extend 0 [] (OObject sample_user)) as [o|e] eqn:E; [exact (extend_valid _ _ _ _ E)|].
  vm_compute in E. discriminate E.
Defined.

(** ** TLS options *)

Lemma update_if_ok k f o o' :
  js k <> proto -> update_if k f o = Ok o' ->
  (o_truthy (field o' k) = false \/ exists v, f v = Ok (field o' k)) /\
  forall k', js k <> js k' -> field o' k' = field o k'.
Proof.
  intros Hp. unfold update_if. destruct (o_truthy (field o k)) eqn:Et.
  - intros H. step H. injection H as <-. rewrite field_assign_eq by done. split; [right; eauto|].
    intros k' Hk. by apply field_assign_ne.
  - intros [= <-]. auto.
Qed.

Definition text_option (v : oval) : Prop := o_truthy v = false \/ exists s, v = OString s.

Lemma normalizeKey_ok v v' : normalizeKey v = Ok v' -> exists s, v' = OString s.
Proof. destruct v; cbn; intros [= <-]; eauto. Qed.

Lemma normalize_ca_ok v v' :
  normalize_ca v = Ok v' -> exists l, v' = OArray l /\ Forall (fun x => exists s, x = OString s) l.
Proof.
  unfold normalize_ca. intros H. step H. injection H as <-. exists a. split; [done|]. apply traverse_ok in E.
  induction E as [|x y l l' Hx _ IH]; constructor; [exact (normalizeKey_ok _ _ Hx)|exact IH].
Qed.

Record valid_tls (o : object) : Prop := {
  tls_pair : o_truthy (field o "cert") = o_truthy (field o "key");
  tls_single : o_truthy (field o "pfx") = true -> o_truthy (field o "cert") = false;
  tls_text : Forall (fun k => text_option (field o k)) ["cert"; "dhparam"; "key"; "pfx"]%string;
  tls_ca : o_truthy (field o "ca") = false \/
           exists l, field o "ca" = OArray l /\ Forall (fun x => exists s, x = OString s) l;
  tls_versions : Forall (fun k => o_truthy (field o k) = false \/ exists t, field o k = tls_code t) ["minVersion"; "maxVersion"]%string;
  tls_secure : o_truthy (field o "secureOptions") = false \/ exists z, field o "secureOptions" = OBigInt z }.

Lemma o_bigint_ok v v' : o_bigint v = Ok v' -> exists z, v' = OBigInt z.
Proof. destruct v; cbn [o_bigint]; intros H; try discriminate H; try (step H); injection H as <-; eauto. Qed.

Lemma text_update (f : oval -> result oval) v : (forall x y, f x = Ok y -> exists s, y = OString s) ->
  o_truthy v = false \/ (exists x, f x = Ok v) -> text_option v.
Proof. intros Hf [H|[x H]]; [by left|right; eauto]. Qed.

Definition tls_names : list string := ["ca"; "cert"; "dhparam"; "key"; "pfx"; "minVersion"; "maxVersion"; "secureOptions"]%string.

Section tls.
Context `{UpperCase}.

Lemma version_update v :
  o_truthy v = false \/ (exists x, (t ← convertTlsVersion x; Ok (tls_code t)) = Ok v) ->
  o_truthy v = false \/ exists t, v = tls_code t.
Proof. intros [|[x Hx]]; [by left|right]. step Hx. injection Hx as <-. eauto. Qed.

Lemma normalizeSslOptions_ok options o :
  normalizeSslOptions options = Ok o ->
  valid_tls o /\ forall k, Forall (fun n => js n <> js k) tls_names -> field o k = field (copy options) k.
Proof.
  unfold normalizeSslOptions. cbn zeta. set (c := copy options). clearbody c. intros Hs. do 8 step Hs. do 2 refute Hs. injection Hs as <-.
  apply update_if_ok in E, E0, E1, E2, E3, E4, E5, E6; try names.
  destruct E as [P0 U0], E0 as [P1 U1], E1 as [P2 U2], E2 as [P3 U3], E3 as [P4 U4], E4 as [P5 U5], E5 as [P6 U6], E6 as [P7 U7].
  split.
  - apply xorb_eq in V. split; [exact V| | | | |].
    + intros Hp. rewrite Hp in V0. exact V0.
    + repeat apply Forall_cons_2; [..|apply Forall_nil_2]; rewrite ?U7, ?U6, ?U5, ?U4, ?U3, ?U2 by names;
        apply (text_update normalizeKey); (exact normalizeKey_ok || assumption).
    + rewrite ?U7, ?U6, ?U5, ?U4, ?U3, ?U2, ?U1 by names. destruct P0 as [P|[x P]]; [by left|right].
      exact (normalize_ca_ok _ _ P).
    + repeat apply Forall_cons_2; [..|apply Forall_nil_2]; rewrite ?U7, ?U6 by names; by apply version_update.
    + destruct P7 as [P|[x P]]; [by left|right; exact (o_bigint_ok _ _ P)].
  - intros k Hk. unfold tls_names in Hk. repeat (apply Forall_cons_1 in Hk as [? Hk]).
    by rewrite U7, U6, U5, U4, U3, U2, U1, U0.
Qed.
End tls.

(** ** Options of a client *)

Section client.
Context `{UpperCase}.

(** C19. TLS options accepted for the Rust layer are complete and consistent: a certificate and
    a key come together, and not with a PKCS#12 store; keys, certificates and parameters are text,
    the authorities a list of texts, the versions numbers of the enumeration and the flags a BigInt;
    every other setting is the user's. *)
Theorem tls_options_valid options o :
  distinct options -> normalizeSslOptions options = Ok o ->
  valid_tls o /\ forall k, Forall (fun n => js n <> js k) tls_names -> field o k = field options k.
Proof.
  intros Hd Ho. destruct (normalizeSslOptions_ok _ _ Ho) as [Hv Hk]. split; [exact Hv|].
  intros k Hn. rewrite Hk by done. unfold field. by rewrite lookup_copy.
Qed.

Lemma valid_options_id o u : valid_options o -> valid_options (assign_option "id" (OString u) o).
Proof.
  intros []. split; unfold valid_authentication in *; field_simpl; try assumption. unfold valid_id. eauto 6.
Qed.

(** The options once the identifier is text. *)
Lemma setRustOptions_valid o :
  valid_options o ->
  valid_options (fst (setRustOptions o)) /\
  field (fst (setRustOptions o)) "id" = match field o "id" with OUuid u => OString (Uuid.toString u) | v => v end.
Proof.
  intros Hv. unfold setRustOptions. cbn [fst]. destruct (field o "id") eqn:E; try (by split).
  split; [by apply valid_options_id|by field_simpl].
Qed.

Lemma rust_policies_ok p lb retry mapping :
  valid_policies p -> rust_loadBalancing p = Ok lb -> rust_retry p = Ok retry -> rust_addresses p = Ok mapping ->
  (exists c f, lb = Some c /\ field p "loadBalancing" = OInstance (LoadBalancingPolicy (Ok c)) f) /\
  (exists k f c, retry = Some c /\ field p "retry" = OInstance (Retry k) f /\ retry_getRustConfiguration k = Ok c) /\
  (exists c f, field p "addressResolution" = OInstance c f /\
     (c = AddressTranslator /\ mapping = None \/ exists m, c = MappingAddressTranslator m /\ mapping = Some m)).
Proof.
  intros [V1 _ V2 V3 _] H1 H2 H3. unfold rust_loadBalancing in H1. unfold rust_retry in H2. unfold rust_addresses in H3.
  split; [|split].
  - destruct (field p "loadBalancing") as [ | | | | | | | | | |[[c|]| | | | | | | | | | | |] f|]; try discriminate V1;
      cbn in H1; try discriminate H1. injection H1 as <-. eauto.
  - destruct (field p "retry") as [ | | | | | | | | | |[| |k| | | | | | | | | |] f|]; try discriminate V2.
    destruct k; cbn in H2; try discriminate H2; injection H2 as <-; eauto 8.
  - destruct (field p "addressResolution") as [ | | | | | | | | | |[| | | | | | | | | | | |] f|]; try discriminate V3;
      cbn in H3; try discriminate H3; injection H3 as <-; eauto 8.
Qed.

(** The TLS options of a session: none when the options have none, otherwise those, converted:
    what is not converted is kept. *)
Definition tls_of (options : object) (ssl : option object) : Prop :=
  if o_truthy (field options "sslOptions") then
    exists t, ssl = Some t /\ valid_tls t /\ normalizeSslOptions (own (field options "sslOptions")) = Ok t /\
      forall k, Forall (fun n => js n <> js k) tls_names -> field t k = field (copy (own (field options "sslOptions"))) k
  else ssl = None.

Lemma rust_tls_ok options ssl :
  (if o_truthy (field options "sslOptions") then o ← normalizeSslOptions (own (field options "sslOptions")); Ok (Some o)
   else Ok None) = Ok ssl -> tls_of options ssl.
Proof.
  unfold tls_of. destruct (o_truthy _).
  - intros Hs. step Hs. injection Hs as <-. exists a. destruct (normalizeSslOptions_ok _ _ E). auto.
  - by intros [= <-].
Qed.

(** The user name and the password of a session: those of the credentials, which are text
    unless a provider was given too, otherwise those of a provider of plain text, or none. *)
Definition credentials_of (options : object) (u p : option oval) : Prop :=
  if o_truthy (field options "credentials") then
    u = Some (field (own (field options "credentials")) "username") /\
    p = Some (field (own (field options "credentials")) "password") /\
    (o_truthy (field options "authProvider") = false -> exists us ps, u = Some (OString us) /\ p = Some (OString ps))
  else
    exists c f, field options "authProvider" = OInstance c f /\
      ((exists us ps, c = PlainTextAuthProvider us ps /\ u = Some (OString us) /\ p = Some (OString ps)) \/
       (c = NoAuthProvider /\ u = None /\ p = None)).

Lemma rust_credentials_ok options c :
  valid_authentication options -> rust_credentials options = Ok c -> credentials_of options (fst <$> c) (snd <$> c).
Proof.
  intros Hv Hc. unfold rust_credentials in Hc. cbn zeta in Hc. unfold credentials_of.
  destruct (o_truthy (field options "credentials")) eqn:Et.
  - injection Hc as <-. split_and!; [done|done|]. intros Hn.
    destruct Hv as [Hv|(_ & u & p & Hu & Hp)]; [by destruct (field options "authProvider")|].
    exists u, p. cbn. by rewrite Hu, Hp.
  - destruct Hv as [Hv|(_ & u & p & Hu & Hp)];
      [|by destruct (field options "credentials") as [ | |[]| | |[]| | | | | |]].
    destruct (field options "authProvider") as [ | | | | | | | | | |k f|]; try discriminate Hv. cbn [o_truthy] in Hc.
    exists k, f. split; [done|]. destruct k; try discriminate Hc; injection Hc as <-; eauto 8.
Qed.

(** The session carries what the options say. *)
Record session_of (o : object) (s : sessionOptions) : Prop := {
  so_contactPoints : connectPoints s = field o "contactPoints" /\ valid_contactPoints (connectPoints s);
  so_id : clientId s = field o "id" /\ optional_string (clientId s) = true;
  so_names : s_applicationName s = field o "applicationName" /\ s_applicationVersion s = field o "applicationVersion" /\
             s_keyspace s = field o "keyspace";
  so_cacheSize : cacheSize s = if o_truthy (field o "maxPrepared") then Some (field o "maxPrepared") else None;
  so_credentials : credentials_of o (credentialsUsername s) (credentialsPassword s);
  so_loadBalancing : exists c f, loadBalancingConfig s = Some c /\
            field (own (field o "policies")) "loadBalancing" = OInstance (LoadBalancingPolicy (Ok c)) f;
  so_retry : exists k f c, retryPolicy s = Some c /\ field (own (field o "policies")) "retry" = OInstance (Retry k) f /\
            retry_getRustConfiguration k = Ok c;
  so_addresses : exists c f, field (own (field o "policies")) "addressResolution" = OInstance c f /\
            (c = AddressTranslator /\ addressMapping s = None \/
             exists m, c = MappingAddressTranslator m /\ addressMapping s = Some m);
  so_tls : tls_of o (sslOptions s) }.

Lemma session_options_ok o s :
  valid_options o -> optional_string (field o "id") = true -> session_options o = Ok s -> session_of o s.
Proof.
  intros Hv Hi Hs. destruct Hv. unfold session_options in Hs. step Hs. cbn zeta in Hs. do 7 step Hs. injection Hs as <-.
  destruct (rust_policies_ok _ _ _ _ v_policies0 E0 E1 E2) as (L & R & A).
  split; cbn [connectPoints clientId s_applicationName s_applicationVersion s_keyspace cacheSize credentialsUsername
              credentialsPassword loadBalancingConfig retryPolicy addressMapping sslOptions]; auto.
  - exact (rust_credentials_ok _ _ v_authentication0 E).
  - exact (rust_tls_ok _ _ E3).
Qed.

(** The generated identifier, unless the user gives one. *)
Lemma extend_default_id lb id f options :
  distinct f -> lookup_prop (js "id") f = None ->
  extend lb [(js "logEmitter", OFunction []); (js "id", OUuid id)] (OObject f) = Ok options -> field options "id" = OUuid id.
Proof.
  intros Hf Hid He. assert (Hd := defaults_distinct lb).
  rewrite (proj2 (extend_ok _ _ _ _ He)) by (unfold assigned; repeat apply Forall_cons_2; [names..|apply Forall_nil_2]).
  unfold field, deepExtend. cbn [fold_left]. rewrite lookup_extend_object, Hid by done.
  assert (E : defaultOptions lb = OObject (own (defaultOptions lb))) by reflexivity. rewrite E in Hd |- *.
  rewrite lookup_extend_object by exact (Hd [] _ eq_refl).
  replace (lookup_prop (js "id") (own (defaultOptions lb))) with (@None oval) by (vm_compute; reflexivity).
  vm_compute. reflexivity.
Qed.

(** C16. The options of a new client are valid, and the session of the Rust layer carries what
    they say: the contact points, the identifier as text, names, keyspace and the size of the
    cache; the user name and the password of the credentials (text, unless a provider is given
    too), otherwise those of a provider of plain text, otherwise none; the configuration of the
    load balancing and retry policies given; the mapping of addresses when there is one; TLS
    options exactly when there are some, and then those, converted and valid.  The identifier is
    the generated one unless the user gives another. *)
Theorem client_options_session lb id user o s :
  client_options lb id user = Ok (o, s) ->
  valid_options o /\ session_of o s /\
  forall f, user = OObject f -> distinct f -> lookup_prop (js "id") f = None -> clientId s = OString (Uuid.toString id).
Proof.
  unfold client_options. intros Hc. step Hc. destruct (setRustOptions a) as [o' rust] eqn:Er. step Hc. injection Hc as <- <-.
  destruct (extend_ok _ _ _ _ E) as [Hv _]. destruct (setRustOptions_valid a Hv) as [Hv' Hid].
  assert (Er2 : rust = session_options o') by (unfold setRustOptions in Er; congruence).
  rewrite Er in Hv', Hid. cbn [fst] in Hv', Hid. subst rust.
  assert (Hs : session_of o' a0).
  { apply session_options_ok; [done| |done]. rewrite Hid. destruct (v_id _ Hv) as [->|[->|[[u ->]|[t ->]]]]; done. }
  split; [done|]. split; [done|]. intros f -> Hf Hn. rewrite (proj1 (so_id _ _ Hs)), Hid.
  by rewrite (extend_default_id lb id f a Hf Hn E).
Qed.
End client.

Definition sample_tls : object :=
  [(js "cert", OBuffer [45; 45]); (js "key", OString (js "k")); (js "ca", OString (js "root")); (js "rejectUnauthorized", OBool false)].

Definition sample_credentials : object :=
  sample_user ++ [(js "credentials", obj [("username", OString (js "me")); ("password", OString (js "pw"))]);
                  (js "sslOptions", OObject sample_tls)].

Lemma tls_options_valid_witness :
  match normalizeSslOptions sample_tls with
  | Ok o => valid_tls o /\ field o "rejectUnauthorized" = OBool false
  | Err _ => False
  end.
Proof.
  destruct (normalizeSslOptions sample_tls) as [o|e] eqn:E; [|vm_compute in E; discriminate E].
  assert (Hd : distinct sample_tls) by (apply (all_distinct_within (OObject sample_tls)) with (p := []); [vm_compute; reflexivity|reflexivity]).
  destruct (tls_options_valid sample_tls o Hd E) as [Hv Hk]. split; [exact Hv|]. rewrite Hk; [vm_compute; reflexivity|].
  unfold tls_names. repeat apply Forall_cons_2; [names..|apply Forall_nil_2].
Defined.

Definition sample_id : Uuid.t := Uuid.mk (repeat 7 16).

Lemma client_options_session_witness :
  match client_options 3 sample_id (OObject sample_credentials) with
  | Ok (o, s) => session_of o s /\ clientId s = OString (Uuid.toString sample_id) /\ loadBalancingConfig s = Some 3%nat /\
                 credentialsUsername s = Some (OString (js "me")) /\ is_Some (sslOptions s)
  | Err _ => False
  end.
Proof.
  destruct (client_options 3 sample_id (OObject sample_credentials)) as [[o s]|e] eqn:E; [|vm_compute in E; discriminate E].
  destruct (client_options_session _ _ _ _ _ E) as (_ & Hs & Hid). split; [exact Hs|]. split.
  - apply (Hid sample_credentials eq_refl); [|vm_compute; reflexivity].
    apply (all_distinct_within (OObject sample_credentials)) with (p := []); [vm_compute; reflexivity|reflexivity].
  - vm_compute in E. injection E as _ <-. split; [reflexivity|]. split; [reflexivity|]. by eexists.
Defined.

(** With a provider the credentials are not validated, and they take precedence over it. *)
Lemma credentials_unchecked :
  exists o s, client_options 0 sample_id
    (OObject (sample_user ++ [(js "credentials", obj [("username", onum 5)]);
                              (js "authProvider", inst (PlainTextAuthProvider (js "me") (js "pw")))])) = Ok (o, s) /\
  credentialsUsername s = Some (onum 5) /\ credentialsPassword s = Some OUndefined.
Proof. eexists _, _. split; [vm_compute; reflexivity|split; reflexivity]. Qed.

(** An identifier that is explicitly undefined is not replaced by the generated one. *)
Lemma undefined_id :
  exists o s, client_options 0 sample_id (OObject (sample_user ++ [(js "id", OUndefined)])) = Ok (o, s) /\ clientId s = OUndefined.
Proof. eexists _, _. split; [vm_compute; reflexivity|reflexivity]. Qed.

(** A threshold that is not a number passes the check for a positive one. *)
Lemma nan_threshold :
  validateSocketOptions (obj [("readTimeout", onum 1); ("coalescingThreshold", ONumber SpecFloat.S754_nan)]) = Ok tt.
Proof. reflexivity. Qed.

(** The limits of a pool follow the protocol version, unless the user sets them. *)
Lemma pooling_defaults :
  match setMetadataDependent 2 false [(js "queryOptions", OObject []);
          (js "pooling", obj [("coreConnectionsPerHost", obj [("0", onum 7)])])] with
  | Ok o => walk [js "pooling"; js "coreConnectionsPerHost"; js "0"] (OObject o) = Some (onum 7) /\
            walk [js "pooling"; js "coreConnectionsPerHost"; js "1"] (OObject o) = Some (onum 1) /\
            walk [js "pooling"; js "maxRequestsPerConnection"] (OObject o) = Some (onum 128) /\
            walk [js "queryOptions"; js "consistency"] (OObject o) = Some (onum 10)
  | Err _ => False
  end.
Proof. vm_compute. auto. Qed.
