(* ===== verification/RequestLogger.v ===== *)
(** * Request logger

    lib/tracker/request-logger.js: the events emitted for the requests of a session and
    the text of their messages.

    The host, the options of the execution and the error are what the logger reads of them: an
    address, flags and a stack.  A parameter is undefined, null, or a value of which only the
    result of [toString] is used.  The lengths of the options are integers; the thresholds
    are Numbers.

    The theorems: the text that describes a statement is bounded by the configured lengths and
    a constant, whatever the query and its parameters; it keeps the beginning of the query; and
    a request causes at most one event, chosen by the thresholds. *)

From stdpp Require Import list.
From S2P Require Import Prelude JsNumber JsString Float.

(** ** Data *)

Inductive value : Type := VUndefined | VNull | VText (text : jsstr).

(** No parameters, or an array, or an object with its keys. *)
Inductive params : Type :=
| NoParams
| ArrayParams (l : list value)
| ObjectParams (l : list (jsstr * value)).

(** A query of a batch is a string or has its own parameters. *)
Inductive batchQuery : Type := QText (q : jsstr) | QObject (query : jsstr) (p : params).

Inductive query : Type := Single (q : jsstr) | Batch (l : list batchQuery).

Record execInfo : Type := mkExec { isPrepared : bool; isBatchLogged : bool }.

Record options : Type := mkOptions {
  slowThreshold : option number;
  requestSizeThreshold : option number;
  messageMaxQueryLength : option Z;
  messageMaxParameterValueLength : option Z;
  messageMaxErrorStackTraceLength : option Z;
  initialLogNormalRequests : bool;
  initialLogErroredRequests : bool }.

Inductive event : Type := Slow | Large | Normal | Failure.

(** The logger with what its emitter was given. *)
Record logger : Type := mkLogger {
  opts : options;
  logNormalRequests : bool;
  logErroredRequests : bool;
  emitted : list (event * jsstr) }.

Definition constructor (o : option options) : result logger :=
  match o with
  | None => Err (ArgumentError "RequestLogger options parameter is required")
  | Some o => Ok (mkLogger o (initialLogNormalRequests o) (initialLogErroredRequests o) [])
  end.

Definition emit (e : event) (message : jsstr) (l : logger) : logger :=
  mkLogger (opts l) (logNormalRequests l) (logErroredRequests l) (emitted l ++ [(e, message)]).

Definition nanosToMillis : Z := 1000000.
Definition defaultMessageMaxQueryLength : Z := 500.
Definition defaultMaxParameterValueLength : Z := 50.
Definition defaultMaxErrorStackTraceLength : Z := 200.

(** [v || d] of a length *)
Definition or_default (v : option Z) (d : Z) : Z := match v with Some z => if z =? 0 then d else z | None => d end.

(** [s.substr(0, n)] *)
Definition prefix (s : jsstr) (n : Z) : jsstr := take (Z.to_nat n) s.

(** ** Text *)

Definition formatParam (v : value) (maxLength : Z) : jsstr :=
  match v with
  | VUndefined => js "undefined"
  | VNull => js "null"
  | VText t => prefix t maxLength
  end.

(** A parameter of an object: its name, and its value when there is room. *)
Definition formatNamed (key : jsstr) (v : value) (length : Z) : jsstr :=
  let result := prefix key length in
  let rem := length - slen result - 1 in
  if rem <=? 0 then result else result ++ js ":" ++ formatParam v rem.

(** The loop over the parameters: the text, what remains, and whether parameters are left. *)
Fixpoint params_loop (first : bool) (ps : list (Z -> jsstr)) (remaining maxParameterLength : Z) : jsstr * bool :=
  match ps with
  | [] => ([], false)
  | p :: ps =>
      if 0 <? remaining then
        let '(comma, remaining) := if first then ([], remaining) else (js ",", remaining - 1) in
        let paramString := p (Z.min maxParameterLength remaining) in
        let '(rest, more) := params_loop false ps (remaining - slen paramString) maxParameterLength in
        (comma ++ paramString ++ rest, more)
      else ([], true)
  end.

Definition stringifiers (ps : params) : list (Z -> jsstr) :=
  match ps with
  | NoParams => []
  | ArrayParams l => formatParam <$> l
  | ObjectParams l => (fun e => formatNamed (fst e) (snd e)) <$> l
  end.

Definition getParametersInfo (ps : params) (remaining maxParameterLength : Z) : jsstr :=
  if remaining <=? 3 then js " [...]"
  else match ps with
       | NoParams => js " []"
       | _ =>
           let '(text, more) := params_loop true (stringifiers ps) remaining maxParameterLength in
           js " [" ++ text ++ (if more then js "..." else []) ++ js "]"
       end.

(** The loop over the queries of a batch: the text, and whether it stopped before the end. *)
Fixpoint batch_info_loop (first : bool) (queries : list batchQuery) (remaining maxParameterLength : Z) : jsstr * bool :=
  match queries with
  | [] => ([], false)
  | b :: queries =>
      if 0 <? remaining then
        let '(q, ps) := match b with QText q => (q, NoParams) | QObject q ps => (q, ps) end in
        let '(comma, remaining) := if first then ([], remaining) else (js ",", remaining - 1) in
        let queryLength := Z.min remaining (slen q) in
        let text := comma ++ prefix q queryLength in
        let remaining := remaining - queryLength in
        if remaining <=? 0 then (text, true)
        else
          let parameters := getParametersInfo ps remaining maxParameterLength in
          let '(rest, more) := batch_info_loop false queries (remaining - slen parameters) maxParameterLength in
          (text ++ parameters ++ rest, more)
      else ([], true)
  end.

Definition getBatchStatementInfo (queries : list batchQuery) (e : execInfo) (maxQueryLength maxParameterLength : Z) : jsstr :=
  let '(text, more) := batch_info_loop true queries maxQueryLength maxParameterLength in
  (if isBatchLogged e then js "LOGGED " else []) ++ js "BATCH w/ " ++ dec_str (Z.of_nat (length queries)) ++
  (if negb (isPrepared e) then js " not prepared" else []) ++ js " queries (" ++ text ++ (if more then js ",...)" else js ")").

Definition getStatementInfo (q : query) (ps : params) (e : execInfo) (o : options) : jsstr :=
  let maxQueryLength := or_default (messageMaxQueryLength o) defaultMessageMaxQueryLength in
  let maxParameterLength := or_default (messageMaxParameterValueLength o) defaultMaxParameterValueLength in
  match q with
  | Batch queries => getBatchStatementInfo queries e maxQueryLength maxParameterLength
  | Single q =>
      let message := prefix q maxQueryLength in
      let remaining := maxQueryLength - slen message - 1 in
      message ++ getParametersInfo ps remaining maxParameterLength ++
      (if negb (isPrepared e) then js " (not prepared)" else [])
  end.

(** [Math.round(length / 1024)]: the division is exact. *)
Definition formatSize (length : Z) : jsstr :=
  if 1000 <? length then int_str ((length + 512) / 1024) ++ js " KB" else int_str length ++ js " bytes".

Definition getPayloadSizes (requestLength : Z) (responseLength : option Z) : jsstr :=
  js "request size " ++ formatSize requestLength ++
  match responseLength with Some l => js " / response size " ++ formatSize l | None => [] end.

(** The seconds and nanoseconds of [process.hrtime]. *)
Definition toMillis (latency : Z * Z) : number :=
  num_add (num_mul (num_of_Z (fst latency)) (num_of_Z 1000)) (num_div (num_of_Z (snd latency)) (num_of_Z nanosToMillis)).

(** [Math.floor] of a latency, which is not negative, and [~~]. *)
Definition floor_millis (latency : Z * Z) : jsstr := int_str (num_trunc (toMillis latency)).
Definition int32_millis (latency : Z * Z) : jsstr := int_str (to_int32 (num_trunc (toMillis latency))).

(** ** Events *)

(** A request: the address of its host, the query, and its sizes and latency. *)
Record request : Type := mkRequest {
  host : jsstr;
  statement : query;
  parameters : params;
  exec : execInfo;
  requestLength : Z;
  latency : Z * Z }.

(** [threshold > 0 && x > threshold]; a threshold that is not set is not exceeded. *)
Definition exceeds (threshold : option number) (x : number) : bool :=
  match threshold with Some t => num_gtZ t 0 && SpecFloat.SFltb t x | None => false end.

Definition info (r : request) (l : logger) : jsstr := getStatementInfo (statement r) (parameters r) (exec r) (opts l).
Definition stack_text (stack : jsstr) (l : logger) : jsstr :=
  prefix stack (or_default (messageMaxErrorStackTraceLength (opts l)) defaultMaxErrorStackTraceLength).

Definition logSlow (r : request) (responseLength : option Z) (l : logger) : logger :=
  emit Slow (js "[" ++ host r ++ js "] Slow request, took " ++ floor_millis (latency r) ++ js " ms (" ++
             getPayloadSizes (requestLength r) responseLength ++ js "): " ++ info r l) l.

Definition logLargeRequest (r : request) (responseLength : option Z) (l : logger) : logger :=
  emit Large (js "[" ++ host r ++ js "] Request exceeded length, " ++ getPayloadSizes (requestLength r) responseLength ++
              js " (took " ++ int32_millis (latency r) ++ js " ms): " ++ info r l) l.

Definition logNormalRequest (r : request) (responseLength : option Z) (l : logger) : logger :=
  emit Normal (js "[" ++ host r ++ js "] Request completed normally, took " ++ int32_millis (latency r) ++ js " ms (" ++
               getPayloadSizes (requestLength r) responseLength ++ js "): " ++ info r l) l.

Definition logLargeErrorRequest (r : request) (stack : jsstr) (l : logger) : logger :=
  emit Large (js "[" ++ host r ++ js "] Request exceeded length and execution failed, " ++ getPayloadSizes (requestLength r) None ++
              js " (took " ++ int32_millis (latency r) ++ js " ms): " ++ info r l ++ js "; error: " ++ stack_text stack l) l.

Definition logErrorRequest (r : request) (stack : jsstr) (l : logger) : logger :=
  emit Failure (js "[" ++ host r ++ js "] Request execution failed, took " ++ int32_millis (latency r) ++ js " ms (" ++
                getPayloadSizes (requestLength r) None ++ js "): " ++ info r l ++ js "; error: " ++ stack_text stack l) l.

Definition onSuccess (r : request) (responseLength : option Z) (l : logger) : logger :=
  if exceeds (slowThreshold (opts l)) (toMillis (latency r)) then logSlow r responseLength l
  else if exceeds (requestSizeThreshold (opts l)) (num_of_Z (requestLength r)) then logLargeRequest r responseLength l
  else if logNormalRequests l then logNormalRequest r responseLength l
  else l.

Definition onError (r : request) (stack : jsstr) (l : logger) : logger :=
  if exceeds (requestSizeThreshold (opts l)) (num_of_Z (requestLength r)) then logLargeErrorRequest r stack l
  else if logErroredRequests l then logErrorRequest r stack l
  else l.

(** ** Bounds *)

Lemma slen_app s t : slen (s ++ t) = slen s + slen t.
Proof. unfold slen. rewrite length_app. lia. Qed.

Lemma slen_nonneg s : 0 <= slen s.
Proof. unfold slen. lia. Qed.

Lemma slen_prefix s n : slen (prefix s n) = Z.min (Z.max 0 n) (slen s).
Proof. unfold slen, prefix. rewrite length_take. lia. Qed.

Lemma prefix_all s n : slen s <= n -> prefix s n = s.
Proof. unfold slen, prefix. intros H. apply take_ge. lia. Qed.

Lemma slen_formatParam v n : slen (formatParam v n) <= Z.max 0 n + 9.
Proof.
  destruct v; cbn [formatParam].
  - change (slen (js "undefined")) with 9. lia.
  - change (slen (js "null")) with 4. lia.
  - rewrite slen_prefix. lia.
Qed.

Lemma slen_formatNamed k v n : slen (formatNamed k v n) <= Z.max 0 n + 9.
Proof.
  unfold formatNamed. cbn zeta. assert (H := slen_prefix k n). assert (Hk := slen_nonneg k).
  case_Z; [lia|]. rewrite !slen_app. change (slen (js ":")) with 1.
  assert (Hv := slen_formatParam v (n - slen (prefix k n) - 1)). lia.
Qed.

Lemma stringifiers_bounded ps : Forall (fun p => forall n, slen (p n) <= Z.max 0 n + 9) (stringifiers ps).
Proof.
  destruct ps; cbn [stringifiers]; [constructor|..]; apply Forall_fmap, Forall_forall; intros x _ n;
    [apply slen_formatParam|apply slen_formatNamed].
Qed.

Lemma params_loop_bounded ps first remaining maxp text more :
  Forall (fun p => forall n, slen (p n) <= Z.max 0 n + 9) ps ->
  params_loop first ps remaining maxp = (text, more) -> slen text <= if 0 <? remaining then remaining + 9 else 0.
Proof.
  intros Hps. revert first remaining text more. induction Hps as [|p ps Hp _ IH]; intros first remaining text more; cbn [params_loop].
  - intros [= <- <-]. change (slen []) with 0. case_Z; lia.
  - case_Z; [|by intros [= <- <-]].
    set (c := if first then ([], remaining) else (js ",", remaining - 1)).
    assert (Hc : slen (fst c) + snd c = remaining /\ 0 <= snd c) by (unfold c, slen; destruct first; cbn; lia).
    destruct c as [comma rem]. cbn [fst snd] in Hc.
    destruct (params_loop _ _ _ _) as [rest more'] eqn:E. intros [= <- <-].
    apply IH in E. rewrite !slen_app. specialize (Hp (Z.min maxp rem)).
    destruct (Z.ltb_spec 0 (rem - slen (p (Z.min maxp rem)))); lia.
Qed.

Lemma slen_getParametersInfo ps remaining maxp : slen (getParametersInfo ps remaining maxp) <= Z.max (-9) remaining + 15.
Proof.
  unfold getParametersInfo. destruct (Z.leb_spec remaining 3); [change (slen (js " [...]")) with 6; lia|].
  assert (Hb := params_loop_bounded (stringifiers ps) true remaining maxp).
  destruct (params_loop _ _ _ _) as [text more]. specialize (Hb text more (stringifiers_bounded ps) eq_refl).
  destruct (Z.ltb_spec 0 remaining); [|lia].
  assert (G : slen (js " [" ++ text ++ (if more then js "..." else []) ++ js "]") <= Z.max (-9) remaining + 15).
  { rewrite !slen_app. destruct more; change (slen (js " [")) with 2; change (slen (js "...")) with 3; change (slen (js "]")) with 1;
      change (slen []) with 0; lia. }
  destruct ps; [|exact G..]. change (slen (js " []")) with 3. lia.
Qed.

Lemma batch_info_bounded qs first remaining maxp text more :
  batch_info_loop first qs remaining maxp = (text, more) -> slen text <= if 0 <? remaining then remaining + 15 else 0.
Proof.
  revert first remaining text more. induction qs as [|b qs IH]; intros first remaining text more; cbn [batch_info_loop].
  - intros [= <- <-]. change (slen []) with 0. case_Z; lia.
  - case_Z; [|by intros [= <- <-]]. set (qp := match b with QText q => _ | QObject q ps => _ end). destruct qp as [q ps].
    set (c := if first then ([], remaining) else (js ",", remaining - 1)).
    assert (Hc : slen (fst c) + snd c = remaining /\ 0 <= snd c) by (unfold c, slen; destruct first; cbn; lia).
    destruct c as [comma rem]. cbn [fst snd] in Hc. cbn zeta.
    assert (Hq := slen_nonneg q). assert (Hp := slen_prefix q (Z.min rem (slen q))).
    destruct (Z.leb_spec (rem - Z.min rem (slen q)) 0).
    + intros [= <- <-]. rewrite slen_app. lia.
    + destruct (batch_info_loop _ _ _ _) as [rest more'] eqn:E. intros [= <- <-]. apply IH in E. rewrite !slen_app.
      assert (Hi := slen_getParametersInfo ps (rem - Z.min rem (slen q)) maxp).
      destruct (Z.ltb_spec 0 (rem - Z.min rem (slen q) - slen (getParametersInfo ps (rem - Z.min rem (slen q)) maxp))); lia.
Qed.

(** The room for what is not accounted for in the maximal length. *)
Definition allowance (q : query) : Z :=
  match q with Single _ => 30 | Batch l => 59 + slen (dec_str (Z.of_nat (length l))) end.

(** The description of a statement in a message is bounded: it is at most the configured
    length of the query and a constant, and the number of queries of a batch in figures, whatever
    the query, the number of parameters and their sizes. *)
Theorem statement_bounded q ps e o :
  slen (getStatementInfo q ps e o) <= Z.max 0 (or_default (messageMaxQueryLength o) defaultMessageMaxQueryLength) + allowance q.
Proof.
  unfold getStatementInfo. cbn zeta. set (m := or_default (messageMaxQueryLength o) _). set (mp := or_default _ _).
  destruct q as [q|l]; cbn [allowance].
  - rewrite !slen_app. assert (Hp := slen_prefix q m). assert (Hq := slen_nonneg q).
    assert (Hi := slen_getParametersInfo ps (m - slen (prefix q m) - 1) mp).
    assert (Hn : slen (if negb (isPrepared e) then js " (not prepared)" else []) <= 15) by (destruct (isPrepared e); vm_compute; discriminate).
    lia.
  - unfold getBatchStatementInfo. destruct (batch_info_loop true l m mp) as [text more] eqn:E. apply batch_info_bounded in E.
    rewrite !slen_app.
    assert (H1 : slen (if isBatchLogged e then js "LOGGED " else []) <= 7) by (destruct (isBatchLogged e); vm_compute; discriminate).
    assert (H2 : slen (if negb (isPrepared e) then js " not prepared" else []) <= 13) by (destruct (isPrepared e); vm_compute; discriminate).
    assert (H3 : slen (if more then js ",...)" else js ")") <= 5) by (destruct more; vm_compute; discriminate).
    change (slen (js "BATCH w/ ")) with 9. change (slen (js " queries (")) with 10.
    destruct (Z.ltb_spec 0 m); lia.
Qed.

(** ** Short parameters *)

(** The text of a parameter as a whole. *)
Definition text_of (v : value) : jsstr := match v with VUndefined => js "undefined" | VNull => js "null" | VText t => t end.

Fixpoint joined (l : list jsstr) : jsstr := match l with [] => [] | [t] => t | t :: l => t ++ js "," ++ joined l end.

Lemma joined_cons t l : joined (t :: l) = t ++ match l with [] => [] | _ => js "," ++ joined l end.
Proof. destruct l; cbn [joined]; [by rewrite app_nil_r|done]. Qed.

Lemma formatParam_all v n : slen (text_of v) <= n -> formatParam v n = text_of v.
Proof. destruct v; try done. apply prefix_all. Qed.

Lemma params_loop_all l (first : bool) remaining maxp :
  l <> [] -> 0 < remaining -> Forall (fun v => slen (text_of v) <= maxp) l ->
  slen (joined (text_of <$> l)) + (if first then 0 else 1) <= remaining ->
  params_loop first (formatParam <$> l) remaining maxp = ((if first then [] else js ",") ++ joined (text_of <$> l), false).
Proof.
  intros Hl Hr Hm. revert first remaining Hl Hr. induction Hm as [|v l Hv Hm IH]; intros first remaining Hl Hr Hs; [done|].
  change (text_of <$> v :: l) with (text_of v :: (text_of <$> l)) in *. rewrite joined_cons in Hs |- *. rewrite slen_app in Hs.
  change (formatParam <$> v :: l) with (formatParam v :: (formatParam <$> l)). cbn [params_loop].
  destruct (Z.ltb_spec 0 remaining); [|lia].
  set (c := if first then ([], remaining) else (js ",", remaining - 1)).
  assert (Hc : c = ((if first then [] else js ","), remaining - (if first then 0 else 1))) by (unfold c; destruct first; f_equal; lia).
  rewrite Hc. assert (Hn : 0 <= slen (match text_of <$> l with [] => [] | _ => js "," ++ joined (text_of <$> l) end)) by apply slen_nonneg.
  rewrite (formatParam_all v) by lia.
  destruct l as [|v' l]; [cbn; by rewrite !app_nil_r|].
  change (match text_of <$> v' :: l with [] => [] | _ => js "," ++ joined (text_of <$> v' :: l) end)
    with (js "," ++ joined (text_of <$> v' :: l)) in *.
  rewrite slen_app in Hs. change (slen (js ",")) with 1 in Hs. assert (Hj := slen_nonneg (joined (text_of <$> v' :: l))).
  rewrite IH by (done || lia). by rewrite <- ?app_assoc.
Qed.

(** Parameters that fit are described in full: when there is room for the texts of an array of
    parameters with commas between them, and none is longer than the maximum for a parameter,
    the description is that list between brackets. *)
Theorem params_described l remaining maxp :
  3 < remaining -> Forall (fun v => slen (text_of v) <= maxp) l -> slen (joined (text_of <$> l)) <= remaining ->
  getParametersInfo (ArrayParams l) remaining maxp = js " [" ++ joined (text_of <$> l) ++ js "]".
Proof.
  intros Hr Hm Hs. unfold getParametersInfo. destruct (Z.leb_spec remaining 3); [lia|]. cbn [stringifiers].
  destruct l as [|v l]; [done|]. rewrite params_loop_all by (done || lia). done.
Qed.

Lemma params_described_witness :
  getParametersInfo (ArrayParams [VText (js "a"); VNull]) 50 10 = js " [a,null]".
Proof.
  rewrite (params_described [VText (js "a"); VNull] 50 10); [reflexivity|lia| |vm_compute; discriminate].
  repeat constructor; vm_compute; discriminate.
Defined.

(** ** One event for each request *)

Inductive outcome : Type := Succeeded (responseLength : option Z) | Failed (stack : jsstr).

Definition observe (l : logger) (x : request * outcome) : logger :=
  match snd x with Succeeded n => onSuccess (fst x) n l | Failed stack => onError (fst x) stack l end.

(** The event of a request, if there is one. *)
Definition classify (l : logger) (x : request * outcome) : option event :=
  let large := exceeds (requestSizeThreshold (opts l)) (num_of_Z (requestLength (fst x))) in
  match snd x with
  | Succeeded _ =>
      if exceeds (slowThreshold (opts l)) (toMillis (latency (fst x))) then Some Slow
      else if large then Some Large else if logNormalRequests l then Some Normal else None
  | Failed _ => if large then Some Large else if logErroredRequests l then Some Failure else None
  end.

Lemma observe_event l x :
  opts (observe l x) = opts l /\ logNormalRequests (observe l x) = logNormalRequests l /\
  logErroredRequests (observe l x) = logErroredRequests l /\
  (fst <$> emitted (observe l x)) = (fst <$> emitted l) ++ match classify l x with Some e => [e] | None => [] end.
Proof.
  unfold observe, classify, onSuccess, onError. destruct x as [r []]; cbn [fst snd]; repeat case_match;
    simplify_eq; cbn [emit logSlow logLargeRequest logNormalRequest logLargeErrorRequest logErrorRequest
                      opts logNormalRequests logErroredRequests emitted]; rewrite ?fmap_app, ?app_nil_r; done.
Qed.

(** Over any sequence of requests the logger emits one event for each request that is slow,
    large, or of a kind that is logged, in their order, and no other; its settings do not change. *)
Theorem events_in_order trace l :
  (fst <$> emitted (fold_left observe trace l)) = (fst <$> emitted l) ++ omap (classify l) trace.
Proof.
  enough (G : forall m, opts m = opts l -> logNormalRequests m = logNormalRequests l -> logErroredRequests m = logErroredRequests l ->
    (fst <$> emitted (fold_left observe trace m)) = (fst <$> emitted m) ++ omap (classify l) trace) by by apply G.
  induction trace as [|x trace IH]; intros m H1 H2 H3; cbn [fold_left omap list_omap]; [by rewrite app_nil_r|].
  destruct (observe_event m x) as (E1 & E2 & E3 & E4). rewrite IH by congruence. rewrite E4.
  assert (E5 : classify m x = classify l x) by (unfold classify; by rewrite H1, H2, H3). rewrite E5, <- app_assoc.
  change (list_omap _ _ (classify l) trace) with (omap (classify l) trace). by destruct (classify l x).
Qed.
