(* ===== verification/Schedules.v ===== *)
(** * Schedules of the policies

    lib/policies/reconnection.js: the delays between attempts to reconnect;
    lib/policies/speculative-execution.js: the delays before speculative executions;
    lib/policies/address-resolution.js: the translation of addresses.

    The delays of a policy are integers, in milliseconds; the jitter is computed with
    Numbers.  The answers of the name service are parameters of the translation.

    The theorems: the delays double from the base up to the maximum and stay there; a plan
    gives the configured number of executions and then none; a translation always gives
    an address, the original one when the name service fails. *)

From stdpp Require Import list.
From S2P Require Import Prelude JsNumber JsString Float NumText.

(** ** Reconnection *)

Record exponential : Type := mkExponential { baseDelay : Z; maxDelay : Z; startWithNoDelay : bool }.

(** What [next] of a schedule gives, which never ends. *)
Definition constant_next (delay : Z) : Z := delay.

(** The index of a new schedule. *)
Definition newSchedule (p : exponential) : Z := if startWithNoDelay p then -1 else 0.

(** The delay of an index before the jitter; [Math.pow(2, index) * baseDelay] is exact. *)
Definition raw_delay (p : exponential) (index : Z) : Z :=
  if 64 <=? index then maxDelay p
  else if negb (index =? -1) then Z.min (2 ^ index * baseDelay p) (maxDelay p)
  else 0.

Definition num_decimal (m e : Z) : number := num_of_decimal false m e.

(** [random] is what [Math.random] gives; [Math.floor] of a product that is not negative. *)
Definition addJitter (p : exponential) (value : Z) (random : number) : Z :=
  if value =? 0 then value
  else
    let '(range, minPercentage) :=
      if negb (startWithNoDelay p) && (value =? baseDelay p) then (num_decimal 15 (-2), num_of_Z 1)
      else if value =? maxDelay p then (num_decimal 15 (-2), num_decimal 85 (-2))
      else (num_decimal 3 (-1), num_decimal 85 (-2)) in
    num_trunc (num_mul (num_of_Z value) (num_add (num_mul random range) minPercentage)).

(** One step of the generator: the delay, and the next index. *)
Definition exponential_next (p : exponential) (index : Z) (random : number) : Z * Z :=
  (addJitter p (raw_delay p index) random, index + 1).

(** The delays for a sequence of random numbers. *)
Fixpoint delays (p : exponential) (index : Z) (randoms : list number) : list Z :=
  match randoms with
  | [] => []
  | r :: randoms => let '(d, index) := exponential_next p index r in d :: delays p index randoms
  end.

Definition defaultReconnectionPolicy : exponential := mkExponential 1000 (10 * 60 * 1000) false.

(** ** Speculative executions *)

Record constantSpeculative : Type := mkSpeculative { delay : number; maxSpeculativeExecutions : number }.

Definition speculative_constructor (delay maxSpeculativeExecutions : number) : result constantSpeculative :=
  if is_nan delay || num_ltZ delay 0 then Err (ArgumentError "delay must be a positive number or zero")
  else if negb (num_gtZ maxSpeculativeExecutions 0) then
    Err (ArgumentError "maxSpeculativeExecutions must be a positive number")
  else Ok (mkSpeculative delay maxSpeculativeExecutions).

(** A plan keeps the number of its executions; [-1] means that there is no other. *)
Definition nextExecution (p : constantSpeculative) (executions : Z) : number * Z :=
  ((if num_gtZ (maxSpeculativeExecutions p) executions then delay p else num_of_Z (-1)), executions + 1).

Fixpoint executions_of (p : constantSpeculative) (executions : Z) (n : nat) : list number :=
  match n with
  | O => []
  | S n => let '(d, executions) := nextExecution p executions in d :: executions_of p executions n
  end.

Definition no_speculative_next : number := num_of_Z (-1).

(** ** Translation of addresses *)

Definition translate (address : jsstr) (port : Z) : jsstr := address ++ js ":" ++ int_str port.

(** The answers of the name service: the names of an address, if any, and the address of a name.
    The result has whether [logError] was called. *)
Definition ec2_translate (reverse : jsstr -> result (option (list jsstr))) (lookup : jsstr -> result jsstr)
    (address : jsstr) (port : Z) : jsstr * bool :=
  let name :=
    match reverse address with
    | Err e => Err e
    | Ok None | Ok (Some []) => Ok []
    | Ok (Some (name :: _)) => Ok name
    end in
  match name with
  | Err _ => (translate address port, true)
  | Ok [] => (translate address port, false)
  | Ok name =>
      match lookup name with
      | Err _ => (translate address port, true)
      | Ok newAddress => (translate newAddress port, false)
      end
  end.

(** ** Theorems *)

Definition valid_policy (p : exponential) : Prop := 0 < baseDelay p <= maxDelay p.

(** The n-th delay before the jitter. *)
Definition nth_delay (p : exponential) (n : nat) : Z := raw_delay p (newSchedule p + Z.of_nat n).

Lemma raw_delay_next p i :
  valid_policy p -> 0 <= i -> raw_delay p (i + 1) = if i <? 63 then Z.min (2 * raw_delay p i) (maxDelay p) else maxDelay p.
Proof.
  intros Hp Hi. unfold raw_delay, valid_policy in *. destruct (Z.ltb_spec i 63).
  - rewrite (proj2 (Z.leb_gt 64 (i + 1))), (proj2 (Z.leb_gt 64 i)) by lia.
    rewrite (proj2 (Z.eqb_neq (i + 1) (-1))), (proj2 (Z.eqb_neq i (-1))) by lia. cbn [negb].
    rewrite Z.pow_add_r, Z.pow_1_r by lia.
    assert (0 < 2 ^ i) by (apply Z.pow_pos_nonneg; lia).
    replace (2 ^ i * 2 * baseDelay p) with (2 * (2 ^ i * baseDelay p)) by ring. lia.
  - by rewrite (proj2 (Z.leb_le 64 (i + 1))) by lia.
Qed.

Lemma raw_delay_range p i : valid_policy p -> 0 <= i -> baseDelay p <= raw_delay p i <= maxDelay p.
Proof.
  intros Hp Hi. unfold raw_delay, valid_policy in *. destruct (Z.leb_spec 64 i); [lia|].
  rewrite (proj2 (Z.eqb_neq i (-1))) by lia. cbn [negb].
  assert (0 < 2 ^ i) by (apply Z.pow_pos_nonneg; lia). nia.
Qed.

Lemma raw_delay_0 p : valid_policy p -> raw_delay p 0 = baseDelay p.
Proof. unfold valid_policy, raw_delay. intros H. cbn [Z.leb Z.eqb Z.compare negb Z.pow]. lia. Qed.

Lemma raw_delay_le p i : valid_policy p -> -1 <= i -> raw_delay p i <= raw_delay p (i + 1).
Proof.
  intros Hp Hi. destruct (Z.eq_dec i (-1)) as [->|Hn].
  - change (raw_delay p (-1)) with 0. change (-1 + 1) with 0. rewrite raw_delay_0 by done. unfold valid_policy in Hp. lia.
  - rewrite raw_delay_next by (done || lia). assert (H := raw_delay_range p i Hp ltac:(lia)).
    unfold valid_policy in Hp. case_Z; lia.
Qed.

(** The delays of a schedule before the jitter: the first is the base, after a delay of zero
    where the policy says so; each is twice the one before, up to the maximum, which is reached
    at the latest after 65 delays; they never decrease and never exceed the maximum. *)
Theorem delays_double p n :
  valid_policy p ->
  nth_delay p (if startWithNoDelay p then 1 else 0) = baseDelay p /\
  (startWithNoDelay p = true -> nth_delay p 0 = 0) /\
  (0 <= newSchedule p + Z.of_nat n < 63 -> nth_delay p (S n) = Z.min (2 * nth_delay p n) (maxDelay p)) /\
  nth_delay p n <= nth_delay p (S n) <= maxDelay p /\
  ((65 <= n)%nat -> nth_delay p n = maxDelay p).
Proof.
  intros Hp. unfold nth_delay, newSchedule. set (i := if startWithNoDelay p then -1 else 0).
  assert (Hi : -1 <= i <= 0) by (unfold i; destruct (startWithNoDelay p); lia).
  replace (i + Z.of_nat (S n)) with (i + Z.of_nat n + 1) by lia.
  split; [|split; [|split; [|split]]].
  - rewrite <- (raw_delay_0 p Hp). unfold i. by destruct (startWithNoDelay p).
  - intros Hs. unfold i. by rewrite Hs.
  - intros Hr. rewrite raw_delay_next by (done || lia). case_Z; [done|lia].
  - split; [apply raw_delay_le; [done|lia]|]. apply raw_delay_range; [done|lia].
  - intros Hn. unfold raw_delay. by rewrite (proj2 (Z.leb_le 64 _)) by lia.
Qed.

Lemma delays_double_witness :
  nth_delay defaultReconnectionPolicy 0 = 1000 /\ nth_delay defaultReconnectionPolicy 70 = 600000.
Proof.
  destruct (delays_double defaultReconnectionPolicy 70) as (H1 & _ & _ & _ & H2); [unfold valid_policy; cbn; lia|].
  split; [exact H1|apply H2; lia].
Defined.

(** The delays of the default policy with the jitter at its least and in the middle. *)
Lemma jitter_sample :
  delays defaultReconnectionPolicy 0 [num_of_Z 0; num_decimal 5 (-1); num_decimal 5 (-1)] = [1000; 2000; 4000] /\
  delays defaultReconnectionPolicy 1 (replicate 3 (num_of_Z 0)) = [1700; 3400; 6800].
Proof. vm_compute. split; reflexivity. Qed.

Lemma executions_of_S p e n :
  executions_of p e (S n) = (if num_gtZ (maxSpeculativeExecutions p) e then delay p else num_of_Z (-1)) :: executions_of p (e + 1) n.
Proof. reflexivity. Qed.

Lemma executions_over d m n k :
  safe_int m -> m <= k -> executions_of (mkSpeculative d (num_of_Z m)) k n = replicate n (num_of_Z (-1)).
Proof.
  intros Hm. revert k. induction n as [|n IH]; intros k Hk; [done|].
  rewrite executions_of_S, IH by lia. cbn [maxSpeculativeExecutions delay replicate].
  rewrite num_gtZ_of_Z by done. by destruct (Z.ltb_spec k m); [lia|].
Qed.

Lemma executions_of_split d m n executions :
  safe_int m -> 0 <= executions <= m ->
  executions_of (mkSpeculative d (num_of_Z m)) executions n
  = replicate (Nat.min n (Z.to_nat (m - executions))) d ++ replicate (n - Z.to_nat (m - executions)) (num_of_Z (-1)).
Proof.
  intros Hm. revert executions. induction n as [|n IH]; intros e He; [done|]. destruct (Z.eq_dec e m) as [->|].
  - rewrite executions_over by (done || lia). rewrite Z.sub_diag. change (Z.to_nat 0) with 0%nat.
    by rewrite Nat.min_0_r, Nat.sub_0_r.
  - rewrite executions_of_S, IH by lia. cbn [maxSpeculativeExecutions delay]. rewrite num_gtZ_of_Z by done.
    destruct (Z.ltb_spec e m); [|lia]. by replace (Z.to_nat (m - e)) with (S (Z.to_nat (m - (e + 1)))) by lia.
Qed.

(** A plan of speculative executions accepted by the constructor starts the configured number of
    executions, each after the configured delay, and then no other. *)
Theorem speculative_plan d m p n :
  safe_int m -> speculative_constructor d (num_of_Z m) = Ok p ->
  executions_of p 0 n = replicate (Nat.min n (Z.to_nat m)) d ++ replicate (n - Z.to_nat m) (num_of_Z (-1)).
Proof.
  intros Hm. unfold speculative_constructor. destruct (is_nan d || num_ltZ d 0); [done|].
  rewrite num_gtZ_of_Z by done. destruct (Z.ltb_spec 0 m); [|done]. intros [= <-].
  rewrite executions_of_split by (done || lia). by rewrite Z.sub_0_r.
Qed.

Lemma speculative_plan_witness :
  executions_of (mkSpeculative (num_of_Z 500) (num_of_Z 2)) 0 3 = [num_of_Z 500; num_of_Z 500; num_of_Z (-1)].
Proof. apply (speculative_plan (num_of_Z 500) 2 _ 3); [unfold safe_int; lia|reflexivity]. Defined.

(** A translation always gives an address with the port: the one the name service gives for the
    first name of the address, and the original one when there is no name or the service fails,
    and a failure is logged. *)
Theorem ec2_translate_total reverse lookup address port :
  exists a logged, ec2_translate reverse lookup address port = (translate a port, logged) /\
  (logged = true -> a = address) /\
  (a <> address -> exists name names, reverse address = Ok (Some (name :: names)) /\ name <> [] /\ lookup name = Ok a) /\
  (logged = false <-> exists o, reverse address = Ok o /\ forall name names, o = Some (name :: names) -> name <> [] -> exists b, lookup name = Ok b).
Proof.
  unfold ec2_translate. destruct (reverse address) as [[[|name names]|]|e] eqn:Er.
  - exists address, false. split; [done|]. split; [done|]. split; [done|]. split; [|done]. intros _. by eexists.
  - destruct name as [|c name].
    + exists address, false. split; [done|]. split; [done|]. split; [done|]. split; [|done].
      intros _. eexists. split; [done|]. by intros ? ? [= <- <-].
    + destruct (lookup (c :: name)) as [a|e] eqn:El.
      * exists a, false. split; [done|]. split; [done|]. split; [by eauto 8|]. split; [|done].
        intros _. eexists. split; [done|]. intros ? ? [= <- <-]. eauto.
      * exists address, true. split; [done|]. split; [done|]. split; [done|]. split; [done|].
        intros (o & [= <-] & H). destruct (H _ _ eq_refl) as [b Hb]; [done|]. congruence.
  - exists address, false. split; [done|]. split; [done|]. split; [done|]. split; [|done]. intros _. by eexists.
  - exists address, true. split; [done|]. split; [done|]. split; [done|]. split; [done|]. by intros (o & ? & _).
Qed.
