(* ===== verification/Rounding.v ===== *)
(** * Rounded arithmetic on large Numbers

    Bounds on the results of the operators of Number when they are not exact, and
    exactness on integers with at most 53 significant bits, however large: what the
    division and the decimal text of Integer rely on. *)

From Stdlib Require Import SpecFloat.
From stdpp Require Import list.
From S2P Require Import Prelude JsNumber Buffer Float.

(** ** Upper bounds *)

Lemma shr_1_half r : 0 <= shr_m r -> shr_m (shr_1 r) = shr_m r / 2.
Proof.
  destruct r as [m r s]. cbn [shr_m]. intros Hm. destruct m as [|[p|p|]|]; cbn [shr_1 shr_m]; try done; lia.
Qed.

Lemma iter_shr_div p r :
  0 <= shr_m r -> shr_m (SpecFloat.iter_pos shr_1 p r) = shr_m r / 2 ^ Z.pos p.
Proof.
  revert r. induction p as [p IH|p IH|]; intros r Hr; cbn [SpecFloat.iter_pos].
  - assert (H1 := shr_1_half r Hr). assert (0 <= shr_m (shr_1 r)) by (rewrite H1; lia).
    assert (H2 := IH (shr_1 r) ltac:(lia)). assert (Hp : 0 < 2 ^ Z.pos p) by (apply pow2_pos; lia).
    rewrite IH by (rewrite H2; apply Z.div_pos; lia). rewrite H2, H1, !Z.div_div by lia. f_equal.
    replace (Z.pos p~1) with (1 + Z.pos p + Z.pos p) by lia. rewrite !Z.pow_add_r by lia. lia.
  - assert (H2 := IH r Hr). assert (Hp : 0 < 2 ^ Z.pos p) by (apply pow2_pos; lia).
    rewrite IH by (rewrite H2; apply Z.div_pos; lia). rewrite H2, !Z.div_div by lia. f_equal.
    replace (Z.pos p~0) with (Z.pos p + Z.pos p) by lia. by rewrite !Z.pow_add_r by lia.
  - by apply shr_1_half.
Qed.

Lemma shr_div r e n :
  0 <= shr_m r -> shr_m (fst (shr r e n)) = shr_m r / 2 ^ Z.max 0 n /\ snd (shr r e n) = e + Z.max 0 n.
Proof.
  intros Hr. destruct n as [|p|p]; cbn [shr fst snd].
  - change (Z.max 0 0) with 0. rewrite Z.div_1_r. lia.
  - rewrite iter_shr_div by done. replace (Z.max 0 (Z.pos p)) with (Z.pos p) by lia. done.
  - replace (Z.max 0 (Z.neg p)) with 0 by lia. rewrite Z.div_1_r. lia.
Qed.

Lemma shr_record_m m l : shr_m (shr_record_of_loc m l) = m.
Proof. by destruct l as [|[]]. Qed.

Lemma round_even_le m l : m <= round_nearest_even m l <= m + 1.
Proof. destruct l as [|[]]; cbn [round_nearest_even]; try destruct (Z.even m); lia. Qed.

Lemma digits2_lt m : 0 <= m -> m < 2 ^ Zdigits2 m.
Proof. destruct m as [|p|p]; cbn [Zdigits2]; [lia| |lia]. intros _. apply digits2_pos_spec. Qed.

(** The scale at which bounds are compared: exponents are above [-scale]. *)
Definition scale : Z := 4000.

(** A Number that is not negative, has at most 53 significant bits and is at most [b]. *)
Definition num_le (x : number) (b : Z) : Prop :=
  match x with
  | S754_zero false => 0 <= b
  | S754_finite false m e => -1074 <= e /\ Z.pos m < 2 ^ 53 /\ Z.pos m * 2 ^ (e + scale) <= b * 2 ^ scale
  | _ => False
  end.

Lemma scale_pos : 0 < 2 ^ scale.
Proof. apply pow2_pos. unfold scale. lia. Qed.

Lemma pow_le_bound e b : - scale <= e -> 2 ^ (e + scale) <= b * 2 ^ scale -> 0 < b < 2 ^ 900 -> e < 900.
Proof.
  intros He Hb Hr. assert (Hs := scale_pos). destruct (Z.lt_ge_cases e 900) as [|Hge]; [done|]. exfalso.
  assert (H : 2 ^ (900 + scale) <= 2 ^ (e + scale)) by (apply Z.pow_le_mono_r; lia).
  rewrite (Z.pow_add_r 2 900 scale) in H by (unfold scale; lia).
  assert (b * 2 ^ scale < 2 ^ 900 * 2 ^ scale) by (apply Z.mul_lt_mono_pos_r; lia). lia.
Qed.

(** The exponent a mantissa is rounded at. *)
Lemma round_exponent_le mx ex b :
  0 <= mx -> - scale <= ex -> 0 < b -> mx * 2 ^ (ex + scale) <= b * 2 ^ scale -> (mx <> 0 \/ ex <= 0) ->
  let n := fexp prec64 emax64 (Zdigits2 mx + ex) - ex in
  2 ^ (ex + Z.max 0 n + scale) <= b * 2 ^ scale.
Proof.
  intros Hm He Hb Hv Hz. cbn zeta. assert (Hs := scale_pos).
  assert (H0 : forall e, - scale <= e <= 0 -> 2 ^ (e + scale) <= b * 2 ^ scale).
  { intros e Hle. assert (2 ^ (e + scale) <= 2 ^ scale) by (apply Z.pow_le_mono_r; lia). nia. }
  unfold fexp, emin, prec64, emax64.
  destruct (Z.eq_dec mx 0) as [->|Hn].
  - cbn [Zdigits2]. apply H0. unfold scale in *. lia.
  - destruct mx as [|p|p]; [done| |lia]. cbn [Zdigits2]. assert (Hd := digits2_pos_spec p).
    assert (Hx : 2 ^ (ex + scale) <= b * 2 ^ scale) by (assert (0 < 2 ^ (ex + scale)) by (apply pow2_pos; lia); nia).
    destruct (Z.le_gt_cases (Z.max (Z.pos (digits2_pos p) + ex - 53) (3 - 1024 - 53)) ex).
    + replace (ex + Z.max 0 _) with ex by lia. done.
    + destruct (Z.le_gt_cases (Z.pos (digits2_pos p) + ex - 53) (3 - 1024 - 53)).
      * replace (ex + Z.max 0 _) with (-1074) by lia. apply H0. unfold scale. lia.
      * replace (ex + Z.max 0 _ + scale) with (Z.pos (digits2_pos p) - 53 + (ex + scale)) by lia.
        rewrite Z.pow_add_r by lia.
        assert (2 ^ (Z.pos (digits2_pos p) - 53) <= 2 ^ (Z.pos (digits2_pos p) - 1)) by (apply Z.pow_le_mono_r; lia).
        assert (0 < 2 ^ (ex + scale)) by (apply pow2_pos; lia). nia.
Qed.

(** A rounded result is at most twice any integer bound of the exact one. *)
Lemma binary_round_aux_le mx ex lx b :
  0 <= mx -> - scale <= ex -> 0 < b < 2 ^ 890 -> mx * 2 ^ (ex + scale) <= b * 2 ^ scale -> (mx <> 0 \/ ex <= 0) ->
  num_le (binary_round_aux prec64 emax64 false mx ex lx) (2 * b).
Proof.
  intros Hm He Hb Hv Hz. assert (Hs := scale_pos). assert (Hx := round_exponent_le mx ex b Hm He ltac:(lia) Hv Hz). cbn zeta in Hx.
  unfold binary_round_aux, shr_fexp. set (n := fexp _ _ (Zdigits2 mx + ex) - ex) in *.
  destruct (shr_div (shr_record_of_loc mx lx) ex n) as [E1 E2]; [by rewrite shr_record_m|].
  rewrite shr_record_m in E1. destruct (shr (shr_record_of_loc mx lx) ex n) as [r1 e1]. cbn [fst snd] in E1, E2.
  set (m1 := round_nearest_even (shr_m r1) (loc_of_shr_record r1)).
  assert (Hm1 : shr_m r1 <= m1 <= shr_m r1 + 1) by apply round_even_le.
  assert (Hp : 0 < 2 ^ Z.max 0 n) by (apply pow2_pos; lia).
  assert (Hd : 0 <= mx / 2 ^ Z.max 0 n) by (apply Z.div_pos; lia).
  assert (Hd2 : mx / 2 ^ Z.max 0 n * 2 ^ Z.max 0 n <= mx) by (rewrite Z.mul_comm; apply Z.mul_div_le; lia).
  set (n2 := fexp _ _ (Zdigits2 m1 + e1) - e1).
  destruct (shr_div (shr_record_of_loc m1 loc_Exact) e1 n2) as [F1 F2]; [rewrite shr_record_m; lia|].
  rewrite shr_record_m in F1. destruct (shr (shr_record_of_loc m1 loc_Exact) e1 n2) as [r2 e2]. cbn [fst snd] in F1, F2.
  assert (Hp2 : 0 < 2 ^ Z.max 0 n2) by (apply pow2_pos; lia).
  assert (Hr2 : 0 <= shr_m r2 /\ shr_m r2 * 2 ^ Z.max 0 n2 <= m1).
  { rewrite F1. split; [apply Z.div_pos; lia|]. rewrite Z.mul_comm. apply Z.mul_div_le. lia. }
  assert (Hval : shr_m r2 * 2 ^ (e2 + scale) <= 2 * b * 2 ^ scale).
  { rewrite F2. replace (e1 + Z.max 0 n2 + scale) with (Z.max 0 n2 + (e1 + scale)) by lia. rewrite Z.pow_add_r by lia.
    rewrite E2 in *. replace (ex + Z.max 0 n + scale) with (Z.max 0 n + (ex + scale)) in * by lia.
    rewrite (Z.pow_add_r 2 (Z.max 0 n) (ex + scale)) in * by lia. assert (0 < 2 ^ (ex + scale)) by (apply pow2_pos; lia). nia. }
  assert (H53 : shr_m r2 < 2 ^ 53).
  { rewrite F1. apply Z.div_lt_upper_bound; [lia|]. assert (Hl := digits2_lt m1 ltac:(lia)).
    assert (2 ^ Zdigits2 m1 <= 2 ^ (Z.max 0 n2 + 53)).
    { apply Z.pow_le_mono_r; [lia|]. unfold n2, fexp, emin, prec64, emax64. lia. }
    rewrite Z.pow_add_r in * by lia. lia. }
  assert (He2 : -1074 <= e2) by (subst e2 e1 n; unfold fexp, emin, prec64, emax64; lia). clearbody n n2 m1. clear F1 F2 E1 E2 Hx.
  destruct (shr_m r2) as [|m|m]; [cbn; lia| |lia].
  assert (e2 < 900).
  { apply (pow_le_bound e2 (2 * b)); [unfold scale; lia| |lia]. assert (0 < 2 ^ (e2 + scale)) by (apply pow2_pos; unfold scale; lia). nia. }
  rewrite Zle_imp_le_bool by (unfold emax64, prec64; lia). cbn [num_le]. auto.
Qed.

Lemma shl_align_mul m e ez : ez <= e -> Z.pos (fst (shl_align m e ez)) = Z.pos m * 2 ^ (e - ez) /\ snd (shl_align m e ez) = ez.
Proof.
  intros Hle. unfold shl_align. destruct (ez - e) as [|d|d] eqn:E; [|lia|]; cbn [fst snd].
  - replace (e - ez) with 0 by lia. split; [by rewrite Z.mul_1_r|lia].
  - change (Pos.iter xO m d) with (shift_pos d m). rewrite shift_pos_mul. split; [do 2 f_equal; lia|done].
Qed.

(** An aligned mantissa denotes the same Number. *)
Lemma shl_align_scaled m e ez :
  - scale <= ez <= e -> Z.pos (fst (shl_align m e ez)) * 2 ^ (ez + scale) = Z.pos m * 2 ^ (e + scale).
Proof.
  intros H. rewrite (proj1 (shl_align_mul m e ez ltac:(lia))), <- Z.mul_assoc, <- Z.pow_add_r by lia. do 2 f_equal. lia.
Qed.

Lemma binary_round_le m e b :
  - 3000 <= e -> 0 < b < 2 ^ 890 -> Z.pos m * 2 ^ (e + scale) <= b * 2 ^ scale ->
  num_le (binary_round prec64 emax64 false m e) (2 * b).
Proof.
  intros He Hb Hv. unfold binary_round. set (ex := fexp _ _ _).
  destruct (Z.le_gt_cases ex e) as [Hle|Hgt].
  - assert (Hx : -3100 <= ex) by (unfold ex, fexp, emin, prec64, emax64; lia).
    destruct (shl_align_mul m e ex Hle) as [_ E2]. assert (E1 := shl_align_scaled m e ex ltac:(unfold scale; lia)).
    destruct (shl_align m e ex) as [mz ez]. cbn [fst snd] in *. subst ez.
    apply binary_round_aux_le; try lia. unfold scale. lia.
  - assert (E : shl_align m e ex = (m, e)) by (unfold shl_align; by destruct (ex - e) eqn:E; [|done|lia]).
    rewrite E. apply binary_round_aux_le; try lia. unfold scale. lia.
Qed.

Lemma num_le_weaken x a b : num_le x a -> a <= b -> num_le x b.
Proof.
  intros H Hab. assert (Hs := scale_pos). destruct x as [[]|[]| |[] m e]; try done; cbn [num_le] in *; [lia|].
  destruct H as (H1 & H2 & H3). split; [done|]. split; [done|]. nia.
Qed.

Lemma num_add_le x y a b :
  num_le x a -> num_le y b -> 0 < a + b < 2 ^ 890 ->
  num_le (num_add x y) (2 * (a + b)).
Proof.
  intros Hx Hy Hab. assert (Hs := scale_pos).
  destruct x as [[]|[]| |[] mx ex]; try done; destruct y as [[]|[]| |[] my ey]; try done.
  - cbn. lia.
  - cbn [num_le] in Hx. apply (num_le_weaken _ b); [exact Hy|lia].
  - cbn [num_le] in Hy. apply (num_le_weaken _ a); [exact Hx|lia].
  - unfold num_add, SFadd. set (ez := Z.min ex ey).
    destruct Hx as (Ex & _ & Hx), Hy as (Ey & _ & Hy).
    assert (A1 := shl_align_scaled mx ex ez ltac:(unfold scale; lia)).
    assert (A2 := shl_align_scaled my ey ez ltac:(unfold scale; lia)).
    cbn [cond_Zopp]. destruct (shl_align mx ex ez) as [m1 e1], (shl_align my ey ez) as [m2 e2]. cbn [fst] in *.
    change (Z.pos m1 + Z.pos m2) with (Z.pos (m1 + m2)). cbn [binary_normalize].
    apply binary_round_le; [lia|lia|]. rewrite Pos2Z.inj_add. lia.
Qed.

Lemma num_mul_le x y a b :
  num_le x a -> num_le y b -> 0 < a * b < 2 ^ 890 ->
  num_le (num_mul x y) (2 * (a * b)).
Proof.
  intros Hx Hy Hab. assert (Hs := scale_pos).
  destruct x as [[]|[]| |[] mx ex]; try done; destruct y as [[]|[]| |[] my ey]; try done; try (cbn; lia).
  unfold num_mul, SFmul. cbn [xorb] in *. destruct Hx as (Ex & _ & Hx), Hy as (Ey & _ & Hy).
  apply binary_round_aux_le; try lia; [unfold scale; lia|].
  assert (0 < 2 ^ (ex + scale)) by (apply pow2_pos; unfold scale; lia).
  assert (0 < 2 ^ (ey + scale)) by (apply pow2_pos; unfold scale; lia).
  assert (E : 2 ^ (ex + ey + scale) * 2 ^ scale = 2 ^ (ex + scale) * 2 ^ (ey + scale))
    by (rewrite <- !Z.pow_add_r by (unfold scale; lia); f_equal; lia).
  apply (Z.mul_le_mono_pos_r _ _ (2 ^ scale)); [done|].
  rewrite Pos2Z.inj_mul, <- Z.mul_assoc, E.
  transitivity ((Z.pos mx * 2 ^ (ex + scale)) * (Z.pos my * 2 ^ (ey + scale))); [apply Z.eq_le_incl; ring|].
  transitivity ((a * 2 ^ scale) * (b * 2 ^ scale)); [apply Z.mul_le_mono_nonneg; lia|apply Z.eq_le_incl; ring].
Qed.

(** The quotient by a positive integer. *)
Lemma num_div_le x a b :
  num_le x a -> 0 < b < 2 ^ 53 -> a < 2 ^ 800 -> num_le (num_div x (num_of_Z b)) (4 * (a / b + 2)).
Proof.
  intros Hx Hb Ha. assert (Hs := scale_pos).
  destruct (num_of_Z_full b) as (m2 & k & E & Hk & Hm2 & Hd2); [unfold safe_int; lia|lia|]. rewrite E.
  assert (Hq : forall c, 0 <= c -> 0 <= c / b) by (intros; apply Z.div_pos; lia).
  destruct x as [[]|[]| |[] m1 e1]; try done; cbn [num_le] in Hx.
  { cbn. specialize (Hq a). lia. }
  destruct Hx as (He1 & Hm1 & Hv). unfold num_div, SFdiv. cbn [xorb]. unfold SFdiv_core_binary. cbn [Zdigits2]. rewrite Hd2.
  assert (Ha0 : 0 < a) by (assert (0 < 2 ^ (e1 + scale)) by (apply pow2_pos; unfold scale; lia); nia).
  set (e' := Z.min _ _). set (s := e1 - - k - e'). assert (Hs0 : 0 <= s) by lia.
  assert (Em : match s with Z0 => Z.pos m1 | Z.pos _ => Z.shiftl (Z.pos m1) s | Z.neg _ => 0 end = Z.pos m1 * 2 ^ s).
  { rewrite <- Z.shiftl_mul_pow2 by done. destruct s; [done|done|lia]. }
  rewrite Em. clear Em. assert (Hdm := Z_div_mod (Z.pos m1 * 2 ^ s) (Z.pos m2) ltac:(lia)).
  destruct (Z.div_eucl _ _) as [q r]. destruct Hdm as [Hq1 Hr].
  assert (Hps : 0 < 2 ^ s) by (by apply pow2_pos). assert (Hq0 : 0 <= q) by nia.
  assert (He' : -1200 <= e' <= 0 \/ 0 < e').
  { unfold e', fexp, emin, prec64, emax64. lia. }
  assert (Hb2 : 2 * (a / b + 2) < 2 ^ 890 /\ 0 <= a / b) by (assert (a / b <= a) by (apply Z.div_le_upper_bound; nia); split; [lia|apply Hq; lia]).
  replace (4 * (a / b + 2)) with (2 * (2 * (a / b + 2))) by lia. apply binary_round_aux_le; try lia.
  - unfold scale. lia.
  - assert (Hpe : 0 < 2 ^ (e' + scale)) by (apply pow2_pos; unfold scale; lia).
    assert (Hpk : 0 < 2 ^ k) by (apply pow2_pos; lia).
    (* q * m2 * 2^e' <= m1 * 2^(s + e') = m1 * 2^(e1 + k), and m2 = b * 2^k *)
    assert (H1 : q * (b * 2 ^ k) * 2 ^ (e' + scale) <= a * 2 ^ scale * 2 ^ k).
    { rewrite <- Hm2. transitivity (Z.pos m1 * 2 ^ s * 2 ^ (e' + scale)); [apply Z.mul_le_mono_nonneg_r; lia|].
      transitivity (Z.pos m1 * 2 ^ (e1 + scale) * 2 ^ k); [|apply Z.mul_le_mono_nonneg_r; lia].
      rewrite <- !Z.mul_assoc, <- !Z.pow_add_r by (unfold scale; lia). apply Z.eq_le_incl. do 2 f_equal. lia. }
    assert (H2 : q * b * 2 ^ (e' + scale) <= a * 2 ^ scale).
    { apply (Z.mul_le_mono_pos_r _ _ (2 ^ k)); [done|]. lia. }
    assert (Hab : a < b * (a / b + 1)) by (apply Z.mul_succ_div_gt; lia).
    apply (Z.mul_le_mono_pos_l _ _ b); [lia|]. nia.
  - destruct (Z.eq_dec q 0) as [->|]; [|by left]. right.
    assert (Hlt : Z.pos m1 * 2 ^ s < Z.pos m2) by lia.
    assert (Z.pos m1 * 2 ^ s < 2 ^ 53) by (assert (Hd := digits2_pos_spec m2); rewrite Hd2 in Hd; lia).
    destruct (Z.le_gt_cases e' 0); [done|]. exfalso.
    assert (Hd1 := digits2_pos_spec m1).
    assert (e' <= fexp prec64 emax64 (Z.pos (digits2_pos m1) + e1 - (53 + - k))) by (unfold e'; lia).
    unfold fexp, emin, prec64, emax64 in *. 
    assert (2 ^ (Z.pos (digits2_pos m1) - 1) * 2 ^ s < 2 ^ 53) by nia.
    rewrite <- Z.pow_add_r in * by lia. 
    assert (Z.pos (digits2_pos m1) - 1 + s < 53) by (apply (Z.pow_lt_mono_r_iff 2); lia). lia.
Qed.

(** ** Integers with at most 53 significant bits *)

Definition short (z : Z) : Prop := exists a j, z = a * 2 ^ j /\ 0 < a < 2 ^ 53 /\ 0 <= j <= 900.

Lemma num_le_short x b : num_le x b -> 0 < num_trunc x -> b < 2 ^ 890 -> short (num_trunc x) /\ num_trunc x <= b.
Proof.
  intros Hx Hp Hb. assert (Hs := scale_pos). destruct x as [[]|[]| |[] m e]; try done.
  destruct Hx as (He & Hm & Hv). cbn [num_trunc] in *. destruct (Z.leb_spec 0 e) as [H0|H0].
  - rewrite Z.pow_add_r, Z.mul_assoc in Hv by (unfold scale; lia). apply Z.mul_le_mono_pos_r in Hv; [|done].
    split; [|done]. exists (Z.pos m), e. split; [done|]. split; [lia|]. split; [done|].
    destruct (Z.le_gt_cases e 900); [done|]. assert (2 ^ 900 <= 2 ^ e) by (apply Z.pow_le_mono_r; lia). nia.
  - assert (Hpe : 0 < 2 ^ (- e)) by (apply pow2_pos; lia).
    assert (Hle : Z.pos m / 2 ^ (- e) * 2 ^ (- e) <= Z.pos m) by (rewrite Z.mul_comm; apply Z.mul_div_le; lia).
    split.
    + exists (Z.pos m / 2 ^ (- e)), 0. rewrite Z.mul_1_r. split; [done|]. split; [nia|lia].
    + assert (E : 2 ^ scale = 2 ^ (e + scale) * 2 ^ (- e)) by (rewrite <- Z.pow_add_r by (unfold scale; lia); f_equal; lia).
      assert (0 < 2 ^ (e + scale)) by (apply pow2_pos; unfold scale; lia).
      apply (Z.mul_le_mono_pos_r _ _ (2 ^ scale)); [done|]. rewrite E at 1. nia.
Qed.

(** Whatever the mantissa and exponent that denote a short integer, rounding gives its Number. *)
Lemma normalize_short m e z :
  -1074 <= e -> short z -> m * 2 ^ (e + scale) = z * 2 ^ scale -> binary_normalize prec64 emax64 m e false = num_of_Z z.
Proof.
  intros He (a & j & -> & Ha & Hj) Hm. assert (Hs := scale_pos).
  assert (Hpj : 0 < 2 ^ j) by (apply pow2_pos; lia). assert (Hpe : 0 < 2 ^ (e + scale)) by (apply pow2_pos; unfold scale; lia).
  assert (Hm0 : 0 < m) by nia. destruct m as [|p|p]; try lia. destruct a as [|a|a]; try lia.
  unfold num_of_Z. destruct (Z.pos a * 2 ^ j) as [|z|z] eqn:Ez; [lia| |lia]. cbn [binary_normalize].
  destruct (Z.le_gt_cases e j) as [Hle|Hgt].
  - assert (Ep : Z.pos p = Z.pos a * 2 ^ (j - e)).
    { apply (Z.mul_reg_r _ _ (2 ^ (e + scale))); [lia|]. rewrite Hm, <- Ez, <- !Z.mul_assoc, <- !Z.pow_add_r by (unfold scale; lia).
      do 2 f_equal. lia. }
    rewrite (binary_round_scale _ p a e (j - e)), (binary_round_scale _ z a 0 j)
      by (first [lia | done | apply safe_digits; lia]).
    f_equal. lia.
  - assert (Ep : Z.pos a = Z.pos p * 2 ^ (e - j)).
    { apply (Z.mul_reg_r _ _ (2 ^ (j + scale))); [assert (0 < 2 ^ (j + scale)) by (apply pow2_pos; unfold scale; lia); lia|].
      rewrite <- (Z.mul_assoc (Z.pos p)), <- Z.pow_add_r by (unfold scale; lia).
      replace (e - j + (j + scale)) with (e + scale) by lia. rewrite Hm, <- Ez, Z.pow_add_r by (unfold scale; lia). ring. }
    assert (Hej : 0 < 2 ^ (e - j)) by (apply pow2_pos; lia).
    assert (He2 : e - j <= 52).
    { destruct (Z.le_gt_cases (e - j) 52); [done|]. assert (2 ^ 53 <= 2 ^ (e - j)) by (apply Z.pow_le_mono_r; lia). nia. }
    assert (Hd : Z.pos (digits2_pos p) + e <= 1024).
    { assert (Hda := digits2_mul_pow p a (e - j) ltac:(lia) Ep). assert (Hd53 := digits_53 a ltac:(lia)). lia. }
    rewrite (binary_round_scale _ z p 0 e); [f_equal; lia|lia| |nia|lia|lia].
    rewrite <- Ez, Ep, <- Z.mul_assoc, <- Z.pow_add_r by lia. do 2 f_equal. lia.
Qed.

Lemma num_of_Z_short z :
  short z -> exists m e, num_of_Z z = S754_finite false m e /\ -1074 <= e /\ Z.pos m * 2 ^ (e + scale) = z * 2 ^ scale.
Proof.
  intros (a & j & -> & Ha & Hj). destruct a as [|a|a]; try lia. assert (Hpj : 0 < 2 ^ j) by (apply pow2_pos; lia).
  unfold num_of_Z. destruct (Z.pos a * 2 ^ j) as [|z|z] eqn:Ez; [lia| |lia]. cbn [binary_normalize].
  rewrite (binary_round_scale _ z a 0 j) by (first [lia | done | apply safe_digits; lia]).
  assert (Hdg : Z.pos (digits2_pos a) + (0 + j) <= 1024) by (apply safe_digits; lia).
  destruct (binary_round_exact false a (0 + j)) as (m & k & -> & Hk & Hk0 & Hm); [lia|lia|exact Hdg|].
  exists m, (0 + j - k). split; [done|].
  assert (-1074 <= 0 + j - k) by (rewrite Hk; unfold fexp64, fexp, emin, prec64, emax64; lia).
  split; [done|]. rewrite Hm, <- Ez, <- !Z.mul_assoc, <- !Z.pow_add_r by (unfold scale; lia). do 2 f_equal. lia.
Qed.

Lemma num_trunc_short z : short z -> is_finite (num_of_Z z) = true /\ num_trunc (num_of_Z z) = z.
Proof.
  intros Hz. destruct (num_of_Z_short z Hz) as (m & e & -> & He & Hm). split; [done|]. cbn [num_trunc].
  assert (Hs := scale_pos). destruct (Z.leb_spec 0 e).
  - rewrite Z.pow_add_r, Z.mul_assoc in Hm by (unfold scale; lia). apply Z.mul_reg_r in Hm; [done|lia].
  - assert (E : 2 ^ scale = 2 ^ (- e) * 2 ^ (e + scale)) by (rewrite <- Z.pow_add_r by (unfold scale; lia); f_equal; lia).
    rewrite E, Z.mul_assoc in Hm. assert (0 < 2 ^ (e + scale)) by (apply pow2_pos; unfold scale; lia).
    apply Z.mul_reg_r in Hm; [|lia]. rewrite Hm. apply Z.div_mul. assert (0 < 2 ^ (- e)) by (apply pow2_pos; lia). lia.
Qed.

(** Subtraction is exact when the difference is short. *)
Lemma num_sub_short x y :
  short x -> short y -> short (x - y) -> num_sub (num_of_Z x) (num_of_Z y) = num_of_Z (x - y).
Proof.
  intros Hx Hy Hxy. destruct (num_of_Z_short x Hx) as (m1 & e1 & -> & He1 & Hm1).
  destruct (num_of_Z_short y Hy) as (m2 & e2 & -> & He2 & Hm2). unfold num_sub, SFsub. set (ez := Z.min e1 e2).
  cbn [cond_Zopp]. apply normalize_short; [lia|done|].
  rewrite Z.mul_sub_distr_r, !shl_align_scaled by (unfold scale; lia). lia.
Qed.

(** ** Bounds of zero *)

Lemma num_le_0 x : num_le x 0 -> x = S754_zero false.
Proof.
  assert (Hs := scale_pos). destruct x as [[]|[]| |[] m e]; try done. intros (He & _ & Hv).
  assert (0 < 2 ^ (e + scale)) by (apply pow2_pos; unfold scale; lia). nia.
Qed.

Lemma num_le_nonneg x b : num_le x b -> 0 <= b.
Proof.
  assert (Hs := scale_pos). destruct x as [[]|[]| |[] m e]; try done. intros (He & _ & Hv).
  assert (0 < 2 ^ (e + scale)) by (apply pow2_pos; unfold scale; lia). nia.
Qed.

Lemma num_add_bound x y a b : num_le x a -> num_le y b -> a + b < 2 ^ 890 -> num_le (num_add x y) (2 * (a + b)).
Proof.
  intros Hx Hy Hab. assert (H1 := num_le_nonneg _ _ Hx). assert (H2 := num_le_nonneg _ _ Hy).
  destruct (Z.eq_dec (a + b) 0) as [E|]; [|apply num_add_le; (done || lia)].
  assert (a = 0) as -> by lia. assert (b = 0) as -> by lia. apply num_le_0 in Hx, Hy. subst. cbn. lia.
Qed.

Lemma num_mul_bound x y a b : num_le x a -> num_le y b -> a * b < 2 ^ 890 -> num_le (num_mul x y) (2 * (a * b)).
Proof.
  intros Hx Hy Hab. assert (H1 := num_le_nonneg _ _ Hx). assert (H2 := num_le_nonneg _ _ Hy).
  destruct (Z.eq_dec (a * b) 0) as [E|]; [|apply num_mul_le; (done || nia)]. rewrite E.
  apply Z.eq_mul_0 in E as [->| ->].
  - apply num_le_0 in Hx. subst. by destruct y as [[]|[]| |[]].
  - apply num_le_0 in Hy. subst. by destruct x as [[]|[]| |[]].
Qed.

Lemma num_le_of_Z z : 0 <= z < 2 ^ 53 -> num_le (num_of_Z z) z.
Proof.
  intros Hz. destruct (Z.eq_dec z 0) as [->|]; [cbn; lia|].
  destruct (num_of_Z_full z) as (m & k & -> & Hk & Hm & Hd); [unfold safe_int; lia|lia|].
  assert (Hs := digits2_pos_spec m). rewrite Hd in Hs. cbn [num_le]. split; [lia|]. split; [lia|].
  rewrite Hm, <- Z.mul_assoc, <- Z.pow_add_r by (unfold scale; lia). apply Z.eq_le_incl. do 2 f_equal. lia.
Qed.

Lemma num_is_integer_short z : short z -> num_is_integer (num_of_Z z) = true.
Proof.
  intros Hz. destruct (num_of_Z_short z Hz) as (m & e & -> & He & Hm). cbn [num_is_integer].
  assert (Hs := scale_pos). destruct (Z.leb_spec 0 e); [done|]. cbn [orb].
  assert (E : 2 ^ scale = 2 ^ (- e) * 2 ^ (e + scale)) by (rewrite <- Z.pow_add_r by (unfold scale; lia); f_equal; lia).
  rewrite E, Z.mul_assoc in Hm. assert (0 < 2 ^ (e + scale)) by (apply pow2_pos; unfold scale; lia).
  apply Z.mul_reg_r in Hm; [|lia]. rewrite Hm, Z.mod_mul; [done|]. assert (0 < 2 ^ (- e)) by (apply pow2_pos; lia). lia.
Qed.

(** A short integer is a multiple of the unit of its last significant bit. *)
Lemma short_unit z : short z -> exists a, z = a * 2 ^ Z.max 0 (Z.log2 z - 52) /\ 0 < a < 2 ^ 53.
Proof.
  intros (a & j & E & Ha & Hj). set (u := Z.max 0 (Z.log2 z - 52)).
  assert (Hpj : 0 < 2 ^ j) by (apply pow2_pos; lia). assert (Hpu : 0 < 2 ^ u) by (apply pow2_pos; lia).
  assert (Hz : 0 < z) by (rewrite E; nia). assert (Hl := Z.log2_spec z Hz).
  assert (Huj : u <= j).
  { destruct (Z.le_gt_cases u j); [done|]. exfalso. assert (u = Z.log2 z - 52) by lia.
    assert (2 ^ 53 * 2 ^ j <= 2 ^ Z.log2 z) by (rewrite <- Z.pow_add_r by lia; apply Z.pow_le_mono_r; lia). nia. }
  exists (a * 2 ^ (j - u)). split; [rewrite <- Z.mul_assoc, <- Z.pow_add_r by lia; rewrite E; do 2 f_equal; lia|].
  assert (0 < 2 ^ (j - u)) by (apply pow2_pos; lia). split; [nia|].
  apply (Z.mul_lt_mono_pos_r (2 ^ u)); [done|]. rewrite <- Z.mul_assoc, <- !Z.pow_add_r by lia.
  replace (j - u + u) with j by lia. rewrite <- E.
  assert (2 ^ Z.succ (Z.log2 z) <= 2 ^ (53 + u)) by (apply Z.pow_le_mono_r; lia). lia.
Qed.

(** The steps by which the division decreases an approximation stay on that unit. *)
Lemma short_steps z l k :
  short z -> z < 2 ^ 890 -> Z.log2 z - 1 <= l -> 0 <= k ->
  let d := if l <=? 48 then 1 else 2 ^ (l - 48) in 0 < z - k * d -> short (z - k * d).
Proof.
  intros Hz Hb Hl Hk. cbn zeta. destruct (short_unit z Hz) as (a & E & Ha). set (u := Z.max 0 (Z.log2 z - 52)) in *.
  assert (Hpu : 0 < 2 ^ u) by (apply pow2_pos; lia). assert (Hz0 : 0 < z) by (rewrite E; nia).
  assert (Hl9 : Z.log2 z < 890) by (apply Z.log2_lt_pow2; lia).
  assert (Hu : 0 <= u <= 900) by lia. intros Hp. set (d := if l <=? 48 then 1 else 2 ^ (l - 48)) in *.
  assert (Hd : exists c, d = c * 2 ^ u /\ 0 < c).
  { unfold d. destruct (Z.leb_spec l 48).
    - exists 1. replace u with 0 by lia. lia.
    - exists (2 ^ (l - 48 - u)). split; [rewrite <- Z.pow_add_r by lia; f_equal; lia|apply pow2_pos; lia]. }
  destruct Hd as (c & Ec & Hc). assert (Ed : z - k * d = (a - k * c) * 2 ^ u) by (rewrite Ec, E at 1; ring).
  exists (a - k * c), u. split; [exact Ed|]. rewrite Ed in Hp. clearbody u d. split; [nia|lia].
Qed.
