(* ===== verification/IntegerText.v ===== *)
(** * Division and text of Integer, and arithmetic of BigDecimal

    lib/types/integer.js: [divide], [modulo], [toString] and the methods based on it;
    lib/types/big-decimal.ts: the arithmetic, the order and the text of decimals.

    The division approximates quotients with Numbers and corrects them; its loops are
    bounded by the size of their operands, and the theorems show that the bounds are
    enough.  [Math.log] is a parameter that is right within one.

    The theorems: division by a divisor below 2^32 is that of the integers; the decimal text
    of an Integer is that of its value and is read back to it; the sum, the difference and
    the order of decimals are exact while their scales differ by at most 9; the text of a
    decimal is read back to it. *)

From Stdlib Require Import SpecFloat.
From stdpp Require Import list.
From S2P Require Import Prelude JsNumber Buffer JsString Float NumText Rounding Integer ValueTypes.

(** ** Bounded loops *)

(** At most [p] turns of a loop, which ends with [inr]. *)
Fixpoint iter_until {S R} (p : positive) (step : S -> S + R) (s : S) : S + R :=
  match p with
  | xH => step s
  | xO p => match iter_until p step s with inl s => iter_until p step s | inr r => inr r end
  | xI p =>
      match step s with
      | inl s => match iter_until p step s with inl s => iter_until p step s | inr r => inr r end
      | inr r => inr r
      end
  end.

Fixpoint turns {S R} (n : nat) (step : S -> S + R) (s : S) : S + R :=
  match n with
  | O => inl s
  | Datatypes.S n => match step s with inl s => turns n step s | inr r => inr r end
  end.

Lemma turns_add {S R} n m (step : S -> S + R) s :
  turns (n + m) step s = match turns n step s with inl s => turns m step s | inr r => inr r end.
Proof. revert s. induction n as [|n IH]; intros s; [done|]. cbn [Nat.add turns]. destruct (step s); [apply IH|done]. Qed.

Lemma iter_until_turns {S R} p (step : S -> S + R) s : iter_until p step s = turns (Pos.to_nat p) step s.
Proof.
  revert s. induction p as [p IH|p IH|]; intros s; cbn [iter_until].
  - rewrite Pos2Nat.inj_xI. replace (Datatypes.S (2 * Pos.to_nat p))%nat with (1 + (Pos.to_nat p + Pos.to_nat p))%nat by lia.
    rewrite turns_add. cbn [turns]. destruct (step s) as [s'|]; [|done]. rewrite IH, turns_add. by destruct (turns _ _ _).
  - rewrite Pos2Nat.inj_xO. replace (2 * Pos.to_nat p)%nat with (Pos.to_nat p + Pos.to_nat p)%nat by lia.
    rewrite IH, turns_add. by destruct (turns _ _ _).
  - cbn [turns]. change (Pos.to_nat 1) with 1%nat. cbn [turns]. by destruct (step s).
Qed.

(** A loop with an invariant and a variant ends. *)
Lemma iter_until_ends {S R} (I : S -> Prop) (Q : R -> Prop) (variant : S -> Z) (step : S -> S + R) p s :
  (forall s, I s -> match step s with inl s' => I s' /\ 0 <= variant s' < variant s | inr r => Q r end) ->
  I s -> variant s < Z.pos p -> exists r, iter_until p step s = inr r /\ Q r.
Proof.
  intros Hstep. rewrite iter_until_turns. intros Hs Hv.
  assert (Hn : variant s < Z.of_nat (Pos.to_nat p)) by lia. assert (Hp : (0 < Pos.to_nat p)%nat) by lia.
  clear Hv. revert Hn Hp. generalize (Pos.to_nat p). clear p. intros n. revert s Hs.
  induction n as [|n IH]; intros s Hs Hv Hn; [lia|]. cbn [turns]. assert (H := Hstep s Hs).
  destruct (step s) as [s'|r]; [|eauto]. destruct H as [Hs' H]. destruct n as [|n]; [lia|]. apply IH; [done|lia|lia].
Qed.

(** ** Decimal text *)

Definition padded (n : nat) (s : jsstr) : jsstr := replicate (n - length s) 48 ++ s.

Lemma dec_str_split n q r :
  (0 < n)%nat -> 0 < q -> 0 <= r < 10 ^ Z.of_nat n -> dec_str (q * 10 ^ Z.of_nat n + r) = dec_str q ++ padded n (dec_str r).
Proof.
  intros Hn Hq. destruct n as [|n]; [lia|]. clear Hn. revert r. induction n as [|n IH]; intros r Hr.
  - change (10 ^ Z.of_nat 1) with 10 in *. rewrite Z.mul_comm, dec_str_step, (dec_str_digit r) by lia. done.
  - rewrite (Nat2Z.inj_succ (S n)), Z.pow_succ_r in Hr |- * by lia. set (T := 10 ^ Z.of_nat (S n)) in *.
    assert (HT : 0 < T) by (apply Z.pow_pos_nonneg; lia).
    replace (q * (10 * T) + r) with (10 * (q * T + r / 10) + r mod 10) by lia.
    rewrite dec_str_step, IH, <- app_assoc by nia. f_equal. unfold padded.
    destruct (Z.eq_dec (r / 10) 0) as [E|].
    + rewrite E. replace r with (r mod 10) at 2 3 by lia. rewrite (dec_str_digit (r mod 10)), (dec_str_digit 0) by lia.
      cbn [length]. replace (S (S n) - 1)%nat with (n + 1)%nat by lia. replace (S n - 1)%nat with n by lia.
      rewrite replicate_add. cbn [replicate]. change (48 + 0) with 48. by rewrite <- !app_assoc.
    + assert (Er : dec_str r = dec_str (r / 10) ++ [48 + r mod 10]) by (rewrite <- dec_str_step by lia; f_equal; lia).
      rewrite Er, length_app. cbn [length]. replace (S (S n) - (length (dec_str (r / 10)) + 1))%nat with (S n - length (dec_str (r / 10)))%nat by lia.
      by rewrite <- app_assoc.
Qed.

Module IntegerText.
Import Integer.

(** ** Division *)

(** [Math.ceil(Math.log(x) / Math.LN2)] of a finite Number that is at least 1. *)
Class MathLog : Type := {
  ceil_log2 : number -> Z;
  ceil_log2_near : forall z, short z -> Z.log2 z - 1 <= ceil_log2 (num_of_Z z) <= Z.log2 z + 2 }.

#[export] Instance exact_log : MathLog.
Proof.
  refine {| ceil_log2 := fun x => Z.log2_up (num_trunc x) |}.
  abstract (intros z Hz; rewrite (proj2 (num_trunc_short z Hz));
    assert (H := Z.le_log2_log2_up z); assert (H2 := Z.le_log2_up_succ_log2 z); lia).
Defined.

(** [Math.floor] of a Number that is not negative, and [Math.max(1, x)] *)
Definition num_floor (x : number) : number := if is_finite x then num_of_Z (num_trunc x) else x.
Definition max1 (x : number) : number := if num_ltZ x 1 then num_of_Z 1 else x.

Section divide.
Context `{MathLog}.

Definition approximate (rem other : t) : number := max1 (num_floor (num_div (toNumber rem) (toNumber other))).

Definition delta_of (approx : number) : number :=
  let log2 := ceil_log2 approx in if log2 <=? 48 then num_of_Z 1 else num_of_Z (2 ^ (log2 - 48)).

(** A turn of the inner loop, that decreases the approximation. *)
Definition refine_step (rem other : t) (delta approx : number) : number + t * t :=
  let approxRes := fromNumber approx in
  let approxRem := multiply approxRes other in
  if isNegative approxRem || greaterThan approxRem rem then inl (num_sub approx delta)
  else inr (approxRes, approxRem).

(** A turn of the outer loop; none when the inner loop does not end. *)
Definition divide_step (other : t) (s : t * t) : (t * t) + option t :=
  let '(res, rem) := s in
  if greaterThanOrEqual rem other then
    let approx := approximate rem other in
    match iter_until (Z.to_pos (num_trunc approx) + 1) (refine_step rem other (delta_of approx)) approx with
    | inr (approxRes, approxRem) =>
        let approxRes := if isZero approxRes then ONE else approxRes in
        inl (add res approxRes, subtract rem approxRem)
    | inl _ => inr None
    end
  else inr (Some res).

Definition divide_nonneg (x other : t) : option t :=
  match iter_until (Z.to_pos (value x) + 1) (divide_step other) (ZERO, x) with inr r => r | inl _ => None end.

(** The quotient, or none when the loops do not end. *)
Definition divide (x other : t) : result (option t) :=
  if isZero other then Err (PlainError "division by zero")
  else if isZero x then Ok (Some ZERO)
  else if isNegative x then
    if isNegative other then Ok (divide_nonneg (negate x) (negate other))
    else Ok (option_map negate (divide_nonneg (negate x) other))
  else if isNegative other then Ok (option_map negate (divide_nonneg x (negate other)))
  else Ok (divide_nonneg x other).

Definition modulo (x other : t) : result (option t) :=
  match divide x other with
  | Ok q => Ok (option_map (fun q => subtract x (multiply q other)) q)
  | Err e => Err e
  end.

(** ** Text *)

Definition radix_digit (d : Z) : Z := if d <? 10 then 48 + d else 87 + d.

(** [intval.toString(radix)] of an integer below [2^32]. *)
Fixpoint radix_loop (fuel : nat) (radix z : Z) (acc : jsstr) : jsstr :=
  match fuel with
  | O => acc
  | S fuel =>
      let acc := radix_digit (z mod radix) :: acc in
      if z / radix =? 0 then acc else radix_loop fuel radix (z / radix) acc
  end.

Definition radix_str (radix z : Z) : jsstr :=
  if z <? 0 then 45 :: radix_loop 32 radix (- z) [] else radix_loop 32 radix z [].

(** [while (digits.length < 6) digits = "0" + digits] *)
Definition pad6 (digits : jsstr) : jsstr := replicate (6 - length digits) 48 ++ digits.

(** Six digits a turn. *)
Definition text_step (radixToPower : t) (radix : Z) (s : t * jsstr) : (t * jsstr) + option jsstr :=
  let '(rem, result) := s in
  match divide rem radixToPower with
  | Ok (Some remDiv) =>
      let intval := toInt (subtract rem (multiply remDiv radixToPower)) in
      let digits := radix_str radix intval in
      if isZero remDiv then inr (Some (digits ++ result)) else inl (remDiv, pad6 digits ++ result)
  | _ => inr None
  end.

Definition text_nonneg (x : t) (radix : Z) : option jsstr :=
  match iter_until (Z.to_pos (value x) + 1) (text_step (fromNumber (num_of_Z (radix ^ 6))) radix) (x, []) with
  | inr r => r
  | inl _ => None
  end.

(** [radix] is 10 when it is not given. *)
Definition toString (x : t) (radix : Z) : result (option jsstr) :=
  if (radix <? 2) || (36 <? radix) then Err (PlainError "radix out of range")
  else if isZero x then Ok (Some [48])
  else if isNegative x then Ok (option_map (cons 45) (text_nonneg (negate x) radix))
  else Ok (text_nonneg x radix).

(** ** Approximations *)

Lemma words_val_take ws i w :
  ws !! i = Some w -> words_val (take (S i) ws) = words_val (take i ws) + 2 ^ (32 * Z.of_nat i) * (w mod 2 ^ 32).
Proof.
  intros Hi. assert (Hl := lookup_lt_Some _ _ _ Hi). rewrite (take_S_r _ _ _ Hi), words_val_app, length_take.
  replace (i `min` length ws)%nat with i by lia. cbn [words_val]. ring.
Qed.

Lemma getBitsUnsigned_word x i w :
  wf x -> bits x !! i = Some w -> getBitsUnsigned x (Z.of_nat i) = w mod 2 ^ 32.
Proof.
  intros (_ & Hb & _) Hi. assert (Hl := lookup_lt_Some _ _ _ Hi). assert (Hw := Forall_lookup_1 _ _ _ _ Hb Hi).
  unfold getBitsUnsigned, getBits, len. destruct (Z.ltb_spec (Z.of_nat i) 0); [lia|].
  destruct (Z.ltb_spec (Z.of_nat i) (Z.of_nat (length (bits x)))); [|lia]. rewrite Nat2Z.id, Hi.
  cbn [from_option id]. unfold int32 in Hw. unfold id. destruct (Z.leb_spec 0 w); lia.
Qed.

Lemma toNumber_loop_le n i x v pow :
  wf x -> (i + n <= length (bits x))%nat -> (length (bits x) <= 26)%nat ->
  num_le v (2 ^ (Z.of_nat i + 2) * words_val (take i (bits x))) -> num_le pow (2 ^ Z.of_nat i * 2 ^ (32 * Z.of_nat i)) ->
  num_le (toNumber_loop n (Z.of_nat i) x v pow) (2 ^ (Z.of_nat (i + n) + 2) * words_val (take (i + n) (bits x))).
Proof.
  revert i v pow. induction n as [|n IH]; intros i v pow Hx Hn Hl Hv Hp; cbn [toNumber_loop]; [by rewrite Nat.add_0_r|].
  destruct (lookup_lt_is_Some_2 (bits x) i) as [w Hw]; [lia|].
  rewrite (getBitsUnsigned_word x i w Hx Hw). replace (Z.of_nat i + 1) with (Z.of_nat (S i)) by lia.
  replace (i + S n)%nat with (S i + n)%nat by lia.
  set (P := 2 ^ (32 * Z.of_nat i)) in *. set (W := words_val (take i (bits x))) in *. set (T := 2 ^ Z.of_nat i) in *.
  assert (HP : 0 < P <= 2 ^ 800) by (split; [apply pow32_pos; lia|apply Z.pow_le_mono_r; lia]).
  assert (HT : 0 < T <= 2 ^ 26) by (split; [apply pow2_pos; lia|apply Z.pow_le_mono_r; lia]).
  assert (HW : 0 <= W < P).
  { unfold W, P. assert (H1 := words_val_range (take i (bits x))). rewrite length_take in H1.
    replace (i `min` length (bits x))%nat with i in H1 by lia. done. }
  assert (Hm : 0 <= w mod 2 ^ 32 < 2 ^ 32) by lia. set (u := w mod 2 ^ 32) in *.
  assert (HPT : T * P <= 2 ^ 826) by (change (2 ^ 826) with (2 ^ 26 * 2 ^ 800); apply Z.mul_le_mono_nonneg; lia).
  assert (HuP : u * (T * P) <= 2 ^ 858) by (change (2 ^ 858) with (2 ^ 32 * 2 ^ 826); apply Z.mul_le_mono_nonneg; nia).
  assert (H4 : 2 ^ (Z.of_nat i + 2) = 4 * T) by (unfold T; rewrite Z.pow_add_r by lia; lia). rewrite H4 in Hv.
  assert (HTW : T * W <= T * P) by (apply Z.mul_le_mono_nonneg_l; lia).
  apply IH; [done|lia|done| |].
  - rewrite (words_val_take _ _ _ Hw). fold P W u. replace (2 ^ (Z.of_nat (S i) + 2)) with (8 * T)
      by (unfold T; rewrite Nat2Z.inj_succ, <- Z.add_1_r, !Z.pow_add_r by lia; lia).
    eapply num_le_weaken; [apply num_add_bound; [exact Hv| |]|].
    + apply num_mul_bound; [apply num_le_of_Z; lia|exact Hp|]. lia.
    + lia.
    + nia.
  - replace (2 ^ Z.of_nat (S i) * 2 ^ (32 * Z.of_nat (S i))) with (2 * (T * P * 2 ^ 32))
      by (unfold T, P; rewrite pow32_S, Nat2Z.inj_succ, Z.pow_succ_r by lia; ring).
    apply num_mul_bound; [exact Hp|apply num_le_of_Z; lia|]. lia.
Qed.

(** A value below [2^800] has at most 25 words. *)
Lemma words_bound x n : wf x -> 0 <= value x < 2 ^ (32 * Z.of_nat n) -> (length (bits x) <= n)%nat /\ sign x = 0.
Proof.
  intros (Hs & Hb & Ht) Hv. assert (E := sign_value x Hs). rewrite (proj2 (Z.ltb_ge _ 0)) in E by lia. split; [|done].
  destruct (rev (bits x)) as [|w r] eqn:Er.
  { apply (f_equal (@length Z)) in Er. rewrite length_rev in Er. cbn in Er. lia. }
  assert (Ea : bits x = rev r ++ [w]) by (rewrite <- (rev_involutive (bits x)), Er; done).
  destruct (Nat.le_gt_cases (length (bits x)) n) as [|Hgt]; [done|]. exfalso.
  unfold top_ne in Ht. rewrite Er, E in Ht. unfold value in Hv. rewrite E, Z.mul_0_l, Z.add_0_r, Ea, words_val_app, length_rev in Hv.
  rewrite Ea in Hb, Hgt. apply Forall_app in Hb as [_ Hw]. apply Forall_cons_1 in Hw as [Hw _]. cbn [words_val] in Hv.
  rewrite length_app, length_rev in Hgt. cbn [length] in Hgt.
  assert (2 ^ (32 * Z.of_nat n) <= 2 ^ (32 * Z.of_nat (length r))) by (apply Z.pow_le_mono_r; lia).
  assert (H1 := words_val_range (rev r)). assert (1 <= w mod 2 ^ 32) by (unfold int32 in Hw; lia). nia.
Qed.

Lemma toNumber_le x : wf x -> 0 <= value x < 2 ^ 800 -> num_le (toNumber x) (2 ^ 28 * value x).
Proof.
  intros Hx Hv. destruct (words_bound x 25 Hx) as [Hl Hs]; [exact Hv|].
  unfold toNumber. rewrite isNegative_value, (proj2 (Z.ltb_ge _ 0)) by (apply Hx || lia). unfold toNumber_nonneg.
  assert (HL := toNumber_loop_le (length (bits x)) 0 x (num_of_Z 0) (num_of_Z 1) Hx ltac:(lia) ltac:(lia)).
  change (Z.of_nat 0) with 0 in HL. eapply num_le_weaken; [apply HL|].
  - cbn [take words_val]. rewrite Z.mul_0_r. apply (num_le_of_Z 0). lia.
  - apply (num_le_of_Z 1). lia.
  - cbn [Nat.add]. rewrite firstn_all. unfold value. rewrite Hs, Z.mul_0_l, Z.add_0_r.
    assert (2 ^ (Z.of_nat (length (bits x)) + 2) <= 2 ^ 28) by (apply Z.pow_le_mono_r; lia).
    assert (H1 := words_val_range (bits x)). apply Z.mul_le_mono_nonneg_r; lia.
Qed.

Lemma num_trunc_nonneg_le x b : num_le x b -> is_finite x = true /\ 0 <= num_trunc x.
Proof.
  destruct x as [[]|[]| |[] m e]; try done. intros _. split; [done|]. cbn [num_trunc].
  case_Z; [assert (0 < 2 ^ e) by (by apply pow2_pos); nia|apply Z.div_pos; [lia|apply pow2_pos; lia]].
Qed.

Lemma approximate_bound rem other :
  wf rem -> wf other -> 0 < value other < 2 ^ 32 -> value other <= value rem < 2 ^ 768 ->
  exists a, approximate rem other = num_of_Z a /\ short a /\ a < 2 ^ 890 /\ a * value other <= 2 ^ 40 * value rem.
Proof.
  intros Hr Ho Hv Hb. unfold approximate. rewrite (toNumber_small other Ho) by lia.
  assert (Hn := toNumber_le rem Hr ltac:(lia)). set (b := value other) in *. set (r := value rem) in *. clearbody b r.
  assert (Hq := num_div_le (toNumber rem) (2 ^ 28 * r) b Hn ltac:(lia) ltac:(lia)).
  set (q := num_div _ _) in *. clearbody q. destruct (num_trunc_nonneg_le _ _ Hq) as [Hf Ht].
  unfold num_floor. rewrite Hf. unfold max1.
  destruct (Z.eq_dec (num_trunc q) 0) as [E|Hne].
  - rewrite E. exists 1. split; [done|]. split; [exists 1, 0; lia|]. lia.
  - assert (Hdiv : 2 ^ 28 * r / b <= 2 ^ 28 * r) by (apply Z.div_le_upper_bound; nia).
    destruct (num_le_short q _ Hq ltac:(lia) ltac:(lia)) as [Hs Hle].
    rewrite num_ltZ_integer, (proj2 (num_trunc_short _ Hs)) by (by apply num_is_integer_short).
    rewrite (proj2 (Z.ltb_ge _ 1)) by lia. exists (num_trunc q). split; [done|]. split; [done|]. split; [lia|].
    assert (Hm : 2 ^ 28 * r / b * b <= 2 ^ 28 * r) by (rewrite Z.mul_comm; apply Z.mul_div_le; lia). nia.
Qed.

(** ** The loops *)

Lemma greaterThan_value x y : wf x -> wf y -> greaterThan x y = (value y <? value x).
Proof. intros Hx Hy. unfold greaterThan. rewrite compare_value by done. destruct (Z.compare_spec (value x) (value y)); case_Z; (done || lia). Qed.

Lemma greaterThanOrEqual_value x y : wf x -> wf y -> greaterThanOrEqual x y = (value y <=? value x).
Proof. intros Hx Hy. unfold greaterThanOrEqual. rewrite compare_value by done. destruct (Z.compare_spec (value x) (value y)); case_Z; (done || lia). Qed.

Lemma fromNumber_short z : short z -> z < 2 ^ 890 -> value (fromNumber (num_of_Z z)) = z.
Proof.
  intros Hz Hb. destruct (num_trunc_short z Hz) as [Hf Ht]. destruct Hz as (a & j & E & Ha & Hj).
  assert (0 < 2 ^ j) by (apply pow2_pos; lia). assert (2 ^ 890 < 2 ^ 1024) by (apply Z.pow_lt_mono_r; lia).
  assert (0 < z) by nia. rewrite fromNumber_value; [done|done|]. rewrite Ht. lia.
Qed.

(** The value of the step of the inner loop. *)
Definition delta_val (approx : number) : Z := let l := ceil_log2 approx in if l <=? 48 then 1 else 2 ^ (l - 48).

Lemma delta_of_val a : short a -> a < 2 ^ 890 ->
  delta_of (num_of_Z a) = num_of_Z (delta_val (num_of_Z a)) /\ short (delta_val (num_of_Z a)) /\
  0 < delta_val (num_of_Z a) /\ (delta_val (num_of_Z a) = 1 \/ 2 ^ 46 * delta_val (num_of_Z a) <= a).
Proof.
  intros Ha Hb. assert (Hl := ceil_log2_near a Ha). unfold delta_of, delta_val. set (l := ceil_log2 (num_of_Z a)) in *. clearbody l.
  assert (Ha0 : 0 < a) by (destruct Ha as (x & j & -> & ? & ?); assert (0 < 2 ^ j) by (apply pow2_pos; lia); nia).
  assert (Hl9 : Z.log2 a < 890) by (apply Z.log2_lt_pow2; lia). assert (Hs := Z.log2_spec a Ha0).
  cbn zeta. destruct (Z.leb_spec l 48).
  - split; [done|]. split; [exists 1, 0; lia|]. lia.
  - split; [done|]. split; [exists 1, (l - 48); lia|]. assert (0 < 2 ^ (l - 48)) by (apply pow2_pos; lia). split; [done|right].
    rewrite <- Z.pow_add_r by lia. assert (2 ^ (46 + (l - 48)) <= 2 ^ Z.log2 a) by (apply Z.pow_le_mono_r; lia). lia.
Qed.

Lemma refine_ends rem other a :
  wf rem -> wf other -> 0 < value other < 2 ^ 32 -> value other <= value rem -> short a -> a < 2 ^ 890 ->
  a * value other <= 2 ^ 40 * value rem ->
  exists r, iter_until (Z.to_pos (num_trunc (num_of_Z a)) + 1) (refine_step rem other (delta_of (num_of_Z a))) (num_of_Z a) = inr r /\
    (wf (fst r) /\ wf (snd r) /\ 0 < value (fst r) /\ value (snd r) = value (fst r) * value other /\ value (snd r) <= value rem).
Proof.
  intros Hr Ho Hv Hle Ha Hb Hab. destruct (delta_of_val a Ha Hb) as (Ed & Hd & Hd0 & Hd46). rewrite Ed.
  assert (Hst := short_steps a (ceil_log2 (num_of_Z a))). fold (delta_val (num_of_Z a)) in Hst.
  assert (Hlog := ceil_log2_near a Ha). set (d := delta_val (num_of_Z a)) in *.
  apply (iter_until_ends (fun x => exists k, 0 <= k /\ x = num_of_Z (a - k * d) /\ 0 < a - k * d)
    (fun r : t * t => wf (fst r) /\ wf (snd r) /\ 0 < value (fst r) /\ value (snd r) = value (fst r) * value other /\ value (snd r) <= value rem)
    (fun x => num_trunc x)).
  - intros x (k & Hk & -> & Hp). assert (Hs : short (a - k * d)) by (apply Hst; (done || lia)).
    assert (Hw : wf (fromNumber (num_of_Z (a - k * d)))) by auto with integer.
    assert (Hf : value (fromNumber (num_of_Z (a - k * d))) = a - k * d) by (apply fromNumber_short; [done|nia]).
    unfold refine_step. cbn zeta. set (ar := fromNumber (num_of_Z (a - k * d))) in *.
    assert (Hm : value (multiply ar other) = (a - k * d) * value other) by (rewrite multiply_value_small, Hf by (done || lia); done).
    assert (Hmw : wf (multiply ar other)) by auto with integer.
    rewrite isNegative_value, greaterThan_value, Hm by (done || apply Hmw).
    rewrite (proj2 (Z.ltb_ge ((a - k * d) * value other) 0)) by nia. cbn [orb].
    destruct (Z.ltb_spec (value rem) ((a - k * d) * value other)) as [Hgt|Hge].
    + assert (Hpos : 0 < a - k * d - d) by (destruct Hd46; nia).
      assert (Hs' : short (a - (k + 1) * d)) by (apply Hst; (done || lia)).
      rewrite num_sub_short by (try done; by replace (a - k * d - d) with (a - (k + 1) * d) by lia).
      replace (a - k * d - d) with (a - (k + 1) * d) in * by lia.
      split; [exists (k + 1); split; [lia|done]|]. rewrite !(fun z H => proj2 (num_trunc_short z H)) by done. lia.
    + cbn [fst snd]. rewrite Hf, Hm. auto.
  - exists 0. rewrite Z.mul_0_l, Z.sub_0_r. split; [lia|]. split; [done|].
    destruct Ha as (x & j & -> & ? & ?). assert (0 < 2 ^ j) by (apply pow2_pos; lia). nia.
  - lia.
Qed.

Lemma divide_nonneg_value x other :
  wf x -> wf other -> 0 <= value x < 2 ^ 768 -> 0 < value other < 2 ^ 32 ->
  exists q, divide_nonneg x other = Some q /\ wf q /\ value q = value x / value other.
Proof.
  intros Hx Ho Hv Hb. unfold divide_nonneg.
  destruct (iter_until_ends (fun s : t * t => wf (fst s) /\ wf (snd s) /\ 0 <= value (snd s) <= value x /\
      value (fst s) * value other + value (snd s) = value x)
    (fun r => exists q, r = Some q /\ wf q /\ value q = value x / value other)
    (fun s => value (snd s)) (divide_step other) (Z.to_pos (value x) + 1) (ZERO, x)) as (r & -> & q & -> & Hq & Eq).
  - intros [res rem] (Hres & Hrem & Hr & E). cbn [fst snd] in *. unfold divide_step.
    rewrite greaterThanOrEqual_value by done. destruct (Z.leb_spec (value other) (value rem)) as [Hge|Hlt].
    + destruct (approximate_bound rem other Hrem Ho Hb ltac:(lia)) as (a & Ea & Hsa & Hba & Hab). cbn zeta. rewrite Ea.
      destruct (refine_ends rem other a Hrem Ho Hb Hge Hsa Hba Hab) as ([ar arem] & -> & Hw1 & Hw2 & Hp & Em & Hle).
      cbn [fst snd] in *. rewrite isZero_value, (proj2 (Z.eqb_neq _ 0)) by (done || lia).
      rewrite add_value, subtract_value by done.
      split; [split; [apply add_wf|]; split; [unfold subtract; apply add_wf|]; split; [nia|rewrite Em; lia]|nia].
    + exists res. split; [done|]. split; [done|]. apply (Z.div_unique_pos _ _ _ (value rem)); lia.
  - cbn [fst snd]. change (value ZERO) with 0. split; [apply ZERO_wf|]. split; [done|]. lia.
  - cbn [snd]. lia.
  - eauto.
Qed.

(** C26. The division of Integers is that of the integers, towards zero, for a divisor below
    2^32 and a dividend below 2^768 in absolute value: both loops end, and the quotient and the
    remainder are exact although they are approximated with Numbers; division by zero throws. *)
Theorem divide_correct x other :
  wf x -> wf other -> Z.abs (value x) < 2 ^ 768 -> Z.abs (value other) < 2 ^ 32 ->
  (value other = 0 -> divide x other = Err (PlainError "division by zero")) /\
  (value other <> 0 -> exists q r, divide x other = Ok (Some q) /\ modulo x other = Ok (Some r) /\
     wf q /\ value q = Z.quot (value x) (value other) /\ value r = Z.rem (value x) (value other)).
Proof.
  intros Hx Ho Hv Hb. split.
  { intros E. unfold divide. rewrite isZero_value by done. by rewrite E. }
  intros Hne. enough (G : exists q, divide x other = Ok (Some q) /\ wf q /\ value q = Z.quot (value x) (value other)).
  { destruct G as (q & E & Hq & Ev). exists q, (subtract x (multiply q other)). unfold modulo. rewrite E.
    split; [done|]. split; [done|]. split; [done|]. split; [done|].
    rewrite subtract_value, multiply_value_small, Ev by (auto with integer; lia).
    assert (Hr := Z.quot_rem' (value x) (value other)). lia. }
  unfold divide. rewrite !isZero_value, (proj2 (Z.eqb_neq (value other) 0)) by done.
  destruct (Z.eqb_spec (value x) 0) as [E|Hx0]; [exists ZERO; rewrite E, Z.quot_0_l by done; auto using ZERO_wf|].
  rewrite !isNegative_value by (apply Hx || apply Ho). assert (Hnx := negate_value x Hx). assert (Hno := negate_value other Ho).
  destruct (Z.ltb_spec (value x) 0), (Z.ltb_spec (value other) 0).
  - destruct (divide_nonneg_value (negate x) (negate other)) as (q & -> & Hq & Ev); [auto with integer..|lia|lia|].
    exists q. split; [done|]. split; [done|]. rewrite Ev, Hnx, Hno, <- Z.quot_div_nonneg, Z.quot_opp_opp by lia. done.
  - destruct (divide_nonneg_value (negate x) other) as (q & -> & Hq & Ev); [auto with integer..|lia|lia|].
    exists (negate q). split; [done|]. split; [auto with integer|].
    rewrite negate_value, Ev, Hnx, <- Z.quot_div_nonneg, Z.quot_opp_l by (done || lia). lia.
  - destruct (divide_nonneg_value x (negate other)) as (q & -> & Hq & Ev); [auto with integer..|lia|lia|].
    exists (negate q). split; [done|]. split; [auto with integer|].
    rewrite negate_value, Ev, Hno, <- Z.quot_div_nonneg, Z.quot_opp_r by (done || lia). lia.
  - destruct (divide_nonneg_value x other) as (q & -> & Hq & Ev); [auto with integer..|lia|lia|].
    exists q. split; [done|]. split; [done|]. rewrite Ev, Z.quot_div_nonneg by lia. done.
Qed.
End divide.

Lemma divide_correct_witness :
  exists q r, divide (fromInt 100) (fromInt (-7)) = Ok (Some q) /\ modulo (fromInt 100) (fromInt (-7)) = Ok (Some r) /\
  value q = -14 /\ value r = 2.
Proof.
  destruct (divide_correct (fromInt 100) (fromInt (-7)) (fromInt_wf _) (fromInt_wf _)) as [_ H];
    [rewrite fromInt_value by (unfold int32; lia); vm_compute; reflexivity|rewrite fromInt_value by (unfold int32; lia); vm_compute; reflexivity|].
  destruct H as (q & r & E1 & E2 & _ & E3 & E4); [rewrite fromInt_value by (unfold int32; lia); discriminate|].
  exists q, r. split; [exact E1|]. split; [exact E2|]. rewrite E3, E4, !fromInt_value by (unfold int32; lia). split; reflexivity.
Defined.

(** ** The text of an Integer *)

Lemma radix_loop_10 f z acc : 0 <= z -> radix_loop f 10 z acc = dec_loop f z acc.
Proof.
  revert z acc. induction f as [|f IH]; intros z acc Hz; [done|]. cbn [radix_loop dec_loop].
  assert (E : radix_digit (z mod 10) = 48 + z mod 10) by (unfold radix_digit; rewrite (proj2 (Z.ltb_lt _ 10)) by lia; done).
  rewrite E. destruct (z / 10 =? 0); [done|]. apply IH. lia.
Qed.

Lemma radix_str_10 z : 0 <= z < 2 ^ 32 -> radix_str 10 z = dec_str z.
Proof.
  intros Hz. unfold radix_str. rewrite (proj2 (Z.ltb_ge z 0)), radix_loop_10 by lia. symmetry. apply dec_str_fuel; [lia|exact Hz].
Qed.

Lemma toInt_value x : wf x -> 0 <= value x < 2 ^ 31 -> toInt x = value x.
Proof.
  intros Hx Hv. destruct (small_bits x Hx ltac:(lia)) as [Hl Hs]. destruct Hx as (_ & Hb & _).
  destruct x as [[|w [|]] s]; cbn [bits sign length] in *; subst s; [reflexivity| |lia].
  unfold value in *. cbn [bits sign words_val] in *. apply Forall_cons_1 in Hb as [Hb _]. unfold int32 in Hb.
  unfold toInt, len. cbn [bits length]. change (0 <? Z.of_nat 1) with true. cbn. lia.
Qed.

Section text.
Context `{MathLog}.

Lemma text_nonneg_dec x : wf x -> 0 < value x < 2 ^ 768 -> text_nonneg x 10 = Some (dec_str (value x)).
Proof.
  intros Hx Hv. unfold text_nonneg. set (p := fromNumber (num_of_Z (10 ^ 6))).
  assert (Hp : wf p /\ value p = 10 ^ 6) by (split; [apply fromNumber_wf|apply fromNumber_of_Z; unfold safe_int; lia]).
  destruct Hp as [Hpw Hp]. clearbody p.
  destruct (iter_until_ends (fun s : t * jsstr => wf (fst s) /\ 0 < value (fst s) < 2 ^ 768 /\ dec_str (value x) = dec_str (value (fst s)) ++ snd s)
    (fun r => r = Some (dec_str (value x))) (fun s => value (fst s)) (text_step p 10) (Z.to_pos (value x) + 1) (x, [])) as (r & -> & ->).
  - intros [rem result] (Hr & Hb & E). cbn [fst snd] in *. unfold text_step, divide.
    rewrite !isZero_value, !isNegative_value, Hp by (done || apply Hpw || apply Hr).
    rewrite (proj2 (Z.eqb_neq (value rem) 0)), (proj2 (Z.ltb_ge (value rem) 0)) by lia. cbn [Z.eqb Z.ltb Z.compare].
    destruct (divide_nonneg_value rem p) as (q & -> & Hq & Eq); [done|done|lia|lia|]. rewrite Hp in Eq. change (10 ^ 6) with 1000000 in *.
    change (1000000 =? 0) with false. change (1000000 <? 0) with false. lazy beta match zeta.
    assert (Em : value (subtract rem (multiply q p)) = value rem mod 1000000).
    { rewrite subtract_value, multiply_value_small, Hp, Eq by (auto with integer; lia). lia. }
    rewrite toInt_value, Em, radix_str_10 by (rewrite ?Em; try lia; unfold subtract; apply add_wf).
    rewrite isZero_value by done. destruct (Z.eqb_spec (value q) 0) as [E0|Hne].
    + replace (value rem mod 1000000) with (value rem) by lia. by rewrite E.
    + cbn [fst snd]. split; [|lia]. split; [done|]. split; [lia|]. rewrite E, app_assoc. f_equal.
      replace (value rem) with (value q * 10 ^ Z.of_nat 6 + value rem mod 1000000) at 1 by (change (10 ^ Z.of_nat 6) with 1000000; lia).
      apply dec_str_split; [lia|lia|]. change (10 ^ Z.of_nat 6) with 1000000. lia.
  - cbn [fst snd]. rewrite app_nil_r. auto.
  - cbn [fst]. lia.
  - done.
Qed.

Lemma toString_decimal x : wf x -> Z.abs (value x) < 2 ^ 768 -> toString x 10 = Ok (Some (int_str (value x))).
Proof.
  intros Hx Hv. unfold toString. cbn [Z.ltb Z.compare orb]. rewrite isZero_value, isNegative_value by (done || apply Hx).
  unfold int_str. destruct (Z.eqb_spec (value x) 0) as [->|]; [reflexivity|]. assert (Hn := negate_value x Hx).
  destruct (Z.ltb_spec (value x) 0).
  - rewrite text_nonneg_dec by (auto with integer; lia). by rewrite Hn.
  - by rewrite text_nonneg_dec by (done || lia).
Qed.

Lemma fromString_int_str x : wf x -> fromString (int_str (value x)) 10 = Ok x.
Proof.
  intros Hx. unfold int_str. destruct (Z.ltb_spec (value x) 0).
  - destruct (dec_str_spec (- value x) ltac:(lia)) as (Hd & Hv & Hne).
    destruct (fromString_dec _ Hne Hd) as (y & E & Hy & Ey). cbn [fromString Z.eqb Pos.eqb Z.ltb Z.compare orb].
    change (fix fromString (str : jsstr) (radix : Z) {struct str} : result t := _) with fromString. rewrite E. cbn.
    f_equal. apply value_inj; [auto with integer|done|]. rewrite negate_value by done. lia.
  - destruct (dec_str_spec (value x) ltac:(lia)) as (Hd & Hv & Hne).
    destruct (fromString_dec _ Hne Hd) as (y & E & Hy & Ey). rewrite E. f_equal. apply value_inj; [done|done|]. lia.
Qed.

(** C27. The decimal text of an Integer below 2^768 in absolute value is that of the integer, and
    [fromString] reads it back to the same Integer; the loops that compute it end. *)
Theorem integer_text_roundtrip x :
  wf x -> Z.abs (value x) < 2 ^ 768 ->
  toString x 10 = Ok (Some (int_str (value x))) /\ fromString (int_str (value x)) 10 = Ok x.
Proof. intros Hx Hv. split; [by apply toString_decimal|by apply fromString_int_str]. Qed.
End text.

Lemma integer_text_roundtrip_witness :
  toString (constructor [0; 0; 5] (-1)) 10 = Ok (Some (js "-79228162422030617224996192256")).
Proof.
  destruct (integer_text_roundtrip (constructor [0; 0; 5] (-1))) as [E _].
  - apply constructor_wf. by right.
  - vm_compute. reflexivity.
  - rewrite E. vm_compute. reflexivity.
Defined.

(** From 2^1024 on the division makes no progress: a turn of its loop leaves the remainder as it
    is, whatever the result so far, so that the text is never computed. *)
Definition two_pow_1024 : t := constructor (replicate 32 0 ++ [1]) 0.

Theorem division_stuck res n :
  turns n (divide_step (fromInt 1000000)) (res, two_pow_1024)
  = inl (Nat.iter n (fun r => add r ONE) res, two_pow_1024) /\ value two_pow_1024 = 2 ^ 1024.
Proof.
  split; [|vm_compute; reflexivity].
  assert (E : forall r, divide_step (fromInt 1000000) (r, two_pow_1024) = inl (add r ONE, two_pow_1024)).
  { intros r. unfold divide_step. cbn zeta.
    replace (greaterThanOrEqual two_pow_1024 (fromInt 1000000)) with true by (vm_compute; reflexivity).
    replace (iter_until _ _ _) with (inr (A := number) (ZERO, ZERO)) by (vm_compute; reflexivity).
    replace (subtract two_pow_1024 ZERO) with two_pow_1024 by (vm_compute; reflexivity). reflexivity. }
  revert res. induction n as [|n IH]; intros res; [done|]. cbn [turns]. by rewrite E, IH, Nat.iter_succ_r.
Qed.

(** In radix 36 a group of digits may exceed 31 bits and is written as a negative number. *)
Lemma radix_36_wrong : toString (fromNumber (num_of_Z 2176782335)) 36 = Ok (Some (js "-z141z5")).
Proof. vm_compute. reflexivity. Qed.
End IntegerText.

Module BigDecimalText.
Import BigDecimal.

(** [Math.pow(10, d)] as an Integer *)
Definition pow10 (d : Z) : Integer.t := Integer.fromNumber (num_of_Z (10 ^ d)).

(** The sum and the difference, at the larger of the two scales. *)
Definition combine (op : Integer.t -> Integer.t -> Integer.t) (x other : t) : t :=
  if scale x =? scale other then mk (op (intVal x) (intVal other)) (scale x)
  else if scale x <? scale other then
    mk (op (Integer.multiply (intVal x) (pow10 (scale other - scale x))) (intVal other)) (scale other)
  else mk (op (intVal x) (Integer.multiply (intVal other) (pow10 (scale x - scale other)))) (scale x).

Definition add : t -> t -> t := combine Integer.add.
Definition subtract : t -> t -> t := combine Integer.subtract.

Definition isNegative (x : t) : bool := Integer.isNegative (intVal x).
Definition isZero (x : t) : bool := Integer.isZero (intVal x).

Definition compare (x other : t) : Z :=
  let diff := subtract x other in if isNegative diff then -1 else if isZero diff then 0 else 1.

Definition equals (x other : t) : bool := compare x other =? 0.
Definition notEquals (x other : t) : bool := negb (equals x other).
Definition greaterThan (x other : t) : bool := compare x other =? 1.

(** [s.substr(0, n)] and [s.substr(n)] *)
Definition before (s : jsstr) (n : Z) : jsstr := take (Z.to_nat n) s.
Definition after (s : jsstr) (n : Z) : jsstr := drop (Z.to_nat n) s.

(** The digits with zeros in front and the decimal point. *)
Definition point_text (intString : jsstr) (scale : Z) : jsstr :=
  let separatorIndex := slen intString - scale in
  let '(intString, separatorIndex) :=
    if separatorIndex <=? 0 then
      let intString := replicate (Z.to_nat (- separatorIndex + 1)) 48 ++ intString in (intString, slen intString - scale)
    else (intString, separatorIndex) in
  before intString separatorIndex ++ 46 :: after intString separatorIndex.

Definition sign_text (intString : jsstr) (scale : Z) : jsstr :=
  match intString with
  | c :: digits => if c =? 45 then c :: point_text digits scale else point_text intString scale
  | [] => point_text intString scale
  end.

Definition toString `{IntegerText.MathLog} (x : t) : result (option jsstr) :=
  match IntegerText.toString (intVal x) 10 with
  | Ok (Some intString) => Ok (Some (if scale x =? 0 then intString else sign_text intString (scale x)))
  | r => r
  end.

Definition toNumber `{IntegerText.MathLog} (x : t) : result (option number) :=
  match toString x with Ok s => Ok (option_map parseFloat s) | Err e => Err e end.

(** ** Arithmetic *)

(** The unscaled value at a larger scale. *)
Definition at_scale (x : t) (s : Z) : Z := Integer.value (intVal x) * 10 ^ (s - scale x).

Lemma pow10_value d : 0 <= d <= 9 -> Integer.wf (pow10 d) /\ Integer.value (pow10 d) = 10 ^ d.
Proof.
  intros Hd. split; [apply Integer.fromNumber_wf|]. apply Integer.fromNumber_of_Z. unfold safe_int.
  assert (10 ^ d <= 10 ^ 9) by (apply Z.pow_le_mono_r; lia). assert (0 < 10 ^ d) by (apply Z.pow_pos_nonneg; lia). lia.
Qed.

Lemma multiply_pow10 x d : Integer.wf x -> 0 <= d <= 9 -> Integer.value (Integer.multiply x (pow10 d)) = Integer.value x * 10 ^ d.
Proof.
  intros Hx Hd. destruct (pow10_value d Hd) as [Hw E]. rewrite Integer.multiply_value_small, E by (done || (right; rewrite E;
    assert (10 ^ d <= 10 ^ 9) by (apply Z.pow_le_mono_r; lia); assert (0 < 10 ^ d) by (apply Z.pow_pos_nonneg; lia); lia)). done.
Qed.

Lemma combine_value op f x y :
  (forall a b, Integer.wf a -> Integer.wf b -> Integer.wf (op a b) /\ Integer.value (op a b) = f (Integer.value a) (Integer.value b)) ->
  Integer.wf (intVal x) -> Integer.wf (intVal y) -> Z.abs (scale x - scale y) <= 9 ->
  let s := Z.max (scale x) (scale y) in
  scale (combine op x y) = s /\ Integer.wf (intVal (combine op x y)) /\
  Integer.value (intVal (combine op x y)) = f (at_scale x s) (at_scale y s).
Proof.
  intros Hop Hx Hy Hs. cbn zeta. unfold combine, at_scale.
  destruct (Z.eqb_spec (scale x) (scale y)) as [E|]; [|destruct (Z.ltb_spec (scale x) (scale y))]; cbn [scale intVal].
  - rewrite E, Z.max_id, Z.sub_diag, !Z.mul_1_r. destruct (Hop _ _ Hx Hy). auto.
  - replace (Z.max _ _) with (scale y) by lia. rewrite Z.sub_diag, Z.mul_1_r.
    destruct (Hop (Integer.multiply (intVal x) (pow10 (scale y - scale x))) (intVal y)) as [H1 ->]; [apply Integer.multiply_wf|done|].
    rewrite multiply_pow10 by (done || lia). auto.
  - replace (Z.max _ _) with (scale x) by lia. rewrite Z.sub_diag, Z.mul_1_r.
    destruct (Hop (intVal x) (Integer.multiply (intVal y) (pow10 (scale x - scale y)))) as [H1 ->]; [done|apply Integer.multiply_wf|].
    rewrite multiply_pow10 by (done || lia). auto.
Qed.

Lemma subtract_exact x y :
  Integer.wf (intVal x) -> Integer.wf (intVal y) -> Z.abs (scale x - scale y) <= 9 ->
  let s := Z.max (scale x) (scale y) in
  scale (subtract x y) = s /\ Integer.wf (intVal (subtract x y)) /\ Integer.value (intVal (subtract x y)) = at_scale x s - at_scale y s.
Proof.
  apply (combine_value Integer.subtract Z.sub). intros a b Ha Hb. split; [unfold Integer.subtract; apply Integer.add_wf|].
  by apply Integer.subtract_value.
Qed.

(** Sums, differences and comparisons of decimals are exact while their scales differ by at
    most 9: the unscaled result is that of the operands at the larger scale. *)
Theorem decimal_arithmetic x y :
  Integer.wf (intVal x) -> Integer.wf (intVal y) -> Z.abs (scale x - scale y) <= 9 ->
  let s := Z.max (scale x) (scale y) in
  (scale (add x y) = s /\ Integer.value (intVal (add x y)) = at_scale x s + at_scale y s) /\
  (scale (subtract x y) = s /\ Integer.value (intVal (subtract x y)) = at_scale x s - at_scale y s) /\
  compare x y = match at_scale x s ?= at_scale y s with Lt => -1 | Eq => 0 | Gt => 1 end.
Proof.
  intros Hx Hy Hs. cbn zeta. destruct (subtract_exact x y Hx Hy Hs) as (S1 & S2 & S3).
  destruct (combine_value Integer.add Z.add x y) as (A1 & _ & A3); [|done|done|done|].
  { intros a b Ha Hb. split; [apply Integer.add_wf|by apply Integer.add_value]. }
  split; [done|]. split; [done|]. unfold compare, isNegative, isZero. cbn zeta.
  rewrite Integer.isNegative_value, Integer.isZero_value, S3 by (done || apply S2).
  destruct (Z.compare_spec (at_scale x (Z.max (scale x) (scale y))) (at_scale y (Z.max (scale x) (scale y))));
    destruct (Z.ltb_spec (at_scale x (Z.max (scale x) (scale y)) - at_scale y (Z.max (scale x) (scale y))) 0); try lia;
    destruct (Z.eqb_spec (at_scale x (Z.max (scale x) (scale y)) - at_scale y (Z.max (scale x) (scale y))) 0); lia.
Qed.

Lemma decimal_arithmetic_witness :
  compare (mk (Integer.fromInt 15) 1) (mk (Integer.fromInt 150) 2) = 0.
Proof.
  destruct (decimal_arithmetic (mk (Integer.fromInt 15) 1) (mk (Integer.fromInt 150) 2)) as (_ & _ & ->);
    [apply Integer.fromInt_wf|apply Integer.fromInt_wf|cbn; lia|vm_compute; reflexivity].
Defined.

(** ** Text *)

(** What a minus sign does to the text of the digits. *)
Definition signed_text (v : Z) (digits : jsstr) : jsstr := if v <? 0 then 45 :: digits else digits.

Definition all_digits (s : jsstr) : Prop := Forall (fun c => is_digit c = true) s.

Lemma sign_text_signed v ds s : all_digits ds -> ds <> [] -> sign_text (signed_text v ds) s = signed_text v (point_text ds s).
Proof.
  intros Hd Hne. unfold signed_text. destruct (v <? 0); [done|]. destruct ds as [|c ds]; [done|].
  apply Forall_cons_1 in Hd as [Hc _]. apply is_digit_spec in Hc. cbn [sign_text]. by rewrite (proj2 (Z.eqb_neq c 45)) by lia.
Qed.

(** The digits around the point: those given, after zeros. *)
Lemma point_text_split ds s :
  0 < s -> all_digits ds -> ds <> [] ->
  exists a b, point_text ds s = a ++ 46 :: b /\ all_digits (a ++ b) /\ a <> [] /\ slen b = s /\ dec_val (a ++ b) = dec_val ds.
Proof.
  intros Hs Hd Hne. unfold point_text. set (n := slen ds - s).
  assert (Hz : forall k, dec_val (replicate k 48 ++ ds) = dec_val ds).
  { intros k. induction k as [|k IH]; [done|]. cbn [replicate app]. rewrite <- IH. unfold dec_val. cbn [fold_left]. done. }
  assert (Hl : 0 < slen ds) by (unfold slen; destruct ds; [done|cbn [length]; lia]).
  destruct (Z.leb_spec n 0).
  - set (ds' := replicate (Z.to_nat (- n + 1)) 48 ++ ds).
    assert (Hl' : slen ds' = s + 1) by (unfold ds', slen in *; rewrite length_app, length_replicate; lia).
    exists (before ds' (slen ds' - s)), (after ds' (slen ds' - s)). unfold before, after. rewrite take_drop.
    split; [done|]. split; [apply Forall_app; split; [by apply Forall_replicate|done]|].
    split; [intros E; apply (f_equal length) in E; rewrite length_take in E; unfold slen in *; cbn in E; lia|].
    split; [unfold slen in *; rewrite length_drop; lia|apply Hz].
  - exists (before ds n), (after ds n). unfold before, after. rewrite take_drop.
    split; [done|]. split; [done|]. split; [|split; [unfold slen in *; rewrite length_drop; lia|done]].
    intros E. apply (f_equal length) in E. rewrite length_take in E. unfold slen in *. cbn in E. lia.
Qed.

Lemma trim_no_space s : Forall (fun c => is_space c = false) s -> trim s = s.
Proof.
  assert (G : forall s, Forall (fun c => is_space c = false) s -> skip_space s = s).
  { intros s' Hs'. destruct Hs' as [|c s' Hc]; [done|]. cbn [skip_space]. by rewrite Hc. }
  intros Hs. unfold trim. rewrite (G s Hs), G, rev_involutive; [done|]. by apply Forall_rev.
Qed.

Lemma index_of_point a b : ~ 46 ∈ a -> index_of_char 46 (a ++ 46 :: b) = Some (length a).
Proof.
  induction a as [|c a IH]; intros Ha; [done|]. cbn [app index_of_char length]. apply not_elem_of_cons in Ha as [Hc Ha].
  rewrite (proj2 (Z.eqb_neq c 46)), IH by (done || congruence). done.
Qed.

Lemma index_of_none s : ~ 46 ∈ s -> index_of_char 46 s = None.
Proof.
  induction s as [|c s IH]; intros Hs; [done|]. cbn [index_of_char]. apply not_elem_of_cons in Hs as [Hc Hs].
  by rewrite (proj2 (Z.eqb_neq c 46)), IH by (done || congruence).
Qed.

(** Characters of a number. *)
Definition number_char (c : Z) : Prop := is_digit c = true \/ c = 45 \/ c = 46.

Lemma number_char_space c : number_char c -> is_space c = false.
Proof.
  intros [H|[->| ->]]; [|done|done]. apply is_digit_spec in H. unfold is_space.
  repeat (rewrite (proj2 (Z.eqb_neq c _)) by lia). cbn. repeat case_Z; (done || lia).
Qed.

(** Digits with a sign are read as an Integer. *)
Lemma fromString_signed v ds x :
  all_digits ds -> ds <> [] -> dec_val ds = Z.abs v -> Integer.wf x -> Integer.value x = v ->
  Integer.fromString (signed_text v ds) 10 = Ok x.
Proof.
  intros Hd Hne Hv Hx Ex. destruct (Integer.fromString_dec _ Hne Hd) as (y & E & Hy & Ey). unfold signed_text.
  destruct (Z.ltb_spec v 0).
  - transitivity (Integer.negate <$> Integer.fromString ds 10); [reflexivity|]. rewrite E. cbn. f_equal.
    apply Integer.value_inj; [apply Integer.negate_wf|done|]. rewrite Integer.negate_value by done. lia.
  - rewrite E. f_equal. apply Integer.value_inj; [done|done|lia].
Qed.

(** The text of a decimal whose scale is not negative. *)
Definition decimal_text (x : t) : jsstr :=
  let v := Integer.value (intVal x) in
  let digits := dec_str (Z.abs v) in
  signed_text v (if scale x =? 0 then digits else point_text digits (scale x)).

Lemma int_str_signed v : int_str v = signed_text v (dec_str (Z.abs v)).
Proof. unfold int_str, signed_text. destruct (Z.ltb_spec v 0); f_equal; f_equal; lia. Qed.

Lemma signed_app v a b : signed_text v (a ++ b) = signed_text v a ++ b.
Proof. unfold signed_text. by destruct (v <? 0). Qed.

Lemma no_point v ds : all_digits ds -> ~ 46 ∈ signed_text v ds.
Proof.
  intros Hd Hin. assert (G : ~ 46 ∈ ds).
  { intros H. apply list_elem_of_In, (proj1 (Forall_forall _ _) Hd) in H. discriminate H. }
  unfold signed_text in Hin. destruct (v <? 0); [|done]. apply elem_of_cons in Hin as [|]; done.
Qed.

Lemma signed_chars v s : Forall number_char s -> Forall number_char (signed_text v s).
Proof. intros H. unfold signed_text. destruct (v <? 0); [|done]. constructor; [unfold number_char; auto|done]. Qed.

Lemma digits_chars ds : all_digits ds -> Forall number_char ds.
Proof. apply Forall_impl. intros c Hc. by left. Qed.

Lemma fromString_decimal_text x :
  Integer.wf (intVal x) -> 0 <= scale x -> fromString (decimal_text x) = Ok x.
Proof.
  intros Hx Hs. unfold decimal_text. set (v := Integer.value (intVal x)).
  destruct (dec_str_spec (Z.abs v) ltac:(lia)) as (Hd & Hv & Hne). set (ds := dec_str (Z.abs v)) in *. clearbody ds.
  assert (Hfs : forall s, s <> [] -> Forall number_char s -> fromString s =
    match index_of_char 46 s with
    | Some k => i ← Integer.fromString (take k s ++ drop (S k) s) 10; Ok (mk i (slen s - 1 - Z.of_nat k))
    | None => i ← Integer.fromString s 10; Ok (mk i 0)
    end).
  { intros s Hs' Hc. unfold fromString. rewrite trim_no_space; [by destruct s|]. revert Hc. apply Forall_impl, number_char_space. }
  assert (Hsn : forall l, l <> [] -> signed_text v l <> []) by (intros l Hl; unfold signed_text; by destruct (v <? 0)).
  destruct (Z.eqb_spec (scale x) 0) as [E|Hn].
  - rewrite Hfs by auto using signed_chars, digits_chars. rewrite index_of_none by (by apply no_point).
    rewrite (fromString_signed v ds (intVal x)) by (done || lia). rewrite ok_bind. destruct x. cbn in *. by subst.
  - destruct (point_text_split ds (scale x) ltac:(lia) Hd Hne) as (a & b & -> & Hab & Ha & Hb & Ev).
    apply Forall_app in Hab as Hab'. destruct Hab' as [Hda Hdb].
    rewrite signed_app. rewrite Hfs.
    2: { by destruct (signed_text v a). }
    2: { apply Forall_app. split; [by apply signed_chars, digits_chars|]. constructor; [unfold number_char; auto|by apply digits_chars]. }
    rewrite index_of_point by (by apply no_point).
    rewrite take_app_length. replace (S (length (signed_text v a))) with (length (signed_text v a) + 1)%nat by lia.
    rewrite drop_app_add. cbn [drop]. rewrite ?drop_0, <- (signed_app v a b).
    rewrite (fromString_signed v (a ++ b) (intVal x)); [|done|by destruct a|lia|done|done]. rewrite ok_bind. f_equal.
    destruct x as [i s]. cbn [scale intVal] in *. f_equal. unfold slen in *. rewrite length_app. cbn [length]. lia.
Qed.

(** C39. The text of a decimal whose scale is not negative has its digits and its point, and
    [fromString] reads it back to the same decimal; the unscaled value is below 2^768. *)
Theorem decimal_text_roundtrip `{IntegerText.MathLog} x :
  Integer.wf (intVal x) -> Z.abs (Integer.value (intVal x)) < 2 ^ 768 -> 0 <= scale x ->
  toString x = Ok (Some (decimal_text x)) /\ fromString (decimal_text x) = Ok x.
Proof.
  intros Hx Hv Hs. split; [|by apply fromString_decimal_text]. unfold toString.
  rewrite IntegerText.toString_decimal by done. do 2 f_equal. unfold decimal_text. cbn zeta. rewrite int_str_signed.
  destruct (scale x =? 0); [done|]. destruct (dec_str_spec (Z.abs (Integer.value (intVal x))) ltac:(lia)) as (Hd & _ & Hne).
  by apply sign_text_signed.
Qed.

#[local] Existing Instance IntegerText.exact_log.

Lemma decimal_text_roundtrip_witness : toString (mk (Integer.fromInt (-5)) 3) = Ok (Some (js "-0.005")).
Proof.
  destruct (decimal_text_roundtrip (mk (Integer.fromInt (-5)) 3)) as [E _];
    [apply Integer.fromInt_wf|cbn [intVal]; rewrite Integer.fromInt_value by (unfold int32; lia); vm_compute; reflexivity|cbn; lia|].
  rewrite E. vm_compute. reflexivity.
Defined.

(** A decimal with a negative scale loses its zeros: 5 at scale -2, which is 500, is written "5.",
    and that text is read as 5. *)
Lemma negative_scale_text :
  toString (mk (Integer.fromInt 5) (-2)) = Ok (Some (js "5.")) /\ fromString (js "5.") = Ok (mk (Integer.fromInt 5) 0).
Proof. split; vm_compute; reflexivity. Qed.

(** When the scales differ by 23 the power of ten is not a Number, so that 1 and the same decimal
    with 23 zeros after the point are not equal. *)
Lemma decimal_compare_wrong :
  match fromString (js "1.00000000000000000000000") with
  | Ok y => scale y = 23 /\ Integer.value (intVal y) = 10 ^ 23 /\ equals (mk (Integer.fromInt 1) 0) y = false
  | Err _ => False
  end.
Proof. vm_compute. auto. Qed.
End BigDecimalText.
