(* ===== verification/Streams.v ===== *)
(** * Streams of rows

    lib/types/result-stream.js, and [stream] of lib/client.ts that feeds it from the pages
    of [eachRow].

    The base class Readable of Node.js, in object mode with its default high water mark, is
    modelled as far as the code relies on it: its buffer of rows, the flag [reading] that
    keeps [_read] from being called again before a chunk was pushed, [push] with its answer
    whether more is wanted, [read(0)], and [read()], by which the consumer takes a row.
    The function given to the valve asks for the next page and returns at once.

    The theorems hold under every order of the reads of the consumer and of the pages: no row
    is lost, doubled or reordered; with manual paging the next page is asked for only when
    every row of the pages before was pushed and the stream is not paused (with automatic
    paging [eachRow] asks for it at once); and a consumer that goes on reading gets all rows
    and the end after finitely many steps. *)

From stdpp Require Import list relations.
From S2P Require Import Prelude.

Section stream.
Context {A : Type}.

(** A chunk is a row, or the null that ends the stream. *)
Abbreviation chunk := (option A).

(** ** Readable *)

(** The rows buffered, the flags, and what the consumer got: rows and the end. *)
Record readable : Type := mkReadable {
  held : list A;
  reading : bool;
  ended : bool;
  given : list A;
  endEmitted : bool }.

(** [highWaterMark] in object mode *)
Definition highWaterMark : nat := 16.

(** [push(chunk)] and its answer. *)
Definition push (c : chunk) (r : readable) : readable * bool :=
  match c with
  | None => (mkReadable (held r) false true (given r) (endEmitted r), false)
  | Some row =>
      let held := held r ++ [row] in
      (mkReadable held false (ended r) (given r) (endEmitted r), negb (ended r) && (length held <? highWaterMark)%nat)
  end.

(** ** ResultStream *)

(** The options set for continuous paging. *)
Record handlers : Type := mkHandlers { resumeReadingHandler : bool; cancelHandler : option nat }.

(** [resumed] are the notifications to resume or stop reading. *)
Record stream : Type := mkStream {
  base : readable;
  buffer : list chunk;
  paused : bool;
  readNext : bool;
  cancelAllowed : bool;
  handlersObject : option handlers;
  highWaterMarkRows : Z;
  resumed : list bool }.

Definition ResultStream_constructor : stream := mkStream (mkReadable [] false false [] false) [] true false false None 0 [].

(** The loop of [_read]: the base class, what is left and whether it is paused. *)
Fixpoint drain (b : list chunk) (r : readable) : readable * list chunk * bool :=
  match b with
  | [] => (r, [], false)
  | c :: b => let '(r, more) := push c r in if more then drain b r else (r, b, true)
  end.

Definition notify (s : stream) (continue : bool) : stream :=
  mkStream (base s) (buffer s) (paused s) (readNext s) (cancelAllowed s) (handlersObject s) (highWaterMarkRows s)
    (resumed s ++ [continue]).

Definition has_resume (s : stream) : bool := match handlersObject s with Some h => resumeReadingHandler h | None => false end.

Definition checkAboveHighWaterMark (s : stream) : stream :=
  if negb (has_resume s) then s
  else if (highWaterMarkRows s =? 0) || negb (Z.of_nat (length (buffer s)) =? highWaterMarkRows s) then s
  else notify s false.

Definition checkBelowHighWaterMark (s : stream) : stream :=
  if negb (has_resume s) then s
  else if (highWaterMarkRows s =? 0) || (highWaterMarkRows s <=? Z.of_nat (length (buffer s))) then s
  else notify s true.

(** The stream, and whether the function of the valve was called. *)
Definition _read (s : stream) : stream * bool :=
  let r := match buffer s with
           | [] => mkReadable (held (base s)) false (ended (base s)) (given (base s)) (endEmitted (base s))
           | _ => base s
           end in
  let '(r, kept, p) := drain (buffer s) r in
  let s := mkStream r kept p (readNext s) (cancelAllowed s) (handlersObject s) (highWaterMarkRows s) (resumed s) in
  let s := checkBelowHighWaterMark s in
  if negb (paused s) && (match buffer s with [] => true | _ => false end) && readNext s then
    (mkStream (base s) (buffer s) (paused s) false (cancelAllowed s) (handlersObject s) (highWaterMarkRows s) (resumed s), true)
  else (s, false).

Definition set_base (s : stream) (r : readable) : stream :=
  mkStream r (buffer s) (paused s) (readNext s) (cancelAllowed s) (handlersObject s) (highWaterMarkRows s) (resumed s).

(** The call of [_read] by [read(n)]: not while one has pushed nothing yet, nor after the end,
    nor when enough rows would be left. *)
Definition call_read (n : nat) (s : stream) : stream * bool :=
  let r := base s in
  if negb (reading r) && negb (ended r) && (length (held r) <? highWaterMark + n)%nat then
    _read (set_base s (mkReadable (held r) true (ended r) (given r) (endEmitted r)))
  else (s, false).

(** [read(0)] *)
Definition read0 (s : stream) : stream * bool := call_read 0 s.

(** [read()]: the consumer takes a row, or finds the end. *)
Definition read1 (s : stream) : stream * bool :=
  let '(s, called) := call_read 1 s in
  let r := base s in
  let '(held, given) := match held r with row :: held => (held, given r ++ [row]) | [] => ([], given r) end in
  (set_base s (mkReadable held (reading r) (ended r) given
     (endEmitted r || ended r && match held with [] => true | _ => false end)), called).

(** [f] tells whether there is a function. *)
Definition _valve (f : bool) (s : stream) : stream * bool :=
  let set r := mkStream (base s) (buffer s) (paused s) r (cancelAllowed s) (handlersObject s) (highWaterMarkRows s) (resumed s) in
  if negb f then (set false, false)
  else if paused s || (match buffer s with [] => false | _ => true end) then (set true, false)
  else (set false, true).

Definition add (c : chunk) (s : stream) : stream * bool :=
  let s := mkStream (base s) (buffer s ++ [c]) (paused s) (readNext s) (cancelAllowed s) (handlersObject s) (highWaterMarkRows s) (resumed s) in
  let '(s, called) := read0 s in
  (checkAboveHighWaterMark s, called).

Definition continuousPageDefaultHighWaterMark : Z := 10000.

(** [highWaterMark] is that of continuous paging, if it is enabled. *)
Definition setHandlers (h : handlers) (highWaterMark : option (option Z)) (s : stream) : stream :=
  match highWaterMark with
  | None => s
  | Some w =>
      let w := match w with Some w => if w =? 0 then continuousPageDefaultHighWaterMark else w | None => continuousPageDefaultHighWaterMark end in
      mkStream (base s) (buffer s) (paused s) (readNext s) true (Some h) w (resumed s)
  end.

Inductive cancelOutcome : Type := CancelError | CancelKept | CancelAsked (handler : nat).

(** [callback] is the callback given, if any; 0 is the function that does nothing. *)
Definition cancel (callback : option nat) (s : stream) : result (stream * cancelOutcome) :=
  if negb (cancelAllowed s) then
    match callback with
    | None => Err (PlainError "You can only cancel streaming executions when continuous paging is enabled")
    | Some _ => Ok (s, CancelError)
    end
  else
    match handlersObject s with
    | None => Err (DriverInternalError "ResultStream cancel is allowed but the cancel options were not set")
    | Some h =>
        match cancelHandler h with
        | None =>
            Ok (mkStream (base s) (buffer s) (paused s) (readNext s) (cancelAllowed s)
                  (Some (mkHandlers (resumeReadingHandler h) (Some (default 0%nat callback)))) (highWaterMarkRows s) (resumed s), CancelKept)
        | Some f => Ok (s, CancelAsked f)
        end
    end.

(** ** The stream of a query *)

(** What remains of the pages: the rows of the one being delivered, and the others; the wait
    for the function of the valve to be called; a page asked for; the end; the end by an
    exception, when an error is emitted that nobody listens to. *)
Inductive phase : Type :=
| Delivering (rows : list A) (pages : list (list A))
| Waiting (pages : list (list A))
| Fetching (pages : list (list A))
| Finished
| Crashed.

(** The errors emitted and the calls of the callback: with an error or not. *)
Record world : Type := mkWorld { st : stream; ph : phase; errors_ : nat; callbacks : list bool }.

(** The next page once the function of the valve was called. *)
Definition advance (called : bool) (p : phase) : phase :=
  match p with Waiting pages => if called then Fetching pages else p | _ => p end.

(** [onFinish] without a next page; [listener] tells whether there is a listener of errors. *)
Definition finish (listener failed : bool) (w : world) : world :=
  if failed && negb listener then mkWorld (st w) Crashed (errors_ w + 1) (callbacks w)
  else
    let '(s, _) := _valve false (st w) in
    let '(s, _) := add None s in
    mkWorld s Finished (errors_ w + (if failed then 1 else 0)) (callbacks w ++ [failed]).

(** [onFinish] with a next page; with automatic paging [eachRow] asks for it instead. *)
Definition page_end (autoPage : bool) (pages : list (list A)) (w : world) : world :=
  if autoPage then mkWorld (st w) (Fetching pages) (errors_ w) (callbacks w)
  else let '(s, called) := _valve true (st w) in mkWorld s (advance called (Waiting pages)) (errors_ w) (callbacks w).

(** A read of the stream, which may call the function of the valve. *)
Definition after_read (w : world) (r : stream * bool) : world :=
  mkWorld (fst r) (advance (snd r) (ph w)) (errors_ w) (callbacks w).

Section steps.
Variables autoPage listener : bool.

(** What carries rows on: the consumer reads; the page asked for arrives; a row callback; the
    end of a page. *)
Inductive carry : world -> world -> Prop :=
| carry_read w : carry w (after_read w (read1 (st w)))
| carry_row w row rows pages s called :
    ph w = Delivering (row :: rows) pages -> add (Some row) (st w) = (s, called) ->
    carry w (mkWorld s (advance called (Delivering rows pages)) (errors_ w) (callbacks w))
| carry_page w page pages : ph w = Delivering [] (page :: pages) -> carry w (page_end autoPage (page :: pages) w)
| carry_last w : ph w = Delivering [] [] -> carry w (finish listener false w)
| carry_fetched w page pages : ph w = Fetching (page :: pages) -> carry w (mkWorld (st w) (Delivering page pages) (errors_ w) (callbacks w)).

(** The other events: the base class reads ahead by [read(0)], and a page fails. *)
Inductive step : world -> world -> Prop :=
| step_carry w w' : carry w w' -> step w w'
| step_ahead w : step w (after_read w (read0 (st w)))
| step_failed w pages : ph w = Fetching pages -> step w (finish listener true w).

End steps.

(** The first page is asked for by [eachRow] itself. *)
Definition init (pages : list (list A)) : world := mkWorld ResultStream_constructor (Fetching pages) 0 [].

(** ** Reading *)

(** What was pushed. *)
Definition pushed (r : readable) : list chunk := (Some <$> given r ++ held r) ++ (if ended r then [None] else []).

Definition chunks (s : stream) : list chunk := pushed (base s) ++ buffer s.

(** What remains to be done with the chunks: each has to be pushed and then taken. *)
Definition cost (s : stream) : nat :=
  (4 * length (buffer s) + 2 * length (held (base s)) + (if paused s then 1 else 0))%nat.

(** Between two events no call of [_read] is open, and the base class holds no more than it
    wants. *)
Record sound (s : stream) : Prop := {
  so_reading : reading (base s) = false;
  so_held : (length (held (base s)) <= highWaterMark)%nat;
  so_end : endEmitted (base s) = true -> ended (base s) = true /\ held (base s) = [];
  so_handlers : handlersObject s = None }.

Lemma drain_moves b r r' kept p :
  drain b r = (r', kept, p) -> ended r = false ->
  pushed r' ++ kept = pushed r ++ b /\ given r' = given r /\ endEmitted r' = endEmitted r /\
  (reading r' = match b with [] => reading r | _ => false end) /\
  (p = false -> kept = []) /\ (length (held r') <= Nat.max highWaterMark (S (length (held r))))%nat /\
  (4 * length kept + 2 * length (held r') + (if p then 1 else 0) + match b with [] => 0 | _ => 1 end <= 4 * length b + 2 * length (held r))%nat /\
  (b = [] -> r' = r /\ p = false).
Proof.
  revert r. induction b as [|c b IH]; intros r; cbn [drain]; intros E Hr.
  - injection E as <- <- <-. split_and!; try done; lia.
  - destruct c as [row|]; cbn [push] in E.
    + rewrite Hr in E. cbn [negb andb] in E. set (r1 := mkReadable _ _ _ _ _) in E.
      assert (P1 : pushed r1 ++ b = pushed r ++ Some row :: b).
      { unfold pushed, r1. cbn [held given ended]. rewrite Hr, !app_nil_r, app_assoc, fmap_app, <- app_assoc. done. }
      assert (L1 : length (held r1) = S (length (held r))) by (unfold r1; cbn; rewrite length_app; cbn; lia).
      destruct (Nat.ltb_spec (length (held r ++ [row])) highWaterMark) as [Hlt|Hge].
      * destruct (IH r1 E eq_refl) as (I1 & I2 & I3 & I4 & I5 & I6 & I7 & I8). rewrite L1 in *.
        rewrite length_app in Hlt. cbn [length] in *.
        split_and!; [by rewrite I1|done|done| |done|lia|destruct b; lia|done]. rewrite I4. by destruct b.
      * injection E as <- <- <-. rewrite L1. split_and!; [done|done|done|done|done|lia|cbn; lia|done].
    + injection E as <- <- <-. unfold pushed. cbn [held given ended endEmitted reading length]. rewrite Hr, app_nil_r, <- app_assoc.
      split_and!; [done|done|done|done|done|lia|lia|done].
Qed.

Lemma stream_eta s b : handlersObject s = None -> paused s = false -> buffer s = [] -> readNext s = false -> b = base s ->
  mkStream b [] false false (cancelAllowed s) None (highWaterMarkRows s) (resumed s) = s.
Proof. destruct s; cbn. by intros -> -> -> -> ->. Qed.

(** What a read does: chunks move to the base class, the function of the valve is called only
    when none is left, and always then; a read that changes nothing found nothing to do. *)
Record reads (n : nat) (s s' : stream) (called : bool) : Prop := {
  re_chunks : chunks s' = chunks s;
  re_given : given (base s') = given (base s) /\ endEmitted (base s') = endEmitted (base s);
  re_calm : reading (base s') = false /\ handlersObject s' = None;
  re_next : readNext s' = readNext s && negb called;
  re_held : (length (held (base s')) <= highWaterMark + n)%nat;
  re_called : called = true -> readNext s = true /\ buffer s' = [] /\ paused s' = false;
  re_cost : (cost s' <= cost s)%nat;
  re_moves : s' = s \/ (cost s' < cost s)%nat \/ called = true;
  re_empty : buffer s = [] -> buffer s' = [] /\ (paused s = false -> paused s' = false);
  re_ended : ended (base s) = true -> s' = s /\ called = false;
  re_idle : ended (base s) = false -> (length (held (base s)) < highWaterMark + n)%nat -> called = false -> s' = s ->
            buffer s = [] /\ readNext s = false }.

Lemma call_read_spec n s s' called : sound s -> call_read n s = (s', called) -> reads n s s' called.
Proof.
  intros [H1 H2 H3 H4]. unfold call_read. rewrite H1. cbn [negb andb]. destruct (ended (base s)) eqn:He; cbn [negb andb].
  { intros [= <- <-]. split; rewrite ?andb_true_r; auto; try lia; try done; intros; (congruence || lia). }
  destruct (Nat.ltb_spec (length (held (base s))) (highWaterMark + n)) as [Hl|Hl].
  2: { intros [= <- <-]. split; rewrite ?andb_true_r; auto; try lia; try done; intros; (congruence || lia). }
  unfold _read. set (r0 := match buffer (set_base _ _) with [] => _ | _ => _ end).
  assert (Hr0 : held r0 = held (base s) /\ ended r0 = false /\ given r0 = given (base s) /\ endEmitted r0 = endEmitted (base s) /\
                reading r0 = match buffer s with [] => false | _ => true end)
    by (subst r0; cbn; destruct (buffer s); done).
  clearbody r0. destruct Hr0 as (Z1 & Z2 & Z3 & Z4 & Z5). cbn [buffer set_base readNext cancelAllowed handlersObject highWaterMarkRows resumed].
  destruct (drain (buffer s) r0) as [[r kept] p] eqn:E. destruct (drain_moves _ _ _ _ _ E Z2) as (D1 & D2 & D3 & D4 & D5 & D6 & D7 & D8).
  unfold checkBelowHighWaterMark, has_resume. cbn [handlersObject]. rewrite H4. cbn [negb paused buffer readNext].
  assert (Hp : pushed r0 = pushed (base s)) by (unfold pushed; by rewrite Z1, Z2, Z3, He).
  assert (Hrd : reading r = false) by (rewrite D4, Z5; by destruct (buffer s)).
  rewrite Z1 in *. rewrite Hp in D1. set (k := negb p && _ && readNext s).
  assert (Hmoves : (buffer s = [] /\ kept = [] /\ p = false /\ r = base s) \/
    (4 * length kept + 2 * length (held r) + (if p then 1 else 0) < 4 * length (buffer s) + 2 * length (held (base s)))%nat).
  { destruct (buffer s) as [|c b] eqn:Eb; [left|right; cbn [length] in *; lia]. destruct (D8 eq_refl) as [-> ->].
    split_and!; [done|by apply D5|done|]. destruct r0, (base s). cbn in *. by subst. }
  destruct k eqn:Ek; unfold k in Ek; intros [= <- <-].
  - apply andb_true_iff in Ek as [Ek Er]. apply andb_true_iff in Ek as [Ep Ekp]. apply negb_true_iff in Ep.
    assert (kept = []) as -> by (by destruct kept). subst p.
    split; unfold chunks, cost; cbn [base buffer paused readNext handlersObject].
    + exact D1.
    + by rewrite D2, D3.
    + done.
    + by rewrite andb_false_r.
    + change highWaterMark with 16%nat in *. lia.
    + done.
    + destruct Hmoves as [(-> & _ & _ & ->)|]; cbn [length] in *; lia.
    + by right; right.
    + done.
    + by rewrite He.
    + done.
  - split; unfold chunks, cost; cbn [base buffer paused readNext handlersObject]; rewrite ?andb_true_r.
    + exact D1.
    + by rewrite D2, D3.
    + done.
    + done.
    + change highWaterMark with 16%nat in *. lia.
    + done.
    + destruct Hmoves as [(-> & -> & -> & ->)|]; cbn [length] in *; [destruct (paused s)|]; lia.
    + destruct Hmoves as [(Hb & -> & -> & ->)|Hm]; [|right; left; destruct (paused s); lia].
      destruct (paused s) eqn:Eps; [right; left; rewrite Hb; cbn; lia|]. left. cbn [negb andb] in Ek. rewrite Ek.
      by apply stream_eta.
    + intros Hb. destruct Hmoves as [(_ & -> & -> & _)|Hm]; [done|]. rewrite Hb in Hm. cbn in Hm.
      rewrite Hb in D8. by destruct (D8 eq_refl) as [-> ->]; rewrite (D5 eq_refl).
    + by rewrite He.
    + intros _ _ _ Es. destruct Hmoves as [(Hb & -> & -> & ->)|Hm].
      * split; [done|]. cbn in Ek. done.
      * rewrite <- Es in Hm. cbn [buffer base held] in Hm. lia.
Qed.

(** What remains to be done, with the end that the consumer is to find. *)
Definition total (s : stream) : nat := (cost s + (if endEmitted (base s) then 0 else 1))%nat.

(** A read, by the base class or by the consumer. *)
Record turn (s s' : stream) (called : bool) : Prop := {
  tu_sound : sound s';
  tu_chunks : chunks s' = chunks s;
  tu_next : readNext s' = readNext s && negb called;
  tu_called : called = true -> readNext s = true /\ buffer s' = [] /\ paused s' = false;
  tu_empty : buffer s = [] -> buffer s' = [] /\ (paused s = false -> paused s' = false);
  tu_total : (total s' <= total s)%nat;
  tu_moves : (s' = s /\ called = false) \/ (total s' < total s)%nat \/ called = true }.

Lemma moves_false (P Q : Prop) (b : bool) : P \/ Q \/ b = true -> (P /\ b = false) \/ Q \/ b = true.
Proof. destruct b; tauto. Qed.

Lemma read0_spec s s' called : sound s -> read0 s = (s', called) -> turn s s' called.
Proof.
  intros Hs E. pose proof (call_read_spec _ _ _ _ Hs E) as R. destruct Hs as [H1 H2 H3 H4], R as [C1 [C2 C2'] [C3 C3'] C4 C5 C6 C7 C8 C9 C10 C11].
  assert (Ht : (total s' <= total s)%nat) by (unfold total; rewrite C2'; lia).
  split; auto.
  - split; [done|lia| |done]. rewrite C2'. intros He. destruct (H3 He) as [Hen Hh]. by destruct (C10 Hen) as [-> _].
  - apply moves_false. destruct C8 as [?|[?|?]]; [by left|right; left; unfold total; rewrite C2'; lia|by right; right].
Qed.

Lemma read1_spec s s' called : sound s -> read1 s = (s', called) ->
  turn s s' called /\
  (s' = s -> called = false ->
     held (base s) = [] /\ endEmitted (base s) = ended (base s) /\ (ended (base s) = false -> buffer s = [] /\ readNext s = false)).
Proof.
  intros Hs. unfold read1. destruct (call_read 1 s) as [s1 k] eqn:E. pose proof (call_read_spec _ _ _ _ Hs E) as R.
  destruct Hs as [H1 H2 H3 H4], R as [C1 [C2 C2'] [C3 C3'] C4 C5 C6 C7 C8 C9 C10 C11].
  change highWaterMark with 16%nat in *. destruct (held (base s1)) as [|row h] eqn:Eh; intros [= <- <-].
  - set (e := endEmitted (base s1) || _).
    assert (He : ((if e then 0 else 1) <= (if endEmitted (base s) then 0 else 1))%nat)
      by (subst e; rewrite C2'; destruct (endEmitted (base s)), (ended (base s1)); cbn; lia).
    assert (Ec : cost (set_base s1 (mkReadable [] (reading (base s1)) (ended (base s1)) (given (base s1)) e)) = cost s1)
      by (unfold cost; cbn [set_base base held buffer paused]; by rewrite Eh).
    assert (Eid : s1 = s -> e = endEmitted (base s) -> set_base s1 (mkReadable [] (reading (base s1)) (ended (base s1)) (given (base s1)) e) = s).
    { intros -> ->. destruct s as [[] ? ? ? ? ? ? ?]. cbn in *. by subst. }
    split; [split|].
    + split; cbn [set_base base reading held endEmitted handlersObject ended]; [done|cbn; lia| |done].
      subst e. rewrite C2'. intros [Ht|[Ht _]%andb_true_iff]%orb_true_iff; [|done]. destruct (H3 Ht) as [Hen _]. by destruct (C10 Hen) as [-> _].
    + rewrite <- C1. unfold chunks, pushed. cbn [set_base base given held ended buffer]. by rewrite Eh.
    + done.
    + done.
    + done.
    + unfold total. rewrite Ec. cbn [set_base base endEmitted]. lia.
    + apply moves_false. destruct C8 as [Es|[Hc|Hc]]; [|right; left; unfold total; rewrite Ec; cbn [set_base base endEmitted]; lia|by right; right].
      destruct (Bool.bool_dec e (endEmitted (base s))) as [Ee|Ee]; [left; by apply Eid|]. right; left. unfold total. rewrite Ec, Es.
      cbn [set_base base endEmitted]. destruct e, (endEmitted (base s)); try done; lia.
    + intros Es Hk. assert (E1 : endEmitted (base s) = e) by (by rewrite <- Es).
      assert (E2 : held (base s) = []) by (by rewrite <- Es). split; [done|].
      assert (Hs1 : s1 = s).
      { destruct C8 as [?|[Hc|Hc]]; [done| |congruence]. exfalso. rewrite <- Es, Ec in Hc. lia. }
      subst s1. split.
      * destruct (ended (base s)) eqn:Een; subst e; [|destruct (endEmitted (base s)) eqn:Ee; [by destruct (H3 eq_refl)|done]].
        cbn [andb] in E1. rewrite orb_true_r in E1. done.
      * intros He'. apply C11; [done|rewrite E2; cbn; lia|done|done].
  - set (s' := set_base _ _).
    assert (Ec : (S (cost s') < cost s1)%nat) by (unfold s', cost; cbn [set_base base held buffer paused]; rewrite Eh; cbn [length]; lia).
    assert (Het : (total s' < total s)%nat).
    { unfold total. assert (endEmitted (base s) = true -> endEmitted (base s') = true) by (intros Hx; unfold s'; cbn; by rewrite C2', Hx).
      destruct (endEmitted (base s)), (endEmitted (base s')); lia. }
    split; [split|].
    + split; cbn [s' set_base base reading held endEmitted handlersObject ended]; [done|change highWaterMark with 16%nat; cbn in C5; lia| |done].
      rewrite C2'. intros [Ht|[Ht Hh]%andb_true_iff]%orb_true_iff; [|split; [done|by destruct h]].
      destruct (H3 Ht) as [Hen Hhe]. destruct (C10 Hen) as [-> _]. congruence.
    + rewrite <- C1. unfold chunks, pushed, s'. cbn [set_base base given held ended buffer]. by rewrite Eh, <- (app_assoc (given _)).
    + done.
    + done.
    + done.
    + lia.
    + by right; left.
    + intros Es. exfalso. rewrite Es in Het. lia.
Qed.

Lemma add_spec c s s' called :
  sound s -> add c s = (s', called) ->
  sound s' /\ chunks s' = chunks s ++ [c] /\ readNext s' = readNext s && negb called /\ (total s' <= total s + 4)%nat.
Proof.
  intros Hs. unfold add. set (s1 := mkStream (base s) (buffer s ++ [c]) _ _ _ _ _ _).
  assert (Hs1 : sound s1) by (destruct Hs; by split).
  destruct (read0 s1) as [s2 k] eqn:E. destruct (read0_spec _ _ _ Hs1 E) as [T1 T2 T3 _ _ T6 _].
  unfold checkAboveHighWaterMark, has_resume. rewrite (so_handlers _ T1). cbn [negb]. intros [= <- <-].
  split; [done|]. split; [rewrite T2; unfold chunks, s1; cbn; by rewrite app_assoc|]. split; [done|].
  etrans; [exact T6|]. unfold total, cost, s1. cbn [base buffer paused held]. rewrite length_app. cbn [length]. lia.
Qed.

Lemma valve_spec f s s' called :
  sound s -> _valve f s = (s', called) ->
  sound s' /\ chunks s' = chunks s /\ buffer s' = buffer s /\ paused s' = paused s /\ total s' = total s /\ readNext s' = f && negb called /\
  (called = true -> f = true /\ buffer s = [] /\ paused s = false).
Proof.
  intros [H1 H2 H3 H4]. unfold _valve, chunks. destruct f; cbn [negb].
  - destruct (paused s) eqn:Ep, (buffer s) eqn:Eb; cbn [orb]; intros [= <- <-]; unfold total, cost;
      cbn [base buffer readNext paused negb andb]; rewrite ?Eb, ?Ep; (split; [split; done|]); done.
  - intros [= <- <-]. split; [split; done|]. done.
Qed.

(** ** Reachable states *)

(** The rows that were not delivered yet. *)
Definition pending (p : phase) : list A :=
  match p with
  | Delivering rows pages => rows ++ mjoin pages
  | Waiting pages | Fetching pages => mjoin pages
  | Finished | Crashed => []
  end.

Definition over (p : phase) : bool := match p with Finished | Crashed => true | _ => false end.
Definition waits (p : phase) : bool := match p with Waiting _ => true | _ => false end.
Definition end_of (p : phase) : list chunk := match p with Finished => [None] | _ => [] end.

(** The pages that are still to come, when one is. *)
Definition to_come (p : phase) : option (list (list A)) :=
  match p with Waiting pages | Fetching pages => Some pages | _ => None end.

Section reachable.
Variables autoPage listener : bool.
Variable all : list (list A).

Record ok (w : world) (delivered : list A) : Prop := {
  ok_sound : sound (st w);
  ok_chunks : chunks (st w) = (Some <$> delivered) ++ end_of (ph w);
  ok_rows : errors_ w = 0%nat -> mjoin all = delivered ++ pending (ph w);
  ok_prefix : delivered `prefix_of` mjoin all;
  ok_valve : readNext (st w) = waits (ph w);
  ok_fetching : autoPage = false -> forall pages, ph w = Fetching pages -> buffer (st w) = [] /\ (pages = all \/ paused (st w) = false);
  ok_running : over (ph w) = false -> errors_ w = 0%nat /\ callbacks w = [];
  ok_finished : ph w = Finished -> callbacks w = [negb (bool_decide (errors_ w = 0%nat))];
  ok_crashed : ph w = Crashed -> callbacks w = [] /\ errors_ w = 1%nat /\ listener = false;
  ok_pages : all <> [] -> forall pages, to_come (ph w) = Some pages -> pages <> [] }.

Lemma ok_init : ok (init all) [].
Proof.
  split; try done.
  - split; try done. cbn. lia.
  - apply prefix_nil.
  - intros _ pages [= <-]. by split; [|left].
  - by intros Hne pages [= <-].
Qed.

Lemma ok_turn w d s' called : ok w d -> turn (st w) s' called -> ok (after_read w (s', called)) d.
Proof.
  intros [H0 H1 H2 H3 H4 H5 H6 H7 H8 H9] [T1 T2 T3 T4 T5 T6 T7]. unfold after_read. cbn [fst snd].
  assert (Hc : called = true -> exists pages, ph w = Waiting pages).
  { intros Hc. destruct (T4 Hc) as [Hr _]. rewrite Hr in H4. destruct (ph w); try discriminate H4. eauto. }
  destruct called.
  - destruct (Hc eq_refl) as [pages Hp]. destruct (T4 eq_refl) as (_ & Hb & Hpa).
    split; cbn [st ph errors_ callbacks]; rewrite ?Hp in *; cbn [advance pending end_of waits over to_come] in *; try done.
    + by rewrite T2.
    + by rewrite T3, andb_false_r.
    + intros _ ps [= <-]. by split; [|right].
  - assert (Ha : advance false (ph w) = ph w) by (by destruct (ph w)).
    split; cbn [st ph errors_ callbacks]; rewrite ?Ha, ?T2, ?T3, ?andb_true_r; try done.
    intros Hap pages Hp. destruct (H5 Hap pages Hp) as [Hb Hor]. destruct (T5 Hb) as [Hb' Hpa]. split; [done|].
    destruct Hor as [?|?]; [by left|right; auto].
Qed.

Lemma ok_finish w d failed :
  ok w d -> over (ph w) = false -> waits (ph w) = false -> (failed = false -> pending (ph w) = []) ->
  ok (finish listener failed w) d /\ (total (st (finish listener failed w)) <= total (st w) + 4)%nat.
Proof.
  intros Hw Hn Hwt Hf. destruct (ok_running _ _ Hw Hn) as [He Hc]. destruct Hw as [H0 H1 H2 H3 H4 H5 H6 H7 H8 H9].
  assert (Ech : chunks (st w) = Some <$> d) by (rewrite H1; destruct (ph w); try (by rewrite app_nil_r); done).
  unfold finish. destruct (failed && negb listener) eqn:Efl.
  { apply andb_true_iff in Efl as [-> Hl%negb_true_iff]. split; [|cbn; lia].
    split; cbn [st ph errors_ callbacks end_of waits over pending to_come]; rewrite ?He, ?Hc; try done.
    - by rewrite app_nil_r.
    - by rewrite H4. }
  destruct (_valve false (st w)) as [s1 b1] eqn:E1. destruct (valve_spec _ _ _ _ H0 E1) as (V0 & V1 & _ & _ & V4 & V5 & _).
  destruct (add None s1) as [s2 b2] eqn:E2. destruct (add_spec _ _ _ _ V0 E2) as (A0 & A1 & A2 & A3).
  split; [|cbn [st]; lia]. split; cbn [st ph errors_ callbacks end_of waits over pending to_come]; rewrite ?He, ?Hc; try done.
  - by rewrite A1, V1, Ech.
  - destruct failed; [done|]. intros _. rewrite (H2 He), Hf by done. done.
  - by rewrite A2, V5.
  - by destruct failed.
Qed.

(** The weight of what remains of the pages. *)
Definition pages_weight (pages : list (list A)) : nat := sum_list ((fun p => 6 * length p + 4)%nat <$> pages).

Definition phase_weight (p : phase) : nat :=
  match p with
  | Delivering rows pages => 6 * length rows + pages_weight pages + 8
  | Waiting pages => pages_weight pages + 7
  | Fetching pages => pages_weight pages + 6
  | Finished | Crashed => 0
  end.

Definition weight (w : world) : nat := (phase_weight (ph w) + total (st w))%nat.

Lemma world_eta w : after_read w (st w, false) = w.
Proof. unfold after_read. destruct w as [s p e c]. cbn. by destruct p. Qed.

Lemma turn_weight w d s' called : ok w d -> turn (st w) s' called ->
  after_read w (s', called) = w \/ (weight (after_read w (s', called)) < weight w)%nat.
Proof.
  intros Hw [T1 T2 T3 T4 T5 T6 T7]. unfold weight, after_read at 2 3. cbn [fst snd st ph].
  destruct T7 as [[-> ->]|[Hlt| ->]]; [left; apply world_eta| |].
  - right. destruct (ph w), called; cbn [advance phase_weight]; lia.
  - right. destruct (T4 eq_refl) as [Hr _]. rewrite (ok_valve _ _ Hw) in Hr. destruct (ph w); try discriminate Hr.
    cbn [advance phase_weight]. lia.
Qed.

(** Every event keeps the invariant, and changes nothing or makes progress. *)
Lemma carry_ok w w' d : ok w d -> carry autoPage listener w w' ->
  (exists d', ok w' d') /\ (w' = w \/ (weight w' < weight w)%nat).
Proof.
  intros Hw Hs. destruct Hs as [w|w row rows pages s called Hp E|w page pages Hp|w Hp|w page pages Hp].
  - destruct (read1 (st w)) as [s called] eqn:E. destruct (read1_spec _ _ _ (ok_sound _ _ Hw) E) as [T _].
    split; [exists d; by apply ok_turn|by eapply turn_weight].
  - destruct (ok_running _ _ Hw) as [He Hc]; [by rewrite Hp|]. destruct (add_spec _ _ _ _ (ok_sound _ _ Hw) E) as (A0 & A1 & A2 & A3).
    destruct Hw as [H0 H1 H2 H3 H4 H5 H6 H7 H8 H9]. rewrite Hp in *. assert (Hall := H2 He). cbn [pending app] in Hall.
    split; [exists (d ++ [row])|right; unfold weight; rewrite Hp; cbn [ph st advance phase_weight length]; lia].
    split; cbn [st ph errors_ callbacks advance end_of waits over to_come] in *; rewrite ?He, ?Hc; try done.
    + by rewrite A1, H1, fmap_app, !app_nil_r.
    + intros _. cbn [pending]. rewrite Hall, <- app_assoc. done.
    + rewrite Hall. exists (rows ++ mjoin pages). by rewrite <- app_assoc.
    + by rewrite A2, H4.
  - unfold page_end. destruct autoPage eqn:Ea.
    + destruct Hw as [H0 H1 H2 H3 H4 H5 H6 H7 H8 H9]. rewrite Hp in *.
      split; [exists d|right; unfold weight; rewrite Hp; cbn [ph st phase_weight length]; lia].
      split; cbn [st ph errors_ callbacks end_of waits over to_come pending app] in *; try done.
      * by rewrite Ea.
      * by intros _ ps [= <-].
    + destruct (_valve true (st w)) as [s called] eqn:E. destruct (valve_spec _ _ _ _ (ok_sound _ _ Hw) E) as (V0 & V1 & V2 & V3 & V4 & V5 & V6).
      destruct Hw as [H0 H1 H2 H3 H4 H5 H6 H7 H8 H9]. rewrite Hp in *.
      split; [exists d|right; unfold weight; rewrite Hp; cbn [ph st]; destruct called; cbn [advance phase_weight length]; lia].
      destruct called; cbn [advance] in *;
        (split; cbn [st ph errors_ callbacks end_of waits over to_come pending app] in *; rewrite ?V1; try done);
        try (by intros _ ps [= <-]).
      intros _ ps [= <-]. destruct (V6 eq_refl) as (_ & Hb & Hpa). rewrite V2, V3. by split; [|right].
  - destruct (ok_finish w d false Hw) as [Ho Ht]; [by rewrite Hp|by rewrite Hp|by rewrite Hp|].
    split; [by exists d|]. right. unfold weight. rewrite Hp. unfold finish in *. cbn [andb] in *.
    destruct (_valve false (st w)) as [s1 b1], (add None s1) as [s2 b2]. cbn [ph st phase_weight length] in *. lia.
  - destruct Hw as [H0 H1 H2 H3 H4 H5 H6 H7 H8 H9]. rewrite Hp in *.
    split; [exists d|right; unfold weight; rewrite Hp; cbn [ph st phase_weight pages_weight fmap list_fmap sum_list_with id]; fold (pages_weight pages); unfold pages_weight; cbn; lia].
    split; cbn [st ph errors_ callbacks end_of waits over to_come pending app] in *; try done.
Qed.

Lemma step_ok w w' d : ok w d -> step autoPage listener w w' ->
  (exists d', ok w' d') /\ (w' = w \/ (weight w' < weight w)%nat).
Proof.
  intros Hw Hs. destruct Hs as [w w' Hc|w|w pages Hp]; [by eapply carry_ok| |].
  - destruct (read0 (st w)) as [s called] eqn:E. pose proof (read0_spec _ _ _ (ok_sound _ _ Hw) E) as T.
    split; [exists d; by apply ok_turn|by eapply turn_weight].
  - destruct (ok_finish w d true Hw) as [Ho Ht]; [by rewrite Hp|by rewrite Hp|done|].
    split; [by exists d|]. right. unfold weight. rewrite Hp. unfold finish in *. destruct (true && negb listener); [cbn [ph st phase_weight]; lia|].
    destruct (_valve false (st w)) as [s1 b1], (add None s1) as [s2 b2]. cbn [ph st phase_weight] in *. lia.
Qed.

Lemma ok_reachable w : rtc (step autoPage listener) (init all) w -> exists d, ok w d.
Proof.
  intros Hr. assert (Hi : exists d, ok (init all) d) by (exists []; apply ok_init).
  induction Hr as [|w1 w2 w3 Hst _ IH]; [done|]. apply IH. destruct Hi as [d Hd]. by destruct (step_ok _ _ _ Hd Hst).
Qed.

(** The end of the stream is the last chunk. *)
Lemma ended_last (x y : list A) (t b : list chunk) :
  (t = [] \/ t = [None]) -> (Some <$> x) ++ None :: b = (Some <$> y) ++ t -> t = [None] /\ b = [] /\ x = y.
Proof.
  intros Ht. revert y. induction x as [|a x IH]; intros [|c y] E; cbn in E.
  - destruct Ht as [-> | ->]; [done|]. injection E as ->. done.
  - done.
  - destruct Ht as [-> | ->]; done.
  - injection E as -> E. destruct (IH _ E) as (-> & -> & ->). done.
Qed.

Lemma some_rows (x y : list A) : Some <$> x = Some <$> y -> x = y.
Proof. revert y. induction x as [|a x IH]; intros [|c y] E; cbn in E; try done. injection E as -> E. f_equal. by apply IH. Qed.

(** When nothing carries rows on, the consumer has everything. *)
Lemma carry_stuck w d : all <> [] -> ok w d -> (forall w', carry autoPage listener w w' -> w' = w) ->
  over (ph w) = true /\ given (base (st w)) = d /\ held (base (st w)) = [] /\ buffer (st w) = [] /\
  endEmitted (base (st w)) = match ph w with Finished => true | _ => false end.
Proof.
  intros Hne Hw Hst. destruct (read1 (st w)) as [s called] eqn:E.
  destruct (read1_spec _ _ _ (ok_sound _ _ Hw) E) as [T Hidle].
  pose proof (Hst _ (carry_read _ _ w)) as Hr. rewrite E in Hr. unfold after_read in Hr. cbn [fst snd] in Hr.
  assert (Hs : s = st w) by (by rewrite <- Hr). assert (Hp : advance called (ph w) = ph w) by (by rewrite <- Hr at 2).
  assert (Hcl : called = false).
  { destruct called; [|done]. destruct (tu_called _ _ _ T eq_refl) as [Hn _]. rewrite (ok_valve _ _ Hw) in Hn. by destruct (ph w). }
  destruct (Hidle Hs Hcl) as (Hh & He & Hb).
  pose proof (ok_chunks _ _ Hw) as Hch. unfold chunks, pushed in Hch. rewrite Hh, app_nil_r in Hch.
  pose proof (ok_valve _ _ Hw) as Hv. pose proof (ok_pages _ _ Hw Hne) as Hpg.
  assert (Hov : over (ph w) = true).
  { destruct (ph w) as [[|row rows] pages|pages|[|page pages]| |] eqn:Ep; try done.
    - destruct pages as [|page pages].
      + pose proof (Hst _ (carry_last _ _ w Ep)) as Hx. apply (f_equal ph) in Hx. rewrite Ep in Hx. unfold finish in Hx. cbn [andb] in Hx.
        destruct (_valve false (st w)), (add None s0). done.
      + pose proof (Hst _ (carry_page _ _ w page pages Ep)) as Hx. apply (f_equal ph) in Hx. rewrite Ep in Hx. unfold page_end in Hx.
        destruct autoPage; [done|]. destruct (_valve true (st w)) as [? []]; done.
    - destruct (add (Some row) (st w)) as [s' k] eqn:Ea. pose proof (Hst _ (carry_row _ _ w row rows pages s' k Ep Ea)) as Hx.
      apply (f_equal ph) in Hx. rewrite Ep in Hx. cbn in Hx. injection Hx as Hx. apply (f_equal length) in Hx. cbn in Hx. lia.
    - exfalso. destruct (ended (base (st w))) eqn:Ee; [|by destruct (Hb eq_refl) as [_ ?]; rewrite Hv in *].
      rewrite <- app_assoc in Hch. apply ended_last in Hch as [? _]; [done|by left].
    - by specialize (Hpg [] eq_refl).
    - pose proof (Hst _ (carry_fetched _ _ w page pages Ep)) as Hx. apply (f_equal ph) in Hx. rewrite Ep in Hx. done. }
  split; [done|]. rewrite He. destruct (ended (base (st w))) eqn:Ee.
  - rewrite <- app_assoc in Hch. apply ended_last in Hch as (H1 & H2 & H3); [|destruct (ph w); auto]. by destruct (ph w).
  - destruct (Hb eq_refl) as [Hb' _]. rewrite Hb' in *. rewrite !app_nil_r in Hch.
    destruct (ph w); try done; cbn [end_of] in Hch.
    + exfalso. revert Hch. clear. generalize (given (base (st w))). intros x. revert d. induction x as [|a x IH]; intros [|c d] Ex; cbn in Ex; try done.
      injection Ex as -> Ex. by apply (IH d).
    + rewrite app_nil_r in Hch. by apply some_rows in Hch.
Qed.

End reachable.

(** A step that changes something. *)
Definition progress (autoPage listener : bool) (w w' : world) : Prop := step autoPage listener w w' /\ w' <> w.

Lemma progress_ends autoPage listener all w d : ok autoPage listener all w d -> sn (progress autoPage listener) w.
Proof.
  remember (weight w) as n eqn:En. revert w d En. induction (Nat.lt_wf_0 n) as [n _ IH]. intros w d -> Hw.
  constructor. intros w' [Hs Hne]. destruct (step_ok _ _ _ _ _ _ Hw Hs) as [[d' Hd'] [->|Hlt]]; [done|].
  by apply (IH (weight w') Hlt w' d').
Qed.

(** C23. The rows of a stream, in every state that the events of the pages and of the consumer can
    reach, in any order, with manual or automatic paging: the rows the consumer got, those that the base class and
    the buffer hold are the rows delivered so far, in their order and each once, followed by the end of
    the stream only after the last page or an error; without an error the rows delivered and those of the pages
    to come are all rows; the base class holds no more rows than its high water mark; with manual paging a page
    after the first is asked for only when the buffer is empty and the stream is not paused (with automatic paging [eachRow] asks for
    the next page at once); and the callback is called at the end, once, with the
    error if there was one, unless nobody listens to errors, when the error is thrown instead. *)
Theorem stream_rows (autoPage listener : bool) (pages : list (list A)) (w : world) :
  rtc (step autoPage listener) (init pages) w ->
  exists delivered,
    pushed (base (st w)) ++ buffer (st w) = (Some <$> delivered) ++ (match ph w with Finished => [None] | _ => [] end) /\
    delivered `prefix_of` mjoin pages /\
    (errors_ w = 0%nat -> delivered ++ pending (ph w) = mjoin pages) /\
    (length (held (base (st w))) <= highWaterMark)%nat /\
    (autoPage = false -> forall rest, ph w = Fetching rest ->
       buffer (st w) = [] /\ (rest = pages \/ paused (st w) = false)) /\
    callbacks w = match ph w with Finished => [negb (bool_decide (errors_ w = 0%nat))] | _ => [] end /\
    (ph w = Crashed -> listener = false).
Proof.
  intros Hr. destruct (ok_reachable _ _ _ _ Hr) as [d Hd]. exists d. split; [apply Hd|]. split; [apply Hd|].
  split; [intros He; symmetry; by apply Hd|]. split; [apply Hd|]. split; [apply Hd|].
  split; [|intros Hc; by apply (ok_crashed _ _ _ _ _ Hd Hc)].
  destruct (ph w) eqn:E; try (apply (ok_running _ _ _ _ _ Hd); by rewrite E); [by apply (ok_finished _ _ _ _ _ Hd)|by apply (ok_crashed _ _ _ _ _ Hd E)].
Qed.

(** C24. A stream comes to its end: from every state it can reach only finitely many steps change
    anything, and in a state in which neither a read of the consumer nor an event of the pages changes anything
    the stream is over: the consumer got every row that was delivered and nothing is left in the buffers; without an
    error these are all rows of all pages, followed by the end of the stream, and the callback was called without
    an error; after an error with a listener the end of the stream was given too. *)
Theorem stream_finishes (autoPage listener : bool) (pages : list (list A)) (w : world) :
  pages <> [] -> rtc (step autoPage listener) (init pages) w ->
  sn (progress autoPage listener) w /\
  ((forall w', carry autoPage listener w w' -> w' = w) ->
     held (base (st w)) = [] /\ buffer (st w) = [] /\
     (errors_ w = 0%nat -> given (base (st w)) = mjoin pages /\ endEmitted (base (st w)) = true /\ callbacks w = [false]) /\
     (errors_ w <> 0%nat -> given (base (st w)) `prefix_of` mjoin pages /\
        (listener = true -> endEmitted (base (st w)) = true /\ callbacks w = [true]))).
Proof.
  intros Hne Hr. destruct (ok_reachable _ _ _ _ Hr) as [d Hd]. split; [by eapply progress_ends|]. intros Hst.
  destruct (carry_stuck _ _ _ _ _ Hne Hd Hst) as (Ho & Hg & Hh & Hb & He). split; [done|]. split; [done|]. rewrite Hg, He.
  destruct (ph w) eqn:E; try done.
  - pose proof (ok_finished _ _ _ _ _ Hd E) as Hc. rewrite Hc. split.
    + intros H0. rewrite (ok_rows _ _ _ _ _ Hd H0), E, bool_decide_eq_true_2 by done. by rewrite app_nil_r.
    + intros H0. rewrite bool_decide_eq_false_2 by done. split; [apply Hd|done].
  - destruct (ok_crashed _ _ _ _ _ Hd E) as (_ & Hx & Hl). split; [lia|]. intros _. split; [apply Hd|]. by rewrite Hl.
Qed.
End stream.

(** Two pages with manual paging: the second one is asked for as soon as the rows of the first are
    pushed, and in the end the consumer has all rows. *)
Definition sample_world (held : list Z) (ended : bool) (given : list Z) (done paused : bool) (p : phase) (cb : list bool) : world :=
  mkWorld (mkStream (mkReadable held false ended given done) [] paused false false None 0 []) p 0 cb.

Definition second_page : world := sample_world [1; 2] false [] false false (Fetching [[3]]) [].

Definition sample_end : world := sample_world [] true [1; 2; 3] true true Finished [false].

Lemma second_page_reachable : rtc (step false true) (init [[1; 2]; [3]]) second_page.
Proof.
  pose (w1 := sample_world [] false [] false true (Delivering [1; 2] [[3]]) []).
  pose (w2 := sample_world [1] false [] false false (Delivering [2] [[3]]) []).
  pose (w3 := sample_world [1; 2] false [] false false (Delivering [] [[3]]) []).
  apply (rtc_l _ _ w1); [apply step_carry; by apply (carry_fetched _ _ (init _) [1; 2] [[3]])|].
  apply (rtc_l _ _ w2); [apply step_carry; by apply (carry_row _ _ w1 1 [2] [[3]] (st w2) false)|].
  apply (rtc_l _ _ w3); [apply step_carry; by apply (carry_row _ _ w2 2 [] [[3]] (st w3) false)|].
  apply (rtc_l _ _ second_page); [apply step_carry; by apply (carry_page false true w3 [3] [])|apply rtc_refl].
Qed.

Lemma sample_end_reachable : rtc (step false true) (init [[1; 2]; [3]]) sample_end.
Proof.
  etrans; [apply second_page_reachable|].
  pose (w1 := sample_world [1; 2] false [] false false (Delivering [3] []) []).
  pose (w2 := sample_world [1; 2; 3] false [] false false (Delivering [] []) []).
  pose (w3 := sample_world [1; 2; 3] true [] false true Finished [false]).
  pose (w4 := sample_world [2; 3] true [1] false true Finished [false]).
  pose (w5 := sample_world [3] true [1; 2] false true Finished [false]).
  apply (rtc_l _ _ w1); [apply step_carry; by apply (carry_fetched _ _ second_page [3] [])|].
  apply (rtc_l _ _ w2); [apply step_carry; by apply (carry_row _ _ w1 3 [] [] (st w2) false)|].
  apply (rtc_l _ _ w3); [apply step_carry; by apply (carry_last false true w2)|].
  apply (rtc_l _ _ w4); [apply step_carry; by apply (carry_read false true w3)|].
  apply (rtc_l _ _ w5); [apply step_carry; by apply (carry_read false true w4)|].
  apply (rtc_l _ _ sample_end); [apply step_carry; by apply (carry_read false true w5)|apply rtc_refl].
Qed.

Lemma sample_end_stuck w' : carry false true sample_end w' -> w' = sample_end.
Proof. intros Hc. remember sample_end as w eqn:Ew. destruct Hc; subst w; try discriminate H. reflexivity. Qed.

Lemma stream_rows_witness :
  exists delivered, [Some 1; Some 2] ++ [] = (Some <$> delivered) ++ [] /\ delivered `prefix_of` [1; 2; 3].
Proof.
  destruct (stream_rows false true [[1; 2]; [3]] second_page second_page_reachable) as (d & H1 & H2 & _). exists d. by split.
Defined.

Lemma stream_finishes_witness :
  sn (progress false true) sample_end /\ given (base (st sample_end)) = [1; 2; 3] /\ callbacks sample_end = [false].
Proof.
  destruct (stream_finishes false true [[1; 2]; [3]] sample_end ltac:(discriminate) sample_end_reachable) as [H1 H2].
  split; [exact H1|]. destruct (H2 sample_end_stuck) as (_ & _ & H3 & _). destruct (H3 eq_refl) as (H4 & _ & H5). by split.
Defined.

(** With automatic paging the valve is not used: the next page is asked for although the consumer
    took nothing and rows wait in the buffer. *)
Lemma rows_delivered {A} autoPage listener (rows : list A) pages s :
  readNext s = false -> handlersObject s = None -> sound s ->
  rtc (step autoPage listener) (mkWorld s (Delivering rows pages) 0 [])
    (mkWorld (fold_left (fun s row => fst (add (Some row) s)) rows s) (Delivering [] pages) 0 []).
Proof.
  revert s. induction rows as [|row rows IH]; intros s Hn Hh Hs; [apply rtc_refl|].
  destruct (add (Some row) s) as [s' called] eqn:E. destruct (add_spec _ _ _ _ Hs E) as (A0 & _ & A2 & _).
  eapply rtc_l; [apply step_carry; by apply (carry_row _ _ (mkWorld s (Delivering (row :: rows) pages) 0 []) row rows pages s' called)|].
  cbn [fold_left advance errors_ callbacks]. rewrite E. cbn [fst]. apply IH; [by rewrite A2, Hn|apply A0|done].
Qed.

Lemma auto_page_unthrottled :
  exists w, rtc (step true true) (init [seq 0 20; [20%nat]]) w /\ ph w = Fetching [[20%nat]] /\
    given (base (st w)) = [] /\ length (buffer (st w)) = 4%nat.
Proof.
  assert (Hx : forall s (rows page : list nat), rtc (step true true) (mkWorld ResultStream_constructor (Delivering rows [page]) 0 [])
    (mkWorld s (Delivering [] [page]) 0 []) -> rtc (step true true) (init [rows; page]) (mkWorld s (Fetching [page]) 0 [])).
  { intros s rows page Hr. eapply rtc_l; [apply step_carry; by apply (carry_fetched _ _ (init [rows; page]) rows [page])|].
    eapply rtc_r; [exact Hr|]. apply step_carry. by apply (carry_page true true (mkWorld s (Delivering [] [page]) 0 []) page []). }
  eexists. split; [apply Hx, rows_delivered; [done|done|split; try done; cbn; lia]|]. vm_compute. done.
Qed.

(** The high water mark: a stream with continuous paging told to hold two rows stops the server when the
    buffer has that many rows, and has it resume when a read empties the buffer. *)
Example high_water_mark :
  let full := mkReadable (A := nat) (seq 0 16) false false [] false in
  let s := set_base (setHandlers (mkHandlers true None) (Some (Some 2)) (ResultStream_constructor (A := nat))) full in
  let s1 := (add (Some 1%nat) s).1 in
  let s2 := (add (Some 2%nat) s1).1 in
  (resumed s1, resumed s2, resumed (read1 s2).1) = ([], [false], [false; true]).
Proof. reflexivity. Qed.
