(* ===== verification/Hosts.v ===== *)
(** * Hosts

    lib/host.ts: [Host], the key of a host and [HostMap], the map of the hosts of the cluster
    by host id and by address.

    The map is built once, by the native layer, from an object that has each host under the
    hexadecimal text of its host id.  A [net.SocketAddress] is its address text, its family and its port. *)

From stdpp Require Import list sets.
From S2P Require Import Prelude JsNumber JsString Utf8 Buffer ValueTypes JsValue Collections.

Record socketAddress : Type := mkAddress { address : jsstr; ipv6 : bool; port : Z }.

#[export] Instance socketAddress_eq_dec : EqDecision socketAddress.
Proof. solve_decision. Defined.

Definition socketAddressToString (a : socketAddress) : jsstr :=
  if ipv6 a then 91 :: address a ++ 93 :: 58 :: dec_str (port a)
  else address a ++ 58 :: dec_str (port a).

Definition hostIdToString (buffer : bytes) : jsstr := hex_encode buffer.

Module Host.
Record t : Type := mk {
  hostAddress : socketAddress;
  cassandraVersion : option jsstr;
  datacenter : option jsstr;
  rack : option jsstr;
  tokens : list jsstr;
  hostId : Uuid.t }.

Definition constructor (a : socketAddress) (datacenter rack : option jsstr) (hostId : bytes) : result t :=
  match Uuid.constructor hostId with
  | Ok id => Ok (mk a None datacenter rack [] id)
  | Err e => Err e
  end.

Definition addressToString (h : t) : jsstr := socketAddressToString (hostAddress h).

Definition isUp (h : t) : result bool := Err (PlainError "TODO: Not implemented").
Definition canBeConsideredAsUp (h : t) : result bool := Err (PlainError "TODO: Not implemented").
Definition getCassandraVersion (h : t) : result (list Z) := Err (PlainError "TODO: Not implemented").
End Host.

Module HostMap.
(** The hosts by the text of their id, the ids by address, and the cached values. *)
Record t : Type := mk {
  hostsById : list (jsstr * Host.t);
  idByIp : list (jsstr * jsstr);
  cached : option (list Host.t) }.

(** [Map.prototype.set] with strings for keys: a key that is there keeps its place. *)
Fixpoint ip_set (k v : jsstr) (m : list (jsstr * jsstr)) : list (jsstr * jsstr) :=
  match m with
  | [] => [(k, v)]
  | (k', v') :: m => if bool_decide (k' = k) then (k', v) :: m else (k', v') :: ip_set k v m
  end.

Definition constructor (items : list (jsstr * Host.t)) : t :=
  mk items
    (fold_left (fun m e => ip_set (socketAddressToString (Host.hostAddress (snd e))) (fst e) m) items [])
    None.

(** What [forEach] calls the function with. *)
Definition forEach (m : t) : list (Host.t * Uuid.t) := (fun h => (h, Host.hostId h)) <$> (snd <$> hostsById m).

(** The kinds of key of [get]. *)
Inductive key : Type :=
| ByUuid (u : Uuid.t)
| ByBuffer (b : bytes)
| ByAddress (a : socketAddress)
| ByString (s : jsstr).

Definition get (m : t) (k : key) : option Host.t :=
  let itemKey :=
    match k with
    | ByUuid u => Some (hostIdToString (Uuid.getBuffer u))
    | ByBuffer b => Some (hostIdToString b)
    | ByAddress a => lookup_prop (socketAddressToString a) (idByIp m)
    | ByString s => lookup_prop s (idByIp m)
    end in
  match itemKey with
  | None => None
  | Some i => lookup_prop i (hostsById m)
  end.

Definition keys (m : t) : list Uuid.t := Host.hostId <$> (snd <$> hostsById m).

Definition values (m : t) : t * list Host.t :=
  match cached m with
  | Some v => (m, v)
  | None => let v := snd <$> hostsById m in (mk (hostsById m) (idByIp m) (Some v), v)
  end.

(** The getter of [length]. *)
Definition length_ (m : t) : Z := Z.of_nat (length (values m).2).

Definition inspect (m : t) : list (jsstr * Host.t) := hostsById m.

Definition toJSON (m : t) : list (jsstr * Host.t) :=
  fold_left (fun o e => set_prop (fst e) (snd e) o)
    ((fun h => (Uuid.toString (Host.hostId h), h)) <$> (snd <$> hostsById m)) [].
End HostMap.

(** ** The text of an address *)

Lemma split_last (c : Z) x1 y1 x2 y2 :
  c ∉ y1 -> c ∉ y2 -> x1 ++ c :: y1 = x2 ++ c :: y2 -> x1 = x2 /\ y1 = y2.
Proof.
  intros H1 H2. revert x2. induction x1 as [|a x1 IH]; intros [|b x2]; cbn [app].
  - by intros [= ->].
  - intros [= -> ->]. destruct H1. apply elem_of_app. right. left.
  - intros [= -> <-]. destruct H2. apply elem_of_app. right. left.
  - intros [= -> E]. by destruct (IH _ E) as [-> ->].
Qed.

(** The text of an IPv4 address has neither brackets nor colons. *)
Definition wf_address (a : socketAddress) : Prop :=
  0 <= port a /\ (ipv6 a = false -> 91 ∉ address a).

Lemma digits_no_colon z : 0 <= z -> 58 ∉ dec_str z.
Proof.
  intros Hz Hin. destruct (dec_str_spec z Hz) as (Hd & _). rewrite List.Forall_forall in Hd.
  apply list_elem_of_In, Hd in Hin. by vm_compute in Hin.
Qed.

Lemma socketAddressToString_inj a b :
  wf_address a -> wf_address b -> socketAddressToString a = socketAddressToString b -> a = b.
Proof.
  assert (Hform : forall a, socketAddressToString a = (if ipv6 a then 91 :: address a ++ [93] else address a) ++ 58 :: dec_str (port a)).
  { intros a'. unfold socketAddressToString. destruct (ipv6 a'); [|done]. cbn [app]. by rewrite <- app_assoc. }
  destruct a as [x v p], b as [y w q]. intros [Hp Hx] [Hq Hy]. rewrite !Hform. cbn [address ipv6 port] in *.
  intros E. apply split_last in E as [Eh Ed]; [|by apply digits_no_colon..].
  assert (p = q) as <-.
  { pose proof (dec_str_spec p Hp) as (_ & E1 & _). pose proof (dec_str_spec q Hq) as (_ & E2 & _). congruence. }
  destruct v, w.
  - injection Eh as Eh. by apply app_inj_tail in Eh as [-> _].
  - destruct (Hy eq_refl). rewrite <- Eh. set_solver.
  - destruct (Hx eq_refl). rewrite Eh. set_solver.
  - by subst.
Qed.

(** ** Finding hosts *)

Lemma find_snoc {A} (p : A -> bool) l x :
  List.find p (l ++ [x]) = match List.find p l with Some y => Some y | None => if p x then Some x else None end.
Proof. induction l as [|y l IH]; cbn; [done|]. by destruct (p y). Qed.

Lemma find_fmap {A B} (f : A -> B) (p : B -> bool) l : List.find p (f <$> l) = f <$> List.find (fun x => p (f x)) l.
Proof. induction l as [|y l IH]; cbn; [done|]. by destruct (p (f y)). Qed.

Section hostmap.
Context (items : list (jsstr * Host.t)).

(** What the native layer hands over: each host under the text of its id, which has 16 bytes. *)
Definition native : Prop :=
  NoDup (fst <$> items) /\ Forall (fun e => fst e = hostIdToString (Uuid.raw (Host.hostId (snd e))) /\ Uuid.wf (Host.hostId (snd e))) items.

Hypothesis built : native.

Lemma built_entry k h : (k, h) ∈ items -> k = hex_encode (Uuid.raw (Host.hostId h)) /\ Uuid.wf (Host.hostId h).
Proof. destruct built as [_ Hf]. rewrite List.Forall_forall in Hf. intros Hin%list_elem_of_In. exact (Hf _ Hin). Qed.

Lemma hex_encode_inj a b : wf_bytes a -> wf_bytes b -> hex_encode a = hex_encode b -> a = b.
Proof. intros Ha Hb E. by rewrite <- (hex_roundtrip a Ha), E, hex_roundtrip. Qed.

Lemma elem_of_hosts h : h ∈ snd <$> items <-> exists k, (k, h) ∈ items.
Proof.
  rewrite list_elem_of_fmap. split; [intros ([k h'] & -> & Hin); eauto|intros [k Hk]; by exists (k, h)].
Qed.

Lemma lookup_id b h :
  wf_bytes b -> lookup_prop (hex_encode b) items = Some h <-> h ∈ snd <$> items /\ Uuid.raw (Host.hostId h) = b.
Proof.
  intros Hb. rewrite elem_of_hosts. split.
  - intros Hl%lookup_prop_In. destruct (built_entry _ _ Hl) as [Hk [Hw _]]. split; [eauto|]. by apply hex_encode_inj.
  - intros [[k Hin] <-]. destruct (built_entry _ _ Hin) as [-> _]. apply lookup_prop_elem; [apply built|done].
Qed.

Lemma lookup_ip_set k v k' m :
  lookup_prop k' (HostMap.ip_set k v m) = if bool_decide (k = k') then Some v else lookup_prop k' m.
Proof.
  induction m as [|[k0 v0] m IH]; cbn [HostMap.ip_set]; [by rewrite lookup_prop_cons|].
  destruct (decide (k0 = k)) as [->|E]; [rewrite (bool_decide_true (k = k)) by done|rewrite (bool_decide_false (k0 = k)) by done];
    rewrite !lookup_prop_cons; cbn [fst snd].
  - by case_bool_decide.
  - rewrite IH. destruct (decide (k = k')) as [<-|Hn]; [by rewrite (bool_decide_false (k0 = k)), bool_decide_true|].
    by rewrite !(bool_decide_false (k = k')).
Qed.

Lemma lookup_ips l m s :
  lookup_prop s (fold_left (fun m e => HostMap.ip_set (socketAddressToString (Host.hostAddress (snd e))) (fst e) m) l m)
  = match List.find (fun e => bool_decide (socketAddressToString (Host.hostAddress (snd e)) = s)) (rev l) with Some e => Some (fst e) | None => lookup_prop s m end.
Proof.
  revert m. induction l as [|e l IH]; intros m; [done|]. cbn [fold_left rev]. rewrite IH, lookup_ip_set, find_snoc.
  destruct (List.find _ (rev l)); [done|]. by case_bool_decide.
Qed.

(** By address text: the last host that has it. *)
Lemma get_text s :
  HostMap.get (HostMap.constructor items) (HostMap.ByString s)
  = List.find (fun h => bool_decide (Host.addressToString h = s)) (rev (snd <$> items)).
Proof.
  unfold HostMap.get, HostMap.constructor. cbn [HostMap.idByIp HostMap.hostsById].
  rewrite (lookup_ips items [] s).
  assert (Hr : rev (snd <$> items) = snd <$> rev items) by (symmetry; apply (List.map_rev snd)). rewrite Hr, find_fmap. clear Hr.
  destruct (List.find _ (rev items)) as [[k h]|] eqn:E; [|done]. cbn [fst snd fmap option_fmap option_map].
  apply List.find_some in E as [Hin _]. apply in_rev, list_elem_of_In in Hin. apply lookup_prop_elem; [apply built|done].
Qed.

Lemma find_ext {A} (p q : A -> bool) l : (forall x, x ∈ l -> p x = q x) -> List.find p l = List.find q l.
Proof.
  induction l as [|y l IH]; intros He; [done|]. cbn. rewrite He by set_solver. destruct (q y); [done|]. apply IH. set_solver.
Qed.

Lemma get_address a :
  wf_address a -> Forall (fun e => wf_address (Host.hostAddress (snd e))) items ->
  HostMap.get (HostMap.constructor items) (HostMap.ByAddress a)
  = List.find (fun h => bool_decide (Host.hostAddress h = a)) (rev (snd <$> items)).
Proof.
  intros Ha Hw. change (HostMap.get _ _) with (HostMap.get (HostMap.constructor items) (HostMap.ByString (socketAddressToString a))).
  rewrite get_text. apply find_ext. intros h Hin. rewrite list_elem_of_In, <- in_rev, <- list_elem_of_In in Hin.
  apply list_elem_of_fmap in Hin as (e & -> & He). rewrite List.Forall_forall in Hw. apply list_elem_of_In, Hw in He.
  apply bool_decide_ext. unfold Host.addressToString. split; [|by intros <-]. by apply socketAddressToString_inj.
Qed.

Lemma toString_proto u : Uuid.wf u -> Uuid.toString u <> proto.
Proof. intros Hu E. pose proof (Uuid.uuid_text_roundtrip u Hu) as Hr. rewrite E in Hr. by vm_compute in Hr. Qed.

Lemma toString_inj u v : Uuid.wf u -> Uuid.wf v -> Uuid.toString u = Uuid.toString v -> u = v.
Proof. intros Hu Hv E. pose proof (Uuid.uuid_text_roundtrip u Hu) as Hr. rewrite E, Uuid.uuid_text_roundtrip in Hr by done. by injection Hr. Qed.

(** The object of [toJSON] has the same hosts under the usual text of their ids. *)
Lemma toJSON_lookup u h :
  Uuid.wf u ->
  lookup_prop (Uuid.toString u) (HostMap.toJSON (HostMap.constructor items)) = Some h <-> h ∈ snd <$> items /\ Host.hostId h = u.
Proof.
  intros Hu. unfold HostMap.toJSON. cbn [HostMap.hostsById HostMap.constructor].
  set (l := (fun h => (Uuid.toString (Host.hostId h), h)) <$> (snd <$> items)).
  assert (Hl : forall k h, (k, h) ∈ l <-> h ∈ snd <$> items /\ k = Uuid.toString (Host.hostId h)).
  { intros k h'. unfold l. rewrite list_elem_of_fmap. split; [intros (x & [= -> ->] & Hx); done|intros [Hx ->]; eauto]. }
  assert (Hwf : forall h, h ∈ snd <$> items -> Uuid.wf (Host.hostId h)).
  { intros h' [k Hk]%elem_of_hosts. by eapply built_entry. }
  rewrite lookup_set_props.
  2:{ intros ([k h'] & Ek & Hin)%list_elem_of_fmap. apply Hl in Hin as [Hin ->]. cbn in Ek. by apply (toString_proto (Host.hostId h')); [apply Hwf|]. }
  assert (Hget : forall h', lookup_prop (Uuid.toString u) (rev l) = Some h' -> h' ∈ snd <$> items /\ Host.hostId h' = u).
  { intros h' Hin%lookup_prop_In. rewrite list_elem_of_In, <- in_rev, <- list_elem_of_In in Hin.
    apply Hl in Hin as [Hin E]. split; [done|]. symmetry. apply toString_inj; auto. }
  split.
  - destruct (lookup_prop _ (rev l)) eqn:E; [|done]. intros [= ->]. by apply Hget.
  - intros [Hin <-].
    assert (Hs : is_Some (lookup_prop (Uuid.toString (Host.hostId h)) (rev l))).
    { apply lookup_prop_keys, list_elem_of_fmap. exists (Uuid.toString (Host.hostId h), h). split; [done|].
      rewrite list_elem_of_In, <- in_rev, <- list_elem_of_In. by apply Hl. }
    destruct Hs as [h' E]. rewrite E. destruct (Hget _ E) as [Hin' Hid]. destruct Hu as [Hb _].
    assert (H1 := proj2 (lookup_id _ h Hb) (conj Hin eq_refl)).
    assert (H2 := proj2 (lookup_id _ h' Hb) (conj Hin' (f_equal Uuid.raw Hid))). congruence.
Qed.
End hostmap.

(** C25. The map of the hosts.  Built from what the native layer hands over (each host once,
    under the hexadecimal text of its id), it finds by id exactly the host that has the id, whether the id
    is given as a Uuid or as bytes, and none for any other id; by address the last host that has the address, given as
    an address or as its text; [toJSON] gives each host under the usual text of its id; and the values, the keys and
    [forEach] go through the hosts in the same order, the length being their number, also
    once the values are cached. *)
Theorem hostmap_lookup (items : list (jsstr * Host.t)) :
  native items -> Forall (fun e => wf_address (Host.hostAddress (snd e))) items ->
  let m := HostMap.constructor items in
  let hosts := (HostMap.values m).2 in
  (forall u h, wf_bytes (Uuid.raw u) -> HostMap.get m (HostMap.ByUuid u) = Some h <-> h ∈ hosts /\ Host.hostId h = u) /\
  (forall b h, wf_bytes b -> HostMap.get m (HostMap.ByBuffer b) = Some h <-> h ∈ hosts /\ Uuid.raw (Host.hostId h) = b) /\
  (forall a, wf_address a ->
     HostMap.get m (HostMap.ByAddress a) = List.find (fun h => bool_decide (Host.hostAddress h = a)) (rev hosts)) /\
  (forall s, HostMap.get m (HostMap.ByString s) = List.find (fun h => bool_decide (Host.addressToString h = s)) (rev hosts)) /\
  (forall u h, Uuid.wf u -> lookup_prop (Uuid.toString u) (HostMap.toJSON m) = Some h <-> h ∈ hosts /\ Host.hostId h = u) /\
  HostMap.keys m = Host.hostId <$> hosts /\ HostMap.forEach m = zip hosts (HostMap.keys m) /\
  HostMap.length_ m = Z.of_nat (length items) /\
  HostMap.values (HostMap.values m).1 = HostMap.values m.
Proof.
  intros Hb Ha m hosts. split; [|split; [|split; [|split; [|split; [|split; [|split; [|split]]]]]]].
  - intros [b] h Hw. etrans; [apply (lookup_id _ Hb _ _ Hw)|]. cbn [Uuid.raw].
    split; intros [Hin E]; (split; [done|]); [destruct (Host.hostId h); cbn in *; congruence|by rewrite E].
  - intros b h Hw. apply (lookup_id _ Hb _ _ Hw).
  - intros a Hw. by apply get_address.
  - intros s. by apply get_text.
  - intros u h Hu. by apply toJSON_lookup.
  - done.
  - unfold HostMap.forEach, HostMap.keys, hosts, HostMap.values, m. cbn.
    generalize (snd <$> items) as l. intros l. induction l as [|h l IH]; cbn; [done|]. by f_equal.
  - unfold HostMap.length_, HostMap.values, m. cbn. by rewrite length_fmap.
  - done.
Qed.

Definition host_of (n : Z) (a : jsstr) : Host.t :=
  Host.mk (mkAddress a false 9042) None (Some (js "dc1")) None [] (Uuid.mk (replicate 15 0 ++ [n])).

Definition two_hosts : list (jsstr * Host.t) :=
  (fun h => (hostIdToString (Uuid.raw (Host.hostId h)), h)) <$> [host_of 1 (js "10.0.0.1"); host_of 2 (js "10.0.0.2")].

Lemma hostmap_lookup_witness :
  HostMap.get (HostMap.constructor two_hosts) (HostMap.ByString (js "10.0.0.2:9042")) = Some (host_of 2 (js "10.0.0.2")).
Proof.
  destruct (hostmap_lookup two_hosts) as (_ & _ & _ & H & _).
  - split; [by apply (bool_decide_eq_true_1 _); vm_compute|].
    repeat constructor; cbn; lia.
  - repeat constructor; cbn; try lia; intros _; by apply (bool_decide_eq_true_1 _); vm_compute.
  - rewrite H. reflexivity.
Defined.
