(* ===== verification/PromiseUtils.v ===== *)
(** * Promises with a limit of concurrency

    lib/promise-utils.js: [times] with [invokeSequentially], and the adapters between
    callbacks and promises.

    [times count limit fn] starts [limit] loops that share a counter; each takes the next index, calls [fn]
    with it and waits for its promise.  The settling of those promises, in any order, is a step of the
    environment; between two of them the code of one loop runs alone. *)

From stdpp Require Import list relations sets.
From S2P Require Import Prelude.

(** ** Adapters *)

(** What an adapter does with an error, which counts only when it is truthy, and a result. *)
Inductive settled (E V : Type) : Type := Resolved (v : V) | Rejected (e : E).
Arguments Resolved {E V} v.
Arguments Rejected {E V} e.

Section adapters.
Context {E V : Type} (truthy : E -> bool).

Definition getCallback (err : E) (result : V) : settled E V := if truthy err then Rejected err else Resolved result.

(** [fn] calls back with an error and a result, or never. *)
Definition fromCallback (fn : option (E * V)) : option (settled E V) := (fun a => getCallback (fst a) (snd a)) <$> fn.

(** What the callback of [toCallback] is called with: [null] and the result, or the error. *)
Definition toCallback (p : settled E V) : option E * option V :=
  match p with Resolved v => (None, Some v) | Rejected e => (Some e, None) end.

(** The promise returned, if any, and what the callback gets, if any. *)
Definition optionalCallback (p : settled E V) (callback : bool) : option (settled E V) * option (option E * option V) :=
  if negb callback then (Some p, None) else (None, Some (toCallback p)).
End adapters.

(** ** [times] *)

Module PromiseTimes.

(** A loop of [invokeSequentially]: waiting for the call with an index, returned, or rejected. *)
Inductive loop : Type := Awaiting (index : nat) | Returned | Threw.

(** The shared counter, the loops, and the calls of [fn] in the order they were made; for the statements, the
    calls whose promise was resolved and how many were rejected. *)
Record state : Type := mkState {
  counter : nat;
  loops : list loop;
  started : list nat;
  resolved : list nat;
  failures : nat }.

(** The test of the loop: the counter is incremented, and [fn] called when the index is below. *)
Definition next (count : nat) (s : state) : loop * state :=
  let index := counter s in
  if (index <? count)%nat then (Awaiting index, mkState (S index) (loops s) (started s ++ [index]) (resolved s) (failures s))
  else (Returned, mkState (S index) (loops s) (started s) (resolved s) (failures s)).

(** The call of [invokeSequentially]: it runs to the first [await]. *)
Definition invokeSequentially (count : nat) (s : state) : state :=
  let '(l, s) := next count s in
  mkState (counter s) (loops s ++ [l]) (started s) (resolved s) (failures s).

(** The call of loop [k] resolved: the loop goes on. *)
Definition resume (count k index : nat) (s : state) : state :=
  let '(l, s) := next count s in
  mkState (counter s) (<[k := l]> (loops s)) (started s) (resolved s ++ [index]) (failures s).

(** The call of loop [k] was rejected: the loop is left by the exception. *)
Definition fail (k : nat) (s : state) : state :=
  mkState (counter s) (<[k := Threw]> (loops s)) (started s) (resolved s) (S (failures s)).

Inductive step (count : nat) : state -> state -> Prop :=
| step_resolved s k index : loops s !! k = Some (Awaiting index) -> step count s (resume count k index s)
| step_rejected s k index : loops s !! k = Some (Awaiting index) -> step count s (fail k s).

(** The array of promises is allocated first. *)
Definition times (count : nat) (limit : Z) : result state :=
  let limit := if Z.of_nat count <? limit then Z.of_nat count else limit in
  if limit <? 0 then Err (RangeError "Invalid array length")
  else Ok (Nat.iter (Z.to_nat limit) (invokeSequentially count) (mkState 0 [] [] [] 0)).

(** [Promise.all]: rejected by the first rejection, resolved when every loop returned. *)
Definition all_promises (s : state) : option bool :=
  if negb (failures s =? 0)%nat then Some false
  else if forallb (fun l => match l with Returned => true | _ => false end) (loops s) then Some true else None.

(** ** The invariant *)

Definition waits (l : loop) : list nat := match l with Awaiting i => [i] | _ => [] end.
Definition awaiting (s : state) : list nat := mjoin (waits <$> loops s).
Definition threw (l : loop) : list nat := match l with Threw => [0%nat] | _ => [] end.

(** The calls made are those of the indices below the counter, in order; each has its answer or a loop that waits for it, or made a
    loop throw; a loop returned only when there was no index left. *)
Record inv (count width : nat) (s : state) : Prop := {
  inv_started : started s = seq 0 (counter s `min` count);
  inv_width : length (loops s) = width;
  inv_calls : exists failed, started s ≡ₚ resolved s ++ awaiting s ++ failed /\ length failed = failures s;
  inv_threw : length (mjoin (threw <$> loops s)) = failures s;
  inv_returned : Returned ∈ loops s -> (count <= counter s)%nat }.

Lemma loop_next_spec count s l s' :
  started s = seq 0 (counter s `min` count) -> next count s = (l, s') ->
  started s' = seq 0 (counter s' `min` count) /\ started s' = started s ++ waits l /\ counter s' = S (counter s) /\
  loops s' = loops s /\ resolved s' = resolved s /\ failures s' = failures s /\ threw l = [] /\ (l = Returned -> (count <= counter s)%nat).
Proof.
  intros Hs. unfold next. destruct (Nat.ltb_spec (counter s) count) as [Hc|Hc]; intros [= <- <-]; cbn [started counter loops resolved failures waits].
  - rewrite Hs, !Nat.min_l by lia. split; [by rewrite seq_S|]. done.
  - rewrite app_nil_r, Hs, !Nat.min_r by lia. done.
Qed.

(** Replacing a loop changes the lists by its part. *)
Lemma join_insert (f : loop -> list nat) ls k l l' :
  ls !! k = Some l -> f l ++ mjoin (f <$> <[k := l']> ls) ≡ₚ f l' ++ mjoin (f <$> ls).
Proof.
  revert k. induction ls as [|x ls IH]; intros k; [done|]. destruct k as [|k]; cbn.
  - intros [= ->]. apply Permutation_app_swap_app.
  - intros Hk. etrans; [apply Permutation_app_swap_app|]. etrans; [apply Permutation_app_head, (IH _ Hk)|].
    apply Permutation_app_swap_app.
Qed.

Lemma invokeSequentially_inv count width s : inv count width s -> inv count (S width) (invokeSequentially count s).
Proof.
  intros [H1 H2 (failed & H3 & H3') H4 H5]. unfold invokeSequentially. destruct (next count s) as [l s'] eqn:E.
  destruct (loop_next_spec _ _ _ _ H1 E) as (N1 & N2 & N3 & N4 & N5 & N6 & N7 & N8).
  split; cbn [counter loops started resolved failures]; unfold awaiting; cbn [loops]; rewrite ?N4, ?N5, ?N6.
  - done.
  - rewrite length_app, H2. cbn. lia.
  - exists failed. split; [|done]. rewrite N2, H3, fmap_app, join_app. cbn. rewrite app_nil_r. unfold awaiting.
    rewrite <- !app_assoc. apply Permutation_app_head, Permutation_app_head, Permutation_app_comm.
  - rewrite fmap_app, join_app, length_app. cbn. rewrite N7. cbn. lia.
  - rewrite N3, elem_of_app, list_elem_of_singleton. intros [Hin| <-]; [specialize (H5 Hin); lia|specialize (N8 eq_refl); lia].
Qed.

Lemma times_inv count limit s :
  times count limit = Ok s -> inv count (Z.to_nat (Z.of_nat count `min` limit)) s /\ counter s = Z.to_nat (Z.of_nat count `min` limit).
Proof.
  unfold times. set (w := if Z.of_nat count <? limit then Z.of_nat count else limit).
  replace (Z.of_nat count `min` limit) with w by (unfold w; destruct (Z.ltb_spec (Z.of_nat count) limit); lia).
  destruct (w <? 0); [done|]. intros [= <-]. induction (Z.to_nat w) as [|n [IH1 IH2]]; cbn [Nat.iter nat_rect].
  - split; [|done]. split; cbn; try done; [by exists []|by intros ?%elem_of_nil].
  - split; [by apply invokeSequentially_inv|]. unfold invokeSequentially.
    destruct (next count _) as [l s'] eqn:E. destruct (loop_next_spec _ _ _ _ (inv_started _ _ _ IH1) E) as (_ & _ & -> & _). cbn. by rewrite IH2.
Qed.

Lemma insert_in (ls : list loop) k l x : x ∈ <[k := l]> ls -> x = l \/ x ∈ ls.
Proof.
  intros (i & Hi)%list_elem_of_lookup. destruct (decide (i = k)) as [->|Hne].
  - destruct (ls !! k) eqn:E; [|rewrite list_insert_ge in Hi by (by apply lookup_ge_None); congruence].
    rewrite list_lookup_insert_eq in Hi by (by eapply lookup_lt_Some). left. congruence.
  - rewrite list_lookup_insert_ne in Hi by done. right. by eapply list_elem_of_lookup_2.
Qed.

Lemma times_step_inv count width s s' : inv count width s -> step count s s' -> inv count width s'.
Proof.
  intros Hi Hs. destruct Hs as [s1 k index Hk|s1 k index Hk]; destruct Hi as [H1 H2 (failed & H3 & H3') H4 H5].
  - unfold resume. destruct (next count s1) as [l s2] eqn:E.
    destruct (loop_next_spec _ _ _ _ H1 E) as (N1 & N2 & N3 & N4 & N5 & N6 & N7 & N8).
    pose proof (join_insert waits _ _ _ l Hk) as Hw. pose proof (join_insert threw _ _ _ l Hk) as Ht. rewrite N7 in Ht. cbn in Ht.
    split; cbn [counter loops started resolved failures]; unfold awaiting; cbn [loops]; rewrite ?N4, ?N5, ?N6.
    + done.
    + by rewrite length_insert.
    + exists failed. split; [|done]. rewrite N2, H3. unfold awaiting.
      rewrite <- !app_assoc. apply Permutation_app_head. rewrite (Permutation_app_comm failed), !app_assoc. apply Permutation_app_tail.
      rewrite (Permutation_app_comm (mjoin _)). by symmetry.
    + rewrite <- H4. by apply Permutation_length.
    + rewrite N3. intros [Hr|Hin]%insert_in; [specialize (N8 (eq_sym Hr))|specialize (H5 Hin)]; lia.
  - unfold fail. pose proof (join_insert waits _ _ _ Threw Hk) as Hw. pose proof (join_insert threw _ _ _ Threw Hk) as Ht. cbn in Hw, Ht.
    split; cbn [counter loops started resolved failures]; unfold awaiting; cbn [loops].
    + done.
    + by rewrite length_insert.
    + exists (index :: failed). split; [|cbn; lia]. rewrite H3. unfold awaiting. rewrite <- Hw. cbn. apply Permutation_app_head.
      by rewrite Permutation_middle.
    + rewrite <- H4. by rewrite Ht.
    + intros [Hr|Hin]%insert_in; [done|auto].
Qed.

Lemma times_reachable_inv count limit s0 s :
  times count limit = Ok s0 -> rtc (step count) s0 s -> inv count (Z.to_nat (Z.of_nat count `min` limit)) s.
Proof.
  intros Ht. revert s. apply (rtc_ind_r (inv count _)); [by apply (times_inv _ _ _ Ht)|]. intros s1 s2 _ Hs Hi. by eapply times_step_inv.
Qed.

(** ** Steps *)

(** What is left: the calls under way and the indices not taken. *)
Definition left_ (count : nat) (s : state) : nat := (length (awaiting s) + (count - counter s))%nat.

Lemma step_left count width s s' : inv count width s -> step count s s' -> left_ count s = S (left_ count s').
Proof.
  intros _ Hs. destruct Hs as [s1 k index Hk|s1 k index Hk]; unfold left_, awaiting.
  - unfold resume, next. pose proof (fun l => join_insert waits _ _ _ l Hk) as Hw. cbn [waits] in Hw.
    destruct (Nat.ltb_spec (counter s1) count) as [Hc|Hc]; cbn [loops counter].
    + pose proof (Permutation_length (Hw (Awaiting (counter s1)))) as Hl. rewrite !length_app in Hl. cbn [waits length] in Hl. lia.
    + pose proof (Permutation_length (Hw Returned)) as Hl. rewrite !length_app in Hl. cbn [waits length] in Hl. lia.
  - pose proof (Permutation_length (join_insert waits _ _ _ Threw Hk)) as Hl. rewrite !length_app in Hl. cbn [waits length] in Hl.
    unfold fail. cbn [loops counter]. lia.
Qed.

Lemma waits_length ls : (length (mjoin (waits <$> ls)) <= length ls)%nat.
Proof. induction ls as [|l ls IH]; [done|]. destruct l; [apply le_n_S, IH|apply Nat.le_le_succ_r, IH..]. Qed.

Lemma returned_all ls :
  forallb (fun l => match l with Returned => true | _ => false end) ls = true -> waits <$> ls = replicate (length ls) [] /\ (ls = [] \/ Returned ∈ ls).
Proof.
  induction ls as [|l ls IH]; cbn; [auto|]. destruct l; cbn; try discriminate. intros H. destruct (IH H) as [-> _].
  split; [done|]. right. left.
Qed.

Lemma join_nils n : mjoin (replicate n ([] : list nat)) = [].
Proof. by induction n. Qed.

Lemma all_true count limit s0 s :
  times count limit = Ok s0 -> rtc (step count) s0 s -> 0 < limit -> all_promises s = Some true -> resolved s ≡ₚ seq 0 count.
Proof.
  intros Ht Hr Hl Ha. destruct (times_reachable_inv _ _ _ _ Ht Hr) as [H1 H2 (failed & H3 & H4) _ H5].
  unfold all_promises in Ha. destruct (Nat.eqb_spec (failures s) 0) as [Hf|Hf]; cbn in Ha; [|done].
  destruct (forallb _ (loops s)) eqn:E; [|done]. destruct (returned_all _ E) as [Hw Hret]. rewrite Hf in H4. apply nil_length_inv in H4 as ->.
  unfold awaiting in H3. rewrite Hw, join_nils in H3. cbn [app] in H3. rewrite app_nil_r in H3.
  rewrite <- H3, H1. destruct Hret as [Hn|Hin].
  - rewrite Hn in H2. cbn in H2. destruct count; [by rewrite Nat.min_0_r|lia].
  - by rewrite Nat.min_r by (by apply H5).
Qed.

Lemma steps_left count limit s0 n s :
  times count limit = Ok s0 -> nsteps (step count) n s0 s -> 0 <= limit -> (n + left_ count s)%nat = left_ count s0.
Proof.
  intros Ht Hn Hl. assert (Hi := proj1 (times_inv _ _ _ Ht)). clear Ht. induction Hn as [s|n s s1 s2 Hs Hn IH]; [done|].
  rewrite (step_left _ _ _ _ Hi Hs). cbn. f_equal. apply IH. by eapply times_step_inv.
Qed.

Lemma left_start count limit s0 : times count limit = Ok s0 -> 0 <= limit -> (left_ count s0 <= count)%nat.
Proof.
  intros Ht Hl. destruct (times_inv _ _ _ Ht) as [[H1 H2 _ _ _] Hc]. unfold left_, awaiting. pose proof (waits_length (loops s0)) as Hw.
  rewrite H2 in Hw. lia.
Qed.

(** Calls with a limit.  [times count limit fn], with a limit above zero, calls [fn] with the indices 0, 1, 2, ... in order, each at
    most once and none above the count; never more than [limit] calls are under way; as long as the promise it returns
    is pending some call is under way; after as many answers as there are indices, or fewer, nothing is under way; and when the promise is resolved,
    every index from 0 to the count was called once and its call was resolved. *)
Theorem times_calls (count : nat) (limit : Z) (s0 s : state) (n : nat) :
  times count limit = Ok s0 -> 0 < limit -> nsteps (step count) n s0 s ->
  started s = seq 0 (length (started s)) /\ (length (started s) <= count)%nat /\
  Z.of_nat (length (awaiting s)) <= limit /\
  (n + length (awaiting s) <= count)%nat /\
  (all_promises s = None -> exists s', step count s s') /\
  (all_promises s = Some true -> resolved s ≡ₚ seq 0 count).
Proof.
  intros Ht Hl Hn. pose proof (rtc_nsteps_2 _ _ _ Hn) as Hr. pose proof (times_reachable_inv _ _ _ _ Ht Hr) as [H1 H2 (failed & H3 & H4) Ht' H5].
  split; [by rewrite H1 at 1; rewrite H1, length_seq|]. split; [rewrite H1, length_seq; lia|].
  split; [unfold awaiting; pose proof (waits_length (loops s)); lia|].
  split; [pose proof (steps_left _ _ _ _ _ Ht Hn ltac:(lia)); pose proof (left_start _ _ _ Ht ltac:(lia)); unfold left_ in *; lia|].
  split; [|intros Ha; by eapply all_true].
  unfold all_promises. destruct (Nat.eqb_spec (failures s) 0) as [Hf|Hf]; cbn; [|done].
  destruct (forallb _ (loops s)) eqn:E; [done|]. intros _. rewrite Hf in Ht'. apply nil_length_inv in Ht'.
  clear -E Ht'. assert (Hk : exists k i, loops s !! k = Some (Awaiting i)).
  { induction (loops s) as [|l ls IH]; [done|]. destruct l; cbn in *; [by exists 0%nat, index|..|done].
    destruct (IH Ht' E) as (k & i & Hk). by exists (S k), i. }
  destruct Hk as (k & i & Hk). eexists. by eapply step_resolved.
Qed.

(** Three calls with a limit of two: the second is answered first. *)
Lemma times_calls_witness :
  exists s0 s, times 3 2 = Ok s0 /\ nsteps (step 3) 3 s0 s /\ all_promises s = Some true /\ resolved s ≡ₚ [0; 1; 2]%nat.
Proof.
  eexists. pose (s1 := resume 3 1 1 (Nat.iter 2 (invokeSequentially 3) (mkState 0 [] [] [] 0))). pose (s2 := resume 3 0 0 s1).
  pose (s3 := resume 3 1 2 s2). exists s3. split; [reflexivity|].
  match goal with |- ?P /\ _ => assert (Hn : P) end.
  { eapply nsteps_l; [by apply (step_resolved 3 _ 1 1)|]. eapply nsteps_l; [by apply (step_resolved 3 s1 0 0)|].
    eapply nsteps_l; [by apply (step_resolved 3 s2 1 2)|]. apply nsteps_O. }
  split; [exact Hn|]. split; [reflexivity|].
  apply (times_calls 3 2 _ s3 3 eq_refl ltac:(lia) Hn). reflexivity.
Defined.

(** With a limit of zero the promise is resolved and nothing was called. *)
Example promise_times_zero : exists s, times 3 0 = Ok s /\ all_promises s = Some true /\ started s = [].
Proof. eexists. split; [reflexivity|]. split; reflexivity. Qed.
End PromiseTimes.
