(* ===== verification/Helpers.v ===== *)
(** * Version texts and helpers

    The text of lib/types/version-number.ts, the conversion from BigInt to Long of
    lib/new-utils.ts, and two helpers of lib/utils.js: [log] with its levels, and [callbackOnce]. *)

From stdpp Require Import list.
From S2P Require Import Prelude JsNumber JsString LongArith ProtocolVersion.

(** ** The text of a version *)

Module VersionText.
Import VersionNumber.

Definition constructor (major minor : Z) (patch dsePatch : option Z) (preReleases : option (list jsstr)) (build : option jsstr) : t :=
  mk major minor patch dsePatch preReleases build.

Definition toString (v : t) : jsstr :=
  let str := int_str (major v) ++ 46 :: int_str (minor v) in
  let str := str ++ match patch v with Some p => 46 :: int_str p | None => [] end in
  let str := str ++ match dsePatch v with Some p => 46 :: int_str p | None => [] end in
  let str := match preReleases v with Some ps => fold_left (fun str p => str ++ 45 :: p) ps str | None => str end in
  match build v with Some (c :: b) => str ++ 43 :: c :: b | _ => str end.

(** *** Parsing the text back *)

Definition dashes (ps : list jsstr) : jsstr := mjoin ((fun p => 45 :: p) <$> ps).

Lemma dashes_fold ps s : fold_left (fun str p => str ++ 45 :: p) ps s = s ++ dashes ps.
Proof. revert s. induction ps as [|p ps IH]; intros s; cbn; [by rewrite app_nil_r|]. rewrite IH, <- app_assoc. done. Qed.

(** What a version may have so that its text can be read: numbers that are exact, a DSE patch only after a patch,
    labels that the pattern accepts. *)
Record wf (v : t) : Prop := {
  wf_major : 0 <= major v < 2 ^ 53;
  wf_minor : 0 <= minor v < 2 ^ 53;
  wf_patch : forall p, patch v = Some p -> 0 <= p < 2 ^ 53;
  wf_dse : forall p, dsePatch v = Some p -> 0 <= p < 2 ^ 53 /\ is_Some (patch v);
  wf_pre : forall ps, preReleases v = Some ps -> exists p rest, ps = p :: rest /\ p <> [] /\
    Forall (fun c => (c =? 43) || is_word c = true) p /\
    Forall (fun q => exists c a, q = c :: a /\ is_word c = true /\ Forall (fun c => (c =? 46) || is_word c = true) a) rest /\
    (rest = [] -> build v = None);
  wf_build : forall b, build v = Some b -> b <> [] /\ Forall (fun c => (c =? 46) || is_word c = true) b }.

Lemma span_app (p : Z -> bool) a r :
  Forall (fun c => p c = true) a -> match r with c :: _ => p c = false | [] => True end -> span p (a ++ r) = (a, r).
Proof.
  intros Ha Hr. induction Ha as [|c a Hc Ha IH]; cbn [app span].
  - destruct r as [|c r]; [done|]. cbn. by rewrite Hr.
  - by rewrite Hc, IH.
Qed.

(** What follows the labels: nothing, or the plus of the build. *)
Definition plus_or_end (r : jsstr) : Prop := match r with c :: _ => c = 43 | [] => True end.

Lemma dash_words_app ps r fuel :
  Forall (fun q => exists c a, q = c :: a /\ is_word c = true /\ Forall (fun c => (c =? 46) || is_word c = true) a) ps ->
  plus_or_end r -> (length ps <= fuel)%nat -> dash_words fuel (dashes ps ++ r) = (dashes ps, r).
Proof.
  intros Hps Hr. revert fuel. induction Hps as [|q ps (c & a & -> & Hc & Ha) Hps IH]; intros fuel Hf.
  - destruct fuel as [|fuel]; [done|]. cbn. destruct r as [|x [|y r]]; [done|done|]. cbn in Hr. by subst x.
  - destruct fuel as [|fuel]; [cbn in Hf; lia|]. unfold dashes. cbn. rewrite Hc. cbn. fold (dashes ps).
    rewrite <- app_assoc, span_app; [|done|].
    + cbn in Hf. rewrite IH by lia. done.
    + destruct ps as [|q ps']; [|done]. cbn. destruct r as [|x r]; [done|]. cbn in Hr. by subst x.
Qed.

Lemma no_dash p : Forall (fun c => (c =? 43) || is_word c = true) p -> existsb (Z.eqb 45) p = false.
Proof.
  induction 1 as [|c p Hc Hp IH]; [done|]. cbn [existsb]. rewrite IH, orb_false_r. apply Z.eqb_neq. by intros <-.
Qed.

Lemma no_dash_dot p : Forall (fun c => (c =? 46) || is_word c = true) p -> existsb (Z.eqb 45) p = false.
Proof.
  induction 1 as [|c p Hc Hp IH]; [done|]. cbn [existsb]. rewrite IH, orb_false_r. apply Z.eqb_neq. by intros <-.
Qed.

Lemma split_dashes p ps :
  existsb (Z.eqb 45) p = false -> Forall (fun q => existsb (Z.eqb 45) q = false) ps -> split_on 45 (p ++ dashes ps) = p :: ps.
Proof.
  intros Hp Hps. revert p Hp. induction Hps as [|q ps Hq Hps IH]; intros p Hp.
  - unfold dashes. cbn. rewrite app_nil_r. by apply split_on_none.
  - unfold dashes. cbn. fold (dashes ps). rewrite split_on_app by done. by rewrite IH.
Qed.

(** The numbers are read back. *)
Definition labels_head (r : jsstr) : Prop := match r with c :: _ => c = 45 \/ c = 43 | [] => True end.

Lemma labels_no_digit r : labels_head r -> no_digit_head r.
Proof. destruct r as [|c r]; [done|]. by intros [->| ->]. Qed.

Lemma int_str_digits z : 0 <= z -> int_str z = dec_str z.
Proof. intros Hz. unfold int_str. by rewrite (proj2 (Z.ltb_ge z 0)). Qed.

Lemma span_number z r : 0 <= z -> no_digit_head r -> span_digits (dec_str z ++ r) = (dec_str z, r).
Proof. intros Hz Hr. apply span_digits_app; [apply (dec_str_spec z Hz)|done]. Qed.

Lemma dot_number z r :
  0 <= z -> no_digit_head r -> opt_dot_digits (46 :: dec_str z ++ r) = (Some (dec_str z), r) /\ opt_dot_opt_digits (46 :: dec_str z ++ r) = (Some (dec_str z), r).
Proof.
  intros Hz Hr. unfold opt_dot_digits, opt_dot_opt_digits. rewrite Z.eqb_refl, span_number by done.
  destruct (dec_str_spec z Hz) as (_ & _ & Hn). by destruct (dec_str z).
Qed.

Lemma no_dot r : labels_head r -> opt_dot_digits r = (None, r) /\ opt_dot_opt_digits r = (None, r).
Proof. destruct r as [|c r]; [done|]. by intros [->| ->]. Qed.

(** The text of the patches, then [r]. *)
Lemma patches v r :
  wf v -> labels_head r ->
  let s := match patch v with Some p => 46 :: int_str p | None => [] end ++
           match dsePatch v with Some p => 46 :: int_str p | None => [] end ++ r in
  exists pa dse r1, opt_dot_digits s = (pa, r1) /\ opt_dot_opt_digits r1 = (dse, r) /\
    dec_val <$> pa = patch v /\ dec_val <$> dse = dsePatch v /\ no_digit_head s.
Proof.
  intros Hw Hr s. unfold s. pose proof (wf_patch _ Hw) as Hp. pose proof (wf_dse _ Hw) as Hd. clear Hw.
  assert (Hval : forall z, 0 <= z -> dec_val (dec_str z) = z) by (intros z Hz; apply (dec_str_spec z Hz)).
  destruct (no_dot r Hr) as [N1 N2]. pose proof (labels_no_digit r Hr) as Hn.
  destruct (patch v) as [p|].
  - specialize (Hp _ eq_refl). rewrite (int_str_digits p) by lia. cbn [app]. destruct (dsePatch v) as [q|].
    + destruct (Hd _ eq_refl) as [Hq _]. rewrite (int_str_digits q) by lia.
      exists (Some (dec_str p)), (Some (dec_str q)), (46 :: dec_str q ++ r).
      split; [apply dot_number; [lia|done]|]. split; [apply dot_number; [lia|done]|]. cbn [fmap option_fmap option_map]. by rewrite !Hval by lia.
    + exists (Some (dec_str p)), None, r. split; [apply dot_number; [lia|done]|]. split; [done|]. cbn [fmap option_fmap option_map]. by rewrite Hval by lia.
  - destruct (dsePatch v) as [q|]; [by destruct (Hd _ eq_refl) as [_ [? ?]]|]. exists None, None, r. done.
Qed.

Lemma dashes_length ps : (length ps <= length (dashes ps))%nat.
Proof. induction ps as [|p ps IH]; [done|]. change (dashes (p :: ps)) with (45 :: p ++ dashes ps). cbn [length]. rewrite length_app. lia. Qed.

(** The text of the labels. *)
Definition label_text (v : t) : jsstr :=
  match preReleases v with Some ps => dashes ps | None => [] end ++ match build v with Some b => 43 :: b | None => [] end.

Lemma labels_read v :
  wf v ->
  labels_head (label_text v) /\
  exists pre r, opt_prerelease (label_text v) = (pre, r) /\ opt_build r = build v /\
    match pre with Some (c :: p) => Some (split_on 45 (c :: p)) | _ => None end = preReleases v.
Proof.
  intros Hw. pose proof (wf_pre _ Hw) as Hp. pose proof (wf_build _ Hw) as Hb. clear Hw. unfold label_text.
  set (bt := match build v with Some b => 43 :: b | None => [] end).
  assert (Hbt : plus_or_end bt /\ opt_build bt = build v).
  { unfold bt. destruct (build v) as [b|]; [|done]. split; [done|]. destruct (Hb _ eq_refl) as [Hn Hall].
    pose proof (span_app _ b [] Hall I) as Hs. rewrite app_nil_r in Hs. cbn [opt_build]. rewrite Z.eqb_refl, Hs. by destruct b. }
  destruct Hbt as [Hplus Hbuild]. destruct (preReleases v) as [ps|].
  - destruct (Hp _ eq_refl) as (p & rest & -> & Hne & Hall & Hrest & Hnil). split; [by left|].
    exists (Some (p ++ dashes rest)), bt. split; [|split; [done|]].
    + change (dashes (p :: rest) ++ bt) with (45 :: (p ++ dashes rest) ++ bt). unfold opt_prerelease. cbn [Z.eqb Pos.eqb orb].
      rewrite <- app_assoc, span_app; [|done|].
      * rewrite dash_words_app; [done|done|done|]. rewrite length_app. pose proof (dashes_length rest). lia.
      * destruct rest as [|q rest]; [|done]. unfold bt. by rewrite Hnil.
    + destruct p as [|c p]; [done|]. cbn [app]. f_equal. apply (split_dashes (c :: p)).
      * by apply no_dash.
      * eapply Forall_impl; [|exact Hrest]. intros q (x & a & -> & Hx & Ha). apply no_dash_dot. constructor; [|done]. by rewrite Hx, orb_true_r.
  - cbn [app]. split; [destruct bt; cbn in *; auto|]. exists None, bt. split; [|done].
    destruct bt as [|x bt']; [done|]. cbn in Hplus. by subst x.
Qed.

(** Versions and their text: [parse] reads back what [toString] writes, for every version with exact numbers, with a DSE patch only
    after a patch, with labels the pattern accepts, and where a build does not follow a single
    pre-release label. *)
Theorem version_text_roundtrip (v : t) : wf v -> parse (toString v) = Ok (Some v).
Proof.
  intros Hw. destruct (labels_read v Hw) as [Hhead (pre & r & Hpre & Hbuild & Hps)].
  destruct (patches v (label_text v) Hw Hhead) as (pa & dse & r1 & E1 & E2 & E3 & E4 & E5).
  set (tail := _ ++ _ ++ label_text v) in *.
  assert (Ht : toString v = dec_str (major v) ++ 46 :: dec_str (minor v) ++ tail).
  { unfold toString, tail, label_text. rewrite !int_str_digits by apply Hw.
    destruct (preReleases v); rewrite ?dashes_fold; destruct (build v) as [[|c b]|] eqn:Eb;
      try (by destruct (wf_build _ Hw _ Eb)); rewrite ?app_nil_r, <- ?app_assoc; cbn; rewrite <- ?app_assoc; done. }
  assert (Hm : match_here (toString v) = Some v).
  { rewrite Ht. unfold match_here. rewrite span_number; [|apply Hw|done].
    destruct (dec_str_spec (major v) ltac:(apply Hw)) as (_ & Hv1 & Hn1). destruct (dec_str_spec (minor v) ltac:(apply Hw)) as (_ & Hv2 & Hn2).
    destruct (dec_str (major v)) as [|d ds]; [done|]. rewrite Z.eqb_refl, span_number; [|apply Hw|done].
    destruct (dec_str (minor v)) as [|d' ds']; [done|]. rewrite E1, E2, Hpre, Hps, Hv1, Hv2, E3, E4, Hbuild. by destruct v. }
  unfold parse. assert (Hmv : match_version (toString v) = Some v) by (destruct (toString v); cbn [match_version]; by rewrite Hm).
  rewrite Hmv. destruct (toString v) eqn:En; [|done]. by destruct (dec_str (major v)).
Qed.

Lemma version_text_roundtrip_witness :
  parse (js "3.0.11.154-SNAPSHOT") = Ok (Some (constructor 3 0 (Some 11) (Some 154) (Some [js "SNAPSHOT"]) None)).
Proof.
  change (js "3.0.11.154-SNAPSHOT") with (toString (constructor 3 0 (Some 11) (Some 154) (Some [js "SNAPSHOT"]) None)).
  apply version_text_roundtrip. split; cbn.
  - lia.
  - lia.
  - intros p [= <-]. lia.
  - intros p [= <-]. split; [lia|by exists 11].
  - intros ps [= <-]. exists (js "SNAPSHOT"), []. split; [done|]. split; [done|]. split; [repeat constructor|]. split; [constructor|done].
  - done.
Defined.

(** A build after a single pre-release label is read as a part of the label. *)
Lemma build_lost :
  parse (toString (constructor 4 0 (Some 0) None (Some [js "rc1"]) (Some (js "build7"))))
  = Ok (Some (constructor 4 0 (Some 0) None (Some [js "rc1+build7"]) None)).
Proof. vm_compute. reflexivity. Qed.
End VersionText.

(** ** From BigInt to Long *)

(** [Long.fromValue] of an object: the low 32 bits of each half, as signed integers. *)
Class LongFromValue : Type := { l_fromValue : Z -> Z -> Z }.

Class LongFromValueLaws `{LongFromValue} : Prop := {
  l_fromValue_halves : forall low high, Z.abs low < 2 ^ 53 -> Z.abs high < 2 ^ 53 ->
    l_fromValue low high = wrap64 (2 ^ 32 * high + low mod 2 ^ 32) }.

#[export] Instance halves_fromValue : LongFromValue := {| l_fromValue low high := wrap64 (2 ^ 32 * high + low mod 2 ^ 32) |}.
#[export] Instance halves_laws : LongFromValueLaws.
Proof. by split. Qed.

Section long_of_bigint.
Context `{LongFromValueLaws}.

Definition bigintToLong (from : Z) : Z :=
  let lo := Z.rem from 0x100000000 in
  let hi := Z.quot from 0x100000000 in
  let hi := if lo <? 0 then hi + -1 else hi in
  l_fromValue lo hi.

(** Every 64-bit integer is kept: the remainder of a negative one is negative, and the half above it one less. *)
Lemma bigintToLong_exact z : int64 z -> bigintToLong z = z.
Proof.
  unfold int64, bigintToLong. change 0x100000000 with (2 ^ 32). intros Hz.
  pose proof (Z.quot_rem' z (2 ^ 32)) as Hq. pose proof (Z.rem_bound_abs z (2 ^ 32) ltac:(lia)) as Hr.
  rewrite l_fromValue_halves.
  - destruct (Z.ltb_spec (Z.rem z (2 ^ 32)) 0) as [Hl|Hl].
    + rewrite <- (Z.mod_add _ 1), (Z.mod_small (Z.rem z (2 ^ 32) + 1 * 2 ^ 32)) by lia. unfold wrap64. lia.
    + rewrite Z.mod_small by lia. unfold wrap64. lia.
  - lia.
  - destruct (Z.ltb_spec (Z.rem z (2 ^ 32)) 0); lia.
Qed.
End long_of_bigint.

(** ** Logging *)

Module Logging.

Definition logLevelSeverity (level : jsstr) : option Z :=
  if bool_decide (level = js "trace") then Some 0
  else if bool_decide (level = js "debug") then Some 1
  else if bool_decide (level = js "info") then Some 2
  else if bool_decide (level = js "warning") then Some 3
  else if bool_decide (level = js "error") then Some 4
  else if bool_decide (level = js "off") then Some 5
  else None.

(** The options that count: the emitter, and the level when it is not empty. *)
Record options : Type := mkOptions { logEmitter : option nat; logLevel : option jsstr }.

(** An object that logs: its emitter, its options and the name of its class. *)
Record logger : Type := mkLogger { emitter : option nat; own : option options; className : jsstr }.

Record event : Type := mkEvent { to_ : nat; type_ : jsstr; source : jsstr; info_ : jsstr; further : jsstr }.

(** Whether an event is below the level; a level without a severity compares with nothing. *)
Definition suppressed (level : option jsstr) (type : jsstr) : bool :=
  match level with
  | None => false
  | Some level =>
      match logLevelSeverity type, logLevelSeverity level with
      | Some a, Some b => a <? b
      | _, _ => false
      end
  end.

(** The object after the call, and the event emitted, if any. *)
Definition log (type info : jsstr) (furtherInfo : option jsstr) (opts : option options) (this : logger) : result (logger * option event) :=
  let effectiveOptions := match opts with Some o => Some o | None => own this end in
  emitter ← match emitter this with
            | Some e => Ok e
            | None =>
                match effectiveOptions ≫= logEmitter with
                | Some e => Ok e
                | None => Err (PlainError "Log emitter not defined")
                end
            end;
  let this := mkLogger (Some emitter) (own this) (className this) in
  let level := effectiveOptions ≫= logLevel in
  if suppressed level type then Ok (this, None)
  else Ok (this, Some (mkEvent emitter type (className this) info (default [] furtherInfo))).

(** Logging by level.  With an emitter, the object's own or that of the options, [log] emits exactly the events whose
    severity reaches the level of the options given, or else of its own: all without a level, none of the five kinds
    when it is off; the first emitter is kept for the calls that follow; and without any emitter it throws. *)
Theorem log_levels (type info : jsstr) (furtherInfo : option jsstr) (opts : option options) (this : logger) :
  let effective := match opts with Some o => Some o | None => own this end in
  let level := effective ≫= logLevel in
  match emitter this, effective ≫= logEmitter with
  | None, None => log type info furtherInfo opts this = Err (PlainError "Log emitter not defined")
  | kept, offered =>
      exists this' sent, log type info furtherInfo opts this = Ok (this', sent) /\
        emitter this' = (match kept with Some e => Some e | None => offered end) /\
        (sent = None <-> exists l a b, level = Some l /\ logLevelSeverity type = Some a /\ logLevelSeverity l = Some b /\ a < b) /\
        (forall ev, sent = Some ev -> type_ ev = type /\ info_ ev = info /\ source ev = className this /\ Some (to_ ev) = emitter this') /\
        (level = Some (js "off") -> is_Some (logLevelSeverity type) -> type <> js "off" -> sent = None)
  end.
Proof.
  cbn zeta. set (eff := match opts with Some o => Some o | None => own this end).
  assert (Hs : forall level, suppressed level type = true <->
    exists l a b, level = Some l /\ logLevelSeverity type = Some a /\ logLevelSeverity l = Some b /\ a < b).
  { intros [l|]; cbn; [|split; [done|intros (? & ? & ? & ? & _); done]].
    destruct (logLevelSeverity type) as [a|], (logLevelSeverity l) as [b|] eqn:Eb;
      (split; [try done; intros Hlt; apply Z.ltb_lt in Hlt; by exists l, a, b|intros (l' & a' & b' & [= <-] & Ha & Hb & Hlt); try congruence]).
    rewrite Eb in Hb. simplify_eq. by apply Z.ltb_lt. }
  assert (Hoff : is_Some (logLevelSeverity type) -> type <> js "off" -> suppressed (Some (js "off")) type = true).
  { intros [a Ha] Hn. cbn [suppressed]. rewrite Ha. unfold logLevelSeverity in Ha. repeat case_bool_decide; simplify_eq; done. }
  set (level := eff ≫= logLevel) in *.
  assert (Hgo : forall e (this' : logger), exists sent, (if suppressed level type then Ok (this', None) else Ok (this', Some (mkEvent e type (className this) info (default [] furtherInfo)))) = Ok (this', sent) /\
    (sent = None <-> suppressed level type = true) /\
    (forall ev, sent = Some ev -> type_ ev = type /\ info_ ev = info /\ source ev = className this /\ to_ ev = e)).
  { intros e this'. destruct (suppressed level type); [by exists None|]. eexists. split; [done|]. split; [done|]. by intros ev [= <-]. }
  unfold log. fold eff level.
  destruct (emitter this) as [e|]; [|destruct (eff ≫= logEmitter) as [e|]; [|done]]; rewrite ok_bind; cbn zeta; cbn [className];
    destruct (Hgo e (mkLogger (Some e) (own this) (className this))) as (sent & E & H1 & H2); eexists _, sent;
    (split; [exact E|]); (split; [done|]); (split; [by rewrite H1, Hs|]);
    (split; [intros ev Hev; destruct (H2 _ Hev) as (? & ? & ? & ->); done|]); intros Hl Ht Hn; apply H1; rewrite Hl; auto.
Qed.
End Logging.

(** ** [callbackOnce] *)

Module CallbackOnce.

(** A call of the wrapper, with the calls of the wrapper that the callback makes while it runs. *)
Inductive call : Type := Call (within : list call).

(** How often the callback runs; [armed]: the wrapper still has it. *)
Fixpoint wrapperCallback (armed : bool) (c : call) : nat :=
  let fix inner armed cs :=
    match cs with
    | [] => 0%nat
    | c :: cs => (wrapperCallback armed c + inner false cs)%nat
    end in
  match c with Call within => if armed then S (inner true within) else 0%nat end.

Definition calls (cs : list call) : nat := snd (fold_left (fun '(armed, n) c => (false, (n + wrapperCallback armed c)%nat)) cs (true, 0%nat)).

(** Calls one after the other run the callback once. *)
Lemma callbackOnce_once cs : cs <> [] -> Forall (fun c => c = Call []) cs -> calls cs = 1%nat.
Proof.
  intros Hne Hcs. destruct Hcs as [|c cs -> Hcs]; [done|]. clear Hne. unfold calls. cbn. induction Hcs as [|c cs -> Hcs IH]; [done|]. exact IH.
Qed.

(** A callback that calls the wrapper runs again: the callback is dropped only once it returned. *)
Lemma callbackOnce_twice : calls [Call [Call []]] = 2%nat.
Proof. reflexivity. Qed.
End CallbackOnce.
