(* ===== verification/Jitter.v ===== *)
(** * The jitter of reconnection delays

    Rounding is monotonic: the result of a product or a sum of Numbers stays between two Numbers
    whenever the exact result does.  With it, the delays that lib/policies/reconnection.js gives
    with their random part stay within what the comment of [_addJitter] says. *)

From Stdlib Require Import SpecFloat.
From stdpp Require Import list.
From S2P Require Import Prelude JsNumber Buffer Float NumText Rounding Schedules.

(** ** Monotonic rounding *)

(** A value at the scale of [Rounding] that a Number has exactly. *)
Definition rep (z : Z) : Prop := z = 0 \/ exists a j, z = a * 2 ^ (j + scale) /\ 0 < a < 2 ^ 53 /\ -1074 <= j <= 900.

(** A Number that is not negative, between two values. *)
Definition between (x : number) (lo hi : Z) : Prop :=
  match x with
  | S754_zero false => lo <= 0 <= hi
  | S754_finite false m e => -1074 <= e /\ Z.pos m < 2 ^ 53 /\ lo <= Z.pos m * 2 ^ (e + scale) <= hi
  | _ => False
  end.

(** What rounding to the mantissa [q] or [q + 1] at exponent [e1] keeps, for a value between the two. *)
Lemma grid_keeps V q m1 e1 z :
  - scale <= e1 -> q <= m1 <= q + 1 -> q * 2 ^ (e1 + scale) <= V < (q + 1) * 2 ^ (e1 + scale) ->
  (V = q * 2 ^ (e1 + scale) -> m1 = q) ->
  rep z -> 0 < V -> (2 ^ 52 <= q \/ e1 <= -1074 \/ V = q * 2 ^ (e1 + scale)) ->
  (V <= z -> m1 * 2 ^ (e1 + scale) <= z) /\ (z <= V -> z <= m1 * 2 ^ (e1 + scale)).
Proof.
  intros He Hm HV Hex Hz Hpos Hq. assert (Hs := scale_pos). assert (HP : 0 < 2 ^ (e1 + scale)) by (apply pow2_pos; lia).
  remember (2 ^ (e1 + scale)) as P eqn:EP.
  assert (Hq0 : 0 <= q) by nia. destruct Hz as [->|(a & j & -> & Ha & Hj)]; [split; [lia|intros _; nia]|].
  destruct (Z.eq_dec V (q * P)) as [E|Hne]; [by rewrite (Hex E), <- E|].
  destruct (Z.le_gt_cases e1 j) as [Hle|Hgt].
  - replace (2 ^ (j + scale)) with (2 ^ (j - e1) * P) by (rewrite EP, <- Z.pow_add_r by lia; f_equal; lia).
    rewrite Z.mul_assoc. generalize (a * 2 ^ (j - e1)). intros c. split; intros H; [assert (q < c) by nia|assert (c <= q) by nia]; nia.
  - assert (Hq52 : 2 ^ 52 <= q) by (destruct Hq as [?|[?|?]]; [done|lia|done]).
    assert (Hz : a * 2 ^ (j + scale) < 2 ^ 52 * P).
    { assert (2 * 2 ^ (j + scale) <= P).
      { rewrite EP, <- Z.pow_succ_r by (unfold scale in *; lia). apply Z.pow_le_mono_r; lia. }
      assert (0 < 2 ^ (j + scale)) by (apply pow2_pos; unfold scale in *; lia). nia. }
    nia.
Qed.

(** The first shift of a rounding. *)
Lemma shr_exact_loc m e n : 0 <= m -> m mod 2 ^ Z.max 0 n = 0 -> loc_of_shr_record (fst (shr (shr_record_of_loc m loc_Exact) e n)) = loc_Exact.
Proof.
  intros Hm H0. destruct n as [|p|p]; [done| |done]. cbn [shr fst shr_record_of_loc]. replace (Z.max 0 (Z.pos p)) with (Z.pos p) in H0 by lia.
  assert (Hp : 0 < 2 ^ Z.pos p) by (apply pow2_pos; lia). rewrite (Z.div_mod m (2 ^ Z.pos p)), H0, Z.add_0_r, Z.mul_comm, iter_shr_exact by lia. done.
Qed.

Lemma digits2_le m k : 0 <= m < 2 ^ k -> 0 <= k -> Zdigits2 m <= k.
Proof.
  intros Hm Hk. destruct m as [|p|p]; cbn [Zdigits2]; [done| |lia]. assert (H := digits2_pos_spec p).
  destruct (Z.le_gt_cases (Z.pos (digits2_pos p)) k); [done|]. assert (2 ^ k <= 2 ^ (Z.pos (digits2_pos p) - 1)) by (apply Z.pow_le_mono_r; lia). lia.
Qed.

(** The second one only serves a mantissa that became 2^53. *)
Lemma second_shift m e :
  0 <= m <= 2 ^ 53 -> -1074 <= e ->
  let n := fexp prec64 emax64 (Zdigits2 m + e) - e in
  m / 2 ^ Z.max 0 n * 2 ^ (e + Z.max 0 n + scale) = m * 2 ^ (e + scale) /\ 0 <= m / 2 ^ Z.max 0 n < 2 ^ 53 /\ Z.max 0 n <= 1.
Proof.
  intros Hm He n. destruct (Z.eq_dec m (2 ^ 53)) as [->|Hne].
  - assert (Hn : n = 1) by (unfold n, fexp, emin, prec64, emax64; change (Zdigits2 (2 ^ 53)) with 54; lia). rewrite Hn. change (Z.max 0 1) with 1.
    split; [|split; [by vm_compute|done]]. replace (e + 1 + scale) with (Z.succ (e + scale)) by lia.
    rewrite Z.pow_succ_r by (unfold scale; lia). change (2 ^ 53 / 2 ^ 1) with (2 ^ 52). lia.
  - assert (Hd := digits2_le m 53 ltac:(lia) ltac:(lia)).
    assert (Hn : Z.max 0 n = 0) by (unfold n, fexp, emin, prec64, emax64; lia). rewrite Hn, Z.pow_0_r, Z.div_1_r, Z.add_0_r. lia.
Qed.

(** The mantissa a value is rounded at, before the rounding. *)
Lemma first_shift mx ex :
  0 < mx ->
  let n := fexp prec64 emax64 (Zdigits2 mx + ex) - ex in
  let q := mx / 2 ^ Z.max 0 n in
  0 <= q < 2 ^ 53 /\ -1074 <= ex + Z.max 0 n /\ (2 ^ 52 <= q \/ ex + Z.max 0 n <= -1074 \/ n <= 0).
Proof.
  intros Hm n q. destruct mx as [|p|p]; try lia. assert (Hd := digits2_pos_spec p). change (Zdigits2 (Z.pos p)) with (Z.pos (digits2_pos p)) in n.
  assert (Hp : 0 < 2 ^ Z.max 0 n) by (apply pow2_pos; lia). set (d := Z.pos (digits2_pos p)) in *.
  assert (Hn : n = Z.max (d + ex - 53) (-1074) - ex) by reflexivity.
  split; [split; [apply Z.div_pos; lia|]|split; [lia|]].
  - apply Z.div_lt_upper_bound; [lia|]. rewrite <- Z.pow_add_r by lia.
    assert (2 ^ d <= 2 ^ (Z.max 0 n + 53)) by (apply Z.pow_le_mono_r; lia). lia.
  - destruct (Z.le_gt_cases n 0); [auto|]. destruct (Z.le_gt_cases (ex + Z.max 0 n) (-1074)); [auto|]. left.
    apply Z.div_le_lower_bound; [lia|]. rewrite <- Z.pow_add_r by lia. replace (Z.max 0 n + 52) with (d - 1) by lia. lia.
Qed.

(** The result of a rounding stays between two Numbers when the exact value is. *)
Lemma round_aux_between mx ex lo hi :
  0 < mx -> - scale <= ex -> lo <= mx * 2 ^ (ex + scale) <= hi -> rep lo -> rep hi -> hi < 2 ^ (890 + scale) ->
  between (binary_round_aux prec64 emax64 false mx ex loc_Exact) lo hi.
Proof.
  intros Hm He HV Hlo Hhi Hb. unfold binary_round_aux, shr_fexp. assert (Hfirst := first_shift mx ex Hm). cbn zeta in Hfirst.
  set (n := fexp _ _ (Zdigits2 mx + ex) - ex) in *.
  destruct (shr_div (shr_record_of_loc mx loc_Exact) ex n) as [E1 E2]; [rewrite shr_record_m; lia|].
  assert (E3 := shr_exact_loc mx ex n ltac:(lia)). rewrite shr_record_m in E1.
  destruct (shr (shr_record_of_loc mx loc_Exact) ex n) as [r1 e1]. cbn [fst snd] in E1, E2, E3. set (q := mx / 2 ^ Z.max 0 n) in *.
  set (m1 := round_nearest_even (shr_m r1) (loc_of_shr_record r1)).
  assert (Hm1 : q <= m1 <= q + 1) by (rewrite <- E1; apply round_even_le).
  assert (Hp : 0 < 2 ^ Z.max 0 n) by (apply pow2_pos; lia).
  assert (Hmod := Z.div_mod mx (2 ^ Z.max 0 n) ltac:(lia)). fold q in Hmod. assert (Hr := Z.mod_pos_bound mx (2 ^ Z.max 0 n) Hp).
  assert (Hpx : 0 < 2 ^ (ex + scale)) by (apply pow2_pos; lia).
  assert (EP : 2 ^ (e1 + scale) = 2 ^ Z.max 0 n * 2 ^ (ex + scale)) by (rewrite E2, <- Z.pow_add_r by lia; f_equal; lia).
  rewrite <- E2 in Hfirst. destruct Hfirst as (Hq & He1 & Hcases).
  assert (Hgrid : forall z, rep z -> (mx * 2 ^ (ex + scale) <= z -> m1 * 2 ^ (e1 + scale) <= z) /\ (z <= mx * 2 ^ (ex + scale) -> z <= m1 * 2 ^ (e1 + scale))).
  { intros z Hz. apply (grid_keeps _ q); [lia|done| | |done|nia|].
    - rewrite EP. nia.
    - rewrite EP. intros E. assert (mx mod 2 ^ Z.max 0 n = 0) by nia. unfold m1. rewrite E3, E1 by done. done.
    - destruct Hcases as [?|[?|Hn]]; [auto|auto|]. right. right. rewrite EP. replace (Z.max 0 n) with 0 in * by lia. rewrite Z.pow_0_r in *. nia. }
  destruct (Hgrid lo Hlo) as [_ Glo]. destruct (Hgrid hi Hhi) as [Ghi _]. specialize (Glo ltac:(lia)). specialize (Ghi ltac:(lia)).
  destruct (second_shift m1 e1 ltac:(lia) He1) as (S1 & S2 & S3). set (n2 := fexp _ _ (Zdigits2 m1 + e1) - e1) in *.
  destruct (shr_div (shr_record_of_loc m1 loc_Exact) e1 n2) as [F1 F2]; [rewrite shr_record_m; lia|].
  rewrite shr_record_m in F1. destruct (shr (shr_record_of_loc m1 loc_Exact) e1 n2) as [r2 e2]. cbn [fst snd] in F1, F2.
  rewrite <- F1, <- F2 in S1. rewrite <- F1 in S2. rewrite <- S1 in Glo, Ghi. clear -Glo Ghi S2 S3 F2 He1 Hb E2 He.
  destruct (shr_m r2) as [|m|m]; [cbn; lia| |lia].
  assert (He2 : e2 < 890).
  { destruct (Z.lt_ge_cases e2 890) as [|Hge]; [done|]. assert (2 ^ (890 + scale) <= 2 ^ (e2 + scale)) by (apply Z.pow_le_mono_r; lia).
    assert (0 < 2 ^ (e2 + scale)) by (apply pow2_pos; unfold scale; lia). nia. }
  rewrite Zle_imp_le_bool by (unfold emax64, prec64; lia). cbn [between]. split; [lia|]. split; [lia|]. done.
Qed.

Lemma round_between m e lo hi :
  - 3000 <= e -> lo <= Z.pos m * 2 ^ (e + scale) <= hi -> rep lo -> rep hi -> hi < 2 ^ (890 + scale) ->
  between (binary_round prec64 emax64 false m e) lo hi.
Proof.
  intros He Hv Hlo Hhi Hb. unfold binary_round. set (ex := fexp _ _ _).
  destruct (Z.le_gt_cases ex e) as [Hle|Hgt].
  - assert (Hx : -3100 <= ex) by (unfold ex, fexp, emin, prec64, emax64; lia).
    destruct (shl_align_mul m e ex Hle) as [_ E2]. assert (E1 := shl_align_scaled m e ex ltac:(unfold scale; lia)).
    destruct (shl_align m e ex) as [mz ez]. cbn [fst snd] in *. subst ez.
    apply round_aux_between; try done; [unfold scale; lia|lia].
  - assert (E : shl_align m e ex = (m, e)) by (unfold shl_align; by destruct (ex - e) eqn:E; [|done|lia]).
    rewrite E. apply round_aux_between; try done. unfold scale. lia.
Qed.

Lemma between_weaken x a b lo hi : between x a b -> lo <= a -> b <= hi -> between x lo hi.
Proof. destruct x as [[]|[]| |[] m e]; cbn [between]; try done; [lia|]. intros (H1 & H2 & H3) ? ?. split; [done|]. split; [done|]. lia. Qed.

(** A sum of two Numbers. *)
Lemma num_add_between x y a1 a2 b1 b2 lo hi :
  between x a1 a2 -> between y b1 b2 -> lo <= a1 + b1 -> a2 + b2 <= hi -> rep lo -> rep hi -> hi < 2 ^ (890 + scale) ->
  between (num_add x y) lo hi.
Proof.
  intros Hx Hy Hl Hh Rl Rh Hb.
  destruct x as [[]|[]| |[] mx ex]; try done; destruct y as [[]|[]| |[] my ey]; try done.
  - cbn [between] in *. cbn. lia.
  - cbn [between] in Hx. apply (between_weaken _ b1 b2); [exact Hy|lia|lia].
  - cbn [between] in Hy. apply (between_weaken _ a1 a2); [exact Hx|lia|lia].
  - unfold num_add, SFadd. set (ez := Z.min ex ey).
    destruct Hx as (Ex & _ & Hx), Hy as (Ey & _ & Hy).
    assert (A1 := shl_align_scaled mx ex ez ltac:(unfold scale; lia)).
    assert (A2 := shl_align_scaled my ey ez ltac:(unfold scale; lia)).
    cbn [cond_Zopp]. destruct (shl_align mx ex ez) as [m1 e1], (shl_align my ey ez) as [m2 e2]. cbn [fst] in *.
    change (Z.pos m1 + Z.pos m2) with (Z.pos (m1 + m2)). cbn [binary_normalize].
    apply round_between; [lia| |done|done|done]. rewrite Pos2Z.inj_add. lia.
Qed.

(** A product of two Numbers. *)
Lemma num_mul_between x y a1 a2 b1 b2 lo hi :
  between x a1 a2 -> between y b1 b2 -> 0 <= a1 -> 0 <= b1 -> lo * 2 ^ scale <= a1 * b1 -> a2 * b2 <= hi * 2 ^ scale ->
  rep lo -> rep hi -> hi < 2 ^ (890 + scale) -> between (num_mul x y) lo hi.
Proof.
  intros Hx Hy Ha Hb0 Hl Hh Rl Rh Hb. assert (Hs := scale_pos).
  destruct x as [[]|[]| |[] mx ex]; try done; destruct y as [[]|[]| |[] my ey]; try done; cbn [between] in Hx, Hy.
  1-3: cbn; nia.
  unfold num_mul, SFmul. cbn [xorb]. destruct Hx as (Ex & _ & Hx), Hy as (Ey & _ & Hy).
  assert (E : 2 ^ (ex + ey + scale) * 2 ^ scale = 2 ^ (ex + scale) * 2 ^ (ey + scale))
    by (rewrite <- !Z.pow_add_r by (unfold scale; lia); f_equal; lia).
  apply round_aux_between; try done; [unfold scale; lia|].
  assert (EV : Z.pos (mx * my) * 2 ^ (ex + ey + scale) * 2 ^ scale = (Z.pos mx * 2 ^ (ex + scale)) * (Z.pos my * 2 ^ (ey + scale)))
    by (rewrite Pos2Z.inj_mul, <- Z.mul_assoc, E; ring).
  split; apply (Z.mul_le_mono_pos_r _ _ (2 ^ scale)); try done; rewrite EV.
  - etrans; [exact Hl|]. apply Z.mul_le_mono_nonneg; lia.
  - etrans; [|exact Hh]. apply Z.mul_le_mono_nonneg; lia.
Qed.

Lemma trunc_between x a b : between x (a * 2 ^ scale) (b * 2 ^ scale) -> a <= num_trunc x <= b.
Proof.
  assert (Hs := scale_pos). destruct x as [[]|[]| |[] m e]; cbn [between num_trunc]; try done; [nia|]. intros (He & _ & Hv).
  destruct (Z.leb_spec 0 e) as [H|H].
  - rewrite Z.pow_add_r, Z.mul_assoc in Hv by (unfold scale; lia). nia.
  - assert (E : 2 ^ scale = 2 ^ (- e) * 2 ^ (e + scale)) by (rewrite <- Z.pow_add_r by (unfold scale; lia); f_equal; lia).
    assert (0 < 2 ^ (e + scale)) by (apply pow2_pos; unfold scale; lia). assert (0 < 2 ^ (- e)) by (apply pow2_pos; lia).
    rewrite E in Hv. split; [apply Z.div_le_lower_bound; [lia|]; nia|].
    enough (Z.pos m / 2 ^ (- e) < b + 1) by lia. apply Z.div_lt_upper_bound; [lia|]. nia.
Qed.

Lemma rep_int z : 0 <= z < 2 ^ 53 -> rep (z * 2 ^ scale).
Proof. intros Hz. destruct (Z.eq_dec z 0) as [->|]; [by left|]. right. exists z, 0. split; [done|]. lia. Qed.

Lemma int_between z : 0 <= z < 2 ^ 53 -> between (num_of_Z z) (z * 2 ^ scale) (z * 2 ^ scale).
Proof.
  intros Hz. destruct (Z.eq_dec z 0) as [->|]; [by cbn|].
  destruct (num_of_Z_full z) as (m & k & -> & Hk & Hm & Hd); [unfold safe_int; lia|lia|].
  assert (Hs := digits2_pos_spec m). rewrite Hd in Hs. cbn [between]. split; [lia|]. split; [lia|].
  rewrite Hm, <- Z.mul_assoc, <- Z.pow_add_r by (unfold scale; lia). replace (k + (- k + scale)) with scale by lia. lia.
Qed.

(** ** The jitter *)

(** The scaled values of the constants of the code, and a Number just above 1.15. *)
Definition v015 : Z := 5404319552844595 * 2 ^ (-55 + scale).
Definition v030 : Z := 5404319552844595 * 2 ^ (-54 + scale).
Definition v085 : Z := 7656119366529843 * 2 ^ (-53 + scale).
Definition v115 : Z := 5179139571476073 * 2 ^ (-52 + scale).

Lemma constants :
  between (num_decimal 15 (-2)) v015 v015 /\ between (num_decimal 3 (-1)) v030 v030 /\ between (num_decimal 85 (-2)) v085 v085.
Proof.
  replace (num_decimal 15 (-2)) with (S754_finite false 5404319552844595 (-55)) by (vm_compute; reflexivity).
  replace (num_decimal 3 (-1)) with (S754_finite false 5404319552844595 (-54)) by (vm_compute; reflexivity).
  replace (num_decimal 85 (-2)) with (S754_finite false 7656119366529843 (-53)) by (vm_compute; reflexivity).
  unfold v015, v030, v085. cbn [between]. repeat split; lia.
Qed.

Lemma reps : rep v015 /\ rep v030 /\ rep v085 /\ rep v115 /\ rep (2 ^ scale).
Proof.
  split; [|split; [|split; [|split]]]; right.
  - exists 5404319552844595, (-55). done.
  - exists 5404319552844595, (-54). done.
  - exists 7656119366529843, (-53). done.
  - exists 5179139571476073, (-52). done.
  - exists 1, 0. done.
Qed.

(** What [Math.random] gives. *)
Definition unit_number (random : number) : Prop := between random 0 (2 ^ scale).

Lemma random_part random range v :
  unit_number random -> between range v v -> rep v -> 0 <= v < 2 ^ (890 + scale) -> between (num_mul random range) 0 v.
Proof. intros Hr Hv Rv Hb. eapply num_mul_between; [exact Hr|exact Hv|lia|lia|lia|lia|by left|done|lia]. Qed.

(** The percentage of the delay: from 100 to 115, from 85 to 100, or from 85 to 115. *)
Lemma percentage_base random : unit_number random -> between (num_add (num_mul random (num_decimal 15 (-2))) (num_of_Z 1)) (2 ^ scale) v115.
Proof.
  intros Hr. destruct constants as (C1 & _), reps as (R1 & _ & _ & R4 & R5).
  assert (Hp := random_part _ _ _ Hr C1 R1 ltac:(by vm_compute)). assert (H1 := int_between 1 ltac:(lia)).
  eapply num_add_between; [exact Hp|exact H1|lia|by vm_compute|done|done|by vm_compute].
Qed.

Lemma percentage_max random : unit_number random -> between (num_add (num_mul random (num_decimal 15 (-2))) (num_decimal 85 (-2))) v085 (2 ^ scale).
Proof.
  intros Hr. destruct constants as (C1 & _ & C3), reps as (R1 & _ & R3 & _ & R5).
  assert (Hp := random_part _ _ _ Hr C1 R1 ltac:(by vm_compute)).
  eapply num_add_between; [exact Hp|exact C3|lia|by vm_compute|done|done|by vm_compute].
Qed.

Lemma percentage_other random : unit_number random -> between (num_add (num_mul random (num_decimal 3 (-1))) (num_decimal 85 (-2))) v085 v115.
Proof.
  intros Hr. destruct constants as (_ & C2 & C3), reps as (_ & R2 & R3 & R4 & _).
  assert (Hp := random_part _ _ _ Hr C2 R2 ltac:(by vm_compute)).
  eapply num_add_between; [exact Hp|exact C3|lia|by vm_compute|done|done|by vm_compute].
Qed.

(** The part of a delay that a percentage between two values gives. *)
Lemma part_between value p lo hi a b :
  0 <= value < 2 ^ 53 -> between p lo hi -> 0 <= lo -> 0 <= a < 2 ^ 53 -> 0 <= b < 2 ^ 53 ->
  a * 2 ^ scale <= value * lo -> value * hi <= b * 2 ^ scale -> a <= num_trunc (num_mul (num_of_Z value) p) <= b.
Proof.
  intros Hv Hp Hlo Ha Hb Hl Hh. assert (Hs := scale_pos). apply trunc_between.
  eapply num_mul_between; [by apply int_between|exact Hp|lia|done| | |by apply rep_int|by apply rep_int|].
  - nia.
  - nia.
  - assert (E : 2 ^ (890 + scale) = 2 ^ 890 * 2 ^ scale) by (apply Z.pow_add_r; [lia|unfold scale; lia]). rewrite E.
    apply Z.mul_lt_mono_pos_r; lia.
Qed.

Lemma low_part value : 0 < value <= 2 ^ 46 -> (17 * value - 1) / 20 * 2 ^ scale <= value * v085.
Proof.
  intros Hv. assert (E : 2 ^ scale = 2 ^ 53 * 2 ^ (-53 + scale)) by (vm_compute; reflexivity). unfold v085. rewrite E.
  assert (0 < 2 ^ (-53 + scale)) by (apply pow2_pos; unfold scale; lia). rewrite !Z.mul_assoc. apply Z.mul_le_mono_nonneg_r; lia.
Qed.

Lemma high_part value : 0 < value <= 2 ^ 46 -> value * v115 <= (23 * value / 20 + 1) * 2 ^ scale.
Proof.
  intros Hv. assert (E : 2 ^ scale = 2 ^ 52 * 2 ^ (-52 + scale)) by (vm_compute; reflexivity). unfold v115. rewrite E.
  assert (0 < 2 ^ (-52 + scale)) by (apply pow2_pos; unfold scale; lia). rewrite !Z.mul_assoc. apply Z.mul_le_mono_nonneg_r; lia.
Qed.

(** C40. The random part of a reconnection delay.  For every index of a schedule with a base and a maximum up to 2^46 milliseconds, and whatever
    the random number from 0 to 1, the delay is between 85 and 115 percent of the delay without it (up to one millisecond);
    a delay that is the base is not below the base, unless the policy starts without a delay; any other delay that is the maximum is not above
    it; and a delay of zero is left as it is.  This is what [_addJitter] promises and less than the comment of the class does: in the
    cases left out a delay can be below the base or above the maximum ([jitter_outside]). *)
Theorem jitter_bounds (p : exponential) (index : Z) (random : number) :
  0 < baseDelay p <= maxDelay p -> maxDelay p <= 2 ^ 46 -> -1 <= index -> unit_number random ->
  let raw := raw_delay p index in
  let delay := (exponential_next p index random).1 in
  (17 * raw - 1) / 20 <= delay <= 23 * raw / 20 + 1 /\
  (startWithNoDelay p = false -> raw = baseDelay p -> baseDelay p <= delay) /\
  ((startWithNoDelay p = true \/ raw <> baseDelay p) -> raw = maxDelay p -> delay <= maxDelay p) /\
  (raw = 0 -> delay = 0).
Proof.
  intros Hb Hm Hi Hr. cbn zeta. cbn [exponential_next fst].
  assert (Hraw : 0 <= raw_delay p index <= 2 ^ 46).
  { unfold raw_delay. assert (0 <= 2 ^ index) by (apply Z.pow_nonneg; lia). destruct (64 <=? index); [lia|]. destruct (negb (index =? -1)); [nia|lia]. }
  generalize (raw_delay p index), Hraw. clear Hraw Hi index. intros raw Hraw. unfold addJitter.
  destruct (Z.eqb_spec raw 0) as [->|Hne].
  { split; [by vm_compute|]. split; [lia|]. split; [lia|done]. }
  assert (H1 := low_part raw ltac:(lia)). assert (H2 := high_part raw ltac:(lia)). assert (H0 : 0 <= v085) by (by vm_compute).
  assert (Hone : raw * 2 ^ scale <= (23 * raw / 20 + 1) * 2 ^ scale) by (apply Z.mul_le_mono_nonneg_r; [apply Z.lt_le_incl, scale_pos|lia]).
  assert (Hs := scale_pos).
  destruct (startWithNoDelay p) eqn:Es, (Z.eqb_spec raw (baseDelay p)) as [Eb|Eb]; cbn [negb andb].
  3: { assert (Hp := part_between raw _ _ _ raw (23 * raw / 20 + 1) ltac:(lia) (percentage_base random Hr) ltac:(lia) ltac:(lia) ltac:(lia) ltac:(lia) H2).
       split; [lia|]. split; [lia|]. split; [intros [?|?]; done|lia]. }
  all: destruct (Z.eqb_spec raw (maxDelay p)) as [Ex|Ex].
  all: try (assert (Hp := part_between raw _ _ _ ((17 * raw - 1) / 20) raw ltac:(lia) (percentage_max random Hr) H0 ltac:(lia) ltac:(lia) H1 ltac:(lia));
            split; [lia|]; split; [try done; lia|]; split; [lia|lia]).
  all: assert (Hp := part_between raw _ _ _ ((17 * raw - 1) / 20) (23 * raw / 20 + 1) ltac:(lia) (percentage_other random Hr) H0 ltac:(lia) ltac:(lia) H1 H2);
    split; [lia|]; split; [try done; lia|]; split; [lia|lia].
Qed.

(** The default policy at its maximum, with the random number at its least. *)
Lemma jitter_bounds_witness : (exponential_next defaultReconnectionPolicy 12 (num_of_Z 0)).1 <= 600000.
Proof.
  apply (jitter_bounds defaultReconnectionPolicy 12 (num_of_Z 0)).
  - cbn. lia.
  - cbn. lia.
  - lia.
  - by vm_compute.
  - right. by vm_compute.
  - by vm_compute.
Defined.

(** Delays that the comment of the class excludes: below the base when the policy starts without a delay; above the maximum when the
    base is the maximum, and before the maximum is reached. *)
Lemma jitter_outside :
  (exponential_next (mkExponential 1000 60000 true) 0 (num_of_Z 0)).1 < 1000 /\
  1000 < (exponential_next (mkExponential 1000 1000 false) 0 (num_of_decimal false 9 (-1))).1 /\
  2100 < (exponential_next (mkExponential 1000 2100 false) 1 (num_of_decimal false 9 (-1))).1.
Proof. vm_compute. done. Qed.
